(* ===== verification/_CoqProject ===== *)
-Q . S2P
Prelude.v
Bytes.v
GuestMemory.v
LinearMemory.v
MappedMemory.v
AddressView.v
HostKernel.v
HostMemory.v
VaAllocator.v
LoadPlan.v
Loader.v
Placement.v
Dynamic.v
LinkerMetadata.v
LinkerStrings.v
Relro.v
DependencyResolver.v
Cpu.v
ServiceDispatch.v
AndroidLog.v
Graph.v
Lifecycle.v
SymbolVersioning.v
SymbolLookup.v
Relocation.v
DependencyLoader.v
LinkMap.v
Closure.v
Confinement.v
Session.v
Smoke.v
Diagnostics.v
HostProbe.v
