(* ===== verification/Prelude.v ===== *)
(** * liba32android: a verification library

    liba32android runs 32-bit ARM Android libraries inside a 64-bit process. The
    code under [src/src] has five parts, and one file here (or a few) per part. A
    C++ function keeps its name; a result struct with an [error] member is a value
    of [result E A]; an object that is mutated is passed and returned; machine
    integers are [Z] with the wrap-around written out ([u8], [u16], [u32], [u64]);
    bytes and strings are [list Z].

    ** Guest memory ([src/src/memory])
    - GuestMemory: [MemoryPermission] and the abstract class [GuestMemory] as a type
      class, with the contract ([GuestMemorySpec]) its clients are proved against.
    - LinearMemory, MappedMemory: the two implementations; both discharge the
      contract. [MappedGuestMemory] keeps the page-state bytes, the bytes of the
      4 GiB reservation and the host protections; the outcomes of the host calls
      ([mprotect], [madvise]) are part of the state, so failures part-way through a
      call are covered.
    - AddressView: the memory seen address by address (permission and byte), and
      what a loop of ranged operations does to it; used by every transactional
      client.
    - HostKernel: the calls to the host ([mmap], [mprotect], [madvise], [munmap],
      loads, stores, a call of generated code) as an interface, their documented
      behaviour ([HostKernelSpec]) and a small kernel that has it.
    - HostMemory: [MappedGuestMemory] with its three members over that interface,
      constructor and destructor included, as an implementation of MappedMemory.
    - VaAllocator: [find_free_guest_range].

    ** ELF images ([src/src/elf])
    - Bytes: little-endian fields and checked addition ([elf32_bytes.h]).
    - LoadPlan: [plan_elf32_load] on an untrusted image.
    - Loader: [load_elf32], map / write / protect with rollback.
    - Placement: [place_elf32_dynamic], a base for ET_DYN images.
    - Dynamic, LinkerMetadata, LinkerStrings: the dynamic array, the tables it
      names, the names of the dependencies.
    - Relro: [seal_elf32_gnu_relro].

    ** Linking ([src/src/elf/linking], [src/src/compat])
    - DependencyResolver: providers (catalog, chain, Android platform) and
      [resolve_elf32_dependencies].
    - Graph: the loaded-object graph and the link map, with reachability.
    - DependencyLoader: [load_elf32_dependency_graph], the recursive transactional
      load of a root and its dependencies.
    - LinkMap: [append_elf32_link_map_root] on a caller-owned link map.
    - SymbolVersioning, SymbolLookup: version requirements, the SysV and GNU hash
      tables, the breadth-first scoped lookup.
    - Relocation: decoding, planning and transactional application of REL tables.
    - Lifecycle: the constructor planner and the guest runs of INIT_ARRAY entries.

    ** Composition
    - Closure: what only the four memory operations can change ([OpClosed]), closed
      under load, seal, rollback, graph load and append; host coherence is one.
    - Confinement: what the running guest can change: [execute], constructor runs,
      service dispatch and relocation write only to pages that are writable.
    - Session: states reached by any sequence of appends, relocations, RELRO seals,
      constructor runs, guest calls and accesses of the embedder, whether they succeed
      or fail, and what holds in all of them.

    ** CPU and services ([src/src/cpu], [src/src/runtime], [src/src/compat])
    - Cpu: the environment callbacks and the bounded loop of [execute]. Dynarmic is a
      git submodule: one [Jit::Step] is a parameter, a program over the callbacks.
    - ServiceDispatch: [execute_a32_with_services] and the service registry.
    - AndroidLog: the [__android_log_write] service; the log sink is a parameter.
    - Smoke: [run_smoke] of the Android runtime smoke test, a client of
      [MappedGuestMemory] and [execute].
    - Diagnostics: the pure parts of the two Android programs under [src/tools]
      (crash markers, complete writes, log-file selection, argument parsing).
    - HostProbe: both programs as a whole: the reports, the probe's experiments with
      [mmap], [mprotect] and generated code, and [main] with its exit status, over
      HostKernel.

    ** What the theorems show
    - Safety on untrusted input: a plan, metadata, a symbol index or a string is only
      produced when every range it names lies inside the image or readable guest
      memory (plan_elf32_load_sound, build_elf32_linker_metadata_safe,
      build_elf32_symbol_index_safe, read_elf32_string_table_entry_spec).
    - Transactions: load, relocation, RELRO sealing, graph load and append either
      produce the described state or leave guest memory (and the link map) as it was
      (load_elf32_failure_atomic, combined_relocation_transactional,
      seal_elf32_gnu_relro_spec, load_elf32_dependency_graph_atomic,
      append_elf32_link_map_root_atomic).
    - Linking: the names of a loaded object are the DT_NEEDED names of its image and
      every edge leads to what the provider returned for its name
      (load_elf32_dependency_graph_success); the dynamic section is collected exactly
      (collect_elf32_linker_metadata_spec); a symbol matches a version request exactly
      as the VERSYM and VERDEF records in memory say (match_elf32_symbol_version_spec).
    - Invariants: the page table under any sequence of calls whose lengths do not wrap
      (mapped_reachable_wf; valid_page_range_wraps shows what happens to the others),
      the fastmem window (fastmem_respects_permissions), the link map
      (append_elf32_link_map_root_success, check_link_map_exact).
    - Whole sessions: every object stays mapped, linked and reachable and no page is
      writable and executable (session_invariant); what is not writable never changes
      again (session_frozen); sealing meets no error but the caller's limit or an
      executable page (session_seal), and a relocated word that was sealed keeps its
      value (sealed_relocations_persist); lookup and constructor planning run on valid
      graphs (session_lookup, session_init_plan).
    - The programs: the smoke test exits with 0 on any JIT that executes its four
      instructions with the fastmem contract, data accesses going to the host page or,
      where that traps, to the callback (smoke_main_passes); the probe leaves the address space as it found
      it and its status says whether W^X code generation works (probe_main_spec); the
      log file is a transcript of the console (log_file_transcript).
    - The host: every run of the guest memory object on the kernel is a run of the
      abstract memory, and destroying it gives the reservation back if munmap
      succeeds (host_memory_refines).
    - Equivalence and refinement: hash lookups against a linear search, the graph
      lookup against a scan of an explicitly ordered scope, the chunked string reader
      against the first NUL, page-wise reads against bytes.
    - Order: constructors run dependencies first except along cycles; the first-fit
      search returns the lowest base; relocation formulas.
    - Bounds and termination: instruction and service budgets, dependency budgets,
      the loops; a bounded run is exactly the machine's first steps up to the stop
      address (execute_bounded).

    ** Host failures
    The outcomes of [mprotect] and [madvise] are part of the memory's state, and
    [failures m] counts those still to come that fail. mapped_reachable_wf,
    host_memory_refines and seal_elf32_gnu_relro_spec hold for any outcomes,
    image loads, graph loads and appends for at most one failure
    (load_elf32_failure_atomic, load_elf32_dependency_graph_atomic,
    append_elf32_link_map_root_atomic), where the last two tell apart an undone call and
    a failing unmap of the rollback, reported as [RollbackFailed]. Sessions run on hosts
    whose calls succeed ([host_reliable] in [memory_ok]). Relocation is proved against
    [GuestMemorySpec], where a write that succeeded can be repeated.

    ** Fuel
    Loops whose recursion is not structural run on a fuel argument that is proved
    sufficient, so no theorem is of the form "if it returns": [loop] counts in binary
    ([exec_fuel] is [2^65], above any 64-bit instruction count); [visit_fuel] is the
    number of objects plus one (each nested visit marks one more object); [bfs_fuel]
    is the number of edges plus two (every queue entry but the first is an edge);
    [process_fuel] is [max_depth + 2] (a call below the depth limit returns at once);
    [chain_fuel] is [2^33], above any 32-bit symbol count. Running out of fuel, or
    indexing a vector out of range, is a distinguished value ([Stuck], [stuck]) that
    the theorems exclude.

    ** Not modelled
    - The Dynarmic JIT (submodule) and the host kernel: parameters with named
      hypotheses where a theorem needs them.
    - Allocation failure and C++ exceptions other than the constructor checks; a
      store the host traps (the runs of HostMemory are those that survive, and on a
      host whose calls succeed all do).
    - The formatting of printed lines (a line is a key and a value), the parsing of
      [/proc] files (their entries are given) and what printing does to [errno]; the
      C++ tests and fixture scripts. *)

From stdpp Require Export prelude gmap list list_numbers numbers strings.
From Stdlib Require Export ZArith Lia.

#[global] Open Scope Z_scope.
#[global] Unset Program Cases.

(** ** Results: the code's result structs with an [error] member

    A C++ function that returns a struct with an [error] field (and default
    payload on failure) is a function into [result E A]. *)
Inductive result (E A : Type) : Type :=
| Ok (a : A)
| Err (e : E).

Arguments Ok {E A} a.
Arguments Err {E A} e.

#[export] Instance result_ret {E} : MRet (result E) := fun A a => Ok a.

#[export] Instance result_bind {E} : MBind (result E) :=
  fun A B f m => match m with Ok a => f a | Err e => Err e end.

(** [if (bad) return failure(e);] *)
Definition fail_if {E} (bad : bool) (e : E) : result E unit :=
  if bad then Err e else Ok tt.

(** [if (!opt) return failure(e);] for an out-parameter computation. *)
Definition or_fail {E A} (o : option A) (e : E) : result E A :=
  match o with Some a => Ok a | None => Err e end.

(** A nested call whose error is translated by the caller. *)
Definition map_err {E F A} (f : E -> F) (r : result E A) : result F A :=
  match r with Ok a => Ok a | Err e => Err (f e) end.

Definition is_ok {E A} (r : result E A) : bool :=
  match r with Ok _ => true | Err _ => false end.

(** [container.empty()] *)
Definition is_empty {A} (l : list A) : bool := match l with [] => true | _ => false end.

Lemma is_empty_false {A} (l : list A) : is_empty l = false -> l <> [].
Proof. by destruct l. Qed.

(** A loop that threads a state over a sequence and returns at the first
    failing iteration. *)
Fixpoint foldE {E A S : Type} (step : S -> A -> result E S) (s : S) (l : list A)
    : result E S :=
  match l with
  | [] => Ok s
  | x :: l' => s' ← step s x; foldE step s' l'
  end.

(** A loop that appends one element per iteration. *)
Fixpoint mapE {E A B : Type} (f : A -> result E B) (l : list A)
    : result E (list B) :=
  match l with
  | [] => Ok []
  | x :: l' => y ← f x; ys ← mapE f l'; Ok (y :: ys)
  end.

Lemma bind_ok {E A B} (m : result E A) (f : A -> result E B) b :
  (x ← m; f x) = Ok b <-> exists a, m = Ok a /\ f a = Ok b.
Proof. destruct m as [a|e]; cbn; naive_solver. Qed.

Lemma bind_err {E A B} (m : result E A) (f : A -> result E B) e :
  (x ← m; f x) = Err e <-> m = Err e \/ exists a, m = Ok a /\ f a = Err e.
Proof. destruct m as [a|e']; cbn; naive_solver. Qed.

Lemma fail_if_ok {E} b (e : E) u : fail_if b e = Ok u <-> b = false.
Proof. destruct b, u; cbn; naive_solver. Qed.

(** Testing one bit with a mask. *)
Lemma land_bit v i : 0 <= i -> (Z.land v (2 ^ i) =? 0) = negb (Z.testbit v i).
Proof.
  intros Hi. destruct (Z.testbit v i) eqn:E.
  - apply Z.eqb_neq. intros H0. assert (H : Z.testbit (Z.land v (2 ^ i)) i = true)
      by (by rewrite Z.land_spec, E, Z.pow2_bits_true).
    by rewrite H0, Z.bits_0 in H.
  - apply Z.eqb_eq, Z.bits_inj'. intros j Hj. rewrite Z.land_spec, Z.bits_0.
    destruct (decide (j = i)) as [->|Hne]; [by rewrite E|].
    rewrite Z.pow2_bits_false by done. apply andb_false_r.
Qed.

Lemma eqb_bool_decide (x y : Z) : (x =? y) = bool_decide (x = y).
Proof. destruct (Z.eqb_spec x y); [by rewrite bool_decide_true|by rewrite bool_decide_false]. Qed.

Lemma fail_if_then {E A} b (e : E) (m : result E A) r :
  (fail_if b e ;; m) = Ok r <-> b = false /\ m = Ok r.
Proof. destruct b; cbn; naive_solver. Qed.

Lemma then_ok {E A} (m1 : result E unit) (m2 : result E A) r :
  (m1 ;; m2) = Ok r <-> m1 = Ok tt /\ m2 = Ok r.
Proof. destruct m1 as [[]|e]; cbn; naive_solver. Qed.

Lemma fail_if_err {E} b (e e' : E) : fail_if b e = Err e' <-> b = true /\ e = e'.
Proof. destruct b; cbn; naive_solver. Qed.

Lemma or_fail_ok {E A} (o : option A) (e : E) a : or_fail o e = Ok a <-> o = Some a.
Proof. destruct o; cbn; naive_solver. Qed.

Lemma or_fail_err {E A} (o : option A) (e e' : E) :
  or_fail o e = Err e' <-> o = None /\ e = e'.
Proof. destruct o; cbn; naive_solver. Qed.

Lemma map_err_ok {E F A} (f : E -> F) (r : result E A) a :
  map_err f r = Ok a <-> r = Ok a.
Proof. destruct r; cbn; naive_solver. Qed.

Lemma foldE_app {E A S} (step : S -> A -> result E S) s l1 l2 :
  foldE step s (l1 ++ l2) = (s' ← foldE step s l1; foldE step s' l2).
Proof.
  revert s; induction l1 as [|x l1 IH]; intros s; [done|]. cbn.
  destruct (step s x); cbn; [apply IH|done].
Qed.

(** Invariant rule of [foldE]. *)
Lemma foldE_ind {E A S} (step : S -> A -> result E S) (P : S -> Prop) s l s' :
  P s ->
  (forall s x s', x ∈ l -> P s -> step s x = Ok s' -> P s') ->
  foldE step s l = Ok s' -> P s'.
Proof.
  revert s; induction l as [|x l IH]; intros s Hs Hstep Hf; cbn in Hf.
  { by simplify_eq. }
  apply bind_ok in Hf as (s1 & H1 & H2).
  eapply (IH s1); [|intros; eapply Hstep; [by right|done..]|done].
  eapply Hstep; [by left|done..].
Qed.

Lemma mapE_Forall2 {E A B} (f : A -> result E B) l l' :
  mapE f l = Ok l' <-> Forall2 (fun x y => f x = Ok y) l l'.
Proof.
  revert l'; induction l as [|x l IH]; intros l'; cbn; split; intros H.
  - simplify_eq. constructor.
  - by inversion H.
  - apply bind_ok in H as (y & Hy & H). apply bind_ok in H as (ys & Hys & H).
    simplify_eq. constructor; [done|]. by apply IH.
  - inversion H; simplify_eq. rewrite (proj2 (IH _)) by done.
    by match goal with Hf : f _ = _ |- _ => rewrite Hf end.
Qed.

Lemma mapM_ext_elem {A B} (f g : A -> option B) l :
  (forall x, x ∈ l -> f x = g x) -> mapM f l = mapM g l.
Proof.
  induction l as [|x l IH]; intros Hfg; [done|]. cbn.
  rewrite (Hfg x) by by left. rewrite IH; [done|]. intros y Hy. apply Hfg. by right.
Qed.

Lemma mapM_app {A B} (f : A -> option B) l1 l2 :
  mapM f (l1 ++ l2) = (k1 ← mapM f l1; k2 ← mapM f l2; Some (k1 ++ k2)).
Proof.
  induction l1 as [|x l1 IH]; cbn.
  - by destruct (mapM f l2).
  - destruct (f x); cbn; [|done]. rewrite IH.
    destruct (mapM f l1), (mapM f l2); done.
Qed.

Lemma forallb_elem {A} (f : A -> bool) l :
  forallb f l = true <-> forall x, x ∈ l -> f x = true.
Proof. rewrite forallb_forall. by setoid_rewrite list_elem_of_In. Qed.

Lemma existsb_elem {A} (f : A -> bool) l :
  existsb f l = true <-> exists x, x ∈ l /\ f x = true.
Proof. rewrite existsb_exists. by setoid_rewrite list_elem_of_In. Qed.

Lemma forallb_ext_elem {A} (f g : A -> bool) l :
  (forall x, x ∈ l -> f x = g x) -> forallb f l = forallb g l.
Proof.
  induction l as [|x l IH]; intros Hfg; [done|]. cbn.
  rewrite (Hfg x) by by left. rewrite IH; [done|]. intros y Hy. apply Hfg. by right.
Qed.

Lemma Forall2_impl_elem {A B} (P Q : A -> B -> Prop) l l' :
  Forall2 P l l' -> (forall x y, x ∈ l -> y ∈ l' -> P x y -> Q x y) -> Forall2 Q l l'.
Proof.
  intros HF. induction HF as [|x y l l' Hxy HF IH]; intros HPQ; constructor.
  - apply HPQ; [by left|by left|done].
  - apply IH. intros. apply HPQ; [by right|by right|done].
Qed.

Lemma Forall2_elem_l {A B} (P : A -> B -> Prop) l l' x :
  Forall2 P l l' -> x ∈ l -> exists y, y ∈ l' /\ P x y.
Proof.
  induction 1 as [|a b l l' Hab _ IH]; intros Hx; [by apply not_elem_of_nil in Hx|].
  apply elem_of_cons in Hx as [->|Hx]; [exists b; split; [by left|done]|].
  destruct (IH Hx) as (y & Hy & Hxy). exists y. split; [by right|done].
Qed.

Lemma Forall2_elem_r {A B} (P : A -> B -> Prop) l l' y :
  Forall2 P l l' -> y ∈ l' -> exists x, x ∈ l /\ P x y.
Proof.
  intros HF. induction HF as [|x z l l' Hxy HF IH]; intros Hy; [by apply not_elem_of_nil in Hy|].
  apply elem_of_cons in Hy as [->|Hy].
  - exists x. split; [by left|done].
  - destruct (IH Hy) as (w & ? & ?). exists w. split; [by right|done].
Qed.

(** [inv_ok]: take a successful monadic run apart into its steps. *)
Ltac inv_ok_step :=
  match goal with
  | H : (_ ≫= _) = Ok _ |- _ => apply bind_ok in H; destruct H as (? & ? & H)
  | H : fail_if _ _ = Ok _ |- _ => apply fail_if_ok in H
  | H : or_fail _ _ = Ok _ |- _ => apply or_fail_ok in H
  | H : map_err _ _ = Ok _ |- _ => apply map_err_ok in H
  | H : Ok _ = Ok _ |- _ => injection H as H; subst
  | H : Err _ = Ok _ |- _ => discriminate H
  | H : Ok _ = Err _ |- _ => discriminate H
  | H : unit |- _ => destruct H
  end.

Ltac inv_ok := repeat inv_ok_step.

(** ** Boolean guards of the code as propositions *)
Ltac bool_prop :=
  repeat match goal with
  | H : (_ || _) = false |- _ => apply orb_false_iff in H; destruct H
  | H : (_ && _) = true |- _ => apply andb_true_iff in H; destruct H
  | H : negb _ = false |- _ => apply negb_false_iff in H
  | H : negb _ = true |- _ => apply negb_true_iff in H
  | H : (_ =? _) = true |- _ => apply Z.eqb_eq in H
  | H : (_ =? _) = false |- _ => apply Z.eqb_neq in H
  | H : (_ <? _) = true |- _ => apply Z.ltb_lt in H
  | H : (_ <? _) = false |- _ => apply Z.ltb_ge in H
  | H : (_ <=? _) = true |- _ => apply Z.leb_le in H
  | H : (_ <=? _) = false |- _ => apply Z.leb_gt in H
  end.

(** [case_head H]: split on the outermost [if] of [H : (if c then _ else _) = _],
    naming the condition's equation [E]. *)
Ltac case_head H E :=
  lazymatch type of H with (if ?c then _ else _) = _ => destruct c eqn:E end.

(** ** Machine words *)
Definition u8 (z : Z) : Z := z mod 2 ^ 8.
Definition u16 (z : Z) : Z := z mod 2 ^ 16.
Definition u32 (z : Z) : Z := z mod 2 ^ 32.
Definition u64 (z : Z) : Z := z mod 2 ^ 64.

(** [std::bit_cast<std::int32_t>] of a 32-bit value, and back. *)
Definition i32 (z : Z) : Z := if z <? 2 ^ 31 then z else z - 2 ^ 32.

Definition is_u8 (z : Z) : Prop := 0 <= z < 2 ^ 8.
Definition is_u16 (z : Z) : Prop := 0 <= z < 2 ^ 16.
Definition is_u32 (z : Z) : Prop := 0 <= z < 2 ^ 32.
Definition is_u64 (z : Z) : Prop := 0 <= z < 2 ^ 64.

Definition UINT32_MAX : Z := 2 ^ 32 - 1.

(** The code's [kGuestAddressSpaceSize] / [MappedGuestMemory::kAddressSpaceSize]. *)
Definition kGuestAddressSpaceSize : Z := 2 ^ 32.

Lemma u32_small z : is_u32 z -> u32 z = z.
Proof. apply Z.mod_small. Qed.

Lemma u64_small z : is_u64 z -> u64 z = z.
Proof. apply Z.mod_small. Qed.

Lemma u32_range z : is_u32 (u32 z).
Proof. apply Z.mod_pos_bound. lia. Qed.

Lemma u8_range z : is_u8 (u8 z).
Proof. apply Z.mod_pos_bound. lia. Qed.

Create HintDb words.
#[export] Hint Resolve u32_range u8_range : words.
Create Rewrite HintDb words.
#[export] Hint Rewrite u32_small u64_small using (unfold is_u32, is_u64 in *; lia) : words.

(** [word_lia]: linear arithmetic with the word bounds unfolded. *)
Ltac word_lia :=
  unfold is_u8, is_u16, is_u32, is_u64, UINT32_MAX, kGuestAddressSpaceSize in *; lia.

(** [mod_lia]: as [word_lia], with [/] and [mod] by constants or positive
    variables turned into their defining equations. *)
Ltac mod_lia :=
  unfold is_u8, is_u16, is_u32, is_u64, UINT32_MAX, kGuestAddressSpaceSize in *;
  Z.to_euclidean_division_equations; nia.

(** ** Sparse vectors

    A large zero-initialised array ([std::vector<std::uint8_t>] of a page per
    element, or the 4 GiB anonymous reservation) is a finite map whose absent
    entries are 0. *)
Definition cell (v : gmap Z Z) (i : Z) : Z := default 0 (v !! i).

(** [std::fill_n(v.begin() + first, count, x)] *)
Definition fill_n (first count x : Z) (v : gmap Z Z) : gmap Z Z :=
  foldr (fun i w => <[i := x]> w) v (seqZ first count).

(** Store consecutive elements ([std::memcpy] into the array). *)
Fixpoint poke (a : Z) (xs : list Z) (v : gmap Z Z) : gmap Z Z :=
  match xs with
  | [] => v
  | x :: xs' => <[a := x]> (poke (a + 1) xs' v)
  end.

(** Reset a range to 0. *)
Definition discard (a n : Z) (v : gmap Z Z) : gmap Z Z :=
  filter (fun kv => ~ (a <= kv.1 < a + n)) v.

Lemma cell_empty i : cell ∅ i = 0.
Proof. unfold cell. by rewrite lookup_empty. Qed.

Lemma cell_insert v i x j : cell (<[i := x]> v) j = if decide (i = j) then x else cell v j.
Proof. unfold cell. rewrite lookup_insert. by case_decide. Qed.

Lemma cell_fill_n first count x v i :
  cell (fill_n first count x v) i =
  if decide (first <= i < first + count) then x else cell v i.
Proof.
  transitivity (if decide (i ∈ seqZ first count) then x else cell v i).
  - unfold fill_n. induction (seqZ first count) as [|j l IH]; cbn [foldr].
    { rewrite decide_False by apply not_elem_of_nil. done. }
    rewrite cell_insert, IH. repeat case_decide; set_solver.
  - apply decide_ext. apply elem_of_seqZ.
Qed.

Lemma cell_poke a xs v i :
  cell (poke a xs v) i =
  if decide (a <= i < a + Z.of_nat (length xs))
  then default 0 (xs !! Z.to_nat (i - a)) else cell v i.
Proof.
  revert a; induction xs as [|x xs IH]; intros a; cbn [poke length].
  { rewrite decide_False by lia. done. }
  rewrite cell_insert, IH. repeat case_decide; try lia; try done.
  - subst. by rewrite Z.sub_diag.
  - replace (Z.to_nat (i - a)) with (S (Z.to_nat (i - (a + 1)))) by lia. done.
Qed.

Lemma cell_discard a n v i :
  cell (discard a n v) i = if decide (a <= i < a + n) then 0 else cell v i.
Proof.
  unfold cell, discard. rewrite map_lookup_filter. destruct (v !! i); cbn; [|by case_decide].
  unfold guard. repeat case_decide; done || lia.
Qed.

(** ** Searching and ordered pairs *)
Lemma find_fmap {A B} (p : B -> bool) (g : A -> B) l :
  List.find p (g <$> l) = g <$> List.find (fun x => p (g x)) l.
Proof. induction l as [|x l IH]; [done|]. cbn. by destruct (p (g x)). Qed.

Lemma find_app {A} (p : A -> bool) l1 l2 :
  List.find p (l1 ++ l2) = match List.find p l1 with Some x => Some x | None => List.find p l2 end.
Proof. induction l1 as [|x l1 IH]; [done|]. cbn. by destruct (p x). Qed.

Lemma ForallOrdPairs_app {A} (R : A -> A -> Prop) l1 l2 :
  ForallOrdPairs R l1 -> ForallOrdPairs R l2 -> (forall x y, x ∈ l1 -> y ∈ l2 -> R x y) ->
  ForallOrdPairs R (l1 ++ l2).
Proof.
  intros H1 H2 H12. induction H1 as [|x l1 Hx H1 IH]; [done|]. cbn. constructor.
  - apply Forall_app_2; [done|]. apply Forall_forall. intros y Hy. apply H12; [by left|done].
  - apply IH. intros y z Hy. apply H12. by right.
Qed.

(** ** Lists extended at the end *)
Lemma imap_pair_snoc {A} (l : list A) x : imap pair (l ++ [x]) = imap pair l ++ [(length l, x)].
Proof. rewrite imap_app. cbn. by rewrite Nat.add_0_r. Qed.

Lemma mapE_err {E A B} (g : A -> result E B) l e : mapE g l = Err e -> exists x, x ∈ l /\ g x = Err e.
Proof.
  induction l as [|x l IH]; [done|]. cbn. intros Hr.
  apply bind_err in Hr as [Hr|(y & _ & Hr)]; [exists x; split; [by left|done]|].
  apply bind_err in Hr as [Hr|(ys & _ & ?)]; [|done]. destruct (IH Hr) as (z & Hz & Hg).
  exists z. split; [by right|done].
Qed.

Lemma foldE_err {E A S} (step : S -> A -> result E S) s l e :
  foldE step s l = Err e -> exists s1 x, x ∈ l /\ step s1 x = Err e.
Proof.
  revert s; induction l as [|x l IH]; intros s H; cbn in H; [done|].
  destruct (step s x) as [s1|e1] eqn:E1; cbn in H.
  - destruct (IH s1 H) as (s2 & y & Hy & Hs). exists s2, y. split; [by right|done].
  - injection H as <-. exists s, x. split; [by left|done].
Qed.

Lemma foldE_snoc {E A S} (step : S -> A -> result E S) s l x s' :
  foldE step s (l ++ [x]) = Ok s' <-> exists s1, foldE step s l = Ok s1 /\ step s1 x = Ok s'.
Proof.
  rewrite foldE_app, bind_ok. cbn. split; intros (s1 & H1 & H2); exists s1; (split; [done|]).
  - apply bind_ok in H2 as (s2 & H2 & [= <-]). done.
  - by rewrite H2.
Qed.

Lemma NoDup_fmap_snoc {A B} (f : A -> B) l x :
  NoDup (f <$> l ++ [x]) <-> NoDup (f <$> l) /\ f x ∉ f <$> l.
Proof.
  rewrite fmap_app, NoDup_app. cbn. split.
  - intros (H1 & H2 & _). split; [done|]. intros Hin. apply (H2 _ Hin). by left.
  - intros [H1 H2]. split_and!; [done| |apply NoDup_singleton]. intros y Hy ->%list_elem_of_singleton. done.
Qed.

Lemma Forall_snoc {A} (P : A -> Prop) l x : Forall P (l ++ [x]) <-> Forall P l /\ P x.
Proof. rewrite Forall_app. by rewrite Forall_singleton. Qed.

(** ** Folds that check a list

    [Acc l1 x]: the fold accepts [x] after the prefix [l1]. *)
Definition accepted {A} (Acc : list A -> A -> Prop) (l : list A) : Prop :=
  forall l1 x l2, l = l1 ++ x :: l2 -> Acc l1 x.

Lemma accepted_nil {A} (Acc : list A -> A -> Prop) : accepted Acc [].
Proof. intros [|] x l2 [=]. Qed.

Lemma accepted_snoc {A} (Acc : list A -> A -> Prop) l x :
  accepted Acc (l ++ [x]) <-> accepted Acc l /\ Acc l x.
Proof.
  split.
  - intros H. split; [|by apply (H l x [])]. intros l1 y l2 ->. apply (H l1 y (l2 ++ [x])).
    by rewrite <- app_assoc.
  - intros [H Hx] l1 y l2 He. destruct l2 as [|z l2 _] using rev_ind.
    + apply app_inj_2 in He as [-> [= ->]]; [done|done].
    + rewrite app_comm_cons, app_assoc in He. apply app_inj_2 in He as [-> _]; [|done]. by eapply H.
Qed.

Lemma accepted_iff {A} (Acc : list A -> A -> Prop) (P : list A -> Prop) :
  P [] -> (forall l x, P (l ++ [x]) <-> P l /\ Acc l x) -> forall l, accepted Acc l <-> P l.
Proof.
  intros H0 Hs l. induction l as [|x l IH] using rev_ind.
  - split; [done|]. intros _. apply accepted_nil.
  - by rewrite accepted_snoc, Hs, IH.
Qed.

Section checking_fold.
Context {E A S : Type} (step : S -> A -> result E S) (s0 : S).
Context (Inv : list A -> S -> Prop) (Acc : list A -> A -> Prop).
Hypothesis Inv_start : Inv [] s0.
Hypothesis Inv_step : forall l x s s', Inv l s -> step s x = Ok s' -> Acc l x /\ Inv (l ++ [x]) s'.
Hypothesis Acc_step : forall l x s, Inv l s -> Acc l x -> exists s', step s x = Ok s'.

Lemma checking_fold_sound l s : foldE step s0 l = Ok s -> accepted Acc l /\ Inv l s.
Proof.
  revert s. induction l as [|x l IH] using rev_ind; intros s.
  - intros [= <-]. split; [apply accepted_nil|done].
  - intros (s1 & H1 & H2)%foldE_snoc. destruct (IH _ H1) as [Ha Hi].
    destruct (Inv_step _ _ _ _ Hi H2) as [Hx Hi2]. by rewrite accepted_snoc.
Qed.

Lemma checking_fold_complete l : accepted Acc l -> exists s, foldE step s0 l = Ok s.
Proof.
  induction l as [|x l IH] using rev_ind; intros Ha; [by eexists|].
  apply accepted_snoc in Ha as [Ha Hx]. destruct (IH Ha) as [s1 H1].
  destruct (Acc_step l x s1) as [s2 H2]; [by apply checking_fold_sound|done|].
  exists s2. apply foldE_snoc. by exists s1.
Qed.
End checking_fold.

(** ** While loops

    [loop p step s] runs [step] at most [p] times; [inl] continues, [inr]
    leaves the loop. The fuel is binary, so a bound such as 2^33 costs nothing
    when the loop leaves early. *)
Fixpoint loop {S R : Type} (p : positive) (step : S -> S + R) (s : S) : S + R :=
  match p with
  | xH => step s
  | xO q =>
      match loop q step s with inl s' => loop q step s' | inr r => inr r end
  | xI q =>
      match step s with
      | inl s1 => match loop q step s1 with inl s' => loop q step s' | inr r => inr r end
      | inr r => inr r
      end
  end.

Fixpoint loop_nat {S R : Type} (n : nat) (step : S -> S + R) (s : S) : S + R :=
  match n with
  | O => inl s
  | Datatypes.S n' => match step s with inl s' => loop_nat n' step s' | inr r => inr r end
  end.

Lemma loop_nat_add {S R} n k (step : S -> S + R) s :
  loop_nat (n + k) step s =
  match loop_nat n step s with inl s' => loop_nat k step s' | inr r => inr r end.
Proof.
  revert s; induction n as [|n IH]; intros s; cbn; [done|]. destruct (step s); auto.
Qed.

Lemma loop_loop_nat {S R} p (step : S -> S + R) s :
  loop p step s = loop_nat (Pos.to_nat p) step s.
Proof.
  revert s; induction p as [q IH|q IH|]; intros s; cbn [loop].
  - replace (Pos.to_nat q~1) with (Datatypes.S (Pos.to_nat q + Pos.to_nat q)) by lia. cbn.
    destruct (step s) as [s1|r]; [|done]. rewrite loop_nat_add, <- IH.
    destruct (loop q step s1); auto.
  - replace (Pos.to_nat q~0) with (Pos.to_nat q + Pos.to_nat q)%nat by lia.
    rewrite loop_nat_add, <- IH. destruct (loop q step s); auto.
  - change (Pos.to_nat 1) with 1%nat. cbn. by destruct (step s).
Qed.

(** What every exit of the body establishes, the loop's result has. *)
Lemma loop_nat_exit {S R} (Q : R -> Prop) n (step : S -> S + R) s r :
  (forall s r, step s = inr r -> Q r) -> loop_nat n step s = inr r -> Q r.
Proof.
  intros Hstep. revert s; induction n as [|n IH]; intros s Hr; cbn in Hr; [done|].
  destruct (step s) as [s'|r'] eqn:E; [by apply (IH s')|]. injection Hr as <-. by apply (Hstep s).
Qed.

Lemma loop_exit {S R} (Q : R -> Prop) p (step : S -> S + R) s r :
  (forall s r, step s = inr r -> Q r) -> loop p step s = inr r -> Q r.
Proof. rewrite loop_loop_nat. apply loop_nat_exit. Qed.

(** Total-correctness rule: an invariant [I], a variant [mu] below the fuel. *)
Lemma loop_rule {S R} (I : S -> Prop) (Q : R -> Prop) (mu : S -> Z) p (step : S -> S + R) s :
  (forall s, I s -> match step s with
                    | inl s' => I s' /\ 0 <= mu s' < mu s
                    | inr r => Q r
                    end) ->
  I s -> 0 <= mu s < Zpos p ->
  exists r, loop p step s = inr r /\ Q r.
Proof.
  intros Hstep Hs Hmu. rewrite loop_loop_nat.
  assert (Hn : mu s < Z.of_nat (Pos.to_nat p)) by lia. clear -Hstep Hs Hn Hmu.
  destruct Hmu as [H0 _]. revert s Hs Hn H0.
  induction (Pos.to_nat p) as [|n IH]; intros s Hs Hn H0; [lia|]. cbn.
  specialize (Hstep s Hs) as Hs'. destruct (step s) as [s'|r]; [|by exists r].
  destruct Hs' as [HI Hmu]. apply IH; [done|lia..].
Qed.

(** The values of [for (x = start; x < stop; x += step)]. *)
Definition strided (start stop step : Z) : list Z :=
  (fun i => start + i * step) <$> seqZ 0 ((stop - start + step - 1) / step).

Lemma elem_of_strided start stop step x :
  0 < step ->
  x ∈ strided start stop step <-> exists i, 0 <= i /\ x = start + i * step /\ x < stop.
Proof.
  intros Hs. unfold strided. rewrite list_elem_of_fmap. setoid_rewrite elem_of_seqZ.
  split.
  - intros (i & -> & Hi). exists i. split_and!; [lia|done|].
    assert (i <= (stop - start + step - 1) / step - 1) by lia.
    pose proof (Z.mul_div_le (stop - start + step - 1) step Hs). nia.
  - intros (i & Hi & -> & Hx). exists i. split; [done|]. split; [lia|].
    apply Z.lt_le_trans with (i + 1); [lia|]. apply Z.div_le_lower_bound; [done|]. nia.
Qed.

Lemma strided_nil start stop step : 0 < step -> stop <= start -> strided start stop step = [].
Proof.
  intros Hs Hle. unfold strided.
  replace (seqZ 0 _) with (@nil Z); [done|]. symmetry. apply seqZ_nil.
  assert ((stop - start + step - 1) / step < 1) by (apply Z.div_lt_upper_bound; lia). lia.
Qed.

Lemma strided_cons start stop step :
  0 < step -> start < stop ->
  strided start stop step = start :: strided (start + step) stop step.
Proof.
  intros Hs Hlt. unfold strided.
  replace (stop - start + step - 1) with (1 * step + (stop - (start + step) + step - 1)) by lia.
  rewrite Z.div_add_l by lia.
  assert (0 <= (stop - (start + step) + step - 1) / step) by (apply Z.div_pos; lia).
  rewrite seqZ_cons by lia. cbn [fmap list_fmap]. f_equal; [lia|].
  change (Z.succ 0) with (1 + 0).
  replace (Z.pred _) with ((stop - (start + step) + step - 1) / step) by lia.
  rewrite <- fmap_add_seqZ, <- list_fmap_compose. apply list_fmap_ext. intros i x _. cbn. lia.
Qed.
