(* ===== verification/Bytes.v ===== *)
(** * ELF byte decoding helpers ([src/src/elf/internal/elf32_bytes.h])

    Little-endian decoding of 16- and 32-bit fields, the 32-bit encoder the
    relocation layer writes words with, and overflow-checked guest-address
    addition.  A byte buffer is a [list Z]; a read outside the buffer, which is
    undefined behaviour in the code, yields 0 here, and every user is shown to
    stay inside. *)

From S2P Require Import Prelude.

Definition is_byte (b : Z) : Prop := 0 <= b < 2 ^ 8.
Definition is_bytes (bs : list Z) : Prop := Forall is_byte bs.

(** [bytes[i]] *)
Definition byte_at (bs : list Z) (i : Z) : Z := default 0 (bs !! Z.to_nat i).

(** [detail::decode_u16_le(bytes, offset)] *)
Definition decode_u16_le (bs : list Z) (offset : Z) : Z :=
  Z.lor (byte_at bs offset) (Z.shiftl (byte_at bs (offset + 1)) 8).

(** [detail::decode_u32_le(bytes, offset)] *)
Definition decode_u32_le (bs : list Z) (offset : Z) : Z :=
  Z.lor (Z.lor (Z.lor (byte_at bs offset)
                      (Z.shiftl (byte_at bs (offset + 1)) 8))
               (Z.shiftl (byte_at bs (offset + 2)) 16))
        (Z.shiftl (byte_at bs (offset + 3)) 24).

(** The byte array [write_word] stores: [value], [value >> 8], ... truncated to
    eight bits each. *)
Definition encode_u32_le (value : Z) : list Z :=
  [u8 value; u8 (Z.shiftr value 8); u8 (Z.shiftr value 16); u8 (Z.shiftr value 24)].

(** [detail::checked_add_guest_address]: the sum is computed in 64 bits. *)
Definition checked_add_guest_address (base offset : Z) : option Z :=
  let value := u64 (base + offset) in
  if UINT32_MAX <? value then None else Some (u32 value).

(** ** Decoding *)

Lemma byte_at_range bs i : is_bytes bs -> is_byte (byte_at bs i).
Proof.
  intros Hbs. unfold byte_at. destruct (bs !! Z.to_nat i) as [b|] eqn:E; cbn.
  - by eapply (Forall_lookup_1 _ _ _ _ Hbs).
  - unfold is_byte; lia.
Qed.

(** The code's or-of-shifts is the little-endian value of the four bytes. *)
Lemma decode_u32_le_little_endian bs offset :
  decode_u32_le bs offset =
  little_endian_to_Z 8 [byte_at bs offset; byte_at bs (offset + 1);
                        byte_at bs (offset + 2); byte_at bs (offset + 3)].
Proof.
  unfold decode_u32_le; cbn [little_endian_to_Z].
  rewrite Z.shiftl_0_l, !Z.lor_0_r, !Z.shiftl_lor, !Z.shiftl_shiftl, !Z.lor_assoc by lia.
  done.
Qed.

Lemma decode_u16_le_little_endian bs offset :
  decode_u16_le bs offset =
  little_endian_to_Z 8 [byte_at bs offset; byte_at bs (offset + 1)].
Proof. unfold decode_u16_le; cbn. by rewrite Z.lor_0_r. Qed.

(** In arithmetic: the bytes are base-256 digits. *)
Lemma lor_shift_byte b z : is_byte b -> Z.lor b (Z.shiftl z 8) = b + 256 * z.
Proof.
  intros Hb. rewrite Z.shiftl_mul_pow2 by lia. change (2 ^ 8) with 256.
  assert (Hl : Z.land b (z * 256) = 0).
  { apply Z.bits_inj'. intros i Hi. rewrite Z.land_spec, Z.bits_0. change 256 with (2 ^ 8).
    destruct (decide (i < 8)) as [Hlt|Hge].
    - rewrite Z.mul_pow2_bits_low by lia. apply andb_false_r.
    - rewrite (Z.bits_above_log2 b); [done|unfold is_byte in Hb; lia|].
      destruct (decide (b = 0)) as [->|Hne]; [cbn; lia|]. apply Z.log2_lt_pow2; [unfold is_byte in Hb; lia|].
      unfold is_byte in Hb. assert (2 ^ 8 <= 2 ^ i) by (apply Z.pow_le_mono_r; lia). lia. }
  rewrite <- Z.lxor_lor by done. rewrite <- Z.add_nocarry_lxor by done. lia.
Qed.

Lemma decode_u16_le_digits bs k :
  is_bytes bs -> decode_u16_le bs k = byte_at bs k + 256 * byte_at bs (k + 1).
Proof. intros Hb. unfold decode_u16_le. apply lor_shift_byte. by apply byte_at_range. Qed.

Lemma decode_u32_le_digits bs k :
  is_bytes bs ->
  decode_u32_le bs k = byte_at bs k + 256 * (byte_at bs (k + 1) + 256 * (byte_at bs (k + 2) + 256 * byte_at bs (k + 3))).
Proof.
  intros Hb. rewrite decode_u32_le_little_endian. cbn [little_endian_to_Z].
  rewrite Z.shiftl_0_l, Z.lor_0_r, !lor_shift_byte; [done|by apply byte_at_range..].
Qed.

Lemma decode_u32_le_range bs offset : is_bytes bs -> is_u32 (decode_u32_le bs offset).
Proof.
  intros Hbs. rewrite decode_u32_le_little_endian.
  apply (little_endian_to_Z_bound 8); [lia|].
  repeat (constructor; [by apply byte_at_range|]). constructor.
Qed.

Lemma decode_u16_le_range bs offset : is_bytes bs -> is_u16 (decode_u16_le bs offset).
Proof.
  intros Hbs. rewrite decode_u16_le_little_endian.
  apply (little_endian_to_Z_bound 8); [lia|].
  repeat (constructor; [by apply byte_at_range|]). constructor.
Qed.

#[export] Hint Resolve decode_u32_le_range decode_u16_le_range : words.

Lemma encode_u32_le_little_endian v :
  encode_u32_le v = Z_to_little_endian 4 8 v.
Proof.
  unfold encode_u32_le, u8.
  rewrite (Z_to_little_endian_succ 3 8), (Z_to_little_endian_succ 2 8),
    (Z_to_little_endian_succ 1 8), (Z_to_little_endian_succ 0 8) by lia.
  rewrite Z_to_little_endian_0, !Z.shiftr_shiftr by lia.
  by rewrite !Z.land_ones by lia.
Qed.

Lemma encode_u32_le_bytes v : is_bytes (encode_u32_le v).
Proof. rewrite encode_u32_le_little_endian. by apply Z_to_little_endian_bound. Qed.

(** Round trip: decoding an encoded word gives the word back. *)
Lemma decode_encode_u32 v : is_u32 v -> decode_u32_le (encode_u32_le v) 0 = v.
Proof.
  intros Hv. rewrite decode_u32_le_little_endian.
  change ([_; _; _; _]) with (encode_u32_le v).
  rewrite encode_u32_le_little_endian, little_endian_to_Z_to_little_endian by lia.
  by apply Z.mod_small.
Qed.

(** Round trip: encoding a decoded word gives the four bytes back. *)
Lemma encode_decode_u32 bs :
  is_bytes bs -> length bs = 4%nat -> encode_u32_le (decode_u32_le bs 0) = bs.
Proof.
  intros Hbs Hlen. rewrite decode_u32_le_little_endian, encode_u32_le_little_endian.
  destruct bs as [|b0 [|b1 [|b2 [|b3 [|]]]]]; try done.
  by apply (Z_to_little_endian_to_Z 4 8).
Qed.

(** [checked_add_guest_address] succeeds exactly when the mathematical sum is a
    guest address, for offsets that cannot wrap the 64-bit addition. *)
Lemma checked_add_guest_address_Some base offset a :
  is_u32 base -> 0 <= offset < 2 ^ 64 - 2 ^ 32 ->
  checked_add_guest_address base offset = Some a <-> a = base + offset /\ is_u32 a.
Proof.
  intros Hb Ho. unfold checked_add_guest_address.
  rewrite u64_small by word_lia.
  destruct (UINT32_MAX <? base + offset) eqn:E; bool_prop.
  - split; [done|]. word_lia.
  - rewrite u32_small by word_lia. naive_solver word_lia.
Qed.

(** The check for concrete buffers. *)
Lemma is_bytes_forallb bs : forallb (fun b => (0 <=? b) && (b <? 256)) bs = true -> is_bytes bs.
Proof.
  intros H. apply Forall_forall. intros b Hb. rewrite forallb_elem in H.
  specialize (H b Hb). bool_prop. done.
Defined.

(** The bytes of a string literal. *)
Definition bytes_of_string (s : string) : list Z :=
  (fun c => Z.of_N (Ascii.N_of_ascii c)) <$> String.list_ascii_of_string s.
