(* ===== verification/GuestMemory.v ===== *)
(** * The guest-memory seam ([src/src/memory/guest_memory.h])

    [MemoryPermission] and its operators, the abstract class [GuestMemory], and
    the contract every client of the seam (string readers, symbol lookup,
    relocation, lifecycle, CPU) is verified against: a guest memory is a partial
    map from 32-bit addresses to bytes together with a writable subset. *)

From S2P Require Import Prelude Bytes.

(** ** [enum class MemoryPermission : std::uint8_t] *)
Module MemoryPermission.
Definition None : Z := 0.
Definition Read : Z := Z.shiftl 1 0.
Definition Write : Z := Z.shiftl 1 1.
Definition Execute : Z := Z.shiftl 1 2.
End MemoryPermission.

(** [operator|] and [operator&] *)
Definition perm_or (lhs rhs : Z) : Z := Z.lor lhs rhs.
Definition perm_and (lhs rhs : Z) : Z := Z.land lhs rhs.

(** [has_permission] *)
Definition has_permission (permissions permission : Z) : bool :=
  negb (perm_and permissions permission =? MemoryPermission.None).

(** ** [class GuestMemory]

    [read] and [read_code] fill an [n]-byte span or fail; [write] reports
    whether it succeeded and leaves a memory either way, because a backend may
    have changed bytes before failing. [fastmem_base] is the optional host
    pointer of the 4 GiB reservation. *)
Class GuestMemory (M : Type) := {
  gm_read : M -> Z -> Z -> option (list Z);
  gm_write : M -> Z -> list Z -> bool * M;
  gm_read_code : M -> Z -> Z -> option (list Z);
  gm_fastmem_base : M -> option Z;
}.

(** Largest object size of the host ([PTRDIFF_MAX] bounds every span). *)
Definition span_max : Z := 2 ^ 63 - 1.

(** ** The contract of a guest memory

    [gm_peek m a] is the byte at address [a] if it is readable, and
    [gm_writable m a] says whether a store to [a] is allowed. A multi-byte
    read succeeds exactly when every byte is readable; a write succeeds exactly
    when every byte is writable, then changes precisely those bytes, and
    otherwise changes nothing. *)
Class GuestMemorySpec (M : Type) `{GuestMemory M} := {
  gm_ok : M -> Prop;
  gm_peek : M -> Z -> option Z;
  gm_writable : M -> Z -> bool;
  gm_peek_byte m a b : gm_ok m -> gm_peek m a = Some b -> is_byte b;
  gm_peek_range m a b : gm_ok m -> gm_peek m a = Some b -> is_u32 a;
  gm_writable_readable m a :
    gm_ok m -> gm_writable m a = true -> is_Some (gm_peek m a);
  gm_read_spec m a n :
    gm_ok m -> is_u32 a -> 0 < n <= span_max ->
    gm_read m a n = mapM (gm_peek m) (seqZ a n);
  gm_write_success m a bs :
    gm_ok m -> is_u32 a -> 0 < Z.of_nat (length bs) <= span_max ->
    fst (gm_write m a bs) = forallb (gm_writable m) (seqZ a (Z.of_nat (length bs)));
  gm_write_failure m a bs m' :
    gm_ok m -> gm_write m a bs = (false, m') -> m' = m;
  gm_write_ok m a bs m' :
    gm_ok m -> is_bytes bs -> is_u32 a -> Z.of_nat (length bs) <= span_max ->
    gm_write m a bs = (true, m') -> gm_ok m';
  gm_write_peek m a bs m' x :
    gm_ok m -> is_u32 a -> 0 < Z.of_nat (length bs) <= span_max ->
    gm_write m a bs = (true, m') ->
    gm_peek m' x =
      if decide (a <= x < a + Z.of_nat (length bs))
      then bs !! Z.to_nat (x - a) else gm_peek m x;
  gm_write_writable m a bs m' x :
    gm_ok m -> gm_write m a bs = (true, m') -> gm_writable m' x = gm_writable m x;
}.

(** ** Client lemmas: what the rest of the library uses of the contract *)
Section client.
Context {M : Type} `{GuestMemorySpec M}.
Implicit Types (m : M) (a n : Z).

Lemma mapM_seqZ_Some (f : Z -> option Z) a n bs :
  0 <= n ->
  mapM f (seqZ a n) = Some bs <->
  length bs = Z.to_nat n /\
  forall i, 0 <= i < n -> f (a + i) = Some (byte_at bs i).
Proof.
  intros Hn. rewrite mapM_Some. split.
  - intros HF. pose proof (Forall2_length _ _ _ HF) as Hlen.
    rewrite length_seqZ in Hlen. split; [lia|].
    intros i Hi. unfold byte_at.
    destruct (bs !! Z.to_nat i) as [b|] eqn:E.
    + eapply Forall2_lookup_lr in HF as HF'; [exact HF'| |exact E].
      rewrite lookup_seqZ_lt by lia. f_equal; lia.
    + apply lookup_ge_None in E. lia.
  - intros [Hlen Hf]. apply Forall2_same_length_lookup. split.
    { rewrite length_seqZ. lia. }
    intros i x y Hx Hy. apply lookup_seqZ in Hx as [-> Hi].
    rewrite Hf by lia. unfold byte_at. by rewrite Nat2Z.id, Hy.
Qed.

Lemma gm_read_length m a n bs :
  gm_ok m -> is_u32 a -> 0 < n <= span_max ->
  gm_read m a n = Some bs -> length bs = Z.to_nat n.
Proof.
  intros Hm Ha Hn Hr. rewrite gm_read_spec in Hr by done.
  apply mapM_seqZ_Some in Hr; [tauto|lia].
Qed.

Lemma gm_read_bytes m a n bs :
  gm_ok m -> is_u32 a -> 0 < n <= span_max ->
  gm_read m a n = Some bs -> is_bytes bs.
Proof.
  intros Hm Ha Hn Hr. rewrite gm_read_spec in Hr by done.
  apply mapM_seqZ_Some in Hr as [Hlen Hr]; [|lia].
  apply Forall_lookup. intros i b Hb.
  assert (Hi : (i < length bs)%nat) by by eapply lookup_lt_Some.
  specialize (Hr (Z.of_nat i) ltac:(lia)).
  unfold byte_at in Hr. rewrite Nat2Z.id, Hb in Hr. by eapply gm_peek_byte.
Qed.

(** Reading is determined by the peeks of the range. *)
Lemma gm_read_ext m m' a n :
  gm_ok m -> gm_ok m' -> is_u32 a -> 0 < n <= span_max ->
  (forall x, a <= x < a + n -> gm_peek m x = gm_peek m' x) ->
  gm_read m a n = gm_read m' a n.
Proof.
  intros Hm Hm' Ha Hn Hext. rewrite !gm_read_spec by done.
  apply mapM_ext_elem. intros x Hx. apply Hext. by apply elem_of_seqZ.
Qed.

Lemma gm_read_write_same m a bs m' :
  gm_ok m -> is_bytes bs -> is_u32 a -> 0 < Z.of_nat (length bs) <= span_max ->
  gm_write m a bs = (true, m') ->
  gm_read m' a (Z.of_nat (length bs)) = Some bs.
Proof.
  intros Hm Hbs Ha Hlen Hw. rewrite gm_read_spec by (first [eapply gm_write_ok; [..|exact Hw]; done || lia | done]).
  apply mapM_seqZ_Some; [lia|]. split; [lia|]. intros i Hi.
  rewrite (gm_write_peek m a bs m') by done. rewrite decide_True by lia.
  replace (a + i - a) with i by lia. unfold byte_at.
  destruct (bs !! Z.to_nat i) eqn:E; [done|]. apply lookup_ge_None in E. lia.
Qed.

Lemma gm_read_write_disjoint m a bs m' a' n :
  gm_ok m -> is_bytes bs -> is_u32 a -> 0 < Z.of_nat (length bs) <= span_max ->
  gm_write m a bs = (true, m') ->
  is_u32 a' -> 0 < n <= span_max ->
  a' + n <= a \/ a + Z.of_nat (length bs) <= a' ->
  gm_read m' a' n = gm_read m a' n.
Proof.
  intros Hm Hbs Ha Hlen Hw Ha' Hn Hdisj.
  apply gm_read_ext; try done; [eapply gm_write_ok; [..|exact Hw]; done || lia|].
  intros x Hx. rewrite (gm_write_peek m a bs m') by done. by rewrite decide_False by lia.
Qed.

(** A read splits into reads of consecutive parts. *)
Lemma gm_read_app m a n1 n2 :
  gm_ok m -> is_u32 a -> is_u32 (a + n1) -> 0 < n1 -> 0 < n2 -> n1 + n2 <= span_max ->
  gm_read m a (n1 + n2) =
  (b1 ← gm_read m a n1; b2 ← gm_read m (a + n1) n2; Some (b1 ++ b2)).
Proof.
  intros Hm Ha Ha' Hn1 Hn2 Hmax. rewrite !gm_read_spec by (done || lia).
  rewrite seqZ_app by lia. apply mapM_app.
Qed.

Lemma gm_read_is_Some m a n :
  gm_ok m -> is_u32 a -> 0 < n <= span_max ->
  is_Some (gm_read m a n) <-> forall x, a <= x < a + n -> is_Some (gm_peek m x).
Proof.
  intros Hm Ha Hn. rewrite gm_read_spec, mapM_is_Some, Forall_forall by done.
  by setoid_rewrite elem_of_seqZ.
Qed.
End client.
