(* ===== verification/LinearMemory.v ===== *)
(** * [LinearGuestMemory] ([src/src/memory/guest_memory.{h,cpp}])

    The contiguous test backend: a base address and a byte vector. The file
    models the constructor, [translate], [read] and [write], and shows that the
    class implements the guest-memory contract. *)

From S2P Require Import Prelude Bytes GuestMemory.

Module LinearGuestMemory.

Record t := mk {
  base_ : Z;
  bytes_ : list Z;
}.

(** [bytes_.size()] *)
Definition size (m : t) : Z := Z.of_nat (length (bytes_ m)).

(** Constructor: [bytes_(size)] value-initialises; the guard throws
    [std::invalid_argument] ([None]). *)
Definition make (sz base : Z) : option t :=
  if kGuestAddressSpaceSize - base <? sz then None
  else Some (mk base (replicate (Z.to_nat sz) 0)).

(** [translate]: the offset of [address] when [length] bytes fit after it. *)
Definition translate (m : t) (address len : Z) : option Z :=
  if address <? base_ m then None
  else
    let translated := address - base_ m in
    if size m <? translated then None
    else if size m - translated <? len then None
    else Some translated.

Definition read (m : t) (address n : Z) : option (list Z) :=
  match translate m address n with
  | Some offset => Some (take (Z.to_nat n) (drop (Z.to_nat offset) (bytes_ m)))
  | None => None
  end.

Definition write (m : t) (address : Z) (input : list Z) : bool * t :=
  match translate m address (Z.of_nat (length input)) with
  | Some offset =>
      let o := Z.to_nat offset in
      (true, mk (base_ m) (take o (bytes_ m) ++ input ++
                           drop (o + length input) (bytes_ m)))
  | None => (false, m)
  end.

End LinearGuestMemory.

#[export] Instance linear_guest_memory : GuestMemory LinearGuestMemory.t := {
  gm_read := LinearGuestMemory.read;
  gm_write := LinearGuestMemory.write;
  gm_read_code := LinearGuestMemory.read;
  gm_fastmem_base := fun _ => None;
}.

Import LinearGuestMemory.

(** ** Invariant: bytes are bytes and the block lies in the address space *)
Record linear_wf (m : t) : Prop := {
  lw_base : 0 <= base_ m;
  lw_fits : base_ m + size m <= kGuestAddressSpaceSize;
  lw_bytes : is_bytes (bytes_ m);
}.

Definition linear_peek (m : t) (a : Z) : option Z :=
  if decide (base_ m <= a < base_ m + size m)
  then bytes_ m !! Z.to_nat (a - base_ m) else None.

Definition linear_writable (m : t) (a : Z) : bool :=
  bool_decide (base_ m <= a < base_ m + size m).

Lemma linear_make_wf sz base m :
  0 <= sz -> is_u32 base -> make sz base = Some m -> linear_wf m.
Proof.
  unfold make, size. intros Hsz Hb Hm. case_match eqn:E; [done|]. bool_prop.
  simplify_eq. split; cbn; unfold size; cbn; [word_lia| |].
  - rewrite length_replicate. word_lia.
  - apply Forall_replicate. unfold is_byte; lia.
Qed.

Lemma translate_Some m a n o :
  translate m a n = Some o <->
  o = a - base_ m /\ base_ m <= a <= base_ m + size m /\ n <= base_ m + size m - a.
Proof.
  unfold translate. repeat case_match; bool_prop; split; intros; simplify_eq; naive_solver lia.
Qed.

Lemma linear_peek_Some m a :
  is_Some (linear_peek m a) <-> base_ m <= a < base_ m + size m.
Proof.
  unfold linear_peek, size in *. case_decide as Hd.
  - rewrite lookup_lt_is_Some. lia.
  - split; [by intros [? ?]|done].
Qed.

Lemma linear_read_spec m a n :
  0 < n -> read m a n = mapM (linear_peek m) (seqZ a n).
Proof.
  intros Hn. unfold read. destruct (translate m a n) as [o|] eqn:E.
  - apply translate_Some in E as (-> & Ha & Hfit). symmetry.
    apply mapM_seqZ_Some; [lia|]. unfold size in *.
    split; [rewrite length_take, length_drop; lia|].
    intros i Hi. unfold linear_peek, size, byte_at. rewrite decide_True by lia.
    rewrite lookup_take_lt, lookup_drop by lia.
    replace (Z.to_nat (a - base_ m) + Z.to_nat i)%nat with (Z.to_nat (a + i - base_ m)) by lia.
    destruct (bytes_ m !! _) eqn:E; [done|]. apply lookup_ge_None in E. lia.
  - symmetry. apply eq_None_not_Some. intros [bs Hbs].
    apply mapM_seqZ_Some in Hbs as [_ Hp]; [|lia].
    assert (base_ m <= a < base_ m + size m).
    { apply linear_peek_Some. specialize (Hp 0 ltac:(lia)).
      rewrite Z.add_0_r in Hp. by eexists. }
    assert (base_ m <= a + (n - 1) < base_ m + size m).
    { apply linear_peek_Some. eexists. apply Hp. lia. }
    assert (translate m a n = Some (a - base_ m)) by (apply translate_Some; lia).
    congruence.
Qed.

Lemma linear_write_length m a bs m' :
  write m a bs = (true, m') -> 0 <= base_ m ->
  base_ m' = base_ m /\ size m' = size m /\
  base_ m <= a /\ a + Z.of_nat (length bs) <= base_ m + size m.
Proof.
  unfold write. destruct (translate _ _ _) as [o|] eqn:E; [|done].
  apply translate_Some in E as (-> & Ha & Hf). intros ? ?; simplify_eq; cbn.
  unfold size in *; cbn. rewrite !length_app, length_take, length_drop. lia.
Qed.

Lemma linear_write_peek m a bs m' x :
  write m a bs = (true, m') -> 0 <= base_ m ->
  linear_peek m' x =
    if decide (a <= x < a + Z.of_nat (length bs))
    then bs !! Z.to_nat (x - a) else linear_peek m x.
Proof.
  intros Hw Hb. destruct (linear_write_length _ _ _ _ Hw Hb) as (Hbase & Hsize & Ha & Hf).
  unfold write in Hw. destruct (translate _ _ _) as [o|] eqn:E; [|done].
  apply translate_Some in E as (-> & _). simplify_eq.
  unfold linear_peek. rewrite Hsize. cbn [base_ bytes_]. unfold size in *.
  repeat case_decide; try lia; try done.
  - rewrite lookup_app_r by (rewrite length_take; lia).
    rewrite length_take, lookup_app_l by lia. f_equal. lia.
  - destruct (decide (x < a)).
    + rewrite lookup_app_l by (rewrite length_take; lia). by rewrite lookup_take_lt by lia.
    + rewrite lookup_app_r by (rewrite length_take; lia).
      rewrite lookup_app_r by (rewrite length_take; lia).
      rewrite lookup_drop, length_take. f_equal. lia.
Qed.

#[export] Program Instance linear_guest_memory_spec : GuestMemorySpec LinearGuestMemory.t := {
  gm_ok := linear_wf;
  gm_peek := linear_peek;
  gm_writable := linear_writable;
}.
Next Obligation.
  intros m a b [] Hp. unfold linear_peek in Hp. case_decide; [|done].
  by eapply Forall_lookup_1.
Qed.
Next Obligation.
  intros m a b [? Hf] Hp. assert (Hs : is_Some (linear_peek m a)) by by eexists.
  apply linear_peek_Some in Hs. word_lia.
Qed.
Next Obligation.
  intros m a _ Hw. apply linear_peek_Some. by apply bool_decide_eq_true in Hw.
Qed.
Next Obligation. intros m a n _ _ Hn. apply linear_read_spec. lia. Qed.
Next Obligation.
  intros m a bs _ _ Hlen. apply eq_true_iff_eq. rewrite forallb_elem.
  setoid_rewrite elem_of_seqZ. cbn. unfold write.
  destruct (translate _ _ _) as [o|] eqn:E; cbn.
  - apply translate_Some in E. split; [|done]. intros _ x Hx.
    apply bool_decide_eq_true. lia.
  - split; [done|]. intros Hall.
    assert (H1 := Hall a ltac:(lia)).
    assert (H2 := Hall (a + Z.of_nat (length bs) - 1) ltac:(lia)).
    apply bool_decide_eq_true in H1, H2.
    assert (translate m a (Z.of_nat (length bs)) = Some (a - base_ m)) by (apply translate_Some; lia).
    congruence.
Qed.
Next Obligation.
  intros m a bs m' _ Hw. cbn in Hw. unfold write in Hw. case_match; by simplify_eq.
Qed.
Next Obligation.
  intros m a bs m' [Hb Hf Hbs] Hin Ha _ Hw.
  destruct (linear_write_length _ _ _ _ Hw Hb) as (Hbase & Hsize & _).
  split; [lia|lia|]. cbn in Hw. unfold write in Hw. case_match; simplify_eq. cbn.
  apply Forall_app; split; [by apply Forall_take|].
  apply Forall_app; split; [done|by apply Forall_drop].
Qed.
Next Obligation. intros m a bs m' x [] _ _ Hw. by apply linear_write_peek. Qed.
Next Obligation.
  intros m a bs m' x [Hb] Hw. destruct (linear_write_length _ _ _ _ Hw Hb) as (Hbase & Hsize & _).
  unfold linear_writable. by rewrite Hbase, Hsize.
Qed.
