(* ===== verification/MappedMemory.v ===== *)
(** * [MappedGuestMemory] ([src/src/memory/guest_memory.{h,cpp}])

    The sparse 4 GiB guest address space: a page-state byte per host page, the
    bytes and host protections of the reservation, and the host calls
    [mprotect] / [madvise] behind [map], [protect] and [unmap]. The host calls
    may fail: the outcomes still to come are part of the state, and a failing
    call may have changed a prefix of its pages, as POSIX allows. *)

From S2P Require Import Prelude Bytes GuestMemory.

(** ** Page-state encoding ([guest_memory.cpp], anonymous namespace) *)
Definition kMappedBit : Z := Z.shiftl 1 7.
Definition kPermissionMask : Z :=
  Z.lor (Z.lor MemoryPermission.Read MemoryPermission.Write) MemoryPermission.Execute.

Definition encode_page_state (permissions : Z) : Z := Z.lor kMappedBit permissions.
Definition page_is_mapped (state : Z) : bool := negb (Z.land state kMappedBit =? 0).
Definition decode_permissions (state : Z) : Z := Z.land state kPermissionMask.

(** ** Host calls *)
Inductive host_outcome : Set :=
| HostOk
| HostFail (applied : nat).

Definition PROT_NONE : Z := 0.
Definition PROT_READ : Z := 1.
Definition PROT_WRITE : Z := 2.

Module MappedGuestMemory.

Record t := mk {
  reservation_ : Z;
  page_size_ : Z;
  page_state_ : gmap Z Z;
  host_bytes : gmap Z Z;
  host_prot : gmap Z Z;
  host_calls : list host_outcome;
}.

(** Constructor, given what [sysconf(_SC_PAGESIZE)] and the reserving [mmap]
    returned ([None]: [MAP_FAILED]); an exception is [None]. *)
Definition make (host_page_size : Z) (mmap_result : option Z)
    (calls : list host_outcome) : option t :=
  if host_page_size <=? 0 then None
  else if negb (kGuestAddressSpaceSize mod host_page_size =? 0) then None
  else match mmap_result with
       | None => None
       | Some base => Some (mk base host_page_size ∅ ∅ ∅ calls)
       end.

Definition page_size (m : t) : Z := page_size_ m.
Definition page_index (m : t) (address : Z) : Z := address / page_size_ m.
Definition state_at (m : t) (i : Z) : Z := cell (page_state_ m) i.
Definition fastmem_base (m : t) : option Z :=
  if reservation_ m =? 0 then None else Some (reservation_ m).

Definition is_mapped (m : t) (address : Z) : bool :=
  page_is_mapped (state_at m (page_index m address)).

Definition permissions (m : t) (address : Z) : Z :=
  let state := state_at m (page_index m address) in
  if negb (page_is_mapped state) then MemoryPermission.None
  else decode_permissions state.

(** [end] is a 64-bit sum. *)
Definition valid_page_range (m : t) (address len : Z) : bool :=
  if (len =? 0) || (page_size_ m =? 0) || negb (address mod page_size_ m =? 0)
     || negb (len mod page_size_ m =? 0) then false
  else u64 (address + len) <=? kGuestAddressSpaceSize.

Definition valid_access (m : t) (address len required : Z) : bool :=
  if len =? 0 then true
  else
    let end_ := u64 (address + len) in
    if kGuestAddressSpaceSize <? end_ then false
    else
      let first := page_index m address in
      let last := u64 (end_ - 1) / page_size_ m in
      forallb (fun index =>
                 let state := state_at m index in
                 page_is_mapped state && has_permission (decode_permissions state) required)
              (seqZ first (last - first + 1)).

Definition valid_permissions (permissions_value : Z) : bool :=
  if negb (Z.land permissions_value (Z.lnot kPermissionMask) =? 0) then false
  else if (has_permission permissions_value MemoryPermission.Write
           || has_permission permissions_value MemoryPermission.Execute)
          && negb (has_permission permissions_value MemoryPermission.Read) then false
  else true.

Definition host_protection (permissions_value : Z) : Z :=
  let protection := PROT_NONE in
  let protection :=
    if has_permission permissions_value MemoryPermission.Read
       || has_permission permissions_value MemoryPermission.Execute
    then Z.lor protection PROT_READ else protection in
  if has_permission permissions_value MemoryPermission.Write
  then Z.lor protection PROT_WRITE else protection.

(** The host's [mprotect] on [count] pages from page [first]. *)
Definition mprotect (m : t) (first count prot : Z) : bool * t :=
  let upd n rest :=
    mk (reservation_ m) (page_size_ m) (page_state_ m) (host_bytes m)
       (fill_n first n prot (host_prot m)) rest in
  match host_calls m with
  | [] => (true, upd count [])
  | HostOk :: rest => (true, upd count rest)
  | HostFail k :: rest => (false, upd (Z.min (Z.of_nat k) count) rest)
  end.

(** The host's [madvise(MADV_DONTNEED)]: the pages of a private anonymous
    mapping read as zero afterwards. *)
Definition madvise_dontneed (m : t) (first count : Z) : bool * t :=
  let upd n rest :=
    mk (reservation_ m) (page_size_ m) (page_state_ m)
       (discard (first * page_size_ m) (n * page_size_ m) (host_bytes m))
       (host_prot m) rest in
  match host_calls m with
  | [] => (true, upd count [])
  | HostOk :: rest => (true, upd count rest)
  | HostFail k :: rest => (false, upd (Z.min (Z.of_nat k) count) rest)
  end.

(** [std::fill_n(page_state_.begin() + first, count, state)] *)
Definition set_page_states (m : t) (first count state : Z) : t :=
  mk (reservation_ m) (page_size_ m) (fill_n first count state (page_state_ m))
     (host_bytes m) (host_prot m) (host_calls m).

Definition map (m : t) (address len permissions_value : Z) : bool * t :=
  if negb (valid_page_range m address len) || negb (valid_permissions permissions_value)
  then (false, m)
  else
    let first := page_index m address in
    let count := len / page_size_ m in
    if existsb (fun index => page_is_mapped (state_at m index)) (seqZ first count)
    then (false, m)
    else
      let '(ok, m1) := mprotect m first count (host_protection permissions_value) in
      if negb ok then (false, m1)
      else (true, set_page_states m1 first count (encode_page_state permissions_value)).

Definition protect (m : t) (address len permissions_value : Z) : bool * t :=
  if negb (valid_page_range m address len) || negb (valid_permissions permissions_value)
  then (false, m)
  else
    let first := page_index m address in
    let count := len / page_size_ m in
    if existsb (fun index => negb (page_is_mapped (state_at m index))) (seqZ first count)
    then (false, m)
    else
      let '(ok, m1) := mprotect m first count (host_protection permissions_value) in
      if negb ok then (false, m1)
      else (true, set_page_states m1 first count (encode_page_state permissions_value)).

Definition unmap (m : t) (address len : Z) : bool * t :=
  if negb (valid_page_range m address len) then (false, m)
  else
    let first := page_index m address in
    let count := len / page_size_ m in
    if existsb (fun index => negb (page_is_mapped (state_at m index))) (seqZ first count)
    then (false, m)
    else
      let '(ok, m1) := madvise_dontneed m first count in
      if negb ok then (false, m1)
      else
        let '(ok, m2) := mprotect m1 first count PROT_NONE in
        if negb ok then (false, m2)
        else (true, set_page_states m2 first count 0).

(** [std::memcpy] out of the reservation. *)
Definition host_copy (m : t) (address n : Z) : list Z :=
  cell (host_bytes m) <$> seqZ address n.

Definition read (m : t) (address n : Z) : option (list Z) :=
  if negb (valid_access m address n MemoryPermission.Read) then None
  else Some (host_copy m address n).

Definition read_code (m : t) (address n : Z) : option (list Z) :=
  if negb (valid_access m address n MemoryPermission.Execute) then None
  else Some (host_copy m address n).

Definition write (m : t) (address : Z) (input : list Z) : bool * t :=
  if negb (valid_access m address (Z.of_nat (length input)) MemoryPermission.Write)
  then (false, m)
  else (true, mk (reservation_ m) (page_size_ m) (page_state_ m)
                 (poke address input (host_bytes m)) (host_prot m) (host_calls m)).

End MappedGuestMemory.

#[export] Instance mapped_guest_memory : GuestMemory MappedGuestMemory.t := {
  gm_read := MappedGuestMemory.read;
  gm_write := MappedGuestMemory.write;
  gm_read_code := MappedGuestMemory.read_code;
  gm_fastmem_base := MappedGuestMemory.fastmem_base;
}.

Import MappedGuestMemory.

(** ** Permission shapes *)
Definition perm_shape (p : Z) : Prop := p = 0 \/ p = 1 \/ p = 3 \/ p = 5 \/ p = 7.

Lemma valid_permissions_shape p : valid_permissions p = true <-> perm_shape p.
Proof.
  unfold perm_shape. split.
  - unfold valid_permissions. repeat case_match; try done. intros _. bool_prop.
    assert (Hp : 0 <= p < 8).
    { change (Z.land p (Z.lnot kPermissionMask)) with (Z.ldiff p (Z.ones 3)) in *.
      rewrite Z.ldiff_ones_r, Z.shiftl_mul_pow2, Z.shiftr_div_pow2 in * by lia. mod_lia. }
    assert (p = 0 \/ p = 1 \/ p = 2 \/ p = 3 \/ p = 4 \/ p = 5 \/ p = 6 \/ p = 7) by lia.
    naive_solver.
  - by intros [-> | [-> | [-> | [-> | ->]]]].
Qed.

Lemma encode_mapped p : perm_shape p -> page_is_mapped (encode_page_state p) = true.
Proof. by intros [-> | [-> | [-> | [-> | ->]]]]. Qed.

Lemma decode_encode p : perm_shape p -> decode_permissions (encode_page_state p) = p.
Proof. by intros [-> | [-> | [-> | [-> | ->]]]]. Qed.

(** ** Page ranges and address ranges *)
Lemma page_range_iff ps a n x :
  0 < ps -> a mod ps = 0 -> n mod ps = 0 ->
  (a / ps <= x / ps < a / ps + n / ps) <-> (a <= x < a + n).
Proof.
  intros Hps Ha Hn.
  assert (a = ps * (a / ps)) by (apply Z_div_exact_full_2; lia).
  assert (n = ps * (n / ps)) by (apply Z_div_exact_full_2; lia).
  pose proof (Z.div_mod x ps ltac:(lia)). pose proof (Z.mod_pos_bound x ps Hps). nia.
Qed.

(** [valid_page_range] on lengths whose 64-bit sum cannot wrap. *)
Definition page_range_ok (m : t) (a n : Z) : Prop :=
  0 < n /\ a mod page_size_ m = 0 /\ n mod page_size_ m = 0 /\
  a + n <= kGuestAddressSpaceSize.

Definition no_wrap (n : Z) : Prop := 0 <= n < 2 ^ 64 - 2 ^ 32.

Lemma valid_page_range_iff m a n :
  0 < page_size_ m -> is_u32 a -> no_wrap n ->
  valid_page_range m a n = true <-> page_range_ok m a n.
Proof.
  intros Hps Ha Hn. unfold valid_page_range, page_range_ok, no_wrap in *.
  rewrite u64_small by word_lia.
  rewrite (proj2 (Z.eqb_neq (page_size_ m) 0)) by lia.
  destruct (n =? 0) eqn:E1, (a mod page_size_ m =? 0) eqn:E2, (n mod page_size_ m =? 0) eqn:E3;
    cbn; bool_prop; rewrite ?Z.leb_le; naive_solver lia.
Qed.

(** ** Invariant *)
Record mapped_wf (m : t) : Prop := {
  mw_page_pos : 0 < page_size_ m;
  mw_page_div : kGuestAddressSpaceSize mod page_size_ m = 0;
  mw_states : forall i, state_at m i = 0 \/
      (0 <= i < kGuestAddressSpaceSize / page_size_ m /\
       exists p, perm_shape p /\ state_at m i = encode_page_state p);
  mw_bytes : forall a, is_byte (cell (host_bytes m) a);
  mw_unmapped_zero : forall a, is_mapped m a = false -> cell (host_bytes m) a = 0;
}.

Lemma mapped_make_wf ps base calls m : make ps base calls = Some m -> mapped_wf m.
Proof.
  unfold make. intros Hm. repeat case_match; simplify_eq. bool_prop.
  split; cbn; try done; intros; rewrite ?cell_empty; unfold state_at, is_byte; cbn;
    rewrite ?cell_empty; auto; lia.
Qed.

Lemma state_mapped_shape m i :
  mapped_wf m -> page_is_mapped (state_at m i) = true ->
  0 <= i < kGuestAddressSpaceSize / page_size_ m /\
  exists p, perm_shape p /\ state_at m i = encode_page_state p.
Proof. intros [] H. destruct (mw_states0 i) as [E|]; [by rewrite E in H|done]. Qed.

Lemma permissions_shape m a : mapped_wf m -> perm_shape (permissions m a).
Proof.
  intros Hwf. unfold permissions. destruct (page_is_mapped _) eqn:E; cbn.
  - apply state_mapped_shape in E as (_ & p & Hp & ->); [|done]. by rewrite decode_encode.
  - by left.
Qed.

(** Permission of the byte at [a], as the access checks see it. *)
Definition page_allows (m : t) (a required : Z) : bool :=
  is_mapped m a && has_permission (permissions m a) required.

Lemma page_allows_state m a q :
  page_allows m a q =
  (page_is_mapped (state_at m (a / page_size_ m)) &&
   has_permission (decode_permissions (state_at m (a / page_size_ m))) q).
Proof.
  unfold page_allows, is_mapped, permissions, page_index.
  by destruct (page_is_mapped _).
Qed.

(** The page loop of [valid_access] checks exactly the bytes of the range. *)
Lemma valid_access_bytes m a n q :
  0 < page_size_ m -> is_u32 a -> 0 < n <= span_max ->
  valid_access m a n q =
  forallb (fun x => (x <? kGuestAddressSpaceSize) && page_allows m x q) (seqZ a n).
Proof.
  intros Hps Ha Hn. unfold valid_access, span_max in *.
  rewrite (proj2 (Z.eqb_neq n 0)), (u64_small (a + n)) by word_lia.
  destruct (kGuestAddressSpaceSize <? a + n) eqn:E; bool_prop.
  - symmetry. apply not_true_iff_false. rewrite forallb_elem. intros Hall.
    specialize (Hall (a + n - 1)). rewrite elem_of_seqZ in Hall.
    specialize (Hall ltac:(lia)). bool_prop. lia.
  - rewrite u64_small by word_lia. unfold page_index.
    apply eq_true_iff_eq. rewrite !forallb_elem. setoid_rewrite elem_of_seqZ.
    split; intros Hall.
    + intros x Hx. rewrite page_allows_state, (proj2 (Z.ltb_lt _ _)) by lia. cbn.
      apply (Hall (x / page_size_ m)).
      pose proof (Z.div_le_mono a x (page_size_ m) Hps ltac:(lia)).
      pose proof (Z.div_le_mono x (a + n - 1) (page_size_ m) Hps ltac:(lia)). lia.
    + intros p Hp. set (x := Z.max a (p * page_size_ m)).
      assert (Hx : x / page_size_ m = p /\ a <= x < a + n).
      { pose proof (Z.div_mod a (page_size_ m) ltac:(lia)).
        pose proof (Z.mod_pos_bound a (page_size_ m) Hps).
        pose proof (Z.div_mod (a + n - 1) (page_size_ m) ltac:(lia)).
        pose proof (Z.mod_pos_bound (a + n - 1) (page_size_ m) Hps).
        subst x. split; [|nia].
        destruct (Z.max_spec a (p * page_size_ m)) as [[? ->] | [? ->]].
        - by rewrite Z.div_mul by lia.
        - apply Z.le_antisymm; [lia|]. apply Z.div_le_lower_bound; lia. }
      destruct Hx as [Hxp Hx]. specialize (Hall x Hx).
      rewrite page_allows_state, Hxp in Hall. apply andb_true_iff in Hall as [_ Hall]. done.
Qed.

(** ** The class implements the guest-memory contract *)
Definition in_space (a : Z) : bool := (0 <=? a) && (a <? kGuestAddressSpaceSize).

Definition mapped_peek (m : t) (a : Z) : option Z :=
  if in_space a && page_allows m a MemoryPermission.Read
  then Some (cell (host_bytes m) a) else None.

Definition mapped_writable (m : t) (a : Z) : bool :=
  in_space a && page_allows m a MemoryPermission.Write.

Lemma in_space_iff a : in_space a = true <-> is_u32 a.
Proof. unfold in_space. rewrite andb_true_iff, Z.leb_le, Z.ltb_lt. done. Qed.

Lemma valid_access_in_space m a n q :
  0 < page_size_ m -> is_u32 a -> 0 < n <= span_max ->
  valid_access m a n q = forallb (fun x => in_space x && page_allows m x q) (seqZ a n).
Proof.
  intros Hps Ha Hn. rewrite valid_access_bytes by done. apply forallb_ext_elem.
  intros x Hx%elem_of_seqZ. unfold in_space.
  by rewrite (proj2 (Z.leb_le 0 x)) by word_lia.
Qed.

Lemma mapped_read_spec m a n :
  mapped_wf m -> is_u32 a -> 0 < n <= span_max ->
  read m a n = mapM (mapped_peek m) (seqZ a n).
Proof.
  intros Hwf Ha Hn. unfold read, host_copy.
  rewrite valid_access_in_space by (done || by apply Hwf).
  induction (seqZ a n) as [|x l IH]; [done|].
  cbn [forallb mapM fmap list_fmap]. rewrite <- IH.
  replace (mapped_peek m x) with
    (if in_space x && page_allows m x MemoryPermission.Read
     then Some (cell (host_bytes m) x) else None) by done.
  destruct (in_space x && _); [|done]. cbn. by destruct (forallb _ l).
Qed.

Lemma page_allows_write_read m a :
  mapped_wf m -> page_allows m a MemoryPermission.Write = true ->
  page_allows m a MemoryPermission.Read = true.
Proof.
  unfold page_allows. intros Hwf Hw. apply andb_true_iff in Hw as [-> Hw]. cbn.
  destruct (permissions_shape m a Hwf) as [E | [E | [E | [E | E]]]]; rewrite E in *; done.
Qed.

Lemma write_page_allows m a bs m' x q :
  write m a bs = (true, m') -> page_allows m' x q = page_allows m x q.
Proof. unfold write. intros H. case_match; by simplify_eq. Qed.

Lemma mapped_write_wf m a bs m' :
  mapped_wf m -> is_bytes bs -> is_u32 a -> Z.of_nat (length bs) <= span_max ->
  write m a bs = (true, m') -> mapped_wf m'.
Proof.
  intros Hwf Hbs Ha Hlen Hw. pose proof Hwf as [].
  unfold write in Hw. destruct (valid_access _ _ _ _) eqn:E; cbn in Hw; [|done].
  simplify_eq. split; cbn; try done.
  - intros x. rewrite cell_poke. case_decide; [|done].
    by apply (byte_at_range bs (x - a)).
  - intros x Hx. rewrite cell_poke. case_decide as Hd; [|by apply mw_unmapped_zero0].
    exfalso. rewrite valid_access_in_space in E by (done || lia).
    rewrite forallb_elem in E. specialize (E x). rewrite elem_of_seqZ in E.
    specialize (E Hd). apply andb_true_iff in E as [_ E].
    apply andb_true_iff in E as [E _]. unfold is_mapped, state_at, page_index in *; cbn in *.
    congruence.
Qed.

Lemma mapped_write_peek m a bs m' x :
  mapped_wf m -> is_u32 a -> 0 < Z.of_nat (length bs) <= span_max ->
  write m a bs = (true, m') ->
  mapped_peek m' x =
    if decide (a <= x < a + Z.of_nat (length bs))
    then bs !! Z.to_nat (x - a) else mapped_peek m x.
Proof.
  intros Hwf Ha Hlen Hw. unfold mapped_peek.
  rewrite (write_page_allows m a bs m') by done. unfold write in Hw.
  destruct (valid_access _ _ _ _) eqn:E; cbn in Hw; simplify_eq. cbn.
  rewrite valid_access_in_space in E by (done || by apply Hwf).
  rewrite cell_poke. case_decide as Hd; [|done].
  rewrite forallb_elem in E. specialize (E x ltac:(by apply elem_of_seqZ)).
  apply andb_true_iff in E as [-> E]. rewrite page_allows_write_read by done. cbn.
  destruct (bs !! _) eqn:Eb; [done|]. apply lookup_ge_None in Eb. lia.
Qed.

#[export] Program Instance mapped_guest_memory_spec : GuestMemorySpec MappedGuestMemory.t := {
  gm_ok := mapped_wf;
  gm_peek := mapped_peek;
  gm_writable := mapped_writable;
}.
Next Obligation.
  intros m a b Hwf Hp. unfold mapped_peek in Hp. case_match; simplify_eq. by apply Hwf.
Qed.
Next Obligation.
  intros m a b _ Hp. unfold mapped_peek in Hp. case_match eqn:E; [|done].
  apply andb_true_iff in E as [E _]. by apply in_space_iff.
Qed.
Next Obligation.
  intros m a Hwf [Hs Hw]%andb_true_iff. unfold mapped_peek.
  rewrite Hs, page_allows_write_read by done. by eexists.
Qed.
Next Obligation. intros. by apply mapped_read_spec. Qed.
Next Obligation.
  intros m a bs Hwf Ha Hlen. cbn. unfold write.
  rewrite valid_access_in_space by (done || by apply Hwf).
  unfold mapped_writable. by destruct (forallb _ _).
Qed.
Next Obligation.
  intros m a bs m' _ Hw. cbn in Hw. unfold write in Hw. case_match; by simplify_eq.
Qed.

Next Obligation. intros. by eapply mapped_write_wf. Qed.
Next Obligation. intros. by apply mapped_write_peek. Qed.
Next Obligation.
  intros m a bs m' x _ Hw. unfold mapped_writable.
  by rewrite (write_page_allows m a bs m') by done.
Qed.

(** ** What the mapping operations do *)

(** Only the states of the pages of [a, a + n) differ, and they are [state]. *)
Record remapped (m m' : t) (a n state : Z) : Prop := {
  rm_page_size : page_size_ m' = page_size_ m;
  rm_state : forall i, state_at m' i =
      if decide (a / page_size_ m <= i < a / page_size_ m + n / page_size_ m)
      then state else state_at m i;
}.

(** Everything a guest can observe is unchanged. *)
Record same_view (m m' : t) : Prop := {
  sv_page_size : page_size_ m' = page_size_ m;
  sv_state : forall i, state_at m' i = state_at m i;
  sv_bytes : forall a, cell (host_bytes m') a = cell (host_bytes m) a;
}.

#[export] Instance same_view_equiv : Equivalence same_view.
Proof.
  split.
  - intros m. by split.
  - intros m1 m2 [H1 H2 H3]. split; intros; by rewrite ?H1, ?H2, ?H3.
  - intros m1 m2 m3 [H1 H2 H3] [H4 H5 H6].
    split; intros; by rewrite ?H4, ?H5, ?H6, ?H1, ?H2, ?H3.
Qed.

#[export] Instance is_mapped_proper : Proper (same_view ==> eq ==> eq) is_mapped.
Proof. intros m m' [Hp Hs _] a _ <-. unfold is_mapped, page_index. by rewrite Hp, Hs. Qed.

#[export] Instance permissions_proper : Proper (same_view ==> eq ==> eq) permissions.
Proof. intros m m' [Hp Hs _] a _ <-. unfold permissions, page_index. by rewrite Hp, Hs. Qed.

#[export] Instance valid_access_proper :
  Proper (same_view ==> eq ==> eq ==> eq ==> eq) valid_access.
Proof.
  intros m m' [Hp Hs _] a _ <- n _ <- q _ <-. unfold valid_access, page_index.
  rewrite Hp. repeat case_match; try done.
  apply forallb_ext_elem. intros i _. by rewrite Hs.
Qed.

#[export] Instance read_proper : Proper (same_view ==> eq ==> eq ==> eq) read.
Proof.
  intros m m' Hv a _ <- n _ <-. unfold read, host_copy. rewrite Hv. case_match; [done|].
  f_equal. apply list_fmap_ext. intros i x _. symmetry. apply Hv.
Qed.

Lemma mprotect_inv m f c p ok m' :
  mprotect m f c p = (ok, m') ->
  page_size_ m' = page_size_ m /\ page_state_ m' = page_state_ m /\
  host_bytes m' = host_bytes m /\
  (ok = true -> host_prot m' = fill_n f c p (host_prot m)).
Proof. unfold mprotect. intros H. repeat case_match; by simplify_eq. Qed.

Lemma madvise_inv m f c ok m' :
  madvise_dontneed m f c = (ok, m') -> 0 < page_size_ m -> 0 <= c ->
  page_size_ m' = page_size_ m /\ page_state_ m' = page_state_ m /\
  host_prot m' = host_prot m /\
  exists k, 0 <= k <= c /\ (ok = true -> k = c) /\
    host_bytes m' = discard (f * page_size_ m) (k * page_size_ m) (host_bytes m).
Proof.
  unfold madvise_dontneed. intros H Hps Hc.
  destruct (host_calls m) as [|[|k] rest]; simplify_eq; cbn; repeat split; try done.
  - by exists c.
  - by exists c.
  - exists (Z.min (Z.of_nat k) c). repeat split; [lia..|done].
Qed.

(** The pages of a valid range, at the level of addresses. *)
Lemma existsb_pages m a n (P : Z -> bool) :
  0 < page_size_ m -> page_range_ok m a n ->
  existsb P (seqZ (page_index m a) (n / page_size_ m)) = false <->
  forall x, a <= x < a + n -> P (page_index m x) = false.
Proof.
  unfold page_index. intros Hps (Hn & Ha & Hn' & _). rewrite <- not_true_iff_false, existsb_elem.
  setoid_rewrite elem_of_seqZ. split.
  - intros Hno x Hx. apply not_true_iff_false. intros HP. apply Hno.
    exists (x / page_size_ m). split; [|done]. by apply page_range_iff.
  - intros Hall (i & Hi & HP).
    assert (Hx : i * page_size_ m / page_size_ m = i) by (apply Z.div_mul; lia).
    rewrite <- Hx in Hi. apply page_range_iff in Hi; [|done..].
    specialize (Hall _ Hi). by rewrite Hx, HP in Hall.
Qed.

Lemma map_true m a n p m' :
  mapped_wf m -> is_u32 a -> no_wrap n -> map m a n p = (true, m') ->
  page_range_ok m a n /\ perm_shape p /\
  (forall x, a <= x < a + n -> is_mapped m x = false) /\
  remapped m m' a n (encode_page_state p) /\ host_bytes m' = host_bytes m /\
  host_prot m' = fill_n (a / page_size_ m) (n / page_size_ m) (host_protection p) (host_prot m).
Proof.
  intros Hwf Ha Hn H. unfold map in H. case_match eqn:E1; [done|]. bool_prop.
  apply valid_page_range_iff in H0; [|apply Hwf|done..].
  apply valid_permissions_shape in H1.
  case_match eqn:E2; [done|]. rewrite existsb_pages in E2 by (done || by apply Hwf).
  destruct (mprotect _ _ _ _) as [ok m1] eqn:E3. apply mprotect_inv in E3 as (? & ? & ? & Hp).
  destruct ok; cbn in H; simplify_eq. specialize (Hp eq_refl).
  split_and!; try done. split; [done|]. intros i.
  unfold state_at; cbn. rewrite cell_fill_n. unfold page_index.
  by match goal with H : page_state_ _ = _ |- _ => rewrite H end.
Qed.

Lemma mprotect_view m f c p ok m' : mprotect m f c p = (ok, m') -> same_view m m'.
Proof.
  intros (Hs & Hst & Hb & _)%mprotect_inv. split; intros; unfold state_at; congruence.
Qed.

Lemma map_false m a n p m' : map m a n p = (false, m') -> same_view m m'.
Proof.
  unfold map. intros H. case_match; [by simplify_eq|]. case_match; [by simplify_eq|].
  destruct (mprotect _ _ _ _) as [[] m1] eqn:E; cbn in H; simplify_eq.
  by eapply mprotect_view.
Qed.

Lemma protect_true m a n p m' :
  mapped_wf m -> is_u32 a -> no_wrap n -> protect m a n p = (true, m') ->
  page_range_ok m a n /\ perm_shape p /\
  (forall x, a <= x < a + n -> is_mapped m x = true) /\
  remapped m m' a n (encode_page_state p) /\ host_bytes m' = host_bytes m /\
  host_prot m' = fill_n (a / page_size_ m) (n / page_size_ m) (host_protection p) (host_prot m).
Proof.
  intros Hwf Ha Hn H. unfold protect in H. case_match eqn:E1; [done|]. bool_prop.
  apply valid_page_range_iff in H0; [|apply Hwf|done..].
  apply valid_permissions_shape in H1.
  case_match eqn:E2; [done|]. rewrite existsb_pages in E2 by (done || by apply Hwf); rename E2 into E2'.
  destruct (mprotect _ _ _ _) as [ok m1] eqn:E3. apply mprotect_inv in E3 as (? & ? & ? & Hp).
  destruct ok; cbn in H; simplify_eq. specialize (Hp eq_refl).
  split_and!; try done.
  - intros x Hx. specialize (E2' x Hx). by apply negb_false_iff in E2'.
  - split; [done|]. intros i. unfold state_at; cbn. rewrite cell_fill_n. unfold page_index.
  by match goal with H : page_state_ _ = _ |- _ => rewrite H end.
Qed.

Lemma protect_false m a n p m' : protect m a n p = (false, m') -> same_view m m'.
Proof.
  unfold protect. intros H. case_match; [by simplify_eq|]. case_match; [by simplify_eq|].
  destruct (mprotect _ _ _ _) as [[] m1] eqn:E; cbn in H; simplify_eq.
  by eapply mprotect_view.
Qed.

Lemma page_range_scale m a n :
  page_range_ok m a n -> 0 < page_size_ m ->
  a / page_size_ m * page_size_ m = a /\ n / page_size_ m * page_size_ m = n.
Proof.
  intros (_ & Ha & Hn & _) Hps.
  pose proof (Z.div_mod a (page_size_ m) ltac:(lia)).
  pose proof (Z.div_mod n (page_size_ m) ltac:(lia)). lia.
Qed.

Lemma unmap_true m a n m' :
  mapped_wf m -> is_u32 a -> no_wrap n -> unmap m a n = (true, m') ->
  page_range_ok m a n /\
  (forall x, a <= x < a + n -> is_mapped m x = true) /\
  remapped m m' a n 0 /\ host_bytes m' = discard a n (host_bytes m) /\
  host_prot m' = fill_n (a / page_size_ m) (n / page_size_ m) PROT_NONE (host_prot m).
Proof.
  intros Hwf Ha Hn H. unfold unmap in H. case_match eqn:E1; [done|]. bool_prop.
  apply valid_page_range_iff in E1; [|apply Hwf|done..].
  pose proof (mw_page_pos m Hwf) as Hps. case_match eqn:E2; [done|].
  rewrite existsb_pages in E2 by done; rename E2 into E2'.
  pose proof E1 as (Hn0 & _).
  assert (0 <= n / page_size_ m) by (apply Z.div_pos; lia).
  destruct (madvise_dontneed _ _ _) as [ok m1] eqn:E3.
  apply madvise_inv in E3 as (Hs1 & Hst1 & Hpr1 & k & Hk & Hkc & Hb1); [|done..].
  destruct ok; cbn in H; simplify_eq. rewrite (Hkc eq_refl) in Hb1.
  unfold page_index in *. destruct (mprotect _ _ _ _) as [ok m2] eqn:E4.
  apply mprotect_inv in E4 as (Hs2 & Hst2 & Hb2 & Hp2).
  destruct ok; cbn in H; simplify_eq. specialize (Hp2 eq_refl).
  destruct (page_range_scale m a n E1 Hps) as [Ea En]. rewrite Ea, En in Hb1.
  split_and!; try done; cbn.
  - intros x Hx. specialize (E2' x Hx). by apply negb_false_iff in E2'.
  - split; cbn; [congruence|]. intros i. unfold state_at; cbn. by rewrite cell_fill_n, Hst2, Hst1.
  - congruence.
  - congruence.
Qed.

(** A failing [unmap] keeps every page mapped with its permissions; it may
    already have discarded bytes of the range. *)
Lemma unmap_false m a n m' :
  mapped_wf m -> is_u32 a -> no_wrap n -> unmap m a n = (false, m') ->
  page_size_ m' = page_size_ m /\ (forall i, state_at m' i = state_at m i) /\
  (forall x, cell (host_bytes m') x = cell (host_bytes m) x \/
             (a <= x < a + n /\ is_mapped m x = true /\ cell (host_bytes m') x = 0)).
Proof.
  intros Hwf Ha Hn H. unfold unmap in H. case_match eqn:E1; [naive_solver|]. bool_prop.
  apply valid_page_range_iff in E1; [|apply Hwf|done..].
  pose proof (mw_page_pos m Hwf) as Hps. case_match eqn:E2; [naive_solver|].
  rewrite existsb_pages in E2 by done; rename E2 into E2'.
  pose proof E1 as (Hn0 & _).
  assert (0 <= n / page_size_ m) by (apply Z.div_pos; lia).
  destruct (page_range_scale m a n E1 Hps) as [Ea En].
  destruct (madvise_dontneed _ _ _) as [ok m1] eqn:E3.
  apply madvise_inv in E3 as (Hs1 & Hst1 & Hpr1 & k & Hk & Hkc & Hb1); [|done..].
  assert (Hbytes : forall x, cell (host_bytes m1) x = cell (host_bytes m) x \/
             (a <= x < a + n /\ is_mapped m x = true /\ cell (host_bytes m1) x = 0)).
  { intros x. rewrite Hb1, cell_discard. unfold page_index in *. rewrite Ea.
    case_decide as Hd; [|by left]. right. assert (a <= x < a + n) by nia.
    split_and!; [lia..| |done]. specialize (E2' x ltac:(lia)).
    by apply negb_false_iff in E2'. }
  destruct ok; cbn in H; simplify_eq.
  - destruct (mprotect _ _ _ _) as [ok m2] eqn:E4.
    apply mprotect_inv in E4 as (Hs2 & Hst2 & Hb2 & Hp2).
    destruct ok; cbn in H; simplify_eq. unfold state_at. rewrite Hst2, Hst1, Hb2.
    split_and!; [congruence|done|done].
  - unfold state_at. rewrite Hst1. split_and!; [done|done|done].
Qed.

(** ** Address-level consequences *)
Lemma remapped_is_mapped m m' a n state x :
  0 < page_size_ m -> page_range_ok m a n -> remapped m m' a n state ->
  is_mapped m' x = if decide (a <= x < a + n) then page_is_mapped state else is_mapped m x.
Proof.
  intros Hps (Hn & Ha & Hn' & _) [Hp Hs]. unfold is_mapped, page_index. rewrite Hp, Hs.
  destruct (decide (a <= x < a + n)) as [Hd|Hd].
  - by rewrite decide_True by by apply page_range_iff.
  - rewrite decide_False; [done|]. by rewrite page_range_iff.
Qed.

Lemma remapped_permissions m m' a n p x :
  0 < page_size_ m -> page_range_ok m a n -> perm_shape p ->
  remapped m m' a n (encode_page_state p) ->
  permissions m' x = if decide (a <= x < a + n) then p else permissions m x.
Proof.
  intros Hps (Hn & Ha & Hn' & _) Hshape [Hp Hs]. unfold permissions, page_index.
  rewrite Hp, Hs. destruct (decide (a <= x < a + n)) as [Hd|Hd].
  - rewrite decide_True by by apply page_range_iff. by rewrite encode_mapped, decode_encode.
  - rewrite decide_False; [done|]. by rewrite page_range_iff.
Qed.

Lemma page_range_bound m a n i :
  mapped_wf m -> is_u32 a -> page_range_ok m a n ->
  a / page_size_ m <= i < a / page_size_ m + n / page_size_ m ->
  0 <= i < kGuestAddressSpaceSize / page_size_ m.
Proof.
  intros Hwf Ha Hr Hi. pose proof (mw_page_pos m Hwf) as Hps.
  destruct (page_range_scale m a n Hr Hps) as [Ea En]. destruct Hr as (_ & _ & _ & Hfit).
  assert (0 <= a / page_size_ m) by (apply Z.div_pos; word_lia).
  split; [lia|]. apply Z.lt_le_trans with (a / page_size_ m + n / page_size_ m); [lia|].
  apply Z.div_le_lower_bound; [done|]. lia.
Qed.

Lemma remapped_states m m' a n state :
  mapped_wf m -> is_u32 a -> page_range_ok m a n -> remapped m m' a n state ->
  (state = 0 \/ exists p, perm_shape p /\ state = encode_page_state p) ->
  forall i, state_at m' i = 0 \/
      (0 <= i < kGuestAddressSpaceSize / page_size_ m' /\
       exists p, perm_shape p /\ state_at m' i = encode_page_state p).
Proof.
  intros Hwf Ha Hr [Hp Hs] Hstate i. rewrite Hp, Hs. case_decide as Hd.
  - destruct Hstate as [->|(p & Hsh & ->)]; [by left|right].
    split; [by eapply page_range_bound|by exists p].
  - apply (mw_states m Hwf).
Qed.

Lemma map_wf m a n p : mapped_wf m -> is_u32 a -> no_wrap n -> mapped_wf (snd (map m a n p)).
Proof.
  intros Hwf Ha Hn. destruct (map m a n p) as [[] m'] eqn:E; cbn.
  - apply map_true in E as (Hr & Hsh & Hun & Hrm & Hb & _); [|done..].
    pose proof (rm_page_size _ _ _ _ _ Hrm) as Hps.
    split; rewrite ?Hps, ?Hb; [apply Hwf..| |apply Hwf|].
    + rewrite <- Hps. eapply remapped_states; eauto.
    + intros x. rewrite (remapped_is_mapped m m' a n _ x (mw_page_pos m Hwf) Hr Hrm).
      case_decide; [by rewrite encode_mapped by done|]. apply Hwf.
  - apply map_false in E as [Hps Hst Hb]. pose proof Hwf as [H1 H2 H3 H4 H5].
    split; intros; rewrite ?Hps, ?Hst, ?Hb; auto.
    apply H5. unfold is_mapped, page_index in *. congruence.
Qed.

Lemma protect_wf m a n p :
  mapped_wf m -> is_u32 a -> no_wrap n -> mapped_wf (snd (protect m a n p)).
Proof.
  intros Hwf Ha Hn. destruct (protect m a n p) as [[] m'] eqn:E; cbn.
  - apply protect_true in E as (Hr & Hsh & Hun & Hrm & Hb & _); [|done..].
    pose proof (rm_page_size _ _ _ _ _ Hrm) as Hps.
    split; rewrite ?Hps, ?Hb; [apply Hwf..| |apply Hwf|].
    + rewrite <- Hps. eapply remapped_states; eauto.
    + intros x. rewrite (remapped_is_mapped m m' a n _ x (mw_page_pos m Hwf) Hr Hrm).
      case_decide; [by rewrite encode_mapped by done|]. apply Hwf.
  - apply protect_false in E as [Hps Hst Hb]. pose proof Hwf as [H1 H2 H3 H4 H5].
    split; intros; rewrite ?Hps, ?Hst, ?Hb; auto.
    apply H5. unfold is_mapped, page_index in *. congruence.
Qed.

Lemma unmap_wf m a n : mapped_wf m -> is_u32 a -> no_wrap n -> mapped_wf (snd (unmap m a n)).
Proof.
  intros Hwf Ha Hn. destruct (unmap m a n) as [[] m'] eqn:E; cbn.
  - apply unmap_true in E as (Hr & Hun & Hrm & Hb & _); [|done..].
    pose proof (rm_page_size _ _ _ _ _ Hrm) as Hps.
    split; rewrite ?Hps, ?Hb; [apply Hwf..| | |].
    + rewrite <- Hps. eapply remapped_states; eauto.
    + intros x. rewrite cell_discard. case_decide; [unfold is_byte; lia|apply Hwf].
    + intros x. rewrite (remapped_is_mapped m m' a n _ x (mw_page_pos m Hwf) Hr Hrm), cell_discard.
      case_decide; [done|apply Hwf].
  - apply unmap_false in E as (Hps & Hst & Hb); [|done..].
    pose proof Hwf as [H1 H2 H3 H4 H5].
    split; intros; rewrite ?Hps, ?Hst; auto.
    + destruct (Hb a0) as [->|(_ & _ & ->)]; [done|unfold is_byte; lia].
    + destruct (Hb a0) as [->|(_ & _ & ->)]; [|done].
      apply H5. unfold is_mapped, page_index in *. congruence.
Qed.

(** ** Operation sequences *)
Inductive mem_op : Type :=
| OpMap (a n p : Z)
| OpProtect (a n p : Z)
| OpUnmap (a n : Z)
| OpWrite (a : Z) (bs : list Z).

Definition exec_op (op : mem_op) (m : t) : bool * t :=
  match op with
  | OpMap a n p => map m a n p
  | OpProtect a n p => protect m a n p
  | OpUnmap a n => unmap m a n
  | OpWrite a bs => write m a bs
  end.

(** Arguments of the C++ types, with lengths below 2^64 - 2^32: [valid_page_range]
    accepts some of the longer ones although the 64-bit sum wraps (see
    [valid_page_range_wraps]), and [map] then leaves the page table. *)
Definition op_args (op : mem_op) : Prop :=
  match op with
  | OpMap a n _ | OpProtect a n _ | OpUnmap a n => is_u32 a /\ no_wrap n
  | OpWrite a bs => is_u32 a /\ is_bytes bs /\ Z.of_nat (length bs) <= span_max
  end.

Inductive reachable (m0 : t) : t -> Prop :=
| reach_refl : reachable m0 m0
| reach_step m op : reachable m0 m -> op_args op -> reachable m0 (snd (exec_op op m)).

Lemma exec_op_wf op m : mapped_wf m -> op_args op -> mapped_wf (snd (exec_op op m)).
Proof.
  destruct op; cbn; intros Hwf Hargs.
  - apply map_wf; tauto.
  - apply protect_wf; tauto.
  - apply unmap_wf; tauto.
  - destruct Hargs as (Ha & Hbs & Hlen). destruct (write m a bs) as [[] m'] eqn:E; cbn.
    + by eapply mapped_write_wf.
    + unfold write in E. case_match; by simplify_eq.
Qed.

(** C12: every state reachable from a freshly constructed [MappedGuestMemory] by
    any sequence of [map], [protect], [unmap] and [write] calls with lengths below
    2^64 - 2^32 (longer ones may pass the range check by wrapping, see the theorem on
    [valid_page_range]), including calls whose host [mprotect]/[madvise] fails
    part-way, satisfies the page-table
    invariant: each page state is either 0 or the mapped bit with one of the
    supported permission shapes and lies inside the 4 GiB table, and every byte
    of an unmapped page is zero, so a fresh mapping never exposes old contents. *)
Theorem mapped_reachable_wf ps base calls m0 m :
  make ps base calls = Some m0 -> reachable m0 m -> mapped_wf m.
Proof.
  intros H0 Hr. induction Hr; [by eapply mapped_make_wf|]. by apply exec_op_wf.
Qed.

(** Witness: two pages are mapped, written and one is unmapped again, with a
    failing host call on the way. *)
Lemma mapped_reachable_wf_witness :
  exists m0 m, make 4096 (Some 65536) [HostOk; HostFail 1; HostOk] = Some m0 /\
    m = snd (exec_op (OpUnmap 4096 4096) (snd (exec_op (OpMap 4096 8192 3)
          (snd (exec_op (OpMap 4096 8192 3) m0))))) /\
    mapped_wf m.
Proof.
  eexists _, _. split; [reflexivity|]. split; [reflexivity|].
  eapply (mapped_reachable_wf 4096 (Some 65536) [HostOk; HostFail 1; HostOk]); [reflexivity|].
  repeat (apply reach_step; [|by vm_compute]). apply reach_refl.
Defined.

(** ** Host protections and the fastmem window *)

(** The host protection of every page is the one its guest state asks for. *)
Definition host_coherent (m : t) : Prop :=
  forall i, cell (host_prot m) i =
    if page_is_mapped (state_at m i)
    then host_protection (decode_permissions (state_at m i)) else PROT_NONE.

(** Every host call still to come succeeds. *)
Definition host_reliable (m : t) : Prop := Forall (eq HostOk) (host_calls m).

Lemma mprotect_reliable m f c p ok m' :
  host_reliable m -> mprotect m f c p = (ok, m') -> ok = true /\ host_reliable m'.
Proof.
  unfold host_reliable, mprotect. intros Hr H.
  destruct (host_calls m) as [|o rest]; [by simplify_eq|].
  apply Forall_cons in Hr as [<- Hr]. by simplify_eq.
Qed.

Lemma madvise_reliable m f c ok m' :
  host_reliable m -> madvise_dontneed m f c = (ok, m') -> ok = true /\ host_reliable m'.
Proof.
  unfold host_reliable, madvise_dontneed. intros Hr H.
  destruct (host_calls m) as [|o rest]; [by simplify_eq|].
  apply Forall_cons in Hr as [<- Hr]. by simplify_eq.
Qed.

Lemma remapped_coherent m m' a n state prot :
  host_coherent m -> remapped m m' a n state ->
  host_prot m' = fill_n (a / page_size_ m) (n / page_size_ m) prot (host_prot m) ->
  prot = (if page_is_mapped state then host_protection (decode_permissions state) else PROT_NONE) ->
  host_coherent m'.
Proof.
  intros Hc [Hps Hst] Hp -> i. rewrite Hp, Hst, cell_fill_n. by case_decide.
Qed.

Lemma exec_op_coherent op m :
  mapped_wf m -> op_args op -> host_coherent m -> host_reliable m ->
  host_coherent (snd (exec_op op m)) /\ host_reliable (snd (exec_op op m)).
Proof.
  intros Hwf Hargs Hc Hr. destruct (exec_op op m) as [ok m'] eqn:E. cbn.
  destruct op as [a n p|a n p|a n|a bs]; cbn in E, Hargs; destruct Hargs as [Ha Hargs].
  - assert (Hok : host_reliable m' /\ (ok = false -> m' = m)).
    { clear -E Hr. unfold map in E. do 2 (case_head E Hc; [naive_solver|]; clear Hc).
      destruct (mprotect _ _ _ _) as [ok1 m1] eqn:E1.
      apply mprotect_reliable in E1 as [-> Hr1]; [|done]. naive_solver. }
    destruct Hok as [Hr' Hsame]. split; [|done]. destruct ok; [|by rewrite Hsame].
    apply map_true in E as (_ & Hsh & _ & Hrm & _ & Hp); [|done..].
    eapply remapped_coherent; [done..|]. by rewrite encode_mapped, decode_encode.
  - assert (Hok : host_reliable m' /\ (ok = false -> m' = m)).
    { clear -E Hr. unfold protect in E. do 2 (case_head E Hc; [naive_solver|]; clear Hc).
      destruct (mprotect _ _ _ _) as [ok1 m1] eqn:E1.
      apply mprotect_reliable in E1 as [-> Hr1]; [|done]. naive_solver. }
    destruct Hok as [Hr' Hsame]. split; [|done]. destruct ok; [|by rewrite Hsame].
    apply protect_true in E as (_ & Hsh & _ & Hrm & _ & Hp); [|done..].
    eapply remapped_coherent; [done..|]. by rewrite encode_mapped, decode_encode.
  - assert (Hok : host_reliable m' /\ (ok = false -> m' = m)).
    { clear -E Hr. unfold unmap in E. do 2 (case_head E Hc; [naive_solver|]; clear Hc).
      destruct (madvise_dontneed _ _ _) as [ok1 m1] eqn:E1.
      apply madvise_reliable in E1 as [-> Hr1]; [|done]. cbn in E.
      destruct (mprotect _ _ _ _) as [ok2 m2] eqn:E2.
      apply mprotect_reliable in E2 as [-> Hr2]; [|done]. naive_solver. }
    destruct Hok as [Hr' Hsame]. split; [|done]. destruct ok; [|by rewrite Hsame].
    apply unmap_true in E as (_ & _ & Hrm & _ & Hp); [|done..].
    by eapply remapped_coherent.
  - unfold write in E. case_match; by simplify_eq.
Qed.

Lemma make_coherent ps base calls m :
  make ps base calls = Some m -> host_coherent m /\ host_calls m = calls.
Proof.
  unfold make. intros Hm. repeat case_match; simplify_eq. split; [|done].
  intros i. unfold state_at. cbn. by rewrite !cell_empty.
Qed.

(** Coherent host protections are the guest permissions. *)
Lemma coherent_permits m a :
  mapped_wf m -> host_coherent m ->
  (negb (Z.land (cell (host_prot m) (page_index m a)) PROT_READ =? 0)
     = page_allows m a MemoryPermission.Read) /\
  (negb (Z.land (cell (host_prot m) (page_index m a)) PROT_WRITE =? 0)
     = page_allows m a MemoryPermission.Write).
Proof.
  intros Hwf Hc. rewrite !page_allows_state, Hc.
  unfold page_index. destruct (page_is_mapped _) eqn:E; [|done].
  apply state_mapped_shape in E as (_ & p & Hsh & ->); [|done]. rewrite decode_encode by done.
  by destruct Hsh as [-> | [-> | [-> | [-> | ->]]]].
Qed.

(** C19: while host calls succeed, the host protection of the reservation is
    exactly the guest permission of each page: after any sequence of operations
    with lengths below 2^64 - 2^32 (no wrap in [valid_page_range]) a host page is readable (writable) if and only if the guest may read
    (write) it. So the [memcpy]s of [read]/[write] cannot fault, and a fastmem
    access through the host window grants nothing the guest metadata denies. *)
Theorem fastmem_respects_permissions ps base calls m0 m a :
  make ps base calls = Some m0 -> reachable m0 m ->
  Forall (eq HostOk) calls ->
  (negb (Z.land (cell (host_prot m) (page_index m a)) PROT_READ =? 0)
     = page_allows m a MemoryPermission.Read) /\
  (negb (Z.land (cell (host_prot m) (page_index m a)) PROT_WRITE =? 0)
     = page_allows m a MemoryPermission.Write).
Proof.
  intros H0 Hr Hcalls.
  assert (Hinv : mapped_wf m /\ host_coherent m /\ host_reliable m).
  { induction Hr as [|m op Hr IH Hargs].
    - split; [by eapply mapped_make_wf|]. unfold make in H0. repeat case_match; simplify_eq.
      split; [|done]. intros i. unfold state_at; cbn. by rewrite !cell_empty.
    - destruct IH as (Hwf & Hc & Hrel).
      split; [by apply exec_op_wf|]. by apply exec_op_coherent. }
  by apply coherent_permits; apply Hinv.
Qed.

Lemma fastmem_respects_permissions_witness :
  exists m0 m, make 4096 (Some 65536) [HostOk] = Some m0 /\
    m = snd (exec_op (OpProtect 4096 4096 1) (snd (exec_op (OpMap 4096 8192 3) m0))) /\
    (negb (Z.land (cell (host_prot m) (page_index m 8192)) PROT_READ =? 0)
       = page_allows m 8192 MemoryPermission.Read) /\
    (negb (Z.land (cell (host_prot m) (page_index m 8192)) PROT_WRITE =? 0)
       = page_allows m 8192 MemoryPermission.Write).
Proof.
  eexists _, _. split; [reflexivity|]. split; [reflexivity|].
  eapply (fastmem_respects_permissions 4096 (Some 65536) [HostOk]); [reflexivity| |by repeat constructor].
  repeat (apply reach_step; [|by vm_compute]). apply reach_refl.
Defined.

(** A read of [n] bytes succeeds exactly when each of its bytes lies in the
    address space on a mapped page with read permission, and it then returns the
    stored bytes: the page-granular checks of [valid_access] (64-bit end, first
    and last page) refine the byte-wise memory contract. *)
Theorem mapped_read_refines_bytes m a n bs :
  mapped_wf m -> is_u32 a -> 0 < n <= span_max ->
  read m a n = Some bs <->
  length bs = Z.to_nat n /\
  forall i, 0 <= i < n ->
    is_u32 (a + i) /\ page_allows m (a + i) MemoryPermission.Read = true /\
    byte_at bs i = cell (host_bytes m) (a + i).
Proof.
  intros Hwf Ha Hn. rewrite mapped_read_spec, mapM_seqZ_Some by (done || lia).
  split; intros [Hlen Hall]; (split; [done|]); intros i Hi; specialize (Hall i Hi).
  - unfold mapped_peek in Hall. destruct (in_space _) eqn:Es, (page_allows _ _ _);
      cbn in Hall; simplify_eq. split_and!; [by apply in_space_iff|done|congruence].
  - destruct Hall as (Hs%in_space_iff & Hp & Hb). unfold mapped_peek.
    by rewrite Hs, Hp, Hb.
Qed.

(** The memory of the witnesses below: 8 KiB read-write at 0x1000, holding a
    four-byte word that straddles the two pages. *)
Definition demo_memory : t :=
  snd (write (snd (map (mk 65536 4096 ∅ ∅ ∅ []) 4096 8192 3)) 8190 [17; 34; 51; 68]).

Lemma demo_memory_wf : mapped_wf demo_memory.
Proof.
  apply (exec_op_wf (OpWrite 8190 [17; 34; 51; 68])).
  - apply (exec_op_wf (OpMap 4096 8192 3)).
    + by apply (mapped_make_wf 4096 (Some 65536) []).
    + by vm_compute.
  - split; [by vm_compute|]. split; [|by vm_compute].
    repeat (constructor; [by vm_compute|]). constructor.
Defined.

Lemma mapped_read_refines_bytes_witness :
  read demo_memory 8190 4 = Some [17; 34; 51; 68] <->
  length [17; 34; 51; 68] = Z.to_nat 4 /\
  forall i, 0 <= i < 4 ->
    is_u32 (8190 + i) /\ page_allows demo_memory (8190 + i) MemoryPermission.Read = true /\
    byte_at [17; 34; 51; 68] i = cell (host_bytes demo_memory) (8190 + i).
Proof.
  apply (mapped_read_refines_bytes demo_memory 8190 4 [17; 34; 51; 68]);
    [exact demo_memory_wf|by vm_compute|by vm_compute].
Defined.

(** C39: [valid_page_range] adds address and length in 64 bits without checking
    the sum: a length of 2^64 - 4096 at address 4096 is accepted although the
    range leaves the 4 GiB space, so [map] would index [page_state_] far beyond
    its end. Lengths below 2^64 - 2^32 are classified exactly. *)
Theorem valid_page_range_wraps m :
  page_size_ m = 4096 ->
  valid_page_range m 4096 (2 ^ 64 - 4096) = true /\
  (forall a n, is_u32 a -> no_wrap n ->
     valid_page_range m a n = true <-> page_range_ok m a n).
Proof.
  intros Hps. split.
  - unfold valid_page_range. by rewrite Hps.
  - intros a n Ha Hn. apply valid_page_range_iff; [lia|done..].
Qed.

Lemma valid_page_range_wraps_witness :
  page_size_ demo_memory = 4096 /\
  valid_page_range demo_memory 4096 (2 ^ 64 - 4096) = true.
Proof.
  split; [reflexivity|]. exact (proj1 (valid_page_range_wraps demo_memory eq_refl)).
Defined.
