(* ===== verification/AddressView.v ===== *)
(** * Address-level view of a mapped memory, and loops of ranged operations

    The loader, the RELRO sealing pass and the graph loader all run a list of
    [map]/[write]/[protect]/[unmap] calls, each confined to one page range, and
    stop at the first failing call. This file gives every such call its effect
    on the pair "permission of the page, byte" of each address, and proves what
    a whole loop over disjoint ranges does, once for all of them. *)

From S2P Require Import Prelude Bytes GuestMemory MappedMemory.

Import MappedGuestMemory.

(** [for (x : l) if (!op(x)) return failure;] on a mutable object. *)
Fixpoint seq_ops {S A : Type} (op : A -> S -> bool * S) (l : list A) (s : S) : bool * S :=
  match l with
  | [] => (true, s)
  | x :: l' =>
      let '(ok, s1) := op x s in
      if ok then seq_ops op l' s1 else (false, s1)
  end.

Lemma seq_ops_app {S A} (op : A -> S -> bool * S) l1 l2 s :
  seq_ops op (l1 ++ l2) s =
  (let '(ok, s1) := seq_ops op l1 s in if ok then seq_ops op l2 s1 else (false, s1)).
Proof.
  revert s; induction l1 as [|x l1 IH]; intros s; cbn; [done|].
  destruct (op x s) as [[] s1]; [apply IH|done].
Qed.

(** Where a failing loop stopped. *)
Lemma seq_ops_false {S A} (op : A -> S -> bool * S) l s s' :
  seq_ops op l s = (false, s') ->
  exists l1 x l2 s1, l = l1 ++ x :: l2 /\ seq_ops op l1 s = (true, s1) /\ op x s1 = (false, s').
Proof.
  revert s; induction l as [|x l IH]; intros s H; cbn in H; [done|].
  destruct (op x s) as [[] s1] eqn:E.
  - apply IH in H as (l1 & y & l2 & s2 & -> & H1 & H2).
    exists (x :: l1), y, l2, s2. cbn. rewrite E. done.
  - simplify_eq. by exists [], x, l, s.
Qed.

(** ** The view *)
Definition view : Type := option Z * Z.

Definition page_at (m : t) (x : Z) : view :=
  (if is_mapped m x then Some (permissions m x) else None, cell (host_bytes m) x).

#[export] Instance host_outcome_eq_dec : EqDecision host_outcome.
Proof. solve_decision. Defined.

(** How many of the host calls still to come fail. *)
Definition failures (m : t) : nat :=
  length (filter (fun o => o <> HostOk) (host_calls m)).

Lemma failures_reliable m : host_reliable m <-> failures m = 0%nat.
Proof.
  unfold host_reliable, failures. induction (host_calls m) as [|o l IH]; [done|].
  rewrite Forall_cons, filter_cons, IH. destruct (decide (o = HostOk)) as [->|Hne].
  - rewrite decide_False by tauto. tauto.
  - rewrite decide_True by done. cbn. split; [intros [<- _]; done|done].
Qed.

Lemma page_at_None m x : (page_at m x).1 = None <-> is_mapped m x = false.
Proof. unfold page_at; cbn. by destruct (is_mapped m x). Qed.

Lemma page_at_allows m x q :
  page_allows m x q = match (page_at m x).1 with Some p => has_permission p q | None => false end.
Proof. unfold page_allows, page_at; cbn. by destruct (is_mapped m x). Qed.

Lemma page_at_peek m m' x : page_at m' x = page_at m x -> mapped_peek m' x = mapped_peek m x.
Proof.
  intros H. unfold mapped_peek. rewrite !page_at_allows, H. unfold page_at in H. cbn in H.
  injection H as _ H. by rewrite H.
Qed.

Lemma peek_byte m x b : mapped_peek m x = Some b -> (page_at m x).2 = b.
Proof. unfold mapped_peek, page_at. case_match; [|done]. by intros [= <-]. Qed.

Lemma peek_mapped m x b : mapped_peek m x = Some b -> is_Some (page_at m x).1.
Proof.
  unfold mapped_peek. rewrite page_at_allows. destruct (page_at m x).1 as [p|]; [by eexists|].
  by rewrite andb_false_r.
Qed.

(** The view determines everything a guest can observe. *)
Lemma page_at_same_view m m' :
  mapped_wf m -> mapped_wf m' -> page_size_ m' = page_size_ m ->
  (forall x, page_at m' x = page_at m x) -> same_view m m'.
Proof.
  intros Hwf Hwf' Hps Hat. split; [done| |].
  - intros i. specialize (Hat (i * page_size_ m)). unfold page_at in Hat.
    pose proof (mw_page_pos m Hwf).
    unfold is_mapped, permissions, page_index in Hat.
    rewrite Hps, Z.div_mul in Hat by lia. injection Hat as Hs _.
    pose proof (state_mapped_shape m i Hwf) as S1. pose proof (state_mapped_shape m' i Hwf') as S2.
    destruct (page_is_mapped (state_at m i)) eqn:E1, (page_is_mapped (state_at m' i)) eqn:E2;
      cbn in Hs; try done.
    + destruct (S1 eq_refl) as (_ & p & Hp & Ep). destruct (S2 eq_refl) as (_ & p' & Hp' & Ep').
      rewrite Ep, Ep' in *. rewrite !decode_encode in Hs by done. congruence.
    + destruct (mw_states m Hwf i) as [->|(_ & p & Hp & Ep)];
        [|by rewrite Ep, encode_mapped in E1].
      destruct (mw_states m' Hwf' i) as [->|(_ & p & Hp & Ep)];
        [done|by rewrite Ep, encode_mapped in E2].
  - intros a. specialize (Hat a). unfold page_at in Hat. congruence.
Qed.

(** ** Host-call accounting *)
Lemma mprotect_failures m f c p ok m' :
  mprotect m f c p = (ok, m') ->
  (failures m' <= failures m)%nat /\ (ok = false -> failures m' < failures m)%nat.
Proof.
  unfold mprotect, failures. intros H.
  destruct (host_calls m) as [|[|k] rest]; simplify_eq; cbn [host_calls];
    rewrite ?filter_cons; repeat case_decide; cbn; try done; split; intros; try done; lia.
Qed.

Lemma madvise_failures m f c ok m' :
  madvise_dontneed m f c = (ok, m') ->
  (failures m' <= failures m)%nat /\ (ok = false -> failures m' < failures m)%nat.
Proof.
  unfold madvise_dontneed, failures. intros H.
  destruct (host_calls m) as [|[|k] rest]; simplify_eq; cbn [host_calls];
    rewrite ?filter_cons; repeat case_decide; cbn; try done; split; intros; try done; lia.
Qed.

(** ** The effect of each operation on the view *)
Definition in_range (a n x : Z) : Prop := a <= x < a + n.

#[export] Instance in_range_dec a n x : Decision (in_range a n x).
Proof. unfold in_range. apply _. Defined.

Lemma map_effect m a n p m' :
  mapped_wf m -> is_u32 a -> no_wrap n -> map m a n p = (true, m') ->
  page_size_ m' = page_size_ m /\
  forall x, page_at m' x = if decide (in_range a n x) then (Some p, (page_at m x).2) else page_at m x.
Proof.
  intros Hwf Ha Hn (Hr & Hsh & _ & Hrm & Hb & _)%map_true; [|done..].
  split; [apply Hrm|]. intros x. unfold page_at, in_range.
  rewrite (remapped_is_mapped m m' a n (encode_page_state p) x),
    (remapped_permissions m m' a n p x), Hb
    by (done || by apply Hwf).
  rewrite encode_mapped by done. repeat case_decide; done.
Qed.

Lemma protect_effect m a n p m' :
  mapped_wf m -> is_u32 a -> no_wrap n -> protect m a n p = (true, m') ->
  page_size_ m' = page_size_ m /\
  forall x, page_at m' x = if decide (in_range a n x) then (Some p, (page_at m x).2) else page_at m x.
Proof.
  intros Hwf Ha Hn (Hr & Hsh & _ & Hrm & Hb & _)%protect_true; [|done..].
  split; [apply Hrm|]. intros x. unfold page_at, in_range.
  rewrite (remapped_is_mapped m m' a n (encode_page_state p) x),
    (remapped_permissions m m' a n p x), Hb
    by (done || by apply Hwf).
  rewrite encode_mapped by done. repeat case_decide; done.
Qed.

Lemma remapped_permissions_out m m' a n s x :
  0 < page_size_ m -> page_range_ok m a n -> remapped m m' a n s -> ~ in_range a n x ->
  permissions m' x = permissions m x.
Proof.
  unfold in_range. intros Hps (Hn & Ha & Hn' & _) [Hp Hs] Hx. unfold permissions, page_index.
  rewrite Hp, Hs, decide_False; [done|]. by rewrite page_range_iff.
Qed.

Lemma unmap_effect m a n m' :
  mapped_wf m -> is_u32 a -> no_wrap n -> unmap m a n = (true, m') ->
  page_size_ m' = page_size_ m /\
  forall x, page_at m' x = if decide (in_range a n x) then (None, 0) else page_at m x.
Proof.
  intros Hwf Ha Hn (Hr & _ & Hrm & Hb & _)%unmap_true; [|done..].
  split; [apply Hrm|]. intros x. unfold page_at.
  rewrite (remapped_is_mapped m m' a n 0 x), Hb, cell_discard by (done || by apply Hwf).
  fold (in_range a n x). destruct (decide (in_range a n x)) as [Hd|Hd]; [done|].
  by rewrite (remapped_permissions_out m m' a n 0 x) by (done || by apply Hwf).
Qed.

Lemma write_effect m a bs m' :
  write m a bs = (true, m') ->
  page_size_ m' = page_size_ m /\ host_calls m' = host_calls m /\
  forall x, page_at m' x =
    if decide (in_range a (Z.of_nat (length bs)) x)
    then ((page_at m x).1, byte_at bs (x - a)) else page_at m x.
Proof.
  unfold write. intros H. case_match; simplify_eq. split_and!; try done.
  intros x. unfold page_at; cbn. rewrite cell_poke. unfold in_range, byte_at.
  repeat case_decide; done.
Qed.

(** ** When each operation succeeds, and the host calls it consumes *)
Definition ranged_ok (m : t) (a n : Z) : Prop := is_u32 a /\ page_range_ok m a n.

Lemma ranged_ok_no_wrap m a n : ranged_ok m a n -> no_wrap n.
Proof. intros (Ha & Hn & _ & _ & Hf). unfold no_wrap. word_lia. Qed.

Lemma ranged_ok_valid m a n : mapped_wf m -> ranged_ok m a n -> valid_page_range m a n = true.
Proof.
  intros Hwf Hr. apply valid_page_range_iff; [apply Hwf|apply Hr|by eapply ranged_ok_no_wrap|apply Hr].
Qed.

Lemma map_progress m a n p ok m' :
  mapped_wf m -> ranged_ok m a n -> perm_shape p ->
  (forall x, in_range a n x -> (page_at m x).1 = None) ->
  map m a n p = (ok, m') ->
  (failures m' <= failures m)%nat /\ (ok = false -> failures m' < failures m)%nat.
Proof.
  intros Hwf Hr Hp Hfree H. unfold map in H.
  rewrite ranged_ok_valid in H by done. apply valid_permissions_shape in Hp as Hv. rewrite Hv in H.
  cbn in H. rewrite (proj2 (existsb_pages m a n _ (mw_page_pos m Hwf) (proj2 Hr))) in H.
  - destruct (mprotect _ _ _ _) as [ok1 m1] eqn:E. apply mprotect_failures in E as [F1 F2].
    destruct ok1; cbn in H; simplify_eq; [done|]. split; [done|]. intros _. by apply F2.
  - intros x Hx. by apply (page_at_None m x), Hfree.
Qed.

Lemma protect_progress m a n p ok m' :
  mapped_wf m -> ranged_ok m a n -> perm_shape p ->
  (forall x, in_range a n x -> is_Some (page_at m x).1) ->
  protect m a n p = (ok, m') ->
  (failures m' <= failures m)%nat /\ (ok = false -> failures m' < failures m)%nat.
Proof.
  intros Hwf Hr Hp Hmap H. unfold protect in H.
  rewrite ranged_ok_valid in H by done. apply valid_permissions_shape in Hp as Hv. rewrite Hv in H.
  cbn in H. rewrite (proj2 (existsb_pages m a n (fun i => negb (page_is_mapped (state_at m i)))
                              (mw_page_pos m Hwf) (proj2 Hr))) in H.
  - destruct (mprotect _ _ _ _) as [ok1 m1] eqn:E. apply mprotect_failures in E as [F1 F2].
    destruct ok1; cbn in H; simplify_eq; [done|]. split; [done|]. intros _. by apply F2.
  - intros x Hx. apply negb_false_iff. specialize (Hmap x Hx). unfold page_at, is_mapped in Hmap.
    by destruct (page_is_mapped _) eqn:E; [|destruct Hmap].
Qed.

Lemma unmap_failures m a n ok m' : unmap m a n = (ok, m') -> (failures m' <= failures m)%nat.
Proof.
  intros H. unfold unmap in H. do 2 (case_match; [by simplify_eq|]).
  destruct (madvise_dontneed _ _ _) as [ok1 m1] eqn:E. apply madvise_failures in E as [F1 _].
  destruct ok1; cbn in H; simplify_eq; [|done].
  destruct (mprotect _ _ _ _) as [ok2 m2] eqn:E2. apply mprotect_failures in E2 as [F3 _].
  destruct ok2; cbn in H; simplify_eq; [change (failures (set_page_states m2 _ _ _)) with (failures m2)|]; lia.
Qed.

Lemma unmap_progress m a n ok m' :
  mapped_wf m -> ranged_ok m a n ->
  (forall x, in_range a n x -> is_Some (page_at m x).1) ->
  unmap m a n = (ok, m') ->
  (failures m' <= failures m)%nat /\ (ok = false -> failures m' < failures m)%nat.
Proof.
  intros Hwf Hr Hmap H. unfold unmap in H.
  rewrite ranged_ok_valid in H by done.
  cbn in H. rewrite (proj2 (existsb_pages m a n (fun i => negb (page_is_mapped (state_at m i)))
                              (mw_page_pos m Hwf) (proj2 Hr))) in H.
  - destruct (madvise_dontneed _ _ _) as [ok1 m1] eqn:E. apply madvise_failures in E as [F1 F2].
    destruct ok1; cbn in H; simplify_eq; [|split; [done|]; intros _; by apply F2].
    destruct (mprotect _ _ _ _) as [ok2 m2] eqn:E2. apply mprotect_failures in E2 as [F3 F4].
    destruct ok2; cbn in H; simplify_eq.
    + change (failures (set_page_states m2 _ _ _)) with (failures m2). split; [lia|done].
    + specialize (F4 eq_refl). split; intros; lia.
  - intros x Hx. apply negb_false_iff. specialize (Hmap x Hx). unfold page_at, is_mapped in Hmap.
    by destruct (page_is_mapped _) eqn:E; [|destruct Hmap].
Qed.

(** ** Loops over disjoint ranges *)
Section ranged.
Context {A : Type} (ps : Z) (lo len : A -> Z).

Definition covers (x : Z) (p : A) : bool := bool_decide (in_range (lo p) (len p) x).

Definition ranges_disjoint (p q : A) : Prop :=
  forall x, in_range (lo p) (len p) x -> ~ in_range (lo q) (len q) x.

#[export] Instance ranges_disjoint_sym : Symmetric ranges_disjoint.
Proof. intros p q H x Hq Hp. by eapply H. Qed.

(** The step [op], its effect [f] on the view inside the range of its argument,
    and the precondition [pre] it needs there. *)
Context (op : A -> t -> bool * t) (f : A -> Z -> view -> view)
        (pre : A -> view -> Prop) (good : A -> Prop).

Definition state_ok (m : t) : Prop := mapped_wf m /\ page_size_ m = ps.

(** What running [op] at [p] may do to [m]. *)
Definition op_post (p : A) (m : t) (ok : bool) (m' : t) : Prop :=
  state_ok m' /\ (failures m' <= failures m)%nat /\
  if ok
  then forall x, page_at m' x =
         if decide (in_range (lo p) (len p) x) then f p x (page_at m x) else page_at m x
  else (failures m' < failures m)%nat.

Hypothesis op_spec : forall p m ok m', state_ok m -> good p ->
  (forall x, in_range (lo p) (len p) x -> pre p (page_at m x)) ->
  op p m = (ok, m') -> op_post p m ok m'.

(** Where the precondition holds in every range, the loop has the effect [f] on
    each range, and only failing host calls can stop it. *)
Lemma seq_ops_spec l m ok m' :
  state_ok m -> Forall good l -> ForallOrdPairs ranges_disjoint l ->
  (forall p x, p ∈ l -> in_range (lo p) (len p) x -> pre p (page_at m x)) ->
  seq_ops op l m = (ok, m') ->
  state_ok m' /\ (failures m' <= failures m)%nat /\
  if ok
  then forall x, page_at m' x =
         match List.find (covers x) l with Some p => f p x (page_at m x) | None => page_at m x end
  else (failures m' < failures m)%nat.
Proof.
  revert m; induction l as [|p l IH]; intros m Hm Hl Hd Hpre H; cbn in H; [by simplify_eq|].
  apply Forall_cons in Hl as [Hp Hl]. inversion_clear Hd as [|? ? Hpl Hd'].
  destruct (op p m) as [ok1 m1] eqn:E.
  destruct (op_spec p m ok1 m1) as (Hm1 & F1 & Heff); try done.
  { intros x Hx. apply Hpre; [by left|done]. }
  destruct ok1; [|simplify_eq; done]. rewrite Forall_forall in Hpl.
  destruct (IH m1) as (Hm' & F2 & Heff'); try done.
  { intros q x Hq Hx. rewrite Heff, decide_False.
    - apply Hpre; [by right|done].
    - intros Hpx. by apply (Hpl q Hq x). }
  split_and!; [done|lia|]. destruct ok; [|lia]. intros x. rewrite Heff', Heff. cbn.
  unfold covers at 2. case_decide as Hx;
    [rewrite bool_decide_true by done|rewrite bool_decide_false by done; done].
  destruct (List.find (covers x) l) as [q|] eqn:Ef; [|done]. exfalso.
  apply List.find_some in Ef as [Hq%list_elem_of_In Hc].
  unfold covers in Hc. apply bool_decide_eq_true in Hc. by eapply (Hpl q).
Qed.
End ranged.

Arguments covers {A} lo len x p /.

Lemma find_covers_Some {A} (lo len : A -> Z) l x p :
  List.find (covers lo len x) l = Some p -> p ∈ l /\ in_range (lo p) (len p) x.
Proof.
  intros [Hp%list_elem_of_In Hc]%List.find_some. cbn in Hc. by apply bool_decide_eq_true in Hc.
Qed.

Lemma find_covers_None {A} (lo len : A -> Z) l x p :
  List.find (covers lo len x) l = None -> p ∈ l -> ~ in_range (lo p) (len p) x.
Proof.
  intros Hf Hp%list_elem_of_In. apply (List.find_none _ _ Hf) in Hp. cbn in Hp.
  by apply bool_decide_eq_false in Hp.
Qed.

(** In a disjoint list the covering range is unique. *)
Lemma find_covers_eq {A} (lo len : A -> Z) l x p :
  ForallOrdPairs (ranges_disjoint lo len) l -> p ∈ l -> in_range (lo p) (len p) x ->
  List.find (covers lo len x) l = Some p.
Proof.
  intros Hd. induction Hd as [|q l Hq Hd IH]; intros Hp Hx; [by apply not_elem_of_nil in Hp|].
  cbn. apply elem_of_cons in Hp as [->|Hp]; [by rewrite bool_decide_true|].
  rewrite bool_decide_false; [by apply IH|]. rewrite Forall_forall in Hq.
  intros Hqx. by apply (Hq p Hp x).
Qed.

Lemma find_covers_before {A} (lo len : A -> Z) l1 p l2 x :
  ForallOrdPairs (ranges_disjoint lo len) (l1 ++ p :: l2) -> in_range (lo p) (len p) x ->
  List.find (covers lo len x) l1 = None.
Proof.
  intros Hd Hx. destruct (List.find _ l1) as [q|] eqn:E; [exfalso|done].
  apply find_covers_Some in E as [Hq Hqx]. induction l1 as [|r l1 IH].
  { by apply not_elem_of_nil in Hq. }
  inversion_clear Hd as [|? ? Hr Hd']. apply elem_of_cons in Hq as [->|Hq]; [|by apply IH].
  rewrite Forall_forall in Hr. eapply (Hr p); [|done|done].
  apply elem_of_app. right. by left.
Qed.

(** [same_view] memories have the same view. *)
Lemma same_view_page_at m m' x : same_view m m' -> page_at m' x = page_at m x.
Proof.
  intros Hv. unfold page_at. rewrite (sv_bytes _ _ Hv).
  by rewrite <- (is_mapped_proper _ _ Hv x x eq_refl), <- (permissions_proper _ _ Hv x x eq_refl).
Qed.

(** A write into read-write pages succeeds. *)
Lemma write_progress m a bs :
  mapped_wf m -> is_u32 a -> 0 < Z.of_nat (length bs) ->
  a + Z.of_nat (length bs) <= kGuestAddressSpaceSize ->
  (forall x, in_range a (Z.of_nat (length bs)) x -> (page_at m x).1 = Some 3) ->
  exists m', write m a bs = (true, m').
Proof.
  intros Hwf Ha Hn Hend Hpre. unfold write.
  rewrite valid_access_in_space by (by apply Hwf || unfold span_max; word_lia).
  rewrite (proj2 (forallb_elem _ _)); [by eexists|]. intros x Hx%elem_of_seqZ.
  rewrite page_at_allows, Hpre by done. rewrite (proj2 (in_space_iff x)) by word_lia. done.
Qed.
