(* ===== verification/HostKernel.v ===== *)
(** * The host kernel

    The calls the program makes to its host ([mmap], [mprotect], [madvise],
    [munmap], [sigaction], loads and stores, and a call of generated code) as an
    interface, its documented behaviour, and a small kernel that has it. The clients
    are the guest memory's reservation and the two Android programs. *)

From S2P Require Import Prelude Bytes GuestMemory MappedMemory AddressView.

#[local] Open Scope Z_scope.

Definition PROT_EXEC : Z := 4.
Definition MAP_PRIVATE : Z := 0x02.
Definition MAP_ANONYMOUS : Z := 0x20.
Definition MAP_NORESERVE : Z := 0x4000.
Definition MAP_FIXED_NOREPLACE : Z := 0x100000.

Class HostKernel (K : Type) := {
  k_mmap : option Z -> Z -> Z -> Z -> K -> result Z Z * K;  (* hint, length, prot, flags *)
  k_mprotect : Z -> Z -> Z -> K -> result Z unit * K;
  k_madvise : Z -> Z -> K -> result Z unit * K;             (* MADV_DONTNEED *)
  k_munmap : Z -> Z -> K -> result Z unit * K;
  k_store : Z -> list Z -> K -> K;
  k_load : Z -> K -> Z;
  k_call : Z -> K -> Z * K;                                 (* run the code at an address *)
  k_sigaction : Z -> K -> result Z unit * K;
}.

(** The code of a function that returns [imm]: MOVZ W0 and RET, or MOV EAX and RET. *)
Definition constant_function (arch : string) (imm : Z) : list Z :=
  if bool_decide (arch = "aarch64")
  then encode_u32_le (Z.lor 0x52800000 (Z.shiftl imm 5)) ++ encode_u32_le 0xd65f03c0
  else 0xb8 :: encode_u32_le imm ++ [0xc3].

(** The protection of each mapped byte and its contents, and what the documented
    calls do to them. Ranges are whole pages; a mapping call without MAP_FIXED never
    replaces a mapping, and anonymous memory is zero; a failing [mprotect] or
    [madvise] may have treated a prefix of its pages; calling two known instructions
    on an executable page returns their constant. *)
Class HostKernelSpec (K : Type) `{HostKernel K} := {
  k_prot : K -> Z -> option Z;
  k_byte : K -> Z -> Z;
  k_arch : string;
  k_page : Z;
  spec_page : 16 <= k_page /\ 17 * k_page <= 2 ^ 32 /\ (k_page | 2 ^ 32);
  spec_mmap_ok hint len prot flags k a k' :
    (k_page | len) -> Z.land flags MAP_ANONYMOUS <> 0 -> k_mmap hint len prot flags k = (Ok a, k') ->
    (k_page | a) /\ (hint = None -> 0 < a) /\
    (forall x, in_range a len x -> k_prot k x = None) /\
    (forall x, k_prot k' x = if decide (in_range a len x) then Some prot else k_prot k x) /\
    (forall x, k_byte k' x = if decide (in_range a len x) then 0 else k_byte k x);
  spec_mmap_err hint len prot flags k e k' x :
    k_mmap hint len prot flags k = (Err e, k') -> k_prot k' x = k_prot k x /\ k_byte k' x = k_byte k x;
  spec_mprotect a len prot k r k' :
    (k_page | len) -> 0 < len -> k_mprotect a len prot k = (r, k') ->
    exists n, 0 <= n <= len /\ (k_page | n) /\
      (r = Ok tt -> n = len /\ forall x, in_range a len x -> is_Some (k_prot k x)) /\
      (forall x, k_byte k' x = k_byte k x) /\
      (forall x, k_prot k' x = if decide (in_range a n x /\ is_Some (k_prot k x)) then Some prot else k_prot k x);
  spec_madvise a len k r k' :
    (k_page | len) -> 0 < len -> k_madvise a len k = (r, k') ->
    exists n, 0 <= n <= len /\ (k_page | n) /\ (r = Ok tt -> n = len) /\
      (forall x, k_prot k' x = k_prot k x) /\
      (forall x, k_byte k' x = if decide (in_range a n x) then 0 else k_byte k x);
  spec_munmap_ok a len k k' x :
    (k_page | len) -> k_munmap a len k = (Ok tt, k') ->
    k_prot k' x = (if decide (in_range a len x) then None else k_prot k x) /\
    (~ in_range a len x -> k_byte k' x = k_byte k x);
  spec_munmap_err a len k e k' x :
    k_munmap a len k = (Err e, k') -> k_prot k' x = k_prot k x /\ k_byte k' x = k_byte k x;
  spec_store_other a bs k x :
    k_prot (k_store a bs k) x = k_prot k x /\
    (~ in_range a (Z.of_nat (length bs)) x -> k_byte (k_store a bs k) x = k_byte k x);
  spec_store a bs k :
    (forall x, in_range a (Z.of_nat (length bs)) x ->
       exists p, k_prot k x = Some p /\ Z.land p PROT_WRITE <> 0) ->
    forall i b, bs !! i = Some b -> k_byte (k_store a bs k) (a + Z.of_nat i) = b;
  spec_load a k p : k_prot k a = Some p -> Z.land p PROT_READ <> 0 -> k_load a k = k_byte k a;
  spec_call a imm k :
    0 <= imm < 2 ^ 16 ->
    (forall i b, constant_function k_arch imm !! i = Some b ->
       k_byte k (a + Z.of_nat i) = b /\
       exists p, k_prot k (a + Z.of_nat i) = Some p /\ Z.land p PROT_EXEC <> 0) ->
    k_call a k = (imm, k);
  spec_sigaction n k r k' x :
    k_sigaction n k = (r, k') -> k_prot k' x = k_prot k x /\ k_byte k' x = k_byte k x;
}.

(** ** Leaving the address space as it was *)
Section untouched.
Context {K : Type} `{HostKernelSpec K}.

(** [munmap] of pages that are mapped does not fail. *)
Definition munmap_total : Prop :=
  forall a len k, (k_page | a) -> (k_page | len) -> 0 < len ->
  (forall x, in_range a len x -> is_Some (k_prot k x)) -> (k_munmap a len k).1 = Ok tt.

(** Existing mappings keep protection and contents; nothing else is left behind. *)
Definition untouched (k k' : K) : Prop :=
  (forall x, is_Some (k_prot k x) -> k_prot k' x = k_prot k x /\ k_byte k' x = k_byte k x) /\
  (munmap_total -> forall x, k_prot k' x = k_prot k x).

#[export] Instance untouched_preorder : PreOrder untouched.
Proof.
  split; [by split|]. intros k1 k2 k3 [H1 T1] [H2 T2]. split.
  - intros x Hx. destruct (H1 x Hx) as [P1 B1]. destruct (H2 x) as [P2 B2]; [by rewrite P1|]. split; congruence.
  - intros Ht x. by rewrite T2, T1.
Qed.

Lemma same_untouched k k' :
  (forall x, k_prot k' x = k_prot k x /\ k_byte k' x = k_byte k x) -> untouched k k'.
Proof. intros Hs. split; [auto|]. intros _ x. apply Hs. Qed.

Lemma page_refl : (k_page | k_page).
Proof. reflexivity. Qed.

Lemma page_positive : 0 < k_page.
Proof. destruct spec_page. lia. Qed.

(** [k] is [k0] plus a mapping of the program's own at [a]. *)
Record holding (a len : Z) (k0 k : K) : Prop := {
  ho_aligned : (k_page | a);
  ho_free x : in_range a len x -> k_prot k0 x = None;
  ho_mapped x : in_range a len x -> is_Some (k_prot k x);
  ho_kept x : ~ in_range a len x -> is_Some (k_prot k0 x) -> k_prot k x = k_prot k0 x /\ k_byte k x = k_byte k0 x;
  ho_exact : munmap_total -> forall x, ~ in_range a len x -> k_prot k x = k_prot k0 x;
}.

Lemma mmap_holding hint len prot flags k a k' :
  (k_page | len) -> Z.land flags MAP_ANONYMOUS <> 0 ->
  k_mmap hint len prot flags k = (Ok a, k') -> holding a len k k'.
Proof.
  intros Hl Hfl (Ha & _ & Hf & Hp & Hb)%spec_mmap_ok; [|done..]. split; [done|done|..].
  - intros x Hx. rewrite Hp, decide_True by done. by eexists.
  - intros x Hx _. by rewrite Hp, Hb, !decide_False.
  - intros _ x Hx. by rewrite Hp, decide_False.
Qed.

(** What happens inside the program's own mapping stays there. *)
Lemma holding_inside a len k0 k k' :
  holding a len k0 k ->
  (forall x, is_Some (k_prot k x) -> is_Some (k_prot k' x)) ->
  (forall x, ~ in_range a len x -> k_prot k' x = k_prot k x /\ k_byte k' x = k_byte k x) ->
  holding a len k0 k'.
Proof.
  intros [Al F M Kp E] Hm Hs. split; [done|done|..].
  - intros x Hx. by apply Hm, M.
  - intros x Hx Hsome. destruct (Hs x Hx) as [-> ->]. by apply Kp.
  - intros Ht x Hx. destruct (Hs x Hx) as [-> _]. by apply E.
Qed.

Lemma holding_untouched a len k0 k k' : holding a len k0 k -> untouched k k' -> holding a len k0 k'.
Proof.
  intros [Al F M Kp E] [H1 T1]. split; [done|done|..].
  - intros x Hx. destruct (H1 x) as [-> _]; by apply M.
  - intros x Hx Hs. destruct (Kp x Hx Hs) as [P1 B1]. destruct (H1 x) as [P2 B2]; [by rewrite P1|]. split; congruence.
  - intros Ht x Hx. rewrite T1, E; done.
Qed.

Lemma holding_mprotect a len k0 k b n prot r k' :
  (k_page | n) -> 0 < n -> (forall x, in_range b n x -> in_range a len x) ->
  holding a len k0 k -> k_mprotect b n prot k = (r, k') -> holding a len k0 k'.
Proof.
  intros Hn Hpos Hsub Hh (j & Hj & _ & _ & Hb & Hp)%spec_mprotect; [|done..].
  eapply holding_inside; [exact Hh|..].
  - intros x Hx. rewrite Hp. case_decide; [by eexists|done].
  - intros x Hx. rewrite Hp, Hb, decide_False; [done|]. intros [Hin _]. apply Hx, Hsub. unfold in_range in *. lia.
Qed.

Lemma holding_madvise a len k0 k b n r k' :
  (k_page | n) -> 0 < n -> (forall x, in_range b n x -> in_range a len x) ->
  holding a len k0 k -> k_madvise b n k = (r, k') -> holding a len k0 k'.
Proof.
  intros Hn Hpos Hsub Hh (j & Hj & _ & _ & Hp & Hb)%spec_madvise; [|done..].
  eapply holding_inside; [exact Hh|..].
  - intros x Hx. by rewrite Hp.
  - intros x Hx. rewrite Hp, Hb, decide_False; [done|]. intros Hin. apply Hx, Hsub. unfold in_range in *. lia.
Qed.

Lemma holding_store a len k0 k b bs :
  (forall x, in_range b (Z.of_nat (length bs)) x -> in_range a len x) ->
  holding a len k0 k -> holding a len k0 (k_store b bs k).
Proof.
  intros Hsub Hh. eapply holding_inside; [exact Hh|..].
  - intros x Hx. by destruct (spec_store_other b bs k x) as [-> _].
  - intros x Hx. destruct (spec_store_other b bs k x) as [Hp Hb]. split; [done|]. apply Hb. auto.
Qed.

Lemma holding_munmap a len k0 k r k' :
  (k_page | len) -> 0 < len -> holding a len k0 k -> k_munmap a len k = (r, k') -> untouched k0 k'.
Proof.
  intros Hl Hpos [Al F M Kp E] Hu. split.
  - intros x Hx. destruct (decide (in_range a len x)) as [Hin|Hout]; [by rewrite F in Hx; destruct Hx|].
    destruct r as [[]|e].
    + destruct (spec_munmap_ok _ _ _ _ x Hl Hu) as [-> Hb]. rewrite decide_False, Hb by done. by apply Kp.
    + destruct (spec_munmap_err _ _ _ _ _ x Hu) as [-> ->]. by apply Kp.
  - intros Ht x. pose proof (Ht a len k Al Hl Hpos M) as Hok. rewrite Hu in Hok. cbn in Hok. subst r.
    destruct (spec_munmap_ok _ _ _ _ x Hl Hu) as [-> _]. case_decide; [by rewrite F|by apply E].
Qed.
End untouched.

(** ** A small kernel

    Pages of 128 MiB, none mapped at [kn_top] or above; mappings are handed out from
    there. [exec] says whether [mprotect] may make a page executable. *)
Module Toy.
Definition P : Z := 2 ^ 27.

Record kernel_state (exec : bool) := {
  kn_pages : Z -> option Z;
  kn_bytes : Z -> Z;
  kn_top : Z;
  kn_free p : kn_top <= p -> kn_pages p = None;
  kn_pos : 1 <= kn_top;
}.

Arguments kn_pages {exec} _ _.
Arguments kn_bytes {exec} _ _.
Arguments kn_top {exec} _.
Arguments kn_free {exec} _ _ _.
Arguments kn_pos {exec} _.

Section machine.
Context {exec : bool}.
Notation kernel_state := (kernel_state exec).

Definition all_mapped (k : kernel_state) (p n : Z) : bool :=
  forallb (fun q => bool_decide (is_Some (kn_pages k q))) (seqZ p n).

Definition set_pages (p n : Z) (v : option Z) (pages : Z -> option Z) (q : Z) : option Z :=
  if bool_decide (p <= q < p + n) then v else pages q.

Lemma set_pages_free p n v (k : kernel_state) q :
  Z.max (kn_top k) (p + n) <= q -> set_pages p n v (kn_pages k) q = None.
Proof. intros Hq. unfold set_pages. rewrite bool_decide_false by lia. apply kn_free. lia. Qed.

(** Pages [p] to [p + n] get protection [v]. *)
Definition assign (k : kernel_state) (p n : Z) (v : option Z) : kernel_state :=
  {| kn_pages := set_pages p n v (kn_pages k); kn_bytes := kn_bytes k;
     kn_top := Z.max (kn_top k) (p + n); kn_free := set_pages_free p n v k;
     kn_pos := Z.le_trans _ _ _ (kn_pos k) (Z.le_max_l _ _) |}.

Definition clear (a len : Z) (k : kernel_state) : kernel_state :=
  {| kn_pages := kn_pages k;
     kn_bytes := fun x => if bool_decide (in_range a len x) then 0 else kn_bytes k x;
     kn_top := kn_top k; kn_free := kn_free k; kn_pos := kn_pos k |}.

Definition aligned (a len : Z) : bool := (a mod P =? 0) && (len mod P =? 0) && (0 <? len).

Definition mmap (hint : option Z) (len prot flags : Z) (k : kernel_state) : result Z Z * kernel_state :=
  let p := match hint with Some a => if kn_top k * P <=? a then a / P else kn_top k | None => kn_top k end in
  if aligned 0 len then (Ok (p * P), clear (p * P) len (assign k p (len / P) (Some prot))) else (Err 22, k).

Definition mprotect (a len prot : Z) (k : kernel_state) : result Z unit * kernel_state :=
  if negb (aligned a len) then (Err 22, k)
  else if negb exec && negb (Z.land prot PROT_EXEC =? 0) then (Err 13, k)
  else if all_mapped k (a / P) (len / P) then (Ok tt, assign k (a / P) (len / P) (Some prot)) else (Err 12, k).

Definition madvise (a len : Z) (k : kernel_state) : result Z unit * kernel_state :=
  if aligned a len then (Ok tt, clear a len k) else (Err 22, k).

Definition munmap (a len : Z) (k : kernel_state) : result Z unit * kernel_state :=
  if aligned a len then (Ok tt, assign k (a / P) (len / P) None) else (Err 22, k).

Definition store (a : Z) (bs : list Z) (k : kernel_state) : kernel_state :=
  {| kn_pages := kn_pages k;
     kn_bytes := fun x => if bool_decide (a <= x < a + Z.of_nat (length bs)) then byte_at bs (x - a) else kn_bytes k x;
     kn_top := kn_top k; kn_free := kn_free k; kn_pos := kn_pos k |}.

(** An x86-64 machine that knows MOV EAX, imm32; RET. *)
Definition call (a : Z) (k : kernel_state) : Z * kernel_state :=
  (decode_u32_le (map (kn_bytes k) [a + 1; a + 2; a + 3; a + 4]) 0, k).

#[export] Instance toy_kernel : HostKernel kernel_state := {|
  k_mmap := mmap; k_mprotect := mprotect; k_madvise := madvise; k_munmap := munmap; k_store := store;
  k_load := fun a k => kn_bytes k a; k_call := call; k_sigaction := fun _ k => (Ok tt, k);
|}.

Definition prot (k : kernel_state) (x : Z) : option Z := kn_pages k (x / P).

Lemma aligned_page a len : aligned a len = true -> (P | a) /\ (P | len) /\ 0 < len.
Proof.
  unfold aligned. intros [[Ha Hl]%andb_prop Hp]%andb_prop. apply Z.eqb_eq in Ha, Hl. apply Z.ltb_lt in Hp.
  split; [|split; [|done]]; by apply Z.mod_divide.
Qed.

Lemma page_aligned a len : (P | a) -> (P | len) -> 0 < len -> aligned a len = true.
Proof.
  intros Ha Hl Hp. apply Z.mod_divide in Ha, Hl; [|done..]. unfold aligned. rewrite Ha, Hl. cbn. by apply Z.ltb_lt.
Qed.

(** A byte is in a range of pages when its page is. *)
Lemma in_range_page a len x : (P | a) -> (P | len) -> in_range a len x <-> a / P <= x / P < a / P + len / P.
Proof.
  intros [p ->] [n ->]. rewrite !Z.div_mul by done. unfold in_range, P.
  pose proof (Z.div_mod x (2 ^ 27) ltac:(lia)). pose proof (Z.mod_pos_bound x (2 ^ 27) ltac:(lia)). lia.
Qed.

Lemma prot_assign k a len v x :
  (P | a) -> (P | len) ->
  prot (assign k (a / P) (len / P) v) x = if decide (in_range a len x) then v else prot k x.
Proof.
  intros Ha Hl. unfold prot, assign, set_pages. cbn [kn_pages].
  destruct (decide (in_range a len x)) as [Hx|Hx]; rewrite in_range_page in Hx by done.
  - by rewrite bool_decide_true.
  - by rewrite bool_decide_false.
Qed.

Lemma decide_bool_decide (Q : Prop) `{Decision Q} {A} (x y : A) :
  (if bool_decide Q then x else y) = if decide Q then x else y.
Proof. by rewrite decide_bool_decide. Qed.

Lemma all_mapped_spec k a len :
  (P | a) -> (P | len) ->
  all_mapped k (a / P) (len / P) = true <-> (forall x, in_range a len x -> is_Some (prot k x)).
Proof.
  intros Ha Hl. unfold all_mapped. rewrite forallb_forall. split.
  - intros Hq x Hx%in_range_page; [|done..]. eapply bool_decide_eq_true_1, Hq, list_elem_of_In, elem_of_seqZ. lia.
  - intros Hx q Hq%list_elem_of_In%elem_of_seqZ. apply bool_decide_eq_true_2.
    assert (Hd : (q * P) / P = q) by (by apply Z.div_mul). rewrite <- Hd. apply Hx.
    apply in_range_page; [done..|]. rewrite Hd. lia.
Qed.

Lemma mmap_spec hint len prot0 flags k a k' :
  mmap hint len prot0 flags k = (Ok a, k') ->
  (P | a) /\ (P | len) /\ kn_top k <= a / P /\ k' = clear a len (assign k (a / P) (len / P) (Some prot0)).
Proof.
  unfold mmap. destruct (aligned 0 len) eqn:Hal; [|done]. intros [= <- <-].
  apply aligned_page in Hal as (_ & Hl & _). rewrite Z.div_mul by done.
  split; [by eexists|]. split; [done|]. split; [|done].
  destruct hint as [a|]; [|done]. destruct (Z.leb_spec (kn_top k * P) a); [|done].
  apply Z.div_le_lower_bound; unfold P in *; lia.
Qed.

Lemma call_spec a imm k :
  0 <= imm < 2 ^ 16 ->
  (forall i b, constant_function "x86_64" imm !! i = Some b -> kn_bytes k (a + Z.of_nat i) = b) ->
  call a k = (imm, k).
Proof.
  intros Hi Hc. unfold call. f_equal. cbn [map].
  assert (H1 := Hc 1%nat _ eq_refl : kn_bytes k (a + 1) = _).
  assert (H2 := Hc 2%nat _ eq_refl : kn_bytes k (a + 2) = _).
  assert (H3 := Hc 3%nat _ eq_refl : kn_bytes k (a + 3) = _).
  assert (H4 := Hc 4%nat _ eq_refl : kn_bytes k (a + 4) = _).
  rewrite H1, H2, H3, H4.
  apply decode_encode_u32. unfold is_u32. lia.
Qed.

Lemma store_bytes a bs k i b : bs !! i = Some b -> kn_bytes (store a bs k) (a + Z.of_nat i) = b.
Proof.
  intros Hb. pose proof (lookup_lt_Some _ _ _ Hb). cbn. rewrite bool_decide_true by lia.
  unfold byte_at. replace (Z.to_nat (a + Z.of_nat i - a)) with i by lia. by rewrite Hb.
Qed.

Lemma mprotect_spec a len prot0 k r k' :
  (P | len) -> mprotect a len prot0 k = (r, k') ->
  (r <> Ok tt /\ k' = k) \/
  (r = Ok tt /\ (P | a) /\ (forall x, in_range a len x -> is_Some (prot k x)) /\
   k' = assign k (a / P) (len / P) (Some prot0)).
Proof.
  intros Hl. unfold mprotect. destruct (aligned a len) eqn:Hal; cbn [negb]; [|left; by simplify_eq].
  case_match; [left; by simplify_eq|]. apply aligned_page in Hal as (Ha & _ & _).
  destruct (all_mapped _ _ _) eqn:Hm; [|left; by simplify_eq]. rewrite all_mapped_spec in Hm by done.
  intros [= <- <-]. by right.
Qed.

#[export] Program Instance toy_spec : HostKernelSpec kernel_state := {|
  k_prot := prot; k_byte := kn_bytes; k_arch := "x86_64"; k_page := P;
|}.
Next Obligation. repeat split; [done..|]. by exists 32. Qed.
Next Obligation.
  intros hint len prot0 flags k a k' Hl _ Hm. pose proof Hm as (Ha & _ & Ht & ->)%mmap_spec. pose proof (kn_pos k).
  split; [done|]. split; [|split; [|split]].
  - intros _. destruct Ha as [q ->]. rewrite Z.div_mul in Ht by done. unfold P. lia.
  - intros x Hx%in_range_page; [|done..]. apply kn_free. lia.
  - intros x. by apply prot_assign.
  - intros x. apply decide_bool_decide.
Qed.
Next Obligation. intros hint len prot0 flags k e k' x E. cbn in E. unfold mmap in E. by case_match; simplify_eq. Qed.
Next Obligation.
  intros a len prot0 k r k' Hl Hpos [[Hr ->]|(-> & Ha & Hm & ->)]%mprotect_spec; [|exists len|done].
  - exists 0. split; [lia|]. split; [by exists 0|]. split; [done|]. split; [done|].
    intros x. rewrite decide_False; [done|]. unfold in_range. lia.
  - split; [lia|]. split; [done|]. split; [done|]. split; [done|]. intros x. rewrite prot_assign by done.
    apply decide_ext. naive_solver.
Qed.
Next Obligation.
  intros a len k r k' Hl Hpos. cbn. unfold madvise. destruct (aligned a len); intros [= <- <-].
  - exists len. split; [lia|]. split; [done|]. split; [done|]. split; [done|]. intros x. apply decide_bool_decide.
  - exists 0. split; [lia|]. split; [by exists 0|]. split; [done|]. split; [done|].
    intros x. rewrite decide_False; [done|]. unfold in_range. lia.
Qed.
Next Obligation.
  intros a len k k' x Hl. cbn. unfold munmap. destruct (aligned a len) eqn:Hal; [|done]. intros [= <-].
  apply aligned_page in Hal as (Ha & _ & _). split; [by apply prot_assign|done].
Qed.
Next Obligation. intros a len k e k' x E. cbn in E. unfold munmap in E. by case_match; simplify_eq. Qed.
Next Obligation.
  intros a bs k x. split; [done|]. intros Hx. cbn. by rewrite bool_decide_false.
Qed.
Next Obligation. intros a bs k _ i b Hb. by apply store_bytes. Qed.
Next Obligation. done. Qed.
Next Obligation. intros a imm k Hi Hc. apply call_spec; [done|]. intros i b Hb. by apply Hc. Qed.
Next Obligation. by intros n k r k' x [= <- <-]. Qed.
End machine.

Definition empty (exec : bool) : kernel_state exec :=
  {| kn_pages := fun _ => None; kn_bytes := fun _ => 0; kn_top := 1; kn_free := fun _ _ => eq_refl; kn_pos := Z.le_refl 1 |}.
End Toy.
