(* ===== verification/HostMemory.v ===== *)
(** * [MappedGuestMemory] on the host kernel ([src/src/memory/guest_memory.cpp])

    The object with its three members, its constructor and destructor, and its
    operations with the kernel calls they make: [mmap] of the 4 GiB reservation,
    [mprotect] and [madvise] at host addresses, [memcpy] into the reservation,
    [munmap]. MappedMemory abstracts from the kernel (contents and protections by
    guest address, outcomes of host calls as data); here that abstraction is proved:
    every run of the object is a run of the abstract memory. *)

From S2P Require Import Prelude Bytes GuestMemory MappedMemory AddressView HostKernel.
Import MappedGuestMemory.

#[local] Open Scope Z_scope.

Module HostMemory.

(** The members. *)
Record object := {
  hm_reservation : Z;
  hm_page_size : Z;
  hm_page_state : gmap Z Z;
}.

(** The checks read the members only. *)
Definition members (o : object) : t := mk (hm_reservation o) (hm_page_size o) (hm_page_state o) ∅ ∅ [].

Inductive exception : Set := PageSizeUnavailable | PageSizeDoesNotDivide | ReservationFailed (error : Z).

(** [host_address(address)] *)
Definition host_address (o : object) (address : Z) : Z := hm_reservation o + address.

(** [std::fill_n(page_state_.begin() + first, count, state)] *)
Definition set_states (o : object) (first count state : Z) : object :=
  {| hm_reservation := hm_reservation o; hm_page_size := hm_page_size o;
     hm_page_state := fill_n first count state (hm_page_state o) |}.

Section operations.
Context {K : Type} `{HostKernel K}.

(** [MappedGuestMemory()] *)
Definition construct (host_page_size : Z) (k : K) : result exception object * K :=
  if host_page_size <=? 0 then (Err PageSizeUnavailable, k)
  else if negb (kGuestAddressSpaceSize mod host_page_size =? 0) then (Err PageSizeDoesNotDivide, k)
  else
    let flags := Z.lor (Z.lor MAP_PRIVATE MAP_ANONYMOUS) MAP_NORESERVE in
    match k_mmap None kGuestAddressSpaceSize PROT_NONE flags k with
    | (Err error, k') => (Err (ReservationFailed error), k')
    | (Ok base, k') =>
        (Ok {| hm_reservation := base; hm_page_size := host_page_size; hm_page_state := ∅ |}, k')
    end.

(** [~MappedGuestMemory()] *)
Definition destroy (o : object) (k : K) : K :=
  if hm_reservation o =? 0 then k else (k_munmap (hm_reservation o) kGuestAddressSpaceSize k).2.

Definition map (o : object) (address len permissions_value : Z) (k : K) : bool * object * K :=
  if negb (valid_page_range (members o) address len) || negb (valid_permissions permissions_value)
  then (false, o, k)
  else
    let first := page_index (members o) address in
    let count := len / hm_page_size o in
    if existsb (fun index => page_is_mapped (state_at (members o) index)) (seqZ first count)
    then (false, o, k)
    else
      match k_mprotect (host_address o address) len (host_protection permissions_value) k with
      | (Err _, k') => (false, o, k')
      | (Ok _, k') => (true, set_states o first count (encode_page_state permissions_value), k')
      end.

Definition protect (o : object) (address len permissions_value : Z) (k : K) : bool * object * K :=
  if negb (valid_page_range (members o) address len) || negb (valid_permissions permissions_value)
  then (false, o, k)
  else
    let first := page_index (members o) address in
    let count := len / hm_page_size o in
    if existsb (fun index => negb (page_is_mapped (state_at (members o) index))) (seqZ first count)
    then (false, o, k)
    else
      match k_mprotect (host_address o address) len (host_protection permissions_value) k with
      | (Err _, k') => (false, o, k')
      | (Ok _, k') => (true, set_states o first count (encode_page_state permissions_value), k')
      end.

Definition unmap (o : object) (address len : Z) (k : K) : bool * object * K :=
  if negb (valid_page_range (members o) address len) then (false, o, k)
  else
    let first := page_index (members o) address in
    let count := len / hm_page_size o in
    if existsb (fun index => negb (page_is_mapped (state_at (members o) index))) (seqZ first count)
    then (false, o, k)
    else
      let host := host_address o address in
      match k_madvise host len k with
      | (Err _, k') => (false, o, k')
      | (Ok _, k') =>
          match k_mprotect host len PROT_NONE k' with
          | (Err _, k'') => (false, o, k'')
          | (Ok _, k'') => (true, set_states o first count 0, k'')
          end
      end.

(** [memcpy] out of and into the reservation. *)
Definition copy_out (o : object) (address n : Z) (k : K) : list Z :=
  (fun x => k_load (host_address o x) k) <$> seqZ address n.

Definition read (o : object) (address n : Z) (k : K) : option (list Z) :=
  if negb (valid_access (members o) address n MemoryPermission.Read) then None
  else Some (copy_out o address n k).

Definition read_code (o : object) (address n : Z) (k : K) : option (list Z) :=
  if negb (valid_access (members o) address n MemoryPermission.Execute) then None
  else Some (copy_out o address n k).

Definition write (o : object) (address : Z) (input : list Z) (k : K) : bool * object * K :=
  if negb (valid_access (members o) address (Z.of_nat (length input)) MemoryPermission.Write)
  then (false, o, k)
  else (true, o, if is_empty input then k else k_store (host_address o address) input k).

Definition exec (op : mem_op) (o : object) (k : K) : bool * object * K :=
  match op with
  | OpMap a n p => map o a n p k
  | OpProtect a n p => protect o a n p k
  | OpUnmap a n => unmap o a n k
  | OpWrite a bs => write o a bs k
  end.
End operations.
End HostMemory.

Import HostMemory.

(** ** The abstraction *)
Definition set_calls (m : t) (calls : list host_outcome) : t :=
  mk (reservation_ m) (page_size_ m) (page_state_ m) (host_bytes m) (host_prot m) calls.

Section refinement.
Context {K : Type} `{HostKernelSpec K}.

(** The object [o] on the kernel [k], which was [k0] before the reservation, stands
    for the abstract memory [m]. *)
Record represents (k0 : K) (m : t) (o : object) (k : K) : Prop := {
  re_reservation : reservation_ m = hm_reservation o;
  re_pos : 0 < hm_reservation o;
  re_object_page : hm_page_size o = k_page;
  re_page : page_size_ m = k_page;
  re_states : page_state_ m = hm_page_state o;
  re_holding : holding (hm_reservation o) kGuestAddressSpaceSize k0 k;
  re_prot a : is_u32 a -> k_prot k (host_address o a) = Some (cell (host_prot m) (a / k_page));
  re_byte a : is_u32 a -> k_byte k (host_address o a) = cell (host_bytes m) a;
}.

(** The host outcome a kernel call amounts to, when it treated [n] bytes. *)
Definition outcome_of (r : result Z unit) (n : Z) : host_outcome :=
  match r with Ok _ => HostOk | Err _ => HostFail (Z.to_nat (n / k_page)) end.

Lemma divides_mod n : (k_page | n) <-> n mod k_page = 0.
Proof. pose proof page_positive. symmetry. apply Z.mod_divide. lia. Qed.

Lemma mod_divides_reservation k0 m o k a :
  represents k0 m o k -> (k_page | a) -> (k_page | host_address o a).
Proof. intros [_ _ _ _ _ Hh _ _] Ha. apply Z.divide_add_r; [apply Hh|done]. Qed.

Lemma host_range o a n x : in_range (host_address o a) n (host_address o x) <-> in_range a n x.
Proof. unfold in_range, host_address. lia. Qed.

Lemma inside_reservation o a n x :
  0 <= a -> a + n <= kGuestAddressSpaceSize ->
  in_range (host_address o a) n x -> in_range (hm_reservation o) kGuestAddressSpaceSize x.
Proof. unfold in_range, host_address. lia. Qed.

(** The host changes protections of mapped pages and discards them when asked. *)
Definition host_serves : Prop :=
  forall a len k, (k_page | a) -> (k_page | len) -> 0 < len ->
  (forall x, in_range a len x -> is_Some (k_prot k x)) ->
  (forall prot, Z.land prot PROT_EXEC = 0 -> (k_mprotect a len prot k).1 = Ok tt) /\
  (k_madvise a len k).1 = Ok tt.

Lemma host_protection_no_exec p : Z.land (host_protection p) PROT_EXEC = 0.
Proof. unfold host_protection. by do 2 case_match. Qed.

Lemma served k0 m o k a n :
  represents k0 m o k -> is_u32 a -> page_range_ok m a n -> host_serves ->
  (forall p, Z.land p PROT_EXEC = 0 -> (k_mprotect (host_address o a) n p k).1 = Ok tt) /\
  (k_madvise (host_address o a) n k).1 = Ok tt.
Proof.
  intros Hre Ha (Hn & Ham & Hnm & Hend) Hs. rewrite (re_page _ _ _ _ Hre) in Ham, Hnm. apply Hs.
  - by eapply mod_divides_reservation; [exact Hre|apply divides_mod].
  - by apply divides_mod.
  - done.
  - intros x Hx. eapply (ho_mapped _ _ _ _ (re_holding _ _ _ _ Hre)), inside_reservation; [| |exact Hx]; [word_lia|lia].
Qed.

(** The kernel's [mprotect] on the reservation is the abstract [mprotect]. *)
Lemma mprotect_refines k0 m o k a n prot r k' :
  represents k0 m o k -> is_u32 a -> page_range_ok m a n ->
  k_mprotect (host_address o a) n prot k = (r, k') ->
  exists c m', represents k0 m' o k' /\ (host_serves -> Z.land prot PROT_EXEC = 0 -> c = HostOk) /\
    forall rest, mprotect (set_calls m (c :: rest)) (a / k_page) (n / k_page) prot = (is_ok r, set_calls m' rest).
Proof.
  intros Hre Ha Hr E. pose proof (served _ _ _ _ _ _ Hre Ha Hr) as Hserve. destruct Hr as (Hn & Ham & Hnm & Hend).
  pose proof page_positive as Hpos. rewrite (re_page _ _ _ _ Hre) in Ham, Hnm.
  pose proof E as (j & Hj & Hjd & Hok & Hb & Hp)%spec_mprotect; [|by apply divides_mod|done].
  pose proof Hjd as Hjm. apply divides_mod in Hjm.
  assert (Hjp : j / k_page <= n / k_page) by (apply Z.div_le_mono; lia).
  exists (outcome_of r j), (mk (reservation_ m) (page_size_ m) (page_state_ m) (host_bytes m)
    (fill_n (a / k_page) (j / k_page) prot (host_prot m)) []).
  split; [|split; [intros Hs Hx; destruct (Hserve Hs) as [Hp' _]; specialize (Hp' _ Hx); rewrite E in Hp'; cbn in Hp'; by subst r|]].
  - destruct Hre as [R1 R2 R3 R4 R5 R6 R7 R8]. split; try done; cbn.
    + eapply holding_mprotect; [apply divides_mod, Hnm|exact Hn| |exact R6|exact E].
      intros x. apply inside_reservation; [word_lia|lia].
    + intros x Hx. rewrite Hp, cell_fill_n, R7 by done.
      destruct (decide (a / k_page <= x / k_page < a / k_page + j / k_page)) as [Hin|Hout];
        rewrite page_range_iff in * by done.
      * rewrite decide_True; [done|]. split; [by apply host_range|by eexists].
      * rewrite decide_False; [done|]. intros [Hin%host_range _]. by apply Hout.
    + intros x Hx. rewrite Hb. by apply R8.
  - intros rest. unfold mprotect, outcome_of. cbn. destruct r as [u|e]; cbn.
    + destruct (Hok ltac:(by destruct u)) as [-> _]. done.
    + rewrite Z2Nat.id by (apply Z.div_pos; lia). by rewrite Z.min_l.
Qed.

Lemma madvise_refines k0 m o k a n r k' :
  represents k0 m o k -> is_u32 a -> page_range_ok m a n ->
  k_madvise (host_address o a) n k = (r, k') ->
  exists c m', represents k0 m' o k' /\ (host_serves -> c = HostOk) /\
    forall rest, madvise_dontneed (set_calls m (c :: rest)) (a / k_page) (n / k_page) = (is_ok r, set_calls m' rest).
Proof.
  intros Hre Ha Hr E. pose proof (served _ _ _ _ _ _ Hre Ha Hr) as Hserve. destruct Hr as (Hn & Ham & Hnm & Hend).
  pose proof page_positive as Hpos. rewrite (re_page _ _ _ _ Hre) in Ham, Hnm.
  pose proof E as (j & Hj & Hjd & Hok & Hp & Hb)%spec_madvise; [|by apply divides_mod|done].
  pose proof Hjd as Hjm. apply divides_mod in Hjm.
  assert (Hjp : j / k_page <= n / k_page) by (apply Z.div_le_mono; lia).
  assert (Ea : a / k_page * k_page = a) by (rewrite Z.mul_comm; symmetry; apply Z_div_exact_full_2; lia).
  assert (Ej : j / k_page * k_page = j) by (rewrite Z.mul_comm; symmetry; apply Z_div_exact_full_2; lia).
  exists (outcome_of r j), (mk (reservation_ m) (page_size_ m) (page_state_ m) (discard a j (host_bytes m)) (host_prot m) []).
  split; [|split; [intros Hs; destruct (Hserve Hs) as [_ Hp']; rewrite E in Hp'; cbn in Hp'; by subst r|]].
  - destruct Hre as [R1 R2 R3 R4 R5 R6 R7 R8]. split; try done; cbn.
    + eapply holding_madvise; [apply divides_mod, Hnm|exact Hn| |exact R6|exact E].
      intros x. apply inside_reservation; [word_lia|lia].
    + intros x Hx. rewrite Hp. by apply R7.
    + intros x Hx. rewrite Hb, cell_discard, R8 by done. apply decide_ext, host_range.
  - intros rest. unfold madvise_dontneed, outcome_of. cbn. rewrite (re_page _ _ _ _ Hre), Ea.
    destruct r as [u|e]; cbn.
    + by rewrite <- (Hok ltac:(by destruct u)), Ej.
    + rewrite Z2Nat.id by (apply Z.div_pos; lia). by rewrite Z.min_l, Ej.
Qed.

(** The checks agree. *)
Section checks.
Context {k0 : K} {m : t} {o : object} {k : K} (Hre : represents k0 m o k).

Lemma same_range calls a n : valid_page_range (set_calls m calls) a n = valid_page_range (members o) a n.
Proof. unfold valid_page_range. cbn. by rewrite (re_page _ _ _ _ Hre), (re_object_page _ _ _ _ Hre). Qed.

Lemma same_access calls a n q : valid_access (set_calls m calls) a n q = valid_access (members o) a n q.
Proof.
  unfold valid_access, page_index, state_at. cbn.
  by rewrite (re_page _ _ _ _ Hre), (re_object_page _ _ _ _ Hre), (re_states _ _ _ _ Hre).
Qed.

Lemma same_size : page_size_ m = hm_page_size o.
Proof. by rewrite (re_page _ _ _ _ Hre), (re_object_page _ _ _ _ Hre). Qed.

Lemma same_mapped calls a n :
  existsb (fun i => page_is_mapped (state_at (set_calls m calls) i))
    (seqZ (page_index (set_calls m calls) a) (n / page_size_ (set_calls m calls)))
  = existsb (fun i => page_is_mapped (state_at (members o) i)) (seqZ (page_index (members o) a) (n / hm_page_size o)).
Proof. unfold page_index, state_at. cbn. by rewrite same_size, (re_states _ _ _ _ Hre). Qed.

Lemma same_unmapped calls a n :
  existsb (fun i => negb (page_is_mapped (state_at (set_calls m calls) i)))
    (seqZ (page_index (set_calls m calls) a) (n / page_size_ (set_calls m calls)))
  = existsb (fun i => negb (page_is_mapped (state_at (members o) i))) (seqZ (page_index (members o) a) (n / hm_page_size o)).
Proof. unfold page_index, state_at. cbn. by rewrite same_size, (re_states _ _ _ _ Hre). Qed.

Lemma range_ok a n : is_u32 a -> no_wrap n -> valid_page_range (members o) a n = true -> page_range_ok m a n.
Proof.
  intros Ha Hn Hv. pose proof page_positive. rewrite <- (same_range []) in Hv.
  apply (valid_page_range_iff (set_calls m [])) in Hv; [done|cbn; by rewrite (re_page _ _ _ _ Hre)|done|done].
Qed.

Lemma represents_states first count state :
  represents k0 (set_page_states m first count state) (set_states o first count state) k.
Proof. destruct Hre as [R1 R2 R3 R4 R5 R6 R7 R8]. split; try done. cbn. by rewrite R5. Qed.
End checks.

(** One operation of the object is one of the abstract memory. *)
Definition refined (k0 : K) (m : t) (op : mem_op) (r : bool * object * K) : Prop :=
  let '(b, o', k') := r in
  exists calls m', represents k0 m' o' k' /\ (host_serves -> Forall (eq HostOk) calls) /\
    forall rest, exec_op op (set_calls m (calls ++ rest)) = (b, set_calls m' rest).

Lemma refused_refines k0 m op o k :
  represents k0 m o k -> (forall calls, exec_op op (set_calls m calls) = (false, set_calls m calls)) ->
  refined k0 m op (false, o, k).
Proof. intros Hre He. exists [], m. split; [done|]. split; [constructor|]. intros rest. apply He. Qed.

(** The common end of [map] and [protect]. *)
Lemma repermit_refines k0 m o k op a n p :
  represents k0 m o k -> is_u32 a -> page_range_ok m a n ->
  (forall calls, exec_op op (set_calls m calls) =
     let '(ok, m1) := mprotect (set_calls m calls) (a / k_page) (n / k_page) (host_protection p) in
     if negb ok then (false, m1) else (true, set_page_states m1 (a / k_page) (n / k_page) (encode_page_state p))) ->
  refined k0 m op
    match k_mprotect (host_address o a) n (host_protection p) k with
    | (Err _, k') => (false, o, k')
    | (Ok _, k') => (true, set_states o (a / k_page) (n / k_page) (encode_page_state p), k')
    end.
Proof.
  intros Hre Ha Hr He. destruct (k_mprotect _ _ _ _) as [r k'] eqn:E.
  pose proof (mprotect_refines _ _ _ _ _ _ _ _ _ Hre Ha Hr E) as (c & m' & Hre' & Hc & Hm).
  assert (Hserve : host_serves -> Forall (eq HostOk) [c]).
  { intros Hs. rewrite Hc; [by repeat constructor|done|apply host_protection_no_exec]. }
  destruct r as [u|e].
  - exists [c], (set_page_states m' (a / k_page) (n / k_page) (encode_page_state p)).
    split; [by apply represents_states|]. split; [done|].
    intros rest. rewrite He. cbn [app]. by rewrite Hm.
  - exists [c], m'. split; [done|]. split; [done|].
    intros rest. rewrite He. cbn [app]. by rewrite Hm.
Qed.

Lemma map_refines k0 m o k a n p :
  represents k0 m o k -> is_u32 a -> no_wrap n -> refined k0 m (OpMap a n p) (HostMemory.map o a n p k).
Proof.
  intros Hre Ha Hn. unfold HostMemory.map. destruct (_ || _) eqn:Hv.
  { apply refused_refines; [done|]. intros calls. cbn [exec_op]. unfold MappedGuestMemory.map. by rewrite (same_range Hre), Hv. }
  cbv zeta. destruct (existsb _ _) eqn:Hx.
  { apply refused_refines; [done|]. intros calls. cbn [exec_op]. unfold MappedGuestMemory.map. rewrite (same_range Hre), Hv.
    cbv zeta. by rewrite (same_mapped Hre), Hx. }
  unfold page_index. cbn [page_size_ members]. rewrite (re_object_page _ _ _ _ Hre).
  apply orb_false_iff in Hv as [Hv1%negb_false_iff Hv2%negb_false_iff].
  apply (repermit_refines _ _ _ _ (OpMap a n p)); [done|done|by apply (range_ok Hre)|].
  intros calls. cbn [exec_op]. unfold MappedGuestMemory.map. rewrite (same_range Hre). rewrite Hv1, Hv2. cbn [negb orb]. cbv zeta.
  rewrite (same_mapped Hre), Hx. unfold page_index. cbn [page_size_ set_calls]. by rewrite (re_page _ _ _ _ Hre).
Qed.

Lemma protect_refines k0 m o k a n p :
  represents k0 m o k -> is_u32 a -> no_wrap n -> refined k0 m (OpProtect a n p) (HostMemory.protect o a n p k).
Proof.
  intros Hre Ha Hn. unfold HostMemory.protect. destruct (_ || _) eqn:Hv.
  { apply refused_refines; [done|]. intros calls. cbn [exec_op]. unfold MappedGuestMemory.protect. by rewrite (same_range Hre), Hv. }
  cbv zeta. destruct (existsb _ _) eqn:Hx.
  { apply refused_refines; [done|]. intros calls. cbn [exec_op]. unfold MappedGuestMemory.protect. rewrite (same_range Hre), Hv.
    cbv zeta. by rewrite (same_unmapped Hre), Hx. }
  unfold page_index. cbn [page_size_ members]. rewrite (re_object_page _ _ _ _ Hre).
  apply orb_false_iff in Hv as [Hv1%negb_false_iff Hv2%negb_false_iff].
  apply (repermit_refines _ _ _ _ (OpProtect a n p)); [done|done|by apply (range_ok Hre)|].
  intros calls. cbn [exec_op]. unfold MappedGuestMemory.protect. rewrite (same_range Hre). rewrite Hv1, Hv2.
  cbn [negb orb]. cbv zeta.
  rewrite (same_unmapped Hre), Hx. unfold page_index. cbn [page_size_ set_calls]. by rewrite (re_page _ _ _ _ Hre).
Qed.

(** The host calls of [unmap]. *)
Lemma discard_refines k0 m o k a n :
  represents k0 m o k -> is_u32 a -> page_range_ok m a n ->
  (forall calls, exec_op (OpUnmap a n) (set_calls m calls) =
     let '(ok, m1) := madvise_dontneed (set_calls m calls) (a / k_page) (n / k_page) in
     if negb ok then (false, m1) else
       let '(ok, m2) := mprotect m1 (a / k_page) (n / k_page) PROT_NONE in
       if negb ok then (false, m2) else (true, set_page_states m2 (a / k_page) (n / k_page) 0)) ->
  refined k0 m (OpUnmap a n)
    match k_madvise (host_address o a) n k with
    | (Err _, k') => (false, o, k')
    | (Ok _, k') =>
        match k_mprotect (host_address o a) n PROT_NONE k' with
        | (Err _, k'') => (false, o, k'')
        | (Ok _, k'') => (true, set_states o (a / k_page) (n / k_page) 0, k'')
        end
    end.
Proof.
  intros Hre Ha Hr He. destruct (k_madvise _ _ _) as [r k1] eqn:E1.
  pose proof (madvise_refines _ _ _ _ _ _ _ _ Hre Ha Hr E1) as (c1 & m1 & Hre1 & Hc1 & Hm1).
  destruct r as [u|e].
  2: { exists [c1], m1. split; [done|]. split; [intros Hs; rewrite Hc1 by done; by repeat constructor|].
       intros rest. rewrite He. cbn [app]. by rewrite Hm1. }
  assert (Hr1 : page_range_ok m1 a n).
  { unfold page_range_ok in *. by rewrite (re_page _ _ _ _ Hre1), <- (re_page _ _ _ _ Hre). }
  destruct (k_mprotect _ _ _ _) as [r k2] eqn:E2.
  pose proof (mprotect_refines _ _ _ _ _ _ _ _ _ Hre1 Ha Hr1 E2) as (c2 & m2 & Hre2 & Hc2 & Hm2).
  assert (Hs2 : host_serves -> Forall (eq HostOk) [c1; c2]).
  { intros Hs. rewrite Hc1, Hc2 by done. by repeat constructor. }
  destruct r as [u'|e].
  - exists [c1; c2], (set_page_states m2 (a / k_page) (n / k_page) 0).
    split; [by apply represents_states|]. split; [done|]. intros rest. rewrite He. cbn [app].
    rewrite Hm1. cbn [is_ok negb]. by rewrite Hm2.
  - exists [c1; c2], m2. split; [done|]. split; [done|]. intros rest. rewrite He. cbn [app].
    rewrite Hm1. cbn [is_ok negb]. by rewrite Hm2.
Qed.

Lemma unmap_refines k0 m o k a n :
  represents k0 m o k -> is_u32 a -> no_wrap n -> refined k0 m (OpUnmap a n) (HostMemory.unmap o a n k).
Proof.
  intros Hre Ha Hn. unfold HostMemory.unmap. destruct (negb (valid_page_range _ _ _)) eqn:Hv.
  { apply refused_refines; [done|]. intros calls. cbn [exec_op]. unfold MappedGuestMemory.unmap. by rewrite (same_range Hre), Hv. }
  cbv zeta. destruct (existsb _ _) eqn:Hx.
  { apply refused_refines; [done|]. intros calls. cbn [exec_op]. unfold MappedGuestMemory.unmap. rewrite (same_range Hre), Hv.
    cbv zeta. by rewrite (same_unmapped Hre), Hx. }
  unfold page_index. cbn [page_size_ members]. rewrite (re_object_page _ _ _ _ Hre).
  apply negb_false_iff in Hv. apply discard_refines; [done|done|by apply (range_ok Hre)|].
  intros calls. cbn [exec_op]. unfold MappedGuestMemory.unmap. rewrite (same_range Hre), Hv. cbn [negb]. cbv zeta.
  rewrite (same_unmapped Hre), Hx. unfold page_index. cbn [page_size_ set_calls]. by rewrite (re_page _ _ _ _ Hre).
Qed.

(** A store that the host does not trap: every byte is on a page it may write. *)
Definition survives (op : mem_op) (o : object) (k : K) : Prop :=
  match op with
  | OpWrite a bs =>
      valid_access (members o) a (Z.of_nat (length bs)) MemoryPermission.Write = true ->
      forall x, in_range a (Z.of_nat (length bs)) x ->
      exists p, k_prot k (host_address o x) = Some p /\ Z.land p PROT_WRITE <> 0
  | _ => True
  end.

Lemma access_end o a n q :
  is_u32 a -> 0 < n <= span_max -> valid_access (members o) a n q = true -> a + n <= kGuestAddressSpaceSize.
Proof.
  intros Ha Hn. unfold valid_access. rewrite (proj2 (Z.eqb_neq n 0)) by lia. cbv zeta.
  rewrite u64_small by (unfold span_max in *; word_lia). destruct (Z.ltb_spec kGuestAddressSpaceSize (a + n)); [done|lia].
Qed.

Lemma store_represents k0 m o k a bs :
  represents k0 m o k -> is_u32 a -> a + Z.of_nat (length bs) <= kGuestAddressSpaceSize ->
  (forall x, in_range a (Z.of_nat (length bs)) x ->
     exists p, k_prot k (host_address o x) = Some p /\ Z.land p PROT_WRITE <> 0) ->
  represents k0 (mk (reservation_ m) (page_size_ m) (page_state_ m) (poke a bs (host_bytes m)) (host_prot m) []) o
    (k_store (host_address o a) bs k).
Proof.
  intros [R1 R2 R3 R4 R5 R6 R7 R8] Ha Hend Hw. split; try done; cbn.
  - apply holding_store; [|done]. intros x. apply inside_reservation; [word_lia|lia].
  - intros x Hx. destruct (spec_store_other (host_address o a) bs k (host_address o x)) as [-> _]. by apply R7.
  - intros x Hx. rewrite cell_poke. destruct (decide (a <= x < a + Z.of_nat (length bs))) as [Hin|Hout].
    + destruct (lookup_lt_is_Some_2 bs (Z.to_nat (x - a))) as [b Hb]; [lia|]. rewrite Hb. cbn.
      replace (host_address o x) with (host_address o a + Z.of_nat (Z.to_nat (x - a))) by (unfold host_address; lia).
      apply spec_store; [|done]. intros y Hy. replace y with (host_address o (y - hm_reservation o)) by (unfold host_address; lia).
      apply Hw. unfold in_range, host_address in *. lia.
    + destruct (spec_store_other (host_address o a) bs k (host_address o x)) as [_ ->]; [by apply R8|].
      by rewrite host_range.
Qed.

Lemma write_refines k0 m o k a bs :
  represents k0 m o k -> op_args (OpWrite a bs) -> survives (OpWrite a bs) o k ->
  refined k0 m (OpWrite a bs) (HostMemory.write o a bs k).
Proof.
  intros Hre (Ha & Hbs & Hlen) Hsv. unfold HostMemory.write.
  destruct (valid_access (members o) a (Z.of_nat (length bs)) MemoryPermission.Write) eqn:Hv; cbn [negb].
  2: { apply refused_refines; [done|]. intros calls. cbn [exec_op]. unfold MappedGuestMemory.write. by rewrite (same_access Hre), Hv. }
  exists [], (mk (reservation_ m) (page_size_ m) (page_state_ m) (poke a bs (host_bytes m)) (host_prot m) []).
  split; [|split; [constructor|]].
  - destruct bs as [|b bs]; cbn [is_empty]; [by destruct Hre; split|].
    apply store_represents; [done|done|eapply access_end; [done| |done]|by apply Hsv].
    cbn [length] in *. lia.
  - intros rest. cbn [exec_op app]. unfold MappedGuestMemory.write. by rewrite (same_access Hre), Hv.
Qed.

Lemma exec_refines k0 m o k op :
  represents k0 m o k -> op_args op -> survives op o k -> refined k0 m op (exec op o k).
Proof.
  intros Hre Ha Hs. destruct op.
  - by apply map_refines; [|apply Ha..].
  - by apply protect_refines; [|apply Ha..].
  - by apply unmap_refines; [|apply Ha..].
  - by apply write_refines.
Qed.

Lemma construct_represents ps k0 o k :
  ps = k_page -> construct ps k0 = (Ok o, k) ->
  exists m, (forall calls, make ps (Some (hm_reservation o)) calls = Some (set_calls m calls)) /\ represents k0 m o k.
Proof.
  intros -> E. unfold construct in E. destruct (k_page <=? 0) eqn:H1; [done|].
  destruct (negb (_ =? 0)) eqn:H2; [done|]. cbv zeta in E.
  destruct (k_mmap _ _ _ _ _) as [[base|e] k'] eqn:Em; [|done]. injection E as <- <-.
  destruct spec_page as (_ & _ & Hd).
  pose proof Em as (Ha & Hpos & Hf & Hp & Hb)%spec_mmap_ok; [|done|done].
  exists (mk base k_page ∅ ∅ ∅ []). split; [intros calls; unfold make; cbn [hm_reservation]; by rewrite H1, H2|].
  split; cbn; try done.
  - by apply Hpos.
  - eapply mmap_holding; [done| |exact Em]. done.
  - intros a Hsp. rewrite Hp, decide_True, cell_empty; [done|]. unfold in_range, host_address in *. cbn [hm_reservation]. word_lia.
  - intros a Hsp. rewrite Hb, decide_True, cell_empty; [done|]. unfold in_range, host_address in *. cbn [hm_reservation]. word_lia.
Qed.

Lemma destroy_untouched k0 m o k : represents k0 m o k -> untouched k0 (destroy o k).
Proof.
  intros [R1 R2 R3 R4 R5 R6 R7 R8]. unfold destroy. rewrite (proj2 (Z.eqb_neq _ 0)) by lia.
  destruct (k_munmap _ _ _) as [r k'] eqn:E. cbn. destruct spec_page as (_ & _ & Hd).
  by eapply (holding_munmap _ _ k0 k); [exact Hd| |exact R6|exact E].
Qed.

(** ** Runs *)

(** The operations a client calls, with what they return, on a process that lives. *)
Inductive runs : object * K -> list (mem_op * bool) -> object * K -> Prop :=
| runs_nil s : runs s [] s
| runs_cons op b o k o1 k1 tr s :
    op_args op -> survives op o k -> exec op o k = (b, o1, k1) -> runs (o1, k1) tr s ->
    runs (o, k) ((op, b) :: tr) s.

(** The abstract memory gives the same answers. *)
Fixpoint answers (m : t) (tr : list (mem_op * bool)) : option t :=
  match tr with
  | [] => Some m
  | (op, b) :: tr' =>
      let '(b', m') := exec_op op m in if bool_decide (b = b') then answers m' tr' else None
  end.

Lemma runs_refine k0 m s tr s' :
  represents k0 m s.1 s.2 -> runs s tr s' ->
  exists calls m', represents k0 m' s'.1 s'.2 /\ (host_serves -> Forall (eq HostOk) calls) /\
    forall rest, answers (set_calls m (calls ++ rest)) tr = Some (set_calls m' rest).
Proof.
  intros Hre Hr. revert m Hre. induction Hr as [s|op b o k o1 k1 tr s Ha Hs E Hr IH]; intros m Hre.
  { exists [], m. split; [done|]. split; [constructor|done]. }
  cbn [fst snd] in Hre. pose proof (exec_refines _ _ _ _ _ Hre Ha Hs) as Hx. rewrite E in Hx.
  destruct Hx as (calls1 & m1 & Hre1 & Hok1 & Hm1). destruct (IH m1 Hre1) as (calls2 & m2 & Hre2 & Hok2 & Hm2).
  exists (calls1 ++ calls2), m2. split; [done|]. split; [intros Hh; apply Forall_app; auto|].
  intros rest. cbn [answers]. rewrite <- app_assoc, Hm1, bool_decide_true by done. apply Hm2.
Qed.

(** ** On a host that serves *)

(** Each host page has exactly the protection its guest state asks for, and reads
    return what the abstract memory holds. *)
Record transparent (m : t) (o : object) (k : K) : Prop := {
  tr_prot a : is_u32 a -> k_prot k (host_address o a) =
    Some (if is_mapped m a then host_protection (permissions m a) else PROT_NONE);
  tr_read a n : is_u32 a -> 0 < n <= span_max -> HostMemory.read o a n k = MappedGuestMemory.read m a n;
  tr_read_code a n : is_u32 a -> 0 < n <= span_max -> HostMemory.read_code o a n k = MappedGuestMemory.read_code m a n;
}.

Lemma coherent_prot k0 m o k a :
  represents k0 m o k -> host_coherent m -> is_u32 a ->
  k_prot k (host_address o a) = Some (if is_mapped m a then host_protection (permissions m a) else PROT_NONE).
Proof.
  intros Hre Hc Ha. rewrite (re_prot _ _ _ _ Hre a Ha), Hc. unfold is_mapped, permissions, page_index.
  rewrite (re_page _ _ _ _ Hre). by destruct (page_is_mapped _).
Qed.

(** A guest access of [n] bytes is granted byte by byte. *)
Lemma access_page_allows k0 m o k a n q x :
  represents k0 m o k -> is_u32 a -> 0 < n <= span_max -> valid_access (members o) a n q = true ->
  in_range a n x -> is_u32 x /\ page_allows m x q = true.
Proof.
  intros Hre Ha Hn Hv Hx. pose proof page_positive. rewrite <- (same_access Hre []) in Hv.
  rewrite valid_access_bytes in Hv by (cbn; rewrite ?(re_page _ _ _ _ Hre); done).
  rewrite forallb_forall in Hv. specialize (Hv x). rewrite <- list_elem_of_In, elem_of_seqZ in Hv.
  apply andb_prop in Hv as [Hs Hp]; [|unfold in_range in Hx; lia]. apply Z.ltb_lt in Hs.
  split; [unfold in_range in Hx; word_lia|done].
Qed.

Lemma allowed_protection k0 m o k x q :
  represents k0 m o k -> mapped_wf m -> host_coherent m -> is_u32 x -> page_allows m x q = true ->
  exists p, k_prot k (host_address o x) = Some p /\
    (q = MemoryPermission.Write -> Z.land p PROT_WRITE <> 0) /\
    (q = MemoryPermission.Read \/ q = MemoryPermission.Execute -> Z.land p PROT_READ <> 0).
Proof.
  intros Hre Hwf Hc Hx Hp. unfold page_allows in Hp. apply andb_prop in Hp as [Hm Hq].
  exists (host_protection (permissions m x)). split; [by rewrite (coherent_prot _ _ _ _ _ Hre Hc Hx), Hm|].
  pose proof (permissions_shape m x Hwf) as Hsh. revert Hq. unfold perm_shape in Hsh.
  destruct Hsh as [-> | [-> | [-> | [-> | ->]]]]; intros Hq; split; (intros [-> | ->] || intros ->); by vm_compute in Hq |- *.
Qed.

Lemma coherent_survives k0 m o k op :
  represents k0 m o k -> mapped_wf m -> host_coherent m -> op_args op -> survives op o k.
Proof.
  intros Hre Hwf Hc Ha. destruct op as [| | |a bs]; [done..|]. intros Hv x Hx. destruct Ha as (Ha & _ & Hlen).
  destruct (access_page_allows k0 m o k a (Z.of_nat (length bs)) MemoryPermission.Write x) as [Hu Hp];
    [done|done|unfold in_range in Hx; lia|done|done|].
  destruct (allowed_protection _ _ _ _ _ _ Hre Hwf Hc Hu Hp) as (p & ? & Hw & _). exists p. auto.
Qed.

Lemma coherent_copy k0 m o k a n q :
  represents k0 m o k -> mapped_wf m -> host_coherent m -> is_u32 a -> 0 < n <= span_max ->
  q = MemoryPermission.Read \/ q = MemoryPermission.Execute ->
  valid_access (members o) a n q = true -> copy_out o a n k = host_copy m a n.
Proof.
  intros Hre Hwf Hc Ha Hn Hq Hv. unfold copy_out, host_copy. apply list_fmap_ext. intros i x Hi.
  apply list_elem_of_lookup_2, elem_of_seqZ in Hi.
  destruct (access_page_allows k0 m o k a n q x) as [Hu Hp]; [done|done|done|done|unfold in_range; lia|].
  destruct (allowed_protection _ _ _ _ _ _ Hre Hwf Hc Hu Hp) as (p & Hkp & _ & Hr).
  rewrite (spec_load _ _ _ Hkp (Hr Hq)). by apply (re_byte _ _ _ _ Hre).
Qed.

Lemma coherent_transparent k0 m o k :
  represents k0 m o k -> mapped_wf m -> host_coherent m -> transparent m o k.
Proof.
  intros Hre Hwf Hc. assert (Hsame : forall a n q, valid_access m a n q = valid_access (members o) a n q).
  { intros a n q. apply (same_access Hre (host_calls m)). }
  split.
  - intros a Ha. by eapply coherent_prot.
  - intros a n Ha Hn. unfold HostMemory.read, MappedGuestMemory.read. rewrite Hsame.
    destruct (valid_access _ _ _ _) eqn:Hv; [|done]. cbn. f_equal. eapply coherent_copy; [done..| |exact Hv]. auto.
  - intros a n Ha Hn. unfold HostMemory.read_code, MappedGuestMemory.read_code. rewrite Hsame.
    destruct (valid_access _ _ _ _) eqn:Hv; [|done]. cbn. f_equal. eapply coherent_copy; [done..| |exact Hv]. auto.
Qed.

Lemma set_calls_wf m calls : mapped_wf m -> mapped_wf (set_calls m calls).
Proof. by intros []. Qed.

(** A serving host: every sequence of operations can be carried out. *)
Lemma served_runs k0 m o k ops :
  represents k0 m o k -> mapped_wf m -> host_coherent m -> host_serves -> Forall op_args ops ->
  exists tr o' k', tr.*1 = ops /\ runs (o, k) tr (o', k').
Proof.
  intros Hre Hwf Hc Hs Hops. revert m o k Hre Hwf Hc.
  induction Hops as [|op ops Ha Hops IH]; intros m o k Hre Hwf Hc.
  { exists [], o, k. split; [done|constructor]. }
  pose proof (coherent_survives _ _ _ _ _ Hre Hwf Hc Ha) as Hsv.
  pose proof (exec_refines _ _ _ _ _ Hre Ha Hsv) as Hx. destruct (exec op o k) as [[b o1] k1] eqn:E.
  destruct Hx as (calls & m1 & Hre1 & Hok & Hm). specialize (Hm []). rewrite app_nil_r in Hm.
  pose proof (exec_op_wf op (set_calls m calls) (set_calls_wf _ _ Hwf) Ha) as Hwf1.
  pose proof (exec_op_coherent op (set_calls m calls) (set_calls_wf _ _ Hwf) Ha Hc (Hok Hs)) as [Hc1 _].
  rewrite Hm in Hwf1, Hc1. cbn [snd] in Hwf1, Hc1.
  destruct (IH m1 o1 k1) as (tr & o' & k' & <- & Hr); [done|by destruct Hwf1|done|].
  exists ((op, b) :: tr), o', k'. split; [done|]. by eapply runs_cons.
Qed.

Lemma answers_good m tr m' :
  answers m tr = Some m' -> Forall (fun x => op_args x.1) tr -> mapped_wf m -> host_coherent m -> host_reliable m ->
  mapped_wf m' /\ host_coherent m'.
Proof.
  revert m. induction tr as [|[op b] tr IH]; intros m Ha Hops Hwf Hc Hr; cbn in Ha; [by simplify_eq|].
  apply Forall_cons in Hops as [Hop Hops]. cbn in Hop.
  pose proof (exec_op_wf op m Hwf Hop) as Hwf1. pose proof (exec_op_coherent op m Hwf Hop Hc Hr) as [Hc1 Hr1].
  destruct (exec_op op m) as [b' m1]. case_bool_decide; [|done]. by apply (IH m1).
Qed.

Lemma runs_args s tr s' : runs s tr s' -> Forall (fun x => op_args x.1) tr.
Proof. induction 1; by constructor. Qed.

(** C13: [MappedGuestMemory] on the host kernel implements the abstract guest memory the
    rest of the development uses, for operations with lengths below 2^64 - 2^32 (those
    that cannot wrap in [valid_page_range]). Every such run of an object from its
    constructor on gives the answers of the abstract memory for some outcomes of the
    host calls, and ends in a state with the same page table, contents and protections.
    Destroying it leaves every mapping that existed before the construction as it was,
    and leaves no other behind provided the host's munmap of mapped pages succeeds. If
    the host serves [mprotect] and [madvise] on mapped pages, those outcomes are all
    successes, every sequence of such operations can be carried out without a trapped
    store, every host page has the protection of its guest page, and reads return the
    abstract contents. *)
Theorem host_memory_refines ps k0 o k1 :
  ps = k_page -> construct ps k0 = (Ok o, k1) ->
  (forall tr o' k2, runs (o, k1) tr (o', k2) ->
     untouched k0 (destroy o' k2) /\
     exists calls m0 m', make ps (Some (hm_reservation o)) calls = Some m0 /\ answers m0 tr = Some m' /\
       represents k0 m' o' k2 /\
       (host_serves -> Forall (eq HostOk) calls /\ transparent m' o' k2)) /\
  (host_serves -> forall ops, Forall op_args ops ->
     exists tr o' k2, tr.*1 = ops /\ runs (o, k1) tr (o', k2)).
Proof.
  intros Hps E. destruct (construct_represents ps k0 o k1 Hps E) as (m & Hmake & Hre).
  assert (Hstart : forall calls, mapped_wf (set_calls m calls) /\ host_coherent (set_calls m calls)).
  { intros calls. split; [by eapply mapped_make_wf|by eapply make_coherent]. }
  split.
  - intros tr o' k2 Hr. destruct (runs_refine k0 m (o, k1) tr (o', k2) Hre Hr) as (calls & m' & Hre' & Hok & Hans).
    cbn in Hre'. split; [by eapply destroy_untouched|]. specialize (Hans []). rewrite app_nil_r in Hans.
    assert (Hre2 : represents k0 (set_calls m' []) o' k2) by (by destruct Hre').
    exists calls, (set_calls m calls), (set_calls m' []). split; [done|]. split; [done|]. split; [done|].
    intros Hs. split; [by apply Hok|]. destruct (Hstart calls) as [Hwf Hc].
    destruct (answers_good _ _ _ Hans (runs_args _ _ _ Hr) Hwf Hc (Hok Hs)) as [Hwf' Hc'].
    by eapply coherent_transparent.
  - intros Hs ops Hops. destruct (Hstart []) as [Hwf Hc].
    eapply (served_runs k0 (set_calls m [])); [by destruct Hre|done..].
Qed.
End refinement.

(** ** On the small kernel *)
#[local] Existing Instance Toy.toy_kernel.
#[local] Existing Instance Toy.toy_spec.

Lemma toy_serves : @host_serves (Toy.kernel_state true) _ _.
Proof.
  intros a len k Ha Hl Hpos Hm. cbn. unfold Toy.mprotect, Toy.madvise. rewrite Toy.page_aligned by done.
  cbn [negb andb]. rewrite (proj2 (Toy.all_mapped_spec k a len Ha Hl) Hm). done.
Qed.

(** Map two pages, fill, seal and unmap one; the object goes away without a trace. *)
Lemma host_memory_refines_witness :
  exists o k1 tr o' k2,
    construct Toy.P (Toy.empty true) = (Ok o, k1) /\ runs (o, k1) tr (o', k2) /\
    tr.*1 = [OpMap Toy.P (2 * Toy.P) 3; OpWrite Toy.P [1; 2]; OpProtect Toy.P Toy.P 1; OpUnmap (2 * Toy.P) Toy.P] /\
    (exists m', transparent m' o' k2) /\ untouched (Toy.empty true) (destroy o' k2).
Proof.
  eexists _, _. edestruct (host_memory_refines Toy.P (Toy.empty true)) as [Hruns Hserve]; [done|reflexivity|].
  destruct (Hserve toy_serves
    [OpMap Toy.P (2 * Toy.P) 3; OpWrite Toy.P [1; 2]; OpProtect Toy.P Toy.P 1; OpUnmap (2 * Toy.P) Toy.P])
    as (tr & o' & k2 & Htr & Hr); [by repeat constructor|].
  destruct (Hruns tr o' k2 Hr) as (Hu & calls & m0 & m' & _ & _ & _ & Hx). destruct (Hx toy_serves) as [_ Ht].
  exists tr, o', k2. split; [reflexivity|]. split; [exact Hr|]. split; [exact Htr|]. split; [by exists m'|exact Hu].
Defined.
