(* ===== verification/VaAllocator.v ===== *)
(** * Guest virtual-address search ([src/src/memory/guest_va_allocator.{h,cpp}])

    The deterministic first-fit search for a free, aligned, page-granular guest
    range inside a caller window. *)

From S2P Require Import Prelude Bytes GuestMemory MappedMemory.

Import MappedGuestMemory.

Module GuestVaSearchError.
Inductive t : Set :=
| None | InvalidRange | InvalidAlignment | SizeOverflow | NoSpace.

Definition to_string (error : t) : string :=
  match error with
  | None => "none"
  | InvalidRange => "invalid_range"
  | InvalidAlignment => "invalid_alignment"
  | SizeOverflow => "size_overflow"
  | NoSpace => "no_space"
  end.
End GuestVaSearchError.

Record GuestVaSearchOptions := {
  begin_ : Z;
  end_exclusive : Z;
  alignment : Z;
  alignment_offset : Z;
}.

(** One iteration of the candidate loop, including its condition. *)
Definition search_step (m : t) (len : Z) (options : GuestVaSearchOptions) (candidate : Z)
    : Z + result GuestVaSearchError.t Z :=
  if negb (candidate <? end_exclusive options) then inr (Err GuestVaSearchError.NoSpace)
  else if (kGuestAddressSpaceSize - len <? candidate)
       || (end_exclusive options - candidate <? len)
  then inr (Err GuestVaSearchError.NoSpace)
  else
    let candidate_end := candidate + len in
    let free :=
      negb (existsb (fun page => is_mapped m (u32 page))
                    (strided candidate candidate_end (page_size m))) in
    if free then inr (Ok (u32 candidate))
    else if kGuestAddressSpaceSize - candidate <? alignment options
    then inr (Err GuestVaSearchError.NoSpace)
    else inl (candidate + alignment options).

(** The first candidate: the least address from [begin] on that is congruent to
    the alignment offset. *)
Definition search_delta (options : GuestVaSearchOptions) (offset : Z) : Z :=
  let begin_remainder := begin_ options mod alignment options in
  if begin_remainder <=? offset then offset - begin_remainder
  else alignment options - (begin_remainder - offset).

(** At most 2^32 candidates exist, one per page at the finest alignment. *)
Definition search_fuel : positive := 2 ^ 33.

Definition find_free_guest_range (m : t) (len : Z) (options : GuestVaSearchOptions)
    : result GuestVaSearchError.t Z :=
  if (len =? 0) || negb (len mod page_size m =? 0)
     || (kGuestAddressSpaceSize <? end_exclusive options)
     || (end_exclusive options <=? begin_ options)
  then Err GuestVaSearchError.InvalidRange
  else if kGuestAddressSpaceSize <? len then Err GuestVaSearchError.SizeOverflow
  else if (alignment options =? 0) || (kGuestAddressSpaceSize <? alignment options)
          || negb (alignment options mod page_size m =? 0)
  then Err GuestVaSearchError.InvalidAlignment
  else
    let offset := alignment_offset options mod alignment options in
    if negb (offset mod page_size m =? 0) then Err GuestVaSearchError.InvalidAlignment
    else
      let delta := search_delta options offset in
      if kGuestAddressSpaceSize - begin_ options <? delta
      then Err GuestVaSearchError.NoSpace
      else
        match loop search_fuel (search_step m len options) (begin_ options + delta) with
        | inr r => r
        | inl _ => Err GuestVaSearchError.NoSpace
        end.

(** ** Specification *)

(** Arguments the search accepts. *)
Record search_args (m : t) (len : Z) (o : GuestVaSearchOptions) : Prop := {
  sa_len : 0 < len <= kGuestAddressSpaceSize;
  sa_len_page : len mod page_size m = 0;
  sa_window : 0 <= begin_ o < end_exclusive o;
  sa_end : end_exclusive o <= kGuestAddressSpaceSize;
  sa_align : 0 < alignment o <= kGuestAddressSpaceSize;
  sa_align_page : alignment o mod page_size m = 0;
  sa_offset_page : (alignment_offset o mod alignment o) mod page_size m = 0;
}.

(** A placement the options allow ... *)
Definition va_candidate (o : GuestVaSearchOptions) (len c : Z) : Prop :=
  begin_ o <= c /\ c mod alignment o = alignment_offset o mod alignment o /\
  c + len <= end_exclusive o.

(** ... that no existing mapping touches. *)
Definition va_free (m : t) (c len : Z) : Prop :=
  forall x, c <= x < c + len -> is_mapped m x = false.

Lemma search_delta_spec o r :
  0 < alignment o -> 0 <= begin_ o -> 0 <= r < alignment o ->
  0 <= search_delta o r < alignment o /\ (begin_ o + search_delta o r) mod alignment o = r.
Proof.
  intros Ha Hb Hr. unfold search_delta.
  pose proof (Z.div_mod (begin_ o) (alignment o) ltac:(lia)) as Hdm.
  pose proof (Z.mod_pos_bound (begin_ o) (alignment o) ltac:(lia)) as Hmb.
  set (b := begin_ o) in *. set (al := alignment o) in *.
  destruct (b mod al <=? r) eqn:E; bool_prop.
  - split; [lia|]. symmetry. apply (Z.mod_unique_pos _ _ (b / al)); lia.
  - split; [lia|]. symmetry. apply (Z.mod_unique_pos _ _ (b / al + 1)); lia.
Qed.

Lemma cong_gap al c x : 0 < al -> c mod al = x mod al -> c < x -> c + al <= x.
Proof.
  intros Hal Hcx Hlt.
  pose proof (Z.div_mod c al ltac:(lia)). pose proof (Z.div_mod x al ltac:(lia)).
  assert (c / al < x / al) by nia. nia.
Qed.

Section search.
Context (m : t) (len : Z) (o : GuestVaSearchOptions).
Hypothesis (Hwf : mapped_wf m) (Hargs : search_args m len o).

Lemma candidate_aligned c :
  c mod alignment o = alignment_offset o mod alignment o -> c mod page_size_ m = 0.
Proof.
  intros Hc. destruct Hargs as [_ _ _ _ Hal Halp Hop]. unfold page_size in *.
  pose proof (mw_page_pos m Hwf) as Hps.
  apply Z.mod_divide; [lia|]. rewrite (Z.div_mod c (alignment o)) by lia.
  apply Z.divide_add_r.
  - apply Z.divide_mul_l. apply Z.mod_divide; lia.
  - rewrite Hc. apply Z.mod_divide; lia.
Qed.

(** The page loop decides whether the candidate range is free. *)
Lemma free_loop c :
  0 <= c -> c mod page_size_ m = 0 -> c + len <= kGuestAddressSpaceSize ->
  existsb (fun page => is_mapped m (u32 page)) (strided c (c + len) (page_size m)) = false
  <-> va_free m c len.
Proof.
  intros Hc0 Hc Hfit. pose proof (mw_page_pos m Hwf) as Hps. unfold page_size, va_free.
  rewrite <- not_true_iff_false, existsb_elem. setoid_rewrite elem_of_strided; [|done].
  assert (Ec : c = page_size_ m * (c / page_size_ m)) by (apply Z_div_exact_full_2; lia).
  split.
  - intros Hno x Hx. apply not_true_iff_false. intros Hm. apply Hno.
    pose proof (Z.div_mod x (page_size_ m) ltac:(lia)) as Hxd.
    pose proof (Z.mod_pos_bound x (page_size_ m) Hps) as Hxm.
    assert (0 <= x / page_size_ m) by (apply Z.div_pos; lia).
    exists (page_size_ m * (x / page_size_ m)). split.
    + exists (x / page_size_ m - c / page_size_ m). split_and!; nia.
    + rewrite u32_small by (split; [nia|word_lia]). unfold is_mapped, page_index in *.
      by rewrite Z.mul_comm, Z.div_mul by lia.
  - intros Hfree (x & (i & Hi & -> & Hlt) & Hm).
    rewrite u32_small in Hm by (split; [nia|word_lia]).
    rewrite Hfree in Hm; [done|nia].
Qed.

(** What the loop's answers mean, given that no candidate below [c] is free. *)
Definition search_post (r : result GuestVaSearchError.t Z) : Prop :=
  match r with
  | Ok a => va_candidate o len a /\ va_free m a len /\
            forall c, va_candidate o len c -> c < a -> ~ va_free m c len
  | Err e => e = GuestVaSearchError.NoSpace /\
             forall c, va_candidate o len c -> ~ va_free m c len
  end.

Definition search_inv (c : Z) : Prop :=
  begin_ o <= c <= kGuestAddressSpaceSize /\
  c mod alignment o = alignment_offset o mod alignment o /\
  forall c', va_candidate o len c' -> c' < c -> ~ va_free m c' len.

Lemma search_step_ok c :
  search_inv c ->
  match search_step m len o c with
  | inl c' => search_inv c' /\ 0 <= kGuestAddressSpaceSize - c' < kGuestAddressSpaceSize - c
  | inr r => search_post r
  end.
Proof.
  intros (Hc & Hcong & Hprev). pose proof Hargs as [Hl Hlp Hw He Ha Hap Hop].
  unfold search_step.
  destruct (negb (c <? end_exclusive o)) eqn:E1; bool_prop.
  { split; [done|]. intros c' Hc'. apply Hprev; [done|]. destruct Hc' as (_ & _ & ?). lia. }
  destruct (_ || _) eqn:E2.
  { split; [done|]. intros c' Hc'. apply Hprev; [done|]. destruct Hc' as (Hb' & Hm' & Hf').
    apply orb_true_iff in E2. rewrite !Z.ltb_lt in E2. lia. }
  apply orb_false_iff in E2 as [E2 E3]. rewrite Z.ltb_ge in E2, E3.
  pose proof (free_loop c ltac:(lia) (candidate_aligned c Hcong) ltac:(lia)) as Hfree.
  destruct (existsb _ _) eqn:E4; cbn.
  - assert (Hnf : ~ va_free m c len) by (intros Hf; by apply Hfree in Hf).
    assert (Hnext : forall c', va_candidate o len c' -> c' < c + alignment o -> ~ va_free m c' len).
    { intros c' Hc' Hlt. destruct (decide (c' < c)) as [|Hge]; [by apply Hprev|].
      destruct (decide (c' = c)) as [->|]; [done|]. destruct Hc' as (_ & Hm' & _).
      pose proof (cong_gap (alignment o) c c' ltac:(lia) ltac:(congruence) ltac:(lia)). lia. }
    destruct (kGuestAddressSpaceSize - c <? alignment o) eqn:E5; bool_prop.
    + split; [done|]. intros c' Hc'. apply Hnext; [done|]. destruct Hc' as (_ & _ & ?). lia.
    + split; [|lia]. split; [lia|]. split; [|done].
      rewrite <- Hcong. rewrite <- (Z.mul_1_l (alignment o)) at 1. apply Z_mod_plus_full.
  - rewrite u32_small by (split; [lia|word_lia]).
    split; [split_and!; [lia|done|lia]|]. split; [by apply Hfree|].
    intros c' Hc' Hlt. by apply Hprev.
Qed.

Lemma find_free_correct : search_post (find_free_guest_range m len o).
Proof.
  pose proof Hargs as [Hl Hlp Hw He Ha Hap Hop]. unfold find_free_guest_range.
  rewrite Hlp, Hap, Hop. cbn.
  rewrite (proj2 (Z.eqb_neq len 0)), (proj2 (Z.eqb_neq (alignment o) 0)) by lia.
  rewrite !(proj2 (Z.ltb_ge _ _)), (proj2 (Z.leb_gt _ _)) by lia. cbn.
  destruct (search_delta_spec o (alignment_offset o mod alignment o)) as [Hd Hc0];
    [lia|lia|apply Z.mod_pos_bound; lia|].
  set (delta := search_delta _ _) in *.
  assert (Hleast : forall c, va_candidate o len c -> begin_ o + delta <= c).
  { intros c (Hb & Hm & _). destruct (decide (begin_ o + delta <= c)); [done|].
    pose proof (cong_gap (alignment o) c (begin_ o + delta) ltac:(lia) ltac:(congruence) ltac:(lia)).
    lia. }
  destruct (kGuestAddressSpaceSize - begin_ o <? delta) eqn:E; bool_prop.
  { split; [done|]. intros c Hc. pose proof (Hleast c Hc). destruct Hc as (_ & _ & ?). lia. }
  destruct (loop_rule search_inv search_post (fun c => kGuestAddressSpaceSize - c)
              search_fuel (search_step m len o) (begin_ o + delta)) as (r & -> & Hr).
  - exact search_step_ok.
  - split; [lia|]. split; [done|]. intros c Hc Hlt. pose proof (Hleast c Hc). lia.
  - unfold search_fuel. word_lia.
  - done.
Qed.
End search.

(** Field ranges of the C++ types. *)
Definition search_typed (len : Z) (o : GuestVaSearchOptions) : Prop :=
  is_u64 len /\ is_u32 (begin_ o) /\ is_u64 (end_exclusive o) /\
  is_u64 (alignment o) /\ is_u64 (alignment_offset o).

(** Every outcome but an argument error implies admissible arguments. *)
Lemma find_free_args m len o :
  mapped_wf m -> search_typed len o ->
  match find_free_guest_range m len o with
  | Ok _ | Err GuestVaSearchError.NoSpace => search_args m len o
  | Err _ => True
  end.
Proof.
  intros Hwf (Hl & Hb & He & Ha & Ho).
  destruct (find_free_guest_range m len o) as [a|e] eqn:Hf; [|destruct e; try exact I];
    unfold find_free_guest_range in Hf;
    (case_head Hf E1; [done|]); (case_head Hf E2; [done|]);
    (case_head Hf E3; [done|]); (case_head Hf E4; [done|]); bool_prop;
    split; try done; word_lia.
Qed.

(** C22: [find_free_guest_range] is exactly first-fit. On success the arguments
    were admissible and the address is the least one in the window that has the
    requested congruence and whose whole range is unmapped; [NoSpace] means the
    arguments were admissible and no such address exists; any other error means
    the arguments were not admissible. The search always terminates. *)
Theorem find_free_guest_range_first_fit m len o :
  mapped_wf m -> search_typed len o ->
  match find_free_guest_range m len o with
  | Ok a => search_args m len o /\ va_candidate o len a /\ va_free m a len /\
            (forall c, va_candidate o len c -> c < a -> ~ va_free m c len)
  | Err GuestVaSearchError.NoSpace =>
      search_args m len o /\ forall c, va_candidate o len c -> ~ va_free m c len
  | Err _ => ~ search_args m len o
  end.
Proof.
  intros Hwf Ht. pose proof (find_free_args m len o Hwf Ht) as Hargs.
  assert (Hpost : search_args m len o -> search_post m len o (find_free_guest_range m len o))
    by (intros; by apply find_free_correct).
  destruct (find_free_guest_range m len o) as [a|[]] eqn:E; cbn in Hpost; try tauto;
    by intros ?%Hpost; naive_solver.
Qed.

(** Witness: 0x1000..0x2fff is mapped, so a one-page 8 KiB-aligned range
    starting the search at 0x1000 is found at 0x4000. *)
Lemma find_free_guest_range_first_fit_witness :
  let o := Build_GuestVaSearchOptions 4096 kGuestAddressSpaceSize 8192 0 in
  find_free_guest_range demo_memory 4096 o = Ok 16384 /\
  (search_args demo_memory 4096 o /\ va_candidate o 4096 16384 /\ va_free demo_memory 16384 4096 /\
   (forall c, va_candidate o 4096 c -> c < 16384 -> ~ va_free demo_memory c 4096)).
Proof.
  intros o. assert (E : find_free_guest_range demo_memory 4096 o = Ok 16384) by (vm_compute; reflexivity).
  split; [exact E|].
  pose proof (find_free_guest_range_first_fit demo_memory 4096 o demo_memory_wf) as H.
  rewrite E in H. apply H. vm_compute. intuition congruence.
Defined.
