(* ===== verification/LoadPlan.v ===== *)
(** * ELF32 load planning ([src/src/elf/elf32_load_{error,types,plan}.h],
      [src/src/elf/loading/elf32_load_plan.cpp])

    [plan_elf32_load] reads an untrusted image and either rejects it with one
    [Elf32LoadError] or returns a plan. The function is split at its own
    comment-free paragraphs: identification, header fields, one step per
    program header, and the three whole-plan checks. *)

From S2P Require Import Prelude Bytes GuestMemory MappedMemory.
From stdpp Require Import sorting.

#[local] Open Scope Z_scope.

Module Elf32LoadError.
Inductive t : Set :=
| None
| TruncatedHeader
| BadMagic
| UnsupportedClass
| UnsupportedEndian
| UnsupportedIdentVersion
| UnsupportedElfVersion
| UnsupportedType
| UnsupportedMachine
| InvalidHeaderSize
| InvalidProgramHeaderSize
| ProgramHeaderTableOutOfBounds
| NoLoadSegments
| SegmentFileszExceedsMemsz
| SegmentFileOutOfBounds
| SegmentAddressOverflow
| SegmentAlignmentInvalid
| UnsupportedSegmentPermissions
| DynamicBaseRequired
| DynamicBaseUnaligned
| LoadBiasOverflow
| EntryAddressOverflow
| MultipleDynamicSegments
| DynamicSegmentEmpty
| DynamicSegmentFileszExceedsMemsz
| DynamicSegmentFileOutOfBounds
| DynamicSegmentAddressOverflow
| DynamicSegmentOutsideLoad
| DynamicSegmentNotReadable
| DynamicSegmentFileMappingMismatch
| RelroSegmentEmpty
| RelroSegmentAddressOverflow
| RelroSegmentOutsideLoad
| RelroSegmentNotReadable
| SegmentPageOverlap
| AddressConflict
| MapFailed
| WriteFailed
| ProtectFailed.
End Elf32LoadError.

(** ** Plan data ([elf32_load_plan.h]) *)
Inductive Elf32ImageType : Set := Executable | Dynamic.

Record Elf32LoadPlanSegment := {
  seg_offset : Z;
  seg_virtual_address : Z;
  seg_file_size : Z;
  seg_memory_size : Z;
  seg_alignment : Z;
  seg_permissions : Z;
  seg_mapping_start : Z;
  seg_mapping_end : Z;
}.

Record Elf32LoadPlanDynamicSegment := {
  dyn_offset : Z;
  dyn_virtual_address : Z;
  dyn_file_size : Z;
  dyn_memory_size : Z;
}.

Record Elf32LoadPlanRelroSegment := {
  relro_virtual_address : Z;
  relro_memory_size : Z;
  relro_mapping_start : Z;
  relro_mapping_end : Z;
}.

Record Elf32LoadPlan := {
  plan_type : Elf32ImageType;
  plan_entry : Z;
  plan_minimum_page : Z;
  plan_maximum_page_end : Z;
  plan_required_load_bias_alignment : Z;
  plan_segments : list Elf32LoadPlanSegment;
  plan_dynamic_segment : option Elf32LoadPlanDynamicSegment;
  plan_relro_segments : list Elf32LoadPlanRelroSegment;
}.

(** ** Constants and helpers of [elf32_load_plan.cpp] *)
Definition kElf32HeaderSize : Z := 52.
Definition kElf32ProgramHeaderSize : Z := 32.
Definition kElfClass32 : Z := 1.
Definition kElfDataLittleEndian : Z := 1.
Definition kElfVersionCurrent : Z := 1.
Definition kElfTypeExec : Z := 2.
Definition kElfTypeDyn : Z := 3.
Definition kElfMachineArm : Z := 40.
Definition kProgramTypeLoad : Z := 1.
Definition kProgramTypeDynamic : Z := 2.
Definition kProgramTypeGnuRelro : Z := 0x6474e552.
Definition kFlagExecute : Z := Z.shiftl 1 0.
Definition kFlagWrite : Z := Z.shiftl 1 1.
Definition kFlagRead : Z := Z.shiftl 1 2.

Definition align_down (value alignment : Z) : Z := value - value mod alignment.

Definition align_up (value alignment : Z) : option Z :=
  let remainder := value mod alignment in
  if remainder =? 0 then
    if value <=? kGuestAddressSpaceSize then Some value else None
  else
    let increment := alignment - remainder in
    if kGuestAddressSpaceSize - increment <? value then None
    else Some (value + increment).

Definition is_power_of_two (value : Z) : bool :=
  negb (value =? 0) && (Z.land value (u32 (value - 1)) =? 0).

(** [decode_permissions] of the planner, on [p_flags]. *)
Definition decode_segment_permissions (flags : Z) : option Z :=
  let read := negb (Z.land flags kFlagRead =? 0) in
  let write := negb (Z.land flags kFlagWrite =? 0) in
  let execute := negb (Z.land flags kFlagExecute =? 0) in
  if (negb read && (write || execute)) || (write && execute) then None
  else
    let p := MemoryPermission.None in
    let p := if read then perm_or p MemoryPermission.Read else p in
    let p := if write then perm_or p MemoryPermission.Write else p in
    Some (if execute then perm_or p MemoryPermission.Execute else p).

Definition plan_result := result Elf32LoadError.t.

Definition image_size (image : list Z) : Z := Z.of_nat (length image).

(** ** Identification and header *)
Definition check_ident (image : list Z) : plan_result unit :=
  fail_if (image_size image <? kElf32HeaderSize) Elf32LoadError.TruncatedHeader ;;
  fail_if (negb (byte_at image 0 =? 0x7f) || negb (byte_at image 1 =? 69)
           || negb (byte_at image 2 =? 76) || negb (byte_at image 3 =? 70))
    Elf32LoadError.BadMagic ;;
  fail_if (negb (byte_at image 4 =? kElfClass32)) Elf32LoadError.UnsupportedClass ;;
  fail_if (negb (byte_at image 5 =? kElfDataLittleEndian)) Elf32LoadError.UnsupportedEndian ;;
  fail_if (negb (byte_at image 6 =? kElfVersionCurrent)) Elf32LoadError.UnsupportedIdentVersion.

(** The header locals later paragraphs use. *)
Record elf32_header := {
  h_type : Z;
  h_entry : Z;
  h_program_header_offset : Z;
  h_program_header_count : Z;
}.

Definition check_header (image : list Z) : plan_result elf32_header :=
  let type := decode_u16_le image 16 in
  let machine := decode_u16_le image 18 in
  let version := decode_u32_le image 20 in
  let entry := decode_u32_le image 24 in
  let program_header_offset := decode_u32_le image 28 in
  let header_size := decode_u16_le image 40 in
  let program_header_entry_size := decode_u16_le image 42 in
  let program_header_count := decode_u16_le image 44 in
  fail_if (negb (version =? kElfVersionCurrent)) Elf32LoadError.UnsupportedElfVersion ;;
  fail_if (negb (type =? kElfTypeDyn) && negb (type =? kElfTypeExec))
    Elf32LoadError.UnsupportedType ;;
  fail_if (negb (machine =? kElfMachineArm)) Elf32LoadError.UnsupportedMachine ;;
  fail_if (negb (header_size =? kElf32HeaderSize)) Elf32LoadError.InvalidHeaderSize ;;
  fail_if (negb (program_header_entry_size =? kElf32ProgramHeaderSize))
    Elf32LoadError.InvalidProgramHeaderSize ;;
  let program_header_bytes := u64 (program_header_entry_size * program_header_count) in
  let program_header_end := u64 (program_header_offset + program_header_bytes) in
  fail_if (image_size image <? program_header_end)
    Elf32LoadError.ProgramHeaderTableOutOfBounds ;;
  Ok (Build_elf32_header type entry program_header_offset program_header_count).

Definition initial_plan (h : elf32_header) : Elf32LoadPlan := {|
  plan_type := if h_type h =? kElfTypeDyn then Dynamic else Executable;
  plan_entry := h_entry h;
  plan_minimum_page := kGuestAddressSpaceSize;
  plan_maximum_page_end := 0;
  plan_required_load_bias_alignment := 1;
  plan_segments := [];
  plan_dynamic_segment := None;
  plan_relro_segments := [];
|}.

(** ** Program headers *)
Definition plan_dynamic_header (image : list Z) (offset : Z) (plan : Elf32LoadPlan)
    : plan_result Elf32LoadPlan :=
  fail_if (bool_decide (is_Some (plan_dynamic_segment plan)))
    Elf32LoadError.MultipleDynamicSegments ;;
  let dynamic := {|
    dyn_offset := decode_u32_le image (offset + 4);
    dyn_virtual_address := decode_u32_le image (offset + 8);
    dyn_file_size := decode_u32_le image (offset + 16);
    dyn_memory_size := decode_u32_le image (offset + 20) |} in
  fail_if (dyn_memory_size dynamic =? 0) Elf32LoadError.DynamicSegmentEmpty ;;
  fail_if (dyn_memory_size dynamic <? dyn_file_size dynamic)
    Elf32LoadError.DynamicSegmentFileszExceedsMemsz ;;
  fail_if (image_size image <? u64 (dyn_offset dynamic + dyn_file_size dynamic))
    Elf32LoadError.DynamicSegmentFileOutOfBounds ;;
  fail_if (kGuestAddressSpaceSize <?
             u64 (dyn_virtual_address dynamic + dyn_memory_size dynamic))
    Elf32LoadError.DynamicSegmentAddressOverflow ;;
  Ok {| plan_type := plan_type plan;
        plan_entry := plan_entry plan;
        plan_minimum_page := plan_minimum_page plan;
        plan_maximum_page_end := plan_maximum_page_end plan;
        plan_required_load_bias_alignment := plan_required_load_bias_alignment plan;
        plan_segments := plan_segments plan;
        plan_dynamic_segment := Some dynamic;
        plan_relro_segments := plan_relro_segments plan |}.

Definition plan_relro_header (page_size : Z) (image : list Z) (offset : Z)
    (plan : Elf32LoadPlan) : plan_result Elf32LoadPlan :=
  let virtual_address := decode_u32_le image (offset + 8) in
  let memory_size := decode_u32_le image (offset + 20) in
  fail_if (memory_size =? 0) Elf32LoadError.RelroSegmentEmpty ;;
  let relro_end := u64 (virtual_address + memory_size) in
  fail_if (kGuestAddressSpaceSize <? relro_end) Elf32LoadError.RelroSegmentAddressOverflow ;;
  let mapping_start := u32 (align_down virtual_address page_size) in
  mapping_end ← or_fail (align_up relro_end page_size)
                  Elf32LoadError.RelroSegmentAddressOverflow;
  Ok {| plan_type := plan_type plan;
        plan_entry := plan_entry plan;
        plan_minimum_page := plan_minimum_page plan;
        plan_maximum_page_end := plan_maximum_page_end plan;
        plan_required_load_bias_alignment := plan_required_load_bias_alignment plan;
        plan_segments := plan_segments plan;
        plan_dynamic_segment := plan_dynamic_segment plan;
        plan_relro_segments := plan_relro_segments plan ++
          [Build_Elf32LoadPlanRelroSegment virtual_address memory_size
             mapping_start mapping_end] |}.

(** The page-rounded mapping of a PT_LOAD; an empty segment keeps the default
    zeroes and leaves the plan's extent alone. *)
Definition plan_load_mapping (page_size virtual_address memory_size : Z)
    : plan_result (option (Z * Z)) :=
  if memory_size =? 0 then Ok None
  else
    mapping_end ← or_fail (align_up (u64 (virtual_address + memory_size)) page_size)
                    Elf32LoadError.SegmentAddressOverflow;
    Ok (Some (u32 (align_down virtual_address page_size), mapping_end)).

Definition plan_load_header (page_size : Z) (image : list Z) (offset : Z)
    (plan : Elf32LoadPlan) : plan_result Elf32LoadPlan :=
  let segment_offset := decode_u32_le image (offset + 4) in
  let virtual_address := decode_u32_le image (offset + 8) in
  let file_size := decode_u32_le image (offset + 16) in
  let memory_size := decode_u32_le image (offset + 20) in
  let flags := decode_u32_le image (offset + 24) in
  let alignment := decode_u32_le image (offset + 28) in
  fail_if (memory_size <? file_size) Elf32LoadError.SegmentFileszExceedsMemsz ;;
  fail_if (image_size image <? u64 (segment_offset + file_size))
    Elf32LoadError.SegmentFileOutOfBounds ;;
  fail_if (kGuestAddressSpaceSize <? u64 (virtual_address + memory_size))
    Elf32LoadError.SegmentAddressOverflow ;;
  fail_if ((1 <? alignment) &&
           (negb (is_power_of_two alignment) ||
            negb (virtual_address mod alignment =? segment_offset mod alignment)))
    Elf32LoadError.SegmentAlignmentInvalid ;;
  permissions ← or_fail (decode_segment_permissions flags)
                  Elf32LoadError.UnsupportedSegmentPermissions;
  let bias_alignment :=
    if 1 <? alignment then Z.max (plan_required_load_bias_alignment plan) alignment
    else plan_required_load_bias_alignment plan in
  mapping ← plan_load_mapping page_size virtual_address memory_size;
  let segment := {|
    seg_offset := segment_offset;
    seg_virtual_address := virtual_address;
    seg_file_size := file_size;
    seg_memory_size := memory_size;
    seg_alignment := alignment;
    seg_permissions := permissions;
    seg_mapping_start := from_option fst 0 mapping;
    seg_mapping_end := from_option snd 0 mapping |} in
  Ok {| plan_type := plan_type plan;
        plan_entry := plan_entry plan;
        plan_minimum_page :=
          from_option (fun r => Z.min (plan_minimum_page plan) r.1) (plan_minimum_page plan) mapping;
        plan_maximum_page_end :=
          from_option (fun r => Z.max (plan_maximum_page_end plan) r.2)
            (plan_maximum_page_end plan) mapping;
        plan_required_load_bias_alignment := bias_alignment;
        plan_segments := plan_segments plan ++ [segment];
        plan_dynamic_segment := plan_dynamic_segment plan;
        plan_relro_segments := plan_relro_segments plan |}.

(** One iteration of the program-header loop. *)
Definition plan_program_header (page_size : Z) (image : list Z) (program_header_offset : Z)
    (plan : Elf32LoadPlan) (index : Z) : plan_result Elf32LoadPlan :=
  let offset := u64 (program_header_offset + index * kElf32ProgramHeaderSize) in
  let program_type := decode_u32_le image offset in
  if program_type =? kProgramTypeDynamic then plan_dynamic_header image offset plan
  else if program_type =? kProgramTypeGnuRelro then plan_relro_header page_size image offset plan
  else if negb (program_type =? kProgramTypeLoad) then Ok plan
  else plan_load_header page_size image offset plan.

(** ** Whole-plan checks *)

(** The PT_LOAD scan of the PT_DYNAMIC check: whether some load contains it,
    and the first readable one that does. *)
Fixpoint find_dynamic_load (dynamic_start dynamic_end : Z)
    (segments : list Elf32LoadPlanSegment) (contained : bool)
    : bool * option Elf32LoadPlanSegment :=
  match segments with
  | [] => (contained, None)
  | segment :: rest =>
      if seg_memory_size segment =? 0 then find_dynamic_load dynamic_start dynamic_end rest contained
      else
        let load_start := seg_virtual_address segment in
        let load_end := u64 (load_start + seg_memory_size segment) in
        if (load_start <=? dynamic_start) && (dynamic_end <=? load_end) then
          if has_permission (seg_permissions segment) MemoryPermission.Read
          then (true, Some segment)
          else find_dynamic_load dynamic_start dynamic_end rest true
        else find_dynamic_load dynamic_start dynamic_end rest contained
  end.

Definition check_dynamic (plan : Elf32LoadPlan) : plan_result unit :=
  match plan_dynamic_segment plan with
  | None => Ok tt
  | Some dynamic =>
      let dynamic_start := dyn_virtual_address dynamic in
      let dynamic_end := u64 (dynamic_start + dyn_memory_size dynamic) in
      let '(contained, readable_load) :=
        find_dynamic_load dynamic_start dynamic_end (plan_segments plan) false in
      fail_if (negb contained) Elf32LoadError.DynamicSegmentOutsideLoad ;;
      load ← or_fail readable_load Elf32LoadError.DynamicSegmentNotReadable;
      if dyn_file_size dynamic =? 0 then Ok tt
      else
        let load_delta := u64 (dynamic_start - seg_virtual_address load) in
        fail_if ((seg_file_size load <? load_delta)
                 || (u64 (seg_file_size load - load_delta) <? dyn_file_size dynamic)
                 || negb (u64 (seg_offset load + load_delta) =? dyn_offset dynamic))
          Elf32LoadError.DynamicSegmentFileMappingMismatch
  end.

(** [std::sort] of the non-empty segments by mapping start. *)
Definition mapping_start_le (lhs rhs : Elf32LoadPlanSegment) : Prop :=
  seg_mapping_start lhs <= seg_mapping_start rhs.

#[export] Instance mapping_start_le_dec : RelDecision mapping_start_le.
Proof. intros x y. unfold mapping_start_le. apply _. Defined.

Definition mapped_segments (segments : list Elf32LoadPlanSegment) : list Elf32LoadPlanSegment :=
  filter (fun s => seg_memory_size s <> 0) segments.

Fixpoint check_adjacent (order : list Elf32LoadPlanSegment) : plan_result unit :=
  match order with
  | previous :: (current :: _) as rest =>
      fail_if (seg_mapping_start current <? seg_mapping_end previous)
        Elf32LoadError.SegmentPageOverlap ;;
      check_adjacent rest
  | _ => Ok tt
  end.

Definition check_overlap (plan : Elf32LoadPlan) : plan_result unit :=
  check_adjacent (merge_sort mapping_start_le (mapped_segments (plan_segments plan))).

(** The first PT_LOAD mapping that contains a whole page. *)
Definition page_in_load (page_size page : Z) (segment : Elf32LoadPlanSegment) : bool :=
  negb (seg_memory_size segment =? 0)
  && (seg_mapping_start segment <=? page)
  && (u64 (page + page_size) <=? seg_mapping_end segment).

Definition check_relro_page (page_size : Z) (segments : list Elf32LoadPlanSegment)
    (_ : unit) (page : Z) : plan_result unit :=
  containing_load ← or_fail (List.find (page_in_load page_size page) segments)
                      Elf32LoadError.RelroSegmentOutsideLoad;
  fail_if (negb (has_permission (seg_permissions containing_load) MemoryPermission.Read))
    Elf32LoadError.RelroSegmentNotReadable.

Definition check_relro (page_size : Z) (segments : list Elf32LoadPlanSegment)
    (_ : unit) (relro : Elf32LoadPlanRelroSegment) : plan_result unit :=
  foldE (check_relro_page page_size segments) tt
    (strided (relro_mapping_start relro) (relro_mapping_end relro) page_size).

(** ** [plan_elf32_load] *)
Definition plan_elf32_load (memory : MappedGuestMemory.t) (image : list Z)
    : plan_result Elf32LoadPlan :=
  check_ident image ;;
  h ← check_header image;
  let page_size := MappedGuestMemory.page_size memory in
  plan ← foldE (plan_program_header page_size image (h_program_header_offset h))
           (initial_plan h) (seqZ 0 (h_program_header_count h));
  fail_if (match plan_segments plan with [] => true | _ => false end
           || (plan_minimum_page plan =? kGuestAddressSpaceSize))
    Elf32LoadError.NoLoadSegments ;;
  check_dynamic plan ;;
  check_overlap plan ;;
  foldE (check_relro page_size (plan_segments plan)) tt (plan_relro_segments plan) ;;
  Ok plan.

(** ** What a plan promises *)
Definition is_pow2 (z : Z) : Prop := exists k, 0 <= k /\ z = 2 ^ k.

Record segment_wf (ps : Z) (image : list Z) (s : Elf32LoadPlanSegment) : Prop := {
  sw_offset : is_u32 (seg_offset s);
  sw_address : is_u32 (seg_virtual_address s);
  sw_file_size : 0 <= seg_file_size s <= seg_memory_size s;
  sw_in_file : seg_offset s + seg_file_size s <= image_size image;
  sw_in_space : seg_virtual_address s + seg_memory_size s <= kGuestAddressSpaceSize;
  sw_alignment : 1 < seg_alignment s ->
    is_pow2 (seg_alignment s) /\
    seg_virtual_address s mod seg_alignment s = seg_offset s mod seg_alignment s;
  sw_permissions : seg_permissions s ∈ [0; 1; 3; 5];
  sw_mapping : seg_memory_size s <> 0 ->
    seg_mapping_start s mod ps = 0 /\ seg_mapping_end s mod ps = 0 /\
    0 <= seg_mapping_start s <= seg_virtual_address s /\
    seg_virtual_address s < seg_mapping_start s + ps /\
    seg_virtual_address s + seg_memory_size s <= seg_mapping_end s <= kGuestAddressSpaceSize /\
    seg_mapping_end s < seg_virtual_address s + seg_memory_size s + ps;
}.

Definition dynamic_wf (image : list Z) (d : Elf32LoadPlanDynamicSegment) : Prop :=
  is_u32 (dyn_offset d) /\ is_u32 (dyn_virtual_address d) /\
  0 < dyn_memory_size d /\ 0 <= dyn_file_size d <= dyn_memory_size d /\
  dyn_offset d + dyn_file_size d <= image_size image /\
  dyn_virtual_address d + dyn_memory_size d <= kGuestAddressSpaceSize.

Definition relro_wf (ps : Z) (r : Elf32LoadPlanRelroSegment) : Prop :=
  0 < relro_memory_size r <= UINT32_MAX /\
  relro_mapping_start r mod ps = 0 /\ relro_mapping_end r mod ps = 0 /\
  0 <= relro_mapping_start r <= relro_virtual_address r /\
  relro_virtual_address r + relro_memory_size r <= relro_mapping_end r <= kGuestAddressSpaceSize.

(** Extent and bias alignment of the segments accepted so far. *)
Definition extent_wf (p : Elf32LoadPlan) : Prop :=
  (plan_minimum_page p = kGuestAddressSpaceSize \/
   exists s, s ∈ plan_segments p /\ seg_memory_size s <> 0 /\
             seg_mapping_start s = plan_minimum_page p) /\
  (forall s, s ∈ plan_segments p -> seg_memory_size s <> 0 ->
     plan_minimum_page p <= seg_mapping_start s /\
     seg_mapping_end s <= plan_maximum_page_end p) /\
  (plan_maximum_page_end p = 0 \/
   exists s, s ∈ plan_segments p /\ seg_memory_size s <> 0 /\
             seg_mapping_end s = plan_maximum_page_end p).

Definition bias_alignment_wf (p : Elf32LoadPlan) : Prop :=
  is_pow2 (plan_required_load_bias_alignment p) /\
  plan_required_load_bias_alignment p < 2 ^ 32 /\
  forall s, s ∈ plan_segments p -> 1 < seg_alignment s ->
    (seg_alignment s | plan_required_load_bias_alignment p).

Record headers_wf (ps : Z) (image : list Z) (p : Elf32LoadPlan) : Prop := {
  hw_entry : is_u32 (plan_entry p);
  hw_segments : Forall (segment_wf ps image) (plan_segments p);
  hw_dynamic : forall d, plan_dynamic_segment p = Some d -> dynamic_wf image d;
  hw_relro : Forall (relro_wf ps) (plan_relro_segments p);
  hw_extent : extent_wf p;
  hw_bias : bias_alignment_wf p;
}.

(** ** Arithmetic of the helpers *)
Lemma align_down_spec v al :
  0 < al -> 0 <= v ->
  align_down v al mod al = 0 /\ 0 <= align_down v al <= v /\ v < align_down v al + al.
Proof.
  intros Hal Hv. unfold align_down.
  pose proof (Z.div_mod v al ltac:(lia)). pose proof (Z.mod_pos_bound v al Hal).
  replace (v - v mod al) with (v / al * al) by lia.
  rewrite Z.mod_mul by lia. pose proof (Z.div_pos v al Hv Hal). nia.
Qed.

Lemma align_down_div v al : 0 < al -> align_down v al = v / al * al.
Proof. intros Hal. unfold align_down. pose proof (Z.div_mod v al ltac:(lia)). lia. Qed.

(** The page of an address of [s, e) is visited by the page loop over [s, e). *)
Lemma page_in_strided s e x ps :
  0 < ps -> s mod ps = 0 -> s <= x < e -> align_down x ps ∈ strided s e ps.
Proof.
  intros Hps Hs Hx. apply elem_of_strided; [done|]. rewrite align_down_div by done.
  pose proof (Z_div_exact_full_2 s ps ltac:(lia) Hs) as Es.
  pose proof (Z.div_le_mono s x ps Hps ltac:(lia)).
  pose proof (Z.mul_div_le x ps Hps).
  exists (x / ps - s / ps). split_and!; [lia..|]. lia.
Qed.

Lemma align_up_spec v al w :
  0 < al -> 0 <= v -> align_up v al = Some w ->
  w mod al = 0 /\ v <= w <= kGuestAddressSpaceSize /\ w < v + al.
Proof.
  intros Hal Hv. unfold align_up.
  pose proof (Z.div_mod v al ltac:(lia)). pose proof (Z.mod_pos_bound v al Hal).
  destruct (v mod al =? 0) eqn:E; bool_prop.
  - destruct (v <=? _) eqn:E2; [|done]. bool_prop. intros [= <-]. lia.
  - destruct (_ <? v) eqn:E2; [done|]. bool_prop. intros [= <-].
    replace (v + (al - v mod al)) with ((v / al + 1) * al) by lia.
    rewrite Z.mod_mul by lia. lia.
Qed.

(** Rounding up succeeds whenever the alignment divides the address space. *)
Lemma align_up_total v al :
  0 < al -> 0 <= v <= kGuestAddressSpaceSize -> kGuestAddressSpaceSize mod al = 0 ->
  is_Some (align_up v al).
Proof.
  intros Hal Hv Hd. unfold align_up.
  destruct (v mod al =? 0) eqn:E; bool_prop.
  - rewrite (proj2 (Z.leb_le _ _)) by lia. by eexists.
  - destruct (_ <? v) eqn:E2; bool_prop; [exfalso|by eexists].
    pose proof (Z.div_mod v al ltac:(lia)). pose proof (Z.mod_pos_bound v al Hal).
    pose proof (Z.div_mod kGuestAddressSpaceSize al ltac:(lia)).
    assert (v / al < kGuestAddressSpaceSize / al) by nia. nia.
Qed.

Lemma testbit_top z k : 0 <= k -> 2 ^ k <= z < 2 ^ (k + 1) -> Z.testbit z k = true.
Proof.
  intros Hk Hz. rewrite <- (Z.log2_unique z k Hk) by (rewrite ?Z.add_1_r in *; lia).
  apply Z.bit_log2. pose proof (Z.pow_pos_nonneg 2 k). lia.
Qed.

Lemma is_power_of_two_pow2 v : is_u32 v -> is_power_of_two v = true -> is_pow2 v.
Proof.
  unfold is_power_of_two. intros Hv H. bool_prop. exists (Z.log2 v).
  pose proof (Z.log2_nonneg v) as Hk. split; [done|].
  pose proof (Z.log2_spec v ltac:(word_lia)) as [Hlo Hhi].
  destruct (Z.eq_dec v (2 ^ Z.log2 v)) as [|Hne]; [done|exfalso].
  rewrite u32_small in H0 by word_lia.
  assert (Hb : Z.testbit (Z.land v (v - 1)) (Z.log2 v) = true).
  { rewrite Z.land_spec, !testbit_top by (rewrite ?Z.add_1_r; lia). done. }
  by rewrite H0, Z.bits_0 in Hb.
Qed.

Lemma pow2_divide a b : is_pow2 a -> is_pow2 b -> a <= b -> (a | b).
Proof.
  intros (j & Hj & ->) (k & Hk & ->) Hle.
  apply (Z.pow_le_mono_r_iff 2) in Hle; [|lia..].
  exists (2 ^ (k - j)). rewrite <- Z.pow_add_r by lia. f_equal; lia.
Qed.

Lemma decode_segment_permissions_shape flags p :
  decode_segment_permissions flags = Some p -> p ∈ [0; 1; 3; 5].
Proof.
  unfold decode_segment_permissions.
  destruct (negb (Z.land flags kFlagRead =? 0)), (negb (Z.land flags kFlagWrite =? 0)),
    (negb (Z.land flags kFlagExecute =? 0)); cbn; intros [= <-]; set_solver.
Qed.

(** ** The program-header loop establishes [headers_wf] *)
Section headers.
Context (ps : Z) (image : list Z).
Hypothesis (Hps : 0 < ps) (Hps32 : ps <= kGuestAddressSpaceSize) (Hbytes : is_bytes image).

Lemma initial_plan_wf h : is_u32 (h_entry h) -> headers_wf ps image (initial_plan h).
Proof.
  intros He. split; cbn; try done.
  - split_and!; [by left|set_solver|by left].
  - split_and!; cbn; [by exists 0|done|set_solver].
Qed.

Lemma plan_dynamic_header_wf off p p' :
  headers_wf ps image p -> plan_dynamic_header image off p = Ok p' -> headers_wf ps image p'.
Proof.
  intros [] H. unfold plan_dynamic_header in H. inv_ok. cbn in *. bool_prop.
  pose proof (decode_u32_le_range image (off + 4) Hbytes) as R1.
  pose proof (decode_u32_le_range image (off + 8) Hbytes) as R2.
  pose proof (decode_u32_le_range image (off + 16) Hbytes) as R3.
  pose proof (decode_u32_le_range image (off + 20) Hbytes) as R4.
  rewrite u64_small in * by word_lia.
  split; cbn; try done. intros d [= <-]. unfold dynamic_wf; cbn. split_and!; try done; word_lia.
Qed.

Lemma plan_relro_header_wf off p p' :
  headers_wf ps image p -> plan_relro_header ps image off p = Ok p' -> headers_wf ps image p'.
Proof.
  intros [] H. unfold plan_relro_header in H. inv_ok. cbn in *. bool_prop.
  pose proof (decode_u32_le_range image (off + 8) Hbytes) as R2.
  pose proof (decode_u32_le_range image (off + 20) Hbytes) as R4.
  rewrite u64_small in * by word_lia.
  match goal with H : align_up _ _ = Some _ |- _ => apply align_up_spec in H as (? & ? & ?); [|word_lia..] end.
  destruct (align_down_spec (decode_u32_le image (off + 8)) ps) as (? & ? & ?); [word_lia..|].
  split; cbn; try done. apply Forall_app. split; [done|]. constructor; [|done].
  unfold relro_wf; cbn. rewrite u32_small by word_lia. split_and!; try done; word_lia.
Qed.

Lemma plan_load_mapping_ok va msz mp :
  is_u32 va -> is_u32 msz -> va + msz <= kGuestAddressSpaceSize ->
  plan_load_mapping ps va msz = Ok mp ->
  match mp with
  | None => msz = 0
  | Some (s, e) => msz <> 0 /\ s mod ps = 0 /\ e mod ps = 0 /\ 0 <= s <= va /\ va < s + ps /\
                   va + msz <= e <= kGuestAddressSpaceSize /\ e < va + msz + ps
  end.
Proof.
  intros Hva Hm Hsum. unfold plan_load_mapping. destruct (msz =? 0) eqn:E; bool_prop.
  { by intros [= <-]. }
  intros H. inv_ok. rewrite u64_small in * by word_lia.
  match goal with H : align_up _ _ = Some _ |- _ => apply align_up_spec in H as (? & ? & ?); [|word_lia..] end.
  destruct (align_down_spec va ps) as (? & ? & ?); [word_lia..|].
  rewrite u32_small by word_lia. split_and!; try done; word_lia.
Qed.

Lemma extent_wf_snoc p s mn mx b :
  extent_wf p ->
  mn = (if decide (seg_memory_size s = 0) then plan_minimum_page p
        else Z.min (plan_minimum_page p) (seg_mapping_start s)) ->
  mx = (if decide (seg_memory_size s = 0) then plan_maximum_page_end p
        else Z.max (plan_maximum_page_end p) (seg_mapping_end s)) ->
  extent_wf {| plan_type := plan_type p; plan_entry := plan_entry p;
               plan_minimum_page := mn; plan_maximum_page_end := mx;
               plan_required_load_bias_alignment := b;
               plan_segments := plan_segments p ++ [s];
               plan_dynamic_segment := plan_dynamic_segment p;
               plan_relro_segments := plan_relro_segments p |}.
Proof.
  intros (Hmin & Hall & Hmax) -> ->. unfold extent_wf; cbn.
  setoid_rewrite elem_of_app. setoid_rewrite list_elem_of_singleton.
  case_decide as Hz.
  - split_and!; [|intros t [Ht| ->] Htz; [by apply Hall|done]|].
    + destruct Hmin as [|(t & ? & ?)]; [by left|right; exists t; tauto].
    + destruct Hmax as [|(t & ? & ?)]; [by left|right; exists t; tauto].
  - split_and!.
    + destruct (Z.min_spec (plan_minimum_page p) (seg_mapping_start s)) as [[? ->]|[? ->]].
      * destruct Hmin as [|(t & ? & ?)]; [by left|right; exists t; tauto].
      * right; exists s; tauto.
    + intros t [Ht| ->] Htz; [specialize (Hall t Ht Htz)|]; lia.
    + destruct (Z.max_spec (plan_maximum_page_end p) (seg_mapping_end s)) as [[? ->]|[? ->]].
      * right; exists s; tauto.
      * destruct Hmax as [|(t & ? & ?)]; [by left|right; exists t; tauto].
Qed.

Lemma bias_alignment_snoc p s mn mx :
  bias_alignment_wf p -> is_u32 (seg_alignment s) ->
  (1 < seg_alignment s -> is_pow2 (seg_alignment s)) ->
  bias_alignment_wf
    {| plan_type := plan_type p; plan_entry := plan_entry p;
       plan_minimum_page := mn; plan_maximum_page_end := mx;
       plan_required_load_bias_alignment :=
         if 1 <? seg_alignment s
         then Z.max (plan_required_load_bias_alignment p) (seg_alignment s)
         else plan_required_load_bias_alignment p;
       plan_segments := plan_segments p ++ [s];
       plan_dynamic_segment := plan_dynamic_segment p;
       plan_relro_segments := plan_relro_segments p |}.
Proof.
  intros (Hpow & Hlt & Hall) Hu Hal. unfold bias_alignment_wf; cbn.
  setoid_rewrite elem_of_app. setoid_rewrite list_elem_of_singleton.
  destruct (1 <? seg_alignment s) eqn:E; bool_prop.
  - specialize (Hal E). set (r := plan_required_load_bias_alignment p) in *.
    assert (Hmax : is_pow2 (Z.max r (seg_alignment s))).
    { by destruct (Z.max_spec r (seg_alignment s)) as [[? ->]|[? ->]]. }
    split_and!; [done|word_lia|]. intros t [Ht| ->] Ht1.
    + transitivity r; [by apply Hall|]. apply pow2_divide; [done..|lia].
    + apply pow2_divide; [done..|lia].
  - split_and!; [done..|]. intros t [Ht| ->] Ht1; [by apply Hall|lia].
Qed.

Lemma plan_load_header_wf off p p' :
  headers_wf ps image p -> plan_load_header ps image off p = Ok p' -> headers_wf ps image p'.
Proof.
  intros [] H. unfold plan_load_header in H.
  pose proof (decode_u32_le_range image (off + 4) Hbytes) as R1.
  pose proof (decode_u32_le_range image (off + 8) Hbytes) as R2.
  pose proof (decode_u32_le_range image (off + 16) Hbytes) as R3.
  pose proof (decode_u32_le_range image (off + 20) Hbytes) as R4.
  pose proof (decode_u32_le_range image (off + 28) Hbytes) as R5.
  set (so := decode_u32_le image (off + 4)) in *. set (va := decode_u32_le image (off + 8)) in *.
  set (fs := decode_u32_le image (off + 16)) in *. set (ms := decode_u32_le image (off + 20)) in *.
  set (al := decode_u32_le image (off + 28)) in *.
  rewrite !u64_small in H by word_lia. apply bind_ok in H as ([] & H1%fail_if_ok & H).
  apply bind_ok in H as ([] & H2%fail_if_ok & H). apply bind_ok in H as ([] & H3%fail_if_ok & H).
  apply bind_ok in H as ([] & H4%fail_if_ok & H). apply bind_ok in H as (pm & H5%or_fail_ok & H).
  apply bind_ok in H as (mp & H6 & H). injection H as <-. bool_prop.
  apply plan_load_mapping_ok in H6; [|done..|word_lia].
  assert (Hal : 1 < al -> is_pow2 al /\ va mod al = so mod al).
  { intros Hlt. rewrite (proj2 (Z.ltb_lt _ _) Hlt) in H4. cbn in H4. bool_prop.
    split; [by apply is_power_of_two_pow2|done]. }
  split; cbn; try done.
  - apply Forall_app. split; [done|]. constructor; [|done].
    split; cbn; try done; try word_lia.
    + by eapply decode_segment_permissions_shape.
    + intros Hne. destruct mp as [[s e]|]; [|done]. cbn. tauto.
  - apply extent_wf_snoc; [done|cbn..]; destruct mp as [[s e]|]; cbn;
      rewrite ?decide_True, ?decide_False by tauto; done.
  - by apply (bias_alignment_snoc p (Build_Elf32LoadPlanSegment _ _ _ _ al _ _ _)); [|done|cbn; tauto].
Qed.

Lemma plan_program_header_wf phoff p i p' :
  headers_wf ps image p -> plan_program_header ps image phoff p i = Ok p' ->
  headers_wf ps image p'.
Proof.
  intros Hp H. unfold plan_program_header in H. 
  case_head H E1; [by eapply plan_dynamic_header_wf|].
  case_head H E2; [by eapply plan_relro_header_wf|].
  case_head H E3; [by simplify_eq|]. by eapply plan_load_header_wf.
Qed.
End headers.

(** ** The whole-plan checks *)
Definition seg_disjoint (s t : Elf32LoadPlanSegment) : Prop :=
  seg_mapping_end s <= seg_mapping_start t \/ seg_mapping_end t <= seg_mapping_start s.

Lemma ForallOrdPairs_perm {A} (R : A -> A -> Prop) l l' :
  Symmetric R -> l ≡ₚ l' -> ForallOrdPairs R l -> ForallOrdPairs R l'.
Proof.
  intros HR Hp. induction Hp as [|x l l' Hp IH|x y l|l l' l'' _ IH1 _ IH2]; intros HF; auto.
  - inversion_clear HF as [|? ? Hx HF']. constructor; [by rewrite <- Hp|auto].
  - inversion_clear HF as [|? ? Hx HF']. inversion_clear HF' as [|? ? Hy HF].
    inversion_clear Hx as [|? ? Hxy Hx']. constructor; [constructor; [by apply HR|done]|].
    by constructor.
Qed.

#[export] Instance seg_disjoint_sym : Symmetric seg_disjoint.
Proof. intros s t. unfold seg_disjoint. tauto. Qed.

Definition nonempty_mapping (s : Elf32LoadPlanSegment) : Prop :=
  seg_mapping_start s < seg_mapping_end s.

(** On a sorted list the adjacent check is the pairwise check. *)
Lemma check_adjacent_iff l :
  Sorted mapping_start_le l -> Forall nonempty_mapping l ->
  check_adjacent l = Ok tt <-> ForallOrdPairs seg_disjoint l.
Proof.
  induction l as [|s [|t l] IH]; intros Hs Hf.
  { split; [constructor|done]. }
  { split; [repeat constructor|done]. }
  inversion_clear Hs as [|? ? Hs' Hh]. inversion_clear Hh as [|? ? Hst].
  inversion_clear Hf as [|? ? Hsf Hf']. specialize (IH Hs' Hf').
  cbn [check_adjacent]. unfold mapping_start_le, nonempty_mapping in *. split.
  - intros H. apply bind_ok in H as ([] & H1%fail_if_ok & H2). bool_prop.
    apply IH in H2. constructor; [|done].
    assert (Hss : StronglySorted mapping_start_le (t :: l)).
    { apply Sorted_StronglySorted; [|done]. intros ? ? ?. unfold mapping_start_le. lia. }
    inversion_clear Hss as [|? ? _ Hle]. constructor; [left; lia|].
    eapply Forall_impl; [exact Hle|]. intros u Hu. unfold mapping_start_le in Hu. left. lia.
  - intros HF. inversion_clear HF as [|? ? Hd HF']. inversion_clear Hd as [|? ? Hd' _].
    apply bind_ok. exists tt. split; [|by apply IH]. apply fail_if_ok. apply Z.ltb_ge.
    inversion_clear Hf' as [|? ? Htf _]. unfold seg_disjoint in Hd'. lia.
Qed.

Lemma mapped_segments_nonempty ps image l :
  Forall (segment_wf ps image) l -> Forall nonempty_mapping (mapped_segments l).
Proof.
  intros HF. apply Forall_forall. intros s [Hne Hs]%list_elem_of_filter.
  rewrite Forall_forall in HF. destruct (sw_mapping _ _ _ (HF s Hs) Hne) as (_ & _ & ? & ? & ? & _).
  pose proof (sw_file_size _ _ _ (HF s Hs)). unfold nonempty_mapping. lia.
Qed.

Lemma check_overlap_iff ps image p :
  Forall (segment_wf ps image) (plan_segments p) ->
  check_overlap p = Ok tt <-> ForallOrdPairs seg_disjoint (mapped_segments (plan_segments p)).
Proof.
  intros HF. unfold check_overlap.
  set (l := mapped_segments _). pose proof (merge_sort_Permutation mapping_start_le l) as Hperm.
  assert (Htot : Total mapping_start_le) by (intros s t; unfold mapping_start_le; lia).
  rewrite check_adjacent_iff.
  - split; apply ForallOrdPairs_perm; done || apply _.
  - by apply Sorted_merge_sort.
  - rewrite Hperm. by eapply mapped_segments_nonempty.
Qed.

Lemma find_dynamic_load_Some ds de l c load :
  snd (find_dynamic_load ds de l c) = Some load ->
  load ∈ l /\ seg_memory_size load <> 0 /\
  has_permission (seg_permissions load) MemoryPermission.Read = true /\
  seg_virtual_address load <= ds /\ de <= u64 (seg_virtual_address load + seg_memory_size load).
Proof.
  revert c; induction l as [|s l IH]; intros c; cbn [find_dynamic_load]; [done|].
  intros H. destruct (seg_memory_size s =? 0) eqn:E1.
  { apply IH in H as [? ?]. split; [by right|done]. }
  destruct ((_ <=? _) && _) eqn:E2;
    [destruct (has_permission (seg_permissions s) _) eqn:E3|].
  - cbn in H. simplify_eq. bool_prop. split_and!; try done. by left.
  - apply IH in H as [? ?]. split; [by right|done].
  - apply IH in H as [? ?]. split; [by right|done].
Qed.

(** Where a plan's PT_DYNAMIC lives. *)
Definition dynamic_backed (segments : list Elf32LoadPlanSegment)
    (d : Elf32LoadPlanDynamicSegment) : Prop :=
  exists load, load ∈ segments /\
    has_permission (seg_permissions load) MemoryPermission.Read = true /\
    seg_virtual_address load <= dyn_virtual_address d /\
    dyn_virtual_address d + dyn_memory_size d <=
      seg_virtual_address load + seg_memory_size load /\
    (dyn_file_size d <> 0 ->
       dyn_offset d - seg_offset load = dyn_virtual_address d - seg_virtual_address load /\
       dyn_offset d + dyn_file_size d <= seg_offset load + seg_file_size load).

Lemma check_dynamic_ok ps image p d :
  headers_wf ps image p -> plan_dynamic_segment p = Some d -> check_dynamic p = Ok tt ->
  dynamic_backed (plan_segments p) d.
Proof.
  intros Hp Hd H. unfold check_dynamic in H. rewrite Hd in H.
  destruct (hw_dynamic _ _ _ Hp d Hd) as (D1 & D2 & D3 & D4 & D5 & D6).
  destruct (find_dynamic_load _ _ _ _) as [c load] eqn:E.
  apply bind_ok in H as ([] & _ & H). apply bind_ok in H as (ld & ->%or_fail_ok & H).
  assert (Hl : snd (find_dynamic_load (dyn_virtual_address d)
                (u64 (dyn_virtual_address d + dyn_memory_size d)) (plan_segments p) false)
               = Some ld) by by rewrite E.
  apply find_dynamic_load_Some in Hl as (Hin & Hne & Hr & Hlo & Hhi).
  pose proof (hw_segments _ _ _ Hp) as Hseg. rewrite Forall_forall in Hseg.
  destruct (Hseg ld Hin) as [S1 S2 S3 S4 S5 _ _ _].
  rewrite !u64_small in Hhi by word_lia. exists ld. split_and!; [done..|].
  intros Hf. rewrite (proj2 (Z.eqb_neq _ _) Hf) in H. apply fail_if_ok in H. clear E.
  rewrite (u64_small (dyn_virtual_address d - _)) in H by word_lia. bool_prop.
  rewrite !u64_small in * by word_lia. lia.
Qed.

(** Every byte of a RELRO range's pages belongs to a readable PT_LOAD. *)
Definition relro_backed (segments : list Elf32LoadPlanSegment)
    (r : Elf32LoadPlanRelroSegment) : Prop :=
  forall x, relro_mapping_start r <= x < relro_mapping_end r ->
  exists load, load ∈ segments /\ seg_memory_size load <> 0 /\
    has_permission (seg_permissions load) MemoryPermission.Read = true /\
    seg_mapping_start load <= x < seg_mapping_end load.

Lemma foldE_unit_elem {E A} (f : unit -> A -> result E unit) l x u :
  foldE f tt l = Ok u -> x ∈ l -> f tt x = Ok tt.
Proof.
  induction l as [|y l IH]; cbn; intros H Hx; [by apply not_elem_of_nil in Hx|].
  apply bind_ok in H as ([] & H1 & H2). apply elem_of_cons in Hx as [->|Hx]; auto.
Qed.

Lemma check_relro_ok ps segments r :
  0 < ps <= kGuestAddressSpaceSize -> relro_wf ps r -> check_relro ps segments tt r = Ok tt ->
  relro_backed segments r.
Proof.
  intros Hps (R1 & R2 & R3 & R4 & R5) H x Hx. unfold check_relro in H.
  destruct (align_down_spec x ps) as (A1 & A2 & A3); [lia..|].
  apply (foldE_unit_elem _ _ (align_down x ps)) in H.
  - unfold check_relro_page in H. apply bind_ok in H as (ld & Hf%or_fail_ok & H%fail_if_ok).
    apply List.find_some in Hf as [Hin%list_elem_of_In Hpg]. unfold page_in_load in Hpg.
    bool_prop. rewrite u64_small in * by word_lia. exists ld. split_and!; try done; lia.
  - apply page_in_strided; [lia..].
Qed.

(** A plan the loader may execute. *)
Record plan_wf (ps : Z) (image : list Z) (p : Elf32LoadPlan) : Prop := {
  pw_headers : headers_wf ps image p;
  pw_minimum : exists s, s ∈ plan_segments p /\ seg_memory_size s <> 0 /\
                         seg_mapping_start s = plan_minimum_page p;
  pw_disjoint : ForallOrdPairs seg_disjoint (mapped_segments (plan_segments p));
  pw_dynamic : forall d, plan_dynamic_segment p = Some d -> dynamic_backed (plan_segments p) d;
  pw_relro : Forall (relro_backed (plan_segments p)) (plan_relro_segments p);
}.

Lemma page_size_le m : mapped_wf m -> 0 < MappedGuestMemory.page_size m <= kGuestAddressSpaceSize.
Proof.
  intros Hwf. pose proof (mw_page_pos m Hwf). split; [done|].
  apply Z.divide_pos_le; [done|]. apply Z.mod_divide; [unfold MappedGuestMemory.page_size; lia|apply Hwf].
Qed.

Lemma check_header_ok image h :
  is_bytes image -> check_header image = Ok h ->
  is_u32 (h_entry h) /\ is_u32 (h_program_header_offset h) /\ is_u16 (h_program_header_count h) /\
  h_program_header_offset h + h_program_header_count h * kElf32ProgramHeaderSize <= image_size image.
Proof.
  intros Hb H. unfold check_header in H. inv_ok. cbn.
  pose proof (decode_u32_le_range image 24 Hb). pose proof (decode_u32_le_range image 28 Hb).
  pose proof (decode_u16_le_range image 44 Hb).
  bool_prop. repeat match goal with H : decode_u16_le image 42 = _ |- _ => rewrite H in * end.
  unfold kElf32ProgramHeaderSize in *. rewrite !u64_small in * by (rewrite ?u64_small; word_lia).
  split_and!; done || word_lia.
Qed.

Lemma plan_elf32_load_wf m image p :
  mapped_wf m -> is_bytes image -> plan_elf32_load m image = Ok p ->
  plan_wf (MappedGuestMemory.page_size m) image p.
Proof.
  intros Hwf Hb H. unfold plan_elf32_load in H.
  destruct (page_size_le m Hwf) as [Hps Hps32].
  apply bind_ok in H as ([] & _ & H). apply bind_ok in H as (h & Hh & H).
  apply bind_ok in H as (p' & Hloop & H). apply bind_ok in H as ([] & Hne%fail_if_ok & H).
  apply bind_ok in H as ([] & Hdyn & H). apply bind_ok in H as ([] & Hov & H).
  apply bind_ok in H as ([] & Hrel & H). injection H as ->. bool_prop.
  apply check_header_ok in Hh as (He & _); [|done].
  assert (Hp : headers_wf (MappedGuestMemory.page_size m) image p).
  { eapply foldE_ind; [by apply initial_plan_wf| |exact Hloop].
    intros. by eapply plan_program_header_wf. }
  split; [done|..].
  - by destruct (proj1 (hw_extent _ _ _ Hp)).
  - eapply check_overlap_iff; [apply Hp|done].
  - intros d Hd. by eapply check_dynamic_ok.
  - apply Forall_forall. intros r Hr. eapply check_relro_ok; [done| |by eapply foldE_unit_elem].
    pose proof (hw_relro _ _ _ Hp) as HF. rewrite Forall_forall in HF. by apply HF.
Qed.

(** C14: whatever bytes the image holds, a plan that [plan_elf32_load] accepts is
    safe to execute: every PT_LOAD reads inside the file and ends inside the
    4 GiB space, is never writable and executable, has power-of-two alignment
    congruent with its file offset (and dividing the plan's bias alignment), and
    maps whole host pages; the mapped page ranges are pairwise disjoint and
    spanned by [minimum_page]/[maximum_page_end]; PT_DYNAMIC lies in a readable
    PT_LOAD with the same file-to-address mapping; and every page of a
    PT_GNU_RELRO range belongs to a readable PT_LOAD. *)
Theorem plan_elf32_load_sound m image p :
  mapped_wf m -> is_bytes image -> plan_elf32_load m image = Ok p ->
  plan_wf (MappedGuestMemory.page_size m) image p.
Proof. apply plan_elf32_load_wf. Qed.

(** ** A concrete image *)
Definition le16 (v : Z) : list Z := [u8 v; u8 (Z.shiftr v 8)].

Definition elf32_ehdr (type machine entry phnum : Z) : list Z :=
  [127; 69; 76; 70; 1; 1; 1] ++ replicate 9 0 ++ le16 type ++ le16 machine
  ++ encode_u32_le 1 ++ encode_u32_le entry ++ encode_u32_le 52 ++ encode_u32_le 0
  ++ encode_u32_le 0 ++ le16 52 ++ le16 32 ++ le16 phnum ++ replicate 6 0.

Definition elf32_phdr (type offset vaddr filesz memsz flags align : Z) : list Z :=
  concat (encode_u32_le <$> [type; offset; vaddr; vaddr; filesz; memsz; flags; align]).

(** Text (read-execute, whole header page), data with .dynamic and .bss, and a
    RELRO page: 256 header bytes followed by the 32 data bytes 1..32. *)
Definition demo_image : list Z :=
  elf32_ehdr 3 40 64 4
  ++ elf32_phdr 1 0 0 256 256 5 4096
  ++ elf32_phdr 1 256 8448 32 5000 6 4096
  ++ elf32_phdr 2 256 8448 16 16 6 4
  ++ elf32_phdr 0x6474e552 256 8448 32 256 4 1
  ++ replicate 76 0 ++ seqZ 1 32.

Definition empty_memory : MappedGuestMemory.t := MappedGuestMemory.mk 65536 4096 ∅ ∅ ∅ [].

Lemma empty_memory_wf : mapped_wf empty_memory.
Proof. by apply (mapped_make_wf 4096 (Some 65536) []). Defined.

Lemma plan_elf32_load_sound_witness :
  exists p, plan_elf32_load empty_memory demo_image = Ok p /\
    length (plan_segments p) = 2%nat /\ plan_maximum_page_end p = 16384 /\
    plan_wf 4096 demo_image p.
Proof.
  eexists. split; [vm_compute; reflexivity|]. split; [reflexivity|]. split; [reflexivity|].
  apply (plan_elf32_load_sound empty_memory demo_image).
  - exact empty_memory_wf.
  - apply is_bytes_forallb. vm_compute. reflexivity.
  - vm_compute. reflexivity.
Defined.
