(* ===== verification/Loader.v ===== *)
(** * ELF32 loading ([src/src/elf/elf32_loader.h], [elf32_load_types.h],
      [src/src/elf/loading/elf32_loader.cpp])

    [load_elf32] plans the image, computes the load bias, refuses any conflict
    with existing mappings, and then commits: map every segment read-write,
    copy file bytes and zero the rest, set the final permissions. A failing
    commit unmaps what it mapped. *)

From S2P Require Import Prelude Bytes GuestMemory MappedMemory AddressView LoadPlan.

Import MappedGuestMemory.

Definition load_error_to_string (error : Elf32LoadError.t) : string :=
  match error with
  | Elf32LoadError.None => "none"
  | Elf32LoadError.TruncatedHeader => "truncated_header"
  | Elf32LoadError.BadMagic => "bad_magic"
  | Elf32LoadError.UnsupportedClass => "unsupported_class"
  | Elf32LoadError.UnsupportedEndian => "unsupported_endian"
  | Elf32LoadError.UnsupportedIdentVersion => "unsupported_ident_version"
  | Elf32LoadError.UnsupportedElfVersion => "unsupported_elf_version"
  | Elf32LoadError.UnsupportedType => "unsupported_type"
  | Elf32LoadError.UnsupportedMachine => "unsupported_machine"
  | Elf32LoadError.InvalidHeaderSize => "invalid_header_size"
  | Elf32LoadError.InvalidProgramHeaderSize => "invalid_program_header_size"
  | Elf32LoadError.ProgramHeaderTableOutOfBounds => "program_header_table_out_of_bounds"
  | Elf32LoadError.NoLoadSegments => "no_load_segments"
  | Elf32LoadError.SegmentFileszExceedsMemsz => "segment_filesz_exceeds_memsz"
  | Elf32LoadError.SegmentFileOutOfBounds => "segment_file_out_of_bounds"
  | Elf32LoadError.SegmentAddressOverflow => "segment_address_overflow"
  | Elf32LoadError.SegmentAlignmentInvalid => "segment_alignment_invalid"
  | Elf32LoadError.UnsupportedSegmentPermissions => "unsupported_segment_permissions"
  | Elf32LoadError.DynamicBaseRequired => "dynamic_base_required"
  | Elf32LoadError.DynamicBaseUnaligned => "dynamic_base_unaligned"
  | Elf32LoadError.LoadBiasOverflow => "load_bias_overflow"
  | Elf32LoadError.EntryAddressOverflow => "entry_address_overflow"
  | Elf32LoadError.MultipleDynamicSegments => "multiple_dynamic_segments"
  | Elf32LoadError.DynamicSegmentEmpty => "dynamic_segment_empty"
  | Elf32LoadError.DynamicSegmentFileszExceedsMemsz => "dynamic_segment_filesz_exceeds_memsz"
  | Elf32LoadError.DynamicSegmentFileOutOfBounds => "dynamic_segment_file_out_of_bounds"
  | Elf32LoadError.DynamicSegmentAddressOverflow => "dynamic_segment_address_overflow"
  | Elf32LoadError.DynamicSegmentOutsideLoad => "dynamic_segment_outside_load"
  | Elf32LoadError.DynamicSegmentNotReadable => "dynamic_segment_not_readable"
  | Elf32LoadError.DynamicSegmentFileMappingMismatch => "dynamic_segment_file_mapping_mismatch"
  | Elf32LoadError.RelroSegmentEmpty => "relro_segment_empty"
  | Elf32LoadError.RelroSegmentAddressOverflow => "relro_segment_address_overflow"
  | Elf32LoadError.RelroSegmentOutsideLoad => "relro_segment_outside_load"
  | Elf32LoadError.RelroSegmentNotReadable => "relro_segment_not_readable"
  | Elf32LoadError.SegmentPageOverlap => "segment_page_overlap"
  | Elf32LoadError.AddressConflict => "address_conflict"
  | Elf32LoadError.MapFailed => "map_failed"
  | Elf32LoadError.WriteFailed => "write_failed"
  | Elf32LoadError.ProtectFailed => "protect_failed"
  end.

(** ** Results ([elf32_load_types.h]) *)
Record Elf32LoadedSegment := {
  ls_guest_address : Z;
  ls_file_size : Z;
  ls_memory_size : Z;
  ls_mapping_start : Z;
  ls_mapping_size : Z;
  ls_permissions : Z;
}.

Record Elf32DynamicSegment := {
  ds_guest_address : Z;
  ds_file_size : Z;
  ds_memory_size : Z;
}.

Record Elf32RelroSegment := {
  rs_guest_address : Z;
  rs_memory_size : Z;
  rs_mapping_start : Z;
  rs_mapping_size : Z;
}.

Record Elf32LoadResult := {
  lr_load_bias : Z;
  lr_entry : Z;
  lr_segments : list Elf32LoadedSegment;
  lr_dynamic_segment : option Elf32DynamicSegment;
  lr_relro_segments : list Elf32RelroSegment;
}.

(** [Elf32LoadOptions::dynamic_base] *)
Definition Elf32LoadOptions : Type := option Z.

Record PlannedSegment := {
  pl_raw : Elf32LoadPlanSegment;
  pl_guest_address : Z;
  pl_mapping_start : Z;
  pl_mapping_end : Z;
}.

(** ** Bias and biased metadata *)
Definition compute_load_bias (page_size : Z) (plan : Elf32LoadPlan) (dynamic_base : Elf32LoadOptions)
    : plan_result Z :=
  match plan_type plan with
  | Executable => Ok 0
  | Dynamic =>
      dynamic_base ← or_fail dynamic_base Elf32LoadError.DynamicBaseRequired;
      fail_if (negb (dynamic_base mod page_size =? 0)) Elf32LoadError.DynamicBaseUnaligned ;;
      fail_if (dynamic_base <? plan_minimum_page plan) Elf32LoadError.LoadBiasOverflow ;;
      let bias := dynamic_base - plan_minimum_page plan in
      fail_if ((UINT32_MAX <? bias)
               || (kGuestAddressSpaceSize - bias <? plan_maximum_page_end plan))
        Elf32LoadError.LoadBiasOverflow ;;
      fail_if ((1 <? plan_required_load_bias_alignment plan)
               && negb (bias mod plan_required_load_bias_alignment plan =? 0))
        Elf32LoadError.DynamicBaseUnaligned ;;
      Ok (u32 bias)
  end.

Definition compute_loaded_entry (plan : Elf32LoadPlan) (load_bias : Z) : plan_result Z :=
  if plan_entry plan =? 0 then Ok 0
  else
    let biased_entry := u64 (plan_entry plan + load_bias) in
    fail_if (UINT32_MAX <? biased_entry) Elf32LoadError.EntryAddressOverflow ;;
    Ok (u32 biased_entry).

Definition bias_dynamic (plan : Elf32LoadPlan) (load_bias : Z)
    : plan_result (option Elf32DynamicSegment) :=
  match plan_dynamic_segment plan with
  | None => Ok None
  | Some dynamic =>
      let biased_dynamic_start := u64 (dyn_virtual_address dynamic + load_bias) in
      let biased_dynamic_end := u64 (biased_dynamic_start + dyn_memory_size dynamic) in
      fail_if ((UINT32_MAX <? biased_dynamic_start)
               || (kGuestAddressSpaceSize <? biased_dynamic_end))
        Elf32LoadError.DynamicSegmentAddressOverflow ;;
      Ok (Some {| ds_guest_address := u32 biased_dynamic_start;
                  ds_file_size := dyn_file_size dynamic;
                  ds_memory_size := dyn_memory_size dynamic |})
  end.

Definition bias_relro (load_bias : Z) (raw : Elf32LoadPlanRelroSegment)
    : plan_result Elf32RelroSegment :=
  let guest_address := u64 (relro_virtual_address raw + load_bias) in
  let mapping_start := u64 (relro_mapping_start raw + load_bias) in
  let mapping_end := u64 (relro_mapping_end raw + load_bias) in
  fail_if ((UINT32_MAX <? guest_address) || (UINT32_MAX <? mapping_start)
           || (kGuestAddressSpaceSize <? mapping_end))
    Elf32LoadError.RelroSegmentAddressOverflow ;;
  Ok {| rs_guest_address := u32 guest_address;
        rs_memory_size := relro_memory_size raw;
        rs_mapping_start := u32 mapping_start;
        rs_mapping_size := u64 (mapping_end - mapping_start) |}.

Definition bias_segment (load_bias : Z) (raw : Elf32LoadPlanSegment)
    : plan_result PlannedSegment :=
  let guest_address := u64 (seg_virtual_address raw + load_bias) in
  let mapping_start := u64 (seg_mapping_start raw + load_bias) in
  let mapping_end := u64 (seg_mapping_end raw + load_bias) in
  fail_if ((UINT32_MAX <? guest_address) || (UINT32_MAX <? mapping_start)
           || (kGuestAddressSpaceSize <? mapping_end))
    Elf32LoadError.SegmentAddressOverflow ;;
  Ok {| pl_raw := raw;
        pl_guest_address := u32 guest_address;
        pl_mapping_start := u32 mapping_start;
        pl_mapping_end := mapping_end |}.

Definition segment_conflicts (m : t) (planned : PlannedSegment) : bool :=
  existsb (fun page => is_mapped m (u32 page))
    (strided (pl_mapping_start planned) (pl_mapping_end planned) (page_size m)).

(** ** Commit *)
Definition mapping_size (planned : PlannedSegment) : Z :=
  u64 (pl_mapping_end planned - pl_mapping_start planned).

(** [mapped_ranges] holds the (start, length) pairs mapped so far. *)
Definition rollback (m : t) (mapped_ranges : list (Z * Z)) : t :=
  foldl (fun m r => snd (unmap m r.1 r.2)) m (rev mapped_ranges).

Definition initialization_permissions : Z :=
  perm_or MemoryPermission.Read MemoryPermission.Write.

Definition map_segment (planned : PlannedSegment) (s : t * list (Z * Z))
    : bool * (t * list (Z * Z)) :=
  let '(m, mapped_ranges) := s in
  let '(ok, m1) := map m (pl_mapping_start planned) (mapping_size planned)
                     initialization_permissions in
  if negb ok then (false, (m1, mapped_ranges))
  else (true, (m1, mapped_ranges ++ [(pl_mapping_start planned, mapping_size planned)])).

Definition kZeroChunkSize : Z := 4096.

(** One pass of the zero-filling loop at [zero_address]. *)
Definition write_zero_chunk (zero_end : Z) (zero_address : Z) (m : t) : bool * t :=
  let chunk := Z.min (zero_end - zero_address) kZeroChunkSize in
  write m (u32 zero_address) (replicate (Z.to_nat chunk) 0).

Definition subspan (image : list Z) (offset count : Z) : list Z :=
  take (Z.to_nat count) (drop (Z.to_nat offset) image).

Definition write_segment (image : list Z) (planned : PlannedSegment) (m : t) : bool * t :=
  let raw := pl_raw planned in
  let '(ok, m1) :=
    if seg_file_size raw =? 0 then (true, m)
    else write m (pl_guest_address planned) (subspan image (seg_offset raw) (seg_file_size raw)) in
  if negb ok then (false, m1)
  else
    let zero_address := u64 (pl_guest_address planned + seg_file_size raw) in
    let remaining := u64 (seg_memory_size raw - seg_file_size raw) in
    seq_ops (write_zero_chunk (zero_address + remaining))
      (strided zero_address (zero_address + remaining) kZeroChunkSize) m1.

Definition protect_segment (planned : PlannedSegment) (m : t) : bool * t :=
  protect m (pl_mapping_start planned) (mapping_size planned) (seg_permissions (pl_raw planned)).

(** The three commit loops; the error says which one failed. *)
Definition commit_segments (m : t) (image : list Z) (planned : list PlannedSegment)
    : option Elf32LoadError.t * t :=
  let '(ok, (m1, mapped_ranges)) := seq_ops map_segment planned (m, []) in
  if negb ok then (Some Elf32LoadError.MapFailed, rollback m1 mapped_ranges)
  else
    let '(ok, m2) := seq_ops (write_segment image) planned m1 in
    if negb ok then (Some Elf32LoadError.WriteFailed, rollback m2 mapped_ranges)
    else
      let '(ok, m3) := seq_ops protect_segment planned m2 in
      if negb ok then (Some Elf32LoadError.ProtectFailed, rollback m3 mapped_ranges)
      else (None, m3).

Definition loaded_segment (planned : PlannedSegment) : Elf32LoadedSegment := {|
  ls_guest_address := pl_guest_address planned;
  ls_file_size := seg_file_size (pl_raw planned);
  ls_memory_size := seg_memory_size (pl_raw planned);
  ls_mapping_start := pl_mapping_start planned;
  ls_mapping_size := mapping_size planned;
  ls_permissions := seg_permissions (pl_raw planned);
|}.

(** ** [load_elf32] *)

(** Everything before the first mutation. *)
Definition prepare_load (m : t) (image : list Z) (options : Elf32LoadOptions)
    : plan_result (Elf32LoadResult * list PlannedSegment) :=
  plan ← plan_elf32_load m image;
  load_bias ← compute_load_bias (page_size m) plan options;
  loaded_entry ← compute_loaded_entry plan load_bias;
  loaded_dynamic_segment ← bias_dynamic plan load_bias;
  loaded_relro_segments ← mapE (bias_relro load_bias) (plan_relro_segments plan);
  planned_segments ← mapE (bias_segment load_bias) (mapped_segments (plan_segments plan));
  fail_if (existsb (segment_conflicts m) planned_segments) Elf32LoadError.AddressConflict ;;
  Ok ({| lr_load_bias := load_bias;
         lr_entry := loaded_entry;
         lr_segments := loaded_segment <$> planned_segments;
         lr_dynamic_segment := loaded_dynamic_segment;
         lr_relro_segments := loaded_relro_segments |}, planned_segments).

Definition load_elf32 (m : t) (image : list Z) (options : Elf32LoadOptions)
    : plan_result Elf32LoadResult * t :=
  match prepare_load m image options with
  | Err e => (Err e, m)
  | Ok (r, planned_segments) =>
      match commit_segments m image planned_segments with
      | (Some e, m') => (Err e, m')
      | (None, m') => (Ok r, m')
      end
  end.

(** ** Planned segments are page ranges of the address space *)
Record planned_ok (ps : Z) (image : list Z) (p : PlannedSegment) : Prop := {
  po_start : is_u32 (pl_mapping_start p);
  po_start_page : pl_mapping_start p mod ps = 0;
  po_end_page : pl_mapping_end p mod ps = 0;
  po_end : pl_mapping_start p < pl_mapping_end p <= kGuestAddressSpaceSize;
  po_guest : pl_mapping_start p <= pl_guest_address p;
  po_guest_end : pl_guest_address p + seg_memory_size (pl_raw p) <= pl_mapping_end p;
  po_file : 0 <= seg_file_size (pl_raw p) <= seg_memory_size (pl_raw p);
  po_offset : 0 <= seg_offset (pl_raw p);
  po_in_file : seg_offset (pl_raw p) + seg_file_size (pl_raw p) <= image_size image;
  po_permissions : seg_permissions (pl_raw p) ∈ [0; 1; 3; 5];
}.

Lemma mapping_size_eq ps image p :
  planned_ok ps image p -> mapping_size p = pl_mapping_end p - pl_mapping_start p.
Proof. intros []. unfold mapping_size. rewrite u64_small by word_lia. done. Qed.

Lemma planned_ranged_ok m image p :
  mapped_wf m -> planned_ok (page_size_ m) image p ->
  ranged_ok m (pl_mapping_start p) (mapping_size p).
Proof.
  intros Hwf Hp. pose proof (mapping_size_eq _ _ _ Hp) as ->. destruct Hp.
  pose proof (mw_page_pos m Hwf). split; [done|]. split_and!; try word_lia.
  rewrite Zminus_mod, po_end_page0, po_start_page0. by apply Z.mod_0_l; lia.
Qed.

Lemma bias_segment_ok ps image bias raw p :
  0 < ps -> is_u32 bias -> bias mod ps = 0 ->
  segment_wf ps image raw -> seg_memory_size raw <> 0 -> bias_segment bias raw = Ok p ->
  planned_ok ps image p /\ pl_raw p = raw /\
  pl_guest_address p = seg_virtual_address raw + bias /\
  pl_mapping_start p = seg_mapping_start raw + bias /\
  pl_mapping_end p = seg_mapping_end raw + bias.
Proof.
  intros Hps Hb Hbp [S1 S2 S3 S4 S5 _ S7 S8] Hne H. unfold bias_segment in H.
  destruct (S8 Hne) as (M1 & M2 & M3 & M4 & M5 & M6).
  apply bind_ok in H as ([] & H%fail_if_ok & [= <-]).
  rewrite !(u64_small (_ + bias)) in * by word_lia. bool_prop. cbn.
  rewrite !u32_small by word_lia.
  assert (Hadd : forall z, z mod ps = 0 -> (z + bias) mod ps = 0).
  { intros z Hz. by rewrite Zplus_mod, Hz, Hbp, Z.add_0_l, Z.mod_0_l by lia. }
  split_and!; try done. split; cbn; rewrite ?u32_small by word_lia; try done; try word_lia; auto.
Qed.

Lemma compute_load_bias_ok ps image plan base bias :
  0 < ps -> plan_wf ps image plan -> from_option is_u32 True base ->
  compute_load_bias ps plan base = Ok bias ->
  is_u32 bias /\ bias mod ps = 0 /\ (plan_required_load_bias_alignment plan | bias) /\
  plan_maximum_page_end plan + bias <= kGuestAddressSpaceSize.
Proof.
  intros Hps [[_ Hsegs _ _ (_ & _ & Hmax) Hal] (s & Hs & Hne & Hmin) _ _ _] Hbase H.
  rewrite Forall_forall in Hsegs.
  destruct (sw_mapping _ _ _ (Hsegs s Hs) Hne) as (M1 & _ & M3 & _).
  unfold compute_load_bias in H. destruct (plan_type plan).
  - simplify_eq. rewrite Z.mod_0_l by lia. split_and!; [word_lia|done|by apply Z.divide_0_r|].
    destruct Hmax as [->|(u & Hu & Hnu & <-)]; [word_lia|].
    destruct (sw_mapping _ _ _ (Hsegs u Hu) Hnu) as (_ & _ & _ & _ & ? & _). lia.
  - apply bind_ok in H as (b & ->%or_fail_ok & H). apply bind_ok in H as ([] & H1%fail_if_ok & H).
    apply bind_ok in H as ([] & H2%fail_if_ok & H). apply bind_ok in H as ([] & H3%fail_if_ok & H).
    apply bind_ok in H as ([] & H4%fail_if_ok & [= <-]). cbn in Hbase. bool_prop.
    rewrite u32_small by word_lia. split_and!; try word_lia.
    + rewrite <- Hmin, Zminus_mod, H1, M1. by apply Z.mod_0_l; lia.
    + destruct Hal as [(k & Hk & Ek) _]. rewrite Ek in *.
      destruct (1 <? 2 ^ k) eqn:E; cbn in H4; bool_prop.
      * apply Z.mod_divide; [lia|done].
      * replace (2 ^ k) with 1 by (pose proof (Z.pow_pos_nonneg 2 k); lia). apply Z.divide_1_l.
Qed.

Lemma Forall2_pairs {A B} (R : A -> A -> Prop) (Q : B -> B -> Prop) (S : A -> B -> Prop) l l' :
  Forall2 S l l' -> ForallOrdPairs R l ->
  (forall a a' b b', S a b -> S a' b' -> R a a' -> Q b b') -> ForallOrdPairs Q l'.
Proof.
  intros HF HR HS. induction HF as [|a b l l' Hab HF IH]; [constructor|].
  inversion_clear HR as [|? ? Ha HR']. constructor; [|by apply IH].
  clear IH HR'. induction HF as [|a' b' l l' Hab' HF IH]; [done|].
  inversion_clear Ha as [|? ? Haa Ha']. constructor; [by eapply HS|by apply IH].
Qed.

Definition segments_disjoint : list PlannedSegment -> Prop :=
  ForallOrdPairs (ranges_disjoint pl_mapping_start mapping_size).

(** What [prepare_load] establishes for the commit. *)
Lemma prepare_load_ok m image options r planned :
  mapped_wf m -> is_bytes image -> from_option is_u32 True options ->
  prepare_load m image options = Ok (r, planned) ->
  Forall (planned_ok (page_size_ m) image) planned /\ segments_disjoint planned /\
  (forall p x, p ∈ planned -> in_range (pl_mapping_start p) (mapping_size p) x ->
     (page_at m x).1 = None) /\
  lr_segments r = loaded_segment <$> planned /\
  exists plan, plan_elf32_load m image = Ok plan /\
    compute_load_bias (page_size m) plan options = Ok (lr_load_bias r) /\
    Forall2 (fun s p => pl_raw p = s /\ pl_guest_address p = seg_virtual_address s + lr_load_bias r)
      (mapped_segments (plan_segments plan)) planned.
Proof.
  intros Hwf Hb Ho H. unfold prepare_load in H.
  apply bind_ok in H as (plan & Hplan & H). apply bind_ok in H as (bias & Hbias & H).
  apply bind_ok in H as (e & _ & H). apply bind_ok in H as (d & _ & H).
  apply bind_ok in H as (rl & _ & H). apply bind_ok in H as (pl & Hpl & H).
  apply bind_ok in H as ([] & Hconf%fail_if_ok & [= <- ->]). cbn.
  pose proof (mw_page_pos m Hwf) as Hps.
  pose proof (plan_elf32_load_wf m image plan Hwf Hb Hplan) as Hpw.
  destruct (compute_load_bias_ok _ _ _ _ _ Hps Hpw Ho Hbias) as (B1 & B2 & _ & _).
  apply mapE_Forall2 in Hpl as HF. pose proof (hw_segments _ _ _ (pw_headers _ _ _ Hpw)) as Hsegs.
  assert (HF' : Forall2 (fun s p => planned_ok (page_size_ m) image p /\ pl_raw p = s /\
            pl_guest_address p = seg_virtual_address s + bias /\
            pl_mapping_start p = seg_mapping_start s + bias /\
            pl_mapping_end p = seg_mapping_end s + bias)
          (mapped_segments (plan_segments plan)) planned).
  { eapply Forall2_impl_elem; [exact HF|]. intros s p [Hne Hs]%list_elem_of_filter _ Hp.
    rewrite Forall_forall in Hsegs. by apply bias_segment_ok; auto. }
  assert (Hok : Forall (planned_ok (page_size_ m) image) planned).
  { apply Forall_forall. intros p Hp. destruct (Forall2_elem_r _ _ _ p HF' Hp) as (s & _ & Hs & _).
    done. }
  split_and!; [done| | |done|].
  - eapply Forall2_pairs; [exact HF'|apply Hpw|].
    intros s s' p p' (P1 & _ & _ & P2 & P3) (Q1 & _ & _ & Q2 & Q3) Hd x.
    unfold in_range, seg_disjoint in *.
    rewrite (mapping_size_eq _ _ _ P1), (mapping_size_eq _ _ _ Q1). lia.
  - intros p x Hp Hx. apply page_at_None. apply not_true_iff_false. intros Hm.
    apply not_true_iff_false in Hconf. apply Hconf. apply existsb_elem. exists p. split; [done|].
    unfold segment_conflicts. apply existsb_elem. rewrite Forall_forall in Hok.
    pose proof (Hok p Hp) as Hpo. unfold in_range in Hx. rewrite (mapping_size_eq _ _ _ Hpo) in Hx.
    destruct Hpo. destruct (align_down_spec x (page_size_ m)) as (A1 & A2 & A3); [word_lia..|].
    exists (align_down x (page_size_ m)). split; [apply page_in_strided; done || lia|].
    rewrite u32_small by word_lia. unfold is_mapped, page_index in *.
    by rewrite align_down_div, Z.div_mul by lia.
  - exists plan. split_and!; try done. eapply Forall2_impl; [exact HF'|]. by intros s p (_ & ? & ? & _).
Qed.

(** ** What the result records *)

(** The declared widths of the members. *)
Definition relro_typed (s : Elf32RelroSegment) : Prop :=
  is_u32 (rs_guest_address s) /\ is_u32 (rs_memory_size s) /\
  is_u32 (rs_mapping_start s) /\ is_u64 (rs_mapping_size s).

(** A RELRO range: whole pages of readable segments around the exact range. *)
Record relro_loaded (ps : Z) (segments : list Elf32LoadedSegment) (s : Elf32RelroSegment) : Prop := {
  rl_typed : relro_typed s;
  rl_nonempty : 0 < rs_memory_size s;
  rl_start_page : rs_mapping_start s mod ps = 0;
  rl_size_page : rs_mapping_size s mod ps = 0;
  rl_exact : rs_mapping_start s <= rs_guest_address s;
  rl_exact_end : rs_guest_address s + rs_memory_size s <= rs_mapping_start s + rs_mapping_size s;
  rl_end : rs_mapping_start s + rs_mapping_size s <= kGuestAddressSpaceSize;
  rl_backed x : in_range (rs_mapping_start s) (rs_mapping_size s) x ->
    exists ls, ls ∈ segments /\ in_range (ls_mapping_start ls) (ls_mapping_size ls) x /\
      has_permission (ls_permissions ls) MemoryPermission.Read = true;
}.

(** No segment is both writable and executable. *)
Record load_result_ok (ps : Z) (r : Elf32LoadResult) : Prop := {
  lo_permissions : Forall (fun s => ls_permissions s ∈ [0; 1; 3; 5]) (lr_segments r);
  lo_relro : Forall (relro_loaded ps (lr_segments r)) (lr_relro_segments r);
}.

Lemma bias_relro_ok ps bias raw s :
  0 < ps -> is_u32 bias -> bias mod ps = 0 -> relro_wf ps raw -> bias_relro bias raw = Ok s ->
  relro_typed s /\ rs_memory_size s = relro_memory_size raw /\
  rs_guest_address s = relro_virtual_address raw + bias /\
  rs_mapping_start s = relro_mapping_start raw + bias /\
  rs_mapping_start s + rs_mapping_size s = relro_mapping_end raw + bias /\
  relro_mapping_end raw + bias <= kGuestAddressSpaceSize.
Proof.
  intros Hps Hb Hbp (R1 & R2 & R3 & R4 & R5) H. unfold bias_relro in H.
  apply bind_ok in H as ([] & H%fail_if_ok & [= <-]).
  rewrite !(u64_small (_ + bias)) in * by word_lia. bool_prop. unfold relro_typed; cbn.
  rewrite !u32_small, (u64_small (_ - _)) by word_lia. split_and!; word_lia.
Qed.

Lemma prepare_load_result m image options r planned :
  mapped_wf m -> is_bytes image -> from_option is_u32 True options ->
  prepare_load m image options = Ok (r, planned) -> load_result_ok (page_size_ m) r.
Proof.
  intros Hwf Hb Ho H. pose proof (prepare_load_ok m image options r planned Hwf Hb Ho H) as (Hok & _ & _ & Hsegs & _).
  rewrite Forall_forall in Hok. unfold prepare_load in H.
  apply bind_ok in H as (plan & Hplan & H). apply bind_ok in H as (bias & Hbias & H).
  apply bind_ok in H as (e & _ & H). apply bind_ok in H as (d & _ & H).
  apply bind_ok in H as (rl & Hrl & H). apply bind_ok in H as (pl & Hpl & H).
  apply bind_ok in H as ([] & _ & [= <- ->]). cbn in *. clear Hsegs.
  pose proof (mw_page_pos m Hwf) as Hps.
  pose proof (plan_elf32_load_wf m image plan Hwf Hb Hplan) as Hpw.
  destruct (compute_load_bias_ok _ _ _ _ _ Hps Hpw Ho Hbias) as (B1 & B2 & _ & _).
  apply mapE_Forall2 in Hpl as HF, Hrl as HR.
  pose proof (pw_relro _ _ _ Hpw) as Hback. pose proof (hw_relro _ _ _ (pw_headers _ _ _ Hpw)) as Hrw.
  pose proof (hw_segments _ _ _ (pw_headers _ _ _ Hpw)) as Hsw.
  rewrite Forall_forall in Hback, Hrw. rewrite Forall_forall in Hsw. split; cbn.
  { apply Forall_fmap, Forall_forall. intros p Hp. apply (po_permissions _ _ _ (Hok p Hp)). }
  apply Forall_forall. intros s Hs. destruct (Forall2_elem_r _ _ _ s HR Hs) as (raw & Hraw & Hbr).
  pose proof (Hrw raw Hraw) as Hw.
  destruct (bias_relro_ok _ _ _ _ Hps B1 B2 Hw Hbr) as (T & E1 & E2 & E3 & E4 & E5).
  destruct Hw as (R1 & R2 & R3 & R4 & R5).
  assert (Hadd : forall z, z mod page_size_ m = 0 -> (z + bias) mod page_size_ m = 0).
  { intros z Hz. by rewrite Zplus_mod, Hz, B2, Z.add_0_l, Z.mod_0_l by lia. }
  split; [done|lia|rewrite E3; auto| |lia|lia|lia|].
  - replace (rs_mapping_size s) with ((relro_mapping_end raw + bias) - (relro_mapping_start raw + bias)) by lia.
    rewrite Zminus_mod, !Hadd by done. by rewrite Z.sub_diag, Z.mod_0_l by lia.
  - unfold in_range. rewrite E4, E3. intros x Hx.
    destruct (Hback raw Hraw (x - bias)) as (ld & Hld & Hne & Hrd & Hin); [lia|].
    assert (Hm : ld ∈ mapped_segments (plan_segments plan)) by by apply list_elem_of_filter.
    destruct (Forall2_elem_l _ _ _ ld HF Hm) as (p & Hp & Hbs).
    destruct (bias_segment_ok _ _ _ _ _ Hps B1 B2 (Hsw ld Hld) Hne Hbs) as (P1 & P2 & _ & P3 & P4).
    exists (loaded_segment p). split; [by apply list_elem_of_fmap_2|]. cbn.
    rewrite (mapping_size_eq _ _ _ P1), P2, P3, P4. split; [lia|done].
Qed.

(** ** The commit loops *)
Lemma write_state_ok ps m a bs m' :
  state_ok ps m -> is_bytes bs -> is_u32 a -> Z.of_nat (length bs) <= span_max ->
  write m a bs = (true, m') -> state_ok ps m'.
Proof.
  intros [Hwf Hps] Hb Ha Hl Hw. split; [by eapply mapped_write_wf|].
  apply write_effect in Hw as [-> _]. done.
Qed.

Lemma zeroes_bytes n : is_bytes (replicate n 0).
Proof. apply Forall_replicate. unfold is_byte. lia. Qed.

(** Zero filling: the chunks cover [z, e) and nothing else. *)
Lemma write_zeroes_ok ps e n z m :
  state_ok ps m -> 0 <= z -> e <= kGuestAddressSpaceSize -> e - z <= Z.of_nat n ->
  (forall x, z <= x < e -> (page_at m x).1 = Some 3) ->
  exists m', seq_ops (write_zero_chunk e) (strided z e kZeroChunkSize) m = (true, m') /\
    state_ok ps m' /\ failures m' = failures m /\
    forall x, page_at m' x = if decide (z <= x < e) then ((page_at m x).1, 0) else page_at m x.
Proof.
  revert z m. induction n as [|n IH]; intros z m Hm Hz He Hn Hpre;
    destruct (decide (z < e)) as [Hlt|Hge]; try lia.
  1, 3: rewrite strided_nil by (done || lia); exists m; cbn; split_and!; try done;
    intros x; by rewrite decide_False by lia.
  rewrite strided_cons by done. cbn [seq_ops]. unfold write_zero_chunk at 1.
  rewrite u32_small by word_lia. set (k := Z.to_nat (Z.min (e - z) kZeroChunkSize)).
  assert (Hk : 0 < Z.of_nat k <= e - z /\ Z.of_nat k <= kZeroChunkSize)
    by (unfold k, kZeroChunkSize; lia).
  assert (Hlen : length (replicate k 0) = k) by apply length_replicate.
  destruct (write_progress m z (replicate k 0)) as [m1 Hw]; rewrite ?Hlen; [apply Hm|word_lia..| |].
  { intros x Hx. apply Hpre. unfold in_range in Hx. lia. }
  rewrite Hw. pose proof (write_effect _ _ _ _ Hw) as (_ & Hcalls & Heff). rewrite Hlen in Heff.
  assert (Hm1 : state_ok ps m1).
  { eapply write_state_ok; [exact Hm|apply zeroes_bytes| | |exact Hw]; rewrite ?Hlen;
      unfold span_max; word_lia. }
  destruct (IH (z + kZeroChunkSize) m1) as (m' & Hseq & Hm' & Hf & Hat); [done|..].
  1-3: unfold kZeroChunkSize in *; lia.
  { intros x Hx. rewrite Heff. unfold in_range, kZeroChunkSize in *. case_decide; [cbn|]; apply Hpre; lia. }
  exists m'. split_and!; [done..| |].
  { rewrite Hf. unfold failures. by rewrite Hcalls. }
  intros x. rewrite Hat, Heff. unfold in_range.
  repeat case_decide; try done; try (exfalso; unfold k, kZeroChunkSize in *; lia).
  unfold byte_at. rewrite lookup_replicate_2 by lia. done.
Qed.

Definition segment_bytes (image : list Z) (p : PlannedSegment) (x : Z) (v : view) : view :=
  (v.1,
   if decide (in_range (pl_guest_address p) (seg_file_size (pl_raw p)) x)
   then byte_at image (seg_offset (pl_raw p) + (x - pl_guest_address p))
   else if decide (in_range (pl_guest_address p) (seg_memory_size (pl_raw p)) x) then 0
   else v.2).

Lemma byte_at_subspan image off n i :
  0 <= off -> 0 <= i < n -> byte_at (subspan image off n) i = byte_at image (off + i).
Proof.
  intros Ho Hi. unfold byte_at, subspan. rewrite lookup_take_lt by lia. rewrite lookup_drop.
  do 2 f_equal. lia.
Qed.

Lemma length_subspan image off n :
  0 <= off -> 0 <= n -> off + n <= image_size image ->
  Z.of_nat (length (subspan image off n)) = n.
Proof. intros. unfold subspan, image_size in *. rewrite length_take, length_drop. lia. Qed.

Lemma write_file_ok ps image p m :
  is_bytes image -> state_ok ps m -> planned_ok ps image p ->
  (forall x, in_range (pl_mapping_start p) (mapping_size p) x -> (page_at m x).1 = Some 3) ->
  exists m1,
    (if seg_file_size (pl_raw p) =? 0 then (true, m)
     else write m (pl_guest_address p)
            (subspan image (seg_offset (pl_raw p)) (seg_file_size (pl_raw p)))) = (true, m1) /\
    state_ok ps m1 /\ failures m1 = failures m /\
    forall x, page_at m1 x =
      if decide (in_range (pl_guest_address p) (seg_file_size (pl_raw p)) x)
      then ((page_at m x).1, byte_at image (seg_offset (pl_raw p) + (x - pl_guest_address p)))
      else page_at m x.
Proof.
  intros Hb Hm Hp Hpre. rewrite (mapping_size_eq _ _ _ Hp) in Hpre. destruct Hp.
  destruct (_ =? 0) eqn:E; bool_prop.
  { exists m. split_and!; try done. intros x. unfold in_range. by rewrite decide_False by lia. }
  pose proof (length_subspan image (seg_offset (pl_raw p)) (seg_file_size (pl_raw p))) as Hl.
  specialize (Hl ltac:(lia) ltac:(lia) ltac:(lia)).
  destruct (write_progress m (pl_guest_address p)
              (subspan image (seg_offset (pl_raw p)) (seg_file_size (pl_raw p)))) as [m1 Hw];
    rewrite ?Hl; [apply Hm|word_lia..| |].
  { intros x Hx. apply Hpre. unfold in_range in *. lia. }
  exists m1. pose proof (write_effect _ _ _ _ Hw) as (_ & Hc & Heff). rewrite Hl in Heff.
  split_and!; [done| |unfold failures; by rewrite Hc|].
  - eapply write_state_ok; [done| | | |exact Hw].
    + by apply Forall_take, Forall_drop.
    + word_lia.
    + rewrite Hl. unfold span_max. word_lia.
  - intros x. rewrite Heff. case_decide as Hx; [|done]. unfold in_range in Hx.
    by rewrite byte_at_subspan by lia.
Qed.

Lemma write_segment_ok ps image p m :
  is_bytes image -> state_ok ps m -> planned_ok ps image p ->
  (forall x, in_range (pl_mapping_start p) (mapping_size p) x -> (page_at m x).1 = Some 3) ->
  exists m', write_segment image p m = (true, m') /\ state_ok ps m' /\ failures m' = failures m /\
    forall x, page_at m' x =
      if decide (in_range (pl_mapping_start p) (mapping_size p) x)
      then segment_bytes image p x (page_at m x) else page_at m x.
Proof.
  intros Hb Hm Hp Hpre. destruct (write_file_ok ps image p m Hb Hm Hp Hpre) as (m1 & Hw & Hm1 & F1 & E1).
  unfold write_segment. rewrite Hw. cbn. rewrite (mapping_size_eq _ _ _ Hp) in *. destruct Hp.
  rewrite !u64_small by word_lia. set (z := pl_guest_address p + seg_file_size (pl_raw p)).
  replace (z + _) with (pl_guest_address p + seg_memory_size (pl_raw p)) by lia.
  set (e := pl_guest_address p + seg_memory_size (pl_raw p)).
  destruct (write_zeroes_ok ps e (Z.to_nat (e - z)) z m1) as (m' & -> & Hm' & F' & E');
    try (subst z e; word_lia); try done.
  { intros x Hx. rewrite E1. case_decide; cbn; apply Hpre; unfold in_range; subst z e; lia. }
  exists m'. split_and!; [done..|congruence|]. intros x. rewrite E', E1.
  unfold segment_bytes, in_range. subst z e.
  repeat case_decide; cbn; done || lia.
Qed.

(** ** Rollback *)
Definition map_only (p : PlannedSegment) (m : t) : bool * t :=
  map m (pl_mapping_start p) (mapping_size p) initialization_permissions.

Definition segment_range (p : PlannedSegment) : Z * Z := (pl_mapping_start p, mapping_size p).

(** The mapping loop keeps the list of what it has mapped. *)
Lemma map_segments_ranges l m rs ok m' rs' :
  seq_ops map_segment l (m, rs) = (ok, (m', rs')) ->
  if ok then seq_ops map_only l m = (true, m') /\ rs' = rs ++ (segment_range <$> l)
  else exists l1 p l2 m1, l = l1 ++ p :: l2 /\ seq_ops map_only l1 m = (true, m1) /\
         map_only p m1 = (false, m') /\ rs' = rs ++ (segment_range <$> l1).
Proof.
  revert m rs; induction l as [|p l IH]; intros m rs H; cbn in H.
  { simplify_eq. cbn. by rewrite app_nil_r. }
  fold (map_only p m) in H. destruct (map_only p m) as [[] m1] eqn:E; cbn in H.
  - apply IH in H. destruct ok.
    + destruct H as [H ->]. cbn. rewrite E, <- app_assoc. done.
    + destruct H as (l1 & q & l2 & m2 & -> & H1 & H2 & ->).
      exists (p :: l1), q, l2, m2. cbn. rewrite E, <- app_assoc. done.
  - simplify_eq. exists [], p, l, m. cbn. by rewrite app_nil_r.
Qed.

Lemma seq_ops_foldl {S A} (op : A -> S -> bool * S) l s s' :
  seq_ops op l s = (true, s') -> foldl (fun s x => snd (op x s)) s l = s'.
Proof.
  revert s; induction l as [|x l IH]; intros s H; cbn in *; [by simplify_eq|].
  destruct (op x s) as [[] s1]; [by apply IH|done].
Qed.

Definition unmap_range (p : PlannedSegment) (m : t) : bool * t :=
  unmap m (pl_mapping_start p) (mapping_size p).

Lemma rollback_foldl m l :
  rollback m (segment_range <$> l) = foldl (fun m p => snd (unmap_range p m)) m (rev l).
Proof.
  unfold rollback. revert m. induction l as [|p l IH] using rev_ind; intros m; [done|].
  rewrite fmap_app, !rev_app_distr. cbn. apply IH.
Qed.

Section commit.
Context (ps : Z) (image : list Z) (planned : list PlannedSegment).
Hypothesis (Hbytes : is_bytes image).
Hypothesis (Hplanned : Forall (planned_ok ps image) planned) (Hdisjoint : segments_disjoint planned).

Lemma planned_elem_range p m :
  planned_ok ps image p -> state_ok ps m ->
  ranged_ok m (pl_mapping_start p) (mapping_size p) /\ no_wrap (mapping_size p).
Proof.
  intros Hp [Hwf Hps].
  assert (Hr : ranged_ok m (pl_mapping_start p) (mapping_size p))
    by (eapply planned_ranged_ok; [done|by rewrite Hps]).
  split; [done|by eapply ranged_ok_no_wrap].
Qed.

Lemma map_only_spec p m ok m' :
  state_ok ps m -> planned_ok ps image p ->
  (forall x, in_range (pl_mapping_start p) (mapping_size p) x -> (page_at m x).1 = None) ->
  map_only p m = (ok, m') ->
  op_post ps pl_mapping_start mapping_size (fun _ _ v => (Some 3, v.2)) p m ok m'.
Proof.
  intros Hm Hp Hpre H. destruct (planned_elem_range p m Hp Hm) as [Hr Hn]. destruct Hm as [Hwf Hps].
  assert (Hsh : perm_shape initialization_permissions) by (unfold perm_shape; cbn; auto).
  destruct (map_progress m _ _ _ ok m' Hwf Hr Hsh Hpre H) as [F1 F2].
  pose proof (map_wf m _ _ initialization_permissions Hwf (proj1 Hr) Hn) as Hwf'.
  unfold map_only in H. rewrite H in Hwf'. cbn in Hwf'. unfold op_post, state_ok. destruct ok.
  - apply map_effect in H as [H1 H2]; [|done|apply Hr|done]. by rewrite H1.
  - apply map_false in H as [H1 _ _]. rewrite H1. auto.
Qed.

Lemma protect_segment_spec p m ok m' :
  state_ok ps m -> planned_ok ps image p ->
  (forall x, in_range (pl_mapping_start p) (mapping_size p) x -> is_Some (page_at m x).1) ->
  protect_segment p m = (ok, m') ->
  op_post ps pl_mapping_start mapping_size (fun p _ v => (Some (seg_permissions (pl_raw p)), v.2))
    p m ok m'.
Proof.
  intros Hm Hp Hpre H. destruct (planned_elem_range p m Hp Hm) as [Hr Hn]. destruct Hm as [Hwf Hps].
  assert (Hsh : perm_shape (seg_permissions (pl_raw p))).
  { pose proof (po_permissions _ _ _ Hp). unfold perm_shape. set_solver. }
  destruct (protect_progress m _ _ _ ok m' Hwf Hr Hsh Hpre H) as [F1 F2].
  pose proof (protect_wf m _ _ (seg_permissions (pl_raw p)) Hwf (proj1 Hr) Hn) as Hwf'.
  unfold protect_segment in H. rewrite H in Hwf'. cbn in Hwf'. unfold op_post, state_ok. destruct ok.
  - apply protect_effect in H as [H1 H2]; [|done|apply Hr|done]. by rewrite H1.
  - apply protect_false in H as [H1 _ _]. rewrite H1. auto.
Qed.

Lemma unmap_range_spec p m ok m' :
  state_ok ps m -> planned_ok ps image p ->
  (forall x, in_range (pl_mapping_start p) (mapping_size p) x -> is_Some (page_at m x).1) ->
  unmap_range p m = (ok, m') ->
  op_post ps pl_mapping_start mapping_size (fun _ _ _ => (None, 0)) p m ok m'.
Proof.
  intros Hm Hp Hpre H. destruct (planned_elem_range p m Hp Hm) as [Hr Hn]. destruct Hm as [Hwf Hps].
  destruct (unmap_progress m _ _ ok m' Hwf Hr Hpre H) as [F1 F2].
  pose proof (unmap_wf m _ (mapping_size p) Hwf (proj1 Hr) Hn) as Hwf'.
  unfold unmap_range in H. rewrite H in Hwf'. cbn in Hwf'. unfold op_post, state_ok. destruct ok.
  - apply unmap_effect in H as [H1 H2]; [|done|apply Hr|done]. by rewrite H1.
  - apply unmap_false in H as [H1 _]; [|done|apply Hr|done]. rewrite H1. auto.
Qed.

Lemma write_segment_spec p m ok m' :
  state_ok ps m -> planned_ok ps image p ->
  (forall x, in_range (pl_mapping_start p) (mapping_size p) x -> (page_at m x).1 = Some 3) ->
  write_segment image p m = (ok, m') ->
  op_post ps pl_mapping_start mapping_size (segment_bytes image) p m ok m'.
Proof.
  intros Hm Hp Hpre H.
  destruct (write_segment_ok ps image p m Hbytes Hm Hp Hpre) as (m1 & H1 & Hm1 & Hf & He).
  rewrite H1 in H. simplify_eq. split_and!; [done|lia|done].
Qed.

(** With no failing host call left, rolling back a list of mapped segments
    unmaps exactly them. *)
Lemma rollback_spec l m :
  state_ok ps m -> Forall (planned_ok ps image) l -> segments_disjoint l ->
  failures m = 0%nat ->
  (forall p x, p ∈ l -> in_range (pl_mapping_start p) (mapping_size p) x -> is_Some (page_at m x).1) ->
  state_ok ps (rollback m (segment_range <$> l)) /\ failures (rollback m (segment_range <$> l)) = 0%nat /\
  forall x, page_at (rollback m (segment_range <$> l)) x =
    match List.find (covers pl_mapping_start mapping_size x) l with
    | Some _ => (None, 0) | None => page_at m x end.
Proof.
  intros Hm Hl Hd Hf Hpre.
  destruct (seq_ops unmap_range (rev l) m) as [ok m'] eqn:E.
  assert (Hd' : ForallOrdPairs (ranges_disjoint pl_mapping_start mapping_size) (rev l)).
  { eapply ForallOrdPairs_perm; [apply _|apply Permutation_rev|done]. }
  destruct (seq_ops_spec ps pl_mapping_start mapping_size unmap_range (fun _ _ _ => (None, 0))
              (fun _ v => is_Some v.1) (planned_ok ps image) unmap_range_spec (rev l) m ok m')
    as (Hm' & F & Heff); try done.
  { by apply Forall_rev. }
  { intros p x Hp. apply Hpre. by apply list_elem_of_In, in_rev, list_elem_of_In. }
  destruct ok; [|lia].
  assert (Hrb : rollback m (segment_range <$> l) = m').
  { by rewrite rollback_foldl, (seq_ops_foldl unmap_range (rev l) m m' E). }
  rewrite Hrb. split; [done|]. split; [lia|]. intros x. rewrite Heff.
  destruct (List.find _ (rev l)) as [p|] eqn:E1, (List.find _ l) as [q|] eqn:E2; try done.
  - apply find_covers_Some in E1 as [Hp Hx]. exfalso. eapply find_covers_None; [exact E2| |exact Hx].
    by apply list_elem_of_In, in_rev, list_elem_of_In.
  - apply find_covers_Some in E2 as [Hp Hx]. exfalso. eapply find_covers_None; [exact E1| |exact Hx].
    apply list_elem_of_In. rewrite <- in_rev. by apply list_elem_of_In.
Qed.

Lemma unmapped_page_at m x : mapped_wf m -> (page_at m x).1 = None -> page_at m x = (None, 0).
Proof.
  intros Hwf Hx. apply page_at_None in Hx as Hu. unfold page_at. rewrite Hu.
  by rewrite (mw_unmapped_zero m Hwf x Hu).
Qed.

Context (m : t).
Hypothesis (Hm : state_ok ps m).
Hypothesis (Hfree : forall p x, p ∈ planned ->
  in_range (pl_mapping_start p) (mapping_size p) x -> (page_at m x).1 = None).

(** The page at [x] of a fully committed load. *)
Definition committed_page (x : Z) : view :=
  match List.find (covers pl_mapping_start mapping_size x) planned with
  | Some p => (Some (seg_permissions (pl_raw p)), (segment_bytes image p x (None, 0)).2)
  | None => page_at m x
  end.

(** Undoing a partial commit that touched only the ranges of [l]. *)
Lemma rollback_restores l m1 :
  state_ok ps m1 -> Forall (planned_ok ps image) l -> segments_disjoint l -> l ⊆ planned ->
  failures m1 = 0%nat ->
  (forall x, match List.find (covers pl_mapping_start mapping_size x) l with
             | Some _ => is_Some (page_at m1 x).1 | None => page_at m1 x = page_at m x end) ->
  let m' := rollback m1 (segment_range <$> l) in
  same_view m m' /\ mapped_wf m' /\ failures m' = 0%nat.
Proof.
  intros Hm1 Hl Hd Hsub Hf Hat m'.
  destruct (rollback_spec l m1 Hm1 Hl Hd Hf) as ([Hwf' Hps'] & Hf' & Hrb).
  { intros p x Hp Hx. specialize (Hat x). by erewrite find_covers_eq in Hat. }
  split; [|done]. apply page_at_same_view; [apply Hm|done|by unfold m'; rewrite Hps', (proj2 Hm)|].
  intros x. unfold m'. rewrite Hrb. specialize (Hat x). destruct (List.find _ l) as [p|] eqn:E; [|done].
  apply find_covers_Some in E as [Hp Hx]. symmetry. apply unmapped_page_at; [apply Hm|].
  by eapply (Hfree p); [apply Hsub|].
Qed.

Lemma segments_disjoint_app l1 l2 : segments_disjoint (l1 ++ l2) -> segments_disjoint l1.
Proof.
  unfold segments_disjoint. induction l1 as [|p l1 IH]; intros Hd; [constructor|].
  inversion_clear Hd as [|? ? Hp Hd']. apply Forall_app in Hp as [Hp _].
  constructor; [done|by apply IH].
Qed.

Definition commit_post (e : option Elf32LoadError.t) (m' : t) : Prop :=
  match e with
  | None => state_ok ps m' /\ (failures m' <= failures m)%nat /\
            forall x, page_at m' x = committed_page x
  | Some err => (err = Elf32LoadError.MapFailed \/ err = Elf32LoadError.ProtectFailed) /\
      (0 < failures m)%nat /\
      (failures m = 1%nat -> same_view m m' /\ mapped_wf m' /\ failures m' = 0%nat)
  end.

Lemma commit_map_failed m1 rs :
  seq_ops map_segment planned (m, []) = (false, (m1, rs)) ->
  commit_post (Some Elf32LoadError.MapFailed) (rollback m1 rs).
Proof.
  intros (l1 & p & l2 & m0 & Epl & H1 & H2 & ->)%map_segments_ranges.
  pose proof Hplanned as HF. pose proof Hdisjoint as Hd. rewrite Epl in HF, Hd.
  apply Forall_app in HF as [HF1 [HFp _]%Forall_cons].
  destruct (seq_ops_spec ps pl_mapping_start mapping_size map_only _ (fun _ v => v.1 = None)
              (planned_ok ps image) map_only_spec l1 m true m0) as (Hm0 & F0 & E0); try done.
  { by eapply segments_disjoint_app. }
  { intros q x Hq. apply Hfree. rewrite Epl. set_solver. }
  assert (Hpre : forall x, in_range (pl_mapping_start p) (mapping_size p) x -> (page_at m0 x).1 = None).
  { intros x Hx. rewrite E0.
    rewrite (find_covers_before _ _ l1 p l2 x) by done. apply (Hfree p); [|done].
    rewrite Epl. set_solver. }
  destruct (map_only_spec p m0 false m1 Hm0 HFp Hpre H2) as (Hm1 & F1 & F2).
  pose proof (map_false _ _ _ _ _ H2) as Hv.
  split; [by left|]. split; [lia|]. intros Hone.
  apply rollback_restores; [done|done|by eapply segments_disjoint_app|set_solver|lia|].
  intros x. rewrite (same_view_page_at m0 m1 x Hv), E0. destruct (List.find _ l1); [by eexists|done].
Qed.

(** After the map and write loops. *)
Lemma commit_written m1 m2 :
  seq_ops map_only planned m = (true, m1) -> seq_ops (write_segment image) planned m1 = (true, m2) ->
  state_ok ps m2 /\ (failures m2 <= failures m)%nat /\
  forall x, page_at m2 x =
    match List.find (covers pl_mapping_start mapping_size x) planned with
    | Some p => (Some 3, (segment_bytes image p x (None, 0)).2) | None => page_at m x end.
Proof.
  intros H1 H2.
  destruct (seq_ops_spec ps pl_mapping_start mapping_size map_only _ (fun _ v => v.1 = None)
              (planned_ok ps image) map_only_spec planned m true m1) as (Hm1 & F1 & E1); try done.
  destruct (seq_ops_spec ps pl_mapping_start mapping_size (write_segment image) _
              (fun _ v => v.1 = Some 3)
              (planned_ok ps image) write_segment_spec planned m1 true m2) as (Hm2 & F2 & E2); try done.
  { intros p x Hp Hx. rewrite E1. by erewrite find_covers_eq by done. }
  split_and!; [done|lia|]. intros x. rewrite E2, E1.
  destruct (List.find _ planned) as [p|] eqn:E; [|done].
  apply find_covers_Some in E as [Hp Hx].
  rewrite (unmapped_page_at m x); [done|apply Hm|by eapply Hfree].
Qed.

Lemma commit_write_total m1 :
  seq_ops map_only planned m = (true, m1) ->
  exists m2, seq_ops (write_segment image) planned m1 = (true, m2).
Proof.
  intros H1.
  destruct (seq_ops_spec ps pl_mapping_start mapping_size map_only _ (fun _ v => v.1 = None)
              (planned_ok ps image) map_only_spec planned m true m1) as (Hm1 & F1 & E1); try done.
  destruct (seq_ops (write_segment image) planned m1) as [[] m2] eqn:H2; [by eexists|].
  apply seq_ops_false in H2 as (l1 & p & l2 & m3 & Epl & H3 & H4). exfalso.
  pose proof Hplanned as HF. pose proof Hdisjoint as Hd. rewrite Epl in HF, Hd.
  apply Forall_app in HF as [HF1 [HFp _]%Forall_cons].
  assert (Hpre : forall q x, q ∈ planned -> in_range (pl_mapping_start q) (mapping_size q) x ->
                   (page_at m1 x).1 = Some 3).
  { intros q x Hq Hx. rewrite E1. by erewrite find_covers_eq by done. }
  destruct (seq_ops_spec ps pl_mapping_start mapping_size (write_segment image) _
              (fun _ v => v.1 = Some 3)
              (planned_ok ps image) write_segment_spec l1 m1 true m3) as (Hm3 & F3 & E3); try done.
  { by eapply segments_disjoint_app. }
  { intros q x Hq. apply Hpre. rewrite Epl. set_solver. }
  destruct (write_segment_ok ps image p m3) as (m4 & H5 & _); try done; [|congruence].
  intros x Hx. rewrite E3, (find_covers_before _ _ l1 p l2 x) by done. apply (Hpre p); [|done].
  rewrite Epl. set_solver.
Qed.

Lemma commit_segments_spec e m' :
  commit_segments m image planned = (e, m') -> commit_post e m'.
Proof.
  unfold commit_segments. destruct (seq_ops map_segment planned (m, [])) as [ok [m1 rs]] eqn:E1.
  destruct ok; cbn; [|intros [= <- <-]; by apply commit_map_failed].
  apply map_segments_ranges in E1 as [E1 ->]. cbn.
  destruct (commit_write_total m1 E1) as [m2 E2]. rewrite E2. cbn.
  destruct (commit_written m1 m2 E1 E2) as (Hm2 & F2 & At2).
  assert (Hpre : forall p x, p ∈ planned -> in_range (pl_mapping_start p) (mapping_size p) x ->
                   is_Some (page_at m2 x).1).
  { intros p x Hp Hx. rewrite At2. erewrite find_covers_eq by done. by eexists. }
  destruct (seq_ops protect_segment planned m2) as [ok m3] eqn:E3.
  destruct (seq_ops_spec ps pl_mapping_start mapping_size protect_segment _ (fun _ v => is_Some v.1)
              (planned_ok ps image) protect_segment_spec planned m2 ok m3) as (Hm3 & F3 & At3); try done.
  destruct ok; cbn; intros [= <- <-].
  - split; [done|]. split; [lia|]. intros x. rewrite At3, At2. unfold committed_page.
    by destruct (List.find _ planned).
  - split; [by right|]. split; [lia|]. intros Hone.
    apply rollback_restores; [done..|lia|].
    apply seq_ops_false in E3 as (l1 & p & l2 & m4 & Epl & H4 & H5).
    pose proof Hplanned as HF. pose proof Hdisjoint as Hd. rewrite Epl in HF, Hd.
    apply Forall_app in HF as [HF1 _].
    destruct (seq_ops_spec ps pl_mapping_start mapping_size protect_segment _ (fun _ v => is_Some v.1)
              (planned_ok ps image) protect_segment_spec l1 m2 true m4) as (Hm4 & F4 & At4); try done.
    { by eapply segments_disjoint_app. }
    { intros q x Hq. apply Hpre. rewrite Epl. set_solver. }
    intros x. rewrite (same_view_page_at m4 m3 x) by by eapply protect_false.
    rewrite At4, At2. destruct (List.find _ l1) as [q|] eqn:Ef.
    + apply find_covers_Some in Ef as [Hq Hx]. rewrite (find_covers_eq _ _ planned x q Hdisjoint); [by eexists| |done].
      rewrite Epl. apply elem_of_app. by left.
    + destruct (List.find _ planned); [by eexists|done].
Qed.
End commit.

(** ** [load_elf32] *)

(** What the caller sees of one PT_LOAD [s] loaded as [ls] into [m']. *)
Record segment_loaded (image : list Z) (bias : Z) (m' : t)
    (s : Elf32LoadPlanSegment) (ls : Elf32LoadedSegment) : Prop := {
  sl_address : ls_guest_address ls = seg_virtual_address s + bias;
  sl_alignment : 1 < seg_alignment s ->
    ls_guest_address ls mod seg_alignment s = seg_offset s mod seg_alignment s;
  sl_permissions : ls_permissions ls = seg_permissions s;
  sl_range : ls_mapping_start ls <= ls_guest_address ls /\
    ls_guest_address ls + seg_memory_size s <= ls_mapping_start ls + ls_mapping_size ls;
  sl_contents : forall x, in_range (ls_mapping_start ls) (ls_mapping_size ls) x ->
    page_at m' x =
      (Some (seg_permissions s),
       if decide (in_range (ls_guest_address ls) (seg_file_size s) x)
       then byte_at image (seg_offset s + (x - ls_guest_address ls)) else 0);
}.

Lemma Forall2_with_Forall_r {A B} (P : A -> B -> Prop) (Q : B -> Prop) l l' :
  Forall2 P l l' -> Forall Q l' -> Forall2 (fun x y => P x y /\ Q y) l l'.
Proof.
  intros HF HQ. eapply Forall2_impl_elem; [exact HF|]. rewrite Forall_forall in HQ. auto.
Qed.

Lemma congruence_biased va off al bias :
  0 < al -> (al | bias) -> va mod al = off mod al -> (va + bias) mod al = off mod al.
Proof. intros Hal (k & ->) He. by rewrite Z.mod_add by lia. Qed.

Lemma load_elf32_inv m image options r m' :
  mapped_wf m -> is_bytes image -> from_option is_u32 True options ->
  load_elf32 m image options = (r, m') ->
  match r with
  | Ok r => exists planned, prepare_load m image options = Ok (r, planned) /\
              mapped_wf m' /\ page_size_ m' = page_size_ m /\ (failures m' <= failures m)%nat /\
              forall x, page_at m' x = committed_page image planned m x
  | Err e => (prepare_load m image options = Err e /\ m' = m) \/
             (0 < failures m)%nat /\
             (failures m = 1%nat -> same_view m m' /\ mapped_wf m' /\ failures m' = 0%nat)
  end.
Proof.
  intros Hwf Hb Ho H. unfold load_elf32 in H.
  destruct (prepare_load m image options) as [[r0 planned]|e] eqn:Ep; [|simplify_eq; by left].
  destruct (prepare_load_ok m image options r0 planned Hwf Hb Ho Ep) as (Hok & Hd & Hfree & _).
  destruct (commit_segments m image planned) as [e m1] eqn:Ec.
  pose proof (commit_segments_spec (page_size_ m) image planned Hb Hok Hd m
                (conj Hwf eq_refl) Hfree e m1 Ec) as Hpost.
  destruct e as [e|]; cbn in Hpost; simplify_eq.
  - right. tauto.
  - destruct Hpost as ([Hwf' Hps'] & Hf' & Hat). exists planned. done.
Qed.

(** Every planned PT_LOAD is in memory after a successful load. *)
Lemma load_elf32_loaded m image options r m' :
  mapped_wf m -> is_bytes image -> from_option is_u32 True options ->
  load_elf32 m image options = (Ok r, m') ->
  exists plan, plan_elf32_load m image = Ok plan /\
    Forall2 (segment_loaded image (lr_load_bias r) m')
      (mapped_segments (plan_segments plan)) (lr_segments r).
Proof.
  intros Hwf Hb Ho H. pose proof (load_elf32_inv _ _ _ _ _ Hwf Hb Ho H) as (pl & Hp & Hwf' & _ & _ & Hat).
  destruct (prepare_load_ok m image options r pl Hwf Hb Ho Hp)
    as (Hok & Hd & Hfree & Hsegs & plan & Hplan & Hbias & HF).
  rewrite Hsegs. exists plan. split; [done|].
  pose proof (plan_elf32_load_wf m image plan Hwf Hb Hplan) as Hpw.
  destruct (compute_load_bias_ok _ _ _ _ _ (mw_page_pos m Hwf) Hpw Ho Hbias) as (_ & _ & Hdiv & _).
  apply Forall2_fmap_r. eapply Forall2_impl_elem; [exact (Forall2_with_Forall_r _ _ _ _ HF Hok)|].
  intros s p [Hne Hs]%list_elem_of_filter Hpl ((Hraw & Hga) & Hpo).
  pose proof (hw_segments _ _ _ (pw_headers _ _ _ Hpw)) as Hsw. rewrite Forall_forall in Hsw.
  destruct (hw_bias _ _ _ (pw_headers _ _ _ Hpw)) as (_ & _ & Hal).
  split; cbn; rewrite ?(mapping_size_eq _ _ _ Hpo); try (destruct Hpo; subst s; lia || done).
  + intros H1. rewrite Hga. apply congruence_biased; [lia| |].
    * transitivity (plan_required_load_bias_alignment plan); [by apply Hal|done].
    * by apply (sw_alignment _ _ _ (Hsw s Hs)).
  + intros x Hx. rewrite Hat. unfold committed_page.
    rewrite <- (mapping_size_eq _ _ _ Hpo) in Hx.
    rewrite (find_covers_eq _ _ pl x p Hd Hpl Hx). unfold segment_bytes; cbn. rewrite Hraw.
    repeat case_decide; done.
Qed.

(** The recorded PT_DYNAMIC is the planned one at the bias. *)
Definition dynamic_at (plan : Elf32LoadPlan) (bias : Z) : option Elf32DynamicSegment :=
  (fun d => {| ds_guest_address := dyn_virtual_address d + bias; ds_file_size := dyn_file_size d;
               ds_memory_size := dyn_memory_size d |}) <$> plan_dynamic_segment plan.

Lemma load_elf32_dynamic m image options r m' :
  mapped_wf m -> is_bytes image -> from_option is_u32 True options ->
  load_elf32 m image options = (Ok r, m') ->
  exists plan, plan_elf32_load m image = Ok plan /\ is_u32 (lr_load_bias r) /\
    lr_dynamic_segment r = dynamic_at plan (lr_load_bias r) /\
    forall d, lr_dynamic_segment r = Some d -> is_u32 (ds_guest_address d).
Proof.
  intros Hwf Hb Ho H. destruct (load_elf32_inv _ _ _ _ _ Hwf Hb Ho H) as (pl & Hp & _).
  unfold prepare_load in Hp. apply bind_ok in Hp as (plan & Hplan & Hp). exists plan. split; [done|].
  apply bind_ok in Hp as (bias & Hbias & Hp). apply bind_ok in Hp as (e & _ & Hp).
  apply bind_ok in Hp as (d & Hd & Hp). apply bind_ok in Hp as (rl & _ & Hp).
  apply bind_ok in Hp as (l & _ & Hp). apply bind_ok in Hp as ([] & _ & [= <- _]). cbn.
  pose proof (plan_elf32_load_wf m image plan Hwf Hb Hplan) as Hpw.
  destruct (compute_load_bias_ok _ _ _ _ _ (mw_page_pos m Hwf) Hpw Ho Hbias) as (B1 & _).
  split; [done|]. unfold bias_dynamic, dynamic_at in *.
  destruct (plan_dynamic_segment plan) as [y|] eqn:Ey; [|by injection Hd as <-].
  destruct (hw_dynamic _ _ _ (pw_headers _ _ _ Hpw) y Ey) as (_ & D1 & _ & D2 & _ & D3).
  apply bind_ok in Hd as ([] & G%fail_if_ok & [= <-]). rewrite (u64_small (_ + bias)) in * by word_lia.
  bool_prop. cbn. rewrite u32_small by word_lia. split; [done|]. intros ? [= <-]. cbn. word_lia.
Qed.

Lemma load_elf32_result m image options r m' :
  mapped_wf m -> is_bytes image -> from_option is_u32 True options ->
  load_elf32 m image options = (Ok r, m') -> load_result_ok (page_size_ m) r.
Proof.
  intros Hwf Hb Ho H. destruct (load_elf32_inv _ _ _ _ _ Hwf Hb Ho H) as (pl & Hp & _).
  by eapply prepare_load_result.
Qed.

(** C1: a successful [load_elf32] maps exactly the planned PT_LOADs: each one at
    its virtual address plus the load bias, congruent with its file offset modulo
    p_align, with its final permissions, holding its file bytes at the right
    addresses and zeroes everywhere else on its pages (.bss and page padding);
    every other address keeps its mapping, permissions and bytes. No segment is
    writable and executable at once, and the RELRO ranges it reports are whole
    pages of readable segments. *)
Theorem load_elf32_success m image options r m' :
  mapped_wf m -> is_bytes image -> from_option is_u32 True options ->
  load_elf32 m image options = (Ok r, m') ->
  mapped_wf m' /\ load_result_ok (page_size_ m) r /\
  (exists plan, plan_elf32_load m image = Ok plan /\
     Forall2 (segment_loaded image (lr_load_bias r) m')
       (mapped_segments (plan_segments plan)) (lr_segments r)) /\
  (forall x, (forall ls, ls ∈ lr_segments r ->
       ~ in_range (ls_mapping_start ls) (ls_mapping_size ls) x) -> page_at m' x = page_at m x).
Proof.
  intros Hwf Hb Ho H. pose proof (load_elf32_inv _ _ _ _ _ Hwf Hb Ho H) as (pl & Hp & Hwf' & _ & _ & Hat).
  destruct (prepare_load_ok m image options r pl Hwf Hb Ho Hp) as (_ & _ & _ & Hsegs & _).
  split; [done|]. split; [by eapply load_elf32_result|]. split; [by eapply load_elf32_loaded|].
  rewrite Hsegs. intros x Hx. rewrite Hat. unfold committed_page.
  destruct (List.find _ pl) as [p|] eqn:E; [exfalso|done].
  apply find_covers_Some in E as [Hp' Hin]. apply (Hx (loaded_segment p)); [|done].
  apply list_elem_of_fmap. by exists p.
Qed.

Lemma load_elf32_success_witness :
  exists r m', load_elf32 empty_memory demo_image (Some 65536) = (Ok r, m') /\
    read m' 73984 4 = Some [1; 2; 3; 4] /\ mapped_wf m'.
Proof.
  assert (Hok : is_ok (load_elf32 empty_memory demo_image (Some 65536)).1 = true)
    by (vm_compute; reflexivity).
  assert (Hread : read (load_elf32 empty_memory demo_image (Some 65536)).2 73984 4 = Some [1; 2; 3; 4])
    by (vm_compute; reflexivity).
  destruct (load_elf32 empty_memory demo_image (Some 65536)) as [[r|e] m'] eqn:E; [|discriminate Hok].
  exists r, m'. split; [done|]. split; [exact Hread|].
  refine (proj1 (load_elf32_success empty_memory demo_image (Some 65536) r m' _ _ _ E)).
  - exact empty_memory_wf.
  - apply is_bytes_forallb. vm_compute. reflexivity.
  - vm_compute. split; congruence.
Defined.

(** C2: a failing [load_elf32] has no lasting effect. Without host failures every
    error is decided before the first mutation, so the commit phase (map, write,
    protect) cannot fail and the memory is untouched; and if exactly one host
    call fails, the rollback restores every mapping, permission and byte. *)
Theorem load_elf32_failure_atomic m image options e m' :
  mapped_wf m -> is_bytes image -> from_option is_u32 True options ->
  load_elf32 m image options = (Err e, m') ->
  (failures m = 0%nat -> prepare_load m image options = Err e /\ m' = m) /\
  ((failures m <= 1)%nat -> same_view m m').
Proof.
  intros Hwf Hb Ho H. apply load_elf32_inv in H as [[H ->]|[H1 H2]]; try done.
  split; intros Hf; [lia|]. apply H2. lia.
Qed.

(** Witness: the second segment's [map] hits a failing host call. *)
Lemma load_elf32_failure_atomic_witness :
  let m := mk 65536 4096 ∅ ∅ ∅ [HostOk; HostFail 1] in
  exists m', load_elf32 m demo_image (Some 65536) = (Err Elf32LoadError.MapFailed, m') /\
    same_view m m'.
Proof.
  intros m. assert (Hr : (load_elf32 m demo_image (Some 65536)).1 = Err Elf32LoadError.MapFailed)
    by (vm_compute; reflexivity).
  destruct (load_elf32 m demo_image (Some 65536)) as [r m'] eqn:E. cbn in Hr. subst r.
  exists m'. split; [done|].
  refine (proj2 (load_elf32_failure_atomic m demo_image (Some 65536)
                   Elf32LoadError.MapFailed m' _ _ _ E) _).
  - by apply (mapped_make_wf 4096 (Some 65536) [HostOk; HostFail 1]).
  - apply is_bytes_forallb. vm_compute. reflexivity.
  - vm_compute. split; congruence.
  - vm_compute. lia.
Defined.
