(* ===== verification/Placement.v ===== *)
(** * Placement of ET_DYN images ([src/src/elf/elf32_dynamic_placement.h],
      [src/src/elf/loading/elf32_dynamic_placement.cpp])

    [place_elf32_dynamic] picks a free base for a shared object; the main
    theorem says that loading there cannot run into a placement error. *)

From S2P Require Import Prelude Bytes GuestMemory MappedMemory AddressView VaAllocator LoadPlan Loader.
From Stdlib Require Import Zpow_facts Znumtheory.

Import MappedGuestMemory.

Record Elf32DynamicPlacementOptions := {
  search_begin : Z;
  search_end_exclusive : Z;
}.

Definition default_placement_options : Elf32DynamicPlacementOptions :=
  {| search_begin := 0x10000; search_end_exclusive := kGuestAddressSpaceSize |}.

Module Elf32DynamicPlacementError.
Inductive t : Set :=
| None | InvalidImage | NotDynamic | InvalidSearchWindow | AddressOverflow | NoSpace.

Definition to_string (error : t) : string :=
  match error with
  | None => "none"
  | InvalidImage => "invalid_image"
  | NotDynamic => "not_dynamic"
  | InvalidSearchWindow => "invalid_search_window"
  | AddressOverflow => "address_overflow"
  | NoSpace => "no_space"
  end.
End Elf32DynamicPlacementError.

(** [error] with the [load_error] detail. *)
Definition placement_failure : Type := Elf32DynamicPlacementError.t * Elf32LoadError.t.

Definition translate_search_error (error : GuestVaSearchError.t) : placement_failure :=
  match error with
  | GuestVaSearchError.InvalidRange => (Elf32DynamicPlacementError.NoSpace, Elf32LoadError.None)
  | GuestVaSearchError.InvalidAlignment
  | GuestVaSearchError.SizeOverflow =>
      (Elf32DynamicPlacementError.AddressOverflow, Elf32LoadError.None)
  | GuestVaSearchError.NoSpace => (Elf32DynamicPlacementError.NoSpace, Elf32LoadError.None)
  | GuestVaSearchError.None => (Elf32DynamicPlacementError.AddressOverflow, Elf32LoadError.None)
  end.

(** The search the planner asks for, and its span. *)
Definition placement_search (page_size : Z) (plan : Elf32LoadPlan)
    (options : Elf32DynamicPlacementOptions)
    : result placement_failure (Z * GuestVaSearchOptions) :=
  fail_if (plan_maximum_page_end plan <=? plan_minimum_page plan)
    (Elf32DynamicPlacementError.AddressOverflow, Elf32LoadError.None) ;;
  let span := plan_maximum_page_end plan - plan_minimum_page plan in
  let align := Z.max page_size (plan_required_load_bias_alignment plan) in
  let effective_begin := Z.max (search_begin options) (plan_minimum_page plan) in
  fail_if ((search_end_exclusive options <=? effective_begin) || (UINT32_MAX <? effective_begin))
    (Elf32DynamicPlacementError.NoSpace, Elf32LoadError.None) ;;
  Ok (span, {| begin_ := u32 effective_begin;
               end_exclusive := search_end_exclusive options;
               alignment := align;
               alignment_offset := plan_minimum_page plan mod align |}).

Definition place_elf32_dynamic (m : t) (image : list Z) (options : Elf32DynamicPlacementOptions)
    : result placement_failure Z :=
  fail_if ((kGuestAddressSpaceSize <? search_end_exclusive options)
           || (search_end_exclusive options <=? search_begin options))
    (Elf32DynamicPlacementError.InvalidSearchWindow, Elf32LoadError.None) ;;
  plan ← map_err (fun e => (Elf32DynamicPlacementError.InvalidImage, e)) (plan_elf32_load m image);
  fail_if (match plan_type plan with Dynamic => false | Executable => true end)
    (Elf32DynamicPlacementError.NotDynamic, Elf32LoadError.None) ;;
  search ← placement_search (page_size m) plan options;
  map_err translate_search_error (find_free_guest_range m search.1 search.2).

(** ** A placed image loads *)
Lemma page_size_pow2 m : mapped_wf m -> is_pow2 (page_size_ m).
Proof.
  intros Hwf. pose proof (mw_page_pos m Hwf) as Hps.
  assert (Hd : (page_size_ m | 2 ^ 32)) by (apply Z.mod_divide; [lia|apply Hwf]).
  destruct (Zdivide_power_2 (page_size_ m) 2 32) as [k Hk]; [lia..|apply prime_2|done|].
  exists k. split; [|done]. destruct (Z.lt_ge_cases k 0) as [Hlt|]; [|done].
  rewrite Z.pow_neg_r in Hk by done. lia.
Qed.

Lemma pow2_pos z : is_pow2 z -> 0 < z.
Proof. intros (k & Hk & ->). by apply Z.pow_pos_nonneg. Qed.

Lemma max_pow2 a b : is_pow2 a -> is_pow2 b -> is_pow2 (Z.max a b) /\ (a | Z.max a b) /\ (b | Z.max a b).
Proof.
  intros Ha Hb. assert (Hm : is_pow2 (Z.max a b)).
  { by destruct (Z.max_spec a b) as [[_ ->]|[_ ->]]. }
  split; [done|]. split; apply pow2_divide; done || lia.
Qed.

(** What the chosen base satisfies. *)
Lemma place_elf32_dynamic_ok m image options base :
  mapped_wf m -> is_bytes image ->
  is_u32 (search_begin options) -> is_u64 (search_end_exclusive options) ->
  place_elf32_dynamic m image options = Ok base ->
  exists plan, plan_elf32_load m image = Ok plan /\ plan_type plan = Dynamic /\
    is_u32 base /\ plan_minimum_page plan <= base /\ search_begin options <= base /\
    (Z.max (page_size m) (plan_required_load_bias_alignment plan) | base - plan_minimum_page plan) /\
    base + (plan_maximum_page_end plan - plan_minimum_page plan) <= search_end_exclusive options /\
    search_end_exclusive options <= kGuestAddressSpaceSize /\
    va_free m base (plan_maximum_page_end plan - plan_minimum_page plan).
Proof.
  intros Hwf Hb Hsb Hse H. unfold place_elf32_dynamic in H.
  apply bind_ok in H as ([] & H1%fail_if_ok & H). apply bind_ok in H as (plan & H2%map_err_ok & H).
  apply bind_ok in H as ([] & H3%fail_if_ok & H). apply bind_ok in H as ([span o] & H4 & H).
  apply map_err_ok in H. cbn in H. unfold placement_search in H4.
  apply bind_ok in H4 as ([] & H5%fail_if_ok & H4). apply bind_ok in H4 as ([] & H6%fail_if_ok & [= <- <-]).
  bool_prop. exists plan.
  pose proof (plan_elf32_load_wf m image plan Hwf Hb H2) as Hpw.
  destruct (pw_minimum _ _ _ Hpw) as (s & Hs & Hne & Hmin).
  pose proof (hw_segments _ _ _ (pw_headers _ _ _ Hpw)) as Hsw. rewrite Forall_forall in Hsw.
  destruct (sw_mapping _ _ _ (Hsw s Hs) Hne) as (M1 & _ & M3 & _).
  destruct (hw_bias _ _ _ (pw_headers _ _ _ Hpw)) as (Hp2 & Hlt & _).
  destruct (max_pow2 _ _ (page_size_pow2 m Hwf) Hp2) as (Hm2 & Hd1 & Hd2).
  unfold page_size in *. set (al := Z.max (page_size_ m) _) in *.
  pose proof (page_size_le m Hwf) as Hple. unfold page_size in Hple.
  assert (Hal : 0 < al) by by apply pow2_pos. assert (Hal32 : al <= 2 ^ 32) by (subst al; word_lia).
  assert (Hmax : plan_maximum_page_end plan <= kGuestAddressSpaceSize).
  { destruct (proj2 (proj2 (hw_extent _ _ _ (pw_headers _ _ _ Hpw)))) as [->|(u & Hu & Hnu & <-)];
      [word_lia|]. destruct (sw_mapping _ _ _ (Hsw u Hu) Hnu) as (_ & _ & _ & _ & ? & _). lia. }
  rewrite u32_small in H by word_lia.
  pose proof (Z.mod_pos_bound (plan_minimum_page plan) al Hal) as Hmb.
  assert (Ht : search_typed (plan_maximum_page_end plan - plan_minimum_page plan)
                {| begin_ := Z.max (search_begin options) (plan_minimum_page plan);
                   end_exclusive := search_end_exclusive options; alignment := al;
                   alignment_offset := plan_minimum_page plan mod al |}).
  { unfold search_typed; cbn. split_and!; word_lia. }
  pose proof (find_free_args m _ _ Hwf Ht) as Hargs. rewrite H in Hargs.
  pose proof (find_free_correct m _ _ Hwf Hargs) as Hpost. rewrite H in Hpost.
  destruct Hpost as ((Hc1 & Hc2 & Hc3) & Hfree & _). cbn in *.
  split_and!; try done; try word_lia.
  - by destruct (plan_type plan).
  - apply Z.mod_divide; [lia|]. rewrite Zminus_mod, Hc2, Z.mod_mod, Z.sub_diag by lia. by apply Z.mod_0_l; lia.
Qed.

Section placed.
Context (m : t) (image : list Z) (plan : Elf32LoadPlan) (base : Z).
Hypothesis (Hwf : mapped_wf m) (Hplan : plan_wf (page_size m) image plan).
Hypothesis (Hbase : is_u32 base) (Hmin : plan_minimum_page plan <= base).

Let bias := base - plan_minimum_page plan.
Hypothesis (Hend : plan_maximum_page_end plan + bias <= kGuestAddressSpaceSize).

Lemma plan_extent s :
  s ∈ plan_segments plan -> seg_memory_size s <> 0 ->
  segment_wf (page_size m) image s /\
  plan_minimum_page plan <= seg_mapping_start s /\ seg_mapping_end s <= plan_maximum_page_end plan.
Proof.
  intros Hs Hne. pose proof (hw_segments _ _ _ (pw_headers _ _ _ Hplan)) as Hsw.
  rewrite Forall_forall in Hsw. split; [by apply Hsw|].
  by apply (proj1 (proj2 (hw_extent _ _ _ (pw_headers _ _ _ Hplan)))).
Qed.

Lemma bias_bounds : 0 <= bias /\ 0 <= plan_minimum_page plan /\ bias < 2 ^ 32.
Proof.
  destruct (pw_minimum _ _ _ Hplan) as (s & Hs & Hne & Hm).
  destruct (plan_extent s Hs Hne) as (Hsw & _ & _).
  destruct (sw_mapping _ _ _ Hsw Hne) as (_ & _ & ? & _). unfold bias. word_lia.
Qed.

Lemma bias_dynamic_total : exists d, bias_dynamic plan bias = Ok d.
Proof.
  unfold bias_dynamic. destruct (plan_dynamic_segment plan) as [d|] eqn:Ed; [|by eexists].
  destruct (pw_dynamic _ _ _ Hplan d Ed) as (s & Hs & _ & Hlo & Hhi & _).
  destruct (hw_dynamic _ _ _ (pw_headers _ _ _ Hplan) d Ed) as (_ & Hu & Hm & _).
  pose proof bias_bounds.
  destruct (decide (seg_memory_size s = 0)) as [Hz|Hne]; [lia|].
  destruct (plan_extent s Hs Hne) as (Hsw & _ & He).
  destruct (sw_mapping _ _ _ Hsw Hne) as (_ & _ & _ & _ & ? & _).
  rewrite !u64_small by (rewrite ?u64_small; word_lia). eexists.
  apply bind_ok. exists tt. split; [|reflexivity]. apply fail_if_ok.
  apply orb_false_iff. rewrite !Z.ltb_ge. word_lia.
Qed.

Lemma bias_relros_total : exists l, mapE (bias_relro bias) (plan_relro_segments plan) = Ok l.
Proof.
  pose proof (pw_relro _ _ _ Hplan) as Hb. pose proof (hw_relro _ _ _ (pw_headers _ _ _ Hplan)) as Hr.
  pose proof bias_bounds.
  induction (plan_relro_segments plan) as [|r l IH]; [by eexists|].
  apply Forall_cons in Hb as [Hb1 Hb]. apply Forall_cons in Hr as [Hr1 Hr].
  destruct (IH Hb Hr) as [l' Hl']. cbn. destruct Hr1 as (R1 & R2 & R3 & R4 & R5).
  destruct (Hb1 (relro_mapping_end r - 1)) as (s & Hs & Hne & _ & ?); [lia|].
  destruct (plan_extent s Hs Hne) as (Hsw & _ & He).
  rewrite Hl'. unfold bias_relro. rewrite !(u64_small (_ + bias)) by word_lia.
  rewrite (proj2 (orb_false_iff _ _)); [by eexists|].
  split; [apply orb_false_iff|]; rewrite ?Z.ltb_ge; word_lia.
Qed.

Lemma bias_segments_total :
  exists l, mapE (bias_segment bias) (mapped_segments (plan_segments plan)) = Ok l /\
    forall p, p ∈ l -> base <= pl_mapping_start p /\
      pl_mapping_end p <= base + (plan_maximum_page_end plan - plan_minimum_page plan).
Proof.
  assert (Hall : forall s, s ∈ mapped_segments (plan_segments plan) ->
            s ∈ plan_segments plan /\ seg_memory_size s <> 0).
  { intros s [? ?]%list_elem_of_filter. done. }
  pose proof bias_bounds as Hbb.
  induction (mapped_segments (plan_segments plan)) as [|s l IH].
  { exists []. split; [done|]. intros p Hp. by apply not_elem_of_nil in Hp. }
  destruct IH as (l' & Hl' & Hrng). { intros. apply Hall. by right. }
  destruct (Hall s) as [Hs Hne]; [by left|]. destruct (plan_extent s Hs Hne) as (Hsw & Hlo & Hhi).
  destruct (sw_mapping _ _ _ Hsw Hne) as (_ & _ & ? & _ & ? & _). destruct Hsw as [_ Hva Hfs _ Hsp _ _ _].
  cbn [mapE]. rewrite Hl'. unfold bias_segment. rewrite !(u64_small (_ + bias)) by word_lia.
  rewrite (proj2 (orb_false_iff _ _)).
  - cbn. eexists. split; [reflexivity|].
    intros p [->|Hp]%elem_of_cons; [|by apply Hrng]. cbn. rewrite u32_small by word_lia.
    unfold bias. lia.
  - split; [apply orb_false_iff|]; rewrite ?Z.ltb_ge; unfold bias in *; word_lia.
Qed.

Lemma compute_load_bias_placed :
  plan_type plan = Dynamic ->
  (Z.max (page_size m) (plan_required_load_bias_alignment plan) | bias) ->
  compute_load_bias (page_size m) plan (Some base) = Ok bias.
Proof.
  intros Htype Hdiv. pose proof bias_bounds as (B1 & B2 & B3).
  destruct (hw_bias _ _ _ (pw_headers _ _ _ Hplan)) as (Hp2 & _ & _).
  destruct (max_pow2 _ _ (page_size_pow2 m Hwf) Hp2) as (_ & Hd1 & Hd2).
  destruct (pw_minimum _ _ _ Hplan) as (s & Hs & Hne & Hms).
  destruct (plan_extent s Hs Hne) as (Hsw & _ & _).
  destruct (sw_mapping _ _ _ Hsw Hne) as (M1 & _). pose proof (mw_page_pos m Hwf) as Hps.
  unfold page_size in *.
  assert (Hpb : (page_size_ m | base)).
  { replace base with (plan_minimum_page plan + bias) by (unfold bias; lia).
    apply Z.divide_add_r; [|by transitivity (Z.max (page_size_ m) (plan_required_load_bias_alignment plan))].
    rewrite <- Hms. apply Z.mod_divide; [lia|done]. }
  assert (Hab : (plan_required_load_bias_alignment plan | bias))
    by by transitivity (Z.max (page_size_ m) (plan_required_load_bias_alignment plan)).
  unfold compute_load_bias. rewrite Htype. cbn. fold bias.
  apply Z.mod_divide in Hpb, Hab; [|pose proof (pow2_pos _ Hp2); lia..].
  rewrite Hpb, Hab, andb_false_r. cbn. rewrite (proj2 (Z.ltb_ge base _)) by lia. cbn.
  rewrite (proj2 (orb_false_iff _ _)) by (rewrite !Z.ltb_ge; word_lia). cbn.
  by rewrite u32_small by word_lia.
Qed.
End placed.

(** The pages of segments inside a free range do not conflict. *)
Lemma free_no_conflict m base span pl :
  mapped_wf m -> is_u32 base -> base + span <= kGuestAddressSpaceSize -> va_free m base span ->
  (forall p, p ∈ pl -> base <= pl_mapping_start p /\ pl_mapping_end p <= base + span) ->
  existsb (segment_conflicts m) pl = false.
Proof.
  intros Hwf Hbase Hfit Hfree Hrng. pose proof (mw_page_pos m Hwf) as Hps.
  apply not_true_iff_false. intros (p & Hp & Hc)%existsb_elem. destruct (Hrng p Hp) as [R1 R2].
  apply existsb_elem in Hc as (x & (i & Hi & -> & Hx)%elem_of_strided & Hc); [|done].
  unfold page_size in *. rewrite u32_small in Hc by (split; word_lia || nia).
  rewrite Hfree in Hc; [done|nia].
Qed.

(** C37: a base chosen by [place_elf32_dynamic] can be loaded at: on the same
    memory, with no host failure, [load_elf32] there either succeeds or reports
    [EntryAddressOverflow] (the ELF entry point itself leaves the address space
    when biased). In particular the base is page- and p_align-compatible, the
    bias does not overflow, and no planned page is already mapped. *)
Theorem placed_image_loads m image options base :
  mapped_wf m -> is_bytes image ->
  is_u32 (search_begin options) -> is_u64 (search_end_exclusive options) ->
  failures m = 0%nat ->
  place_elf32_dynamic m image options = Ok base ->
  match (load_elf32 m image (Some base)).1 with
  | Ok r => exists plan, plan_elf32_load m image = Ok plan /\
              lr_load_bias r = base - plan_minimum_page plan
  | Err e => e = Elf32LoadError.EntryAddressOverflow
  end.
Proof.
  intros Hwf Hb Hsb Hse Hf H.
  apply place_elf32_dynamic_ok in H as (plan & Hplan & Htype & Hbase & Hmin & _ & Hdiv & Hend & Hse' & Hfree);
    [|done..].
  pose proof (plan_elf32_load_wf m image plan Hwf Hb Hplan) as Hpw.
  set (bias := base - plan_minimum_page plan) in *.
  assert (Hfit : plan_maximum_page_end plan + bias <= kGuestAddressSpaceSize) by (unfold bias; lia).
  pose proof (compute_load_bias_placed m image plan base Hwf Hpw Hbase Hmin Hfit Htype Hdiv) as Hcb.
  fold bias in Hcb.
  destruct (bias_dynamic_total m image plan base Hpw Hbase Hmin Hfit) as [d Hd].
  destruct (bias_relros_total m image plan base Hpw Hbase Hmin Hfit) as [rl Hrl].
  destruct (bias_segments_total m image plan base Hpw Hbase Hmin Hfit) as (pl & Hpl & Hrng).
  assert (Hconf : existsb (segment_conflicts m) pl = false)
    by (eapply (free_no_conflict m base); [done..| | |exact Hrng]; [lia|done]).
  fold bias in Hd, Hrl, Hpl.
  destruct (load_elf32 m image (Some base)) as [r m'] eqn:E. cbn.
  apply load_elf32_inv in E; [|done..]. unfold prepare_load in E.
  rewrite Hplan in E. cbn in E. rewrite Hcb in E. cbn in E.
  destruct (compute_loaded_entry plan bias) as [en|e] eqn:Een; cbn in E.
  - rewrite Hd in E; cbn in E. rewrite Hrl in E; cbn in E. rewrite Hpl in E; cbn in E.
    rewrite Hconf in E; cbn in E. destruct r as [r|e]; [|destruct E as [[? _]|[? _]]; [done|lia]].
    destruct E as (planned & [= <- _] & _). by exists plan.
  - destruct r as [r|e']; [destruct E as (? & ? & _); done|].
    destruct E as [[[= <-] _]|[? _]]; [|lia].
    unfold compute_loaded_entry in Een. case_match; [done|].
    apply bind_err in Een as [Een|(? & _ & ?)]; [|done]. by apply fail_if_err in Een as [_ <-].
Qed.

Lemma placed_image_loads_witness :
  place_elf32_dynamic demo_memory demo_image
    {| search_begin := 4096; search_end_exclusive := 2 ^ 32 |} = Ok 12288 /\
  match (load_elf32 demo_memory demo_image (Some 12288)).1 with
  | Ok r => exists plan, plan_elf32_load demo_memory demo_image = Ok plan /\
              lr_load_bias r = 12288 - plan_minimum_page plan
  | Err e => e = Elf32LoadError.EntryAddressOverflow
  end.
Proof.
  split; [vm_compute; reflexivity|].
  apply (placed_image_loads demo_memory demo_image
           {| search_begin := 4096; search_end_exclusive := 2 ^ 32 |} 12288).
  - exact demo_memory_wf.
  - apply is_bytes_forallb. vm_compute. reflexivity.
  - vm_compute. split; congruence.
  - vm_compute. split; congruence.
  - vm_compute. reflexivity.
  - vm_compute. reflexivity.
Defined.
