(* ===== verification/Dynamic.v ===== *)
(** * Dynamic-array parsing ([src/src/elf/elf32_dynamic.h],
      [src/src/elf/metadata/elf32_dynamic.cpp]) *)

From S2P Require Import Prelude Bytes GuestMemory MappedMemory LoadPlan Loader.

Module Elf32DynamicError.
Inductive t : Set := None | InvalidRange | TruncatedEntry | ReadFailed | Unterminated.

Definition to_string (error : t) : string :=
  match error with
  | None => "none"
  | InvalidRange => "invalid_range"
  | TruncatedEntry => "truncated_entry"
  | ReadFailed => "read_failed"
  | Unterminated => "unterminated"
  end.
End Elf32DynamicError.

Record Elf32DynamicEntry := {
  de_tag : Z;
  de_value : Z;
}.

Definition kElf32DynamicEntrySize : Z := 8.
Definition kDynamicTagNull : Z := 0.

Section parse.
Context {M : Type} `{GuestMemory M}.

Definition decode_dynamic_entry (bytes : list Z) : Elf32DynamicEntry :=
  {| de_tag := i32 (decode_u32_le bytes 0); de_value := decode_u32_le bytes 4 |}.

(** The entry loop, over the remaining offsets, with the entries pushed so far. *)
Fixpoint parse_dynamic_entries (memory : M) (guest_address : Z) (offsets : list Z)
    (entries : list Elf32DynamicEntry) : result Elf32DynamicError.t (list Elf32DynamicEntry) :=
  match offsets with
  | [] => Err Elf32DynamicError.Unterminated
  | offset :: rest =>
      bytes ← or_fail (gm_read memory (u32 (guest_address + offset)) kElf32DynamicEntrySize)
                Elf32DynamicError.ReadFailed;
      let entry := decode_dynamic_entry bytes in
      let entries := entries ++ [entry] in
      if de_tag entry =? kDynamicTagNull then Ok entries
      else parse_dynamic_entries memory guest_address rest entries
  end.

Definition parse_elf32_dynamic (memory : M) (segment : Elf32DynamicSegment)
    : result Elf32DynamicError.t (list Elf32DynamicEntry) :=
  fail_if ((ds_memory_size segment <? ds_file_size segment)
           || (kGuestAddressSpaceSize <?
                 u64 (ds_guest_address segment + ds_memory_size segment)))
    Elf32DynamicError.InvalidRange ;;
  fail_if (negb (ds_file_size segment mod kElf32DynamicEntrySize =? 0))
    Elf32DynamicError.TruncatedEntry ;;
  parse_dynamic_entries memory (ds_guest_address segment)
    (strided 0 (ds_file_size segment) kElf32DynamicEntrySize) [].
End parse.

(** ** The encoded array *)
Definition encode_dynamic_entry (e : Elf32DynamicEntry) : list Z :=
  encode_u32_le (u32 (de_tag e)) ++ encode_u32_le (de_value e).

Definition encode_dynamic (es : list Elf32DynamicEntry) : list Z :=
  concat (encode_dynamic_entry <$> es).

Arguments encode_dynamic : simpl never.
Arguments encode_dynamic_entry : simpl never.
Arguments decode_dynamic_entry : simpl never.

Definition entry_typed (e : Elf32DynamicEntry) : Prop :=
  - 2 ^ 31 <= de_tag e < 2 ^ 31 /\ is_u32 (de_value e).

(** Exactly the last entry is DT_NULL. *)
Fixpoint terminated (es : list Elf32DynamicEntry) : Prop :=
  match es with
  | [] => False
  | [e] => de_tag e = kDynamicTagNull
  | e :: es' => de_tag e <> kDynamicTagNull /\ terminated es'
  end.

Lemma u32_i32 z : is_u32 z -> u32 (i32 z) = z.
Proof. intros Hz. unfold u32, i32. destruct (z <? 2 ^ 31) eqn:E; bool_prop; mod_lia. Qed.

Lemma i32_u32 z : - 2 ^ 31 <= z < 2 ^ 31 -> i32 (u32 z) = z.
Proof. intros Hz. unfold u32, i32. destruct (_ <? 2 ^ 31) eqn:E; bool_prop; mod_lia. Qed.

Lemma i32_range z : is_u32 z -> - 2 ^ 31 <= i32 z < 2 ^ 31.
Proof. intros Hz. unfold i32. destruct (_ <? _) eqn:E; bool_prop; word_lia. Qed.

Lemma encode_dynamic_cons e es :
  encode_dynamic (e :: es) = encode_dynamic_entry e ++ encode_dynamic es.
Proof. done. Qed.

Lemma length_encode_dynamic es : length (encode_dynamic es) = (8 * length es)%nat.
Proof.
  induction es as [|e es IH]; [done|]. rewrite encode_dynamic_cons, length_app, IH.
  unfold encode_dynamic_entry. cbn. lia.
Qed.

Lemma decode_u32_le_app_l b1 b2 :
  length b1 = 4%nat -> decode_u32_le (b1 ++ b2) 0 = decode_u32_le b1 0.
Proof. intros H. by destruct b1 as [|? [|? [|? [|? [|]]]]]. Qed.

Lemma decode_u32_le_app_r b1 b2 :
  length b1 = 4%nat -> decode_u32_le (b1 ++ b2) 4 = decode_u32_le b2 0.
Proof. intros H. by destruct b1 as [|? [|? [|? [|? [|]]]]]. Qed.

Lemma decode_encode_entry e :
  entry_typed e -> decode_dynamic_entry (encode_dynamic_entry e) = e.
Proof.
  intros [Ht Hv]. unfold decode_dynamic_entry, encode_dynamic_entry.
  rewrite decode_u32_le_app_l, decode_u32_le_app_r by done.
  rewrite !decode_encode_u32 by (done || apply u32_range). rewrite i32_u32 by done. by destruct e.
Qed.

Lemma encode_decode_entry bs :
  is_bytes bs -> length bs = 8%nat ->
  encode_dynamic_entry (decode_dynamic_entry bs) = bs /\ entry_typed (decode_dynamic_entry bs).
Proof.
  intros Hb Hl. rewrite <- (take_drop 4 bs) in Hb |- *. apply Forall_app in Hb as [H1 H2].
  assert (L1 : length (take 4 bs) = 4%nat) by (rewrite length_take; lia).
  assert (L2 : length (drop 4 bs) = 4%nat) by (rewrite length_drop; lia).
  unfold decode_dynamic_entry, encode_dynamic_entry, entry_typed. cbn [de_tag de_value].
  rewrite decode_u32_le_app_l, decode_u32_le_app_r by done.
  rewrite u32_i32 by by apply decode_u32_le_range.
  rewrite !encode_decode_u32 by done.
  split; [done|]. split; [apply i32_range|]; by apply decode_u32_le_range.
Qed.

(** ** Parsing is decoding *)
Section correct.
Context {M : Type} `{GuestMemorySpec M}.
Context (m : M) (ga fsz : Z).
Hypothesis (Hm : gm_ok m) (Hga : is_u32 ga) (Hfit : ga + fsz <= kGuestAddressSpaceSize).
Hypothesis (Hmod : fsz mod kElf32DynamicEntrySize = 0).

Lemma parse_entries_sound acc off es :
  0 <= off -> off mod 8 = 0 ->
  parse_dynamic_entries m ga (strided off fsz kElf32DynamicEntrySize) acc = Ok es ->
  exists es', es = acc ++ es' /\ terminated es' /\ Forall entry_typed es' /\
    off + 8 * Z.of_nat (length es') <= fsz /\
    gm_read m (ga + off) (8 * Z.of_nat (length es')) = Some (encode_dynamic es').
Proof.
  assert (Hn : exists n, (Z.to_nat (fsz - off) <= n)%nat) by by eexists.
  destruct Hn as [n Hn]. unfold kElf32DynamicEntrySize in *.
  revert off acc Hn. induction n as [|n IH]; intros off acc Hn Ho Homod Hp;
    destruct (decide (off < fsz)) as [Hlt|Hge]; try lia;
    try (rewrite strided_nil in Hp by (done || lia); discriminate Hp).
  assert (Hfsz : off + 8 <= fsz) by mod_lia.
  rewrite strided_cons in Hp by (done || lia). cbn [parse_dynamic_entries] in Hp.
  apply bind_ok in Hp as (bs & Hr%or_fail_ok & Hp). unfold kElf32DynamicEntrySize in Hr.
  rewrite u32_small in Hr by word_lia.
  assert (Hs8 : 0 < 8 <= span_max) by (unfold span_max; lia).
  pose proof (gm_read_length m (ga + off) 8 bs Hm ltac:(word_lia) Hs8 Hr) as Hl.
  pose proof (gm_read_bytes m (ga + off) 8 bs Hm ltac:(word_lia) Hs8 Hr) as Hb.
  destruct (encode_decode_entry bs Hb Hl) as [Henc Hty].
  set (e := decode_dynamic_entry bs) in *. destruct (de_tag e =? kDynamicTagNull) eqn:Et; bool_prop.
  - injection Hp as <-. exists [e].
    rewrite encode_dynamic_cons, Henc, app_nil_r. cbn [length].
    split_and!; try done. by constructor.
  - apply IH in Hp as (es' & -> & Ht & Hf & Hle & Hrd); [|lia|lia|mod_lia].
    exists (e :: es'). rewrite <- app_assoc. split; [done|]. split; [|split; [by constructor|]].
    { destruct es'; [done|]. by split. }
    cbn [length]. rewrite Nat2Z.inj_succ. split; [lia|].
    assert (Hne : (0 < length es')%nat) by (destruct es'; [done|cbn; lia]).
    replace (8 * Z.succ (Z.of_nat (length es'))) with (8 + 8 * Z.of_nat (length es')) by lia.
    rewrite gm_read_app by (done || (unfold span_max; word_lia)). rewrite Hr. cbn.
    replace (ga + off + 8) with (ga + (off + 8)) by lia. rewrite Hrd. cbn.
    by rewrite encode_dynamic_cons, Henc.
Qed.

Lemma parse_entries_complete acc off es :
  0 <= off -> terminated es -> Forall entry_typed es ->
  off + 8 * Z.of_nat (length es) <= fsz ->
  gm_read m (ga + off) (8 * Z.of_nat (length es)) = Some (encode_dynamic es) ->
  parse_dynamic_entries m ga (strided off fsz kElf32DynamicEntrySize) acc = Ok (acc ++ es).
Proof.
  unfold kElf32DynamicEntrySize in *.
  revert off acc. induction es as [|e es IH]; intros off acc Ho Ht Hf Hle Hr; [done|].
  apply Forall_cons in Hf as [He Hf]. cbn [length] in *. rewrite Nat2Z.inj_succ in *.
  assert (Hs8 : 0 < 8 <= span_max) by (unfold span_max; lia).
  rewrite strided_cons by lia. cbn [parse_dynamic_entries].
  rewrite u32_small by word_lia. destruct es as [|e' es].
  - rewrite Z.mul_1_r in Hr. unfold kElf32DynamicEntrySize. rewrite Hr. cbn [or_fail].
    rewrite encode_dynamic_cons, app_nil_r.
    cbn. rewrite decode_encode_entry by done. cbn in Ht. by rewrite Ht.
  - destruct Ht as [Hne Ht].
    replace (8 * Z.succ _) with (8 + 8 * Z.of_nat (length (e' :: es))) in Hr by lia.
    rewrite gm_read_app in Hr by (done || (cbn [length] in *; unfold span_max; word_lia)).
    unfold kElf32DynamicEntrySize.
    destruct (gm_read m (ga + off) 8) as [b1|] eqn:E1; [|done]. cbn in Hr.
    destruct (gm_read m (ga + off + 8) _) as [b2|] eqn:E2; [|done]. cbn in Hr.
    pose proof (gm_read_length m (ga + off) 8 b1 Hm ltac:(word_lia) Hs8 E1) as Hl.
    injection Hr as Hr. rewrite encode_dynamic_cons in Hr.
    apply app_inj_1 in Hr as [-> ->]; [|rewrite Hl; done].
    cbn. rewrite decode_encode_entry by done.
    rewrite (proj2 (Z.eqb_neq _ _) Hne).
    replace (acc ++ e :: e' :: es) with ((acc ++ [e]) ++ e' :: es) by by rewrite <- app_assoc.
    apply IH; try done; [lia..|]. replace (ga + (off + 8)) with (ga + off + 8) by lia. done.
Qed.
End correct.

Definition dynamic_segment_typed (seg : Elf32DynamicSegment) : Prop :=
  is_u32 (ds_guest_address seg) /\ is_u32 (ds_file_size seg) /\ is_u32 (ds_memory_size seg).

(** C29: [parse_elf32_dynamic] is the inverse of the little-endian d_tag/d_val
    encoding: it returns [es] exactly when the range is valid, [es] ends with
    its only DT_NULL, fits the file-backed part, and the guest bytes at the
    segment start are the encoding of [es]; bytes after DT_NULL are ignored. *)
Theorem parse_elf32_dynamic_roundtrip {M : Type} `{GuestMemorySpec M} (m : M) seg es :
  gm_ok m -> dynamic_segment_typed seg ->
  parse_elf32_dynamic m seg = Ok es <->
  (ds_file_size seg <= ds_memory_size seg /\
   ds_guest_address seg + ds_memory_size seg <= kGuestAddressSpaceSize /\
   ds_file_size seg mod 8 = 0 /\
   terminated es /\ Forall entry_typed es /\ 8 * Z.of_nat (length es) <= ds_file_size seg /\
   gm_read m (ds_guest_address seg) (8 * Z.of_nat (length es)) = Some (encode_dynamic es)).
Proof.
  intros Hm (H1 & H2 & H3). unfold parse_elf32_dynamic. rewrite u64_small by word_lia. split.
  - intros Hp. apply bind_ok in Hp as ([] & G1%fail_if_ok & Hp).
    apply bind_ok in Hp as ([] & G2%fail_if_ok & Hp). bool_prop.
    apply parse_entries_sound in Hp as (es' & -> & Ht & Hf & Hle & Hr); try done; try word_lia.
    rewrite Z.add_0_r in Hr. split_and!; try done; word_lia.
  - intros (G1 & G2 & G3 & Ht & Hf & Hle & Hr).
    rewrite (proj2 (orb_false_iff _ _)) by (rewrite !Z.ltb_ge; done). cbn.
    change (ds_file_size seg mod kElf32DynamicEntrySize) with (ds_file_size seg mod 8).
    rewrite G3. cbn.
    rewrite (parse_entries_complete m (ds_guest_address seg)) with (es := es); try done; try word_lia.
    by rewrite Z.add_0_r.
Qed.

(** Witness: the array [DT_NEEDED 5; DT_SONAME 9; DT_NULL 0] in guest memory. *)
Definition demo_dynamic : list Elf32DynamicEntry :=
  [{| de_tag := 1; de_value := 5 |}; {| de_tag := 14; de_value := 9 |};
   {| de_tag := 0; de_value := 0 |}].

Definition demo_dynamic_memory : MappedGuestMemory.t :=
  snd (exec_op (OpWrite 8192 (encode_dynamic demo_dynamic)) demo_memory).

Lemma demo_dynamic_memory_wf : mapped_wf demo_dynamic_memory.
Proof.
  unfold demo_dynamic_memory. apply exec_op_wf; [exact demo_memory_wf|].
  split; [by vm_compute|]. split; [|by vm_compute]. apply is_bytes_forallb. reflexivity.
Defined.

Lemma parse_elf32_dynamic_roundtrip_witness :
  let seg := {| ds_guest_address := 8192; ds_file_size := 32; ds_memory_size := 64 |} in
  parse_elf32_dynamic demo_dynamic_memory seg = Ok demo_dynamic.
Proof.
  intros seg. apply (parse_elf32_dynamic_roundtrip demo_dynamic_memory seg demo_dynamic).
  - exact demo_dynamic_memory_wf.
  - vm_compute. intuition congruence.
  - split; [by vm_compute|]. split; [by vm_compute|]. split; [reflexivity|].
    split; [by vm_compute|]. split; [|split; [by vm_compute|vm_compute; reflexivity]].
    repeat (constructor; [by vm_compute|]). constructor.
Defined.
