(* ===== verification/LinkerMetadata.v ===== *)
(** * Linker metadata ([src/src/elf/elf32_linker_metadata.h],
      [src/src/elf/metadata/elf32_linker_metadata.cpp])

    [collect_elf32_linker_metadata] classifies the dynamic tags;
    [build_elf32_linker_metadata] rebases the tables once and checks that every
    declared range is readable guest memory. *)

From S2P Require Import Prelude Bytes GuestMemory MappedMemory LoadPlan Loader Dynamic.

Definition kElf32Df1Global : Z := 0x2.

Module Elf32LinkerMetadataError.
Inductive t : Set :=
| None
| DuplicateSingleton
| IncompleteStringTable
| IncompleteSymbolTable
| IncompleteRelTable
| IncompletePltRelTable
| IncompleteVersionDefinitionTable
| IncompleteVersionRequirementTable
| AddressOverflow
| RangeOverflow
| ReadFailed
| InvalidSymbolEntrySize
| InvalidRelEntrySize
| InvalidRelSize
| InvalidPltRelType
| InvalidPltRelSize
| StringOffsetOutOfRange
| IncompleteInitArray
| IncompleteFiniArray
| InvalidFunctionArraySize.

Definition to_string (error : t) : string :=
  match error with
  | None => "none"
  | DuplicateSingleton => "duplicate_singleton"
  | IncompleteStringTable => "incomplete_string_table"
  | IncompleteSymbolTable => "incomplete_symbol_table"
  | IncompleteRelTable => "incomplete_rel_table"
  | IncompletePltRelTable => "incomplete_plt_rel_table"
  | IncompleteVersionDefinitionTable => "incomplete_version_definition_table"
  | IncompleteVersionRequirementTable => "incomplete_version_requirement_table"
  | AddressOverflow => "address_overflow"
  | RangeOverflow => "range_overflow"
  | ReadFailed => "read_failed"
  | InvalidSymbolEntrySize => "invalid_symbol_entry_size"
  | InvalidRelEntrySize => "invalid_rel_entry_size"
  | InvalidRelSize => "invalid_rel_size"
  | InvalidPltRelType => "invalid_plt_rel_type"
  | InvalidPltRelSize => "invalid_plt_rel_size"
  | StringOffsetOutOfRange => "string_offset_out_of_range"
  | IncompleteInitArray => "incomplete_init_array"
  | IncompleteFiniArray => "incomplete_fini_array"
  | InvalidFunctionArraySize => "invalid_function_array_size"
  end.
End Elf32LinkerMetadataError.

(** ** Descriptors *)
Record Elf32CollectedTable := {
  ct_address_value : Z;
  ct_size : Z;
}.

Record Elf32CollectedRelTableMetadata := {
  crt_address_value : Z;
  crt_size : Z;
  crt_entry_size : Z;
}.

(** The collected descriptors keep raw dynamic values: string, symbol (entry
    size), version (count) and function-array tables are (address, second field)
    pairs. *)
Record Elf32CollectedLinkerMetadata := {
  cm_string_table : option Elf32CollectedTable;
  cm_symbol_table : option Elf32CollectedTable;
  cm_sysv_hash_table : option Z;
  cm_gnu_hash_table : option Z;
  cm_rel_table : option Elf32CollectedRelTableMetadata;
  cm_plt_rel_table : option Elf32CollectedRelTableMetadata;
  cm_init_array : option Elf32CollectedTable;
  cm_fini_array : option Elf32CollectedTable;
  cm_version_symbol_address_value : option Z;
  cm_version_definition_table : option Elf32CollectedTable;
  cm_version_requirement_table : option Elf32CollectedTable;
  cm_soname_offset : option Z;
  cm_needed_offsets : list Z;
  cm_flags_1 : option Z;
  cm_global : bool;
  cm_symbolic : bool;
  cm_has_symbol_versioning : bool;
}.

Record Elf32StringTableMetadata := { st_guest_address : Z; st_size : Z }.
Record Elf32SymbolTableMetadata := { sy_guest_address : Z; sy_entry_size : Z }.
Record Elf32HashTableMetadata := { ht_guest_address : Z }.
Record Elf32RelTableMetadata := { rt_guest_address : Z; rt_size : Z; rt_entry_size : Z }.
Record Elf32FunctionArrayMetadata := { fa_guest_address : Z; fa_size : Z }.
Record Elf32VersionSymbolTableMetadata := { vs_guest_address : Z }.
Record Elf32VersionTableMetadata := { vt_guest_address : Z; vt_count : Z }.

Record Elf32LinkerMetadata := {
  lm_string_table : option Elf32StringTableMetadata;
  lm_symbol_table : option Elf32SymbolTableMetadata;
  lm_sysv_hash_table : option Elf32HashTableMetadata;
  lm_gnu_hash_table : option Elf32HashTableMetadata;
  lm_rel_table : option Elf32RelTableMetadata;
  lm_plt_rel_table : option Elf32RelTableMetadata;
  lm_init_array : option Elf32FunctionArrayMetadata;
  lm_fini_array : option Elf32FunctionArrayMetadata;
  lm_version_symbol_table : option Elf32VersionSymbolTableMetadata;
  lm_version_definition_table : option Elf32VersionTableMetadata;
  lm_version_requirement_table : option Elf32VersionTableMetadata;
  lm_soname_offset : option Z;
  lm_needed_offsets : list Z;
  lm_flags_1 : option Z;
  lm_global : bool;
  lm_symbolic : bool;
  lm_has_symbol_versioning : bool;
}.

(** ** Tags and sizes *)
Definition kDtNull : Z := 0.
Definition kDtNeeded : Z := 1.
Definition kDtPltrelsz : Z := 2.
Definition kDtHash : Z := 4.
Definition kDtStrtab : Z := 5.
Definition kDtSymtab : Z := 6.
Definition kDtStrsz : Z := 10.
Definition kDtSyment : Z := 11.
Definition kDtSoname : Z := 14.
Definition kDtSymbolic : Z := 16.
Definition kDtRel : Z := 17.
Definition kDtRelsz : Z := 18.
Definition kDtRelent : Z := 19.
Definition kDtPltrel : Z := 20.
Definition kDtJmprel : Z := 23.
Definition kDtInitArray : Z := 25.
Definition kDtFiniArray : Z := 26.
Definition kDtInitArraySz : Z := 27.
Definition kDtFiniArraySz : Z := 28.
Definition kDtFlags : Z := 30.
Definition kDfSymbolic : Z := 0x2.
Definition kDtGnuHash : Z := 0x6ffffef5.
Definition kDtFlags1 : Z := 0x6ffffffb.
Definition kDtVersym : Z := 0x6ffffff0.
Definition kDtVerdef : Z := 0x6ffffffc.
Definition kDtVerdefnum : Z := 0x6ffffffd.
Definition kDtVerneed : Z := 0x6ffffffe.
Definition kDtVerneednum : Z := 0x6fffffff.
Definition kElf32SymbolEntrySize : Z := 16.
Definition kElf32RelEntrySize : Z := 8.
Definition kSysvHashHeaderSize : Z := 8.
Definition kGnuHashHeaderSize : Z := 16.
Definition kReadValidationChunkSize : Z := 256.

(** The tags handled by [assign_singleton]. *)
Definition singleton_tags : list Z :=
  [kDtPltrelsz; kDtHash; kDtStrtab; kDtSymtab; kDtStrsz; kDtSyment; kDtSoname;
   kDtRel; kDtRelsz; kDtRelent; kDtPltrel; kDtJmprel; kDtInitArray; kDtFiniArray;
   kDtInitArraySz; kDtFiniArraySz; kDtFlags; kDtGnuHash; kDtFlags1; kDtVersym;
   kDtVerdef; kDtVerdefnum; kDtVerneed; kDtVerneednum].

(** ** Collection

    The twenty-four optional locals of [collect_elf32_linker_metadata] are one
    finite map from the tag a local belongs to, to its value. *)
Record collect_state := {
  cs_fields : gmap Z Z;
  cs_has_dt_symbolic : bool;
  cs_needed_offsets : list Z;
}.

Definition metadata_result := result Elf32LinkerMetadataError.t.

Definition assign_singleton (fields : gmap Z Z) (tag value : Z) : option (gmap Z Z) :=
  match fields !! tag with
  | Some _ => None
  | None => Some (<[tag := value]> fields)
  end.

(** One [switch (entry.tag)]. *)
Definition collect_entry (s : collect_state) (entry : Elf32DynamicEntry)
    : metadata_result collect_state :=
  let tag := de_tag entry in
  if tag =? kDtNeeded then
    Ok {| cs_fields := cs_fields s;
          cs_has_dt_symbolic := cs_has_dt_symbolic s;
          cs_needed_offsets := cs_needed_offsets s ++ [de_value entry] |}
  else if tag =? kDtSymbolic then
    fail_if (cs_has_dt_symbolic s) Elf32LinkerMetadataError.DuplicateSingleton ;;
    Ok {| cs_fields := cs_fields s;
          cs_has_dt_symbolic := true;
          cs_needed_offsets := cs_needed_offsets s |}
  else if bool_decide (tag ∈ singleton_tags) then
    fields ← or_fail (assign_singleton (cs_fields s) tag (de_value entry))
               Elf32LinkerMetadataError.DuplicateSingleton;
    Ok {| cs_fields := fields;
          cs_has_dt_symbolic := cs_has_dt_symbolic s;
          cs_needed_offsets := cs_needed_offsets s |}
  else Ok s.

(** The entry loop, which stops at the first DT_NULL. *)
Fixpoint collect_entries (s : collect_state) (entries : list Elf32DynamicEntry)
    : metadata_result collect_state :=
  match entries with
  | [] => Ok s
  | entry :: rest =>
      if de_tag entry =? kDtNull then Ok s
      else s' ← collect_entry s entry; collect_entries s' rest
  end.

Definition has (f : gmap Z Z) (tag : Z) : bool := bool_decide (is_Some (f !! tag)).

Definition pair_complete (f : gmap Z Z) (first second : Z) : bool :=
  Bool.eqb (has f first) (has f second).

Definition field_count (f : gmap Z Z) (tags : list Z) : Z :=
  foldr (fun tag n => (if has f tag then 1 else 0) + n) 0 tags.

Definition check_tables (s : collect_state) : metadata_result unit :=
  let f := cs_fields s in
  fail_if (negb (pair_complete f kDtStrtab kDtStrsz)
           || ((has f kDtSoname
                || negb (match cs_needed_offsets s with [] => true | _ => false end))
               && negb (has f kDtStrtab)))
    Elf32LinkerMetadataError.IncompleteStringTable ;;
  fail_if (negb (pair_complete f kDtSymtab kDtSyment))
    Elf32LinkerMetadataError.IncompleteSymbolTable ;;
  let rel_fields := field_count f [kDtRel; kDtRelsz; kDtRelent] in
  fail_if (negb (rel_fields =? 0) && negb (rel_fields =? 3))
    Elf32LinkerMetadataError.IncompleteRelTable ;;
  let plt_rel_fields := field_count f [kDtJmprel; kDtPltrelsz; kDtPltrel] in
  fail_if (negb (plt_rel_fields =? 0) && negb (plt_rel_fields =? 3))
    Elf32LinkerMetadataError.IncompletePltRelTable ;;
  fail_if (match f !! kDtPltrel with Some v => negb (v =? kDtRel) | None => false end)
    Elf32LinkerMetadataError.InvalidPltRelType.

Definition check_arrays_versions (f : gmap Z Z) : metadata_result unit :=
  let bad_size tag := match f !! tag with Some v => negb (v mod 4 =? 0) | None => false end in
  fail_if (negb (pair_complete f kDtInitArray kDtInitArraySz))
    Elf32LinkerMetadataError.IncompleteInitArray ;;
  fail_if (negb (pair_complete f kDtFiniArray kDtFiniArraySz))
    Elf32LinkerMetadataError.IncompleteFiniArray ;;
  fail_if (bad_size kDtInitArraySz || bad_size kDtFiniArraySz)
    Elf32LinkerMetadataError.InvalidFunctionArraySize ;;
  fail_if (negb (pair_complete f kDtVerdef kDtVerdefnum))
    Elf32LinkerMetadataError.IncompleteVersionDefinitionTable ;;
  fail_if (negb (pair_complete f kDtVerneed kDtVerneednum))
    Elf32LinkerMetadataError.IncompleteVersionRequirementTable ;;
  fail_if (has f kDtVersym && negb (has f kDtSymtab))
    Elf32LinkerMetadataError.IncompleteSymbolTable ;;
  fail_if ((has f kDtVerdef || has f kDtVerneed) && negb (has f kDtStrtab))
    Elf32LinkerMetadataError.IncompleteStringTable.

(** A descriptor present when its address tag is; the second field defaults to
    0, which the completeness checks rule out. *)
Definition collected_table (f : gmap Z Z) (address_tag second_tag : Z) : option Elf32CollectedTable :=
  (fun a => Build_Elf32CollectedTable a (cell f second_tag)) <$> f !! address_tag.

Definition bit_set (o : option Z) (mask : Z) : bool :=
  match o with Some v => negb (Z.land v mask =? 0) | None => false end.

Definition collected_metadata (s : collect_state) : Elf32CollectedLinkerMetadata :=
  let f := cs_fields s in {|
  cm_string_table := collected_table f kDtStrtab kDtStrsz;
  cm_symbol_table := collected_table f kDtSymtab kDtSyment;
  cm_sysv_hash_table := f !! kDtHash;
  cm_gnu_hash_table := f !! kDtGnuHash;
  cm_rel_table :=
    (fun a => Build_Elf32CollectedRelTableMetadata a (cell f kDtRelsz) (cell f kDtRelent))
      <$> f !! kDtRel;
  cm_plt_rel_table :=
    (fun a => Build_Elf32CollectedRelTableMetadata a (cell f kDtPltrelsz) kElf32RelEntrySize)
      <$> f !! kDtJmprel;
  cm_init_array := collected_table f kDtInitArray kDtInitArraySz;
  cm_fini_array := collected_table f kDtFiniArray kDtFiniArraySz;
  cm_version_symbol_address_value := f !! kDtVersym;
  cm_version_definition_table := collected_table f kDtVerdef kDtVerdefnum;
  cm_version_requirement_table := collected_table f kDtVerneed kDtVerneednum;
  cm_soname_offset := f !! kDtSoname;
  cm_needed_offsets := cs_needed_offsets s;
  cm_flags_1 := f !! kDtFlags1;
  cm_global := bit_set (f !! kDtFlags1) kElf32Df1Global;
  cm_symbolic := cs_has_dt_symbolic s || bit_set (f !! kDtFlags) kDfSymbolic;
  cm_has_symbol_versioning := has f kDtVersym || has f kDtVerdef || has f kDtVerneed;
|}.

Definition collect_elf32_linker_metadata (entries : list Elf32DynamicEntry)
    : metadata_result Elf32CollectedLinkerMetadata :=
  s ← collect_entries {| cs_fields := ∅; cs_has_dt_symbolic := false; cs_needed_offsets := [] |}
        entries;
  check_tables s ;;
  check_arrays_versions (cs_fields s) ;;
  Ok (collected_metadata s).

(** ** Validation *)
Definition rebase_address (value load_bias : Z) : option Z :=
  let rebased := u64 (value + load_bias) in
  if UINT32_MAX <? rebased then None else Some (u32 rebased).

Definition range_fits (guest_address size : Z) : bool :=
  u64 (guest_address + size) <=? kGuestAddressSpaceSize.

Section build.
Context {M : Type} `{GuestMemory M}.

(** One 256-byte chunk of the readability probe. *)
Definition readable_chunk (memory : M) (guest_address size offset : Z) : bool :=
  let chunk := Z.min kReadValidationChunkSize (size - offset) in
  let current := u64 (guest_address + offset) in
  (current <=? UINT32_MAX) && bool_decide (is_Some (gm_read memory (u32 current) chunk)).

Definition readable_range (memory : M) (guest_address size : Z) : bool :=
  if size =? 0 then true
  else forallb (readable_chunk memory guest_address size)
         (strided 0 size kReadValidationChunkSize).

(** The rebase / fits / readable sequence every table goes through. *)
Definition validated_address (memory : M) (load_bias value size : Z) : metadata_result Z :=
  guest_address ← or_fail (rebase_address value load_bias) Elf32LinkerMetadataError.AddressOverflow;
  fail_if (negb (range_fits guest_address size)) Elf32LinkerMetadataError.RangeOverflow ;;
  fail_if (negb (readable_range memory guest_address size)) Elf32LinkerMetadataError.ReadFailed ;;
  Ok guest_address.

(** [if (const auto& table = ...) { ... }] *)
Definition when_present {A B : Type} (o : option A) (f : A -> metadata_result B)
    : metadata_result (option B) :=
  match o with None => Ok None | Some a => b ← f a; Ok (Some b) end.

Definition build_string_table (memory : M) (load_bias : Z) (soname : option Z) (needed : list Z)
    (string_table : Elf32CollectedTable) : metadata_result Elf32StringTableMetadata :=
  fail_if (match soname with Some o => ct_size string_table <=? o | None => false end)
    Elf32LinkerMetadataError.StringOffsetOutOfRange ;;
  fail_if (existsb (fun offset => ct_size string_table <=? offset) needed)
    Elf32LinkerMetadataError.StringOffsetOutOfRange ;;
  guest_address ← validated_address memory load_bias (ct_address_value string_table)
                    (ct_size string_table);
  Ok {| st_guest_address := guest_address; st_size := ct_size string_table |}.

Definition build_symbol_table (memory : M) (load_bias : Z) (symbol_table : Elf32CollectedTable)
    : metadata_result Elf32SymbolTableMetadata :=
  fail_if (negb (ct_size symbol_table =? kElf32SymbolEntrySize))
    Elf32LinkerMetadataError.InvalidSymbolEntrySize ;;
  guest_address ← validated_address memory load_bias (ct_address_value symbol_table)
                    kElf32SymbolEntrySize;
  Ok {| sy_guest_address := guest_address; sy_entry_size := ct_size symbol_table |}.

Definition build_hash_descriptor (memory : M) (load_bias header_size address_value : Z)
    : metadata_result Elf32HashTableMetadata :=
  guest_address ← validated_address memory load_bias address_value header_size;
  Ok {| ht_guest_address := guest_address |}.

Definition build_version_symbol_table (memory : M) (load_bias address_value : Z)
    : metadata_result Elf32VersionSymbolTableMetadata :=
  guest_address ← validated_address memory load_bias address_value 2;
  Ok {| vs_guest_address := guest_address |}.

Definition build_version_table (memory : M) (load_bias fixed_record_size : Z)
    (input : Elf32CollectedTable) : metadata_result Elf32VersionTableMetadata :=
  guest_address ← or_fail (rebase_address (ct_address_value input) load_bias)
                    Elf32LinkerMetadataError.AddressOverflow;
  (if ct_size input =? 0 then Ok tt
   else
     fail_if (negb (range_fits guest_address fixed_record_size))
       Elf32LinkerMetadataError.RangeOverflow ;;
     fail_if (negb (readable_range memory guest_address fixed_record_size))
       Elf32LinkerMetadataError.ReadFailed) ;;
  Ok {| vt_guest_address := guest_address; vt_count := ct_size input |}.

Definition build_function_array (memory : M) (load_bias : Z) (input : Elf32CollectedTable)
    : metadata_result Elf32FunctionArrayMetadata :=
  guest_address ← validated_address memory load_bias (ct_address_value input) (ct_size input);
  Ok {| fa_guest_address := guest_address; fa_size := ct_size input |}.

Definition build_rel_table (memory : M) (load_bias : Z) (rel_table : Elf32CollectedRelTableMetadata)
    : metadata_result Elf32RelTableMetadata :=
  fail_if (negb (crt_entry_size rel_table =? kElf32RelEntrySize))
    Elf32LinkerMetadataError.InvalidRelEntrySize ;;
  fail_if (negb (crt_size rel_table mod crt_entry_size rel_table =? 0))
    Elf32LinkerMetadataError.InvalidRelSize ;;
  guest_address ← validated_address memory load_bias (crt_address_value rel_table)
                    (crt_size rel_table);
  Ok {| rt_guest_address := guest_address; rt_size := crt_size rel_table;
        rt_entry_size := crt_entry_size rel_table |}.

Definition build_plt_rel_table (memory : M) (load_bias : Z)
    (plt_rel_table : Elf32CollectedRelTableMetadata) : metadata_result Elf32RelTableMetadata :=
  fail_if (negb (crt_size plt_rel_table mod kElf32RelEntrySize =? 0))
    Elf32LinkerMetadataError.InvalidPltRelSize ;;
  guest_address ← validated_address memory load_bias (crt_address_value plt_rel_table)
                    (crt_size plt_rel_table);
  Ok {| rt_guest_address := guest_address; rt_size := crt_size plt_rel_table;
        rt_entry_size := kElf32RelEntrySize |}.

Definition build_elf32_linker_metadata (memory : M) (load_bias : Z)
    (entries : list Elf32DynamicEntry) : metadata_result Elf32LinkerMetadata :=
  c ← collect_elf32_linker_metadata entries;
  string_table ← when_present (cm_string_table c)
                   (build_string_table memory load_bias (cm_soname_offset c) (cm_needed_offsets c));
  symbol_table ← when_present (cm_symbol_table c) (build_symbol_table memory load_bias);
  sysv_hash_table ← when_present (cm_sysv_hash_table c)
                      (build_hash_descriptor memory load_bias kSysvHashHeaderSize);
  gnu_hash_table ← when_present (cm_gnu_hash_table c)
                     (build_hash_descriptor memory load_bias kGnuHashHeaderSize);
  version_symbol_table ← when_present (cm_version_symbol_address_value c)
                           (build_version_symbol_table memory load_bias);
  version_definition_table ← when_present (cm_version_definition_table c)
                               (build_version_table memory load_bias 20);
  version_requirement_table ← when_present (cm_version_requirement_table c)
                                (build_version_table memory load_bias 16);
  init_array ← when_present (cm_init_array c) (build_function_array memory load_bias);
  fini_array ← when_present (cm_fini_array c) (build_function_array memory load_bias);
  rel_table ← when_present (cm_rel_table c) (build_rel_table memory load_bias);
  plt_rel_table ← when_present (cm_plt_rel_table c) (build_plt_rel_table memory load_bias);
  Ok {| lm_string_table := string_table;
        lm_symbol_table := symbol_table;
        lm_sysv_hash_table := sysv_hash_table;
        lm_gnu_hash_table := gnu_hash_table;
        lm_rel_table := rel_table;
        lm_plt_rel_table := plt_rel_table;
        lm_init_array := init_array;
        lm_fini_array := fini_array;
        lm_version_symbol_table := version_symbol_table;
        lm_version_definition_table := version_definition_table;
        lm_version_requirement_table := version_requirement_table;
        lm_soname_offset := cm_soname_offset c;
        lm_needed_offsets := cm_needed_offsets c;
        lm_flags_1 := cm_flags_1 c;
        lm_global := cm_global c;
        lm_symbolic := cm_symbolic c;
        lm_has_symbol_versioning := cm_has_symbol_versioning c |}.
End build.

(** ** What collection computes *)

(** The entries before the first DT_NULL. *)
Fixpoint live_entries (entries : list Elf32DynamicEntry) : list Elf32DynamicEntry :=
  match entries with
  | [] => []
  | e :: rest => if de_tag e =? kDtNull then [] else e :: live_entries rest
  end.

(** The value of the first live entry with a tag. *)
Definition tag_value (live : list Elf32DynamicEntry) (tag : Z) : option Z :=
  de_value <$> List.find (fun e => de_tag e =? tag) live.

Definition needed_values (live : list Elf32DynamicEntry) : list Z :=
  de_value <$> filter (fun e => de_tag e = kDtNeeded) live.

Definition tag_count (live : list Elf32DynamicEntry) (tag : Z) : nat :=
  length (filter (fun e => de_tag e = tag) live).

Definition unique_tags (live : list Elf32DynamicEntry) : Prop :=
  forall tag, tag ∈ kDtSymbolic :: singleton_tags -> (tag_count live tag <= 1)%nat.

Lemma tag_count_snoc l e tag :
  tag_count (l ++ [e]) tag = (tag_count l tag + if decide (de_tag e = tag) then 1 else 0)%nat.
Proof.
  unfold tag_count. rewrite filter_app, length_app, filter_cons, filter_nil.
  by case_decide.
Qed.

Lemma tag_value_snoc l e tag :
  tag_value (l ++ [e]) tag =
  match tag_value l tag with
  | Some v => Some v
  | None => if decide (de_tag e = tag) then Some (de_value e) else None
  end.
Proof.
  unfold tag_value. induction l as [|x l IH]; cbn.
  - destruct (decide (de_tag e = tag)) as [->|Hne]; [by rewrite Z.eqb_refl|].
    by rewrite (proj2 (Z.eqb_neq _ _) Hne).
  - by destruct (de_tag x =? tag).
Qed.

Lemma tag_value_count l tag : tag_value l tag = None <-> tag_count l tag = 0%nat.
Proof.
  unfold tag_value, tag_count. induction l as [|x l IH]; [done|]. cbn [List.find].
  rewrite filter_cons. destruct (decide (de_tag x = tag)) as [->|Hne].
  - rewrite Z.eqb_refl. done.
  - by rewrite (proj2 (Z.eqb_neq _ _) Hne).
Qed.

(** State after the entries [l]. *)
Record collected_from (l : list Elf32DynamicEntry) (s : collect_state) : Prop := {
  cf_unique : unique_tags l;
  cf_fields : forall tag, cs_fields s !! tag =
                if decide (tag ∈ singleton_tags) then tag_value l tag else None;
  cf_symbolic : cs_has_dt_symbolic s = negb (Nat.eqb (tag_count l kDtSymbolic) 0);
  cf_needed : cs_needed_offsets s = needed_values l;
}.

Lemma needed_values_snoc l e :
  needed_values (l ++ [e]) =
  needed_values l ++ (if decide (de_tag e = kDtNeeded) then [de_value e] else []).
Proof.
  unfold needed_values. rewrite filter_app, fmap_app, filter_cons, filter_nil. by case_decide.
Qed.

Lemma unique_tags_snoc l e :
  unique_tags l ->
  unique_tags (l ++ [e]) <->
  (de_tag e ∈ kDtSymbolic :: singleton_tags -> tag_count l (de_tag e) = 0%nat).
Proof.
  intros Hu. split.
  - intros Hu' Hin. specialize (Hu' _ Hin). rewrite tag_count_snoc, decide_True in Hu' by done. lia.
  - intros Hz tag Hin. rewrite tag_count_snoc. specialize (Hu tag Hin).
    case_decide as E; [subst tag; rewrite Hz by done|]; lia.
Qed.

Lemma collect_entry_spec l s e :
  collected_from l s ->
  match collect_entry s e with
  | Ok s' => collected_from (l ++ [e]) s'
  | Err err => err = Elf32LinkerMetadataError.DuplicateSingleton /\ ~ unique_tags (l ++ [e])
  end.
Proof.
  intros [Hu Hf Hsy Hn]. unfold collect_entry.
  assert (Hns : kDtSymbolic ∉ singleton_tags /\ kDtNeeded ∉ singleton_tags).
  { split; by apply (bool_decide_unpack _). }
  destruct (de_tag e =? kDtNeeded) eqn:E1; bool_prop.
  { split; cbn.
    - apply unique_tags_snoc; [done|]. rewrite E1. intros Hin. exfalso.
      apply elem_of_cons in Hin as [Hin|Hin]; [discriminate Hin|]. by apply Hns.
    - intros tag. rewrite Hf, tag_value_snoc. case_decide as Hd; [|done].
      destruct (tag_value l tag); [done|]. rewrite decide_False; [done|].
      intros <-. rewrite E1 in Hd. by apply Hns.
    - rewrite Hsy, tag_count_snoc, decide_False, Nat.add_0_r by (rewrite E1; done). done.
    - by rewrite Hn, needed_values_snoc, decide_True by done. }
  destruct (de_tag e =? kDtSymbolic) eqn:E2; bool_prop.
  { destruct (cs_has_dt_symbolic s) eqn:Eh; cbn.
    - split; [done|]. intros Hu'. rewrite unique_tags_snoc in Hu' by done. rewrite E2 in Hu'.
      rewrite Hu' in Hsy by by left. done.
    - split; cbn.
      + apply unique_tags_snoc; [done|]. intros _. rewrite E2.
        symmetry in Hsy. apply negb_false_iff, Nat.eqb_eq in Hsy. done.
      + intros tag. rewrite Hf, tag_value_snoc. case_decide as Hd; [|done].
        destruct (tag_value l tag); [done|]. rewrite decide_False; [done|].
        intros <-. rewrite E2 in Hd. by destruct Hns.
      + rewrite tag_count_snoc, decide_True by done. by rewrite Nat.add_1_r.
      + rewrite needed_values_snoc, decide_False, app_nil_r by done. done. }
  case_bool_decide as Hin.
  - unfold assign_singleton. specialize (Hf (de_tag e)) as Hfe. rewrite decide_True in Hfe by done.
    destruct (cs_fields s !! de_tag e) as [v|] eqn:El; cbn.
    + split; [done|]. intros Hu'. rewrite unique_tags_snoc in Hu' by done.
      specialize (Hu' ltac:(by right)). apply tag_value_count in Hu'. congruence.
    + symmetry in Hfe. apply tag_value_count in Hfe as Hc. split; cbn.
      * by apply unique_tags_snoc.
      * intros tag. rewrite tag_value_snoc, lookup_insert. case_decide as E3.
        { subst tag. by rewrite Hfe, decide_True. }
        rewrite Hf. case_decide; [|done]. by destruct (tag_value l tag).
      * rewrite Hsy, tag_count_snoc, decide_False, Nat.add_0_r by done. done.
      * rewrite Hn, needed_values_snoc, decide_False, app_nil_r by done. done.
  - split.
    + apply unique_tags_snoc; [done|]. intros [?|?]%elem_of_cons; done.
    + intros tag. rewrite Hf, tag_value_snoc. case_decide as Hd; [|done].
      destruct (tag_value l tag); [done|]. rewrite decide_False; [done|]. by intros <-.
    + rewrite Hsy, tag_count_snoc, decide_False, Nat.add_0_r by done. done.
    + rewrite Hn, needed_values_snoc, decide_False, app_nil_r by done. done.
Qed.

Lemma unique_tags_app l1 l2 : unique_tags (l1 ++ l2) -> unique_tags l1.
Proof.
  intros Hu tag Hin. specialize (Hu tag Hin). unfold tag_count in *.
  rewrite filter_app, length_app in Hu. lia.
Qed.

Lemma collect_entries_spec l s es :
  collected_from l s ->
  match collect_entries s es with
  | Ok s' => collected_from (l ++ live_entries es) s'
  | Err err => err = Elf32LinkerMetadataError.DuplicateSingleton /\
               ~ unique_tags (l ++ live_entries es)
  end.
Proof.
  revert l s; induction es as [|e es IH]; intros l s Hs; cbn.
  { by rewrite app_nil_r. }
  destruct (de_tag e =? kDtNull); [by rewrite app_nil_r|].
  pose proof (collect_entry_spec l s e Hs) as He.
  replace (l ++ e :: live_entries es) with ((l ++ [e]) ++ live_entries es) by by rewrite <- app_assoc.
  destruct (collect_entry s e) as [s'|err]; cbn; [by apply IH|].
  destruct He as [-> Hu]. split; [done|]. intros Hu'. apply Hu. by eapply unique_tags_app.
Qed.

Lemma collected_from_nil :
  collected_from [] {| cs_fields := ∅; cs_has_dt_symbolic := false; cs_needed_offsets := [] |}.
Proof.
  split; cbn; try done.
  - intros tag _. unfold tag_count. cbn. lia.
  - intros tag. rewrite lookup_empty. by case_decide.
Qed.

Lemma has_lookup f tag : has f tag = match f !! tag with Some _ => true | None => false end.
Proof. unfold has. destruct (f !! tag); [by rewrite bool_decide_true|]. by rewrite bool_decide_false by (intros [? ?]; done). Qed.

Lemma collected_field l s tag :
  collected_from l s -> tag ∈ singleton_tags -> cs_fields s !! tag = tag_value l tag.
Proof. intros [_ Hf _ _] Ht. by rewrite Hf, decide_True. Qed.

Lemma singleton_mem (tag : Z) : bool_decide (tag ∈ singleton_tags) = true -> tag ∈ singleton_tags.
Proof. apply bool_decide_eq_true. Qed.

Ltac in_singletons := apply singleton_mem; vm_compute; reflexivity.

(** ** The dynamic section the linker accepts *)
Definition present (live : list Elf32DynamicEntry) (tag : Z) : Prop := is_Some (tag_value live tag).

(** What must come together, and what is required of single values. *)
Record dynamic_complete (live : list Elf32DynamicEntry) : Prop := {
  dc_string_table : present live kDtStrtab <-> present live kDtStrsz;
  dc_names : present live kDtSoname \/ needed_values live <> [] -> present live kDtStrtab;
  dc_symbol_table : present live kDtSymtab <-> present live kDtSyment;
  dc_rel_size : present live kDtRel <-> present live kDtRelsz;
  dc_rel_entry : present live kDtRel <-> present live kDtRelent;
  dc_plt_size : present live kDtJmprel <-> present live kDtPltrelsz;
  dc_plt_type : present live kDtJmprel <-> present live kDtPltrel;
  dc_plt_is_rel v : tag_value live kDtPltrel = Some v -> v = kDtRel;
  dc_init_array : present live kDtInitArray <-> present live kDtInitArraySz;
  dc_fini_array : present live kDtFiniArray <-> present live kDtFiniArraySz;
  dc_array_sizes v : tag_value live kDtInitArraySz = Some v \/ tag_value live kDtFiniArraySz = Some v ->
    v mod 4 = 0;
  dc_definitions : present live kDtVerdef <-> present live kDtVerdefnum;
  dc_requirements : present live kDtVerneed <-> present live kDtVerneednum;
  dc_version_symbols : present live kDtVersym -> present live kDtSymtab;
  dc_version_names : present live kDtVerdef \/ present live kDtVerneed -> present live kDtStrtab;
}.

(** A descriptor holds the values of its two tags. *)
Definition described_pair (live : list Elf32DynamicEntry) (t1 t2 : Z) (o : option Elf32CollectedTable) : Prop :=
  match o with
  | Some c => tag_value live t1 = Some (ct_address_value c) /\ tag_value live t2 = Some (ct_size c)
  | None => tag_value live t1 = None
  end.

Definition flag_bit (o : option Z) (i : Z) : bool := match o with Some v => Z.testbit v i | None => false end.

(** Every field of the result. *)
Record described (live : list Elf32DynamicEntry) (c : Elf32CollectedLinkerMetadata) : Prop := {
  de_string_table : described_pair live kDtStrtab kDtStrsz (cm_string_table c);
  de_symbol_table : described_pair live kDtSymtab kDtSyment (cm_symbol_table c);
  de_sysv_hash : cm_sysv_hash_table c = tag_value live kDtHash;
  de_gnu_hash : cm_gnu_hash_table c = tag_value live kDtGnuHash;
  de_rel : match cm_rel_table c with
           | Some r => tag_value live kDtRel = Some (crt_address_value r) /\
    tag_value live kDtRelsz = Some (crt_size r) /\
    tag_value live kDtRelent = Some (crt_entry_size r)
           | None => tag_value live kDtRel = None
           end;
  de_plt_rel : match cm_plt_rel_table c with
               | Some r => tag_value live kDtJmprel = Some (crt_address_value r) /\
    tag_value live kDtPltrelsz = Some (crt_size r) /\ crt_entry_size r = 8
               | None => tag_value live kDtJmprel = None
               end;
  de_init_array : described_pair live kDtInitArray kDtInitArraySz (cm_init_array c);
  de_fini_array : described_pair live kDtFiniArray kDtFiniArraySz (cm_fini_array c);
  de_version_symbols : cm_version_symbol_address_value c = tag_value live kDtVersym;
  de_definitions : described_pair live kDtVerdef kDtVerdefnum (cm_version_definition_table c);
  de_requirements : described_pair live kDtVerneed kDtVerneednum (cm_version_requirement_table c);
  de_soname : cm_soname_offset c = tag_value live kDtSoname;
  de_needed : cm_needed_offsets c = needed_values live;
  de_flags_1 : cm_flags_1 c = tag_value live kDtFlags1;
  de_global : cm_global c = flag_bit (tag_value live kDtFlags1) 1;
  de_symbolic : cm_symbolic c = true <->
    (exists e, e ∈ live /\ de_tag e = kDtSymbolic) \/ flag_bit (tag_value live kDtFlags) 1 = true;
  de_versioning : cm_has_symbol_versioning c = true <->
    present live kDtVersym \/ present live kDtVerdef \/ present live kDtVerneed;
}.

(** The completeness checks never report a duplicate. *)
Lemma check_tables_error s err : check_tables s = Err err -> err <> Elf32LinkerMetadataError.DuplicateSingleton.
Proof.
  unfold check_tables. intros E. repeat (apply bind_err in E as [[_ <-]%fail_if_err|(? & _ & E)]; [done|]).
  by apply fail_if_err in E as [_ <-].
Qed.

Lemma check_arrays_error f err :
  check_arrays_versions f = Err err -> err <> Elf32LinkerMetadataError.DuplicateSingleton.
Proof.
  unfold check_arrays_versions. intros E. repeat (apply bind_err in E as [[_ <-]%fail_if_err|(? & _ & E)]; [done|]).
  by apply fail_if_err in E as [_ <-].
Qed.

Section collected.
Context (l : list Elf32DynamicEntry) (s : collect_state) (Hs : collected_from l s).

Lemma has_present tag : tag ∈ singleton_tags -> has (cs_fields s) tag = true <-> present l tag.
Proof. intros Ht. unfold has, present. by rewrite bool_decide_eq_true, (collected_field l s). Qed.

Lemma pair_complete_present t1 t2 :
  t1 ∈ singleton_tags -> t2 ∈ singleton_tags ->
  negb (pair_complete (cs_fields s) t1 t2) = false <-> (present l t1 <-> present l t2).
Proof.
  intros H1 H2. rewrite negb_false_iff, <- !has_present by done. unfold pair_complete.
  destruct (has _ t1), (has _ t2); cbn; naive_solver.
Qed.

Lemma field_count_present t1 t2 t3 :
  t1 ∈ singleton_tags -> t2 ∈ singleton_tags -> t3 ∈ singleton_tags ->
  negb (field_count (cs_fields s) [t1; t2; t3] =? 0) && negb (field_count (cs_fields s) [t1; t2; t3] =? 3) = false <->
  (present l t1 <-> present l t2) /\ (present l t1 <-> present l t3).
Proof.
  intros H1 H2 H3. rewrite <- !has_present by done. unfold field_count. cbn [foldr].
  destruct (has _ t1), (has _ t2), (has _ t3); cbn; naive_solver.
Qed.

Lemma names_present :
  (has (cs_fields s) kDtSoname || negb (match cs_needed_offsets s with [] => true | _ => false end))
    && negb (has (cs_fields s) kDtStrtab) = false <->
  (present l kDtSoname \/ needed_values l <> [] -> present l kDtStrtab).
Proof.
  rewrite <- !has_present, <- (cf_needed _ _ Hs) by in_singletons.
  destruct (has _ kDtSoname), (has _ kDtStrtab), (cs_needed_offsets s); cbn; naive_solver.
Qed.

Lemma array_size_present tag :
  tag ∈ singleton_tags ->
  match cs_fields s !! tag with Some v => negb (v mod 4 =? 0) | None => false end = false <->
  forall v, tag_value l tag = Some v -> v mod 4 = 0.
Proof.
  intros Ht. rewrite (collected_field l s) by done. destruct (tag_value l tag) as [v|]; [|done].
  rewrite negb_false_iff, Z.eqb_eq. naive_solver.
Qed.

(** The checks accept exactly the complete sections. *)
Lemma checks_complete :
  (check_tables s ;; check_arrays_versions (cs_fields s)) = Ok tt <-> dynamic_complete l.
Proof.
  unfold check_tables, check_arrays_versions, metadata_result. cbv zeta.
  rewrite then_ok, !fail_if_then, !fail_if_ok, !orb_false_iff, !field_count_present, !pair_complete_present,
    names_present, !array_size_present by in_singletons.
  assert (Hplt : match cs_fields s !! kDtPltrel with Some v => negb (v =? kDtRel) | None => false end = false <->
            forall v, tag_value l kDtPltrel = Some v -> v = kDtRel).
  { rewrite (collected_field l s) by (done || in_singletons). destruct (tag_value l kDtPltrel) as [v|]; [|done].
    rewrite negb_false_iff, Z.eqb_eq. naive_solver. }
  assert (Hvs : has (cs_fields s) kDtVersym && negb (has (cs_fields s) kDtSymtab) = false <->
            (present l kDtVersym -> present l kDtSymtab)).
  { rewrite <- !has_present by in_singletons. destruct (has _ kDtVersym), (has _ kDtSymtab); cbn; naive_solver. }
  assert (Hvn : (has (cs_fields s) kDtVerdef || has (cs_fields s) kDtVerneed) && negb (has (cs_fields s) kDtStrtab) = false <->
            (present l kDtVerdef \/ present l kDtVerneed -> present l kDtStrtab)).
  { rewrite <- !has_present by in_singletons.
    destruct (has _ kDtVerdef), (has _ kDtVerneed), (has _ kDtStrtab); cbn; naive_solver. }
  rewrite Hplt, Hvs, Hvn. split.
  - intros (((? & ?) & ? & (? & ?) & (? & ?) & ?) & ? & ? & (? & ?) & ? & ? & ? & ?). split; try done; naive_solver.
  - intros []. split_and!; try done; intros v Hv; eauto.
Qed.

Lemma described_table t1 t2 :
  t1 ∈ singleton_tags -> t2 ∈ singleton_tags -> (present l t1 <-> present l t2) ->
  described_pair l t1 t2 (collected_table (cs_fields s) t1 t2).
Proof.
  intros H1 H2 Hp. unfold described_pair, collected_table, cell. rewrite !(collected_field l s) by done.
  unfold present in Hp. destruct (tag_value l t1) as [v|]; cbn; [|done].
  destruct Hp as [[w Hw] _]; [by eexists|]. by rewrite Hw.
Qed.

Lemma bit_set_testbit o : bit_set o 2 = flag_bit o 1.
Proof.
  destruct o as [v|]; [|done]. unfold bit_set, flag_bit. change 2 with (2 ^ 1) at 1.
  rewrite land_bit by lia. apply negb_involutive.
Qed.

Lemma symbolic_entry : cs_has_dt_symbolic s = true <-> exists e, e ∈ l /\ de_tag e = kDtSymbolic.
Proof.
  rewrite (cf_symbolic _ _ Hs), negb_true_iff, Nat.eqb_neq. unfold tag_count. split.
  - intros Hn. destruct (filter _ l) as [|e r] eqn:Ef; [done|]. exists e.
    assert (He : e ∈ filter (fun e => de_tag e = kDtSymbolic) l) by (rewrite Ef; by left).
    apply list_elem_of_filter in He. naive_solver.
  - intros (e & Hin & Ht) Hz. apply nil_length_inv in Hz.
    assert (He : e ∈ filter (fun e => de_tag e = kDtSymbolic) l) by (by apply list_elem_of_filter).
    rewrite Hz in He. by apply elem_of_nil in He.
Qed.

Lemma collected_described : dynamic_complete l -> described l (collected_metadata s).
Proof.
  intros [C1 C2 C3 C4 C5 C6 C7 C8 C9 C10 C11 C12 C13 C14 C15]. unfold collected_metadata.
  split; cbn [cm_string_table cm_symbol_table cm_sysv_hash_table cm_gnu_hash_table cm_rel_table cm_plt_rel_table
    cm_init_array cm_fini_array cm_version_symbol_address_value cm_version_definition_table
    cm_version_requirement_table cm_soname_offset cm_needed_offsets cm_flags_1 cm_global cm_symbolic
    cm_has_symbol_versioning];
    try (apply described_table; [in_singletons|in_singletons|done]);
    try (apply (collected_field _ _ _ Hs); in_singletons); try apply Hs.
  - unfold cell. rewrite !(collected_field l s) by (done || in_singletons). unfold present in *.
    destruct (tag_value l kDtRel) as [v|]; cbn; [|done].
    destruct C4 as [[a Ha] _]; [by eexists|]. destruct C5 as [[b Hb] _]; [by eexists|]. by rewrite Ha, Hb.
  - unfold cell. rewrite !(collected_field l s) by (done || in_singletons). unfold present in *.
    destruct (tag_value l kDtJmprel) as [v|]; cbn; [|done].
    destruct C6 as [[a Ha] _]; [by eexists|]. by rewrite Ha.
  - rewrite (collected_field l s) by (done || in_singletons). apply bit_set_testbit.
  - rewrite (collected_field l s), orb_true_iff by (done || in_singletons).
    change kDfSymbolic with 2. by rewrite bit_set_testbit, symbolic_entry.
  - rewrite !orb_true_iff, !has_present by in_singletons. tauto.
Qed.
End collected.

(** C31: [collect_elf32_linker_metadata] is exact. It succeeds precisely when, among
    the entries before the first DT_NULL, no supported tag is repeated and the section
    is complete: tables have their address and size tags (all or none of them), PLT
    relocations are in REL form, array sizes are multiples of four, names, version
    definitions and version requirements require a string table, and version symbols
    require a symbol table. Then every field of the result holds the values of its own tags,
    DT_NEEDED in order. [DuplicateSingleton] means precisely that a tag is repeated. *)
Theorem collect_elf32_linker_metadata_spec es :
  let live := live_entries es in
  match collect_elf32_linker_metadata es with
  | Ok c => unique_tags live /\ dynamic_complete live /\ described live c
  | Err Elf32LinkerMetadataError.DuplicateSingleton => ~ unique_tags live
  | Err _ => unique_tags live /\ ~ dynamic_complete live
  end.
Proof.
  intros live. pose proof (collect_entries_spec [] _ es collected_from_nil) as Hc. cbn [app] in Hc.
  fold live in Hc. unfold collect_elf32_linker_metadata.
  destruct (collect_entries _ es) as [s|err]; cbn [mbind result_bind]; [|by destruct Hc as [-> Hc]].
  pose proof (checks_complete live s Hc) as Hcomplete.
  destruct (check_tables s) as [[]|err] eqn:E1; cbn [mbind result_bind] in *.
  - destruct (check_arrays_versions (cs_fields s)) as [[]|err] eqn:E2; cbn [mbind result_bind].
    + split; [apply Hc|]. split; [by apply Hcomplete|]. apply collected_described; [done|]. by apply Hcomplete.
    + apply check_arrays_error in E2. assert (~ dynamic_complete live) by (by intros ?%Hcomplete).
      destruct err; try done; (split; [apply Hc|done]).
  - apply check_tables_error in E1. assert (~ dynamic_complete live) by (by intros ?%Hcomplete).
    destruct err; try done; (split; [apply Hc|done]).
Qed.

(** ** What validation guarantees *)
Section validated.
Context {M : Type} `{GuestMemorySpec M}.
Context (m : M) (bias : Z).
Hypothesis (Hm : gm_ok m) (Hbias : is_u32 bias).

(** [a, a + n) is readable guest memory inside the address space. *)
Definition range_readable (a n : Z) : Prop :=
  is_u32 a /\ a + n <= kGuestAddressSpaceSize /\
  forall x, a <= x < a + n -> is_Some (gm_peek m x).

(** The 256-byte probing loop decides byte-wise readability. *)
Lemma readable_range_iff a n :
  is_u32 a -> 0 <= n -> a + n <= kGuestAddressSpaceSize ->
  readable_range m a n = true <-> forall x, a <= x < a + n -> is_Some (gm_peek m x).
Proof.
  intros Ha Hn Hfit. unfold readable_range. destruct (n =? 0) eqn:E; bool_prop.
  { split; [|done]. intros _ x Hx. lia. }
  rewrite forallb_elem.
  assert (Hchunk : forall off, 0 <= off < n ->
            readable_chunk m a n off = true <->
            forall x, a + off <= x < a + off + Z.min kReadValidationChunkSize (n - off) ->
                      is_Some (gm_peek m x)).
  { intros off Ho. unfold readable_chunk, kReadValidationChunkSize. rewrite u64_small by word_lia.
    rewrite u32_small, (proj2 (Z.leb_le _ _)) by word_lia. cbn. rewrite bool_decide_eq_true.
    apply gm_read_is_Some; [done|word_lia|unfold span_max; word_lia]. }
  split; intros Hall.
  - intros x Hx. set (off := align_down (x - a) kReadValidationChunkSize).
    destruct (align_down_spec (x - a) kReadValidationChunkSize) as (_ & A2 & A3);
      [done|lia|]. fold off in A2, A3.
    apply (proj1 (Hchunk off ltac:(lia))); [|unfold kReadValidationChunkSize in *; lia].
    apply Hall. apply page_in_strided; [done|done|lia].
  - intros off (i & Hi & -> & Ho)%elem_of_strided; [|done].
    unfold kReadValidationChunkSize in *. apply Hchunk; [lia|]. intros x Hx. apply Hall. lia.
Qed.

Lemma rebase_address_Some v a :
  is_u32 v -> rebase_address v bias = Some a -> a = v + bias /\ is_u32 a.
Proof.
  intros Hv. unfold rebase_address. rewrite u64_small by word_lia.
  destruct (UINT32_MAX <? v + bias) eqn:E; [done|]. bool_prop.
  rewrite u32_small by word_lia. intros [= <-]. split; [done|word_lia].
Qed.

Lemma validated_address_ok v n a :
  is_u32 v -> is_u32 n -> validated_address m bias v n = Ok a ->
  a = v + bias /\ range_readable a n.
Proof.
  intros Hv Hn Hva. unfold validated_address in Hva.
  apply bind_ok in Hva as (a' & Hr%or_fail_ok & Hva).
  apply rebase_address_Some in Hr as [-> Ha]; [|done].
  apply bind_ok in Hva as ([] & G1%fail_if_ok & Hva).
  apply bind_ok in Hva as ([] & G2%fail_if_ok & [= <-]). apply negb_false_iff in G1, G2.
  unfold range_fits in G1. rewrite u64_small in G1 by word_lia. bool_prop.
  split; [done|]. split; [done|]. split; [done|].
  apply readable_range_iff; done || word_lia.
Qed.

(** The promise of [build_elf32_linker_metadata]. *)
Record metadata_wf (md : Elf32LinkerMetadata) : Prop := {
  mw_strings : forall t, lm_string_table md = Some t -> range_readable (st_guest_address t) (st_size t);
  mw_soname : forall o, lm_soname_offset md = Some o ->
    exists t, lm_string_table md = Some t /\ 0 <= o < st_size t;
  mw_needed : Forall (fun o => exists t, lm_string_table md = Some t /\ 0 <= o < st_size t)
    (lm_needed_offsets md);
  mw_symbols : forall t, lm_symbol_table md = Some t ->
    sy_entry_size t = kElf32SymbolEntrySize /\ range_readable (sy_guest_address t) 16;
  mw_sysv : forall t, lm_sysv_hash_table md = Some t -> range_readable (ht_guest_address t) 8;
  mw_gnu : forall t, lm_gnu_hash_table md = Some t -> range_readable (ht_guest_address t) 16;
  mw_rel : forall t, lm_rel_table md = Some t \/ lm_plt_rel_table md = Some t ->
    rt_entry_size t = kElf32RelEntrySize /\ rt_size t mod 8 = 0 /\
    range_readable (rt_guest_address t) (rt_size t);
  mw_arrays : forall t, lm_init_array md = Some t \/ lm_fini_array md = Some t ->
    range_readable (fa_guest_address t) (fa_size t);
  mw_versym : forall t, lm_version_symbol_table md = Some t -> range_readable (vs_guest_address t) 2;
  mw_verdef : forall t, lm_version_definition_table md = Some t ->
    is_u32 (vt_guest_address t) /\ (vt_count t <> 0 -> range_readable (vt_guest_address t) 20);
  mw_verneed : forall t, lm_version_requirement_table md = Some t ->
    is_u32 (vt_guest_address t) /\ (vt_count t <> 0 -> range_readable (vt_guest_address t) 16);
}.

Lemma when_present_ok {A B} (o : option A) (f : A -> metadata_result B) r b :
  when_present o f = Ok r -> r = Some b -> exists a, o = Some a /\ f a = Ok b.
Proof.
  unfold when_present. destruct o as [a|]; [|by intros [= <-]].
  intros Hw ->. apply bind_ok in Hw as (b' & Hb & [= ->]). eauto.
Qed.

Lemma build_version_table_ok n c t :
  is_u32 (ct_address_value c) -> is_u32 n -> build_version_table m bias n c = Ok t ->
  is_u32 (vt_guest_address t) /\ (vt_count t <> 0 -> range_readable (vt_guest_address t) n).
Proof.
  intros Hv Hn Hb. unfold build_version_table in Hb.
  apply bind_ok in Hb as (a & Hr%or_fail_ok & Hb). apply rebase_address_Some in Hr as [-> Ha]; [|done].
  apply bind_ok in Hb as ([] & Hc & [= <-]). cbn. split; [done|]. intros Hne.
  rewrite (proj2 (Z.eqb_neq _ _) Hne) in Hc. apply bind_ok in Hc as ([] & G1%fail_if_ok & G2%fail_if_ok).
  apply negb_false_iff in G1, G2. unfold range_fits in G1. rewrite u64_small in G1 by word_lia. bool_prop.
  split; [done|]. split; [done|]. apply readable_range_iff; done || word_lia.
Qed.

Lemma build_rel_tables_ok c t :
  is_u32 (crt_address_value c) -> is_u32 (crt_size c) ->
  build_rel_table m bias c = Ok t \/ build_plt_rel_table m bias c = Ok t ->
  rt_entry_size t = kElf32RelEntrySize /\ rt_size t mod 8 = 0 /\
  range_readable (rt_guest_address t) (rt_size t).
Proof.
  intros Hv Hn [Hb|Hb].
  - unfold build_rel_table in Hb. apply bind_ok in Hb as ([] & G1%fail_if_ok & Hb).
    apply bind_ok in Hb as ([] & G2%fail_if_ok & Hb). apply bind_ok in Hb as (a & Ha & [= <-]).
    bool_prop. rewrite G1 in G2. apply validated_address_ok in Ha as [_ Ha]; done.
  - unfold build_plt_rel_table in Hb. apply bind_ok in Hb as ([] & G1%fail_if_ok & Hb).
    apply bind_ok in Hb as (a & Ha & [= <-]). bool_prop.
    apply validated_address_ok in Ha as [_ Ha]; done.
Qed.

Lemma build_string_table_ok soname needed c t :
  is_u32 (ct_address_value c) -> is_u32 (ct_size c) ->
  build_string_table m bias soname needed c = Ok t ->
  range_readable (st_guest_address t) (st_size t) /\
  (forall o, soname = Some o -> o < st_size t) /\ Forall (fun o => o < st_size t) needed.
Proof.
  intros Hv Hn Hb. unfold build_string_table in Hb.
  apply bind_ok in Hb as ([] & G1%fail_if_ok & Hb). apply bind_ok in Hb as ([] & G2%fail_if_ok & Hb).
  apply bind_ok in Hb as (a & Ha & [= <-]). cbn. apply validated_address_ok in Ha as [_ Ha]; [|done..].
  split_and!; [done| |].
  - intros o ->. by bool_prop.
  - apply Forall_forall. intros o Ho. apply Z.lt_nge. intros Hle.
    apply not_true_iff_false in G2. apply G2, existsb_elem. exists o. split; [done|]. by apply Z.leb_le.
Qed.
End validated.

(** ** Typing of collected values *)
Lemma live_entries_sub es e : e ∈ live_entries es -> e ∈ es.
Proof.
  induction es as [|x es IH]; cbn; [done|]. destruct (_ =? _); set_solver.
Qed.

Lemma tag_value_typed es tag v :
  Forall entry_typed es -> tag_value (live_entries es) tag = Some v -> is_u32 v.
Proof.
  intros HF Hv. unfold tag_value in Hv. apply fmap_Some in Hv as (e & He & ->).
  apply List.find_some in He as [He%list_elem_of_In _].
  rewrite Forall_forall in HF. by apply (HF e), live_entries_sub.
Qed.

Lemma needed_typed es o : Forall entry_typed es -> o ∈ needed_values (live_entries es) -> is_u32 o.
Proof.
  intros HF Ho. unfold needed_values in Ho. apply list_elem_of_fmap in Ho as (e & -> & He).
  apply list_elem_of_filter in He as [_ He]. rewrite Forall_forall in HF.
  by apply (HF e), live_entries_sub.
Qed.

Definition table_typed (c : Elf32CollectedTable) : Prop :=
  is_u32 (ct_address_value c) /\ is_u32 (ct_size c).
Definition rel_typed (c : Elf32CollectedRelTableMetadata) : Prop :=
  is_u32 (crt_address_value c) /\ is_u32 (crt_size c).

(** Every collected value is a 32-bit dynamic value. *)
Record collected_typed (c : Elf32CollectedLinkerMetadata) : Prop := {
  ty_tables : forall t, t ∈ [cm_string_table c; cm_symbol_table c; cm_init_array c; cm_fini_array c;
      cm_version_definition_table c; cm_version_requirement_table c] -> from_option table_typed True t;
  ty_rels : from_option rel_typed True (cm_rel_table c) /\
            from_option rel_typed True (cm_plt_rel_table c);
  ty_values : forall v, Some v ∈ [cm_sysv_hash_table c; cm_gnu_hash_table c;
      cm_version_symbol_address_value c; cm_soname_offset c] -> is_u32 v;
  ty_needed : Forall is_u32 (cm_needed_offsets c);
  ty_strings : is_Some (cm_soname_offset c) \/ cm_needed_offsets c <> [] -> is_Some (cm_string_table c);
}.

Lemma fields_typed es s tag v :
  Forall entry_typed es -> collected_from (live_entries es) s ->
  cs_fields s !! tag = Some v -> is_u32 v.
Proof.
  intros HF [_ Hf _ _] Hv. rewrite Hf in Hv. case_decide; [|done]. by eapply tag_value_typed.
Qed.

Lemma cell_typed es s tag :
  Forall entry_typed es -> collected_from (live_entries es) s -> is_u32 (cell (cs_fields s) tag).
Proof.
  intros HF Hs. unfold cell. destruct (cs_fields s !! tag) eqn:E; cbn; [by eapply fields_typed|].
  word_lia.
Qed.

Lemma collect_typed es c :
  Forall entry_typed es -> collect_elf32_linker_metadata es = Ok c -> collected_typed c.
Proof.
  intros HF Hc. pose proof (collect_entries_spec [] _ es collected_from_nil) as Hs. cbn [app] in Hs.
  unfold collect_elf32_linker_metadata in Hc. apply bind_ok in Hc as (s & Es & Hc).
  rewrite Es in Hs. apply bind_ok in Hc as ([] & Et & Hc). apply bind_ok in Hc as ([] & _ & [= <-]).
  assert (Htab : forall t1 t2, from_option table_typed True (collected_table (cs_fields s) t1 t2)).
  { intros t1 t2. unfold collected_table. destruct (cs_fields s !! t1) eqn:E; cbn; [|done].
    split; cbn; [by eapply fields_typed|by eapply cell_typed]. }
  split; cbn.
  - intros t Ht. repeat (apply elem_of_cons in Ht as [->|Ht]; [apply Htab|]).
    by apply not_elem_of_nil in Ht.
  - split; [destruct (cs_fields s !! kDtRel) eqn:E|destruct (cs_fields s !! kDtJmprel) eqn:E];
      cbn; try done; split; cbn; first [by eapply fields_typed|by eapply cell_typed].
  - intros v Hv. repeat (apply elem_of_cons in Hv as [Hv|Hv]; [symmetry in Hv; by eapply fields_typed|]).
    by apply not_elem_of_nil in Hv.
  - rewrite (cf_needed _ _ Hs). apply Forall_forall. intros o Ho. by eapply needed_typed.
  - unfold check_tables in Et. apply bind_ok in Et as ([] & G%fail_if_ok & _).
    apply orb_false_iff in G as [_ G]. rewrite !has_lookup in G. intros Hor.
    unfold collected_table. apply fmap_is_Some. destruct (cs_fields s !! kDtStrtab); [by eexists|].
    destruct Hor as [[v Hv]|Hne]; [by rewrite Hv in G|].
    destruct (cs_needed_offsets s); [done|]. by rewrite orb_true_r in G.
Qed.

(** The tables that are a single rebased address, and the version tables. *)
Ltac address_table B T :=
  let v := fresh "v" in let Ev := fresh "Ev" in let Hbt := fresh "Hbt" in let Hv := fresh "Hv" in
  intros ? Ht; destruct (when_present_ok _ _ _ _ B Ht) as (v & Ev & Hbt);
  apply bind_ok in Hbt as (? & Hv & [= <-]);
  eapply validated_address_ok in Hv as [_ Hv]; try (done || word_lia);
  apply T; rewrite Ev; set_solver.

Ltac version_table B T :=
  let ct := fresh "ct" in let Ect := fresh "Ect" in let Hbt := fresh "Hbt" in
  intros ? Ht; destruct (when_present_ok _ _ _ _ B Ht) as (ct & Ect & Hbt);
  eapply build_version_table_ok; [done..| |done|exact Hbt]; apply T; rewrite Ect; set_solver.

Lemma build_metadata_wf {M : Type} `{GuestMemorySpec M} (m : M) bias es md :
  gm_ok m -> is_u32 bias -> Forall entry_typed es ->
  build_elf32_linker_metadata m bias es = Ok md -> metadata_wf m md.
Proof.
  intros Hm Hb HF Hbuild. unfold build_elf32_linker_metadata in Hbuild.
  apply bind_ok in Hbuild as (c & Hc & Hbuild). apply (collect_typed es c HF) in Hc as [T1 [T2 T3] T4 T5 T6].
  apply bind_ok in Hbuild as (o1 & B1 & Hbuild). apply bind_ok in Hbuild as (o2 & B2 & Hbuild).
  apply bind_ok in Hbuild as (o3 & B3 & Hbuild). apply bind_ok in Hbuild as (o4 & B4 & Hbuild).
  apply bind_ok in Hbuild as (o5 & B5 & Hbuild). apply bind_ok in Hbuild as (o6 & B6 & Hbuild).
  apply bind_ok in Hbuild as (o7 & B7 & Hbuild). apply bind_ok in Hbuild as (o8 & B8 & Hbuild).
  apply bind_ok in Hbuild as (o9 & B9 & Hbuild). apply bind_ok in Hbuild as (o10 & B10 & Hbuild).
  apply bind_ok in Hbuild as (o11 & B11 & [= <-]).
  assert (Htab : forall t, Some t ∈ [cm_string_table c; cm_symbol_table c; cm_init_array c;
            cm_fini_array c; cm_version_definition_table c; cm_version_requirement_table c] -> table_typed t)
    by (intros t Ht; apply (T1 (Some t) Ht)).
  assert (Hstr : forall ct, cm_string_table c = Some ct -> exists t, o1 = Some t /\
            range_readable m (st_guest_address t) (st_size t) /\
            (forall o, cm_soname_offset c = Some o -> o < st_size t) /\
            Forall (fun o => o < st_size t) (cm_needed_offsets c)).
  { intros ct Ect. rewrite Ect in B1. apply bind_ok in B1 as (t & B1 & [= <-]). exists t. split; [done|].
    eapply build_string_table_ok; [done..| | |exact B1]; apply Htab; rewrite Ect; set_solver. }
  split; cbn.
  - intros t Ht. destruct (when_present_ok _ _ _ _ B1 Ht) as (ct & Ect & _).
    destruct (Hstr ct Ect) as (t' & ? & ? & _). by simplify_eq.
  - intros o Ho. destruct T6 as [ct Ect]; [left; by rewrite Ho|].
    destruct (Hstr ct Ect) as (t & Et & _ & Hs & _). exists t. split; [done|].
    split; [|by apply Hs]. apply T4. rewrite Ho. set_solver.
  - apply Forall_forall. intros o Ho. destruct T6 as [ct Ect]; [right; by intros E; rewrite E in Ho; apply not_elem_of_nil in Ho|].
    destruct (Hstr ct Ect) as (t & Et & _ & _ & Hs). exists t. split; [done|].
    rewrite Forall_forall in Hs, T5. split; [by apply (T5 o)|by apply Hs].
  - intros t Ht. destruct (when_present_ok _ _ _ _ B2 Ht) as (ct & Ect & Hbt).
    destruct (Htab ct) as [Ha _]; [rewrite Ect; set_solver|]. unfold build_symbol_table in Hbt.
    apply bind_ok in Hbt as ([] & G%fail_if_ok & Hbt). apply bind_ok in Hbt as (a & Hv & [= <-]).
    bool_prop. split; [done|]. eapply validated_address_ok in Hv as [_ Hv]; done || word_lia.
  - address_table B3 T4.
  - address_table B4 T4.
  - intros t [Ht|Ht].
    + destruct (when_present_ok _ _ _ _ B10 Ht) as (ct & Ect & Hbt). rewrite Ect in T2.
      eapply build_rel_tables_ok; [done..|apply T2|apply T2|left; exact Hbt].
    + destruct (when_present_ok _ _ _ _ B11 Ht) as (ct & Ect & Hbt). rewrite Ect in T3.
      eapply build_rel_tables_ok; [done..|apply T3|apply T3|right; exact Hbt].
  - intros t [Ht|Ht];
      [destruct (when_present_ok _ _ _ _ B8 Ht) as (ct & Ect & Hbt)
      |destruct (when_present_ok _ _ _ _ B9 Ht) as (ct & Ect & Hbt)];
      apply bind_ok in Hbt as (a & Hv & [= <-]);
      (eapply validated_address_ok in Hv as [_ Hv]; try done); apply Htab; rewrite Ect; set_solver.
  - address_table B5 T4.
  - version_table B6 Htab.
  - version_table B7 Htab.
Qed.

Lemma collect_described es c :
  collect_elf32_linker_metadata es = Ok c -> described (live_entries es) c.
Proof.
  intros Hc. pose proof (collect_entries_spec [] _ es collected_from_nil) as Hs. cbn [app] in Hs.
  unfold collect_elf32_linker_metadata in Hc. apply bind_ok in Hc as (s & Es & Hc). rewrite Es in Hs.
  apply bind_ok in Hc as ([] & E1 & Hc). apply bind_ok in Hc as ([] & E2 & [= <-]).
  apply (collected_described _ s Hs). apply (checks_complete _ s Hs). by rewrite E1.
Qed.

(** Where the names of a section are. *)
Lemma build_metadata_names {M : Type} `{GuestMemorySpec M} (m : M) bias es md :
  gm_ok m -> is_u32 bias -> Forall entry_typed es ->
  build_elf32_linker_metadata m bias es = Ok md ->
  lm_needed_offsets md = needed_values (live_entries es) /\
  forall t, lm_string_table md = Some t ->
    is_u32 (st_size t) /\
    exists tab, tag_value (live_entries es) kDtStrtab = Some tab /\ st_guest_address t = tab + bias.
Proof.
  intros Hm Hb HF Hbuild. unfold build_elf32_linker_metadata in Hbuild.
  apply bind_ok in Hbuild as (c & Hc & Hbuild). apply collect_described in Hc as Hd.
  apply (collect_typed es c HF) in Hc as [T1 _ _ _ _].
  apply bind_ok in Hbuild as (o1 & B1 & Hbuild). do 10 apply bind_ok in Hbuild as (? & _ & Hbuild).
  injection Hbuild as <-. cbn. split; [apply Hd|]. intros t Ht.
  destruct (when_present_ok _ _ _ _ B1 Ht) as (ct & Ect & Hbt).
  destruct (T1 (Some ct)) as [Ha Hz]; [rewrite Ect; set_solver|].
  unfold build_string_table in Hbt. do 2 apply bind_ok in Hbt as ([] & _ & Hbt).
  apply bind_ok in Hbt as (a & Hv & [= <-]). cbn. split; [done|].
  apply validated_address_ok in Hv as [-> _]; [|done..]. exists (ct_address_value ct). split; [|done].
  pose proof (de_string_table _ _ Hd) as Hp. rewrite Ect in Hp. apply Hp.
Qed.

(** C30: every table [build_elf32_linker_metadata] hands to the later stages is
    safe to use: each declared range (string table, symbol entry, hash headers,
    REL and PLT REL tables, init/fini arrays, version records) is readable guest
    memory that does not leave the 4 GiB space, entry sizes are the ELF32 ones,
    relocation tables hold whole entries, and DT_SONAME/DT_NEEDED offsets lie
    inside the string table. *)
Theorem build_elf32_linker_metadata_safe {M : Type} `{GuestMemorySpec M} (m : M) bias es md :
  gm_ok m -> is_u32 bias -> Forall entry_typed es ->
  build_elf32_linker_metadata m bias es = Ok md -> metadata_wf m md.
Proof. apply build_metadata_wf. Qed.

(** Witness: a string table of 16 bytes at 0x1000 + bias 0x1000 with one needed
    name and a soname. *)
Lemma build_elf32_linker_metadata_safe_witness :
  let es := [{| de_tag := kDtNeeded; de_value := 5 |}; {| de_tag := kDtStrtab; de_value := 4096 |};
             {| de_tag := kDtStrsz; de_value := 16 |}; {| de_tag := kDtSoname; de_value := 9 |};
             {| de_tag := 0; de_value := 0 |}] in
  exists md, build_elf32_linker_metadata demo_memory 4096 es = Ok md /\ metadata_wf demo_memory md.
Proof.
  intros es. eexists. split; [vm_compute; reflexivity|].
  apply (build_elf32_linker_metadata_safe demo_memory 4096 es).
  - exact demo_memory_wf.
  - by vm_compute.
  - repeat (constructor; [by vm_compute|]). constructor.
  - vm_compute. reflexivity.
Defined.
