(* ===== verification/LinkerStrings.v ===== *)
(** * Linker strings ([src/src/elf/elf32_linker_strings.h],
      [src/src/elf/metadata/elf32_linker_strings.cpp])

    Bounded, chunked reading of NUL-terminated names from a validated string
    table. A name is the list of its bytes. *)

From S2P Require Import Prelude Bytes GuestMemory MappedMemory LoadPlan Dynamic LinkerMetadata.

Module Elf32LinkerStringError.
Inductive t : Set :=
| None | MissingStringTable | StringOffsetOutOfRange | AddressOverflow | ReadFailed
| UnterminatedString | StringTooLong.

Definition to_string (error : t) : string :=
  match error with
  | None => "none"
  | MissingStringTable => "missing_string_table"
  | StringOffsetOutOfRange => "string_offset_out_of_range"
  | AddressOverflow => "address_overflow"
  | ReadFailed => "read_failed"
  | UnterminatedString => "unterminated_string"
  | StringTooLong => "string_too_long"
  end.
End Elf32LinkerStringError.

(** [Elf32LinkerStringOptions::max_string_bytes] *)
Definition Elf32LinkerStringOptions : Type := Z.

Record Elf32LinkerStrings := {
  ls_soname : option (list Z);
  ls_needed : list (list Z);
}.

Definition string_result := result Elf32LinkerStringError.t.

Definition kReadChunkSize : Z := 256.

(** The byte loop over one chunk; [position] is [inspected + index]. *)
Fixpoint scan_chunk (max_string_bytes position : Z) (buffer value : list Z)
    : list Z + string_result (list Z) :=
  match buffer with
  | [] => inl value
  | byte :: rest =>
      if byte =? 0 then inr (Ok value)
      else if max_string_bytes <=? position then inr (Err Elf32LinkerStringError.StringTooLong)
      else scan_chunk max_string_bytes (position + 1) rest (value ++ [byte])
  end.

Section read.
Context {M : Type} `{GuestMemory M}.

(** One iteration of the chunk loop, with its condition and the code after it. *)
Definition string_step (memory : M) (start remaining max_string_bytes : Z)
    (state : Z * list Z) : Z * list Z + string_result (list Z) :=
  let '(inspected, value) := state in
  let max_probe := max_string_bytes + 1 in
  if negb ((inspected <? remaining) && (inspected <? max_probe)) then
    inr (if remaining <=? inspected then Err Elf32LinkerStringError.UnterminatedString
         else Err Elf32LinkerStringError.StringTooLong)
  else
    let chunk64 := Z.min kReadChunkSize (Z.min (remaining - inspected) (max_probe - inspected)) in
    let current := start + inspected in
    let last := current + chunk64 - 1 in
    if (UINT32_MAX <? current) || (UINT32_MAX <? last)
    then inr (Err Elf32LinkerStringError.AddressOverflow)
    else
      match gm_read memory (u32 current) chunk64 with
      | None => inr (Err Elf32LinkerStringError.ReadFailed)
      | Some buffer =>
          match scan_chunk max_string_bytes inspected buffer value with
          | inl value => inl (inspected + chunk64, value)
          | inr r => inr r
          end
      end.

(** At most 2^32 bytes are inspected, at least one per iteration. *)
Definition string_fuel : positive := 2 ^ 33.

Definition read_elf32_string_table_entry (memory : M) (string_table : Elf32StringTableMetadata)
    (offset : Z) (options : Elf32LinkerStringOptions) : string_result (list Z) :=
  if st_size string_table <=? offset then Err Elf32LinkerStringError.StringOffsetOutOfRange
  else
    let start := u64 (st_guest_address string_table + offset) in
    if UINT32_MAX <? start then Err Elf32LinkerStringError.AddressOverflow
    else
      let remaining := st_size string_table - offset in
      match loop string_fuel (string_step memory start remaining options) (0, []) with
      | inr r => r
      | inl _ => Err Elf32LinkerStringError.StringTooLong
      end.

Definition build_elf32_linker_strings (memory : M) (metadata : Elf32LinkerMetadata)
    (options : Elf32LinkerStringOptions) : string_result Elf32LinkerStrings :=
  let has_requested_strings :=
    bool_decide (is_Some (lm_soname_offset metadata))
    || negb (match lm_needed_offsets metadata with [] => true | _ => false end) in
  if negb has_requested_strings then Ok {| ls_soname := None; ls_needed := [] |}
  else
    table ← or_fail (lm_string_table metadata) Elf32LinkerStringError.MissingStringTable;
    soname ← match lm_soname_offset metadata with
             | None => Ok None
             | Some offset =>
                 s ← read_elf32_string_table_entry memory table offset options; Ok (Some s)
             end;
    needed ← mapE (fun offset => read_elf32_string_table_entry memory table offset options)
               (lm_needed_offsets metadata);
    Ok {| ls_soname := soname; ls_needed := needed |}.
End read.

(** ** Specification: the C string at an address *)
Section spec.
Context {M : Type} `{GuestMemorySpec M}.

Definition nonzero_prefix (m : M) (a : Z) (v : list Z) : Prop :=
  forall i, 0 <= i < Z.of_nat (length v) -> gm_peek m (a + i) = Some (byte_at v i) /\ byte_at v i <> 0.

Definition is_cstring (m : M) (a : Z) (v : list Z) : Prop :=
  nonzero_prefix m a v /\ gm_peek m (a + Z.of_nat (length v)) = Some 0.

(** C strings are unique. *)
Lemma is_cstring_unique m a v w : is_cstring m a v -> is_cstring m a w -> v = w.
Proof.
  assert (Hle : forall v w, is_cstring m a v -> is_cstring m a w -> (length v <= length w)%nat).
  { intros v' w' [Hv _] [_ Hw]. destruct (decide (length v' <= length w')%nat) as [|Hgt]; [done|].
    exfalso. destruct (Hv (Z.of_nat (length w'))) as [Hp Hne]; [lia|]. congruence. }
  intros Hv Hw. apply list_eq_same_length with (length w); [done|by apply Nat.le_antisymm; apply Hle|].
  intros i x y Hi Hx Hy. destruct Hv as [Hv _], Hw as [Hw _].
  assert (Hlt : (i < length v)%nat) by by eapply lookup_lt_Some.
  destruct (Hv (Z.of_nat i)) as [E1 _]; [lia|]. destruct (Hw (Z.of_nat i)) as [E2 _]; [lia|].
  unfold byte_at in *. rewrite Nat2Z.id, Hx in E1. rewrite Nat2Z.id, Hy in E2. cbn in *. congruence.
Qed.

Lemma nonzero_prefix_snoc m a v b :
  nonzero_prefix m a v -> gm_peek m (a + Z.of_nat (length v)) = Some b -> b <> 0 ->
  nonzero_prefix m a (v ++ [b]).
Proof.
  intros Hv Hb Hne i Hi. rewrite length_app in Hi. cbn in Hi. unfold byte_at.
  destruct (decide (i < Z.of_nat (length v))) as [Hlt|Hge].
  - rewrite lookup_app_l by lia. apply Hv. lia.
  - replace i with (Z.of_nat (length v)) by lia. rewrite Nat2Z.id, list_lookup_middle by done. by split.
Qed.

(** The chunk loop, on bytes that agree with memory. *)
Lemma scan_chunk_spec m a max value buffer :
  nonzero_prefix m a value -> Z.of_nat (length value) <= max ->
  (forall i, 0 <= i < Z.of_nat (length buffer) ->
     gm_peek m (a + Z.of_nat (length value) + i) = Some (byte_at buffer i)) ->
  match scan_chunk max (Z.of_nat (length value)) buffer value with
  | inl value' => nonzero_prefix m a value' /\ length value' = (length value + length buffer)%nat /\
                  Z.of_nat (length value') <= max
  | inr (Ok value') => is_cstring m a value' /\ Z.of_nat (length value') <= max /\
                  (length value' < length value + length buffer)%nat
  | inr (Err e) => e = Elf32LinkerStringError.StringTooLong /\
                  max < Z.of_nat (length value + length buffer) /\
                  exists w, nonzero_prefix m a w /\ Z.of_nat (length w) = max + 1
  end.
Proof.
  revert value; induction buffer as [|b buffer IH]; intros value Hv Hlen Hbuf; cbn [scan_chunk].
  { cbn. split_and!; [done|lia|done]. }
  assert (Hb : gm_peek m (a + Z.of_nat (length value)) = Some b).
  { specialize (Hbuf 0). rewrite Z.add_0_r in Hbuf. apply Hbuf. cbn. lia. }
  destruct (b =? 0) eqn:E0; bool_prop.
  { subst b. cbn. split; [done|]. split; [done|lia]. }
  pose proof (nonzero_prefix_snoc m a value b Hv Hb E0) as Hv'.
  destruct (max <=? Z.of_nat (length value)) eqn:E1; bool_prop.
  { split; [done|]. split; [cbn; lia|]. exists (value ++ [b]). split; [done|].
    rewrite length_app; cbn. lia. }
  specialize (IH (value ++ [b]) Hv'). rewrite length_app in IH. cbn [length] in IH.
  replace (Z.of_nat (length value + 1)) with (Z.of_nat (length value) + 1) in IH by lia.
  specialize (IH ltac:(lia)). cbn [length].
  assert (Hbuf' : forall i, 0 <= i < Z.of_nat (length buffer) ->
            gm_peek m (a + (Z.of_nat (length value) + 1) + i) = Some (byte_at buffer i)).
  { intros i Hi. replace (a + _ + i) with (a + Z.of_nat (length value) + (i + 1)) by lia.
    rewrite Hbuf by (cbn; lia). unfold byte_at. replace (Z.to_nat (i + 1)) with (S (Z.to_nat i)) by lia.
    done. }
  specialize (IH Hbuf').
  destruct (scan_chunk _ _ buffer _) as [v'|[v'|e]]; intuition lia.
Qed.

Definition string_post (m : M) (start remaining max : Z) (r : string_result (list Z)) : Prop :=
  match r with
  | Ok v => is_cstring m start v /\ Z.of_nat (length v) <= max /\ Z.of_nat (length v) < remaining
  | Err Elf32LinkerStringError.UnterminatedString =>
      remaining <= max /\ exists w, nonzero_prefix m start w /\ Z.of_nat (length w) = remaining
  | Err Elf32LinkerStringError.StringTooLong =>
      max < remaining /\ exists w, nonzero_prefix m start w /\ Z.of_nat (length w) = max + 1
  | Err _ => False
  end.

Lemma string_loop_spec m start remaining max :
  gm_ok m -> is_u32 start -> is_u32 max -> 0 < remaining < 2 ^ 32 ->
  start + remaining <= kGuestAddressSpaceSize ->
  (forall x, start <= x < start + remaining -> is_Some (gm_peek m x)) ->
  exists r, loop string_fuel (string_step m start remaining max) (0, []) = inr r /\
            string_post m start remaining max r.
Proof.
  intros Hm Hs Hmax Hrem Hfit Hread.
  apply (loop_rule (fun st => nonzero_prefix m start st.2 /\ st.1 = Z.of_nat (length st.2) /\
                     st.1 <= remaining /\ st.1 <= max)
           (string_post m start remaining max) (fun st => remaining - st.1)).
  - intros [ins v] (Hv & Hi & Hr & Hx). cbn in *. unfold string_step.
    destruct ((ins <? remaining) && (ins <? max + 1)) eqn:E; cbn.
    + bool_prop. set (chunk := Z.min kReadChunkSize _).
      assert (Hc : 0 < chunk <= remaining - ins /\ chunk <= max + 1 - ins /\ chunk <= span_max)
        by (unfold chunk, kReadChunkSize, span_max; lia).
      rewrite (proj2 (orb_false_iff _ _)) by (rewrite !Z.ltb_ge; word_lia).
      rewrite u32_small by word_lia.
      assert (Hrd : is_Some (gm_read m (start + ins) chunk)).
      { apply gm_read_is_Some; [done|word_lia|lia|]. intros x Hxx. apply Hread. lia. }
      destruct Hrd as [buf Hbuf]. rewrite Hbuf.
      pose proof (gm_read_length m (start + ins) chunk buf Hm ltac:(word_lia) ltac:(lia) Hbuf) as Hlen.
      rewrite gm_read_spec in Hbuf by (done || word_lia).
      apply mapM_seqZ_Some in Hbuf as [_ Hbuf]; [|lia]. rewrite Hi in Hbuf.
      pose proof (scan_chunk_spec m start max v buf Hv ltac:(lia)) as Hsc.
      specialize (Hsc ltac:(intros i Hii; apply Hbuf; lia)). rewrite Hi.
      destruct (scan_chunk _ _ buf v) as [v'|[v'|e]]; cbn.
      * destruct Hsc as (S1 & S2 & S3). split_and!; try done; lia.
      * destruct Hsc as (S1 & S2 & S3). split_and!; [done|lia|lia].
      * destruct Hsc as (-> & S2 & S3). split; [lia|done].
    + destruct (remaining <=? ins) eqn:E2; bool_prop.
      * split; [lia|]. exists v. split; [done|lia].
      * apply andb_false_iff in E as [E|E]; bool_prop; lia.
  - cbn. split_and!; [|lia|lia|word_lia]. intros i Hi. cbn in Hi. lia.
  - cbn. unfold string_fuel. lia.
Qed.

Lemma read_string_spec m table offset max :
  gm_ok m -> range_readable m (st_guest_address table) (st_size table) ->
  is_u32 offset -> is_u32 (st_size table) -> is_u32 max ->
  match read_elf32_string_table_entry m table offset max with
  | Err Elf32LinkerStringError.StringOffsetOutOfRange => st_size table <= offset
  | r => offset < st_size table /\
         string_post m (st_guest_address table + offset) (st_size table - offset) max r
  end.
Proof.
  intros Hm (Ha & Hfit & Hread) Ho Hsz Hmax. unfold read_elf32_string_table_entry.
  destruct (st_size table <=? offset) eqn:E1; bool_prop; [done|].
  rewrite u64_small by word_lia. rewrite (proj2 (Z.ltb_ge _ _)) by word_lia.
  destruct (string_loop_spec m (st_guest_address table + offset) (st_size table - offset) max)
    as (r & Hl & Hp); try done; try word_lia.
  { intros x Hx. apply Hread. word_lia. }
  rewrite Hl. destruct r as [v|[]]; cbn in Hp; try done; tauto.
Qed.

(** Reading succeeds exactly on the C strings inside the table and within the limit. *)
Lemma read_string_iff m table offset max v :
  gm_ok m -> range_readable m (st_guest_address table) (st_size table) ->
  is_u32 offset -> is_u32 (st_size table) -> is_u32 max ->
  read_elf32_string_table_entry m table offset max = Ok v <->
  is_cstring m (st_guest_address table + offset) v /\ offset + Z.of_nat (length v) < st_size table /\
  Z.of_nat (length v) <= max.
Proof.
  intros Hm Hr Ho Hs Hx. pose proof (read_string_spec m table offset max Hm Hr Ho Hs Hx) as Hspec. split.
  - intros E. rewrite E in Hspec. destruct Hspec as (_ & ? & ? & ?). split_and!; [done|lia|lia].
  - intros (Hc & Hlt & Hle).
    assert (Hnul : forall w, nonzero_prefix m (st_guest_address table + offset) w -> ~ (length v < length w)%nat).
    { intros w Hw Hl. destruct (Hw (Z.of_nat (length v))) as [Hp Hne]; [lia|]. destruct Hc as [_ Hz]. congruence. }
    destruct (read_elf32_string_table_entry m table offset max) as [w|e]; cbn in Hspec.
    + destruct Hspec as (_ & Hw & _). f_equal. by eapply is_cstring_unique.
    + destruct e; try (by destruct Hspec as [_ []]).
      * lia.
      * destruct Hspec as (_ & _ & w & Hw & Hl). exfalso. apply (Hnul w Hw). lia.
      * destruct Hspec as (_ & _ & w & Hw & Hl). exfalso. apply (Hnul w Hw). lia.
Qed.
End spec.

(** The requested names are the C strings at their offsets, in order. *)
Lemma build_linker_strings_needed {M : Type} `{GuestMemorySpec M} (m : M) md max strings :
  gm_ok m -> is_u32 max -> metadata_wf m md ->
  (forall t, lm_string_table md = Some t -> is_u32 (st_size t)) ->
  build_elf32_linker_strings m md max = Ok strings ->
  Forall2 (fun offset nm => exists t, lm_string_table md = Some t /\
             is_cstring m (st_guest_address t + offset) nm)
    (lm_needed_offsets md) (ls_needed strings).
Proof.
  intros Hm Hmax Hwf Hsz Hb. unfold build_elf32_linker_strings in Hb. case_head Hb E.
  { injection Hb as <-. apply negb_true_iff, orb_false_iff in E as [_ E].
    destruct (lm_needed_offsets md); [constructor|done]. }
  apply bind_ok in Hb as (t & Ht%or_fail_ok & Hb). apply bind_ok in Hb as (so & _ & Hb).
  apply bind_ok in Hb as (names & Hn & [= <-]). cbn.
  pose proof (mw_needed _ _ Hwf) as Hoff. rewrite Forall_forall in Hoff.
  apply mapE_Forall2 in Hn. eapply Forall2_impl_elem; [exact Hn|]. intros o nm Ho _ Hr.
  exists t. split; [done|]. destruct (Hoff o Ho) as (t' & Ht' & Hlt). simplify_eq.
  pose proof (read_string_spec m t o max Hm (mw_strings _ _ Hwf t Ht)) as Hs.
  pose proof (Hsz t Ht). rewrite Hr in Hs. apply Hs; word_lia.
Qed.

(** C21: on a readable string table, the 256-byte chunked reader computes exactly
    the bounded C string at the offset: success returns the bytes up to the
    first NUL (at most [max_string_bytes] of them, inside the table);
    [UnterminatedString] means the table ends before a NUL and within the limit;
    [StringTooLong] means the first [max + 1] bytes are all non-zero. It never
    reports [ReadFailed] or [AddressOverflow], and always terminates. *)
Theorem read_elf32_string_table_entry_spec {M : Type} `{GuestMemorySpec M} (m : M) table offset max :
  gm_ok m -> range_readable m (st_guest_address table) (st_size table) ->
  is_u32 offset -> is_u32 (st_size table) -> is_u32 max ->
  match read_elf32_string_table_entry m table offset max with
  | Err Elf32LinkerStringError.StringOffsetOutOfRange => st_size table <= offset
  | r => offset < st_size table /\
         string_post m (st_guest_address table + offset) (st_size table - offset) max r
  end.
Proof. apply read_string_spec. Qed.

Definition demo_strings_memory : MappedGuestMemory.t :=
  snd (exec_op (OpWrite 4096 [0; 108; 105; 98; 99; 0; 109; 0]) demo_memory).

Lemma demo_strings_memory_wf : mapped_wf demo_strings_memory.
Proof.
  unfold demo_strings_memory. apply exec_op_wf; [exact demo_memory_wf|].
  split; [by vm_compute|]. split; [|by vm_compute]. apply is_bytes_forallb. reflexivity.
Defined.

Lemma demo_strings_readable : range_readable demo_strings_memory 4096 8.
Proof.
  split; [by vm_compute|]. split; [by vm_compute|].
  refine (proj1 (readable_range_iff demo_strings_memory demo_strings_memory_wf 4096 8 _ _ _) _).
  - by vm_compute.
  - by vm_compute.
  - by vm_compute.
  - vm_compute. reflexivity.
Defined.

Lemma read_elf32_string_table_entry_spec_witness :
  let table := {| st_guest_address := 4096; st_size := 8 |} in
  read_elf32_string_table_entry demo_strings_memory table 1 64 = Ok [108; 105; 98; 99] /\
  (1 < 8 /\ string_post demo_strings_memory 4097 7 64 (Ok [108; 105; 98; 99])).
Proof.
  intros table.
  assert (E : read_elf32_string_table_entry demo_strings_memory table 1 64 = Ok [108; 105; 98; 99])
    by (vm_compute; reflexivity).
  assert (U1 : is_u32 1) by word_lia. assert (U8 : is_u32 8) by word_lia.
  assert (U64 : is_u32 64) by word_lia.
  pose proof (read_elf32_string_table_entry_spec demo_strings_memory table 1 64
                demo_strings_memory_wf demo_strings_readable U1 U8 U64) as Hs.
  rewrite E in Hs. exact (conj E Hs).
Defined.
