(* ===== verification/DependencyResolver.v ===== *)
(** * Dependency providers and resolution
      ([src/src/elf/elf32_dependency_resolver.h],
       [src/src/elf/linking/elf32_dependency_resolver.cpp],
       [src/src/compat/a32_android_platform_provider.{h,cpp}],
       [src/src/compat/a32_android_log_shim.h])

    A provider is an object with mutable state: its methods run on a world [W]
    that holds the state of all provider and policy objects. The resolver is
    verified against an arbitrary provider; the chain, the catalog and the
    Android platform provider are concrete ones. *)

From S2P Require Import Prelude Bytes LinkerStrings.

Module Elf32DependencyProviderError.
Inductive t : Set := None | NotFound | Failed.
End Elf32DependencyProviderError.

(** A byte string ([std::string], [std::string_view]). *)
Definition name : Type := list Z.

Record Elf32DependencySource := {
  src_identity : name;
  src_image : list Z;
}.

Definition Elf32DependencyProviderResult : Type :=
  result Elf32DependencyProviderError.t Elf32DependencySource.

(** The virtual interface. *)
Record Elf32DependencyProvider (W : Type) := {
  dp_resolve : name -> Z -> W -> Elf32DependencyProviderResult * W;
  dp_resolve_for : name -> name -> Z -> W -> Elf32DependencyProviderResult * W;
}.

Arguments dp_resolve {W}.
Arguments dp_resolve_for {W}.

(** The base class's [resolve_for] ignores the requester. *)
Definition default_resolve_for {W} (resolve : name -> Z -> W -> Elf32DependencyProviderResult * W)
    (requester_identity requested_name : name) (max_image_bytes : Z) (w : W) :=
  resolve requested_name max_image_bytes w.

(** ** [Elf32DependencyProviderChain] (a null pointer is [None]) *)
Fixpoint chain_run {W} (call : Elf32DependencyProvider W -> W -> Elf32DependencyProviderResult * W)
    (providers : list (option (Elf32DependencyProvider W))) (w : W)
    : Elf32DependencyProviderResult * W :=
  match providers with
  | [] => (Err Elf32DependencyProviderError.NotFound, w)
  | None :: _ => (Err Elf32DependencyProviderError.Failed, w)
  | Some provider :: rest =>
      match call provider w with
      | (Err Elf32DependencyProviderError.NotFound, w1) => chain_run call rest w1
      | r => r
      end
  end.

Definition Elf32DependencyProviderChain {W} (providers : list (option (Elf32DependencyProvider W)))
    : Elf32DependencyProvider W := {|
  dp_resolve requested_name max_image_bytes :=
    chain_run (fun p => dp_resolve p requested_name max_image_bytes) providers;
  dp_resolve_for requester_identity requested_name max_image_bytes :=
    chain_run (fun p => dp_resolve_for p requester_identity requested_name max_image_bytes) providers;
|}.

(** ** [Elf32DependencyCatalogProvider] *)
Record Elf32DependencyCatalogEntry := {
  ce_requested_name : name;
  ce_identity : name;
  ce_image : list Z;
}.


(** The scan; [inr tt] is a second match. *)
Fixpoint catalog_scan (requested_name : name) (entries : list Elf32DependencyCatalogEntry)
    (found : option Elf32DependencyCatalogEntry) : option Elf32DependencyCatalogEntry + unit :=
  match entries with
  | [] => inl found
  | entry :: rest =>
      if negb (bool_decide (ce_requested_name entry = requested_name))
      then catalog_scan requested_name rest found
      else match found with
           | Some _ => inr tt
           | None => catalog_scan requested_name rest (Some entry)
           end
  end.

Definition catalog_resolve (entries : list Elf32DependencyCatalogEntry)
    (requested_name : name) (max_image_bytes : Z) : Elf32DependencyProviderResult :=
  match catalog_scan requested_name entries None with
  | inr _ => Err Elf32DependencyProviderError.Failed
  | inl None => Err Elf32DependencyProviderError.NotFound
  | inl (Some entry) =>
      if is_empty (ce_identity entry) || is_empty (ce_image entry)
         || (max_image_bytes <? Z.of_nat (length (ce_image entry)))
      then Err Elf32DependencyProviderError.Failed
      else Ok {| src_identity := ce_identity entry; src_image := ce_image entry |}
  end.

Definition Elf32DependencyCatalogProvider {W} (entries : list Elf32DependencyCatalogEntry)
    : Elf32DependencyProvider W :=
  let resolve requested_name max_image_bytes w :=
    (catalog_resolve entries requested_name max_image_bytes, w) in
  {| dp_resolve := resolve; dp_resolve_for := default_resolve_for resolve |}.

(** ** [A32AndroidPlatformProvider] *)
Module A32AndroidPlatformAccessDecision.
Inductive t : Set := Allow | NotFound | Failed.
End A32AndroidPlatformAccessDecision.

Definition kA32AndroidLogShimSoname : name := bytes_of_string "liblog.so".
Definition kA32AndroidLogShimIdentity : name := bytes_of_string "liba32android-compat-liblog".

Definition make_a32_android_log_shim_catalog_entry (image : list Z) : Elf32DependencyCatalogEntry :=
  {| ce_requested_name := kA32AndroidLogShimSoname;
     ce_identity := kA32AndroidLogShimIdentity;
     ce_image := image |}.

(** [policy_.decide] is the caller's policy object. *)
Section platform.
Context {W : Type} (decide_access : name -> name -> W -> A32AndroidPlatformAccessDecision.t * W).
Context (liblog_image : list Z).

Definition platform_entries : list Elf32DependencyCatalogEntry :=
  [make_a32_android_log_shim_catalog_entry liblog_image].

Definition platform_resolve_for (requester_identity requested_name : name) (max_image_bytes : Z)
    (w : W) : Elf32DependencyProviderResult * W :=
  if negb (bool_decide (requested_name = kA32AndroidLogShimSoname))
  then (Err Elf32DependencyProviderError.NotFound, w)
  else
    let '(decision, w1) := decide_access requester_identity requested_name w in
    match decision with
    | A32AndroidPlatformAccessDecision.Allow =>
        (catalog_resolve platform_entries requested_name max_image_bytes, w1)
    | A32AndroidPlatformAccessDecision.NotFound => (Err Elf32DependencyProviderError.NotFound, w1)
    | A32AndroidPlatformAccessDecision.Failed => (Err Elf32DependencyProviderError.Failed, w1)
    end.

Definition A32AndroidPlatformProvider : Elf32DependencyProvider W := {|
  dp_resolve := platform_resolve_for [];
  dp_resolve_for := platform_resolve_for;
|}.
End platform.

(** ** [resolve_elf32_dependencies] *)
Record Elf32DependencyResolveOptions := {
  ro_max_dependencies : Z;
  ro_max_image_bytes : Z;
  ro_max_total_image_bytes : Z;
  ro_requester_identity : name;
}.

Record Elf32ResolvedDependency := {
  rd_requested_name : name;
  rd_identity : name;
  rd_image : list Z;
}.

Module Elf32DependencyResolveError.
Inductive t : Set :=
| None | TooManyDependencies | EmptyDependencyName | DependencyNotFound | ProviderFailed
| EmptyProviderIdentity | EmptyDependencyImage | ImageTooLarge | TotalImageBytesExceeded.

Definition to_string (error : t) : string :=
  match error with
  | None => "none"
  | TooManyDependencies => "too_many_dependencies"
  | EmptyDependencyName => "empty_dependency_name"
  | DependencyNotFound => "dependency_not_found"
  | ProviderFailed => "provider_failed"
  | EmptyProviderIdentity => "empty_provider_identity"
  | EmptyDependencyImage => "empty_dependency_image"
  | ImageTooLarge => "image_too_large"
  | TotalImageBytesExceeded => "total_image_bytes_exceeded"
  end.
End Elf32DependencyResolveError.

Definition translate_provider_error (error : Elf32DependencyProviderError.t)
    : Elf32DependencyResolveError.t :=
  match error with
  | Elf32DependencyProviderError.None => Elf32DependencyResolveError.None
  | Elf32DependencyProviderError.NotFound => Elf32DependencyResolveError.DependencyNotFound
  | Elf32DependencyProviderError.Failed => Elf32DependencyResolveError.ProviderFailed
  end.

Section resolve.
Context {W : Type} (provider : Elf32DependencyProvider W) (options : Elf32DependencyResolveOptions).

Definition resolve_result := result Elf32DependencyResolveError.t.

(** The checks on what the provider returned. *)
Definition accept_source (requested_name : name) (total_image_bytes request_limit : Z)
    (r : Elf32DependencyProviderResult) : resolve_result Elf32ResolvedDependency :=
  source ← map_err translate_provider_error r;
  fail_if (is_empty (src_identity source)) Elf32DependencyResolveError.EmptyProviderIdentity ;;
  fail_if (is_empty (src_image source)) Elf32DependencyResolveError.EmptyDependencyImage ;;
  let image_bytes := Z.of_nat (length (src_image source)) in
  let remaining_total := u64 (ro_max_total_image_bytes options - total_image_bytes) in
  fail_if (request_limit <? image_bytes)
    (if remaining_total <? ro_max_image_bytes options
     then Elf32DependencyResolveError.TotalImageBytesExceeded
     else Elf32DependencyResolveError.ImageTooLarge) ;;
  fail_if (u64 (ro_max_total_image_bytes options - total_image_bytes) <? image_bytes)
    Elf32DependencyResolveError.TotalImageBytesExceeded ;;
  Ok {| rd_requested_name := requested_name;
        rd_identity := src_identity source;
        rd_image := src_image source |}.

(** The loop over the requested names. *)
Fixpoint resolve_names (needed : list name) (total_image_bytes : Z)
    (ordered : list Elf32ResolvedDependency) (w : W)
    : resolve_result (list Elf32ResolvedDependency) * W :=
  match needed with
  | [] => (Ok ordered, w)
  | requested_name :: rest =>
      if is_empty requested_name then (Err Elf32DependencyResolveError.EmptyDependencyName, w)
      else
        let remaining_total := u64 (ro_max_total_image_bytes options - total_image_bytes) in
        if remaining_total =? 0
        then (Err Elf32DependencyResolveError.TotalImageBytesExceeded, w)
        else if ro_max_image_bytes options =? 0
        then (Err Elf32DependencyResolveError.ImageTooLarge, w)
        else
          let request_limit := Z.min (ro_max_image_bytes options) remaining_total in
          let '(r, w1) :=
            dp_resolve_for provider (ro_requester_identity options) requested_name request_limit w in
          match accept_source requested_name total_image_bytes request_limit r with
          | Err e => (Err e, w1)
          | Ok dependency =>
              resolve_names rest (u64 (total_image_bytes + Z.of_nat (length (rd_image dependency))))
                (ordered ++ [dependency]) w1
          end
  end.

Definition resolve_elf32_dependencies (strings : Elf32LinkerStrings) (w : W)
    : resolve_result (list Elf32ResolvedDependency) * W :=
  if ro_max_dependencies options <? Z.of_nat (length (ls_needed strings))
  then (Err Elf32DependencyResolveError.TooManyDependencies, w)
  else resolve_names (ls_needed strings) 0 [] w.
End resolve.

(** ** Resource bounds against an arbitrary provider *)
Definition image_bytes_total (l : list Elf32ResolvedDependency) : Z :=
  foldr (fun d n => Z.of_nat (length (rd_image d)) + n) 0 l.

Definition dependency_ok (o : Elf32DependencyResolveOptions) (d : Elf32ResolvedDependency) : Prop :=
  rd_requested_name d <> [] /\ rd_identity d <> [] /\
  0 < Z.of_nat (length (rd_image d)) <= ro_max_image_bytes o.

Lemma image_bytes_total_snoc l d :
  image_bytes_total (l ++ [d]) = image_bytes_total l + Z.of_nat (length (rd_image d)).
Proof. unfold image_bytes_total. induction l as [|x l IH]; cbn; [lia|]. rewrite IH. lia. Qed.


Lemma accept_source_ok o nm total limit r d :
  0 <= total <= ro_max_total_image_bytes o -> is_u64 (ro_max_total_image_bytes o) ->
  limit = Z.min (ro_max_image_bytes o) (ro_max_total_image_bytes o - total) ->
  nm <> [] -> accept_source o nm total limit r = Ok d ->
  r = Ok {| src_identity := rd_identity d; src_image := rd_image d |} /\ rd_requested_name d = nm /\
  dependency_ok o d /\ total + Z.of_nat (length (rd_image d)) <= ro_max_total_image_bytes o.
Proof.
  intros Ht Hu -> Hnm H. unfold accept_source in H. rewrite !u64_small in H by word_lia.
  apply bind_ok in H as (s & H0%map_err_ok & H). apply bind_ok in H as ([] & G1%fail_if_ok & H).
  apply bind_ok in H as ([] & G2%fail_if_ok & H). apply bind_ok in H as ([] & G3%fail_if_ok & H).
  apply bind_ok in H as ([] & G4%fail_if_ok & [= <-]). bool_prop. cbn.
  apply is_empty_false in G1, G2. subst r. destruct s as [i im]; cbn in *.
  split_and!; try done; [|lia].
  unfold dependency_ok; cbn. split_and!; try done; [|lia]. destruct im; [done|cbn; lia].
Qed.

Lemma resolve_names_ok {W} (p : Elf32DependencyProvider W) o needed total acc w l w' :
  is_u64 (ro_max_total_image_bytes o) ->
  total = image_bytes_total acc -> 0 <= total <= ro_max_total_image_bytes o ->
  Forall (dependency_ok o) acc ->
  resolve_names p o needed total acc w = (Ok l, w') ->
  rd_requested_name <$> l = (rd_requested_name <$> acc) ++ needed /\
  Forall (dependency_ok o) l /\ image_bytes_total l <= ro_max_total_image_bytes o.
Proof.
  intros Hu. revert total acc w. induction needed as [|nm needed IH]; intros total acc w Ht Hb Hacc H; cbn in H.
  { simplify_eq. rewrite app_nil_r. split_and!; [done|done|lia]. }
  destruct (is_empty nm) eqn:En; [done|]. apply is_empty_false in En.
  rewrite (u64_small (ro_max_total_image_bytes o - total)) in H by word_lia.
  case_head H E1; [done|]. case_head H E2; [done|].
  destruct (dp_resolve_for p _ _ _ w) as [r w1].
  destruct (accept_source o nm total _ r) as [d|e] eqn:Ea; [|done].
  apply accept_source_ok in Ea as (_ & Hn & Hok & Hle); [|done..].
  rewrite u64_small in H by word_lia.
  apply IH in H as (H1 & H2 & H3).
  - rewrite H1, fmap_app, <- app_assoc. cbn. rewrite Hn. done.
  - rewrite image_bytes_total_snoc. lia.
  - lia.
  - apply Forall_app. split; [done|]. by constructor.
Qed.

Definition options_typed (o : Elf32DependencyResolveOptions) : Prop :=
  is_u32 (ro_max_dependencies o) /\ is_u64 (ro_max_image_bytes o) /\
  is_u64 (ro_max_total_image_bytes o).

(** Whatever the provider does, a successful [resolve_elf32_dependencies]
    returns exactly one dependency per DT_NEEDED occurrence, in order, each with
    a non-empty identity and a non-empty image of at most [max_image_bytes]
    bytes; there are at most [max_dependencies] of them and together they hold
    at most [max_total_image_bytes] bytes (no 64-bit wrap-around). *)
Theorem resolve_elf32_dependencies_bounded {W} (p : Elf32DependencyProvider W) o strings w l w' :
  options_typed o ->
  resolve_elf32_dependencies p o strings w = (Ok l, w') ->
  rd_requested_name <$> l = ls_needed strings /\
  Z.of_nat (length l) <= ro_max_dependencies o /\
  Forall (dependency_ok o) l /\ image_bytes_total l <= ro_max_total_image_bytes o.
Proof.
  intros (_ & _ & Hu) H. unfold resolve_elf32_dependencies in H.
  case_head H E; [done|]. bool_prop.
  apply resolve_names_ok in H as (H1 & H2 & H3); try done; [|word_lia].
  cbn in H1. split_and!; try done. rewrite <- (length_fmap rd_requested_name l), H1. done.
Qed.

(** A catalog with two libraries, requested in the order b, a. *)
Definition demo_catalog : list Elf32DependencyCatalogEntry :=
  [{| ce_requested_name := [97]; ce_identity := [65]; ce_image := [1; 2; 3] |};
   {| ce_requested_name := [98]; ce_identity := [66]; ce_image := [4] |}].

Lemma resolve_elf32_dependencies_bounded_witness :
  let o := {| ro_max_dependencies := 4; ro_max_image_bytes := 16; ro_max_total_image_bytes := 4;
              ro_requester_identity := [] |} in
  let strings := {| ls_soname := None; ls_needed := [[98]; [97]] |} in
  let p : Elf32DependencyProvider unit := Elf32DependencyCatalogProvider demo_catalog in
  exists l, resolve_elf32_dependencies p o strings tt = (Ok l, tt) /\
    rd_requested_name <$> l = [[98]; [97]] /\ Z.of_nat (length l) <= 4.
Proof.
  intros o strings p. eexists. split; [vm_compute; reflexivity|].
  pose proof (resolve_elf32_dependencies_bounded p o strings tt) as H.
  edestruct H as (H1 & H2 & _); [| |split; [exact H1|exact H2]].
  - unfold options_typed; cbn. split_and!; word_lia.
  - vm_compute. reflexivity.
Defined.

(** ** Concrete providers *)
Definition entry_matches (requested_name : name) (e : Elf32DependencyCatalogEntry) : Prop :=
  ce_requested_name e = requested_name.

#[export] Instance entry_matches_dec nm e : Decision (entry_matches nm e).
Proof. unfold entry_matches. apply _. Defined.

Lemma catalog_scan_filter nm es found :
  catalog_scan nm es found =
  match found, filter (entry_matches nm) es with
  | None, [] => inl None
  | None, [e] => inl (Some e)
  | Some f, [] => inl (Some f)
  | _, _ => inr tt
  end.
Proof.
  revert found; induction es as [|e es IH]; intros found; [by destruct found|].
  cbn [catalog_scan]. rewrite filter_cons.
  destruct (decide (entry_matches nm e)) as [He|Hne]; unfold entry_matches in *.
  - rewrite bool_decide_true by done. cbn [negb]. destruct found; [done|].
    rewrite IH. by destruct (filter _ es).
  - rewrite bool_decide_false by done. apply IH.
Qed.

(** The catalog provider answers by exact byte name: it returns a source
    only when exactly one entry has the requested name and that entry has an
    identity and an image within the limit; it reports [NotFound] exactly when no
    entry has the name, and [Failed] in every ambiguous or invalid case, so a
    chain never continues past an ambiguous catalog. *)
Theorem catalog_resolve_exact es nm limit :
  match catalog_resolve es nm limit with
  | Ok s => exists e, filter (entry_matches nm) es = [e] /\
              s = {| src_identity := ce_identity e; src_image := ce_image e |} /\
              ce_identity e <> [] /\ 0 < Z.of_nat (length (ce_image e)) <= limit
  | Err Elf32DependencyProviderError.NotFound => filter (entry_matches nm) es = []
  | Err _ => filter (entry_matches nm) es <> []
  end.
Proof.
  unfold catalog_resolve. rewrite catalog_scan_filter.
  destruct (filter (entry_matches nm) es) as [|e [|e' l]]; [done| |done].
  destruct (is_empty (ce_identity e) || _ || _) eqn:E; [done|]. bool_prop.
  apply is_empty_false in H, H1. exists e. split_and!; try done.
  destruct (ce_image e); [done|cbn; lia].
Qed.

(** A provider chain is first-match: the answer is that of the first provider
    that does not say [NotFound] (a null provider counts as [Failed]), the
    providers before it were asked in order and the ones after it are not
    called. *)
Theorem chain_first_match {W} (call : Elf32DependencyProvider W -> W -> Elf32DependencyProviderResult * W)
    providers w :
  (exists before p after w1 r w2, providers = before ++ Some p :: after /\
     chain_run call before w = (Err Elf32DependencyProviderError.NotFound, w1) /\
     call p w1 = (r, w2) /\ r <> Err Elf32DependencyProviderError.NotFound /\
     chain_run call providers w = (r, w2)) \/
  (exists before after w1, providers = before ++ None :: after /\
     chain_run call before w = (Err Elf32DependencyProviderError.NotFound, w1) /\
     chain_run call providers w = (Err Elf32DependencyProviderError.Failed, w1)) \/
  (exists w1, Forall is_Some providers /\
     chain_run call providers w = (Err Elf32DependencyProviderError.NotFound, w1)).
Proof.
  revert w; induction providers as [|[p|] ps IH]; intros w; cbn.
  - right; right. by exists w.
  - destruct (call p w) as [r w1] eqn:E.
    assert (Hr : r = Err Elf32DependencyProviderError.NotFound \/
                 r <> Err Elf32DependencyProviderError.NotFound)
      by (destruct r as [|[]]; auto).
    destruct Hr as [->|Hne].
    + destruct (IH w1) as [(b & q & a & w2 & r & w3 & -> & H1 & H2 & H3 & H4)
                          |[(b & a & w2 & -> & H1 & H2)|(w2 & H1 & H2)]].
      * left. exists (Some p :: b), q, a, w2, r, w3. cbn. by rewrite E.
      * right; left. exists (Some p :: b), a, w2. cbn. by rewrite E.
      * right; right. exists w2. split; [constructor; [by eexists|done]|done].
    + left. exists [], p, ps, w, r, w1. cbn. split_and!; try done.
      destruct r as [|[]]; done.
  - right; left. by exists [], ps, w.
Qed.
