(* ===== verification/Cpu.v ===== *)
(** * CPU execution seam ([src/src/cpu/a32_cpu.h], [src/src/cpu/dynarmic_cpu.cpp])

    The [Environment] callbacks and the bounded execution loop of [execute]. The
    Dynarmic JIT is third-party code: one [Step] is a parameter, a program that
    issues callbacks (and, with fastmem, direct memory effects) and ends in the
    next JIT state. *)

From S2P Require Import Prelude Bytes GuestMemory LinearMemory.

Inductive InstructionSet : Set := Arm | Thumb.

(** [std::array<std::uint32_t, 16>] *)
Definition regs_t : Type := list Z.
Definition reg (regs : regs_t) (i : nat) : Z := default 0 (regs !! i).
Definition set_reg (regs : regs_t) (i : nat) (v : Z) : regs_t := <[i := v]> regs.

Record ExecutionRequest := {
  rq_instruction_set : InstructionSet;
  rq_entry_pc : Z;
  rq_regs : regs_t;
  rq_instruction_count : Z;
  rq_stop_pc : option Z;
  rq_initial_cpsr : option Z;
}.

Record ExecutionResult := {
  er_regs : regs_t;
  er_cpsr : Z;
  er_instructions_executed : Z;
  er_exception_raised : bool;
  er_memory_fault : bool;
  er_stop_pc_reached : bool;
  er_svc_immediate : option Z;
  er_fastmem_enabled : bool;
  er_code_read_callbacks : Z;
  er_data_read_callbacks : Z;
  er_data_write_callbacks : Z;
}.

(** ** [class Environment] *)
Record Environment := {
  exception_raised_ : bool;
  memory_fault_ : bool;
  svc_immediate_ : option Z;
  code_read_callbacks_ : Z;
  data_read_callbacks_ : Z;
  data_write_callbacks_ : Z;
}.

Definition new_environment : Environment :=
  {| exception_raised_ := false; memory_fault_ := false; svc_immediate_ := None;
     code_read_callbacks_ := 0; data_read_callbacks_ := 0; data_write_callbacks_ := 0 |}.

Definition set_fault (e : Environment) : Environment :=
  {| exception_raised_ := exception_raised_ e; memory_fault_ := true;
     svc_immediate_ := svc_immediate_ e; code_read_callbacks_ := code_read_callbacks_ e;
     data_read_callbacks_ := data_read_callbacks_ e;
     data_write_callbacks_ := data_write_callbacks_ e |}.

Definition raise_exception (e : Environment) : Environment :=
  {| exception_raised_ := true; memory_fault_ := memory_fault_ e;
     svc_immediate_ := svc_immediate_ e; code_read_callbacks_ := code_read_callbacks_ e;
     data_read_callbacks_ := data_read_callbacks_ e;
     data_write_callbacks_ := data_write_callbacks_ e |}.

Definition CallSVC (immediate : Z) (e : Environment) : Environment :=
  {| exception_raised_ := true; memory_fault_ := memory_fault_ e;
     svc_immediate_ := Some immediate; code_read_callbacks_ := code_read_callbacks_ e;
     data_read_callbacks_ := data_read_callbacks_ e;
     data_write_callbacks_ := data_write_callbacks_ e |}.

Definition InterpreterFallback (e : Environment) : Environment := raise_exception e.
Definition ExceptionRaised (e : Environment) : Environment := raise_exception e.
Definition GetTicksRemaining : Z := 1.

Definition count_code_read (e : Environment) : Environment :=
  {| exception_raised_ := exception_raised_ e; memory_fault_ := memory_fault_ e;
     svc_immediate_ := svc_immediate_ e;
     code_read_callbacks_ := u64 (code_read_callbacks_ e + 1);
     data_read_callbacks_ := data_read_callbacks_ e;
     data_write_callbacks_ := data_write_callbacks_ e |}.

Definition count_data_read (e : Environment) : Environment :=
  {| exception_raised_ := exception_raised_ e; memory_fault_ := memory_fault_ e;
     svc_immediate_ := svc_immediate_ e; code_read_callbacks_ := code_read_callbacks_ e;
     data_read_callbacks_ := u64 (data_read_callbacks_ e + 1);
     data_write_callbacks_ := data_write_callbacks_ e |}.

Definition count_data_write (e : Environment) : Environment :=
  {| exception_raised_ := exception_raised_ e; memory_fault_ := memory_fault_ e;
     svc_immediate_ := svc_immediate_ e; code_read_callbacks_ := code_read_callbacks_ e;
     data_read_callbacks_ := data_read_callbacks_ e;
     data_write_callbacks_ := u64 (data_write_callbacks_ e + 1) |}.

(** The or-of-shifts loop of the wide reads and the byte split of the writes. *)
Definition join_bytes (bytes : list Z) : Z :=
  foldr (fun b acc => Z.lor b (Z.shiftl acc 8)) 0 bytes.

Definition split_bytes (n : nat) (value : Z) : list Z :=
  (fun i => u8 (Z.shiftr value (Z.of_nat i * 8))) <$> seq 0 n.

Section callbacks.
Context {M : Type} `{GuestMemory M}.

Definition MemoryReadCode (vaddr : Z) (s : Environment * M) : option Z * (Environment * M) :=
  let '(e, m) := s in
  let e := count_code_read e in
  match gm_read_code m vaddr 4 with
  | None => (None, (set_fault e, m))
  | Some bytes => (Some (decode_u32_le bytes 0), (e, m))
  end.

(** [read_bytes] with the callers' "return 0 on failure". *)
Definition MemoryRead (size : nat) (vaddr : Z) (s : Environment * M) : Z * (Environment * M) :=
  let '(e, m) := s in
  let e := count_data_read e in
  match gm_read m vaddr (Z.of_nat size) with
  | None => (0, (set_fault e, m))
  | Some bytes => (join_bytes bytes, (e, m))
  end.

Definition MemoryWrite (size : nat) (vaddr value : Z) (s : Environment * M) : Environment * M :=
  let '(e, m) := s in
  let e := count_data_write e in
  match gm_write m vaddr (split_bytes size value) with
  | (false, m') => (set_fault e, m')
  | (true, m') => (e, m')
  end.

Definition MemoryRead8 := MemoryRead 1.
Definition MemoryRead16 := MemoryRead 2.
Definition MemoryRead32 := MemoryRead 4.
Definition MemoryRead64 := MemoryRead 8.
Definition MemoryWrite8 := MemoryWrite 1.
Definition MemoryWrite16 := MemoryWrite 2.
Definition MemoryWrite32 := MemoryWrite 4.
Definition MemoryWrite64 := MemoryWrite 8.
End callbacks.

(** ** One [Jit::Step] *)
Inductive jit_prog (M J : Type) : Type :=
| JitDone (j : J)
| JitReadCode (vaddr : Z) (k : option Z -> jit_prog M J)
| JitRead (size : nat) (vaddr : Z) (k : Z -> jit_prog M J)
| JitWrite (size : nat) (vaddr value : Z) (k : jit_prog M J)
| JitSvc (immediate : Z) (k : jit_prog M J)
| JitInterpreterFallback (k : jit_prog M J)
| JitException (k : jit_prog M J)
| JitFastmem (access : M -> Z * M) (k : Z -> jit_prog M J).

Arguments JitDone {M J}.
Arguments JitReadCode {M J}.
Arguments JitRead {M J}.
Arguments JitWrite {M J}.
Arguments JitSvc {M J}.
Arguments JitInterpreterFallback {M J}.
Arguments JitException {M J}.
Arguments JitFastmem {M J}.

Section execute.
Context {M : Type} `{GuestMemory M}.

(** The JIT's register file, CPSR and private state. *)
Context {I : Type}.

Record Jit := {
  jit_regs : regs_t;
  jit_cpsr : Z;
  jit_internal : I;
}.

(** Third-party code: construction from the fastmem pointer, and one step. *)
Context (jit_new : option Z -> I) (jit_step : Jit -> jit_prog M Jit).

Fixpoint run_prog (p : jit_prog M Jit) (s : Environment * M) : Jit * (Environment * M) :=
  match p with
  | JitDone j => (j, s)
  | JitReadCode vaddr k => let '(v, s) := MemoryReadCode vaddr s in run_prog (k v) s
  | JitRead size vaddr k => let '(v, s) := MemoryRead size vaddr s in run_prog (k v) s
  | JitWrite size vaddr value k => run_prog k (MemoryWrite size vaddr value s)
  | JitSvc immediate k => run_prog k (CallSVC immediate s.1, s.2)
  | JitInterpreterFallback k => run_prog k (InterpreterFallback s.1, s.2)
  | JitException k => run_prog k (ExceptionRaised s.1, s.2)
  | JitFastmem access k => let '(v, m) := access s.2 in run_prog (k v) (s.1, m)
  end.

Record exec_state := {
  xs_executed : Z;
  xs_stop_pc_reached : bool;
  xs_jit : Jit;
  xs_env : Environment;
  xs_mem : M;
}.

Definition at_stop (stop_pc : option Z) (j : Jit) : bool :=
  match stop_pc with Some pc => reg (jit_regs j) 15 =? pc | None => false end.

(** One evaluation of the [while] condition and body. *)
Definition exec_step (request : ExecutionRequest) (s : exec_state) : exec_state + exec_state :=
  if (xs_executed s <? rq_instruction_count request) && negb (xs_stop_pc_reached s)
     && negb (exception_raised_ (xs_env s)) && negb (memory_fault_ (xs_env s))
  then
    let '(j, (e, m)) := run_prog (jit_step (xs_jit s)) (xs_env s, xs_mem s) in
    inl {| xs_executed := u64 (xs_executed s + 1);
           xs_stop_pc_reached :=
             negb (exception_raised_ e) && negb (memory_fault_ e)
             && at_stop (rq_stop_pc request) j;
           xs_jit := j; xs_env := e; xs_mem := m |}
  else inr s.

Definition default_cpsr (set : InstructionSet) : Z :=
  match set with Thumb => 0x30 | Arm => 0x10 end.

Definition initial_state (memory : M) (request : ExecutionRequest) : exec_state :=
  let j := {| jit_regs := set_reg (rq_regs request) 15 (rq_entry_pc request);
              jit_cpsr := default (default_cpsr (rq_instruction_set request))
                            (rq_initial_cpsr request);
              jit_internal := jit_new (gm_fastmem_base memory) |} in
  {| xs_executed := 0;
     xs_stop_pc_reached := at_stop (rq_stop_pc request) j;
     xs_jit := j; xs_env := new_environment; xs_mem := memory |}.

(** [instruction_count] is a [std::size_t]. *)
Definition exec_fuel : positive := 2 ^ 65.

Definition execute (memory : M) (request : ExecutionRequest) : ExecutionResult * M :=
  let s := match loop exec_fuel (exec_step request) (initial_state memory request) with
           | inr s => s | inl s => s end in
  ({| er_regs := jit_regs (xs_jit s);
      er_cpsr := jit_cpsr (xs_jit s);
      er_instructions_executed := xs_executed s;
      er_exception_raised := exception_raised_ (xs_env s);
      er_memory_fault := memory_fault_ (xs_env s);
      er_stop_pc_reached := xs_stop_pc_reached s;
      er_svc_immediate := svc_immediate_ (xs_env s);
      er_fastmem_enabled := bool_decide (is_Some (gm_fastmem_base memory));
      er_code_read_callbacks := code_read_callbacks_ (xs_env s);
      er_data_read_callbacks := data_read_callbacks_ (xs_env s);
      er_data_write_callbacks := data_write_callbacks_ (xs_env s) |}, xs_mem s).

(** ** Properties of [execute] *)
Definition exec_inv (request : ExecutionRequest) (s : exec_state) : Prop :=
  0 <= xs_executed s <= rq_instruction_count request /\
  (xs_stop_pc_reached s = true ->
     rq_stop_pc request = Some (reg (jit_regs (xs_jit s)) 15) /\
     exception_raised_ (xs_env s) = false /\ memory_fault_ (xs_env s) = false) /\
  (svc_immediate_ (xs_env s) <> None -> exception_raised_ (xs_env s) = true) /\
  (xs_stop_pc_reached s = false -> exception_raised_ (xs_env s) = false ->
   memory_fault_ (xs_env s) = false -> at_stop (rq_stop_pc request) (xs_jit s) = false).

(** Why the loop was left. *)
Definition exec_done (request : ExecutionRequest) (s : exec_state) : Prop :=
  xs_executed s = rq_instruction_count request \/ xs_stop_pc_reached s = true \/
  exception_raised_ (xs_env s) = true \/ memory_fault_ (xs_env s) = true.

Lemma at_stop_true stop j : at_stop stop j = true -> stop = Some (reg (jit_regs j) 15).
Proof. unfold at_stop. destruct stop; [|done]. intros H1. bool_prop. by subst. Qed.

(** An SVC callback always raises the exception flag, and no callback clears a
    flag. *)
Lemma run_prog_svc p s :
  (svc_immediate_ s.1 <> None -> exception_raised_ s.1 = true) ->
  let s' := (run_prog p s).2 in
  svc_immediate_ s'.1 <> None -> exception_raised_ s'.1 = true.
Proof.
  revert s; induction p as [j|a k IH|n a k IH|n a v k IH|i k IH|k IH|k IH|f k IH]; intros [e m] Hs; cbn.
  - done.
  - unfold MemoryReadCode. destruct (gm_read_code m a 4); apply IH; cbn; exact Hs.
  - unfold MemoryRead. destruct (gm_read m a _); apply IH; cbn; exact Hs.
  - apply IH. unfold MemoryWrite. destruct (gm_write m a _) as [[] m']; cbn; exact Hs.
  - by apply IH.
  - by apply IH.
  - by apply IH.
  - destruct (f m) as [v m']. by apply IH.
Qed.

Lemma execute_loop memory request :
  is_u64 (rq_instruction_count request) ->
  exists s, loop exec_fuel (exec_step request) (initial_state memory request) = inr s /\
            exec_inv request s /\ exec_done request s.
Proof.
  intros Hc.
  apply (loop_rule (exec_inv request) (fun s => exec_inv request s /\ exec_done request s)
           (fun s => rq_instruction_count request - xs_executed s)).
  - intros s (Hx & Hstop & Hsvc & Hat). unfold exec_step.
    destruct ((xs_executed s <? _) && _ && _ && _) eqn:E.
    + bool_prop. pose proof (run_prog_svc (jit_step (xs_jit s)) (xs_env s, xs_mem s) Hsvc) as Hsvc'.
      destruct (run_prog _ _) as [j [e m]]. cbn in *. rewrite u64_small by word_lia.
      split; [|cbn; lia]. split_and!; cbn; try lia; try done.
      * intros Hs. bool_prop. split; [by apply at_stop_true|done].
      * intros Hs He Hf. by rewrite He, Hf in Hs.
    + split; [done|]. unfold exec_done.
      destruct (xs_stop_pc_reached s), (exception_raised_ (xs_env s)), (memory_fault_ (xs_env s));
        auto. cbn in E. rewrite !andb_true_r in E. bool_prop. left. lia.
  - unfold exec_inv, initial_state; cbn. split_and!; try word_lia; try done.
    intros Hs. split; [|done]. apply at_stop_true in Hs. by rewrite Hs.
  - cbn. unfold exec_fuel. word_lia.
Qed.

(** What every [execute] call returns (used by the dispatcher). *)
Lemma execute_bounded_lemma memory request :
  is_u64 (rq_instruction_count request) ->
  let r := (execute memory request).1 in
  0 <= er_instructions_executed r <= rq_instruction_count request /\
  (er_instructions_executed r = rq_instruction_count request \/ er_stop_pc_reached r = true \/
   er_exception_raised r = true \/ er_memory_fault r = true) /\
  (er_stop_pc_reached r = true <->
     er_exception_raised r = false /\ er_memory_fault r = false /\
     rq_stop_pc request = Some (reg (er_regs r) 15)) /\
  (er_svc_immediate r <> None -> er_exception_raised r = true).
Proof.
  intros Hc. unfold execute.
  destruct (execute_loop memory request Hc) as (s & -> & (Hx & Hstop & Hsvc & Hat) & Hdone). cbn.
  split; [lia|]. split; [exact Hdone|]. split; [|exact Hsvc]. split.
  - intros Hs. destruct (Hstop Hs) as (H1 & H2 & H3). done.
  - intros (He & Hf & Hs). destruct (xs_stop_pc_reached s) eqn:E; [done|].
    specialize (Hat eq_refl He Hf). unfold at_stop in Hat. rewrite Hs, Z.eqb_refl in Hat. done.
Qed.

(** ** The run

    The machine after [n] steps of the JIT from the request's start, with nobody
    stopping it. *)
Definition machine : Type := Jit * (Environment * M).

Definition machine_step (s : machine) : machine := run_prog (jit_step s.1) s.2.

Definition machine_after (memory : M) (request : ExecutionRequest) (n : nat) : machine :=
  Nat.iter n machine_step (xs_jit (initial_state memory request), (new_environment, memory)).

(** Nothing stops the machine: no exception, no fault, not at [stop_pc]. *)
Definition running (request : ExecutionRequest) (s : machine) : Prop :=
  exception_raised_ s.2.1 = false /\ memory_fault_ s.2.1 = false /\
  rq_stop_pc request <> Some (reg (jit_regs s.1) 15).

(** The loop state [s] is the machine after [n] steps, all taken while running. *)
Record reached (memory : M) (request : ExecutionRequest) (n : nat) (s : exec_state) : Prop := {
  rc_machine : (xs_jit s, (xs_env s, xs_mem s)) = machine_after memory request n;
  rc_count : xs_executed s = Z.of_nat n /\ xs_executed s <= rq_instruction_count request;
  rc_running i : (i < n)%nat -> running request (machine_after memory request i);
  rc_stop : xs_stop_pc_reached s = negb (exception_raised_ (xs_env s)) && negb (memory_fault_ (xs_env s))
                                   && at_stop (rq_stop_pc request) (xs_jit s);
}.

Lemma at_stop_false stop j : at_stop stop j = false -> stop <> Some (reg (jit_regs j) 15).
Proof. intros Ha ->. cbn in Ha. by rewrite Z.eqb_refl in Ha. Qed.

(** One iteration of the loop. *)
Lemma reached_step memory request n s :
  is_u64 (rq_instruction_count request) -> reached memory request n s ->
  match exec_step request s with
  | inl s' => reached memory request (S n) s' /\ xs_executed s' = xs_executed s + 1 /\
      xs_executed s < rq_instruction_count request
  | inr s' => s' = s /\
      (xs_executed s = rq_instruction_count request \/ ~ running request (machine_after memory request n))
  end.
Proof.
  intros Hc [Hm [Hx Hle] Hrun Hstop]. unfold exec_step. destruct (_ && _ && _ && _) eqn:E.
  - bool_prop. destruct (run_prog _ _) as [j [e m]] eqn:Er.
    assert (Hnext : machine_after memory request (S n) = (j, (e, m))).
    { change (machine_after memory request (S n)) with (machine_step (machine_after memory request n)).
      rewrite <- Hm. unfold machine_step. cbn [fst snd]. by rewrite Er. }
    cbn. rewrite u64_small by word_lia. split; [|lia]. split; cbn; [|split; lia| |done].
    + exact (eq_sym Hnext).
    + intros i Hi. destruct (decide (i = n)) as [->|Hne]; [|apply Hrun; lia].
      rewrite <- Hm. split; [done|]. split; [done|]. apply at_stop_false.
      rewrite Hstop in *. cbn in *. destruct (exception_raised_ (xs_env s)), (memory_fault_ (xs_env s)); done.
  - split; [done|]. rewrite <- Hm. unfold running. cbn.
    destruct (exception_raised_ (xs_env s)); [right; naive_solver|].
    destruct (memory_fault_ (xs_env s)); [right; naive_solver|]. cbn in Hstop.
    destruct (xs_stop_pc_reached s).
    + right. intros (_ & _ & Hs). apply Hs. by apply at_stop_true.
    + left. rewrite !andb_true_r in E. bool_prop. lia.
Qed.

Lemma execute_reached memory request :
  is_u64 (rq_instruction_count request) ->
  exists n s, loop exec_fuel (exec_step request) (initial_state memory request) = inr s /\
    reached memory request n s /\
    (xs_executed s = rq_instruction_count request \/ ~ running request (machine_after memory request n)).
Proof.
  intros Hc.
  destruct (loop_rule (fun s => exists n, reached memory request n s)
    (fun s => exists n, reached memory request n s /\
       (xs_executed s = rq_instruction_count request \/ ~ running request (machine_after memory request n)))
    (fun s => rq_instruction_count request - xs_executed s) exec_fuel (exec_step request) (initial_state memory request))
    as (s & Hl & n & Hs).
  - intros s [n Hn]. pose proof (reached_step memory request n s Hc Hn) as Hst.
    destruct (exec_step request s) as [s'|s'].
    + destruct Hst as (H1 & H2 & H3). split; [by exists (S n)|]. pose proof (rc_count _ _ _ _ Hn). lia.
    + destruct Hst as [-> Hd]. by exists n.
  - exists 0%nat. split; cbn; [done|word_lia|lia|done].
  - cbn. unfold exec_fuel. word_lia.
  - by exists n, s.
Qed.

(** C38: for any JIT, [execute] is the run of the machine up to the first point where
    something stops it, within the slice. There is a number [n] of steps, at most
    [instruction_count], such that at each of the first [n] points the machine was
    running (no exception, no memory fault, and the program counter not at [stop_pc],
    so no instruction at the stop address is executed), the result (registers, CPSR,
    flags, SVC immediate, callback counters, memory) is that of the machine after
    exactly [n] steps, [n] is what is reported, and the run ended there because the
    slice was used up or because something stopped it. [stop_pc_reached] is reported
    exactly when it ended cleanly with the program counter at the stop address, and a
    reported SVC always comes with the exception flag. *)
Theorem execute_bounded memory request :
  is_u64 (rq_instruction_count request) ->
  let '(r, memory') := execute memory request in
  exists n : nat,
    let s := machine_after memory request n in
    (forall i, (i < n)%nat -> running request (machine_after memory request i)) /\
    er_instructions_executed r = Z.of_nat n /\ Z.of_nat n <= rq_instruction_count request /\
    (Z.of_nat n = rq_instruction_count request \/ ~ running request s) /\
    er_regs r = jit_regs s.1 /\ er_cpsr r = jit_cpsr s.1 /\ memory' = s.2.2 /\
    er_exception_raised r = exception_raised_ s.2.1 /\ er_memory_fault r = memory_fault_ s.2.1 /\
    er_svc_immediate r = svc_immediate_ s.2.1 /\
    er_code_read_callbacks r = code_read_callbacks_ s.2.1 /\
    er_data_read_callbacks r = data_read_callbacks_ s.2.1 /\
    er_data_write_callbacks r = data_write_callbacks_ s.2.1 /\
    (er_stop_pc_reached r = true <->
       er_exception_raised r = false /\ er_memory_fault r = false /\
       rq_stop_pc request = Some (reg (er_regs r) 15)) /\
    (er_svc_immediate r <> None -> er_exception_raised r = true).
Proof.
  intros Hc. pose proof (execute_bounded_lemma memory request Hc) as (_ & _ & Hstop & Hsvc).
  destruct (execute_reached memory request Hc) as (n & s & Hl & [Hm [Hx Hle] Hrun _] & Hdone).
  unfold execute in *. rewrite Hl in *. exists n. cbv zeta.
  rewrite <- Hm in Hdone |- *. rewrite Hx in Hdone, Hle. cbn [fst snd] in *.
  split; [exact Hrun|]. split; [done|]. split; [done|]. split; [exact Hdone|].
  do 9 (split; [done|]). split; [exact Hstop|exact Hsvc].
Qed.
End execute.

(** ** Callback round trip *)
Section callback_laws.
Context {M : Type} `{GuestMemorySpec M}.

Lemma join_bytes_little_endian bytes : join_bytes bytes = little_endian_to_Z 8 bytes.
Proof. induction bytes as [|b bytes IH]; [done|]. unfold join_bytes in *. cbn. by rewrite IH. Qed.

Lemma length_split_bytes n value : length (split_bytes n value) = n.
Proof. unfold split_bytes. by rewrite length_fmap, length_seq. Qed.

Lemma split_bytes_little_endian n value :
  split_bytes n value = Z_to_little_endian (Z.of_nat n) 8 value.
Proof.
  revert value; induction n as [|n IH]; intros value; [done|].
  rewrite Nat2Z.inj_succ, Z_to_little_endian_succ by lia. rewrite <- IH.
  unfold split_bytes. cbn [seq fmap list_fmap]. f_equal.
  - unfold u8. rewrite Z.land_ones by lia. done.
  - rewrite <- fmap_S_seq, <- list_fmap_compose. apply list_fmap_ext.
    intros i x _. cbn. rewrite Z.shiftr_shiftr by lia. do 2 f_equal. lia.
Qed.

Lemma split_bytes_bytes n value : is_bytes (split_bytes n value).
Proof. rewrite split_bytes_little_endian. apply Z_to_little_endian_bound; lia. Qed.

(** The data callbacks are a little-endian memory: after a store callback of
    1 to 8 bytes that did not fault, a load callback of that width returns the
    stored value and does not fault; a store that faults leaves memory as it was
    and raises the fault flag, which no later callback clears. *)
Theorem memory_callbacks_roundtrip (size : nat) vaddr value (e : Environment) (m : M) :
  gm_ok m -> is_u32 vaddr -> (1 <= size <= 8)%nat -> 0 <= value < 2 ^ (8 * Z.of_nat size) ->
  memory_fault_ e = false ->
  match MemoryWrite size vaddr value (e, m) with
  | (e', m') =>
      if memory_fault_ e'
      then m' = m /\ memory_fault_ (MemoryRead size vaddr (e', m')).2.1 = true
      else gm_ok m' /\ (MemoryRead size vaddr (e', m')).1 = value /\
           memory_fault_ (MemoryRead size vaddr (e', m')).2.1 = false
  end.
Proof.
  intros Hm Ha Hsize Hv He. unfold MemoryWrite, MemoryRead.
  pose proof (length_split_bytes size value) as Hlen.
  pose proof (split_bytes_bytes size value) as Hbs.
  destruct (gm_write m vaddr (split_bytes size value)) as [[] m'] eqn:Ew; cbn.
  - rewrite He. split; [eapply gm_write_ok; [..|exact Ew]; try done; unfold span_max; lia|].
    pose proof (gm_read_write_same m vaddr (split_bytes size value) m' Hm Hbs Ha) as Hr.
    rewrite Hlen in Hr. rewrite Hr; [cbn|unfold span_max; lia|done]. split; [|done].
    rewrite join_bytes_little_endian, split_bytes_little_endian.
    rewrite little_endian_to_Z_to_little_endian by lia. apply Z.mod_small.
    by rewrite Z.mul_comm.
  - split; [by eapply gm_write_failure|]. by destruct (gm_read m' vaddr _).
Qed.
End callback_laws.

(** ** Witnesses *)

(** A JIT whose instructions are one word long and do nothing but fetch. *)
Definition nop_jit (j : @Jit unit) : jit_prog LinearGuestMemory.t (@Jit unit) :=
  let pc := reg (jit_regs j) 15 in
  JitReadCode pc (fun _ =>
    JitDone {| jit_regs := set_reg (jit_regs j) 15 (u32 (pc + 4));
               jit_cpsr := jit_cpsr j; jit_internal := tt |}).

Definition code_memory : LinearGuestMemory.t := LinearGuestMemory.mk 4096 (replicate 64 0).

Lemma code_memory_wf : linear_wf code_memory.
Proof.
  split; [vm_compute; congruence|vm_compute; congruence|].
  apply Forall_replicate. unfold is_byte; lia.
Qed.

Definition demo_request : ExecutionRequest :=
  {| rq_instruction_set := Arm; rq_entry_pc := 4096; rq_regs := replicate 16 0;
     rq_instruction_count := 10; rq_stop_pc := Some 4108; rq_initial_cpsr := None |}.

(** Three instructions are executed before the stop address is reached. *)
Lemma execute_bounded_witness :
  let r := (execute (fun _ => tt) nop_jit code_memory demo_request).1 in
  er_instructions_executed r = 3 /\ er_stop_pc_reached r = true /\
  exists n : nat, er_instructions_executed r = Z.of_nat n /\
    forall i, (i < n)%nat -> running demo_request (machine_after (fun _ => tt) nop_jit code_memory demo_request i).
Proof.
  split; [vm_compute; reflexivity|]. split; [vm_compute; reflexivity|].
  pose proof (execute_bounded (fun _ => tt) nop_jit code_memory demo_request ltac:(vm_compute; intuition congruence)) as Hw.
  rewrite (surjective_pairing (execute _ _ _ _)) in Hw. destruct Hw as (n & Hrun & Hn & _). by exists n.
Defined.

Lemma memory_callbacks_roundtrip_witness :
  match MemoryWrite 4 4100 0xdeadbeef (new_environment, code_memory) with
  | (e', m') =>
      if memory_fault_ e'
      then m' = code_memory /\ memory_fault_ (MemoryRead 4 4100 (e', m')).2.1 = true
      else gm_ok m' /\ (MemoryRead 4 4100 (e', m')).1 = 0xdeadbeef /\
           memory_fault_ (MemoryRead 4 4100 (e', m')).2.1 = false
  end.
Proof.
  apply (memory_callbacks_roundtrip 4 4100 0xdeadbeef new_environment code_memory).
  - exact code_memory_wf.
  - split; lia.
  - lia.
  - lia.
  - reflexivity.
Defined.
