(* ===== verification/ServiceDispatch.v ===== *)
(** * SVC service dispatch ([src/src/runtime/a32_service_dispatch.{h,cpp}],
      [src/src/runtime/a32_service_registry.{h,cpp}])

    The loop that runs guest code under one instruction budget and hands each
    resumable SVC trap to a host handler, and the registry that selects a handler
    by its SVC immediate. A handler is an object behind a virtual call: it may
    change guest memory, registers, CPSR and its own state, the world [W]. *)

From S2P Require Import Prelude Bytes GuestMemory LinearMemory Cpu.

(** ** [a32_service_dispatch.h] *)
Module A32HostServiceDisposition.
Inductive t : Set := Handled | Unhandled | Failed.
End A32HostServiceDisposition.

Module A32ServiceDispatchError.
Inductive t : Set :=
| None | MemoryFault | CpuException | ServiceLimitExceeded | ServiceUnhandled | ServiceFailed
| InstructionLimitExceeded.

Definition to_string (error : t) : string :=
  match error with
  | None => "none"
  | MemoryFault => "memory_fault"
  | CpuException => "cpu_exception"
  | ServiceLimitExceeded => "service_limit_exceeded"
  | ServiceUnhandled => "service_unhandled"
  | ServiceFailed => "service_failed"
  | InstructionLimitExceeded => "instruction_limit_exceeded"
  end.
End A32ServiceDispatchError.

Record handler_outcome (M W : Type) := HandlerOutcome {
  ho_disposition : A32HostServiceDisposition.t;
  ho_memory : M;
  ho_regs : regs_t;
  ho_cpsr : Z;
  ho_world : W;
}.

Arguments HandlerOutcome {M W}.
Arguments ho_disposition {M W}.
Arguments ho_memory {M W}.
Arguments ho_regs {M W}.
Arguments ho_cpsr {M W}.
Arguments ho_world {M W}.

(** [A32HostServiceHandler::handle(memory, svc_immediate, regs, cpsr)] *)
Definition A32HostServiceHandler (M W : Type) : Type :=
  M -> Z -> regs_t -> Z -> W -> handler_outcome M W.

Record A32ServiceDispatchResult := {
  dr_error : A32ServiceDispatchError.t;
  dr_regs : regs_t;
  dr_cpsr : Z;
  dr_instructions_executed : Z;
  dr_services_handled : Z;
  dr_stop_pc_reached : bool;
  dr_failing_svc_immediate : option Z;
}.

(** [failure(result, error, failing_svc)] *)
Definition failure (result : A32ServiceDispatchResult) (error : A32ServiceDispatchError.t)
    (failing_svc : option Z) : A32ServiceDispatchResult :=
  {| dr_error := error; dr_regs := dr_regs result; dr_cpsr := dr_cpsr result;
     dr_instructions_executed := dr_instructions_executed result;
     dr_services_handled := dr_services_handled result;
     dr_stop_pc_reached := dr_stop_pc_reached result;
     dr_failing_svc_immediate := failing_svc |}.

Section dispatch.
Context {M : Type} `{GuestMemory M} {I W : Type}.
Context (jit_new : option Z -> I) (jit_step : @Jit I -> jit_prog M (@Jit I)).
Context (handler : A32HostServiceHandler M W).

(** The loop's variables: [memory], [request], [result], [remaining_instructions]
    and the handler's state. *)
Record dispatch_state := {
  ds_memory : M;
  ds_request : ExecutionRequest;
  ds_result : A32ServiceDispatchResult;
  ds_remaining : Z;
  ds_world : W;
}.

Definition dispatch_done : Type := A32ServiceDispatchResult * M * W.

(** [result] updated from one CPU slice. *)
Definition absorb_cpu_result (result : A32ServiceDispatchResult) (cpu_result : ExecutionResult)
    : A32ServiceDispatchResult :=
  {| dr_error := dr_error result; dr_regs := er_regs cpu_result; dr_cpsr := er_cpsr cpu_result;
     dr_instructions_executed :=
       u64 (dr_instructions_executed result + er_instructions_executed cpu_result);
     dr_services_handled := dr_services_handled result;
     dr_stop_pc_reached := er_stop_pc_reached cpu_result;
     dr_failing_svc_immediate := dr_failing_svc_immediate result |}.

Definition set_guest_state (result : A32ServiceDispatchResult) (regs : regs_t) (cpsr handled : Z)
    (reached : bool) : A32ServiceDispatchResult :=
  {| dr_error := dr_error result; dr_regs := regs; dr_cpsr := cpsr;
     dr_instructions_executed := dr_instructions_executed result;
     dr_services_handled := handled; dr_stop_pc_reached := reached;
     dr_failing_svc_immediate := dr_failing_svc_immediate result |}.

(** The branch that handles an SVC trap. *)
Definition service_step (max_service_calls : Z) (stop_pc : option Z) (memory : M)
    (request : ExecutionRequest) (result : A32ServiceDispatchResult) (remaining : Z) (w : W)
    (immediate : Z) : dispatch_state + dispatch_done :=
  if max_service_calls <=? dr_services_handled result
  then inr (failure result A32ServiceDispatchError.ServiceLimitExceeded (Some immediate), memory, w)
  else
    let o := handler memory immediate (dr_regs result) (dr_cpsr result) w in
    let result1 := set_guest_state result (ho_regs o) (ho_cpsr o) (dr_services_handled result)
                     (dr_stop_pc_reached result) in
    match ho_disposition o with
    | A32HostServiceDisposition.Unhandled =>
        inr (failure result1 A32ServiceDispatchError.ServiceUnhandled (Some immediate),
             ho_memory o, ho_world o)
    | A32HostServiceDisposition.Failed =>
        inr (failure result1 A32ServiceDispatchError.ServiceFailed (Some immediate),
             ho_memory o, ho_world o)
    | A32HostServiceDisposition.Handled =>
        let handled := u64 (dr_services_handled result + 1) in
        let at_stop_pc :=
          match stop_pc with Some pc => reg (ho_regs o) 15 =? pc | None => false end in
        let result2 := set_guest_state result (ho_regs o) (ho_cpsr o) handled
                         (at_stop_pc || dr_stop_pc_reached result) in
        if at_stop_pc then inr (result2, ho_memory o, ho_world o)
        else if remaining =? 0 then
          match stop_pc with
          | Some _ =>
              inr (failure result2 A32ServiceDispatchError.InstructionLimitExceeded None,
                   ho_memory o, ho_world o)
          | None => inr (result2, ho_memory o, ho_world o)
          end
        else
          inl {| ds_memory := ho_memory o;
                 ds_request :=
                   {| rq_instruction_set := rq_instruction_set request;
                      rq_entry_pc := reg (ho_regs o) 15;
                      rq_regs := ho_regs o;
                      rq_instruction_count := rq_instruction_count request;
                      rq_stop_pc := stop_pc;
                      rq_initial_cpsr := Some (ho_cpsr o) |};
                 ds_result := result2; ds_remaining := remaining; ds_world := ho_world o |}
    end.

(** One iteration of [while (true)]. *)
Definition dispatch_step (max_service_calls : Z) (stop_pc : option Z) (s : dispatch_state)
    : dispatch_state + dispatch_done :=
  let request :=
    {| rq_instruction_set := rq_instruction_set (ds_request s);
       rq_entry_pc := rq_entry_pc (ds_request s);
       rq_regs := rq_regs (ds_request s);
       rq_instruction_count := ds_remaining s;
       rq_stop_pc := rq_stop_pc (ds_request s);
       rq_initial_cpsr := rq_initial_cpsr (ds_request s) |} in
  let '(cpu_result, memory) := execute jit_new jit_step (ds_memory s) request in
  if ds_remaining s <? er_instructions_executed cpu_result
  then inr (failure (ds_result s) A32ServiceDispatchError.CpuException None, memory, ds_world s)
  else
    let remaining := u64 (ds_remaining s - er_instructions_executed cpu_result) in
    let result := absorb_cpu_result (ds_result s) cpu_result in
    if er_memory_fault cpu_result
    then inr (failure result A32ServiceDispatchError.MemoryFault None, memory, ds_world s)
    else
      match er_svc_immediate cpu_result with
      | Some immediate =>
          service_step max_service_calls stop_pc memory request result remaining (ds_world s)
            immediate
      | None =>
          if er_exception_raised cpu_result
          then inr (failure result A32ServiceDispatchError.CpuException None, memory, ds_world s)
          else if er_stop_pc_reached cpu_result then inr (result, memory, ds_world s)
          else
            match stop_pc with
            | Some _ =>
                inr (failure result A32ServiceDispatchError.InstructionLimitExceeded None,
                     memory, ds_world s)
            | None => inr (result, memory, ds_world s)
            end
      end.

Definition initial_dispatch (memory : M) (request : ExecutionRequest) (w : W) : dispatch_state :=
  {| ds_memory := memory; ds_request := request;
     ds_result :=
       {| dr_error := A32ServiceDispatchError.None;
          dr_regs := set_reg (rq_regs request) 15 (rq_entry_pc request);
          dr_cpsr := default (default_cpsr (rq_instruction_set request))
                       (rq_initial_cpsr request);
          dr_instructions_executed := 0; dr_services_handled := 0;
          dr_stop_pc_reached := false; dr_failing_svc_immediate := None |};
     ds_remaining := rq_instruction_count request; ds_world := w |}.

(** Every continued iteration handles one of at most [max_service_calls < 2^64]
    services. *)
Definition dispatch_fuel : positive := 2 ^ 65.

Definition execute_a32_with_services (memory : M) (request : ExecutionRequest)
    (max_service_calls : Z) (w : W) : option dispatch_done :=
  match loop dispatch_fuel (dispatch_step max_service_calls (rq_stop_pc request))
          (initial_dispatch memory request w) with
  | inr d => Some d
  | inl _ => None
  end.

(** ** Specification *)
Definition service_error (e : A32ServiceDispatchError.t) : bool :=
  match e with
  | A32ServiceDispatchError.ServiceLimitExceeded | A32ServiceDispatchError.ServiceUnhandled
  | A32ServiceDispatchError.ServiceFailed => true
  | _ => false
  end.

(** What a dispatch may return for [stop_pc], a budget and a service limit. *)
Record dispatch_post (stop_pc : option Z) (budget max : Z) (r : A32ServiceDispatchResult) : Prop := {
  dp_executed : 0 <= dr_instructions_executed r <= budget;
  dp_services : 0 <= dr_services_handled r <= max;
  dp_failing : dr_failing_svc_immediate r <> None <-> service_error (dr_error r) = true;
  dp_limit : dr_error r = A32ServiceDispatchError.ServiceLimitExceeded ->
             dr_services_handled r = max;
  dp_stop : dr_stop_pc_reached r = true ->
            dr_error r = A32ServiceDispatchError.None /\ stop_pc = Some (reg (dr_regs r) 15);
  dp_success : dr_error r = A32ServiceDispatchError.None -> is_Some stop_pc ->
               dr_stop_pc_reached r = true;
  dp_slice : dr_error r = A32ServiceDispatchError.None -> stop_pc = None ->
             dr_instructions_executed r = budget;
  dp_budget : dr_error r = A32ServiceDispatchError.InstructionLimitExceeded ->
              is_Some stop_pc /\ dr_instructions_executed r = budget;
}.

(** Loop invariant. *)
Record dispatch_inv (stop_pc : option Z) (budget max : Z) (s : dispatch_state) : Prop := {
  di_remaining : 0 <= ds_remaining s;
  di_executed : 0 <= dr_instructions_executed (ds_result s);
  di_total : dr_instructions_executed (ds_result s) + ds_remaining s = budget;
  di_services : 0 <= dr_services_handled (ds_result s) <= max;
  di_error : dr_error (ds_result s) = A32ServiceDispatchError.None;
  di_failing : dr_failing_svc_immediate (ds_result s) = None;
  di_stop : rq_stop_pc (ds_request s) = stop_pc;
}.

Definition step_ok (stop_pc : option Z) (budget max : Z) (s : dispatch_state)
    (o : dispatch_state + dispatch_done) : Prop :=
  match o with
  | inl s' => dispatch_inv stop_pc budget max s' /\
      dr_services_handled (ds_result s) < dr_services_handled (ds_result s') <= max
  | inr d => dispatch_post stop_pc budget max d.1.1
  end.

Ltac solve_post :=
  split; cbn; repeat match goal with
    | H : dr_failing_svc_immediate _ = _ |- _ => rewrite H
    | H : dr_error _ = _ |- _ => rewrite H
    | H : u64 _ = _ |- _ => rewrite H
    end;
  rewrite <- ?not_eq_None_Some; intuition (subst; done || lia || congruence).

(** The SVC branch, from a state in which a slice ended with a trap. *)
Lemma service_step_ok max stop_pc memory request result remaining w immediate budget s :
  is_u64 max -> 0 <= remaining -> 0 <= dr_instructions_executed result ->
  dr_instructions_executed result + remaining = budget ->
  0 <= dr_services_handled result <= max -> dr_error result = A32ServiceDispatchError.None ->
  dr_failing_svc_immediate result = None -> dr_stop_pc_reached result = false ->
  dr_services_handled (ds_result s) = dr_services_handled result ->
  step_ok stop_pc budget max s
    (service_step max stop_pc memory request result remaining w immediate).
Proof.
  intros Hmax Hrem Hex Htot Hsv Herr Hfail Hreach Hs. unfold service_step.
  destruct (max <=? dr_services_handled result) eqn:E; bool_prop; [solve_post|].
  destruct (handler _ _ _ _ _) as [[] m regs cpsr w']; cbn; [|solve_post..].
  rewrite u64_small by word_lia.
  destruct stop_pc as [pc|]; cbn.
  - destruct (reg regs 15 =? pc) eqn:Epc; bool_prop; cbn; [solve_post|].
    destruct (remaining =? 0) eqn:E0; bool_prop; cbn; [solve_post|].
    rewrite Hs. split; [solve_post|lia].
  - destruct (remaining =? 0) eqn:E0; bool_prop; cbn; [solve_post|].
    rewrite Hs. split; [solve_post|lia].
Qed.

Lemma dispatch_step_ok max stop_pc budget s :
  is_u64 max -> is_u64 budget -> dispatch_inv stop_pc budget max s ->
  step_ok stop_pc budget max s (dispatch_step max stop_pc s).
Proof.
  intros Hmax Hb [Hrem Hex Htot Hsv Herr Hfail Hstop]. unfold dispatch_step.
  set (request := {| rq_instruction_set := _ |}).
  pose proof (execute_bounded_lemma jit_new jit_step (ds_memory s) request ltac:(cbn; word_lia)) as Hx.
  destruct (execute jit_new jit_step (ds_memory s) request) as [c memory]. cbn in Hx.
  destruct Hx as (Hbound & Hwhy & Hreach & Hsvc).
  rewrite (proj2 (Z.ltb_ge _ _)) by lia. rewrite u64_small by word_lia.
  assert (Hu : u64 (dr_instructions_executed (ds_result s) + er_instructions_executed c) =
               dr_instructions_executed (ds_result s) + er_instructions_executed c)
    by (apply u64_small; word_lia).
  destruct (er_memory_fault c) eqn:Ef.
  { solve_post. }
  destruct (er_svc_immediate c) as [immediate|] eqn:Ei.
  { apply service_step_ok; cbn; rewrite ?Hu; try done; try lia.
    destruct (er_stop_pc_reached c) eqn:Er; [|done].
    destruct Hreach as [Hreach _]. destruct (Hreach eq_refl) as (He & _).
    rewrite Hsvc in He by done. done. }
  destruct (er_exception_raised c) eqn:Ee.
  { solve_post. }
  destruct (er_stop_pc_reached c) eqn:Er.
  { destruct Hreach as [Hreach _]. destruct (Hreach eq_refl) as (_ & _ & Hpc). rewrite Hstop in Hpc.
    solve_post. }
  assert (Hall : er_instructions_executed c = ds_remaining s) by (destruct Hwhy as [?|[?|[?|?]]]; done).
  destruct stop_pc as [pc|]; solve_post.
Qed.

(** C17: dispatching is total: for any JIT and any handler the loop returns within
    the service limit, and the result obeys the documented contract. All CPU
    slices together execute at most [instruction_count] instructions; at most
    [max_service_calls] services are handled; [failing_svc_immediate] is present
    exactly for the three service errors; success with a stop address means the
    guest stopped at that address, and [stop_pc_reached] is never reported
    otherwise; success without one means the whole budget ran; and
    [InstructionLimitExceeded] means the budget was spent before the requested
    stop address was reached. *)
Theorem execute_a32_with_services_bounded memory request max_service_calls w :
  is_u64 (rq_instruction_count request) -> is_u64 max_service_calls ->
  exists r memory' w',
    execute_a32_with_services memory request max_service_calls w = Some (r, memory', w') /\
    dispatch_post (rq_stop_pc request) (rq_instruction_count request) max_service_calls r.
Proof.
  intros Hc Hmax. unfold execute_a32_with_services.
  destruct (loop_rule (dispatch_inv (rq_stop_pc request) (rq_instruction_count request) max_service_calls)
    (fun d : dispatch_done => dispatch_post (rq_stop_pc request) (rq_instruction_count request)
       max_service_calls d.1.1)
    (fun s => max_service_calls - dr_services_handled (ds_result s))
    dispatch_fuel (dispatch_step max_service_calls (rq_stop_pc request))
    (initial_dispatch memory request w)) as ([[r m'] w'] & -> & Hpost).
  - intros s Hs. pose proof (dispatch_step_ok max_service_calls _ _ s Hmax Hc Hs) as Hok.
    pose proof (di_services _ _ _ _ Hs). unfold step_ok in Hok.
    destruct (dispatch_step _ _ s); [|done]. destruct Hok. split; [done|lia].
  - split; cbn; try done; word_lia.
  - cbn. unfold dispatch_fuel. word_lia.
  - by exists r, m', w'.
Qed.
End dispatch.

(** ** [A32HostServiceRegistry]

    A handler object is known by its address [H]; [call h] is its virtual
    [handle], and [this] the registry itself. *)
Section registry.
Context {M W H : Type} `{EqDecision H}.
Context (call : H -> A32HostServiceHandler M W) (this : H).

Record A32HostServiceRegistryEntry := {
  re_svc_immediate : Z;
  re_handler : option H;
}.

(** The scan; [None] is the early [return Failed]. *)
Fixpoint registry_scan (svc_immediate : Z) (entries : list A32HostServiceRegistryEntry)
    (found : option H) : option (option H) :=
  match entries with
  | [] => Some found
  | entry :: entries' =>
      if negb (re_svc_immediate entry =? svc_immediate)
      then registry_scan svc_immediate entries' found
      else
        match re_handler entry, found with
        | Some h, None =>
            if decide (h = this) then None else registry_scan svc_immediate entries' (Some h)
        | _, _ => None
        end
  end.

(** [A32HostServiceRegistry::handle] *)
Definition registry_handle (entries : list A32HostServiceRegistryEntry)
    : A32HostServiceHandler M W :=
  fun memory svc_immediate regs cpsr w =>
    match registry_scan svc_immediate entries None with
    | None => HandlerOutcome A32HostServiceDisposition.Failed memory regs cpsr w
    | Some None => HandlerOutcome A32HostServiceDisposition.Unhandled memory regs cpsr w
    | Some (Some h) => call h memory svc_immediate regs cpsr w
    end.

(** [size()] *)
Definition registry_size (entries : list A32HostServiceRegistryEntry) : Z :=
  Z.of_nat (length entries).

Definition for_immediate (imm : Z) (entry : A32HostServiceRegistryEntry) : Prop :=
  re_svc_immediate entry = imm.
#[local] Instance for_immediate_dec imm entry : Decision (for_immediate imm entry).
Proof. unfold for_immediate. apply _. Defined.

Lemma registry_scan_found imm entries h :
  registry_scan imm entries (Some h) =
  match filter (for_immediate imm) entries with [] => Some (Some h) | _ => None end.
Proof.
  induction entries as [|e entries IH]; [done|]. cbn [registry_scan].
  rewrite filter_cons. unfold for_immediate at 1.
  destruct (re_svc_immediate e =? imm) eqn:E; bool_prop; cbn.
  - rewrite decide_True by done. by destruct (re_handler e).
  - by rewrite decide_False by done.
Qed.

Lemma registry_scan_none imm entries :
  registry_scan imm entries None =
  match filter (for_immediate imm) entries with
  | [] => Some None
  | [e] => match re_handler e with
           | Some h => if decide (h = this) then None else Some (Some h)
           | None => None
           end
  | _ => None
  end.
Proof.
  induction entries as [|e entries IH]; [done|]. cbn [registry_scan].
  rewrite filter_cons. unfold for_immediate at 1.
  destruct (re_svc_immediate e =? imm) eqn:E; bool_prop; cbn.
  - rewrite decide_True by done. destruct (re_handler e) as [h|]; cbn.
    + rewrite registry_scan_found. destruct (filter _ entries); by case_decide.
    + by destruct (filter _ entries).
  - by rewrite decide_False by done.
Qed.

(** The registry is an exact lookup that fails closed: a request is
    forwarded, unchanged, to a child handler precisely when one entry has its
    immediate and that entry names a handler other than the registry itself;
    when no entry has it the answer is [Unhandled], and for duplicate, null or
    self-referential entries it is [Failed]; in the last two cases no child is
    invoked, so memory, registers, CPSR and the children's state are untouched. *)
Theorem registry_handle_exact entries memory imm regs cpsr w :
  registry_handle entries memory imm regs cpsr w =
  match filter (fun e => re_svc_immediate e = imm) entries with
  | [] => HandlerOutcome A32HostServiceDisposition.Unhandled memory regs cpsr w
  | [{| re_handler := Some h |}] =>
      if decide (h = this)
      then HandlerOutcome A32HostServiceDisposition.Failed memory regs cpsr w
      else call h memory imm regs cpsr w
  | _ => HandlerOutcome A32HostServiceDisposition.Failed memory regs cpsr w
  end.
Proof.
  unfold registry_handle. rewrite registry_scan_none.
  replace (filter (for_immediate imm) entries) with (filter (fun e => re_svc_immediate e = imm) entries)
    by (apply list_filter_iff; done).
  destruct (filter _ entries) as [|[i [h|]] [|]]; cbn; try done. by case_decide.
Qed.
End registry.

(** ** Witness: a JIT that traps on its first instruction of each slice *)
Definition svc_jit (j : @Jit unit) : jit_prog LinearGuestMemory.t (@Jit unit) :=
  JitSvc 0xA0 (JitDone {| jit_regs := set_reg (jit_regs j) 15 (u32 (reg (jit_regs j) 15 + 4));
                          jit_cpsr := jit_cpsr j; jit_internal := tt |}).

Definition counting_handler : A32HostServiceHandler LinearGuestMemory.t nat :=
  fun m imm regs cpsr w => HandlerOutcome A32HostServiceDisposition.Handled m regs cpsr (S w).

(** Three traps reach the stop address of [demo_request]. *)
Lemma execute_a32_with_services_bounded_witness :
  option_map (fun d => (dr_services_handled d.1.1, d.2))
    (execute_a32_with_services (fun _ => tt) svc_jit counting_handler code_memory demo_request 5 0%nat)
  = Some (3, 3%nat) /\
  exists r memory' w',
    execute_a32_with_services (fun _ => tt) svc_jit counting_handler code_memory demo_request 5 0%nat
      = Some (r, memory', w') /\
    dispatch_post (Some 4108) 10 5 r.
Proof.
  split; [vm_compute; reflexivity|].
  apply (execute_a32_with_services_bounded (fun _ => tt) svc_jit counting_handler code_memory
           demo_request 5 0%nat).
  - split; vm_compute; congruence.
  - split; vm_compute; congruence.
Defined.
