(* ===== verification/AndroidLog.v ===== *)
(** * The [__android_log_write] service ([src/src/compat/a32_android_log_write.{h,cpp}])

    Reads the tag and text C strings of the guest call under caller-chosen
    payload limits and hands them to a log sink. The sink is an abstract class
    whose implementation belongs to the embedding application: a parameter over
    its own state [W]. *)

From S2P Require Import Prelude Bytes GuestMemory LinearMemory LinkerStrings Cpu ServiceDispatch.

Record A32AndroidLogWriteOptions := {
  max_tag_bytes : Z;
  max_text_bytes : Z;
}.

(** [A32AndroidLogSink::write(priority, tag, text)] *)
Definition A32AndroidLogSink (W : Type) : Type := Z -> option (list Z) -> list Z -> W -> Z * W.

(** [std::bit_cast<std::uint32_t>] of an [std::int32_t] *)
Definition bits_of_i32 (z : Z) : Z := u32 z.

Section service.
Context {M : Type} `{GuestMemory M} {W : Type}.

(** One iteration of [read_guest_c_string]: [output] has [offset] bytes. *)
Definition c_string_step (memory : M) (address max_payload_bytes : Z) (s : Z * list Z)
    : (Z * list Z) + option (list Z) :=
  let '(offset, output) := s in
  if UINT32_MAX - address <? offset then inr None
  else
    match gm_read memory (u32 (address + u32 offset)) 1 with
    | None => inr None
    | Some byte =>
        if byte_at byte 0 =? 0 then inr (Some output)
        else if offset =? max_payload_bytes then inr None
        else inl (u64 (offset + 1), output ++ [byte_at byte 0])
    end.

(** The first guard leaves the loop once [offset] exceeds a 32-bit value. *)
Definition c_string_fuel : positive := 2 ^ 33.

Definition read_guest_c_string (memory : M) (address max_payload_bytes : Z) : option (list Z) :=
  match loop c_string_fuel (c_string_step memory address max_payload_bytes) (0, []) with
  | inr r => r
  | inl _ => None
  end.

Record A32AndroidLogWriteService := {
  svc_immediate : Z;
  sink : A32AndroidLogSink W;
  options : A32AndroidLogWriteOptions;
}.

(** [A32AndroidLogWriteService::handle] *)
Definition log_write_handle (service : A32AndroidLogWriteService) : A32HostServiceHandler M W :=
  fun memory imm regs cpsr w =>
    let failed := HandlerOutcome A32HostServiceDisposition.Failed memory regs cpsr w in
    if negb (imm =? svc_immediate service)
    then HandlerOutcome A32HostServiceDisposition.Unhandled memory regs cpsr w
    else
      let priority := i32 (reg regs 0) in
      let tag_address := reg regs 1 in
      let text_address := reg regs 2 in
      match (if negb (tag_address =? 0)
             then match read_guest_c_string memory tag_address (max_tag_bytes (options service)) with
                  | Some tag => Some (Some tag)
                  | None => None
                  end
             else Some None) with
      | None => failed
      | Some tag =>
          if text_address =? 0 then failed
          else
            match read_guest_c_string memory text_address (max_text_bytes (options service)) with
            | None => failed
            | Some text =>
                let '(result, w') := sink service priority tag text w in
                HandlerOutcome A32HostServiceDisposition.Handled memory
                  (set_reg regs 0 (bits_of_i32 result)) cpsr w'
            end
      end.
End service.

(** ** Properties *)
Section laws.
Context {M : Type} `{GuestMemorySpec M} {W : Type}.

(** The bounded C string at [a], as the guest's contract has it. *)
Definition bounded_cstring (m : M) (a max : Z) (v : list Z) : Prop :=
  is_cstring m a v /\ Z.of_nat (length v) <= max.

Lemma gm_read_one (m : M) a b :
  gm_ok m -> is_u32 a -> gm_read m a 1 = Some b ->
  gm_peek m a = Some (byte_at b 0).
Proof.
  intros Hm Ha Hr. rewrite gm_read_spec in Hr by (done || unfold span_max; lia).
  apply mapM_seqZ_Some in Hr as [_ Hr]; [|lia]. rewrite <- (Hr 0), Z.add_0_r by lia. done.
Qed.

Lemma gm_read_one_none (m : M) a :
  gm_ok m -> is_u32 a -> gm_read m a 1 = None -> gm_peek m a = None.
Proof.
  intros Hm Ha Hr. destruct (gm_peek m a) eqn:E; [|done].
  assert (Hs : is_Some (gm_read m a 1)).
  { apply gm_read_is_Some; [done..|unfold span_max; lia|]. intros x Hx.
    replace x with a by lia. by eexists. }
  rewrite Hr in Hs. by destruct Hs.
Qed.

Definition c_string_post (m : M) (a max : Z) (r : option (list Z)) : Prop :=
  match r with
  | Some v => bounded_cstring m a max v
  | None => forall v, ~ bounded_cstring m a max v
  end.

(** A nonzero prefix that cannot be extended to a string within the limit. *)
Lemma no_cstring_past m a max output :
  nonzero_prefix m a output ->
  (gm_peek m (a + Z.of_nat (length output)) <> Some 0) ->
  (gm_peek m (a + Z.of_nat (length output)) = None \/ Z.of_nat (length output) = max) ->
  forall v, ~ bounded_cstring m a max v.
Proof.
  intros Hpre Hnz Hwhy v [[Hv Hend] Hlen].
  destruct (Z.lt_trichotomy (Z.of_nat (length v)) (Z.of_nat (length output))) as [Hlt|[Heq|Hgt]].
  - destruct (Hpre (Z.of_nat (length v))) as [Hp Hne]; [lia|]. congruence.
  - rewrite Heq in Hend. congruence.
  - destruct (Hv (Z.of_nat (length output))) as [Hp _]; [lia|]. destruct Hwhy; [congruence|lia].
Qed.

Lemma read_guest_c_string_lemma (m : M) a max :
  gm_ok m -> is_u32 a -> is_u64 max -> c_string_post m a max (read_guest_c_string m a max).
Proof.
  intros Hm Ha Hmax. unfold read_guest_c_string.
  destruct (loop_rule
    (fun s : Z * list Z => nonzero_prefix m a s.2 /\ s.1 = Z.of_nat (length s.2) /\
       s.1 <= max /\ a + s.1 <= 2 ^ 32)
    (c_string_post m a max) (fun s => 2 ^ 32 - a - s.1) c_string_fuel
    (c_string_step m a max) (0, [])) as (r & -> & Hr); [| | |done].
  - intros [offset output] (Hpre & Ho & Hle & Hsp). cbn in *. subst offset.
    destruct (UINT32_MAX - a <? _) eqn:E1; bool_prop.
    { refine (no_cstring_past m a max output Hpre _ _).
      - intros Hp. apply gm_peek_range in Hp; [word_lia|done].
      - left. destruct (gm_peek m _) eqn:Ep; [|done]. apply gm_peek_range in Ep; [word_lia|done]. }
    rewrite (u32_small (Z.of_nat _)), u32_small by word_lia.
    destruct (gm_read m _ 1) as [b|] eqn:Er; cycle 1.
    { apply gm_read_one_none in Er; [|done|word_lia].
      refine (no_cstring_past m a max output Hpre _ _); [congruence|by left]. }
    apply gm_read_one in Er; [|done|word_lia].
    destruct (byte_at b 0 =? 0) eqn:E2; bool_prop.
    { split; [|done]. split; [done|]. congruence. }
    destruct (_ =? max) eqn:E3; bool_prop.
    { refine (no_cstring_past m a max output Hpre _ _); [congruence|by right]. }
    rewrite u64_small by word_lia. cbn. rewrite length_app. cbn.
    split; [|word_lia]. split_and!; [by apply nonzero_prefix_snoc|lia|lia|word_lia].
  - cbn. split_and!; [|lia|word_lia|word_lia]. intros i Hi. cbn in Hi. lia.
  - cbn. unfold c_string_fuel. word_lia.
Qed.

(** Failing to read and the absence of a string coincide. *)
Lemma read_guest_c_string_iff (m : M) a max v :
  gm_ok m -> is_u32 a -> is_u64 max ->
  read_guest_c_string m a max = Some v <-> bounded_cstring m a max v.
Proof.
  intros Hm Ha Hmax. pose proof (read_guest_c_string_lemma m a max Hm Ha Hmax) as Hpost.
  destruct (read_guest_c_string m a max) as [w|]; cbn in Hpost.
  - split; [by intros [= ->]|]. intros Hv. f_equal.
    destruct Hpost as [Hw _], Hv as [Hv _]. by eapply is_cstring_unique.
  - split; [done|]. intros Hv. by apply Hpost in Hv.
Qed.

(** The tag argument: a null pointer is no tag. *)
Definition tag_of (m : M) (a max : Z) (tag : option (list Z)) : Prop :=
  match tag with
  | None => a = 0
  | Some v => a <> 0 /\ bounded_cstring m a max v
  end.

(** The log service handles a call with its own SVC immediate exactly when the
    tag pointer is null or a NUL-terminated string of at most [max_tag_bytes],
    and the text pointer is non-null and such a string within [max_text_bytes].
    It then calls the sink once, with precisely those strings and the signed
    priority, stores the sink's answer in r0 and changes nothing else of the
    guest; otherwise the sink is not called and registers, memory and the sink's
    state are unchanged. *)
Theorem log_write_handle_spec (service : @A32AndroidLogWriteService W) (m : M) regs cpsr w :
  gm_ok m -> is_u32 (reg regs 1) -> is_u32 (reg regs 2) ->
  is_u64 (max_tag_bytes (options service)) -> is_u64 (max_text_bytes (options service)) ->
  let o := log_write_handle service m (svc_immediate service) regs cpsr w in
  (forall tag text,
     tag_of m (reg regs 1) (max_tag_bytes (options service)) tag ->
     reg regs 2 <> 0 -> bounded_cstring m (reg regs 2) (max_text_bytes (options service)) text ->
     let s := sink service (i32 (reg regs 0)) tag text w in
     o = HandlerOutcome A32HostServiceDisposition.Handled m
           (set_reg regs 0 (bits_of_i32 s.1)) cpsr s.2) /\
  ((~ exists tag text,
     tag_of m (reg regs 1) (max_tag_bytes (options service)) tag /\
     reg regs 2 <> 0 /\ bounded_cstring m (reg regs 2) (max_text_bytes (options service)) text) ->
   o = HandlerOutcome A32HostServiceDisposition.Failed m regs cpsr w).
Proof.
  intros Hm Htag Htext Hmt Hmx. unfold log_write_handle. rewrite Z.eqb_refl. cbn [negb].
  split.
  - intros tag text Ht Hnz Hx. apply Z.eqb_neq in Hnz. rewrite Hnz.
    apply read_guest_c_string_iff in Hx; [|done..]. rewrite Hx.
    destruct tag as [v|]; cbn in Ht.
    + destruct Ht as [Hne Hv]. apply Z.eqb_neq in Hne. rewrite Hne. cbn.
      apply read_guest_c_string_iff in Hv; [|done..]. rewrite Hv. by destruct (sink _ _ _ _ _).
    + rewrite Ht, Z.eqb_refl. cbn. by destruct (sink _ _ _ _ _).
  - intros Hno.
    assert (Hx : reg regs 2 = 0 \/ read_guest_c_string m (reg regs 2) (max_text_bytes (options service)) = None
              \/ exists text, reg regs 2 <> 0 /\ bounded_cstring m (reg regs 2) (max_text_bytes (options service)) text).
    { destruct (decide (reg regs 2 = 0)) as [|Hne]; [by left|right].
      destruct (read_guest_c_string _ _ _) as [text|] eqn:E; [right|by left].
      apply read_guest_c_string_iff in E; [|done..]. by exists text. }
    destruct (reg regs 1 =? 0) eqn:E1; bool_prop; cbn.
    + destruct Hx as [->|[->|(text & ? & ?)]]; [done|by case_match|].
      exfalso. apply Hno. by exists None, text.
    + destruct (read_guest_c_string m (reg regs 1) _) as [v|] eqn:Ev; [|done].
      apply read_guest_c_string_iff in Ev; [|done..].
      destruct Hx as [->|[->|(text & ? & ?)]]; [done|by case_match|].
      exfalso. apply Hno. by exists (Some v), text.
Qed.
End laws.

(** ** Witness *)
Definition log_memory : LinearGuestMemory.t :=
  LinearGuestMemory.mk 256 [65; 0; 72; 105; 0].

Lemma log_memory_wf : linear_wf log_memory.
Proof.
  split; [vm_compute; congruence..|].
  repeat (constructor; [unfold is_byte; lia|]). constructor.
Qed.

Definition log_service : @A32AndroidLogWriteService (list (Z * option (list Z) * list Z)) :=
  {| svc_immediate := 0xA0; sink := fun p t x w => (1, w ++ [(p, t, x)]);
     options := {| max_tag_bytes := 8; max_text_bytes := 8 |} |}.

Lemma log_write_handle_spec_witness :
  log_write_handle log_service log_memory 0xA0 ([3; 256; 258] ++ replicate 13 0) 0x10 [] =
  HandlerOutcome A32HostServiceDisposition.Handled log_memory
    ([1; 256; 258] ++ replicate 13 0) 0x10 [(3, Some [65], [72; 105])].
Proof.
  refine (proj1 (log_write_handle_spec log_service log_memory
    ([3; 256; 258] ++ replicate 13 0) 0x10 [] log_memory_wf _ _ _ _) (Some [65]) [72; 105] _ _ _).
  1-4: split; vm_compute; congruence.
  - split; [vm_compute; congruence|]. split; [|vm_compute; congruence].
    split; [|reflexivity]. intros i Hi. cbn in Hi. replace i with 0 by lia.
    split; [reflexivity|]. vm_compute; congruence.
  - vm_compute; congruence.
  - split; [|vm_compute; congruence].
    split; [|reflexivity]. intros i Hi. cbn in Hi.
    assert (Hc : i = 0 \/ i = 1) by lia. destruct Hc as [-> | ->].
    + split; [reflexivity|]. vm_compute; congruence.
    + split; [reflexivity|]. vm_compute; congruence.
Defined.
