(* ===== verification/Graph.v ===== *)
(** * Dependency graph and link map ([src/src/elf/elf32_dependency_graph.h],
      [src/src/elf/elf32_link_map.h])

    The loaded-object graph shared by lifecycle planning, symbol lookup and
    relocation, with the reachability relation their properties speak about. *)

From S2P Require Import Prelude Dynamic Loader LinkerMetadata LinkerStrings.

Record Elf32DependencyEdge := {
  edge_requested_name : list Z;
  target_object : nat;
}.

Record Elf32LoadedDependencyObject := {
  identity : list Z;
  image : list Z;
  load : Elf32LoadResult;
  dynamic_entries : list Elf32DynamicEntry;
  linker_metadata : Elf32LinkerMetadata;
  linker_strings : Elf32LinkerStrings;
  dependencies : list Elf32DependencyEdge;
}.

Record Elf32DependencyGraph := { objects : list Elf32LoadedDependencyObject }.

Inductive Elf32LinkMapRootPolicy : Set := Local | Global.

Record Elf32LinkMapRoot := {
  root_object_index : nat;
  root_policy : Elf32LinkMapRootPolicy;
}.

Record Elf32LinkMap := {
  lmap_graph : Elf32DependencyGraph;
  lmap_roots : list Elf32LinkMapRoot;
  lmap_global_scope_objects : list nat;
}.

(** [global_scope()] *)
Definition global_scope (m : Elf32LinkMap) : list nat := lmap_global_scope_objects m.

(** ** Reachability *)
Definition targets (o : Elf32LoadedDependencyObject) : list nat := target_object <$> dependencies o.

(** [i] has an edge to [j]. *)
Definition depends_on (g : Elf32DependencyGraph) (i j : nat) : Prop :=
  exists o, objects g !! i = Some o /\ j ∈ targets o.

Definition reaches (g : Elf32DependencyGraph) : nat -> nat -> Prop := rtc (depends_on g).

Definition edges_valid (g : Elf32DependencyGraph) : Prop :=
  forall i j, depends_on g i j -> (j < length (objects g))%nat.

Lemma depends_on_intro g i o e :
  objects g !! i = Some o -> e ∈ dependencies o -> depends_on g i (target_object e).
Proof. intros Ho He. exists o. split; [done|]. by apply list_elem_of_fmap_2. Qed.

Lemma reaches_step g i j k : depends_on g i j -> reaches g j k -> reaches g i k.
Proof. apply rtc_l. Qed.
