(* ===== verification/Lifecycle.v ===== *)
(** * Constructor lifecycle ([src/src/elf/elf32_lifecycle.h],
      [src/src/elf/linking/elf32_lifecycle.cpp])

    Decoding of an INIT_ARRAY, the depth-first plan of constructor calls over
    the dependency graph, and their bounded execution. *)

From S2P Require Import Prelude Bytes GuestMemory LinearMemory Dynamic Loader LinkerMetadata LinkerStrings Cpu Graph.

(** ** [decode_elf32_function_array] *)
Module Elf32FunctionArrayDecodeError.
Inductive t : Set := None | InvalidArraySize | RangeOverflow | TooManyEntries | ReadFailed.

Definition to_string (error : t) : string :=
  match error with
  | None => "none"
  | InvalidArraySize => "invalid_array_size"
  | RangeOverflow => "range_overflow"
  | TooManyEntries => "too_many_entries"
  | ReadFailed => "read_failed"
  end.
End Elf32FunctionArrayDecodeError.

Definition kEntrySize : Z := 4.

Section decode.
Context {M : Type} `{GuestMemory M}.

(** One iteration of the entry loop. *)
Definition decode_function_entry (memory : M) (guest_address index : Z)
    : result Elf32FunctionArrayDecodeError.t Z :=
  let address := u64 (guest_address + u64 (index * kEntrySize)) in
  fail_if (UINT32_MAX <? address) Elf32FunctionArrayDecodeError.RangeOverflow ;;
  bytes ← or_fail (gm_read memory (u32 address) kEntrySize) Elf32FunctionArrayDecodeError.ReadFailed;
  Ok (decode_u32_le bytes 0).

Definition decode_elf32_function_array (memory : M) (array : Elf32FunctionArrayMetadata)
    (max_entries : Z) : result Elf32FunctionArrayDecodeError.t (list Z) :=
  fail_if (negb (fa_size array mod kEntrySize =? 0))
    Elf32FunctionArrayDecodeError.InvalidArraySize ;;
  let entry_count := fa_size array / kEntrySize in
  fail_if (max_entries <? entry_count) Elf32FunctionArrayDecodeError.TooManyEntries ;;
  fail_if (kGuestAddressSpaceSize <? u64 (fa_guest_address array + fa_size array))
    Elf32FunctionArrayDecodeError.RangeOverflow ;;
  mapE (decode_function_entry memory (fa_guest_address array)) (seqZ 0 entry_count).
End decode.

(** ** [plan_elf32_init_array_calls] *)
Record Elf32InitCall := {
  call_object_index : nat;
  call_array_index : Z;
  call_function : Z;
}.

Record Elf32InitPlanOptions := {
  ip_max_objects : Z;
  ip_max_entries : Z;
}.

Module Elf32InitPlanError.
Inductive t : Set :=
| None | InvalidOptions | InvalidRootObject | InvalidGraphEdge | ObjectLimitExceeded
| EntryLimitExceeded | DecodeFailed.

Definition to_string (error : t) : string :=
  match error with
  | None => "none"
  | InvalidOptions => "invalid_options"
  | InvalidRootObject => "invalid_root_object"
  | InvalidGraphEdge => "invalid_graph_edge"
  | ObjectLimitExceeded => "object_limit_exceeded"
  | EntryLimitExceeded => "entry_limit_exceeded"
  | DecodeFailed => "decode_failed"
  end.
End Elf32InitPlanError.

(** The failing fields of [Elf32InitPlanResult]. *)
Record plan_failure := PlanFailure {
  pf_error : Elf32InitPlanError.t;
  pf_failing_object : option nat;
  pf_decode_error : Elf32FunctionArrayDecodeError.t;
}.

(** [Stuck]: out of fuel, or an index outside a vector; shown unreachable. *)
Inductive visit_error := Stuck | Failure (f : plan_failure).

Inductive InitVisitState : Set := Unseen | Visiting | Complete.

#[export] Instance InitVisitState_eq_dec : EqDecision InitVisitState.
Proof. solve_decision. Defined.

(** The mutable members of [InitPlanContext]. *)
Record InitPlanContext := {
  states : list InitVisitState;
  visited_objects : Z;
  decoded_entries : Z;
  calls : list Elf32InitCall;
}.

Definition set_state (ctx : InitPlanContext) (i : nat) (s : InitVisitState) : InitPlanContext :=
  {| states := <[i := s]> (states ctx); visited_objects := visited_objects ctx;
     decoded_entries := decoded_entries ctx; calls := calls ctx |}.

(** [++visited_objects; states[object_index] = Visiting;] *)
Definition enter_object (ctx : InitPlanContext) (i : nat) : InitPlanContext :=
  set_state {| states := states ctx; visited_objects := u32 (visited_objects ctx + 1);
               decoded_entries := decoded_entries ctx; calls := calls ctx |} i Visiting.

(** The loop that skips the sentinel entries and pushes the others. *)
Fixpoint init_calls_from (object_index : nat) (index : Z) (entries : list Z) : list Elf32InitCall :=
  match entries with
  | [] => []
  | function :: rest =>
      let tail := init_calls_from object_index (index + 1) rest in
      if (function =? 0) || (function =? UINT32_MAX) then tail
      else {| call_object_index := object_index; call_array_index := u32 index;
              call_function := function |} :: tail
  end.

Section plan.
Context {M : Type} `{GuestMemory M}.
Context (memory : M) (graph : Elf32DependencyGraph) (options : Elf32InitPlanOptions).

Definition fail_with (error : Elf32InitPlanError.t) (object : option nat)
    (decode_error : Elf32FunctionArrayDecodeError.t) : visit_error :=
  Failure (PlanFailure error object decode_error).

Definition decode_plan_error (e : Elf32FunctionArrayDecodeError.t) : Elf32InitPlanError.t :=
  match e with
  | Elf32FunctionArrayDecodeError.TooManyEntries => Elf32InitPlanError.EntryLimitExceeded
  | _ => Elf32InitPlanError.DecodeFailed
  end.

(** The INIT_ARRAY part of [visit]. *)
Definition append_init_calls (ctx : InitPlanContext) (object_index : nat)
    (object : Elf32LoadedDependencyObject) : result visit_error InitPlanContext :=
  match lm_init_array (linker_metadata object) with
  | None => Ok ctx
  | Some array =>
      let remaining := u32 (ip_max_entries options - decoded_entries ctx) in
      match decode_elf32_function_array memory array remaining with
      | Err e => Err (fail_with (decode_plan_error e) (Some object_index) e)
      | Ok entries =>
          Ok {| states := states ctx; visited_objects := visited_objects ctx;
                decoded_entries :=
                  u32 (decoded_entries ctx + u32 (Z.of_nat (length entries)));
                calls := calls ctx ++ init_calls_from object_index 0 entries |}
      end
  end.

(** [InitPlanContext::visit] *)
Fixpoint visit (fuel : nat) (ctx : InitPlanContext) (object_index : nat)
    : result visit_error InitPlanContext :=
  match fuel with
  | O => Err Stuck
  | S fuel' =>
      match states ctx !! object_index, objects graph !! object_index with
      | Some Complete, _ | Some Visiting, _ => Ok ctx
      | Some Unseen, Some object =>
          if ip_max_objects options <=? visited_objects ctx
          then Err (fail_with Elf32InitPlanError.ObjectLimitExceeded (Some object_index)
                      Elf32FunctionArrayDecodeError.None)
          else
            ctx ← foldE
              (fun ctx edge =>
                 if Z.of_nat (length (objects graph)) <=? Z.of_nat (target_object edge)
                 then Err (fail_with Elf32InitPlanError.InvalidGraphEdge (Some object_index)
                             Elf32FunctionArrayDecodeError.None)
                 else visit fuel' ctx (target_object edge))
              (enter_object ctx object_index) (dependencies object);
            ctx ← append_init_calls ctx object_index object;
            Ok (set_state ctx object_index Complete)
      | _, _ => Err Stuck
      end
  end.

(** Each nested call has one more object marked, so the number of objects plus
    one bounds the depth. *)
Definition visit_fuel : nat := S (length (objects graph)).

Definition initial_context : InitPlanContext :=
  {| states := replicate (length (objects graph)) Unseen; visited_objects := 0;
     decoded_entries := 0; calls := [] |}.

Definition plan_elf32_init_array_calls (root_object : nat)
    : result visit_error (list Elf32InitCall) :=
  fail_if (ip_max_objects options =? 0)
    (fail_with Elf32InitPlanError.InvalidOptions None Elf32FunctionArrayDecodeError.None) ;;
  fail_if (Z.of_nat (length (objects graph)) <=? Z.of_nat root_object)
    (fail_with Elf32InitPlanError.InvalidRootObject (Some root_object)
       Elf32FunctionArrayDecodeError.None) ;;
  ctx ← visit visit_fuel initial_context root_object;
  Ok (calls ctx).
End plan.

(** ** [execute_elf32_init_calls] *)
Record Elf32InitExecutionOptions := {
  stack_top : Z;
  return_pc : Z;
  max_instructions_per_call : Z;
}.

Module Elf32InitExecutionError.
Inductive t : Set :=
| None | InvalidOptions | InvalidFunctionAddress | CpuException | MemoryFault
| InstructionLimitExceeded.

Definition to_string (error : t) : string :=
  match error with
  | None => "none"
  | InvalidOptions => "invalid_options"
  | InvalidFunctionAddress => "invalid_function_address"
  | CpuException => "cpu_exception"
  | MemoryFault => "memory_fault"
  | InstructionLimitExceeded => "instruction_limit_exceeded"
  end.
End Elf32InitExecutionError.

Record Elf32InitExecutionResult := {
  ix_error : Elf32InitExecutionError.t;
  ix_calls_completed : Z;
  ix_failing_call : option Z;
  ix_failing_object : option nat;
  ix_cpu_result : option ExecutionResult;
}.

Definition execution_success (completed : Z) : Elf32InitExecutionResult :=
  {| ix_error := Elf32InitExecutionError.None; ix_calls_completed := completed;
     ix_failing_call := None; ix_failing_object := None; ix_cpu_result := None |}.

Definition execution_failure (error : Elf32InitExecutionError.t) (completed failing_call : Z)
    (failing_object : nat) (cpu_result : option ExecutionResult) : Elf32InitExecutionResult :=
  {| ix_error := error; ix_calls_completed := completed; ix_failing_call := Some failing_call;
     ix_failing_object := Some failing_object; ix_cpu_result := cpu_result |}.

Definition init_options_bad (options : Elf32InitExecutionOptions) : bool :=
  (stack_top options =? 0) || negb (Z.land (stack_top options) 7 =? 0)
  || negb (Z.land (return_pc options) 3 =? 0) || (max_instructions_per_call options =? 0).

Definition call_thumb (function : Z) : bool := negb (Z.land function 1 =? 0).
Definition call_entry_pc (function : Z) : Z := Z.land function (UINT32_MAX - 1).

Definition call_address_bad (options : Elf32InitExecutionOptions) (function : Z) : bool :=
  (function =? 0) || (function =? UINT32_MAX) || (call_entry_pc function =? return_pc options)
  || (negb (call_thumb function) && negb (Z.land (call_entry_pc function) 3 =? 0)).

(** The request of one constructor call: zeroed registers except SP and LR. *)
Definition init_request (options : Elf32InitExecutionOptions) (function : Z) : ExecutionRequest :=
  {| rq_instruction_set := if call_thumb function then Thumb else Arm;
     rq_entry_pc := call_entry_pc function;
     rq_regs := set_reg (set_reg (replicate 16 0) 13 (stack_top options)) 14
                  (Z.lor (return_pc options) (if call_thumb function then 1 else 0));
     rq_instruction_count := max_instructions_per_call options;
     rq_stop_pc := Some (return_pc options);
     rq_initial_cpsr := None |}.

Section execution.
Context {M : Type} `{GuestMemory M} {I : Type}.
Context (jit_new : option Z -> I) (jit_step : @Jit I -> jit_prog M (@Jit I)).
Context (options : Elf32InitExecutionOptions).

Fixpoint run_init_calls (memory : M) (index completed : Z) (cs : list Elf32InitCall)
    : Elf32InitExecutionResult * M :=
  match cs with
  | [] => (execution_success completed, memory)
  | call :: rest =>
      let fail := fun e r => execution_failure e completed index (call_object_index call) r in
      if call_address_bad options (call_function call)
      then (fail Elf32InitExecutionError.InvalidFunctionAddress None, memory)
      else
        let '(cpu_result, memory) :=
          execute jit_new jit_step memory (init_request options (call_function call)) in
        if er_memory_fault cpu_result
        then (fail Elf32InitExecutionError.MemoryFault (Some cpu_result), memory)
        else if er_exception_raised cpu_result
        then (fail Elf32InitExecutionError.CpuException (Some cpu_result), memory)
        else if negb (er_stop_pc_reached cpu_result)
        then (fail Elf32InitExecutionError.InstructionLimitExceeded (Some cpu_result), memory)
        else run_init_calls memory (u64 (index + 1)) (u64 (completed + 1)) rest
  end.

Definition execute_elf32_init_calls (memory : M) (cs : list Elf32InitCall)
    : Elf32InitExecutionResult * M :=
  if init_options_bad options
  then ({| ix_error := Elf32InitExecutionError.InvalidOptions; ix_calls_completed := 0;
           ix_failing_call := None; ix_failing_object := None; ix_cpu_result := None |}, memory)
  else run_init_calls memory 0 0 cs.

(** ** Specification of execution *)

(** [returned m cs m']: the calls ran from [m] to [m'] in order, each on an
    admissible address, and each returned to [return_pc]. *)
Inductive returned : M -> list Elf32InitCall -> M -> Prop :=
| returned_nil m : returned m [] m
| returned_cons m c cs r m1 m' :
    call_address_bad options (call_function c) = false ->
    execute jit_new jit_step m (init_request options (call_function c)) = (r, m1) ->
    er_memory_fault r = false -> er_exception_raised r = false ->
    reg (er_regs r) 15 = return_pc options ->
    returned m1 cs m' -> returned m (c :: cs) m'.

(** Why call [c] did not return when run from [m], leaving [m']. *)
Definition call_fails (m : M) (c : Elf32InitCall) (m' : M) (e : Elf32InitExecutionError.t) : Prop :=
  if call_address_bad options (call_function c)
  then e = Elf32InitExecutionError.InvalidFunctionAddress /\ m' = m
  else exists r,
    execute jit_new jit_step m (init_request options (call_function c)) = (r, m') /\
    ((e = Elf32InitExecutionError.MemoryFault /\ er_memory_fault r = true) \/
     (e = Elf32InitExecutionError.CpuException /\ er_memory_fault r = false /\
      er_exception_raised r = true) \/
     (e = Elf32InitExecutionError.InstructionLimitExceeded /\
      er_instructions_executed r = max_instructions_per_call options /\
      reg (er_regs r) 15 <> return_pc options)).

Lemma returned_app m1 cs1 m2 cs2 m3 :
  returned m1 cs1 m2 -> returned m2 cs2 m3 -> returned m1 (cs1 ++ cs2) m3.
Proof. induction 1; [done|]. intros. cbn. econstructor; eauto. Qed.

(** One call that returned, as the loop sees it. *)
Lemma execute_call_stop m c r m1 :
  is_u64 (max_instructions_per_call options) ->
  execute jit_new jit_step m (init_request options (call_function c)) = (r, m1) ->
  er_memory_fault r = false -> er_exception_raised r = false ->
  if er_stop_pc_reached r then reg (er_regs r) 15 = return_pc options
  else er_instructions_executed r = max_instructions_per_call options /\
       reg (er_regs r) 15 <> return_pc options.
Proof.
  intros Hc Hx Hf He.
  pose proof (execute_bounded_lemma jit_new jit_step m (init_request options (call_function c)) Hc)
    as Hb. rewrite Hx in Hb. cbn in Hb. destruct Hb as (_ & Hwhy & Hreach & _).
  destruct (er_stop_pc_reached r).
  - destruct Hreach as [Hr _]. destruct (Hr eq_refl) as (_ & _ & Hpc). congruence.
  - split; [destruct Hwhy as [?|[?|[?|?]]]; congruence|].
    intros Hpc. destruct Hreach as [_ Hr]. rewrite Hpc in Hr. by specialize (Hr (conj He (conj Hf eq_refl))).
Qed.

Lemma run_init_calls_spec m cs index done_ :
  is_u64 (max_instructions_per_call options) ->
  0 <= index -> index + Z.of_nat (length cs) < 2 ^ 64 -> done_ = index ->
  match run_init_calls m index done_ cs with
  | (r, m') =>
      (ix_error r = Elf32InitExecutionError.None /\ returned m cs m' /\
       r = execution_success (index + Z.of_nat (length cs))) \/
      (exists pre c suf m1, cs = pre ++ c :: suf /\ returned m pre m1 /\
         call_fails m1 c m' (ix_error r) /\ ix_error r <> Elf32InitExecutionError.None /\
         ix_calls_completed r = index + Z.of_nat (length pre) /\
         ix_failing_call r = Some (index + Z.of_nat (length pre)) /\
         ix_failing_object r = Some (call_object_index c))
  end.
Proof.
  intros Hmax. revert m index done_; induction cs as [|c cs IH]; intros m index done_ Hi Hb ->.
  { left. cbn. rewrite Z.add_0_r. repeat constructor. }
  cbn [run_init_calls].
  destruct (call_address_bad options (call_function c)) eqn:Eb.
  { right. exists [], c, cs, m. cbn. rewrite Z.add_0_r. unfold call_fails. rewrite Eb.
    split_and!; done || constructor. }
  destruct (execute _ _ _ _) as [r m1] eqn:Ex.
  destruct (er_memory_fault r) eqn:Ef.
  { right. exists [], c, cs, m. cbn. rewrite Z.add_0_r. unfold call_fails. rewrite Eb.
    split_and!; try done; [constructor|]. exists r. auto 8. }
  destruct (er_exception_raised r) eqn:Ee.
  { right. exists [], c, cs, m. cbn. rewrite Z.add_0_r. unfold call_fails. rewrite Eb.
    split_and!; try done; [constructor|]. exists r. auto 8. }
  pose proof (execute_call_stop m c r m1 Hmax Ex Ef Ee) as Hstop.
  destruct (er_stop_pc_reached r) eqn:Er; cbn [negb].
  - cbn [length] in Hb. rewrite !u64_small by word_lia.
    specialize (IH m1 (index + 1) (index + 1) ltac:(lia) ltac:(lia) eq_refl).
    destruct (run_init_calls m1 _ _ cs) as [r' m']. cbn [length].
    destruct IH as [(He0 & Hret & Hr)|(pre & c' & suf & m2 & -> & Hret & Hcf & Hne & H1 & H2 & H3)].
    + left. split; [done|]. split; [by econstructor|]. rewrite Hr. f_equal. lia.
    + right. exists (c :: pre), c', suf, m2. cbn [length app].
      rewrite H1, H2. split_and!; try done; [by econstructor|lia|f_equal; lia].
  - right. exists [], c, cs, m. cbn. rewrite Z.add_0_r. unfold call_fails. rewrite Eb.
    split_and!; try done; [constructor|]. exists r. auto 8.
Qed.

(** C36: executing a constructor plan runs the calls strictly in order and stops
    at the first one that does not return: on success every call was entered at
    an admissible address and returned to [return_pc] within its instruction
    ceiling; on failure [failing_call] is the number of completed calls,
    [failing_object] the object of the first call that did not return, the error
    names the reason (memory faults take precedence over exceptions), and guest
    memory is what the completed calls and the failing one left. With invalid
    options nothing is executed. *)
Theorem execute_elf32_init_calls_spec (m : M) cs :
  is_u64 (max_instructions_per_call options) -> Z.of_nat (length cs) < 2 ^ 64 ->
  match execute_elf32_init_calls m cs with
  | (r, m') =>
      (init_options_bad options = true /\ ix_error r = Elf32InitExecutionError.InvalidOptions /\
       ix_calls_completed r = 0 /\ m' = m) \/
      (init_options_bad options = false /\
       r = execution_success (Z.of_nat (length cs)) /\ returned m cs m') \/
      (init_options_bad options = false /\
       exists pre c suf m1, cs = pre ++ c :: suf /\ returned m pre m1 /\
         call_fails m1 c m' (ix_error r) /\ ix_error r <> Elf32InitExecutionError.None /\
         ix_calls_completed r = Z.of_nat (length pre) /\
         ix_failing_call r = Some (Z.of_nat (length pre)) /\
         ix_failing_object r = Some (call_object_index c))
  end.
Proof.
  intros Hmax Hlen. unfold execute_elf32_init_calls.
  destruct (init_options_bad options) eqn:Eo; [by left|].
  pose proof (run_init_calls_spec m cs 0 0 Hmax ltac:(lia) Hlen eq_refl) as Hs.
  destruct (run_init_calls m 0 0 cs) as [r m'].
  destruct Hs as [(_ & Hret & Hr)|Hs]; [by auto|]. right; right. by split.
Qed.
End execution.

(** ** Decoding is the inverse of the array encoding *)
Definition encode_words (es : list Z) : list Z := concat (encode_u32_le <$> es).

Section decode_correct.
Context {M : Type} `{GuestMemorySpec M}.

Lemma read_word_iff (m : M) a w :
  gm_ok m -> is_u32 a ->
  (gm_read m a 4 = Some (encode_u32_le w) /\ is_u32 w) <->
  exists bytes, gm_read m a 4 = Some bytes /\ decode_u32_le bytes 0 = w.
Proof.
  intros Hm Ha. assert (Hs : 0 < 4 <= span_max) by (unfold span_max; lia). split.
  - intros [Hr Hw]. eexists. split; [done|]. by apply decode_encode_u32.
  - intros (bytes & Hr & <-).
    pose proof (gm_read_bytes m a 4 bytes Hm Ha Hs Hr) as Hb.
    rewrite encode_decode_u32; [|done|by apply (gm_read_length m a 4)].
    split; [done|]. by apply decode_u32_le_range.
Qed.

(** A read of [n] words is [n] reads of a word. *)
Lemma read_words (m : M) a es :
  gm_ok m -> 0 <= a -> a + 4 * Z.of_nat (length es) <= 2 ^ 32 -> es <> [] ->
  gm_read m a (4 * Z.of_nat (length es)) = Some (encode_words es) <->
  forall i e, es !! i = Some e -> gm_read m (a + 4 * Z.of_nat i) 4 = Some (encode_u32_le e).
Proof.
  intros Hm. revert a; induction es as [|e es IH]; intros a Ha Hle Hne; [done|].
  unfold encode_words. cbn [fmap list_fmap concat length] in *.
  destruct (decide (es = [])) as [->|Hes].
  { change (concat (encode_u32_le <$> [])) with (@nil Z). rewrite app_nil_r. change (4 * Z.of_nat (S (length (@nil Z)))) with 4. split.
    - intros Hr [|i] e' He; [|done]. injection He as <-. by rewrite Z.add_0_r.
    - intros Hall. specialize (Hall O e eq_refl). by rewrite Z.add_0_r in Hall. }
  assert (Hpos : (0 < length es)%nat) by (destruct es; [done|cbn; lia]).
  replace (4 * Z.of_nat (S (length es))) with (4 + 4 * Z.of_nat (length es)) by lia.
  rewrite gm_read_app by (done || (unfold span_max; word_lia)).
  specialize (IH (a + 4) ltac:(lia) ltac:(lia) Hes). fold (encode_words es). split.
  - destruct (gm_read m a 4) as [b1|] eqn:E1; [|done].
    destruct (gm_read m (a + 4) _) as [b2|] eqn:E2; [|done]. cbn [mbind option_bind]. intros Heq. injection Heq as Heq.
    change (b1 ++ b2 = encode_u32_le e ++ encode_words es) in Heq.
    apply app_inj_1 in Heq as [-> ->]; [|rewrite (gm_read_length m a 4) by (done || (unfold span_max; word_lia)); done].
    intros [|i] e' He.
    + injection He as <-. by rewrite Z.add_0_r.
    + replace (a + 4 * Z.of_nat (S i)) with (a + 4 + 4 * Z.of_nat i) by lia.
      by apply IH.
  - intros Hall. pose proof (Hall O e eq_refl) as H0'. rewrite Z.add_0_r in H0'. rewrite H0'. cbn.
    rewrite (proj2 IH); [done|]. intros i e' He.
    replace (a + 4 + 4 * Z.of_nat i) with (a + 4 * Z.of_nat (S i)) by lia. by apply Hall.
Qed.

Lemma decode_function_entry_ok (m : M) ga i w :
  gm_ok m -> is_u32 ga -> 0 <= i -> ga + 4 * i < 2 ^ 32 ->
  decode_function_entry m ga i = Ok w <->
  gm_read m (ga + 4 * i) 4 = Some (encode_u32_le w) /\ is_u32 w.
Proof.
  intros Hm Hga Hi Hle. unfold decode_function_entry, kEntrySize.
  rewrite (u64_small (i * 4)), u64_small by word_lia.
  rewrite (proj2 (Z.ltb_ge _ _)), u32_small by word_lia. cbn [fail_if].
  replace (ga + i * 4) with (ga + 4 * i) by lia.
  rewrite (read_word_iff m (ga + 4 * i)) by (done || word_lia). cbn.
  destruct (gm_read m (ga + 4 * i) 4); cbn; naive_solver.
Qed.

Definition array_typed (a : Elf32FunctionArrayMetadata) : Prop :=
  is_u32 (fa_guest_address a) /\ is_u32 (fa_size a).

Lemma decode_entries_ok (m : M) ga n es :
  gm_ok m -> is_u32 ga -> 0 <= n -> ga + 4 * n <= 2 ^ 32 ->
  mapE (decode_function_entry m ga) (seqZ 0 n) = Ok es <->
  Z.of_nat (length es) = n /\ Forall is_u32 es /\
  (es = [] \/ gm_read m ga (4 * n) = Some (encode_words es)).
Proof.
  intros Hm Hga Hn Hle. rewrite mapE_Forall2, Forall2_same_length_lookup, length_seqZ. split.
  - intros [Hlen Hall]. assert (Hl : Z.of_nat (length es) = n) by lia.
    assert (Hp : forall i e, es !! i = Some e ->
              gm_read m (ga + 4 * Z.of_nat i) 4 = Some (encode_u32_le e) /\ is_u32 e).
    { intros i e He. assert (Hi : (i < length es)%nat) by by eapply lookup_lt_Some.
      apply decode_function_entry_ok; [done|done|lia|lia|].
      apply (Hall i); [|done]. rewrite lookup_seqZ_lt by lia. done. }
    split; [done|]. split; [apply Forall_lookup; intros i e He; by apply (Hp i e He)|].
    destruct (decide (es = [])) as [|Hne]; [by left|right]. rewrite <- Hl.
    apply read_words; [done|word_lia|lia|done|]. intros i e He. by apply Hp.
  - intros (Hl & Hty & Hr). split; [lia|]. intros i x e Hx He.
    apply lookup_seqZ in Hx as [-> Hi]. rewrite Z.add_0_l.
    apply decode_function_entry_ok; [done|done|lia|lia|].
    split; [|by eapply (Forall_lookup_1 _ _ _ _ Hty)].
    destruct Hr as [->|Hr]; [done|]. rewrite <- Hl in Hr.
    apply (proj1 (read_words m ga es Hm ltac:(word_lia) ltac:(lia) ltac:(by destruct es))); done.
Qed.

(** [decode_elf32_function_array] is the inverse of the little-endian array
    encoding: it returns [es] exactly when the byte size is a multiple of four
    within the caller's entry ceiling, the array fits the 32-bit address space,
    and the guest bytes of the array are the encoding of the words [es]. *)
Theorem decode_elf32_function_array_roundtrip (m : M) a max es :
  gm_ok m -> array_typed a ->
  decode_elf32_function_array m a max = Ok es <->
  (fa_size a mod 4 = 0 /\ fa_size a / 4 <= max /\
   fa_guest_address a + fa_size a <= kGuestAddressSpaceSize /\
   4 * Z.of_nat (length es) = fa_size a /\ Forall is_u32 es /\
   (es = [] \/ gm_read m (fa_guest_address a) (fa_size a) = Some (encode_words es))).
Proof.
  intros Hm [Ha Hs]. unfold decode_elf32_function_array, kEntrySize.
  assert (Hdiv : fa_size a mod 4 = 0 -> 4 * (fa_size a / 4) = fa_size a) by mod_lia.
  rewrite (u64_small (_ + _)) by word_lia. split.
  - intros Hd. apply bind_ok in Hd as ([] & G1%fail_if_ok & Hd).
    apply bind_ok in Hd as ([] & G2%fail_if_ok & Hd).
    apply bind_ok in Hd as ([] & G3%fail_if_ok & Hd). bool_prop. specialize (Hdiv G1).
    apply decode_entries_ok in Hd as (Hl & Hty & Hr); [|done|done|mod_lia|word_lia].
    rewrite Hdiv in Hr. split_and!; try done. lia.
  - intros (G1 & G2 & G3 & Hl & Hty & Hr). rewrite G1. cbn [negb Z.eqb fail_if].
    rewrite (proj2 (Z.ltb_ge _ _) G2), (proj2 (Z.ltb_ge _ _) G3). cbn. specialize (Hdiv G1).
    apply decode_entries_ok; [done|done|mod_lia|word_lia|]. rewrite Hdiv. split; [lia|done].
Qed.
End decode_correct.

(** ** The plan is a dependency-first order *)
Section plan_correct.
Context {M : Type} `{GuestMemory M}.
Context (memory : M) (graph : Elf32DependencyGraph) (options : Elf32InitPlanOptions).
Hypothesis (Hmaxo : is_u32 (ip_max_objects options)) (Hmaxe : is_u32 (ip_max_entries options)).

(** The raw entries and the constructor calls object [i] contributes. *)
Definition object_entries (i : nat) : list Z :=
  match objects graph !! i with
  | Some o =>
      match lm_init_array (linker_metadata o) with
      | Some array =>
          match decode_elf32_function_array memory array UINT32_MAX with
          | Ok es => es | Err _ => []
          end
      | None => []
      end
  | None => []
  end.

Definition object_calls (i : nat) : list Elf32InitCall := init_calls_from i 0 (object_entries i).

Definition entry_total (order : list nat) : Z :=
  foldr (fun i n => Z.of_nat (length (object_entries i)) + n) 0 order.

Lemma entry_total_app l1 l2 : entry_total (l1 ++ l2) = entry_total l1 + entry_total l2.
Proof. unfold entry_total. induction l1 as [|i l1 IH]; cbn; [done|]. rewrite IH. lia. Qed.

Record ctx_ok (ctx : InitPlanContext) : Prop := {
  co_length : length (states ctx) = length (objects graph);
  co_visited : 0 <= visited_objects ctx <= ip_max_objects options;
  co_decoded : 0 <= decoded_entries ctx <= ip_max_entries options;
}.

(** What a stretch of the traversal did: [post] lists the objects it completed,
    in completion order. *)
Record visit_post (ctx ctx' : InitPlanContext) (post : list nat) : Prop := {
  vp_states j : states ctx' !! j = if decide (j ∈ post) then Some Complete else states ctx !! j;
  vp_fresh j : j ∈ post -> states ctx !! j = Some Unseen;
  vp_nodup : NoDup post;
  vp_calls : calls ctx' = calls ctx ++ concat (object_calls <$> post);
  vp_visited : visited_objects ctx' = visited_objects ctx + Z.of_nat (length post);
  vp_decoded : decoded_entries ctx' = decoded_entries ctx + entry_total post;
  vp_order pre j suf k :
    post = pre ++ j :: suf -> depends_on graph j k ->
    k ∈ pre \/ states ctx !! k = Some Complete \/
    (reaches graph k j /\ (states ctx !! k = Some Visiting \/ k ∈ post));
}.

Definition settled (ctx : InitPlanContext) (i : nat) : Prop :=
  states ctx !! i = Some Complete \/ states ctx !! i = Some Visiting.

Lemma visit_post_refl ctx : visit_post ctx ctx [].
Proof.
  split; cbn; try done; try set_solver; try lia.
  - constructor.
  - by rewrite app_nil_r.
  - intros pre j suf k Heq. by destruct pre.
Qed.

Lemma visit_post_settled ctx ctx' post i : visit_post ctx ctx' post -> settled ctx i -> settled ctx' i.
Proof.
  intros Hp Hs. unfold settled in *. rewrite (vp_states _ _ _ Hp). case_decide; [by left|done].
Qed.

(** Splitting a decomposition of an append. *)
Lemma app_cons_split {A} (l1 l2 pre suf : list A) x :
  l1 ++ l2 = pre ++ x :: suf ->
  (exists suf1, l1 = pre ++ x :: suf1 /\ suf = suf1 ++ l2) \/
  (exists pre2, pre = l1 ++ pre2 /\ l2 = pre2 ++ x :: suf).
Proof.
  intros Heq. apply app_eq_inv in Heq as [(k & -> & Heq)|(k & -> & Heq)].
  - destruct k as [|y k].
    + right. exists []. rewrite !app_nil_r. by split.
    + cbn in Heq. injection Heq as <- ->. left. exists k. done.
  - right. by exists k.
Qed.

Lemma visit_post_trans ctx ctx1 ctx2 p1 p2 :
  visit_post ctx ctx1 p1 -> visit_post ctx1 ctx2 p2 -> visit_post ctx ctx2 (p1 ++ p2).
Proof.
  intros H1 H2. assert (Hdisj : forall j, j ∈ p2 -> j ∉ p1).
  { intros j Hj Hj1. pose proof (vp_fresh _ _ _ H2 j Hj) as Hf. rewrite (vp_states _ _ _ H1) in Hf.
    by rewrite decide_True in Hf. }
  split.
  - intros j. rewrite (vp_states _ _ _ H2), (vp_states _ _ _ H1). repeat case_decide; set_solver.
  - intros j Hj. apply elem_of_app in Hj as [Hj|Hj]; [by apply (vp_fresh _ _ _ H1)|].
    pose proof (vp_fresh _ _ _ H2 j Hj) as Hf. rewrite (vp_states _ _ _ H1) in Hf.
    rewrite decide_False in Hf; [done|by apply Hdisj].
  - apply NoDup_app. split_and!; [apply H1| |apply H2]. intros j Hj Hj2. by apply (Hdisj j).
  - rewrite (vp_calls _ _ _ H2), (vp_calls _ _ _ H1), fmap_app, concat_app. by rewrite app_assoc.
  - rewrite (vp_visited _ _ _ H2), (vp_visited _ _ _ H1), length_app. lia.
  - rewrite (vp_decoded _ _ _ H2), (vp_decoded _ _ _ H1), entry_total_app. lia.
  - intros pre j suf k Heq Hd. apply app_cons_split in Heq as [(s1 & Hp1 & ->)|(pre2 & -> & Hp2)].
    + destruct (vp_order _ _ _ H1 pre j s1 k Hp1 Hd) as [?|[?|[? [?|?]]]]; set_solver.
    + destruct (vp_order _ _ _ H2 pre2 j suf k Hp2 Hd) as [?|[Hc|[Hr Hv]]]; [set_solver|..].
      * rewrite (vp_states _ _ _ H1) in Hc. case_decide; [left; set_solver|by right; left].
      * destruct Hv as [Hv|Hv]; [|right; right; set_solver].
        rewrite (vp_states _ _ _ H1) in Hv. case_decide; [done|]. right; right. auto.
Qed.

(** The contract of [visit] the edge loop relies on. *)
Definition visit_contract (v : InitPlanContext -> nat -> result visit_error InitPlanContext) : Prop :=
  forall ctx i ctx', ctx_ok ctx -> (forall k, states ctx !! k = Some Visiting -> reaches graph k i) ->
    v ctx i = Ok ctx' ->
    ctx_ok ctx' /\ settled ctx' i /\
    exists post, visit_post ctx ctx' post /\ (forall j, j ∈ post -> reaches graph i j) /\
      (states ctx !! i = Some Unseen -> exists pre, post = pre ++ [i]).

Lemma visit_edges v bad (e : visit_error) edges ctx ctx' :
  visit_contract v -> ctx_ok ctx ->
  (forall k t, states ctx !! k = Some Visiting -> t ∈ target_object <$> edges -> reaches graph k t) ->
  foldE (fun ctx edge => if bad edge : bool then Err e else v ctx (target_object edge)) ctx edges = Ok ctx' ->
  ctx_ok ctx' /\ (forall t, t ∈ target_object <$> edges -> settled ctx' t) /\
  exists post, visit_post ctx ctx' post /\
    forall j, j ∈ post -> exists t, t ∈ target_object <$> edges /\ reaches graph t j.
Proof.
  intros Hv. revert ctx; induction edges as [|ed edges IH]; intros ctx Hok Hstack Hf; cbn in Hf.
  { injection Hf as <-. split; [done|]. split; [set_solver|].
    exists []. split; [apply visit_post_refl|set_solver]. }
  destruct (bad ed); [done|]. apply bind_ok in Hf as (ctx1 & Hc1 & Hf).
  apply Hv in Hc1 as (Hok1 & Hset1 & p1 & Hp1 & Hr1 & _); [|done|intros k Hk; apply Hstack; [done|set_solver]].
  apply IH in Hf as (Hok2 & Hset2 & p2 & Hp2 & Hr2); [|done|].
  - split; [done|]. split.
    { intros t Ht. cbn in Ht. apply elem_of_cons in Ht as [->|Ht]; [|by apply Hset2].
      by apply (visit_post_settled _ _ _ _ Hp2). }
    exists (p1 ++ p2). split; [by eapply visit_post_trans|].
    intros j Hj. apply elem_of_app in Hj as [Hj|Hj].
    + exists (target_object ed). split; [set_solver|by apply Hr1].
    + destruct (Hr2 j Hj) as (t & Ht & ?). exists t. split; [set_solver|done].
  - intros k t Hk Ht. rewrite (vp_states _ _ _ Hp1) in Hk. case_decide; [done|].
    apply Hstack; [done|set_solver].
Qed.

(** The ceiling does not change what a successful decode returns. *)
Lemma decode_ceiling array max es :
  is_u32 max -> decode_elf32_function_array memory array max = Ok es ->
  decode_elf32_function_array memory array UINT32_MAX = Ok es /\ Z.of_nat (length es) <= max.
Proof.
  intros Hmax Hd. unfold decode_elf32_function_array in *.
  apply bind_ok in Hd as ([] & G1 & Hd). rewrite G1.
  apply bind_ok in Hd as ([] & G2%fail_if_ok & Hd). bool_prop.
  rewrite (proj2 (Z.ltb_ge UINT32_MAX _)) by word_lia. cbn in *. split; [done|].
  apply bind_ok in Hd as ([] & _ & Hd). apply mapE_Forall2, Forall2_length in Hd.
  rewrite length_seqZ in Hd. word_lia.
Qed.

Lemma append_init_calls_ok ctx i o ctx' :
  ctx_ok ctx -> objects graph !! i = Some o -> append_init_calls memory options ctx i o = Ok ctx' ->
  states ctx' = states ctx /\ visited_objects ctx' = visited_objects ctx /\
  calls ctx' = calls ctx ++ object_calls i /\
  decoded_entries ctx' = decoded_entries ctx + Z.of_nat (length (object_entries i)) /\ ctx_ok ctx'.
Proof.
  intros [Hl Hv Hd] Ho Ha. unfold append_init_calls in Ha. unfold object_calls, object_entries.
  rewrite Ho. destruct (lm_init_array (linker_metadata o)) as [array|]; cycle 1.
  { injection Ha as <-. cbn. rewrite app_nil_r, Z.add_0_r. done. }
  rewrite u32_small in Ha by word_lia.
  destruct (decode_elf32_function_array memory array _) as [es|] eqn:Ed; [|done].
  apply decode_ceiling in Ed as [-> Hle]; [|word_lia].
  injection Ha as <-. cbn. rewrite (u32_small (Z.of_nat _)), u32_small by word_lia.
  split_and!; try done. by split; cbn; [|..|lia].
Qed.

(** Entering [i], traversing its edges and completing it. *)
Lemma visit_post_complete ctx i o ctx1 ctx2 post :
  ctx_ok ctx -> states ctx !! i = Some Unseen -> objects graph !! i = Some o ->
  visited_objects ctx < ip_max_objects options ->
  (forall k, states ctx !! k = Some Visiting -> reaches graph k i) ->
  visit_post (enter_object ctx i) ctx1 post ->
  (forall j, j ∈ post -> reaches graph i j) ->
  (forall t, t ∈ targets o -> settled ctx1 t) ->
  ctx_ok ctx1 -> append_init_calls memory options ctx1 i o = Ok ctx2 ->
  visit_post ctx (set_state ctx2 i Complete) (post ++ [i]).
Proof.
  intros [Hl Hv Hd] Hi Ho Hlt Hstack Hp Hreach Hset Hok1 Ha.
  apply append_init_calls_ok in Ha as (Hs2 & Hv2 & Hc2 & Hd2 & _); [|done..].
  assert (Hil : (i < length (states ctx))%nat) by by eapply lookup_lt_Some.
  assert (Hent : forall j, states (enter_object ctx i) !! j =
            if decide (j = i) then Some Visiting else states ctx !! j).
  { intros j. cbn. case_decide as Hj; [subst; by rewrite list_lookup_insert_eq|by rewrite list_lookup_insert_ne]. }
  assert (Hip : i ∉ post).
  { intros Hin. pose proof (vp_fresh _ _ _ Hp i Hin) as Hf. by rewrite Hent, decide_True in Hf. }
  assert (Hs1 : forall j, states ctx1 !! j =
            if decide (j ∈ post) then Some Complete else
            if decide (j = i) then Some Visiting else states ctx !! j).
  { intros j. by rewrite (vp_states _ _ _ Hp), Hent. }
  split.
  - intros j. cbn. rewrite Hs2. destruct (decide (j = i)) as [->|Hne].
    + rewrite list_lookup_insert_eq by (by rewrite (co_length _ Hok1), <- Hl).
      rewrite decide_True by set_solver. done.
    + rewrite list_lookup_insert_ne by done. rewrite Hs1.
      repeat case_decide; set_solver.
  - intros j Hj. apply elem_of_app in Hj as [Hj|Hj]; [|set_solver].
    pose proof (vp_fresh _ _ _ Hp j Hj) as Hf. rewrite Hent in Hf. by case_decide.
  - apply NoDup_app. split; [apply Hp|]. split; [set_solver|]. apply NoDup_singleton.
  - cbn. rewrite Hc2, (vp_calls _ _ _ Hp), fmap_app, concat_app. cbn.
    by rewrite app_nil_r, <- app_assoc.
  - cbn. rewrite Hv2, (vp_visited _ _ _ Hp), length_app. cbn. rewrite u32_small by word_lia. lia.
  - cbn. rewrite Hd2, (vp_decoded _ _ _ Hp), entry_total_app. cbn. lia.
  - intros pre j suf k Heq Hdep. apply app_cons_split in Heq as [(s1 & Hp1 & ->)|(pre2 & -> & Hp2)].
    + assert (Hjp : j ∈ post) by set_solver.
      destruct (vp_order _ _ _ Hp pre j s1 k Hp1 Hdep) as [?|[Hc|[Hr Hvk]]]; [by left|..].
      * rewrite Hent in Hc. case_decide; [done|by right; left].
      * destruct Hvk as [Hvk|Hvk]; [|right; right; set_solver]. rewrite Hent in Hvk.
        case_decide; [subst k; right; right; set_solver|by right; right; auto].
    + destruct pre2 as [|? [|]]; [|done..]. injection Hp2 as <- <-. rewrite app_nil_r.
      destruct Hdep as (o' & Ho' & Hk). replace o' with o in Hk by congruence.
      destruct (Hset k Hk) as [Hc|Hc]; rewrite Hs1 in Hc; repeat case_decide; try done.
      * by left.
      * by right; left.
      * subst k. right; right. split; [apply rtc_refl|set_solver].
      * right; right. split; [by apply Hstack|by left].
Qed.

Lemma visit_ok fuel : visit_contract (visit memory graph options fuel).
Proof.
  induction fuel as [|fuel IH]; intros ctx i ctx' Hok Hstack Hv; [done|]. cbn in Hv.
  destruct (states ctx !! i) as [[]|] eqn:Es; [| | |by destruct (objects graph !! i)].
  2: { injection Hv as <-. split; [done|]. split; [by right|]. exists [].
       split; [apply visit_post_refl|]. split; [set_solver|done]. }
  2: { injection Hv as <-. split; [done|]. split; [by left|]. exists [].
       split; [apply visit_post_refl|]. split; [set_solver|done]. }
  destruct (objects graph !! i) as [o|] eqn:Eo; [|done].
  destruct (ip_max_objects options <=? visited_objects ctx) eqn:Em; [done|]. bool_prop.
  apply bind_ok in Hv as (ctx1 & Hf & Hv). apply bind_ok in Hv as (ctx2 & Ha & [= <-]).
  assert (Hoke : ctx_ok (enter_object ctx i)).
  { destruct Hok as [Hl Hvo Hd]. split; cbn; [by rewrite length_insert| |done].
    rewrite u32_small by word_lia. lia. }
  apply (visit_edges _ _ _ _ _ _ IH Hoke) in Hf as (Hok1 & Hset & post & Hp & Hr); cycle 1.
  { intros k t Hk Ht. assert (Hdt : depends_on graph i t) by by exists o.
    cbn in Hk. destruct (decide (k = i)) as [->|Hne]; [by apply rtc_once|].
    rewrite list_lookup_insert_ne in Hk by done. eapply rtc_r; [by apply Hstack|done]. }
  assert (Hreach : forall j, j ∈ post -> reaches graph i j).
  { intros j Hj. destruct (Hr j Hj) as (t & Ht & Htj). eapply reaches_step; [|exact Htj]. by exists o. }
  pose proof (visit_post_complete ctx i o ctx1 ctx2 post Hok Es Eo Em Hstack Hp Hreach Hset Hok1 Ha)
    as Hpost.
  apply append_init_calls_ok in Ha as (Hs2 & _ & _ & _ & [Hl2 Hv2 Hd2]); [|done..].
  split; [split; cbn; [by rewrite length_insert|done..]|].
  split.
  { left. rewrite (vp_states _ _ _ Hpost). rewrite decide_True by set_solver. done. }
  exists (post ++ [i]). split; [done|]. split; [|by eauto].
  intros j Hj. apply elem_of_app in Hj as [Hj|Hj]; [by apply Hreach|].
  apply list_elem_of_singleton in Hj as ->. apply rtc_refl.
Qed.

(** ** Termination and errors *)
Definition unseen_count (ctx : InitPlanContext) : nat :=
  length (filter (fun s => s = Unseen) (states ctx)).

(** What a reported failure means. *)
Definition failure_explained (i : nat) (f : plan_failure) : Prop :=
  exists o, pf_failing_object f = Some o /\ reaches graph i o /\
  match pf_error f with
  | Elf32InitPlanError.InvalidGraphEdge =>
      exists j, depends_on graph o j /\ (length (objects graph) <= j)%nat
  | Elf32InitPlanError.ObjectLimitExceeded => True
  | Elf32InitPlanError.EntryLimitExceeded | Elf32InitPlanError.DecodeFailed =>
      (pf_error f = Elf32InitPlanError.EntryLimitExceeded <->
       pf_decode_error f = Elf32FunctionArrayDecodeError.TooManyEntries) /\
      exists obj array r, objects graph !! o = Some obj /\
        lm_init_array (linker_metadata obj) = Some array /\
        decode_elf32_function_array memory array r = Err (pf_decode_error f)
  | _ => False
  end.

Lemma failure_explained_step i j f :
  depends_on graph i j -> failure_explained j f -> failure_explained i f.
Proof.
  intros Hd (o & H1 & H2 & H3). exists o. split; [done|]. split; [by eapply reaches_step|done].
Qed.

Lemma filter_insert_le (l : list InitVisitState) i s :
  s <> Unseen -> (length (filter (fun s => s = Unseen) (<[i := s]> l)) <=
                  length (filter (fun s => s = Unseen) l))%nat.
Proof.
  intros Hs. revert i; induction l as [|x l IH]; intros [|i]; try done; cbn [insert list_insert].
  - rewrite !filter_cons. rewrite (decide_False (P := s = Unseen)) by done. case_decide; cbn; lia.
  - rewrite !filter_cons. specialize (IH i). case_decide; cbn [length]; [apply le_n_S|]; exact IH.
Qed.

Lemma filter_insert_lt (l : list InitVisitState) i s :
  s <> Unseen -> l !! i = Some Unseen ->
  (length (filter (fun s => s = Unseen) (<[i := s]> l)) <
   length (filter (fun s => s = Unseen) l))%nat.
Proof.
  intros Hs. revert i; induction l as [|x l IH]; intros [|i] Hi; try done; cbn [insert list_insert].
  - injection Hi as ->. rewrite !filter_cons. rewrite decide_False by done.
    rewrite decide_True by done. cbn. lia.
  - rewrite !filter_cons. specialize (IH i Hi). case_decide; cbn [length]; [apply le_n_S|]; exact IH.
Qed.

Definition total_at (ctx : InitPlanContext) (i : nat)
    (r : result visit_error InitPlanContext) : Prop :=
  match r with
  | Ok ctx' => length (states ctx') = length (objects graph) /\ (unseen_count ctx' <= unseen_count ctx)%nat
  | Err Stuck => False
  | Err (Failure f) => failure_explained i f
  end.

Lemma edges_total fuel i o edges ctx :
  (forall ctx t, length (states ctx) = length (objects graph) -> (t < length (objects graph))%nat ->
     (unseen_count ctx < fuel)%nat -> total_at ctx t (visit memory graph options fuel ctx t)) ->
  objects graph !! i = Some o -> edges ⊆ dependencies o ->
  length (states ctx) = length (objects graph) -> (unseen_count ctx < fuel)%nat ->
  total_at ctx i
    (foldE (fun ctx edge =>
       if Z.of_nat (length (objects graph)) <=? Z.of_nat (target_object edge)
       then Err (fail_with Elf32InitPlanError.InvalidGraphEdge (Some i) Elf32FunctionArrayDecodeError.None)
       else visit memory graph options fuel ctx (target_object edge)) ctx edges).
Proof.
  intros Hv Ho. revert ctx; induction edges as [|e edges IH]; intros ctx Hsub Hl Hc; cbn [foldE].
  { by split. }
  assert (Hdep : depends_on graph i (target_object e)) by (eapply depends_on_intro; [done|set_solver]).
  destruct (_ <=? _) eqn:El; bool_prop; cbn.
  { exists i. split; [done|]. split; [apply rtc_refl|]. cbn. exists (target_object e). split; [done|lia]. }
  specialize (Hv ctx (target_object e) Hl ltac:(lia) Hc).
  destruct (visit memory graph options fuel ctx (target_object e)) as [ctx1|[|f]]; cbn in *.
  - destruct Hv as [Hl1 Hc1]. specialize (IH ctx1 ltac:(set_solver) Hl1 ltac:(lia)).
    destruct (foldE _ ctx1 edges) as [ctx2|[|f]]; cbn in *; [|done..].
    destruct IH. split; [done|lia].
  - done.
  - by eapply failure_explained_step.
Qed.

Lemma visit_total fuel ctx i :
  length (states ctx) = length (objects graph) -> (i < length (objects graph))%nat ->
  (unseen_count ctx < fuel)%nat -> total_at ctx i (visit memory graph options fuel ctx i).
Proof.
  revert ctx i; induction fuel as [|fuel IH]; intros ctx i Hl Hi Hc; [lia|]. cbn [visit].
  destruct (lookup_lt_is_Some_2 (states ctx) i) as [s Es]; [lia|]. rewrite Es.
  destruct (lookup_lt_is_Some_2 (objects graph) i Hi) as [o Eo]. rewrite Eo.
  destruct s; [|by split..].
  destruct (_ <=? _) eqn:Em.
  { exists i. split; [done|]. split; [apply rtc_refl|done]. }
  pose proof (filter_insert_lt (states ctx) i Visiting ltac:(done) Es) as Hlt.
  pose proof (edges_total fuel i o (dependencies o) (enter_object ctx i)) as He.
  specialize (He (fun ctx t => IH ctx t) Eo ltac:(done) ltac:(cbn; by rewrite length_insert)).
  unfold unseen_count in He at 1. cbn [enter_object set_state states] in He.
  specialize (He ltac:(unfold unseen_count in Hc; lia)).
  destruct (foldE _ (enter_object ctx i) (dependencies o)) as [ctx1|[|f]]; cbn in He |- *; [|done..].
  destruct He as [Hl1 Hc1]. unfold append_init_calls.
  destruct (lm_init_array (linker_metadata o)) as [array|] eqn:Ea; cbn; cycle 1.
  { rewrite length_insert. split; [done|]. unfold unseen_count in *. cbn in *.
    pose proof (filter_insert_le (states ctx1) i Complete ltac:(done)). lia. }
  destruct (decode_elf32_function_array memory array _) as [es|e] eqn:Ed; cbn.
  { rewrite length_insert. split; [done|]. unfold unseen_count in *. cbn in *.
    pose proof (filter_insert_le (states ctx1) i Complete ltac:(done)). lia. }
  exists i. split; [done|]. split; [apply rtc_refl|]. cbn.
  assert (Hx : exists obj array r, objects graph !! i = Some obj /\
        lm_init_array (linker_metadata obj) = Some array /\
        decode_elf32_function_array memory array r = Err e) by eauto 8.
  by destruct e.
Qed.

(** A traversal that completes everything its edges lead to has completed the
    whole reachable set. *)
Lemma order_reachable root order ctx :
  visit_post (initial_context graph) ctx order -> root ∈ order ->
  forall i, reaches graph root i -> i ∈ order.
Proof.
  intros Hp Hroot i Hr. induction Hr as [|i j k Hij Hjk IH]; [done|]. apply IH.
  apply list_elem_of_split in Hroot as (pre & suf & Hsplit).
  assert (Hinit : forall s, states (initial_context graph) !! j = Some s -> s = Unseen).
  { intros s Hs. cbn in Hs. by apply lookup_replicate in Hs as [-> _]. }
  destruct (vp_order _ _ _ Hp pre i suf j Hsplit Hij) as [?|[Hc|[_ [Hv|?]]]].
  - subst order. set_solver.
  - by apply Hinit in Hc.
  - by apply Hinit in Hv.
  - done.
Qed.

(** What a successful plan promises: the constructor calls are those of the
    objects reachable from the root, each once, in an order in which every
    dependency precedes its requester unless the two lie on a cycle. *)
Record init_plan_ok (root : nat) (cs : list Elf32InitCall) (order : list nat) : Prop := {
  po_calls : cs = concat (object_calls <$> order);
  po_nodup : NoDup order;
  po_reachable i : i ∈ order <-> reaches graph root i;
  po_root : last order = Some root;
  po_deps_first pre i suf j :
    order = pre ++ i :: suf -> depends_on graph i j -> j ∈ pre \/ reaches graph j i;
  po_objects : Z.of_nat (length order) <= ip_max_objects options;
  po_entries : entry_total order <= ip_max_entries options;
}.

Lemma plan_calls_spec root :
  ip_max_objects options <> 0 -> (root < length (objects graph))%nat ->
  match plan_elf32_init_array_calls memory graph options root with
  | Ok cs => exists order, init_plan_ok root cs order
  | Err Stuck => False
  | Err (Failure f) => failure_explained root f
  end.
Proof.
  intros Hne Hroot. unfold plan_elf32_init_array_calls.
  rewrite (proj2 (Z.eqb_neq _ _) Hne), (proj2 (Z.leb_gt _ _)) by lia.
  cbn [fail_if mbind result_bind].
  assert (Hinit : forall j s, states (initial_context graph) !! j = Some s -> s = Unseen).
  { intros j s Hs. cbn in Hs. by apply lookup_replicate in Hs as [-> _]. }
  pose proof (visit_total (visit_fuel graph) (initial_context graph) root) as Htot.
  specialize (Htot ltac:(cbn; by rewrite length_replicate) Hroot).
  assert (Hcount : (unseen_count (initial_context graph) < visit_fuel graph)%nat).
  { unfold unseen_count, visit_fuel. cbn.
    pose proof (length_filter (fun s => s = Unseen) (replicate (length (objects graph)) Unseen)) as Hle.
    rewrite length_replicate in Hle. lia. }
  specialize (Htot Hcount).
  destruct (visit memory graph options _ _ root) as [ctx|[|f]] eqn:Ev; cbn [mbind result_bind total_at] in *; [|done..].
  apply visit_ok in Ev as (Hok & _ & order & Hp & Hr & Hlast).
  - destruct Hlast as [pre Hpre]; [cbn; by apply lookup_replicate_2|]. exists order.
    assert (Hin : root ∈ order) by (subst; set_solver).
    split; [by rewrite (vp_calls _ _ _ Hp)|apply Hp| | | | |].
    + intros i. split; [by apply Hr|]. by apply (order_reachable root order ctx).
    + rewrite Hpre. by apply last_snoc.
    + intros pre' i suf j Heq Hd.
      destruct (vp_order _ _ _ Hp pre' i suf j Heq Hd) as [?|[Hc|[? _]]]; [by left| |by right].
      by apply Hinit in Hc.
    + pose proof (vp_visited _ _ _ Hp) as Hvo. cbn in Hvo. destruct (co_visited _ Hok). lia.
    + pose proof (vp_decoded _ _ _ Hp) as Hde. cbn in Hde. destruct (co_decoded _ Hok). lia.
  - split; cbn; [by rewrite length_replicate|word_lia..].
  - intros k Hk. by apply Hinit in Hk.
Qed.

(** C15: constructor planning is total and correct: the traversal always ends
    (no fuel is exhausted, no vector is indexed out of range); a successful plan
    contains the calls of exactly the objects reachable from the root, each once,
    dependencies before their requesters except along cycles, the root last,
    within both budgets; and a failure names a reachable object together with
    the reason (an edge that leaves the graph, or an INIT_ARRAY that does not
    decode). *)
Theorem plan_elf32_init_array_calls_spec root :
  ip_max_objects options <> 0 -> (root < length (objects graph))%nat ->
  match plan_elf32_init_array_calls memory graph options root with
  | Ok cs => exists order, init_plan_ok root cs order
  | Err Stuck => False
  | Err (Failure f) => failure_explained root f
  end.
Proof. apply plan_calls_spec. Qed.
End plan_correct.

(** ** Witnesses: root 0 depends on 1 and 2, 1 depends on 2, 2 on 1 (a cycle) *)
Definition demo_metadata (array : option Elf32FunctionArrayMetadata) : Elf32LinkerMetadata :=
  {| lm_string_table := None; lm_symbol_table := None; lm_sysv_hash_table := None;
     lm_gnu_hash_table := None; lm_rel_table := None; lm_plt_rel_table := None;
     lm_init_array := array; lm_fini_array := None; lm_version_symbol_table := None;
     lm_version_definition_table := None; lm_version_requirement_table := None;
     lm_soname_offset := None; lm_needed_offsets := []; lm_flags_1 := None; lm_global := false;
     lm_symbolic := false; lm_has_symbol_versioning := false |}.

Definition demo_load : Elf32LoadResult :=
  {| lr_load_bias := 0; lr_entry := 0; lr_segments := []; lr_dynamic_segment := None;
     lr_relro_segments := [] |}.

Definition demo_object (deps : list nat) (md : Elf32LinkerMetadata) : Elf32LoadedDependencyObject :=
  {| identity := []; image := []; load := demo_load; dynamic_entries := [];
     linker_metadata := md; linker_strings := {| ls_soname := None; ls_needed := [] |};
     dependencies := (fun t => {| edge_requested_name := []; target_object := t |}) <$> deps |}.

Definition init_memory : LinearGuestMemory.t :=
  LinearGuestMemory.mk 4096 (encode_words [0x1000; 0; 0x1004; UINT32_MAX]).

Definition demo_graph : Elf32DependencyGraph :=
  {| objects :=
       [demo_object [1; 2]%nat (demo_metadata (Some {| fa_guest_address := 4096; fa_size := 8 |}));
        demo_object [2]%nat (demo_metadata None);
        demo_object [1]%nat (demo_metadata (Some {| fa_guest_address := 4104; fa_size := 8 |}))] |}.

Definition demo_plan_options : Elf32InitPlanOptions :=
  {| ip_max_objects := 3; ip_max_entries := 4 |}.

(** Object 2 runs before object 0; sentinels are dropped. *)
Lemma plan_elf32_init_array_calls_spec_witness :
  exists cs order,
    plan_elf32_init_array_calls init_memory demo_graph demo_plan_options 0 = Ok cs /\
    (call_object_index <$> cs) = [2; 0]%nat /\
    init_plan_ok init_memory demo_graph demo_plan_options 0 cs order.
Proof.
  pose proof (plan_elf32_init_array_calls_spec init_memory demo_graph demo_plan_options
    ltac:(split; vm_compute; congruence) ltac:(split; vm_compute; congruence) 0
    ltac:(vm_compute; congruence) ltac:(vm_compute; lia)) as Hs.
  remember (plan_elf32_init_array_calls init_memory demo_graph demo_plan_options 0) as r eqn:Er.
  vm_compute in Er. subst r. destruct Hs as [order Ho].
  eexists. exists order. split; [reflexivity|]. split; [reflexivity|exact Ho].
Defined.

Lemma init_memory_wf : linear_wf init_memory.
Proof.
  split; [vm_compute; congruence..|].
  repeat (apply Forall_cons; split; [apply u8_range|]). constructor.
Qed.

Lemma decode_elf32_function_array_roundtrip_witness :
  decode_elf32_function_array init_memory {| fa_guest_address := 4096; fa_size := 8 |} 4
  = Ok [0x1000; 0].
Proof.
  apply (decode_elf32_function_array_roundtrip init_memory
           {| fa_guest_address := 4096; fa_size := 8 |} 4 [0x1000; 0]).
  - exact init_memory_wf.
  - split; split; vm_compute; congruence.
  - split; [reflexivity|]. split; [vm_compute; congruence|]. split; [vm_compute; congruence|].
    split; [reflexivity|]. split.
    + repeat (apply Forall_cons; split; [split; vm_compute; congruence|]). constructor.
    + right. vm_compute. reflexivity.
Defined.

Definition demo_init_options : Elf32InitExecutionOptions :=
  {| stack_top := 0x8000; return_pc := 4108; max_instructions_per_call := 10 |}.

Definition demo_calls : list Elf32InitCall :=
  [{| call_object_index := 2; call_array_index := 0; call_function := 4096 |};
   {| call_object_index := 0; call_array_index := 0; call_function := 4100 |}].

(** Both calls return: [nop_jit] reaches the return address. *)
Lemma execute_elf32_init_calls_spec_witness :
  exists m', execute_elf32_init_calls (fun _ => tt) nop_jit demo_init_options code_memory demo_calls
             = (execution_success 2, m') /\
             returned (fun _ => tt) nop_jit demo_init_options code_memory demo_calls m'.
Proof.
  pose proof (execute_elf32_init_calls_spec (fun _ => tt) nop_jit demo_init_options code_memory
    demo_calls ltac:(split; vm_compute; congruence) ltac:(vm_compute; congruence)) as Hs.
  assert (Hr : (execute_elf32_init_calls (fun _ => tt) nop_jit demo_init_options code_memory demo_calls).1
               = execution_success 2) by (vm_compute; reflexivity).
  destruct (execute_elf32_init_calls (fun _ => tt) nop_jit demo_init_options code_memory demo_calls)
    as [r m']. cbn in Hr. subst r. exists m'. split; [reflexivity|].
  destruct Hs as [(Hb & _)|[(_ & _ & Hret)|(_ & pre & c & suf & m1 & _ & _ & _ & Hne & _)]].
  - vm_compute in Hb. discriminate Hb.
  - exact Hret.
  - exfalso. apply Hne. reflexivity.
Defined.
