(* ===== verification/SymbolVersioning.v ===== *)
(** * GNU symbol versioning ([src/src/elf/elf32_symbol_versioning.h],
      [src/src/elf/linking/elf32_symbol_versioning.cpp])

    The version a requester's symbol asks for (VERSYM, VERNEED, VERDEF) and
    whether a provider's symbol has it. Both walks over the linked version
    records are bounded by a record budget. *)

From S2P Require Import Prelude Bytes GuestMemory LinearMemory Dynamic Loader LinkerMetadata LinkerStrings Cpu Graph Lifecycle.

Record Elf32SymbolVersionOptions := {
  vo_max_records : Z;
  vo_max_name_bytes : Z;
}.

Module Elf32SymbolVersionError.
Inductive t : Set :=
| None | InvalidOptions | InvalidMetadata | ReadFailed | StringReadFailed | InvalidRecord
| RecordLimitExceeded | VersionIndexNotFound | DependencyNotFound.

Definition to_string (error : t) : string :=
  match error with
  | None => "none"
  | InvalidOptions => "invalid_options"
  | InvalidMetadata => "invalid_metadata"
  | ReadFailed => "read_failed"
  | StringReadFailed => "string_read_failed"
  | InvalidRecord => "invalid_record"
  | RecordLimitExceeded => "record_limit_exceeded"
  | VersionIndexNotFound => "version_index_not_found"
  | DependencyNotFound => "dependency_not_found"
  end.
End Elf32SymbolVersionError.

Record Elf32SymbolVersionRequirement := {
  vr_elf_hash : Z;
  vr_name : list Z;
  vr_target_object : option nat;
}.

(** The failing fields of the two result structs. *)
Record version_failure := VersionFailure {
  vf_error : Elf32SymbolVersionError.t;
  vf_string_error : Elf32LinkerStringError.t;
}.

Definition version_result := result version_failure.

(** [requirement_failure(error)] / [match_failure(error)] *)
Definition version_fails (error : Elf32SymbolVersionError.t) : version_failure :=
  VersionFailure error Elf32LinkerStringError.None.

Definition kVersionCurrent : Z := 1.
Definition kVersionIndexMask : Z := 0x7fff.
Definition kVersionHidden : Z := 0x8000.
Definition kVersionGlobal : Z := 1.
Definition kVersionFlagBase : Z := 0x1.
Definition kVerneedSize : Z := 16.
Definition kVernauxSize : Z := 16.
Definition kVerdefSize : Z := 20.
Definition kVerdauxSize : Z := 8.

(** [WalkBudget::take] *)
Definition budget_take (used limit : Z) : version_result Z :=
  fail_if (limit <=? used) (version_fails Elf32SymbolVersionError.RecordLimitExceeded) ;;
  Ok (u32 (used + 1)).

Definition has_any_version_descriptor (metadata : Elf32LinkerMetadata) : bool :=
  bool_decide (is_Some (lm_version_symbol_table metadata))
  || bool_decide (is_Some (lm_version_definition_table metadata))
  || bool_decide (is_Some (lm_version_requirement_table metadata)).

Definition valid_walk_options (options : Elf32SymbolVersionOptions) : bool :=
  negb (vo_max_records options =? 0) && negb (vo_max_name_bytes options =? 0).

(** The edge scan of [dependency_for_soname]; [Err] is [invalid_graph]. *)
Fixpoint dependency_for_soname (graph : Elf32DependencyGraph) (edges : list Elf32DependencyEdge)
    (soname : list Z) : result unit (option nat) :=
  match edges with
  | [] => Ok None
  | edge :: rest =>
      match objects graph !! target_object edge with
      | None => Err tt
      | Some target =>
          if bool_decide (ls_soname (linker_strings target) = Some soname)
          then Ok (Some (target_object edge))
          else dependency_for_soname graph rest soname
      end
  end.

Section walk.
Context {M : Type} `{GuestMemory M}.
Context (memory : M) (options : Elf32SymbolVersionOptions).

(** [read_record] with the callers' error. *)
Definition read_record (address size : Z) : version_result (list Z) :=
  or_fail (gm_read memory address size) (version_fails Elf32SymbolVersionError.ReadFailed).

(** [add_address] with the callers' error. *)
Definition add_address (base offset : Z) : version_result Z :=
  or_fail (checked_add_guest_address base offset) (version_fails Elf32SymbolVersionError.InvalidRecord).

Definition read_versym (table : Elf32VersionSymbolTableMetadata) (symbol_index : Z)
    : version_result Z :=
  address ← or_fail (checked_add_guest_address (vs_guest_address table) (u64 (symbol_index * 2)))
              (version_fails Elf32SymbolVersionError.ReadFailed);
  bytes ← read_record address 2;
  Ok (decode_u16_le bytes 0).

Definition read_version_name (string_table : Elf32StringTableMetadata) (offset : Z)
    : version_result (list Z) :=
  map_err (fun e => VersionFailure Elf32SymbolVersionError.StringReadFailed e)
    (read_elf32_string_table_entry memory string_table offset (vo_max_name_bytes options)).

(** The step to the next linked record, when one is left. *)
Definition next_record (left : nat) (current next_offset : Z) : version_result Z :=
  match left with
  | O => Ok current
  | S _ =>
      fail_if (next_offset =? 0) (version_fails Elf32SymbolVersionError.InvalidRecord) ;;
      add_address current next_offset
  end.

(** ** VERDEF *)
Record VersionDefinition := {
  vd_index : Z;
  vd_elf_hash : Z;
  vd_name : list Z;
}.

(** The auxiliary record of a non-base definition at [current]. *)
Definition read_verdef_name (string_table : Elf32StringTableMetadata) (used current : Z)
    (record : list Z) : version_result (Z * VersionDefinition) :=
  let aux_count := decode_u16_le record 6 in
  let aux_offset := decode_u32_le record 12 in
  fail_if ((aux_count =? 0) || (aux_offset =? 0))
    (version_fails Elf32SymbolVersionError.InvalidRecord) ;;
  used ← budget_take used (vo_max_records options);
  aux ← add_address current aux_offset;
  aux_record ← read_record aux kVerdauxSize;
  version_name ← read_version_name string_table (decode_u32_le aux_record 0);
  Ok (used, {| vd_index := Z.land (decode_u16_le record 4) kVersionIndexMask;
               vd_elf_hash := decode_u32_le record 8; vd_name := version_name |}).

(** The VERDEF loop, with [left] records to go; [f] is what the caller does with
    a non-base definition. *)
Fixpoint walk_verdefs {S : Type} (f : S -> VersionDefinition -> S)
    (string_table : Elf32StringTableMetadata) (left : nat) (used current : Z) (s : S)
    : version_result S :=
  match left with
  | O => Ok s
  | Datatypes.S left' =>
      used ← budget_take used (vo_max_records options);
      record ← read_record current kVerdefSize;
      fail_if (negb (decode_u16_le record 0 =? kVersionCurrent))
        (version_fails Elf32SymbolVersionError.InvalidRecord) ;;
      '(used, s) ←
        (if Z.land (decode_u16_le record 2) kVersionFlagBase =? 0
         then '(used, d) ← read_verdef_name string_table used current record; Ok (used, f s d)
         else Ok (used, s));
      current ← next_record left' current (decode_u32_le record 16);
      walk_verdefs f string_table left' used current s
  end.

(** ** VERNEED *)
Context (graph : Elf32DependencyGraph).

(** The VERNAUX loop of one record. *)
Fixpoint walk_vernauxs (string_table : Elf32StringTableMetadata) (source_index : Z)
    (target : nat) (left : nat) (used aux : Z) (found : option Elf32SymbolVersionRequirement)
    : version_result (Z * option Elf32SymbolVersionRequirement) :=
  match left with
  | O => Ok (used, found)
  | Datatypes.S left' =>
      used ← budget_take used (vo_max_records options);
      aux_record ← read_record aux kVernauxSize;
      version_name ← read_version_name string_table (decode_u32_le aux_record 8);
      let found :=
        if Z.land (decode_u16_le aux_record 6) kVersionIndexMask =? source_index
        then Some {| vr_elf_hash := decode_u32_le aux_record 0; vr_name := version_name;
                     vr_target_object := Some target |}
        else found in
      aux ← next_record left' aux (decode_u32_le aux_record 12);
      walk_vernauxs string_table source_index target left' used aux found
  end.

(** One VERNEED record: its header, the dependency it names and its auxiliaries. *)
Definition walk_verneed (requester : Elf32LoadedDependencyObject)
    (string_table : Elf32StringTableMetadata) (source_index used current : Z)
    (record : list Z) (found : option Elf32SymbolVersionRequirement)
    : version_result (Z * option Elf32SymbolVersionRequirement) :=
  let aux_count := decode_u16_le record 2 in
  let aux_offset := decode_u32_le record 8 in
  fail_if (negb (decode_u16_le record 0 =? kVersionCurrent) || (aux_count =? 0) || (aux_offset =? 0))
    (version_fails Elf32SymbolVersionError.InvalidRecord) ;;
  target_name ← read_version_name string_table (decode_u32_le record 4);
  target_object ← map_err (fun _ => version_fails Elf32SymbolVersionError.InvalidMetadata)
                    (dependency_for_soname graph (dependencies requester) target_name);
  target ← or_fail target_object (version_fails Elf32SymbolVersionError.DependencyNotFound);
  aux ← add_address current aux_offset;
  walk_vernauxs string_table source_index target (Z.to_nat aux_count) used aux found.

Fixpoint walk_verneeds (requester : Elf32LoadedDependencyObject)
    (string_table : Elf32StringTableMetadata) (source_index : Z) (left : nat)
    (used current : Z) (found : option Elf32SymbolVersionRequirement)
    : version_result (Z * option Elf32SymbolVersionRequirement) :=
  match left with
  | O => Ok (used, found)
  | Datatypes.S left' =>
      used ← budget_take used (vo_max_records options);
      record ← read_record current kVerneedSize;
      '(used, found) ← walk_verneed requester string_table source_index used current record found;
      current ← next_record left' current (decode_u32_le record 12);
      walk_verneeds requester string_table source_index left' used current found
  end.

(** The error when a walk is needed but impossible. *)
Definition walk_impossible : version_failure :=
  version_fails
    (if (vo_max_records options =? 0) || (vo_max_name_bytes options =? 0)
     then Elf32SymbolVersionError.InvalidOptions else Elf32SymbolVersionError.InvalidMetadata).

Definition walk_table {S : Type} (table : option Elf32VersionTableMetadata)
    (walk : nat -> Z -> version_result S) (s : S) : version_result S :=
  match table with
  | Some table => walk (Z.to_nat (vt_count table)) (vt_guest_address table)
  | None => Ok s
  end.

(** A local definition with the requested index supersedes a requirement. *)
Definition take_definition (source_index : Z) (requester_object : nat)
    (found : option Elf32SymbolVersionRequirement) (d : VersionDefinition)
    : option Elf32SymbolVersionRequirement :=
  if vd_index d =? source_index
  then Some {| vr_elf_hash := vd_elf_hash d; vr_name := vd_name d;
               vr_target_object := Some requester_object |}
  else found.

(** The record walks of [resolve_elf32_symbol_version_requirement]. *)
Definition find_requirement (requester_object : nat) (requester : Elf32LoadedDependencyObject)
    (string_table : Elf32StringTableMetadata) (source_index : Z)
    : version_result (option Elf32SymbolVersionRequirement) :=
  let metadata := linker_metadata requester in
  '(used, found) ← walk_table (lm_version_requirement_table metadata)
    (fun count address =>
       walk_verneeds requester string_table source_index count 0 address None) (0, None);
  found ← walk_table (lm_version_definition_table metadata)
    (fun count address =>
       walk_verdefs (take_definition source_index requester_object) string_table count used
         address found) found;
  fail_if (negb (bool_decide (is_Some found)))
    (version_fails Elf32SymbolVersionError.VersionIndexNotFound) ;;
  Ok found.

Definition resolve_elf32_symbol_version_requirement (requester_object : nat) (symbol_index : Z)
    : version_result (option Elf32SymbolVersionRequirement) :=
  requester ← or_fail (objects graph !! requester_object)
                (version_fails Elf32SymbolVersionError.InvalidMetadata);
  let metadata := linker_metadata requester in
  fail_if (lm_has_symbol_versioning metadata && negb (has_any_version_descriptor metadata))
    (version_fails Elf32SymbolVersionError.InvalidMetadata) ;;
  match lm_version_symbol_table metadata with
  | None => Ok None
  | Some versym =>
      raw_version ← read_versym versym symbol_index;
      let source_index := Z.land raw_version kVersionIndexMask in
      if source_index <=? kVersionGlobal then Ok None
      else
        match lm_string_table metadata with
        | Some string_table =>
            fail_if (negb (valid_walk_options options)) walk_impossible ;;
            find_requirement requester_object requester string_table source_index
        | None => Err walk_impossible
        end
  end.

(** ** [match_elf32_symbol_version] *)
Definition take_match (requirement : Elf32SymbolVersionRequirement) (expected_index : Z)
    (d : VersionDefinition) : Z :=
  if (vd_elf_hash d =? vr_elf_hash requirement)
     && bool_decide (vd_name d = vr_name requirement)
  then vd_index d else expected_index.

Definition match_elf32_symbol_version (object : Elf32LoadedDependencyObject) (symbol_index : Z)
    (requirement : option Elf32SymbolVersionRequirement) : version_result bool :=
  let metadata := linker_metadata object in
  fail_if (lm_has_symbol_versioning metadata && negb (has_any_version_descriptor metadata))
    (version_fails Elf32SymbolVersionError.InvalidMetadata) ;;
  match lm_version_symbol_table metadata with
  | None => Ok true
  | Some versym =>
      raw_version ← read_versym versym symbol_index;
      match requirement with
      | None => Ok (Z.land raw_version kVersionHidden =? 0)
      | Some requirement =>
          expected_index ←
            match lm_version_definition_table metadata with
            | None => Ok kVersionGlobal
            | Some table =>
                match lm_string_table metadata with
                | Some string_table =>
                    fail_if (negb (valid_walk_options options)) walk_impossible ;;
                    walk_verdefs (take_match requirement) string_table
                      (Z.to_nat (vt_count table)) 0 (vt_guest_address table) kVersionGlobal
                | None => Err walk_impossible
                end
            end;
          Ok (Z.land raw_version kVersionIndexMask =? expected_index)
      end
  end.
End walk.

(** ** Specification: the object's list of version definitions *)
Section spec.
Context {M : Type} `{GuestMemory M}.
Context (memory : M) (options : Elf32SymbolVersionOptions).

Definition snoc {A} (l : list A) (x : A) : list A := l ++ [x].

(** The non-base definitions of a VERDEF table, in table order. *)
Definition version_definitions (string_table : Elf32StringTableMetadata)
    (table : Elf32VersionTableMetadata) : version_result (list VersionDefinition) :=
  walk_verdefs memory options snoc string_table (Z.to_nat (vt_count table)) 0
    (vt_guest_address table) [].

(** Any VERDEF walk is a fold over the collected definitions. *)
Lemma walk_verdefs_collect {S} (f : S -> VersionDefinition -> S) st left used cur s acc :
  walk_verdefs memory options f st left used cur (foldl f s acc) =
  (defs ← walk_verdefs memory options snoc st left used cur acc; Ok (foldl f s defs)).
Proof.
  revert used cur acc; induction left as [|left IH]; intros used cur acc; [done|].
  cbn [walk_verdefs]. destruct (budget_take used _) as [used1|]; [|done]. cbn [mbind result_bind].
  destruct (read_record memory cur kVerdefSize) as [record|]; [|done]. cbn [mbind result_bind].
  destruct (fail_if _ _); [|done]. cbn [mbind result_bind].
  destruct (Z.land (decode_u16_le record 2) kVersionFlagBase =? 0).
  - destruct (read_verdef_name _ _ _ _ _ _) as [[used2 d]|]; [|done]. cbn [mbind result_bind].
    destruct (next_record _ _ _) as [cur'|]; [|done]. cbn [mbind result_bind].
    rewrite <- IH. unfold snoc. by rewrite foldl_app.
  - destruct (next_record _ _ _) as [cur'|]; [|done]. cbn [mbind result_bind]. apply IH.
Qed.

(** A walk that succeeds also does so with more budget left. *)
Lemma budget_take_mono used used' limit r :
  is_u32 limit -> 0 <= used' <= used -> budget_take used limit = Ok r ->
  exists r', budget_take used' limit = Ok r' /\ 0 <= r' <= r.
Proof.
  intros Hl Hle Hb. unfold budget_take in *.
  apply bind_ok in Hb as ([] & G%fail_if_ok & [= <-]). bool_prop.
  rewrite (proj2 (Z.leb_gt _ _)) by lia. cbn. eexists. split; [done|].
  rewrite !u32_small by word_lia. lia.
Qed.

Lemma walk_verdefs_mono {S} (f : S -> VersionDefinition -> S) st left used used' cur s r :
  is_u32 (vo_max_records options) -> 0 <= used' <= used ->
  walk_verdefs memory options f st left used cur s = Ok r ->
  walk_verdefs memory options f st left used' cur s = Ok r.
Proof.
  intros Hl. revert used used' cur s; induction left as [|left IH]; intros used used' cur s Hle Hw; [done|].
  cbn [walk_verdefs] in *. apply bind_ok in Hw as (u1 & Hb & Hw).
  destruct (budget_take_mono _ used' _ _ Hl Hle Hb) as (u1' & -> & Hle1). cbn [mbind result_bind].
  apply bind_ok in Hw as (record & -> & Hw). cbn [mbind result_bind].
  apply bind_ok in Hw as ([] & -> & Hw). cbn [mbind result_bind].
  apply bind_ok in Hw as ([u2 s2] & Hd & Hw).
  destruct (Z.land (decode_u16_le record 2) kVersionFlagBase =? 0).
  - apply bind_ok in Hd as ([u3 d] & Hd & [= <- <-]). unfold read_verdef_name in *.
    apply bind_ok in Hd as ([] & -> & Hd). cbn [mbind result_bind].
    apply bind_ok in Hd as (u4 & Hb2 & Hd).
    destruct (budget_take_mono _ u1' _ _ Hl Hle1 Hb2) as (u4' & -> & Hle2). cbn [mbind result_bind].
    apply bind_ok in Hd as (aux & -> & Hd). cbn [mbind result_bind].
    apply bind_ok in Hd as (ar & -> & Hd). cbn [mbind result_bind].
    apply bind_ok in Hd as (nm & -> & [= -> <-]). cbn [mbind result_bind].
    apply bind_ok in Hw as (cur' & -> & Hw). cbn [mbind result_bind]. by eapply IH.
  - injection Hd as <- <-. cbn [mbind result_bind].
    apply bind_ok in Hw as (cur' & -> & Hw). cbn [mbind result_bind]. by eapply IH.
Qed.

(** The record counter stays a machine word. *)
Lemma budget_take_nonneg used limit r : 0 <= used -> budget_take used limit = Ok r -> 0 <= r.
Proof.
  intros Hu Hb. unfold budget_take in Hb. apply bind_ok in Hb as ([] & _ & [= <-]).
  apply u32_range.
Qed.

Lemma walk_vernauxs_used st src tgt left used aux found r :
  0 <= used -> walk_vernauxs memory options st src tgt left used aux found = Ok r -> 0 <= r.1.
Proof.
  revert used aux found; induction left as [|left IH]; intros used aux found Hu Hw; cbn in Hw.
  { injection Hw as <-. done. }
  apply bind_ok in Hw as (u1 & Hb & Hw). apply bind_ok in Hw as (ar & _ & Hw).
  apply bind_ok in Hw as (nm & _ & Hw). apply bind_ok in Hw as (aux' & _ & Hw).
  eapply IH; [|exact Hw]. by eapply budget_take_nonneg.
Qed.

Lemma walk_verneeds_used graph requester st src left used cur found r :
  0 <= used -> walk_verneeds memory options graph requester st src left used cur found = Ok r -> 0 <= r.1.
Proof.
  revert used cur found; induction left as [|left IH]; intros used cur found Hu Hw; cbn in Hw.
  { injection Hw as <-. done. }
  apply bind_ok in Hw as (u1 & Hb & Hw). apply bind_ok in Hw as (record & _ & Hw).
  apply bind_ok in Hw as ([u2 found2] & Hn & Hw). apply bind_ok in Hw as (cur' & _ & Hw).
  eapply IH; [|exact Hw]. unfold walk_verneed in Hn. inv_ok.
  change u2 with (u2, found2).1. eapply walk_vernauxs_used; [|eassumption]. by eapply budget_take_nonneg.
Qed.

(** Folding "the last one that satisfies [p] wins". *)
Lemma foldl_last {A B} (p : A -> Prop) `{forall x, Decision (p x)} (g : A -> B) (b : B) l :
  foldl (fun b x => if decide (p x) then g x else b) b l =
  match last (filter p l) with Some x => g x | None => b end.
Proof.
  induction l as [|x l IH] using rev_ind; [done|].
  rewrite foldl_app, filter_app. cbn [foldl]. rewrite filter_cons, filter_nil.
  case_decide; [by rewrite last_snoc|]. by rewrite app_nil_r.
Qed.

Definition defines_version (req : Elf32SymbolVersionRequirement) (d : VersionDefinition) : Prop :=
  vd_elf_hash d = vr_elf_hash req /\ vd_name d = vr_name req.

#[export] Instance defines_version_dec req d : Decision (defines_version req d).
Proof. unfold defines_version. apply _. Defined.

Lemma foldl_take_match req defs b :
  foldl (take_match req) b defs =
  match last (filter (defines_version req) defs) with Some d => vd_index d | None => b end.
Proof.
  rewrite <- (foldl_last (defines_version req) vd_index).
  revert b; induction defs as [|d defs IH]; intros b; [done|]. cbn. rewrite IH. f_equal.
  unfold take_match, defines_version.
  destruct (decide _) as [[-> ->]|Hn]; [by rewrite Z.eqb_refl, bool_decide_true|].
  destruct (_ =? _) eqn:E1; [|done]. cbn. destruct (bool_decide_reflect (vd_name d = vr_name req)); [|done].
  bool_prop. naive_solver.
Qed.

Lemma foldl_take_definition src i defs b :
  foldl (take_definition src i) b defs =
  match last (filter (fun d => vd_index d = src) defs) with
  | Some d => Some {| vr_elf_hash := vd_elf_hash d; vr_name := vd_name d; vr_target_object := Some i |}
  | None => b
  end.
Proof.
  rewrite <- (foldl_last (fun d => vd_index d = src) (fun d =>
    Some {| vr_elf_hash := vd_elf_hash d; vr_name := vd_name d; vr_target_object := Some i |})).
  revert b; induction defs as [|d defs IH]; intros b; [done|]. cbn. rewrite IH. f_equal.
  unfold take_definition. destruct (decide _) as [->|Hn]; [by rewrite Z.eqb_refl|].
  by rewrite (proj2 (Z.eqb_neq _ _) Hn).
Qed.

(** The definition a name determines is unique when names are. *)
Lemma last_filter_unique {A B} `{EqDecision B} (key : A -> B) (p : A -> Prop)
    `{forall x, Decision (p x)} (l : list A) d :
  NoDup (key <$> l) -> d ∈ l -> p d -> (forall x, p x -> key x = key d) ->
  last (filter p l) = Some d.
Proof.
  intros Hnd Hd Hpd Hkey.
  destruct (last (filter p l)) as [x|] eqn:E.
  - apply last_Some_elem_of in E. apply list_elem_of_filter in E as [Hpx Hx].
    apply list_elem_of_lookup in Hd as [i Hi]. apply list_elem_of_lookup in Hx as [j Hj].
    assert (i = j) as ->; [|congruence].
    eapply (NoDup_lookup _ _ _ (key d) Hnd); rewrite list_lookup_fmap, ?Hi, ?Hj; cbn; f_equal.
    by apply Hkey.
  - apply last_None in E. assert (Hin : d ∈ filter p l) by by apply list_elem_of_filter.
    rewrite E in Hin. by apply not_elem_of_nil in Hin.
Qed.

Lemma resolve_definition graph i obj sym versym st table defs raw req :
  is_u32 (vo_max_records options) ->
  objects graph !! i = Some obj ->
  lm_version_symbol_table (linker_metadata obj) = Some versym ->
  lm_string_table (linker_metadata obj) = Some st ->
  lm_version_definition_table (linker_metadata obj) = Some table ->
  read_versym memory versym sym = Ok raw ->
  version_definitions st table = Ok defs ->
  resolve_elf32_symbol_version_requirement memory options graph i sym = Ok (Some req) ->
  valid_walk_options options = true /\
  exists found, Some req = foldl (take_definition (Z.land raw kVersionIndexMask) i) found defs.
Proof.
  intros Hmax Hobj Hvs Hst Htab Hraw Hdefs Hres.
  unfold resolve_elf32_symbol_version_requirement in Hres. rewrite Hobj in Hres. cbn [or_fail mbind result_bind] in Hres.
  apply bind_ok in Hres as ([] & Hmd & Hres). rewrite Hvs, Hst, Hraw in Hres. cbn [mbind result_bind] in Hres.
  destruct (_ <=? kVersionGlobal); [done|]. apply bind_ok in Hres as ([] & Hopt%fail_if_ok & Hres).
  apply negb_false_iff in Hopt. split; [done|]. unfold find_requirement in Hres.
  apply bind_ok in Hres as ([used found] & Hneed & Hres). rewrite Htab in Hres.
  apply bind_ok in Hres as (found' & Hdef & Hres). apply bind_ok in Hres as ([] & _ & [= ->]).
  exists found. cbn [walk_table] in Hdef.
  assert (Hu : 0 <= used).
  { destruct (lm_version_requirement_table _); cbn in Hneed; [|by injection Hneed as <- _].
    exact (walk_verneeds_used _ _ _ _ _ _ _ _ _ (Z.le_refl 0) Hneed). }
  pose proof (walk_verdefs_collect (take_definition (Z.land raw kVersionIndexMask) i) st
    (Z.to_nat (vt_count table)) used (vt_guest_address table) found []) as Hw.
  cbn [foldl] in Hw. rewrite Hw in Hdef. apply bind_ok in Hdef as (defs' & Hd' & [= Hreq]).
  eapply (walk_verdefs_mono _ _ _ _ 0) in Hd'; [|done|lia].
  unfold version_definitions in Hdefs. congruence.
Qed.

(** C35: resolving and matching agree on an object's own versions: in an object
    whose version definitions have distinct names, a versioned symbol whose
    version the object itself defines yields a requirement that targets the
    object and that the very same symbol satisfies. *)
Theorem own_version_matches graph i obj sym versym st table defs raw req :
  is_u32 (vo_max_records options) ->
  objects graph !! i = Some obj ->
  lm_version_symbol_table (linker_metadata obj) = Some versym ->
  lm_string_table (linker_metadata obj) = Some st ->
  lm_version_definition_table (linker_metadata obj) = Some table ->
  read_versym memory versym sym = Ok raw ->
  version_definitions st table = Ok defs ->
  NoDup ((fun d => (vd_elf_hash d, vd_name d)) <$> defs) ->
  (exists d, d ∈ defs /\ vd_index d = Z.land raw kVersionIndexMask) ->
  resolve_elf32_symbol_version_requirement memory options graph i sym = Ok (Some req) ->
  vr_target_object req = Some i /\
  match_elf32_symbol_version memory options obj sym (Some req) = Ok true.
Proof.
  intros Hmax Hobj Hvs Hst Htab Hraw Hdefs Hnd (d0 & Hd0 & Hidx0) Hres.
  destruct (resolve_definition graph i obj sym versym st table defs raw req) as (Hopt & found & Hreq); try done.
  rewrite foldl_take_definition in Hreq.
  destruct (last (filter _ defs)) as [d|] eqn:El; cycle 1.
  { apply last_None in El. assert (Hin : d0 ∈ filter (fun d => vd_index d = Z.land raw kVersionIndexMask) defs)
      by by apply list_elem_of_filter. rewrite El in Hin. by apply not_elem_of_nil in Hin. }
  injection Hreq as ->. split; [done|].
  apply last_Some_elem_of, list_elem_of_filter in El as [Hidx Hd].
  unfold match_elf32_symbol_version. rewrite Hvs, Hst, Htab, Hraw.
  replace (lm_has_symbol_versioning _ && _) with false; cycle 1.
  { symmetry. apply andb_false_iff. right. apply negb_false_iff. unfold has_any_version_descriptor.
    rewrite Hvs. done. }
  cbn [fail_if mbind result_bind]. rewrite Hopt. cbn [negb fail_if mbind result_bind].
  set (req := {| vr_elf_hash := _ |}).
  pose proof (walk_verdefs_collect (take_match req) st (Z.to_nat (vt_count table)) 0
    (vt_guest_address table) kVersionGlobal []) as Hw. cbn [foldl] in Hw. rewrite Hw.
  unfold version_definitions in Hdefs. rewrite Hdefs. cbn [mbind result_bind].
  rewrite foldl_take_match.
  rewrite (last_filter_unique (fun d => (vd_elf_hash d, vd_name d)) (defines_version req) defs d); try done.
  - by rewrite Hidx, Z.eqb_refl.
  - intros x [-> ->]. done.
Qed.
End spec.

(** ** The version tables as they lie in memory *)
Section layout.
Context {M : Type} `{GuestMemorySpec M}.
Implicit Types (m : M) (a v : Z).

(** A little-endian Elf32_Half and Elf32_Word. *)
Definition half_at m a v : Prop :=
  exists b0 b1, gm_peek m a = Some b0 /\ gm_peek m (a + 1) = Some b1 /\ v = b0 + 256 * b1.

Definition word_at m a v : Prop :=
  exists b0 b1 b2 b3, gm_peek m a = Some b0 /\ gm_peek m (a + 1) = Some b1 /\
    gm_peek m (a + 2) = Some b2 /\ gm_peek m (a + 3) = Some b3 /\
    v = b0 + 256 * (b1 + 256 * (b2 + 256 * b3)).

(** Elf32_Verdef, of version 1. *)
Record Verdef := {
  verdef_flags : Z; verdef_ndx : Z; verdef_cnt : Z; verdef_hash : Z; verdef_aux : Z; verdef_next : Z;
}.

Record verdef_at m a (r : Verdef) : Prop := {
  va_version : half_at m a 1;
  va_flags : half_at m (a + 2) (verdef_flags r);
  va_ndx : half_at m (a + 4) (verdef_ndx r);
  va_cnt : half_at m (a + 6) (verdef_cnt r);
  va_hash : word_at m (a + 8) (verdef_hash r);
  va_aux : word_at m (a + 12) (verdef_aux r);
  va_next : word_at m (a + 16) (verdef_next r);
}.

(** The name of a definition: the first Elf32_Verdaux names it. *)
Definition verdaux_name m (string_table : Elf32StringTableMetadata) (max_name_bytes a : Z)
    (nm : list Z) : Prop :=
  exists offset next, word_at m a offset /\ word_at m (a + 4) next /\
    is_cstring m (st_guest_address string_table + offset) nm /\
    offset + Z.of_nat (length nm) < st_size string_table /\ Z.of_nat (length nm) <= max_name_bytes.

(** [count] linked records from [a] on define [defs]: the base record (VER_FLG_BASE, bit
    0 of the flags) names the file and is not a definition; the others have a name and
    the low 15 bits of their index. *)
Inductive verdef_chain m (string_table : Elf32StringTableMetadata) (max_name_bytes : Z)
    : nat -> Z -> list VersionDefinition -> Prop :=
| chain_end a : verdef_chain m string_table max_name_bytes 0 a []
| chain_base n a r defs :
    verdef_at m a r -> Z.testbit (verdef_flags r) 0 = true ->
    (n <> 0%nat -> verdef_next r <> 0) ->
    verdef_chain m string_table max_name_bytes n (a + verdef_next r) defs ->
    verdef_chain m string_table max_name_bytes (S n) a defs
| chain_definition n a r nm defs :
    verdef_at m a r -> Z.testbit (verdef_flags r) 0 = false ->
    verdef_cnt r <> 0 -> verdef_aux r <> 0 ->
    verdaux_name m string_table max_name_bytes (a + verdef_aux r) nm ->
    (n <> 0%nat -> verdef_next r <> 0) ->
    verdef_chain m string_table max_name_bytes n (a + verdef_next r) defs ->
    verdef_chain m string_table max_name_bytes (S n) a
      ({| vd_index := verdef_ndx r mod 2 ^ 15; vd_elf_hash := verdef_hash r; vd_name := nm |} :: defs).

(** The definitions of an object, within the caller's limits: one record per entry of
    the table and one more per definition. *)
Definition declares m (options : Elf32SymbolVersionOptions) (md : Elf32LinkerMetadata)
    (defs : list VersionDefinition) : Prop :=
  match lm_version_definition_table md with
  | None => defs = []
  | Some table => exists string_table, lm_string_table md = Some string_table /\
      vo_max_records options <> 0 /\ vo_max_name_bytes options <> 0 /\
      verdef_chain m string_table (vo_max_name_bytes options) (Z.to_nat (vt_count table))
        (vt_guest_address table) defs /\
      vt_count table + Z.of_nat (length defs) <= vo_max_records options
  end.

(** The index that stands for a requested version: that of the last definition with its
    hash and name, or the global index 1 without one. *)
Definition version_index (req : Elf32SymbolVersionRequirement) (defs : list VersionDefinition) (idx : Z)
    : Prop :=
  (exists l1 d l2, defs = l1 ++ d :: l2 /\ defines_version req d /\
     Forall (fun d => ~ defines_version req d) l2 /\ idx = vd_index d) \/
  (Forall (fun d => ~ defines_version req d) defs /\ idx = 1).

(** What the version tables in memory say about a symbol and a request. *)
Definition version_match m (options : Elf32SymbolVersionOptions) (md : Elf32LinkerMetadata)
    (symbol_index : Z) (requirement : option Elf32SymbolVersionRequirement) (b : bool) : Prop :=
  (lm_has_symbol_versioning md = true -> is_Some (lm_version_symbol_table md) \/
     is_Some (lm_version_definition_table md) \/ is_Some (lm_version_requirement_table md)) /\
  match lm_version_symbol_table md with
  | None => b = true
  | Some versym => exists raw, half_at m (vs_guest_address versym + 2 * symbol_index) raw /\
      match requirement with
      | None => b = negb (Z.testbit raw 15)
      | Some req => exists defs idx, declares m options md defs /\ version_index req defs idx /\
          b = bool_decide (raw mod 2 ^ 15 = idx)
      end
  end.

Lemma half_at_unique m a v w : half_at m a v -> half_at m a w -> v = w.
Proof. intros (? & ? & ? & ? & ->) (? & ? & ? & ? & ->). congruence. Qed.

Lemma word_at_unique m a v w : word_at m a v -> word_at m a w -> v = w.
Proof. intros (? & ? & ? & ? & ? & ? & ? & ? & ->) (? & ? & ? & ? & ? & ? & ? & ? & ->). congruence. Qed.

Lemma half_at_readable m a v x : half_at m a v -> a <= x < a + 2 -> is_Some (gm_peek m x).
Proof.
  intros (b0 & b1 & P0 & P1 & _) Hx.
  destruct (decide (x = a)) as [->|]; [by eexists|]. replace x with (a + 1) by lia. by eexists.
Qed.

Lemma word_at_readable m a v x : word_at m a v -> a <= x < a + 4 -> is_Some (gm_peek m x).
Proof.
  intros (b0 & b1 & b2 & b3 & P0 & P1 & P2 & P3 & _) Hx.
  destruct (decide (x = a)) as [->|]; [by eexists|]. destruct (decide (x = a + 1)) as [->|]; [by eexists|].
  destruct (decide (x = a + 2)) as [->|]; [by eexists|]. replace x with (a + 3) by lia. by eexists.
Qed.

(** Reading decodes what is there. *)
Lemma read_half_at m a n bs k :
  gm_ok m -> is_u32 a -> 0 < n <= span_max -> gm_read m a n = Some bs -> 0 <= k -> k + 2 <= n ->
  half_at m (a + k) (decode_u16_le bs k).
Proof.
  intros Hm Ha Hn Hr Hk Hkn. pose proof (gm_read_bytes m a n bs Hm Ha Hn Hr) as Hb.
  rewrite gm_read_spec in Hr by done. apply mapM_seqZ_Some in Hr as [_ Hr]; [|lia].
  exists (byte_at bs k), (byte_at bs (k + 1)). rewrite <- Z.add_assoc.
  split_and!; [apply Hr; lia..|by apply decode_u16_le_digits].
Qed.

Lemma read_word_at m a n bs k :
  gm_ok m -> is_u32 a -> 0 < n <= span_max -> gm_read m a n = Some bs -> 0 <= k -> k + 4 <= n ->
  word_at m (a + k) (decode_u32_le bs k).
Proof.
  intros Hm Ha Hn Hr Hk Hkn. pose proof (gm_read_bytes m a n bs Hm Ha Hn Hr) as Hb.
  rewrite gm_read_spec in Hr by done. apply mapM_seqZ_Some in Hr as [_ Hr]; [|lia].
  exists (byte_at bs k), (byte_at bs (k + 1)), (byte_at bs (k + 2)), (byte_at bs (k + 3)).
  rewrite <- !Z.add_assoc. split_and!; [apply Hr; lia..|by apply decode_u32_le_digits].
Qed.

Definition decoded_verdef (bs : list Z) : Verdef := {|
  verdef_flags := decode_u16_le bs 2; verdef_ndx := decode_u16_le bs 4; verdef_cnt := decode_u16_le bs 6;
  verdef_hash := decode_u32_le bs 8; verdef_aux := decode_u32_le bs 12; verdef_next := decode_u32_le bs 16;
|}.

Lemma verdef_at_read m a r :
  gm_ok m -> is_u32 a ->
  verdef_at m a r <->
  exists bs, gm_read m a 20 = Some bs /\ decode_u16_le bs 0 = 1 /\ r = decoded_verdef bs.
Proof.
  intros Hm Ha. assert (Hn : 0 < 20 <= span_max) by (unfold span_max; lia). split.
  - intros [H1 H2 H3 H4 H5 H6 H7].
    assert (Hr : is_Some (gm_read m a 20)).
    { apply gm_read_is_Some; [done..|]. intros x Hx.
      destruct (decide (x < a + 2)); [eapply half_at_readable; [exact H1|lia]|].
      destruct (decide (x < a + 4)); [eapply half_at_readable; [exact H2|lia]|].
      destruct (decide (x < a + 6)); [eapply half_at_readable; [exact H3|lia]|].
      destruct (decide (x < a + 8)); [eapply half_at_readable; [exact H4|lia]|].
      destruct (decide (x < a + 12)); [eapply word_at_readable; [exact H5|lia]|].
      destruct (decide (x < a + 16)); [eapply word_at_readable; [exact H6|lia]|].
      eapply word_at_readable; [exact H7|lia]. }
    destruct Hr as [bs Hr]. exists bs. split; [done|].
    pose proof (fun k => read_half_at m a 20 bs k Hm Ha Hn Hr) as Hh.
    pose proof (fun k => read_word_at m a 20 bs k Hm Ha Hn Hr) as Hw. split.
    + eapply half_at_unique; [|exact H1]. specialize (Hh 0). rewrite Z.add_0_r in Hh. apply Hh; lia.
    + destruct r. unfold decoded_verdef. cbn in *.
      f_equal; first [eapply half_at_unique; [eassumption|apply Hh; lia]
                     |eapply word_at_unique; [eassumption|apply Hw; lia]].
  - intros (bs & Hr & H1 & ->).
    pose proof (fun k => read_half_at m a 20 bs k Hm Ha Hn Hr) as Hh.
    pose proof (fun k => read_word_at m a 20 bs k Hm Ha Hn Hr) as Hw.
    split; cbn; try (apply Hh; lia); try (apply Hw; lia).
    rewrite <- H1. specialize (Hh 0). rewrite Z.add_0_r in Hh. apply Hh; lia.
Qed.

Lemma verdef_at_u32 m a r : gm_ok m -> verdef_at m a r -> is_u32 a.
Proof. intros Hm [(b0 & b1 & Hp & _) _ _ _ _ _ _]. by eapply gm_peek_range. Qed.

Lemma word_at_u32 m a v : gm_ok m -> word_at m a v -> is_u32 a /\ is_u32 v.
Proof.
  intros Hm (b0 & b1 & b2 & b3 & P0 & P1 & P2 & P3 & ->). split; [by eapply gm_peek_range|].
  apply gm_peek_byte in P0, P1, P2, P3; try done. unfold is_byte in *. word_lia.
Qed.
End layout.

(** ** The walk reads the tables *)
Lemma budget_take_iff used limit r :
  0 <= used -> is_u32 limit -> budget_take used limit = Ok r <-> used < limit /\ r = used + 1.
Proof.
  intros Hu Hl. unfold budget_take, version_result. rewrite fail_if_then, Z.leb_gt. split.
  - intros [Hlt [= <-]]. rewrite u32_small by word_lia. done.
  - intros [Hlt ->]. rewrite u32_small by word_lia. done.
Qed.

Lemma add_address_iff base offset a :
  is_u32 base -> is_u32 offset -> add_address base offset = Ok a <-> a = base + offset /\ is_u32 a.
Proof.
  intros Hb Ho. unfold add_address, version_result. rewrite or_fail_ok. unfold checked_add_guest_address.
  rewrite u64_small by word_lia. destruct (UINT32_MAX <? base + offset) eqn:E; bool_prop.
  - split; [done|]. intros [-> Ha]. word_lia.
  - rewrite u32_small by word_lia. split; [intros [= <-]; split; [done|word_lia]|by intros [-> _]].
Qed.

Section exact.
Context {M : Type} `{GuestMemorySpec M}.
Context (m : M) (options : Elf32SymbolVersionOptions) (st : Elf32StringTableMetadata).
Hypothesis (Hm : gm_ok m).
Hypothesis (Hrec : is_u32 (vo_max_records options)) (Hbytes : is_u32 (vo_max_name_bytes options)).
Hypothesis (Hst : range_readable m (st_guest_address st) (st_size st)) (Hsz : is_u32 (st_size st)).

Lemma read_verdaux_iff aux nm :
  is_u32 aux ->
  verdaux_name m st (vo_max_name_bytes options) aux nm <->
  exists record, read_record m aux kVerdauxSize = Ok record /\
    read_version_name m options st (decode_u32_le record 0) = Ok nm.
Proof.
  intros Ha. assert (Hn : 0 < 8 <= span_max) by (unfold span_max; lia). split.
  - intros (off & next & Ho & Hx & Hc & Hlt & Hle).
    assert (Hr : is_Some (gm_read m aux kVerdauxSize)).
    { apply gm_read_is_Some; [done..|]. intros x Hxx. unfold kVerdauxSize in *.
      destruct (decide (x < aux + 4)); [eapply word_at_readable; [exact Ho|lia]|].
      eapply word_at_readable; [exact Hx|lia]. }
    destruct Hr as [bs Hr]. exists bs. unfold read_record, read_version_name.
    split; [by apply or_fail_ok|]. apply map_err_ok.
    pose proof (read_word_at m aux 8 bs 0 Hm Ha Hn Hr ltac:(lia) ltac:(lia)) as Hw. rewrite Z.add_0_r in Hw.
    rewrite (word_at_unique m aux _ off Hw Ho). apply read_string_iff; try done. by eapply word_at_u32.
  - intros (bs & Hr%or_fail_ok & Hs%map_err_ok). pose proof (gm_read_bytes m aux 8 bs Hm Ha Hn Hr) as Hb.
    apply read_string_iff in Hs as (Hc & Hlt & Hle); try done; [|by apply decode_u32_le_range].
    pose proof (read_word_at m aux 8 bs 0 Hm Ha Hn Hr ltac:(lia) ltac:(lia)) as Hw. rewrite Z.add_0_r in Hw.
    exists (decode_u32_le bs 0), (decode_u32_le bs 4). split_and!; try done.
    apply (read_word_at m aux 8); done || lia.
Qed.

(** The definition a record and a name make. *)
Definition definition_of (r : Verdef) (nm : list Z) : VersionDefinition :=
  {| vd_index := verdef_ndx r mod 2 ^ 15; vd_elf_hash := verdef_hash r; vd_name := nm |}.

Lemma read_verdef_name_iff used cur bs used' d :
  is_u32 cur -> 0 <= used -> gm_read m cur 20 = Some bs ->
  read_verdef_name m options st used cur bs = Ok (used', d) <->
  (used < vo_max_records options /\ used' = used + 1) /\
  verdef_cnt (decoded_verdef bs) <> 0 /\ verdef_aux (decoded_verdef bs) <> 0 /\
  exists nm, verdaux_name m st (vo_max_name_bytes options) (cur + verdef_aux (decoded_verdef bs)) nm /\
    d = definition_of (decoded_verdef bs) nm.
Proof.
  intros Hc Hu Hr. pose proof (gm_read_bytes m cur 20 bs Hm Hc ltac:(unfold span_max; lia) Hr) as Hb.
  assert (Ha : is_u32 (decode_u32_le bs 12)) by by apply decode_u32_le_range.
  assert (Hx : Z.land (decode_u16_le bs 4) kVersionIndexMask = decode_u16_le bs 4 mod 2 ^ 15)
    by (change kVersionIndexMask with (Z.ones 15); apply Z.land_ones; lia).
  unfold read_verdef_name, definition_of, version_result. cbn [decoded_verdef verdef_cnt verdef_aux verdef_ndx verdef_hash].
  rewrite fail_if_then, orb_false_iff, !Z.eqb_neq, Hx. split.
  - intros [[Hcnt Haux] Hd]. apply bind_ok in Hd as (u & Hbud & Hd).
    apply budget_take_iff in Hbud as [Hlt ->]; [|done..]. apply bind_ok in Hd as (aux & Hadd & Hd).
    apply add_address_iff in Hadd as [-> Hau]; [|done..]. apply bind_ok in Hd as (ar & Har & Hd).
    apply bind_ok in Hd as (nm & Hnm & [= <- <-]). split; [done|]. split; [done|]. split; [done|].
    exists nm. split; [|done]. apply read_verdaux_iff; [done|]. by exists ar.
  - intros ([Hlt ->] & Hcnt & Haux & nm & Hnm & ->). split; [done|].
    assert (Hau : is_u32 (cur + decode_u32_le bs 12)).
    { destruct Hnm as (o & nx & Ho & _). by apply (word_at_u32 m _ o Hm Ho). }
    apply read_verdaux_iff in Hnm as (ar & Har & Hnm); [|done].
    rewrite (proj2 (budget_take_iff used _ (used + 1) Hu Hrec)) by done. cbn [mbind result_bind].
    rewrite (proj2 (add_address_iff cur _ _ Hc Ha)) by done. cbn [mbind result_bind].
    rewrite Har. cbn [mbind result_bind]. rewrite Hnm. done.
Qed.

Lemma next_record_iff left cur next a :
  is_u32 cur -> is_u32 next ->
  next_record left cur next = Ok a <->
  match left with O => a = cur | S _ => next <> 0 /\ a = cur + next /\ is_u32 a end.
Proof.
  intros Hc Hn. unfold next_record, version_result. destruct left; [naive_solver|].
  rewrite fail_if_then, Z.eqb_neq, add_address_iff by done. done.
Qed.

Lemma chain_next left cur bs l :
  is_u32 cur -> gm_read m cur 20 = Some bs -> (left <> 0%nat -> verdef_next (decoded_verdef bs) <> 0) ->
  verdef_chain m st (vo_max_name_bytes options) left (cur + verdef_next (decoded_verdef bs)) l ->
  exists cur', next_record left cur (decode_u32_le bs 16) = Ok cur' /\ (left <> 0%nat -> is_u32 cur') /\
    verdef_chain m st (vo_max_name_bytes options) left cur' l.
Proof.
  intros Hc Hr Hnx Hl. pose proof (gm_read_bytes m cur 20 bs Hm Hc ltac:(unfold span_max; lia) Hr) as Hb.
  destruct left as [|left].
  - exists cur. split; [done|]. split; [done|]. inversion Hl; subst. constructor.
  - exists (cur + decode_u32_le bs 16). cbn in *.
    assert (Hu : is_u32 (cur + decode_u32_le bs 16)) by (inversion Hl; by eapply verdef_at_u32).
    split; [|done]. apply (next_record_iff (S left)); [done|by apply decode_u32_le_range|]. auto.
Qed.

(** The collected definitions are those of the chain, within the record limit. *)
Lemma walk_chain left used cur acc r :
  (left <> 0%nat -> is_u32 cur) -> 0 <= used ->
  walk_verdefs m options snoc st left used cur acc = Ok r <->
  exists defs, r = acc ++ defs /\ verdef_chain m st (vo_max_name_bytes options) left cur defs /\
    (left <> 0%nat -> used + Z.of_nat left + Z.of_nat (length defs) <= vo_max_records options).
Proof.
  revert used cur acc; induction left as [|left IH]; intros used cur acc Hc Hu.
  { cbn. split.
    - intros [= <-]. exists []. rewrite app_nil_r. split; [done|]. split; [constructor|done].
    - intros (defs & -> & Hd & _). inversion Hd; subst. by rewrite app_nil_r. }
  specialize (Hc ltac:(done)). cbn [walk_verdefs]. split.
  - intros Hw. apply bind_ok in Hw as (u1 & Hbud & Hw). apply budget_take_iff in Hbud as [Hlt ->]; [|done..].
    apply bind_ok in Hw as (bs & Hr%or_fail_ok & Hw). apply bind_ok in Hw as ([] & Hver%fail_if_ok & Hw).
    apply negb_false_iff, Z.eqb_eq in Hver. change kVersionCurrent with 1 in Hver.
    change kVerdefSize with 20 in Hr.
    pose proof (gm_read_bytes m cur 20 bs Hm Hc ltac:(unfold span_max; lia) Hr) as Hb.
    assert (Hat : verdef_at m cur (decoded_verdef bs)) by (apply verdef_at_read; eauto).
    change kVersionFlagBase with (2 ^ 0) in Hw. rewrite land_bit in Hw by lia.
    apply bind_ok in Hw as ([u2 acc2] & Hd & Hw). apply bind_ok in Hw as (cur' & Hnx & Hw).
    apply next_record_iff in Hnx; [|done|by apply decode_u32_le_range].
    assert (Hnext : left <> 0%nat -> verdef_next (decoded_verdef bs) <> 0 /\ cur' = cur + verdef_next (decoded_verdef bs))
      by (destruct left; [done|naive_solver]).
    assert (Hcu : left <> 0%nat -> is_u32 cur') by (destruct left; [done|naive_solver]).
    assert (Hmove : forall l, verdef_chain m st (vo_max_name_bytes options) left cur' l ->
              verdef_chain m st (vo_max_name_bytes options) left (cur + verdef_next (decoded_verdef bs)) l).
    { intros l Hl. destruct left; [inversion Hl; subst; constructor|]. by destruct Hnext as [_ <-]. }
    destruct (Z.testbit (decode_u16_le bs 2) 0) eqn:Eb; cbn [negb] in Hd.
    + injection Hd as <- <-. apply IH in Hw as (defs & -> & Hch & Hbud); [|done|lia].
      exists defs. split; [done|]. split.
      * eapply chain_base; [exact Hat|done|intros Hl; by apply Hnext|by apply Hmove].
      * intros _. destruct (decide (left = 0%nat)) as [->|Hne]; [|specialize (Hbud Hne); lia].
        inversion Hch; subst. cbn. lia.
    + apply bind_ok in Hd as ([u3 d] & Hd & [= <- <-]).
      apply read_verdef_name_iff in Hd as ([Hlt2 ->] & Hcnt & Haux & nm & Hnm & ->); [|done|lia|done].
      apply IH in Hw as (defs & -> & Hch & Hbud); [|done|lia].
      exists (definition_of (decoded_verdef bs) nm :: defs). unfold snoc. rewrite <- app_assoc. split; [done|]. split.
      * eapply chain_definition; try done; [intros Hl; by apply Hnext|by apply Hmove].
      * intros _. cbn [length]. destruct (decide (left = 0%nat)) as [->|Hne]; [|specialize (Hbud Hne); lia].
        inversion Hch; subst. cbn. lia.
  - intros (defs & -> & Hch & Hbud). specialize (Hbud ltac:(done)).
    rewrite (proj2 (budget_take_iff used _ (used + 1) Hu Hrec)) by (split; [lia|done]). cbn [mbind result_bind].
    inversion Hch as [|n a v l Hat Hbase Hnx Hl|n a v nm l Hat Hbase Hcnt Haux Hnm Hnx Hl]; subst.
    + apply verdef_at_read in Hat as (bs & Hr & Hver & ->); [|done..].
      destruct (chain_next left cur bs defs Hc Hr Hnx Hl) as (cur' & Hnext & Hcu & Hl').
      unfold read_record. change kVerdefSize with 20. rewrite Hr. cbn [or_fail mbind result_bind].
      change kVersionFlagBase with (2 ^ 0). change kVersionCurrent with 1.
      change (verdef_flags (decoded_verdef bs)) with (decode_u16_le bs 2) in Hbase.
      rewrite land_bit, Hver, Hbase by lia.
      cbn [negb fail_if Z.eqb Pos.eqb mbind result_bind]. rewrite Hnext. cbn [mbind result_bind].
      apply IH; [done|lia|]. exists defs. split; [done|]. split; [done|]. lia.
    + apply verdef_at_read in Hat as (bs & Hr & Hver & ->); [|done..].
      destruct (chain_next left cur bs l Hc Hr Hnx Hl) as (cur' & Hnext & Hcu & Hl').
      unfold read_record. change kVerdefSize with 20. rewrite Hr. cbn [or_fail mbind result_bind].
      change kVersionFlagBase with (2 ^ 0). change kVersionCurrent with 1.
      change (verdef_flags (decoded_verdef bs)) with (decode_u16_le bs 2) in Hbase.
      rewrite land_bit, Hver, Hbase by lia.
      cbn [negb fail_if Z.eqb Pos.eqb mbind result_bind].
      rewrite (proj2 (read_verdef_name_iff (used + 1) cur bs (used + 1 + 1)
        (definition_of (decoded_verdef bs) nm) Hc ltac:(lia) Hr)); [|cbn [length] in Hbud; split; [lia|eauto]].
      cbn [mbind result_bind]. rewrite Hnext. cbn [mbind result_bind]. apply IH; [done|lia|].
      exists l. unfold snoc. rewrite <- app_assoc. split; [done|]. split; [done|]. cbn [length] in Hbud. lia.
Qed.
End exact.

Lemma version_index_last req defs idx :
  version_index req defs idx <->
  idx = match last (filter (defines_version req) defs) with Some d => vd_index d | None => kVersionGlobal end.
Proof.
  assert (Hnone : forall l, Forall (fun d => ~ defines_version req d) l -> filter (defines_version req) l = []).
  { intros l Hl. induction Hl as [|d l Hd Hl IH]; [done|]. by rewrite filter_cons_False. }
  split.
  - intros [(l1 & d & l2 & -> & Hd & Hl2 & ->)|[Hl ->]].
    + rewrite filter_app, filter_cons_True, (Hnone l2) by done. by rewrite last_snoc.
    + by rewrite Hnone.
  - intros ->. induction defs as [|x defs IH] using rev_ind; [right; done|].
    rewrite filter_app, filter_cons, filter_nil. case_decide as Hx.
    + rewrite last_snoc. left. exists defs, x, []. done.
    + rewrite app_nil_r. destruct IH as [(l1 & d & l2 & -> & Hd & Hl2 & Hi)|[Hl Hi]].
      * left. exists l1, d, (l2 ++ [x]). split; [by rewrite <- app_assoc|]. split; [done|]. split; [|done].
        apply Forall_app_2; [done|by constructor].
      * right. split; [|done]. apply Forall_app_2; [done|by constructor].
Qed.

(** Sizes and counts of the collected tables are 32-bit dynamic values. *)
Definition version_tables_typed (md : Elf32LinkerMetadata) : Prop :=
  (forall t, lm_string_table md = Some t -> is_u32 (st_size t)) /\
  (forall t, lm_version_definition_table md = Some t -> is_u32 (vt_count t)).

Section matching.
Context {M : Type} `{GuestMemorySpec M}.
Context (m : M) (options : Elf32SymbolVersionOptions) (md : Elf32LinkerMetadata).
Hypothesis (Hm : gm_ok m).
Hypothesis (Hrec : is_u32 (vo_max_records options)) (Hbytes : is_u32 (vo_max_name_bytes options)).
Hypothesis (Hmd : metadata_wf m md) (Hty : version_tables_typed md).

Lemma read_versym_iff versym i raw :
  is_u32 (vs_guest_address versym) -> is_u32 i ->
  read_versym m versym i = Ok raw <-> half_at m (vs_guest_address versym + 2 * i) raw.
Proof.
  intros Ha Hi. assert (Hn : 0 < 2 <= span_max) by (unfold span_max; lia).
  unfold read_versym, checked_add_guest_address. rewrite (u64_small (i * 2)) by word_lia.
  rewrite u64_small by word_lia. replace (vs_guest_address versym + i * 2) with (vs_guest_address versym + 2 * i) by lia.
  destruct (UINT32_MAX <? _) eqn:E; bool_prop.
  { split; [done|]. intros (b0 & b1 & P0 & _). apply gm_peek_range in P0; [|done]. word_lia. }
  assert (Hu : is_u32 (vs_guest_address versym + 2 * i)) by word_lia.
  rewrite u32_small by word_lia. cbn [or_fail mbind result_bind]. unfold read_record. split.
  - intros Hr. apply bind_ok in Hr as (bs & Hr%or_fail_ok & [= <-]).
    pose proof (read_half_at m _ 2 bs 0 Hm Hu Hn Hr ltac:(lia) ltac:(lia)) as Hh. by rewrite Z.add_0_r in Hh.
  - intros Hh. assert (Hr : is_Some (gm_read m (vs_guest_address versym + 2 * i) 2)).
    { apply gm_read_is_Some; [done..|]. intros x Hx. by eapply half_at_readable. }
    destruct Hr as [bs Hr]. rewrite Hr. cbn [or_fail mbind result_bind]. f_equal.
    pose proof (read_half_at m _ 2 bs 0 Hm Hu Hn Hr ltac:(lia) ltac:(lia)) as Hh'.
    rewrite Z.add_0_r in Hh'. by eapply half_at_unique.
Qed.

(** The index the code looks for. *)
Lemma expected_index_iff req idx :
  match lm_version_definition_table md with
  | None => Ok kVersionGlobal
  | Some table =>
      match lm_string_table md with
      | Some string_table =>
          fail_if (negb (valid_walk_options options)) (walk_impossible options) ;;
          walk_verdefs m options (take_match req) string_table
            (Z.to_nat (vt_count table)) 0 (vt_guest_address table) kVersionGlobal
      | None => Err (walk_impossible options)
      end
  end = Ok idx <->
  exists defs, declares m options md defs /\ version_index req defs idx.
Proof.
  unfold declares. destruct (lm_version_definition_table md) as [table|] eqn:Et; cycle 1.
  { split.
    - intros [= <-]. exists []. split; [done|]. by right.
    - intros (defs & -> & Hi%version_index_last). by subst. }
  destruct (lm_string_table md) as [st|] eqn:Es; [|split; [done|]; by intros (? & (? & ? & _) & _)].
  destruct Hty as [Hsz Hcount]. specialize (Hsz st Es). specialize (Hcount table Et).
  destruct (mw_verdef _ _ Hmd table Et) as [Ha _].
  pose proof (walk_chain m options st Hm Hrec Hbytes (mw_strings _ _ Hmd st Es) Hsz (Z.to_nat (vt_count table)) 0
    (vt_guest_address table) []) as Hwalk.
  unfold version_result. rewrite fail_if_then, negb_false_iff.
  pose proof (walk_verdefs_collect m options (take_match req) st (Z.to_nat (vt_count table)) 0
    (vt_guest_address table) kVersionGlobal []) as Hfold. cbn [foldl] in Hfold. rewrite Hfold.
  unfold valid_walk_options. rewrite andb_true_iff, !negb_true_iff, !Z.eqb_neq. split.
  - intros [[Hn1 Hn2] Hw]. apply bind_ok in Hw as (defs & Hw & [= <-]).
    apply Hwalk in Hw as (l & -> & Hch & Hbud); [|done|done]. exists l. split.
    + exists st. split_and!; try done. destruct (decide (vt_count table = 0)) as [Hz|Hz].
      * rewrite Hz in Hch |- *. inversion Hch; subst. cbn. word_lia.
      * specialize (Hbud ltac:(word_lia)). word_lia.
    + apply version_index_last. by rewrite foldl_take_match.
  - intros (defs & (st' & [= <-] & Hn1 & Hn2 & Hch & Hbud) & Hi%version_index_last). split; [done|].
    rewrite (proj2 (Hwalk defs ltac:(done) ltac:(lia))).
    { cbn [mbind result_bind]. by rewrite foldl_take_match, Hi. }
    exists defs. split; [done|]. split; [done|]. intros _. word_lia.
Qed.
End matching.

(** C34: [match_elf32_symbol_version] answers exactly what the version tables in guest
    memory say, on an object with validated metadata. An object that declares versioning
    without any version table is an error, and so is an unreadable or malformed table, or
    one beyond the caller's limits, when it is needed. Otherwise: without VERSYM every
    request matches; an unversioned request matches unless the symbol's VERSYM entry is
    hidden (bit 15); an explicit request matches when the low 15 bits of the entry are the
    index of the last non-base record of the VERDEF chain with the requested hash and
    name, or the global index 1 when the chain has none or there is no VERDEF table. *)
Theorem match_elf32_symbol_version_spec {M : Type} `{GuestMemorySpec M} (m : M) options object
    symbol_index requirement b :
  gm_ok m -> is_u32 (vo_max_records options) -> is_u32 (vo_max_name_bytes options) -> is_u32 symbol_index ->
  metadata_wf m (linker_metadata object) -> version_tables_typed (linker_metadata object) ->
  match_elf32_symbol_version m options object symbol_index requirement = Ok b <->
  version_match m options (linker_metadata object) symbol_index requirement b.
Proof.
  intros Hm Hrec Hbytes Hsym Hmd Hty. set (md := linker_metadata object) in *.
  unfold match_elf32_symbol_version, version_match, version_result. fold md.
  rewrite fail_if_then, andb_false_iff, negb_false_iff.
  assert (Hany : (lm_has_symbol_versioning md = false \/ has_any_version_descriptor md = true) <->
    (lm_has_symbol_versioning md = true -> is_Some (lm_version_symbol_table md) \/
     is_Some (lm_version_definition_table md) \/ is_Some (lm_version_requirement_table md))).
  { unfold has_any_version_descriptor. rewrite !orb_true_iff, !bool_decide_eq_true.
    destruct (lm_has_symbol_versioning md); naive_solver. }
  rewrite Hany. apply and_iff_compat_l.
  destruct (lm_version_symbol_table md) as [versym|] eqn:Ev; [|naive_solver].
  pose proof (read_versym_iff m Hm versym symbol_index) as Hvs.
  assert (Hva : is_u32 (vs_guest_address versym)) by apply (mw_versym _ _ Hmd versym Ev).
  split.
  - intros Hr. apply bind_ok in Hr as (raw & Hraw & Hr). apply Hvs in Hraw as Hh; [|done..]. exists raw.
    split; [done|]. destruct requirement as [req|].
    + apply bind_ok in Hr as (idx & Hidx & [= <-]). apply expected_index_iff in Hidx as (defs & Hd & Hi); [|done..].
      exists defs, idx. split; [done|]. split; [done|].
      change kVersionIndexMask with (Z.ones 15). rewrite Z.land_ones by lia. apply eqb_bool_decide.
    + injection Hr as <-. change kVersionHidden with (2 ^ 15). by rewrite land_bit.
  - intros (raw & Hh & Hr). apply Hvs in Hh as Hraw; [|done..]. rewrite Hraw. cbn [mbind result_bind].
    destruct requirement as [req|].
    + destruct Hr as (defs & idx & Hd & Hi & ->).
      apply bind_ok. exists idx. split; [apply expected_index_iff; eauto|]. f_equal. change kVersionIndexMask with (Z.ones 15). rewrite Z.land_ones by lia.
      apply eqb_bool_decide.
    + rewrite Hr. change kVersionHidden with (2 ^ 15). by rewrite land_bit.
Qed.

(** ** Failures carry an error *)
Section errors.
Context {M : Type} `{GuestMemory M}.
Context (memory : M) (options : Elf32SymbolVersionOptions).

Definition real_errors {A} (r : version_result A) : Prop :=
  match r with Ok _ => True | Err f => vf_error f <> Elf32SymbolVersionError.None end.

Lemma real_errors_bind {A B} (r : version_result A) (f : A -> version_result B) :
  real_errors r -> (forall a, real_errors (f a)) -> real_errors (r ≫= f).
Proof. destruct r; cbn; auto. Qed.

Lemma real_errors_fail_if b e : vf_error e <> Elf32SymbolVersionError.None -> real_errors (fail_if b e).
Proof. by destruct b. Qed.

Lemma real_errors_or_fail {A} (o : option A) e :
  vf_error e <> Elf32SymbolVersionError.None -> real_errors (or_fail o e).
Proof. by destruct o. Qed.

Lemma read_version_name_real st o : real_errors (read_version_name memory options st o).
Proof. unfold read_version_name. by destruct (read_elf32_string_table_entry _ _ _ _). Qed.

Lemma walk_impossible_real : vf_error (walk_impossible options) <> Elf32SymbolVersionError.None.
Proof. unfold walk_impossible. by destruct (_ || _). Qed.

Create HintDb real_errors.
Hint Resolve real_errors_fail_if real_errors_or_fail read_version_name_real walk_impossible_real
  : real_errors.

Ltac real_errors := repeat first
  [ progress intros
  | solve [auto with real_errors]
  | solve [cbn; auto with real_errors]
  | apply real_errors_bind
  | match goal with
    | |- real_errors (let '(_, _) := ?p in _) => destruct p
    | |- real_errors (if ?b then _ else _) => destruct b
    | |- real_errors (match ?o with _ => _ end) => destruct o
    end ].

Lemma budget_take_real used limit : real_errors (budget_take used limit).
Proof. unfold budget_take. real_errors. Qed.

Lemma read_verdef_name_real st used cur record :
  real_errors (read_verdef_name memory options st used cur record).
Proof. unfold read_verdef_name. pose proof budget_take_real. unfold read_record, add_address. real_errors. Qed.

Lemma next_record_real left cur next : real_errors (next_record left cur next).
Proof. unfold next_record, add_address. destruct left; real_errors. Qed.

Lemma walk_verdefs_real {S} (f : S -> VersionDefinition -> S) st left used cur s :
  real_errors (walk_verdefs memory options f st left used cur s).
Proof.
  revert used cur s; induction left as [|left IH]; intros used cur s; [done|]. cbn [walk_verdefs].
  pose proof budget_take_real. pose proof read_verdef_name_real. pose proof next_record_real.
  unfold read_record. real_errors.
Qed.

Lemma match_elf32_symbol_version_real object i requirement :
  real_errors (match_elf32_symbol_version memory options object i requirement).
Proof.
  unfold match_elf32_symbol_version, read_versym, read_record.
  pose proof @walk_verdefs_real. real_errors.
Qed.
End errors.

(** ** Witnesses: one object whose symbol 1 has its own version "V1" (index 2) *)
Definition version_memory : LinearGuestMemory.t :=
  LinearGuestMemory.mk 4096
    ([0; 86; 49; 0] ++ [0; 0; 2; 0] ++
     [1; 0; 0; 0; 2; 0; 1; 0] ++ encode_words [7; 20; 0] ++ encode_words [1; 0]).

Definition version_metadata : Elf32LinkerMetadata :=
  {| lm_string_table := Some {| st_guest_address := 4096; st_size := 4 |};
     lm_symbol_table := None; lm_sysv_hash_table := None;
     lm_gnu_hash_table := None; lm_rel_table := None; lm_plt_rel_table := None;
     lm_init_array := None; lm_fini_array := None;
     lm_version_symbol_table := Some {| vs_guest_address := 4100 |};
     lm_version_definition_table := Some {| vt_guest_address := 4104; vt_count := 1 |};
     lm_version_requirement_table := None;
     lm_soname_offset := None; lm_needed_offsets := []; lm_flags_1 := None; lm_global := false;
     lm_symbolic := false; lm_has_symbol_versioning := true |}.

Definition demo_version_object : Elf32LoadedDependencyObject := demo_object [] version_metadata.

Definition demo_version_options : Elf32SymbolVersionOptions :=
  {| vo_max_records := 8; vo_max_name_bytes := 8 |}.

Lemma version_memory_ok : gm_ok version_memory.
Proof.
  assert (Hw : linear_wf version_memory); [|exact Hw].
  split; [vm_compute; congruence..|]. apply is_bytes_forallb. vm_compute. reflexivity.
Qed.

Lemma version_range_readable a n :
  4096 <= a -> 0 <= n -> a + n <= 4132 -> range_readable version_memory a n.
Proof.
  intros Ha Hp Hn. split; [word_lia|]. split; [word_lia|]. intros x Hx.
  assert (Hr : is_Some (gm_read version_memory 4096 36)) by (vm_compute; by eexists).
  refine (proj1 (gm_read_is_Some version_memory 4096 36 version_memory_ok _ _) Hr x _);
    [word_lia|unfold span_max; lia|lia].
Qed.

Lemma version_metadata_wf : metadata_wf version_memory version_metadata.
Proof.
  split; cbn; try done.
  - intros t [= <-]. apply version_range_readable; cbn; lia.
  - intros t [?|?]; done.
  - intros t [?|?]; done.
  - intros t [= <-]. apply version_range_readable; cbn; lia.
  - intros t [= <-]. cbn. split; [word_lia|]. intros _. apply version_range_readable; lia.
Qed.

Lemma match_elf32_symbol_version_spec_witness :
  version_match version_memory demo_version_options version_metadata 1
    (Some {| vr_elf_hash := 7; vr_name := [86; 49]; vr_target_object := None |}) true.
Proof.
  apply (match_elf32_symbol_version_spec version_memory demo_version_options demo_version_object 1
    (Some {| vr_elf_hash := 7; vr_name := [86; 49]; vr_target_object := None |}) true).
  - exact version_memory_ok.
  - split; vm_compute; congruence.
  - split; vm_compute; congruence.
  - split; vm_compute; congruence.
  - exact version_metadata_wf.
  - split; intros t Ht; vm_compute in Ht; injection Ht as <-; split; vm_compute; congruence.
  - vm_compute. reflexivity.
Defined.

Lemma own_version_matches_witness :
  let req := {| vr_elf_hash := 7; vr_name := [86; 49]; vr_target_object := Some 0%nat |} in
  vr_target_object req = Some 0%nat /\
  match_elf32_symbol_version version_memory demo_version_options demo_version_object 1 (Some req) = Ok true.
Proof.
  apply (own_version_matches version_memory demo_version_options {| objects := [demo_version_object] |} 0
    demo_version_object 1 {| vs_guest_address := 4100 |} {| st_guest_address := 4096; st_size := 4 |}
    {| vt_guest_address := 4104; vt_count := 1 |}
    [{| vd_index := 2; vd_elf_hash := 7; vd_name := [86; 49] |}] 2).
  - split; vm_compute; congruence.
  - reflexivity.
  - reflexivity.
  - reflexivity.
  - reflexivity.
  - vm_compute. reflexivity.
  - vm_compute. reflexivity.
  - apply NoDup_singleton.
  - eexists. split; [by left|reflexivity].
  - vm_compute. reflexivity.
Defined.
