(* ===== verification/SymbolLookup.v ===== *)
(** * Symbol lookup ([src/src/elf/elf32_symbol_lookup.h],
      [src/src/elf/linking/elf32_symbol_lookup.cpp])

    The bounded dynamic-symbol index (SysV and GNU hash tables), lookup of a name
    in one object, and the graph lookup over a breadth-first dependency scope. *)

From S2P Require Import Prelude Bytes GuestMemory LinearMemory LoadPlan Dynamic Loader LinkerMetadata LinkerStrings Cpu Graph Lifecycle SymbolVersioning.

Record Elf32SymbolLookupOptions := {
  so_max_symbols : Z;
  so_max_hash_buckets : Z;
  so_max_gnu_bloom_words : Z;
  so_max_scope_objects : Z;
  so_max_name_bytes : Z;
  so_max_version_records : Z;
  so_global_scope_objects : list nat;
}.

Record Elf32SysvHashIndex := {
  sh_bucket_count : Z;
  sh_chain_count : Z;
  sh_buckets_guest_address : Z;
  sh_chains_guest_address : Z;
}.

Record Elf32GnuHashIndex := {
  gh_bucket_count : Z;
  gh_symbol_offset : Z;
  gh_bloom_word_count : Z;
  gh_bloom_shift : Z;
  gh_bloom_guest_address : Z;
  gh_buckets_guest_address : Z;
  gh_chains_guest_address : Z;
}.

Record Elf32SymbolIndex := {
  ix_symbol_count : Z;
  ix_sysv_hash : option Elf32SysvHashIndex;
  ix_gnu_hash : option Elf32GnuHashIndex;
}.

Module Elf32SymbolIndexError.
Inductive t : Set :=
| None | InvalidOptions | MissingStringTable | MissingSymbolTable | MissingHashTable
| HashHeaderReadFailed | HashRangeOverflow | HashReadFailed | InvalidSysvHash | InvalidGnuHash
| HashLimitExceeded | HashIndexOutOfRange | UnterminatedGnuChain | SymbolCountExceeded
| SymbolRangeOverflow | SymbolReadFailed.

Definition to_string (error : t) : string :=
  match error with
  | None => "none"
  | InvalidOptions => "invalid_options"
  | MissingStringTable => "missing_string_table"
  | MissingSymbolTable => "missing_symbol_table"
  | MissingHashTable => "missing_hash_table"
  | HashHeaderReadFailed => "hash_header_read_failed"
  | HashRangeOverflow => "hash_range_overflow"
  | HashReadFailed => "hash_read_failed"
  | InvalidSysvHash => "invalid_sysv_hash"
  | InvalidGnuHash => "invalid_gnu_hash"
  | HashLimitExceeded => "hash_limit_exceeded"
  | HashIndexOutOfRange => "hash_index_out_of_range"
  | UnterminatedGnuChain => "unterminated_gnu_chain"
  | SymbolCountExceeded => "symbol_count_exceeded"
  | SymbolRangeOverflow => "symbol_range_overflow"
  | SymbolReadFailed => "symbol_read_failed"
  end.
End Elf32SymbolIndexError.

Record Elf32Symbol := {
  sym_name_offset : Z;
  sym_value : Z;
  sym_size : Z;
  sym_binding : Z;
  sym_type : Z;
  sym_visibility : Z;
  sym_raw_other : Z;
  sym_section_index : Z;
}.

Module Elf32SymbolReadError.
Inductive t : Set := None | InvalidMetadata | SymbolIndexOutOfRange | SymbolReadFailed.

Definition to_string (error : t) : string :=
  match error with
  | None => "none"
  | InvalidMetadata => "invalid_metadata"
  | SymbolIndexOutOfRange => "symbol_index_out_of_range"
  | SymbolReadFailed => "symbol_read_failed"
  end.
End Elf32SymbolReadError.

Record Elf32ResolvedSymbol := {
  rsym_symbol_index : Z;
  rsym_name : list Z;
  rsym_symbol : Elf32Symbol;
  rsym_guest_value : Z;
}.

Module Elf32SymbolLookupError.
Inductive t : Set :=
| None | InvalidOptions | InvalidMetadata | InvalidLookupName | UnsupportedVersioning
| VersionReadFailed | InvalidVersionMetadata | VersionRecordLimitExceeded | VersionIndexNotFound
| VersionDependencyNotFound | HashReadFailed | HashIndexOutOfRange | InvalidHashChain
| SymbolReadFailed | StringReadFailed | SymbolNotFound | UnsupportedBinding | UnsupportedType
| UnsupportedVisibility | UnsupportedSectionIndex | ValueOverflow.

Definition to_string (error : t) : string :=
  match error with
  | None => "none"
  | InvalidOptions => "invalid_options"
  | InvalidMetadata => "invalid_metadata"
  | InvalidLookupName => "invalid_lookup_name"
  | UnsupportedVersioning => "unsupported_versioning"
  | VersionReadFailed => "version_read_failed"
  | InvalidVersionMetadata => "invalid_version_metadata"
  | VersionRecordLimitExceeded => "version_record_limit_exceeded"
  | VersionIndexNotFound => "version_index_not_found"
  | VersionDependencyNotFound => "version_dependency_not_found"
  | HashReadFailed => "hash_read_failed"
  | HashIndexOutOfRange => "hash_index_out_of_range"
  | InvalidHashChain => "invalid_hash_chain"
  | SymbolReadFailed => "symbol_read_failed"
  | StringReadFailed => "string_read_failed"
  | SymbolNotFound => "symbol_not_found"
  | UnsupportedBinding => "unsupported_binding"
  | UnsupportedType => "unsupported_type"
  | UnsupportedVisibility => "unsupported_visibility"
  | UnsupportedSectionIndex => "unsupported_section_index"
  | ValueOverflow => "value_overflow"
  end.
End Elf32SymbolLookupError.

Module Elf32GraphSymbolLookupError.
Inductive t : Set :=
| None | InvalidOptions | InvalidGraphStart | InvalidGraphEdge | InvalidGlobalScopeObject
| ScopeLimitExceeded | IndexBuildFailed | ObjectLookupFailed | SymbolNotFound.

Definition to_string (error : t) : string :=
  match error with
  | None => "none"
  | InvalidOptions => "invalid_options"
  | InvalidGraphStart => "invalid_graph_start"
  | InvalidGraphEdge => "invalid_graph_edge"
  | InvalidGlobalScopeObject => "invalid_global_scope_object"
  | ScopeLimitExceeded => "scope_limit_exceeded"
  | IndexBuildFailed => "index_build_failed"
  | ObjectLookupFailed => "object_lookup_failed"
  | SymbolNotFound => "symbol_not_found"
  end.
End Elf32GraphSymbolLookupError.

Definition kElf32WordBits : Z := 32.
Definition kStbLocal : Z := 0.
Definition kStbGlobal : Z := 1.
Definition kStbWeak : Z := 2.
Definition kSttNotype : Z := 0.
Definition kSttObject : Z := 1.
Definition kSttFunc : Z := 2.
Definition kSttGnuIfunc : Z := 10.
Definition kStvDefault : Z := 0.
Definition kStvInternal : Z := 1.
Definition kStvHidden : Z := 2.
Definition kStvProtected : Z := 3.
Definition kShnUndef : Z := 0.
Definition kShnLoReserve : Z := 0xff00.
Definition kShnAbs : Z := 0xfff1.
Definition kShnCommon : Z := 0xfff2.
Definition kShnXindex : Z := 0xffff.

(** [version_options] *)
Definition version_options (options : Elf32SymbolLookupOptions) : Elf32SymbolVersionOptions :=
  {| vo_max_records := so_max_version_records options;
     vo_max_name_bytes := so_max_name_bytes options |}.

Definition version_lookup_error (error : Elf32SymbolVersionError.t) : Elf32SymbolLookupError.t :=
  match error with
  | Elf32SymbolVersionError.None => Elf32SymbolLookupError.None
  | Elf32SymbolVersionError.InvalidOptions => Elf32SymbolLookupError.InvalidOptions
  | Elf32SymbolVersionError.ReadFailed => Elf32SymbolLookupError.VersionReadFailed
  | Elf32SymbolVersionError.StringReadFailed => Elf32SymbolLookupError.StringReadFailed
  | Elf32SymbolVersionError.RecordLimitExceeded => Elf32SymbolLookupError.VersionRecordLimitExceeded
  | Elf32SymbolVersionError.VersionIndexNotFound => Elf32SymbolLookupError.VersionIndexNotFound
  | Elf32SymbolVersionError.DependencyNotFound => Elf32SymbolLookupError.VersionDependencyNotFound
  | Elf32SymbolVersionError.InvalidMetadata | Elf32SymbolVersionError.InvalidRecord =>
      Elf32SymbolLookupError.InvalidVersionMetadata
  end.

(** ** Hash functions *)
Definition sysv_hash_step (hash byte : Z) : Z :=
  let hash := u32 (u32 (Z.shiftl hash 4) + byte) in
  let high := Z.land hash 0xf0000000 in
  if negb (high =? 0)
  then Z.land (Z.lxor hash (Z.shiftr high 24)) (UINT32_MAX - high)
  else hash.

Definition sysv_hash (name : list Z) : Z := foldl sysv_hash_step 0 name.

Definition gnu_hash (name : list Z) : Z :=
  foldl (fun hash byte => u32 (u32 (hash * 33) + byte)) 5381 name.

Definition is_power_of_two (value : Z) : bool :=
  negb (value =? 0) && (Z.land value (u32 (value - 1)) =? 0).

Section lookup.
Context {M : Type} `{GuestMemory M}.
Context (memory : M).

(** ** Reading words and symbols *)
Definition read_u32 (address : Z) : option Z :=
  bytes ← gm_read memory address 4; Some (decode_u32_le bytes 0).

Definition readable_range (address size : Z) : bool :=
  if size =? 0 then true
  else range_fits address size
       && forallb (readable_chunk memory address size) (strided 0 size kReadValidationChunkSize).

Definition read_indexed_word (base index : Z) : option Z :=
  address ← checked_add_guest_address base (u64 (index * 4)); read_u32 address.

Definition decode_symbol (bytes : list Z) : Elf32Symbol :=
  {| sym_name_offset := decode_u32_le bytes 0;
     sym_value := decode_u32_le bytes 4;
     sym_size := decode_u32_le bytes 8;
     sym_binding := u8 (Z.shiftr (byte_at bytes 12) 4);
     sym_type := Z.land (byte_at bytes 12) 0x0f;
     sym_visibility := Z.land (byte_at bytes 13) 0x03;
     sym_raw_other := byte_at bytes 13;
     sym_section_index := decode_u16_le bytes 14 |}.

Definition read_symbol (table : Elf32SymbolTableMetadata) (symbol_index : Z) : option Elf32Symbol :=
  address ← checked_add_guest_address (sy_guest_address table)
              (u64 (symbol_index * kElf32SymbolEntrySize));
  bytes ← gm_read memory address kElf32SymbolEntrySize;
  Some (decode_symbol bytes).

(** ** [build_elf32_symbol_index] *)
Definition index_result := result Elf32SymbolIndexError.t.

(** The bucket and chain loops of the SysV table: every word is 0 or an index
    below [chain_count]. *)
Definition check_sysv_word (base chain_count : Z) (i : Z) : index_result unit :=
  word ← or_fail (read_indexed_word base i) Elf32SymbolIndexError.HashReadFailed;
  fail_if ((chain_count <=? word) && negb (word =? 0)) Elf32SymbolIndexError.HashIndexOutOfRange.

Definition check_sysv_words (base chain_count count : Z) : index_result unit :=
  foldE (fun _ i => check_sysv_word base chain_count i) tt (seqZ 0 count).

Definition build_sysv_index (options : Elf32SymbolLookupOptions) (table : Elf32HashTableMetadata)
    : index_result Elf32SysvHashIndex :=
  let hash_address := ht_guest_address table in
  bucket_count ← or_fail (read_u32 hash_address) Elf32SymbolIndexError.HashHeaderReadFailed;
  chain_count ← or_fail (second ← checked_add_guest_address hash_address 4; read_u32 second)
                  Elf32SymbolIndexError.HashHeaderReadFailed;
  fail_if ((bucket_count =? 0) || (chain_count =? 0)) Elf32SymbolIndexError.InvalidSysvHash ;;
  fail_if (so_max_hash_buckets options <? bucket_count) Elf32SymbolIndexError.HashLimitExceeded ;;
  fail_if (so_max_symbols options <? chain_count) Elf32SymbolIndexError.SymbolCountExceeded ;;
  let bucket_bytes := u64 (bucket_count * 4) in
  let chain_bytes := u64 (chain_count * 4) in
  let total_bytes := u64 (u64 (8 + bucket_bytes) + chain_bytes) in
  fail_if (negb (range_fits hash_address total_bytes)) Elf32SymbolIndexError.HashRangeOverflow ;;
  '(buckets_address, chains_address) ←
    or_fail (buckets ← checked_add_guest_address hash_address 8;
             chains ← checked_add_guest_address buckets bucket_bytes;
             Some (buckets, chains)) Elf32SymbolIndexError.HashRangeOverflow;
  fail_if (negb (readable_range hash_address total_bytes)) Elf32SymbolIndexError.HashReadFailed ;;
  check_sysv_words buckets_address chain_count bucket_count ;;
  check_sysv_words chains_address chain_count chain_count ;;
  Ok {| sh_bucket_count := bucket_count; sh_chain_count := chain_count;
        sh_buckets_guest_address := buckets_address; sh_chains_guest_address := chains_address |}.

(** The header of a GNU hash table. *)
Record gnu_header := {
  gn_bucket_count : Z;
  gn_symbol_offset : Z;
  gn_bloom_word_count : Z;
  gn_bloom_shift : Z;
}.

Definition read_gnu_header (hash_address : Z) : index_result gnu_header :=
  let word i :=
    or_fail (address ← checked_add_guest_address hash_address (u64 (i * 4)); read_u32 address)
      Elf32SymbolIndexError.HashHeaderReadFailed in
  w0 ← word 0; w1 ← word 1; w2 ← word 2; w3 ← word 3;
  Ok {| gn_bucket_count := w0; gn_symbol_offset := w1; gn_bloom_word_count := w2;
        gn_bloom_shift := w3 |}.

Definition check_gnu_header (options : Elf32SymbolLookupOptions) (h : gnu_header)
    : index_result unit :=
  fail_if ((gn_bucket_count h =? 0) || (gn_symbol_offset h =? 0)
           || negb (is_power_of_two (gn_bloom_word_count h))
           || (kElf32WordBits <=? gn_bloom_shift h)) Elf32SymbolIndexError.InvalidGnuHash ;;
  fail_if ((so_max_hash_buckets options <? gn_bucket_count h)
           || (so_max_gnu_bloom_words options <? gn_bloom_word_count h))
    Elf32SymbolIndexError.HashLimitExceeded ;;
  fail_if (so_max_symbols options <? gn_symbol_offset h) Elf32SymbolIndexError.SymbolCountExceeded.

(** One iteration of the bucket loop; the state is [maximum_bucket]. *)
Definition gnu_bucket (options : Elf32SymbolLookupOptions) (symbol_offset buckets_address : Z)
    (sysv_symbol_count : option Z) (maximum_bucket i : Z) : index_result Z :=
  symbol_index ← or_fail (read_indexed_word buckets_address i) Elf32SymbolIndexError.HashReadFailed;
  if symbol_index =? 0 then Ok maximum_bucket
  else
    fail_if (symbol_index <? symbol_offset) Elf32SymbolIndexError.InvalidGnuHash ;;
    fail_if (so_max_symbols options <=? symbol_index) Elf32SymbolIndexError.SymbolCountExceeded ;;
    fail_if (match sysv_symbol_count with Some n => n <=? symbol_index | None => false end)
      Elf32SymbolIndexError.HashIndexOutOfRange ;;
    Ok (Z.max maximum_bucket symbol_index).

(** The inner loop of the dual-table check: does the chain from [symbol_index]
    reach a terminator below [symbol_count]? *)
Definition gnu_chain_step (symbol_offset chains_address symbol_count : Z) (symbol_index : Z)
    : Z + index_result unit :=
  if symbol_count <=? symbol_index then inr (Err Elf32SymbolIndexError.UnterminatedGnuChain)
  else
    match read_indexed_word chains_address (u32 (u64 (symbol_index - symbol_offset))) with
    | None => inr (Err Elf32SymbolIndexError.HashReadFailed)
    | Some chain_hash =>
        if negb (Z.land chain_hash 1 =? 0) then inr (Ok tt) else inl (u32 (symbol_index + 1))
    end.

(** Symbol indexes are 32-bit. *)
Definition chain_fuel : positive := 2 ^ 33.

Definition run_chain {A} (stuck : A) (step : Z -> Z + A) (start : Z) : A :=
  match loop chain_fuel step start with inr r => r | inl _ => stuck end.

Definition check_gnu_bucket_chain (symbol_offset buckets_address chains_address symbol_count : Z)
    (bucket_index : Z) : index_result unit :=
  bucket_symbol ← or_fail (read_indexed_word buckets_address bucket_index)
                    Elf32SymbolIndexError.HashReadFailed;
  if bucket_symbol =? 0 then Ok tt
  else run_chain (Err Elf32SymbolIndexError.None)
         (gnu_chain_step symbol_offset chains_address symbol_count) bucket_symbol.

(** The branch with an authoritative SysV symbol count. *)
Definition check_dual_hash (h : gnu_header) (buckets_address chains_address symbol_count : Z)
    : index_result Z :=
  fail_if (symbol_count <? gn_symbol_offset h) Elf32SymbolIndexError.InvalidGnuHash ;;
  let chain_bytes := u64 (u64 (symbol_count - gn_symbol_offset h) * 4) in
  fail_if (negb (range_fits chains_address chain_bytes)) Elf32SymbolIndexError.HashRangeOverflow ;;
  fail_if (negb (readable_range chains_address chain_bytes)) Elf32SymbolIndexError.HashReadFailed ;;
  foldE (fun _ i => check_gnu_bucket_chain (gn_symbol_offset h) buckets_address chains_address
                      symbol_count i) tt (seqZ 0 (gn_bucket_count h)) ;;
  Ok symbol_count.

(** The branch that derives the symbol count from the last chain. *)
Definition gnu_count_step (options : Elf32SymbolLookupOptions) (symbol_offset chains_address : Z)
    (symbol_index : Z) : Z + index_result Z :=
  if so_max_symbols options <=? symbol_index
  then inr (Err Elf32SymbolIndexError.UnterminatedGnuChain)
  else
    match checked_add_guest_address chains_address
            (u64 (u64 (symbol_index - symbol_offset) * 4)) with
    | None => inr (Err Elf32SymbolIndexError.HashRangeOverflow)
    | Some chain_address =>
        match read_u32 chain_address with
        | None => inr (Err Elf32SymbolIndexError.HashReadFailed)
        | Some chain_hash =>
            if negb (Z.land chain_hash 1 =? 0)
            then if symbol_index =? UINT32_MAX
                 then inr (Err Elf32SymbolIndexError.SymbolCountExceeded)
                 else inr (Ok (u32 (symbol_index + 1)))
            else inl (u32 (symbol_index + 1))
        end
    end.

Definition count_gnu_symbols (options : Elf32SymbolLookupOptions) (h : gnu_header)
    (chains_address maximum_bucket : Z) : index_result Z :=
  if maximum_bucket =? 0 then Ok (gn_symbol_offset h)
  else run_chain (Err Elf32SymbolIndexError.None)
         (gnu_count_step options (gn_symbol_offset h) chains_address) maximum_bucket.

(** The GNU part of the index: the table and the symbol count. *)
Definition build_gnu_index (options : Elf32SymbolLookupOptions) (table : Elf32HashTableMetadata)
    (sysv_symbol_count : option Z) : index_result (Elf32GnuHashIndex * Z) :=
  let hash_address := ht_guest_address table in
  h ← read_gnu_header hash_address;
  check_gnu_header options h ;;
  let bloom_bytes := u64 (gn_bloom_word_count h * 4) in
  let bucket_bytes := u64 (gn_bucket_count h * 4) in
  let prefix_bytes := u64 (u64 (16 + bloom_bytes) + bucket_bytes) in
  fail_if (negb (range_fits hash_address prefix_bytes)) Elf32SymbolIndexError.HashRangeOverflow ;;
  '(bloom_address, buckets_address, chains_address) ←
    or_fail (bloom ← checked_add_guest_address hash_address 16;
             buckets ← checked_add_guest_address bloom bloom_bytes;
             chains ← checked_add_guest_address buckets bucket_bytes;
             Some (bloom, buckets, chains)) Elf32SymbolIndexError.HashRangeOverflow;
  fail_if (negb (readable_range hash_address prefix_bytes)) Elf32SymbolIndexError.HashReadFailed ;;
  maximum_bucket ← foldE (gnu_bucket options (gn_symbol_offset h) buckets_address sysv_symbol_count)
                     0 (seqZ 0 (gn_bucket_count h));
  symbol_count ←
    match sysv_symbol_count with
    | Some n => check_dual_hash h buckets_address chains_address n
    | None => count_gnu_symbols options h chains_address maximum_bucket
    end;
  Ok ({| gh_bucket_count := gn_bucket_count h; gh_symbol_offset := gn_symbol_offset h;
         gh_bloom_word_count := gn_bloom_word_count h; gh_bloom_shift := gn_bloom_shift h;
         gh_bloom_guest_address := bloom_address; gh_buckets_guest_address := buckets_address;
         gh_chains_guest_address := chains_address |}, symbol_count).

(** The symbol-table extent check. *)
Definition check_symbol_extent (options : Elf32SymbolLookupOptions)
    (symbols : Elf32SymbolTableMetadata) (symbol_count : Z) : index_result unit :=
  fail_if (symbol_count =? 0) Elf32SymbolIndexError.InvalidGnuHash ;;
  fail_if (so_max_symbols options <? symbol_count) Elf32SymbolIndexError.SymbolCountExceeded ;;
  let symbol_bytes := u64 (symbol_count * kElf32SymbolEntrySize) in
  fail_if (negb (range_fits (sy_guest_address symbols) symbol_bytes))
    Elf32SymbolIndexError.SymbolRangeOverflow ;;
  fail_if (negb (readable_range (sy_guest_address symbols) symbol_bytes))
    Elf32SymbolIndexError.SymbolReadFailed.

Definition build_elf32_symbol_index (metadata : Elf32LinkerMetadata)
    (options : Elf32SymbolLookupOptions) : index_result Elf32SymbolIndex :=
  fail_if ((so_max_symbols options =? 0) || (so_max_hash_buckets options =? 0)
           || (so_max_gnu_bloom_words options =? 0)) Elf32SymbolIndexError.InvalidOptions ;;
  strings ← or_fail (lm_string_table metadata) Elf32SymbolIndexError.MissingStringTable;
  symbols ← or_fail (lm_symbol_table metadata) Elf32SymbolIndexError.MissingSymbolTable;
  fail_if (negb (bool_decide (is_Some (lm_sysv_hash_table metadata)))
           && negb (bool_decide (is_Some (lm_gnu_hash_table metadata))))
    Elf32SymbolIndexError.MissingHashTable ;;
  sysv ← match lm_sysv_hash_table metadata with
         | Some table => i ← build_sysv_index options table; Ok (Some i)
         | None => Ok None
         end;
  gnu ← match lm_gnu_hash_table metadata with
        | Some table => g ← build_gnu_index options table (sh_chain_count <$> sysv); Ok (Some g)
        | None => Ok None
        end;
  let symbol_count :=
    match gnu, sysv with
    | Some (_, n), _ => n
    | None, Some i => sh_chain_count i
    | None, None => 0
    end in
  check_symbol_extent options symbols symbol_count ;;
  Ok {| ix_symbol_count := symbol_count; ix_sysv_hash := sysv; ix_gnu_hash := fst <$> gnu |}.

(** [read_elf32_symbol_entry] *)
Definition read_elf32_symbol_entry (metadata : Elf32LinkerMetadata) (index : Elf32SymbolIndex)
    (symbol_index : Z) : result Elf32SymbolReadError.t Elf32Symbol :=
  table ← or_fail (lm_symbol_table metadata) Elf32SymbolReadError.InvalidMetadata;
  fail_if (negb (sy_entry_size table =? kElf32SymbolEntrySize) || (ix_symbol_count index =? 0))
    Elf32SymbolReadError.InvalidMetadata ;;
  fail_if (ix_symbol_count index <=? symbol_index) Elf32SymbolReadError.SymbolIndexOutOfRange ;;
  or_fail (read_symbol table symbol_index) Elf32SymbolReadError.SymbolReadFailed.

(** ** [lookup_elf32_symbol_impl] *)
Record lookup_failure := LookupFailure {
  lf_error : Elf32SymbolLookupError.t;
  lf_string_error : Elf32LinkerStringError.t;
}.

Definition lookup_result := result lookup_failure.

Definition lookup_fails (error : Elf32SymbolLookupError.t) : lookup_failure :=
  LookupFailure error Elf32LinkerStringError.None.

(** [Elf32LoadedDependencyObject version_object] with only [load_bias] and the
    metadata set. *)
Definition version_object (load_bias : Z) (metadata : Elf32LinkerMetadata)
    : Elf32LoadedDependencyObject :=
  {| identity := []; image := [];
     load := {| lr_load_bias := load_bias; lr_entry := 0; lr_segments := [];
                lr_dynamic_segment := None; lr_relro_segments := [] |};
     dynamic_entries := []; linker_metadata := metadata;
     linker_strings := {| ls_soname := None; ls_needed := [] |}; dependencies := [] |}.

(** Entries that are ordinary misses. *)
Definition ordinary_miss (symbol : Elf32Symbol) : bool :=
  (sym_binding symbol =? kStbLocal) || (sym_section_index symbol =? kShnUndef)
  || (sym_visibility symbol =? kStvInternal) || (sym_visibility symbol =? kStvHidden).

(** The semantics checks of a name match; [raw] is the entry read again. *)
Definition check_candidate (symbol : Elf32Symbol) (raw : option (list Z)) : lookup_result unit :=
  fail_if (negb (sym_binding symbol =? kStbGlobal) && negb (sym_binding symbol =? kStbWeak))
    (lookup_fails Elf32SymbolLookupError.UnsupportedBinding) ;;
  raw ← or_fail raw (lookup_fails Elf32SymbolLookupError.SymbolReadFailed);
  fail_if (negb (Z.land (byte_at raw 13) 0xfc =? 0)
           || (negb (sym_visibility symbol =? kStvDefault)
               && negb (sym_visibility symbol =? kStvProtected)))
    (lookup_fails Elf32SymbolLookupError.UnsupportedVisibility) ;;
  fail_if ((sym_section_index symbol =? kShnCommon) || (sym_section_index symbol =? kShnXindex)
           || ((kShnLoReserve <=? sym_section_index symbol)
               && negb (sym_section_index symbol =? kShnAbs)))
    (lookup_fails Elf32SymbolLookupError.UnsupportedSectionIndex) ;;
  fail_if (negb (sym_type symbol =? kSttNotype) && negb (sym_type symbol =? kSttObject)
           && negb (sym_type symbol =? kSttFunc))
    (lookup_fails Elf32SymbolLookupError.UnsupportedType) ;;
  fail_if (sym_type symbol =? kSttGnuIfunc) (lookup_fails Elf32SymbolLookupError.UnsupportedType).

(** The value of an accepted candidate: load bias plus [st_value], unless the
    symbol is absolute. *)
Definition candidate_value (load_bias : Z) (symbol : Elf32Symbol) : lookup_result Z :=
  if negb (sym_section_index symbol =? kShnAbs)
  then or_fail (checked_add_guest_address load_bias (sym_value symbol))
         (lookup_fails Elf32SymbolLookupError.ValueOverflow)
  else Ok (sym_value symbol).

(** The lambda [evaluate_candidate]; [Ok None] is [std::nullopt] (go on), [Err] and
    [Ok (Some _)] end the lookup. *)
Definition evaluate_candidate (load_bias : Z) (metadata : Elf32LinkerMetadata)
    (strings : Elf32StringTableMetadata) (symbols : Elf32SymbolTableMetadata)
    (index : Elf32SymbolIndex) (name : list Z) (options : Elf32SymbolLookupOptions)
    (requirement : option Elf32SymbolVersionRequirement) (symbol_index : Z)
    : lookup_result (option Elf32ResolvedSymbol) :=
  fail_if ((symbol_index =? 0) || (ix_symbol_count index <=? symbol_index))
    (lookup_fails Elf32SymbolLookupError.HashIndexOutOfRange) ;;
  symbol ← or_fail (read_symbol symbols symbol_index)
             (lookup_fails Elf32SymbolLookupError.SymbolReadFailed);
  symbol_name ← map_err (fun e => LookupFailure Elf32SymbolLookupError.StringReadFailed e)
    (read_elf32_string_table_entry memory strings (sym_name_offset symbol)
       (so_max_name_bytes options));
  if negb (bool_decide (symbol_name = name)) then Ok None
  else if ordinary_miss symbol then Ok None
  else
    check_candidate symbol
      (raw_address ← checked_add_guest_address (sy_guest_address symbols)
                       (u64 (symbol_index * kElf32SymbolEntrySize));
       gm_read memory raw_address kElf32SymbolEntrySize) ;;
    matches ← map_err (fun f => LookupFailure (version_lookup_error (vf_error f)) (vf_string_error f))
      (match_elf32_symbol_version memory (version_options options)
         (version_object load_bias metadata) symbol_index requirement);
    if negb matches then Ok None
    else
      guest_value ← candidate_value load_bias symbol;
      Ok (Some {| rsym_symbol_index := symbol_index; rsym_name := symbol_name;
                  rsym_symbol := symbol; rsym_guest_value := guest_value |}).

(** The GNU Bloom filter test. *)
Definition gnu_bloom_index (hash_index : Elf32GnuHashIndex) (hash : Z) : Z :=
  Z.land (hash / kElf32WordBits) (u32 (gh_bloom_word_count hash_index - 1)).

Definition gnu_bloom_rejects (hash_index : Elf32GnuHashIndex) (hash bloom_word : Z) : bool :=
  let first_bit := Z.shiftl 1 (hash mod kElf32WordBits) in
  let second_bit := Z.shiftl 1 (Z.shiftr hash (gh_bloom_shift hash_index) mod kElf32WordBits) in
  (Z.land bloom_word first_bit =? 0) || (Z.land bloom_word second_bit =? 0).

(** One iteration of the GNU chain loop. *)
Definition gnu_lookup_step (evaluate : Z -> lookup_result (option Elf32ResolvedSymbol))
    (hash_index : Elf32GnuHashIndex) (symbol_count hash symbol_index : Z)
    : Z + lookup_result Elf32ResolvedSymbol :=
  if symbol_count <=? symbol_index
  then inr (Err (lookup_fails Elf32SymbolLookupError.InvalidHashChain))
  else
    match read_indexed_word (gh_chains_guest_address hash_index)
            (u32 (symbol_index - gh_symbol_offset hash_index)) with
    | None => inr (Err (lookup_fails Elf32SymbolLookupError.HashReadFailed))
    | Some chain_hash =>
        match (if Z.lor chain_hash 1 =? Z.lor hash 1 then evaluate symbol_index else Ok None) with
        | Err e => inr (Err e)
        | Ok (Some r) => inr (Ok r)
        | Ok None =>
            if negb (Z.land chain_hash 1 =? 0)
            then inr (Err (lookup_fails Elf32SymbolLookupError.SymbolNotFound))
            else inl (u32 (symbol_index + 1))
        end
    end.

Definition gnu_lookup (evaluate : Z -> lookup_result (option Elf32ResolvedSymbol))
    (hash_index : Elf32GnuHashIndex) (symbol_count : Z) (name : list Z)
    : lookup_result Elf32ResolvedSymbol :=
  let hash := gnu_hash name in
  bloom_word ← or_fail (read_indexed_word (gh_bloom_guest_address hash_index)
                          (gnu_bloom_index hash_index hash))
                 (lookup_fails Elf32SymbolLookupError.HashReadFailed);
  fail_if (gnu_bloom_rejects hash_index hash bloom_word)
    (lookup_fails Elf32SymbolLookupError.SymbolNotFound) ;;
  symbol_index ← or_fail (read_indexed_word (gh_buckets_guest_address hash_index)
                            (hash mod gh_bucket_count hash_index))
                   (lookup_fails Elf32SymbolLookupError.HashReadFailed);
  fail_if (symbol_index =? 0) (lookup_fails Elf32SymbolLookupError.SymbolNotFound) ;;
  fail_if ((symbol_index <? gh_symbol_offset hash_index) || (symbol_count <=? symbol_index))
    (lookup_fails Elf32SymbolLookupError.HashIndexOutOfRange) ;;
  run_chain (Err (lookup_fails Elf32SymbolLookupError.None))
    (gnu_lookup_step evaluate hash_index symbol_count hash) symbol_index.

(** One iteration of the SysV chain loop, with the hop counter. *)
Definition sysv_lookup_step (evaluate : Z -> lookup_result (option Elf32ResolvedSymbol))
    (hash_index : Elf32SysvHashIndex) (symbol_count : Z) (s : Z * Z)
    : (Z * Z) + lookup_result Elf32ResolvedSymbol :=
  let '(symbol_index, hops) := s in
  if negb (symbol_index =? 0) && (hops <? symbol_count)
  then
    match evaluate symbol_index with
    | Err e => inr (Err e)
    | Ok (Some r) => inr (Ok r)
    | Ok None =>
        match read_indexed_word (sh_chains_guest_address hash_index) symbol_index with
        | None => inr (Err (lookup_fails Elf32SymbolLookupError.HashReadFailed))
        | Some next =>
            if (symbol_count <=? next) && negb (next =? 0)
            then inr (Err (lookup_fails Elf32SymbolLookupError.HashIndexOutOfRange))
            else inl (next, u32 (hops + 1))
        end
    end
  else if negb (symbol_index =? 0)
  then inr (Err (lookup_fails Elf32SymbolLookupError.InvalidHashChain))
  else inr (Err (lookup_fails Elf32SymbolLookupError.SymbolNotFound)).

Definition sysv_lookup (evaluate : Z -> lookup_result (option Elf32ResolvedSymbol))
    (hash_index : Elf32SysvHashIndex) (symbol_count : Z) (name : list Z)
    : lookup_result Elf32ResolvedSymbol :=
  let hash := sysv_hash name in
  symbol_index ← or_fail (read_indexed_word (sh_buckets_guest_address hash_index)
                            (hash mod sh_bucket_count hash_index))
                   (lookup_fails Elf32SymbolLookupError.HashReadFailed);
  fail_if ((symbol_count <=? symbol_index) && negb (symbol_index =? 0))
    (lookup_fails Elf32SymbolLookupError.HashIndexOutOfRange) ;;
  match loop chain_fuel (sysv_lookup_step evaluate hash_index symbol_count) (symbol_index, 0) with
  | inr r => r
  | inl _ => Err (lookup_fails Elf32SymbolLookupError.None)
  end.

Definition lookup_elf32_symbol_impl (load_bias : Z) (metadata : Elf32LinkerMetadata)
    (index : Elf32SymbolIndex) (name : list Z) (options : Elf32SymbolLookupOptions)
    (requirement : option Elf32SymbolVersionRequirement) : lookup_result Elf32ResolvedSymbol :=
  fail_if (so_max_name_bytes options =? 0) (lookup_fails Elf32SymbolLookupError.InvalidOptions) ;;
  fail_if (bool_decide (name = [])) (lookup_fails Elf32SymbolLookupError.InvalidLookupName) ;;
  match lm_string_table metadata, lm_symbol_table metadata with
  | Some strings, Some symbols =>
      fail_if (ix_symbol_count index =? 0) (lookup_fails Elf32SymbolLookupError.InvalidMetadata) ;;
      let evaluate :=
        evaluate_candidate load_bias metadata strings symbols index name options requirement in
      match ix_gnu_hash index, ix_sysv_hash index with
      | Some hash_index, _ => gnu_lookup evaluate hash_index (ix_symbol_count index) name
      | None, Some hash_index => sysv_lookup evaluate hash_index (ix_symbol_count index) name
      | None, None => Err (lookup_fails Elf32SymbolLookupError.InvalidMetadata)
      end
  | _, _ => Err (lookup_fails Elf32SymbolLookupError.InvalidMetadata)
  end.

Definition lookup_elf32_symbol (load_bias : Z) (metadata : Elf32LinkerMetadata)
    (index : Elf32SymbolIndex) (name : list Z) (options : Elf32SymbolLookupOptions)
    : lookup_result Elf32ResolvedSymbol :=
  lookup_elf32_symbol_impl load_bias metadata index name options None.

(** ** [lookup_elf32_graph_symbol_impl] *)
Record Elf32GraphResolvedSymbol := {
  gsym_object_index : nat;
  gsym_symbol : Elf32ResolvedSymbol;
}.

Record graph_failure := GraphFailure {
  gf_error : Elf32GraphSymbolLookupError.t;
  gf_failing_object : option nat;
  gf_index_error : Elf32SymbolIndexError.t;
  gf_lookup_error : Elf32SymbolLookupError.t;
  gf_string_error : Elf32LinkerStringError.t;
}.

Definition graph_result := result graph_failure Elf32GraphResolvedSymbol.

(** [graph_failure(error, failing_object)] *)
Definition graph_fails (error : Elf32GraphSymbolLookupError.t) (failing_object : option nat)
    : graph_failure :=
  GraphFailure error failing_object Elf32SymbolIndexError.None Elf32SymbolLookupError.None
    Elf32LinkerStringError.None.

Section graph_lookup.
Context (graph : Elf32DependencyGraph) (name : list Z) (options : Elf32SymbolLookupOptions).
Context (requirement : option Elf32SymbolVersionRequirement).

(** Index construction and lookup in one object; [None] is an ordinary miss. *)
Definition probe_object (object_index : nat) (object : Elf32LoadedDependencyObject)
    : option graph_result :=
  if bool_decide (is_Some (lm_symbol_table (linker_metadata object)))
  then
    match build_elf32_symbol_index (linker_metadata object) options with
    | Err e =>
        Some (Err (GraphFailure Elf32GraphSymbolLookupError.IndexBuildFailed (Some object_index) e
                     Elf32SymbolLookupError.None Elf32LinkerStringError.None))
    | Ok index =>
        match lookup_elf32_symbol_impl (lr_load_bias (load object)) (linker_metadata object) index
                name options requirement with
        | Ok symbol => Some (Ok {| gsym_object_index := object_index; gsym_symbol := symbol |})
        | Err f =>
            match lf_error f with
            | Elf32SymbolLookupError.SymbolNotFound => None
            | e => Some (Err (GraphFailure Elf32GraphSymbolLookupError.ObjectLookupFailed
                                (Some object_index) Elf32SymbolIndexError.None e
                                (lf_string_error f)))
            end
        end
    end
  else None.

(** [searched] and [scope_objects]. *)
Record search_state := {
  searched : list bool;
  scope_objects : Z;
}.

(** The lambda [search_object]: [inr] ends the lookup. *)
Definition search_object (s : search_state) (object_index : nat)
    (invalid_error : Elf32GraphSymbolLookupError.t) : search_state + graph_result :=
  match objects graph !! object_index with
  | None => inr (Err (graph_fails invalid_error (Some object_index)))
  | Some object =>
      if default false (searched s !! object_index) then inl s
      else if so_max_scope_objects options <=? scope_objects s
      then inr (Err (graph_fails Elf32GraphSymbolLookupError.ScopeLimitExceeded (Some object_index)))
      else
        match probe_object object_index object with
        | Some r => inr r
        | None => inl {| searched := <[object_index := true]> (searched s);
                         scope_objects := u32 (scope_objects s + 1) |}
        end
  end.

(** The loop over the global scope. *)
Fixpoint search_objects (s : search_state) (l : list nat) : search_state + graph_result :=
  match l with
  | [] => inl s
  | object_index :: rest =>
      match search_object s object_index Elf32GraphSymbolLookupError.InvalidGlobalScopeObject with
      | inl s => search_objects s rest
      | inr r => inr r
      end
  end.

Record bfs_state := {
  bfs_search : search_state;
  expanded : list bool;
  pending : list nat;
}.

(** The edge loop: append the targets not expanded yet. *)
Fixpoint push_edges (object_index : nat) (expanded : list bool) (pending : list nat)
    (edges : list Elf32DependencyEdge) : result graph_failure (list nat) :=
  match edges with
  | [] => Ok pending
  | edge :: rest =>
      if Z.of_nat (length (objects graph)) <=? Z.of_nat (target_object edge)
      then Err (graph_fails Elf32GraphSymbolLookupError.InvalidGraphEdge (Some object_index))
      else
        push_edges object_index expanded
          (if default false (expanded !! target_object edge) then pending
           else pending ++ [target_object edge]) rest
  end.

(** One iteration of [while (!pending.empty())]. *)
Definition bfs_step (s : bfs_state) : bfs_state + graph_result :=
  match pending s with
  | [] => inr (Err (graph_fails Elf32GraphSymbolLookupError.SymbolNotFound None))
  | object_index :: rest =>
      match objects graph !! object_index with
      | None => inr (Err (graph_fails Elf32GraphSymbolLookupError.InvalidGraphEdge
                            (Some object_index)))
      | Some object =>
          match search_object (bfs_search s) object_index
                  Elf32GraphSymbolLookupError.InvalidGraphEdge with
          | inr r => inr r
          | inl search =>
              if default false (expanded s !! object_index)
              then inl {| bfs_search := search; expanded := expanded s; pending := rest |}
              else
                let expanded := <[object_index := true]> (expanded s) in
                match push_edges object_index expanded rest (dependencies object) with
                | Err f => inr (Err f)
                | Ok pending =>
                    inl {| bfs_search := search; expanded := expanded; pending := pending |}
                end
          end
      end
  end.

(** Each iteration takes one entry off the queue; an object enqueues its edges
    once. *)
Definition bfs_fuel : nat := S (S (length (concat (dependencies <$> objects graph)))).

Definition no_flags : list bool := replicate (length (objects graph)) false.

Definition lookup_elf32_graph_symbol_impl (start_object : nat) (global_scope_objects : list nat)
    (requester_symbolic : bool) : option graph_result :=
  if so_max_scope_objects options =? 0
  then Some (Err (graph_fails Elf32GraphSymbolLookupError.InvalidOptions None))
  else if Z.of_nat (length (objects graph)) <=? Z.of_nat start_object
  then Some (Err (graph_fails Elf32GraphSymbolLookupError.InvalidGraphStart (Some start_object)))
  else
    match list_find (fun i => (length (objects graph) <= i)%nat) global_scope_objects with
    | Some (_, i) =>
        Some (Err (graph_fails Elf32GraphSymbolLookupError.InvalidGlobalScopeObject (Some i)))
    | None =>
        let s0 := {| searched := no_flags; scope_objects := 0 |} in
        match (if requester_symbolic
               then search_object s0 start_object Elf32GraphSymbolLookupError.InvalidGraphStart
               else inl s0) with
        | inr r => Some r
        | inl s1 =>
            match search_objects s1 global_scope_objects with
            | inr r => Some r
            | inl s2 =>
                match loop_nat bfs_fuel bfs_step
                        {| bfs_search := s2; expanded := no_flags; pending := [start_object] |} with
                | inr r => Some r
                | inl _ => None
                end
            end
        end
    end.
End graph_lookup.

Definition lookup_elf32_graph_symbol (graph : Elf32DependencyGraph) (start_object : nat)
    (name : list Z) (options : Elf32SymbolLookupOptions) : option graph_result :=
  lookup_elf32_graph_symbol_impl graph name options None start_object [] false.

Definition lookup_elf32_graph_symbol_for_reference (graph : Elf32DependencyGraph)
    (start_object : nat) (reference_symbol_index : Z) (name : list Z)
    (options : Elf32SymbolLookupOptions) : option graph_result :=
  if so_max_scope_objects options =? 0
  then Some (Err (graph_fails Elf32GraphSymbolLookupError.InvalidOptions None))
  else
    match objects graph !! start_object with
    | None =>
        Some (Err (graph_fails Elf32GraphSymbolLookupError.InvalidGraphStart (Some start_object)))
    | Some start =>
        match resolve_elf32_symbol_version_requirement memory (version_options options) graph
                start_object reference_symbol_index with
        | Err f =>
            Some (Err (GraphFailure Elf32GraphSymbolLookupError.ObjectLookupFailed
                         (Some start_object) Elf32SymbolIndexError.None
                         (version_lookup_error (vf_error f)) (vf_string_error f)))
        | Ok requirement =>
            lookup_elf32_graph_symbol_impl graph name options requirement start_object
              (so_global_scope_objects options) (lm_symbolic (linker_metadata start))
        end
    end.
End lookup.

(** ** The lookup scope *)

(** First occurrences of the elements of [l] that are not in [seen]. *)
Fixpoint firsts (seen l : list nat) : list nat :=
  match l with
  | [] => []
  | x :: l => if decide (x ∈ seen) then firsts seen l else x :: firsts (x :: seen) l
  end.

Lemma firsts_ext seen seen' l : (forall x, x ∈ seen <-> x ∈ seen') -> firsts seen l = firsts seen' l.
Proof.
  revert seen seen'; induction l as [|x l IH]; intros seen seen' Heq; [done|]. cbn.
  destruct (decide (x ∈ seen)) as [H1|H1], (decide (x ∈ seen')) as [H2|H2].
  - by apply IH.
  - exfalso. by apply H2, Heq.
  - exfalso. by apply H1, Heq.
  - f_equal. apply IH. intros y. rewrite !elem_of_cons. naive_solver.
Qed.

Lemma elem_of_firsts seen l x : x ∈ firsts seen l <-> x ∈ l /\ x ∉ seen.
Proof.
  revert seen; induction l as [|y l IH]; intros seen; cbn; [set_solver|].
  case_decide; rewrite ?elem_of_cons, IH; [set_solver|]. rewrite elem_of_cons.
  destruct (decide (x = y)); set_solver.
Qed.

Lemma NoDup_firsts seen l : NoDup (firsts seen l).
Proof.
  revert seen; induction l as [|y l IH]; intros seen; cbn; [constructor|].
  case_decide; [done|]. constructor; [|done]. rewrite elem_of_firsts. set_solver.
Qed.

Lemma firsts_app seen l1 l2 : firsts seen (l1 ++ l2) = firsts seen l1 ++ firsts (l1 ++ seen) l2.
Proof.
  revert seen; induction l1 as [|x l1 IH]; intros seen; cbn; [done|].
  case_decide; rewrite IH; cbn; [|f_equal]; f_equal; apply firsts_ext; set_solver.
Qed.

(** Dropping elements that are already seen changes nothing. *)
Lemma firsts_filter seen l1 l2 l3 :
  firsts seen (l1 ++ filter (fun x => x ∉ seen) l2 ++ l3) = firsts seen (l1 ++ l2 ++ l3).
Proof.
  rewrite !firsts_app. f_equal.
  assert (Hl : forall s, (forall x, x ∈ seen -> x ∈ s) ->
            firsts s (filter (fun x => x ∉ seen) l2) = firsts s l2).
  { induction l2 as [|y l2 IH]; intros s Hs; [done|]. rewrite filter_cons.
    destruct (decide (y ∉ seen)) as [Hn|Hn]; cbn.
    - case_decide; [by apply IH|]. f_equal. apply IH. set_solver.
    - rewrite IH by done. rewrite decide_True; [done|]. apply Hs. by apply dec_stable. }
  rewrite Hl by set_solver. f_equal. apply firsts_ext. intros x.
  rewrite !elem_of_app, list_elem_of_filter. destruct (decide (x ∈ seen)); naive_solver.
Qed.

Definition deps_of (graph : Elf32DependencyGraph) (i : nat) : list nat :=
  match objects graph !! i with Some o => targets o | None => [] end.

(** The breadth-first order of the objects found from [queue], given the
    [done_] ones. *)
Fixpoint bfs_order (graph : Elf32DependencyGraph) (fuel : nat) (done_ queue : list nat) : list nat :=
  match fuel, queue with
  | S fuel, x :: queue =>
      if decide (x ∈ done_) then bfs_order graph fuel done_ queue
      else x :: bfs_order graph fuel (x :: done_)
                  (queue ++ filter (fun t => t ∉ x :: done_) (deps_of graph x))
  | _, _ => []
  end.

Section bfs.
Context (graph : Elf32DependencyGraph).

(** Edges of the objects not done yet, and the queue. *)
Definition open_edges (done_ : list nat) : nat :=
  sum_list_with (fun i => if decide (i ∈ done_) then O else length (deps_of graph i))
    (seq 0 (length (objects graph))).

Definition bfs_measure (done_ queue : list nat) : nat := (length queue + open_edges done_)%nat.

Lemma sum_list_with_remove (f : nat -> nat) (l : list nat) x (d : list nat) :
  NoDup l -> x ∈ l -> x ∉ d ->
  (sum_list_with (fun i => if decide (i ∈ x :: d) then O else f i) l + f x)%nat =
  sum_list_with (fun i => if decide (i ∈ d) then O else f i) l.
Proof.
  intros Hnd Hx Hd. induction l as [|y l IH]; [by apply not_elem_of_nil in Hx|].
  apply NoDup_cons in Hnd as [Hy Hnd]. cbn [sum_list_with].
  apply elem_of_cons in Hx as [<-|Hx].
  - rewrite (decide_True (P := x ∈ x :: d)) by set_solver. rewrite decide_False by done.
    rewrite (Nat.add_comm (f x)). cbn. f_equal.
    assert (Hne : forall i, i ∈ l -> i <> x) by set_solver. clear -Hne.
    induction l as [|z l IH]; [done|]. cbn [sum_list_with]. rewrite IH by set_solver. f_equal.
    apply decide_ext. rewrite elem_of_cons. specialize (Hne z ltac:(by left)). naive_solver.
  - rewrite <- IH by done. rewrite Nat.add_assoc. do 2 f_equal. apply decide_ext. rewrite elem_of_cons.
    split; [intros [->|?]|]; naive_solver.
Qed.

Lemma deps_of_out i : (length (objects graph) <= i)%nat -> deps_of graph i = [].
Proof. intros Hi. unfold deps_of. by rewrite lookup_ge_None_2. Qed.

Lemma bfs_measure_expand done_ queue x :
  x ∉ done_ ->
  (bfs_measure (x :: done_) (queue ++ filter (fun t => t ∉ x :: done_) (deps_of graph x)) <=
   bfs_measure done_ queue)%nat.
Proof.
  intros Hx. unfold bfs_measure, open_edges. rewrite length_app.
  pose proof (length_filter (fun t => t ∉ x :: done_) (deps_of graph x)) as Hf.
  destruct (decide (x < length (objects graph))%nat) as [Hlt|Hge].
  - rewrite <- (sum_list_with_remove (fun i => length (deps_of graph i)) (seq 0 (length (objects graph))) x done_);
      [lia|apply NoDup_seq|by apply elem_of_seq; lia|done].
  - rewrite deps_of_out by lia. cbn.
    assert (Hs : sum_list_with (fun i => if decide (i ∈ x :: done_) then O else length (deps_of graph i))
                   (seq 0 (length (objects graph))) =
                 sum_list_with (fun i => if decide (i ∈ done_) then O else length (deps_of graph i))
                   (seq 0 (length (objects graph)))); [|lia].
    assert (Hin : forall i, i ∈ seq 0 (length (objects graph)) -> i <> x).
    { intros i Hi. apply elem_of_seq in Hi. lia. }
    revert Hin. generalize (seq 0 (length (objects graph))). intros l Hin.
    induction l as [|z l IH]; [done|]. cbn [sum_list_with]. rewrite IH by set_solver. f_equal.
    apply decide_ext. rewrite elem_of_cons. specialize (Hin z ltac:(by left)). naive_solver.
Qed.

(** The order is the solution of the queue equation. *)
Lemma bfs_order_eq fuel done_ queue :
  (bfs_measure done_ queue <= fuel)%nat ->
  bfs_order graph fuel done_ queue =
  firsts done_ (queue ++ concat (deps_of graph <$> bfs_order graph fuel done_ queue)).
Proof.
  revert done_ queue; induction fuel as [|fuel IH]; intros done_ queue Hm.
  { destruct queue; [done|]. unfold bfs_measure in Hm. cbn in Hm. lia. }
  destruct queue as [|x queue]; [done|]. cbn [bfs_order].
  case_decide as Hx.
  - cbn [app firsts]. rewrite decide_True by done. apply IH. unfold bfs_measure in *. cbn in Hm. lia.
  - cbn [app firsts fmap list_fmap concat]. rewrite decide_False by done. f_equal.
    pose proof (bfs_measure_expand done_ queue x Hx) as Hle.
    rewrite IH at 1 by (unfold bfs_measure in *; cbn in Hm; lia).
    rewrite <- app_assoc. apply firsts_filter.
Qed.

Lemma bfs_order_reaches fuel done_ queue root i :
  (forall x, x ∈ queue -> reaches graph root x) ->
  i ∈ bfs_order graph fuel done_ queue -> reaches graph root i.
Proof.
  revert done_ queue; induction fuel as [|fuel IH]; intros done_ queue Hq Hi; cbn in Hi.
  { by apply not_elem_of_nil in Hi. }
  destruct queue as [|x queue]; [by apply not_elem_of_nil in Hi|]. case_decide.
  { eapply IH; [|done]. set_solver. }
  apply elem_of_cons in Hi as [->|Hi]; [apply Hq; set_solver|].
  eapply IH; [|done]. intros t Ht. apply elem_of_app in Ht as [Ht|Ht]; [set_solver|].
  apply list_elem_of_filter in Ht as [_ Ht]. apply rtc_r with x; [apply Hq; set_solver|].
  unfold deps_of in Ht. destruct (objects graph !! x) as [o|] eqn:Eo; [|by apply not_elem_of_nil in Ht].
  by exists o.
Qed.

(** The local scope of [start]. *)
Definition local_scope (start : nat) : list nat := bfs_order graph (bfs_fuel graph) [] [start].


Lemma sum_targets (l : list Elf32LoadedDependencyObject) :
  sum_list_with (fun i => length (match l !! i with Some o => targets o | None => [] end))
    (seq 0 (length l)) = length (concat (dependencies <$> l)).
Proof.
  induction l as [|o l IH]; [done|]. cbn [length seq sum_list_with fmap list_fmap concat].
  rewrite length_app, <- fmap_S_seq, <- IH. cbn [lookup list_lookup]. unfold targets at 1.
  rewrite length_fmap. f_equal. generalize (seq 0 (length l)) as k.
  induction k as [|i k IHk]; [done|]. cbn. by rewrite <- IHk.
Qed.

Lemma bfs_fuel_enough start : (S (bfs_measure [] [start]) <= bfs_fuel graph)%nat.
Proof.
  unfold bfs_measure, bfs_fuel, open_edges. cbn [length Nat.add].
  rewrite <- sum_targets. do 2 apply le_n_S. apply Nat.eq_le_incl.
  generalize (seq 0 (length (objects graph))) as k.
  induction k as [|i k IHk]; [done|]. cbn [sum_list_with]. rewrite IHk. f_equal.
Qed.

Lemma local_scope_eq start :
  local_scope start = firsts [] (start :: concat (deps_of graph <$> local_scope start)).
Proof.
  apply (bfs_order_eq (bfs_fuel graph) [] [start]). pose proof (bfs_fuel_enough start). lia.
Qed.

Lemma elem_of_local_scope start i : i ∈ local_scope start <-> reaches graph start i.
Proof.
  split.
  - apply bfs_order_reaches. intros x Hx. apply list_elem_of_singleton in Hx as ->. apply rtc_refl.
  - intros Hr.
    assert (Hclosed : forall j k, j ∈ local_scope start -> depends_on graph j k -> k ∈ local_scope start).
    { intros j k Hj (o & Ho & Hk). rewrite local_scope_eq. apply elem_of_firsts. split; [|set_solver].
      right. apply list_elem_of_In, in_concat. exists (deps_of graph j). rewrite <- !list_elem_of_In.
      split; [by apply list_elem_of_fmap_2|]. unfold deps_of. by rewrite Ho. }
    assert (Hs : start ∈ local_scope start).
    { rewrite local_scope_eq. apply elem_of_firsts. split; [by left|set_solver]. }
    revert i Hr. apply (rtc_ind_r (fun i => i ∈ local_scope start)); [done|]. intros j k _ Hjk Hj.
    by apply (Hclosed j k).
Qed.
End bfs.

(** ** Graph lookup is a scan of the scope *)
Section scan.
Context {M : Type} `{GuestMemory M}.
Context (memory : M) (graph : Elf32DependencyGraph) (name : list Z) (options : Elf32SymbolLookupOptions).
Context (requirement : option Elf32SymbolVersionRequirement).

(** The specification: take the objects in order, at most [budget] of them, and
    answer with the first that does not simply miss. *)
Fixpoint scan_scope (budget : Z) (scope : list nat) : graph_result :=
  match scope with
  | [] => Err (graph_fails Elf32GraphSymbolLookupError.SymbolNotFound None)
  | i :: rest =>
      if budget <=? 0
      then Err (graph_fails Elf32GraphSymbolLookupError.ScopeLimitExceeded (Some i))
      else
        match objects graph !! i ≫= probe_object memory name options requirement i with
        | Some r => r
        | None => scan_scope (budget - 1) rest
        end
  end.

Notation max := (so_max_scope_objects options).
Notation n := (length (objects graph)).
Notation search := (search_object memory graph name options requirement).

Hypothesis (Hmax : is_u32 max) (Hedges : edges_valid graph).

(** [flags] is the characteristic vector of [l]. *)
Definition flags_of (flags : list bool) (l : list nat) : Prop :=
  length flags = n /\ forall i, (i < n)%nat -> default false (flags !! i) = bool_decide (i ∈ l).

Record searched_ok (s : search_state) (seen : list nat) : Prop := {
  so_flags : flags_of (searched s) seen;
  so_count : scope_objects s = Z.of_nat (length seen);
  so_limit : Z.of_nat (length seen) <= max;
}.

Lemma flags_of_insert flags l i :
  flags_of flags l -> (i < n)%nat -> flags_of (<[i := true]> flags) (i :: l).
Proof.
  intros [Hl Hf] Hi. split; [by rewrite length_insert|]. intros j Hj.
  destruct (decide (j = i)) as [->|Hne].
  - rewrite list_lookup_insert_eq by lia. rewrite bool_decide_true by by left. done.
  - rewrite list_lookup_insert_ne by done. rewrite Hf by done. apply bool_decide_ext. set_solver.
Qed.

(** One search is one element of the scan. *)
Lemma search_scan s seen x e rest :
  searched_ok s seen -> (x < n)%nat ->
  match search s x e with
  | inr r => scan_scope (max - Z.of_nat (length seen)) (firsts seen (x :: rest)) = r
  | inl s' => exists seen', searched_ok s' seen' /\ x ∈ seen' /\ (forall y, y ∈ seen -> y ∈ seen') /\
      (forall y, y ∈ seen' -> y = x \/ y ∈ seen) /\
      scan_scope (max - Z.of_nat (length seen)) (firsts seen (x :: rest)) =
      scan_scope (max - Z.of_nat (length seen')) (firsts seen' rest)
  end.
Proof.
  intros [Hf Hc Hle] Hx. unfold search_object.
  destruct (lookup_lt_is_Some_2 (objects graph) x Hx) as [o Ho]. rewrite Ho.
  destruct Hf as [Hl Hf]. rewrite (Hf x Hx). cbn [firsts].
  destruct (bool_decide_reflect (x ∈ seen)) as [Hin|Hin].
  { exists seen. rewrite decide_True by done. split; [by split|]. split; [done|]. by auto. }
  rewrite decide_False by done. cbn [scan_scope]. rewrite Ho. cbn [mbind option_bind]. rewrite Hc.
  destruct (max <=? Z.of_nat (length seen)) eqn:Em; bool_prop.
  { by rewrite (proj2 (Z.leb_le _ _)) by lia. }
  rewrite (proj2 (Z.leb_gt _ _)) by lia.
  destruct (probe_object memory name options requirement x o) as [r|]; [done|].
  exists (x :: seen). split.
  { split; cbn [searched scope_objects length].
    - by apply flags_of_insert.
    - rewrite u32_small by word_lia. lia.
    - lia. }
  split; [set_solver|]. split; [set_solver|]. split; [set_solver|].
  f_equal. cbn. lia.
Qed.

Lemma search_objects_scan s seen l rest :
  searched_ok s seen -> Forall (fun x => (x < n)%nat) l ->
  match search_objects memory graph name options requirement s l with
  | inr r => scan_scope (max - Z.of_nat (length seen)) (firsts seen (l ++ rest)) = r
  | inl s' => exists seen', searched_ok s' seen' /\
      scan_scope (max - Z.of_nat (length seen)) (firsts seen (l ++ rest)) =
      scan_scope (max - Z.of_nat (length seen')) (firsts seen' rest)
  end.
Proof.
  revert s seen; induction l as [|x l IH]; intros s seen Hs Hl; cbn [search_objects app].
  { by exists seen. }
  apply Forall_cons in Hl as [Hx Hl].
  pose proof (search_scan s seen x Elf32GraphSymbolLookupError.InvalidGlobalScopeObject (l ++ rest) Hs Hx) as H1.
  destruct (search s x _) as [s1|r]; [|done].
  destruct H1 as (seen1 & Hs1 & _ & _ & _ & ->). by apply IH.
Qed.

Lemma push_edges_filter i exp done_ pend edges :
  flags_of exp done_ -> Forall (fun e => (target_object e < n)%nat) edges ->
  push_edges graph i exp pend edges =
  Ok (pend ++ filter (fun t => t ∉ done_) (target_object <$> edges)).
Proof.
  intros [Hl Hf]. revert pend; induction edges as [|e edges IH]; intros pend He; cbn [push_edges].
  { cbn. by rewrite app_nil_r. }
  apply Forall_cons in He as [He Hes]. rewrite (proj2 (Z.leb_gt _ _)) by lia.
  rewrite IH by done. cbn [fmap list_fmap]. rewrite filter_cons. rewrite Hf by done.
  destruct (bool_decide_reflect (target_object e ∈ done_)).
  - by rewrite decide_False by (intros Hn; done).
  - rewrite decide_True by done. by rewrite <- app_assoc.
Qed.

Lemma bfs_loop_scan fuel s seen done_ :
  searched_ok (bfs_search s) seen -> flags_of (expanded s) done_ ->
  (forall x, x ∈ done_ -> x ∈ seen) -> Forall (fun x => (x < n)%nat) (pending s) ->
  (S (bfs_measure graph done_ (pending s)) <= fuel)%nat ->
  loop_nat fuel (bfs_step memory graph name options requirement) s =
  inr (scan_scope (max - Z.of_nat (length seen))
         (firsts seen (bfs_order graph fuel done_ (pending s)))).
Proof.
  revert s seen done_; induction fuel as [|fuel IH]; intros [sr ex pend] seen done_ Hs He Hsub Hp Hm; [lia|].
  cbn [pending bfs_search expanded] in *. cbn [loop_nat bfs_step pending bfs_search expanded].
  unfold bfs_step; cbn [pending bfs_search expanded].
  destruct pend as [|x pend]; [done|].
  apply Forall_cons in Hp as [Hx Hp].
  destruct (lookup_lt_is_Some_2 (objects graph) x Hx) as [o Ho]. rewrite Ho.
  cbn [bfs_order].
  pose proof (search_scan sr seen x Elf32GraphSymbolLookupError.InvalidGraphEdge) as Hscan.
  destruct (decide (x ∈ done_)) as [Hd|Hd].
  - specialize (Hscan (bfs_order graph fuel done_ pend) Hs Hx). cbn [firsts] in Hscan.
    rewrite decide_True in Hscan by by apply Hsub.
    assert (Hnop : search sr x Elf32GraphSymbolLookupError.InvalidGraphEdge = inl sr).
    { unfold search_object. rewrite Ho. destruct Hs as [[_ Hf] _ _]. rewrite Hf by done.
      by rewrite bool_decide_true by by apply Hsub. }
    rewrite Hnop. rewrite (proj2 He x Hx), bool_decide_true by done.
    apply IH; try done. unfold bfs_measure in *. cbn in *. lia.
  - set (rest := bfs_order graph fuel (x :: done_) (pend ++ filter (fun t => t ∉ x :: done_) (deps_of graph x))).
    specialize (Hscan rest Hs Hx).
    destruct (search sr x _) as [sr'|r]; [|by rewrite Hscan].
    destruct Hscan as (seen' & Hs' & Hxin & Hsup & _ & ->).
    rewrite (proj2 He x Hx), bool_decide_false by done.
    pose proof (flags_of_insert ex done_ x He Hx) as He'.
    assert (Hedge : Forall (fun e => (target_object e < n)%nat) (dependencies o)).
    { apply Forall_forall. intros e Hein. apply (Hedges x). by eapply depends_on_intro. }
    rewrite (push_edges_filter x _ (x :: done_)) by done.
    replace (target_object <$> dependencies o) with (deps_of graph x) by (unfold deps_of; by rewrite Ho).
    apply IH; cbn [pending bfs_search expanded]; try done.
    + set_solver.
    + apply Forall_app. split; [done|]. apply Forall_forall. intros t Ht.
      apply list_elem_of_filter in Ht as [_ Ht]. apply (Hedges x). exists o. split; [done|].
      unfold deps_of in Ht. by rewrite Ho in Ht.
    + pose proof (bfs_measure_expand graph done_ pend x Hd). unfold bfs_measure in *. cbn in *. lia.
Qed.

(** The lookup is the scan of its scope. *)
Lemma graph_lookup_scans start globals symbolic :
  max <> 0 -> (start < n)%nat -> Forall (fun i => (i < n)%nat) globals ->
  lookup_elf32_graph_symbol_impl memory graph name options requirement start globals symbolic =
  Some (scan_scope max (firsts [] ((if symbolic then [start] else []) ++ globals ++ local_scope graph start))).
Proof.
  intros Hne Hstart Hglob.
  unfold lookup_elf32_graph_symbol_impl.
  rewrite (proj2 (Z.eqb_neq _ _) Hne), (proj2 (Z.leb_gt _ _)) by lia.
  replace (list_find _ globals) with (@None (nat * nat)); cycle 1.
  { symmetry. apply list_find_None. eapply Forall_impl; [exact Hglob|]. intros i Hi. cbn in *. lia. }
  assert (H0 : searched_ok {| searched := no_flags graph; scope_objects := 0 |} []).
  { split; cbn; [|done|word_lia]. split; [apply length_replicate|]. intros i Hi.
    unfold no_flags. by rewrite lookup_replicate_2. }
  assert (Hex : flags_of (no_flags graph) []) by apply H0.
  assert (Hgo : forall s seen, searched_ok s seen ->
    match search_objects memory graph name options requirement s globals with
    | inr r => Some r
    | inl s2 =>
        match loop_nat (bfs_fuel graph) (bfs_step memory graph name options requirement)
                {| bfs_search := s2; expanded := no_flags graph; pending := [start] |} with
        | inr r => Some r | inl _ => None end
    end = Some (scan_scope (max - Z.of_nat (length seen)) (firsts seen (globals ++ local_scope graph start)))).
  { intros s seen Hs. pose proof (search_objects_scan s seen globals (local_scope graph start) Hs Hglob) as Hg.
    destruct (search_objects _ _ _ _ _ s globals) as [s2|r]; [|by rewrite Hg].
    destruct Hg as (seen2 & Hs2 & ->).
    rewrite (bfs_loop_scan (bfs_fuel graph) _ seen2 []); try done.
    - set_solver.
    - by constructor.
    - apply bfs_fuel_enough. }
  destruct symbolic.
  - pose proof (search_scan _ [] start Elf32GraphSymbolLookupError.InvalidGraphStart
      (globals ++ local_scope graph start) H0 Hstart) as Hfirst. cbn [length] in Hfirst.
    change (Z.of_nat 0) with 0 in Hfirst. rewrite Z.sub_0_r in Hfirst. cbn [app].
    destruct (search _ start _) as [s1|r]; [|by rewrite Hfirst].
    destruct Hfirst as (seen1 & Hs1 & _ & _ & _ & ->). by apply Hgo.
  - cbn [app]. rewrite (Hgo _ [] H0). cbn [length]. by rewrite Z.sub_0_r.
Qed.

(** The queue of the breadth-first search runs empty within the fuel. *)
Lemma graph_lookup_total start globals symbolic :
  is_Some (lookup_elf32_graph_symbol_impl memory graph name options requirement start globals symbolic).
Proof.
  destruct (decide (max = 0)) as [E|E]; [unfold lookup_elf32_graph_symbol_impl; by rewrite E|].
  destruct (decide (start < n)%nat) as [L|L]; cycle 1.
  { unfold lookup_elf32_graph_symbol_impl.
    by rewrite (proj2 (Z.eqb_neq _ _) E), (proj2 (Z.leb_le _ _)) by lia. }
  destruct (list_find (fun i => (n <= i)%nat) globals) as [[k i]|] eqn:F.
  { unfold lookup_elf32_graph_symbol_impl.
    rewrite (proj2 (Z.eqb_neq _ _) E), (proj2 (Z.leb_gt _ _)) by lia. by rewrite F. }
  rewrite graph_lookup_scans; [done|done|done|]. apply list_find_None in F.
  eapply Forall_impl; [exact F|]. intros i Hi. cbn in *. lia.
Qed.

(** C16: the graph lookup refines a scan of an explicitly ordered scope. The local
    scope is the breadth-first order of the objects reachable from the start
    object: the unique list that starts with the start object and continues with
    the first occurrences of the dependencies of its own elements. The searched
    scope is the requester itself (when symbolic), then the global scope, then
    the local scope, each object once; the answer is that of the first object
    that does not simply miss, whether definition or malformed object, within
    the object budget. In particular the lookup terminates. *)
Theorem graph_lookup_refines_scan start globals symbolic :
  max <> 0 -> (start < n)%nat -> Forall (fun i => (i < n)%nat) globals ->
  exists local,
    local = firsts [] (start :: concat (deps_of graph <$> local)) /\
    (forall i, i ∈ local <-> reaches graph start i) /\
    lookup_elf32_graph_symbol_impl memory graph name options requirement start globals symbolic =
    Some (scan_scope max (firsts [] ((if symbolic then [start] else []) ++ globals ++ local))).
Proof.
  intros Hne Hstart Hglob. exists (local_scope graph start).
  split; [apply local_scope_eq|]. split; [apply elem_of_local_scope|]. by apply graph_lookup_scans.
Qed.
End scan.

(** ** Hash functions *)
Lemma land_top_nibble h i :
  is_u32 h -> Z.testbit (Z.land h 0xf0000000) i = Z.testbit h i && bool_decide (28 <= i < 32).
Proof.
  intros Hh. rewrite Z.land_spec. destruct (decide (0 <= i)) as [Hi|Hi].
  2: { rewrite !Z.testbit_neg_r by lia. by rewrite andb_false_l. }
  destruct (decide (i < 32)) as [Hlt|Hge].
  - change 0xf0000000 with (Z.shiftl (Z.ones 4) 28). rewrite Z.shiftl_spec by lia. f_equal.
    destruct (decide (28 <= i)).
    + rewrite Z.ones_spec_low by lia. by rewrite bool_decide_true by lia.
    + rewrite Z.testbit_neg_r by lia. by rewrite bool_decide_false by lia.
  - replace (Z.testbit h i) with false; [done|]. symmetry.
    apply (proj1 (Z.bounded_iff_bits_nonneg 32 h ltac:(lia) ltac:(word_lia))); [word_lia|lia].
Qed.

Lemma sysv_hash_step_range h b : is_byte b -> 0 <= sysv_hash_step h b < 2 ^ 28.
Proof.
  intros Hb. unfold sysv_hash_step. set (x := u32 (u32 (Z.shiftl h 4) + b)).
  assert (Hx : is_u32 x) by apply u32_range.
  set (high := Z.land x 0xf0000000).
  assert (Hhi : 0 <= high) by (apply Z.land_nonneg; word_lia).
  assert (Hxb : forall l, 32 <= l -> Z.testbit x l = false).
  { apply (proj1 (Z.bounded_iff_bits_nonneg 32 x ltac:(lia) ltac:(word_lia))). word_lia. }
  destruct (high =? 0) eqn:E; cbn [negb]; bool_prop.
  - split; [word_lia|]. apply Z.bounded_iff_bits_nonneg; [lia|word_lia|]. intros l Hl.
    destruct (decide (l < 32)); [|apply Hxb; lia].
    pose proof (land_top_nibble x l Hx) as Hb'. fold high in Hb'. rewrite E, Z.testbit_0_l in Hb'.
    rewrite bool_decide_true, andb_true_r in Hb' by lia. done.
  - assert (Hsub : UINT32_MAX - high = Z.ldiff UINT32_MAX high).
    { apply Z.sub_nocarry_ldiff. apply Z.bits_inj'. intros l Hl.
      rewrite Z.ldiff_spec, Z.testbit_0_l. unfold high. rewrite land_top_nibble by done.
      destruct (bool_decide_reflect (28 <= l < 32)); [|by rewrite andb_false_r].
      change UINT32_MAX with (Z.ones 32). rewrite Z.ones_spec_low by lia. by rewrite andb_false_r. }
    rewrite Hsub.
    assert (Hpos : 0 <= Z.land (Z.lxor x (Z.shiftr high 24)) (Z.ldiff UINT32_MAX high)).
    { apply Z.land_nonneg. right. apply Z.ldiff_nonneg. left. unfold UINT32_MAX. lia. }
    split; [done|]. apply Z.bounded_iff_bits_nonneg; [lia|done|]. intros l Hl.
    rewrite Z.land_spec, Z.lxor_spec, Z.ldiff_spec, Z.shiftr_spec by lia. unfold high.
    rewrite !land_top_nibble by done. rewrite (bool_decide_false (28 <= l + 24 < 32)) by lia.
    rewrite andb_false_r, xorb_false_r. destruct (decide (l < 32)).
    + rewrite bool_decide_true by lia. destruct (Z.testbit x l); [|done]. by rewrite andb_false_r.
    + by rewrite (Hxb l) by lia.
Qed.

(** The sum the GNU hash folds, before reduction. *)
Definition gnu_hash_value (name : list Z) : Z := foldl (fun h b => h * 33 + b) 5381 name.

Lemma gnu_hash_fold name h h' :
  u32 h = h' ->
  foldl (fun hash byte => u32 (u32 (hash * 33) + byte)) h' name =
  u32 (foldl (fun h b => h * 33 + b) h name).
Proof.
  revert h h'; induction name as [|b name IH]; intros h h' Hh; cbn; [done|].
  apply IH. subst h'. unfold u32.
  rewrite (Zplus_mod (_ mod 2 ^ 32) b), Zmod_mod, (Zmult_mod (h mod 2 ^ 32)), Zmod_mod.
  rewrite <- Zmult_mod, <- Zplus_mod. done.
Qed.

(** The two name hashes are what the ELF ABIs define, on 32-bit words: the
    GNU hash is the base-33 polynomial of the name bytes reduced modulo 2^32, and
    the SysV hash always fits 28 bits, so its top nibble is clear. *)
Theorem symbol_hashes_spec name :
  is_bytes name ->
  gnu_hash name = u32 (gnu_hash_value name) /\ 0 <= sysv_hash name < 2 ^ 28.
Proof.
  intros Hb. split; [by apply gnu_hash_fold|].
  unfold sysv_hash. destruct name as [|b name] using rev_ind; [cbn; lia|].
  rewrite foldl_app. cbn. apply Forall_app in Hb as [_ Hb]. apply Forall_cons in Hb as [Hb _].
  by apply sysv_hash_step_range.
Qed.

Lemma symbol_hashes_spec_witness :
  gnu_hash (encode_words [0x6e697270; 0x66]) = u32 (gnu_hash_value (encode_words [0x6e697270; 0x66])) /\
  0 <= sysv_hash (encode_words [0x6e697270; 0x66]) < 2 ^ 28.
Proof.
  apply (symbol_hashes_spec (encode_words [0x6e697270; 0x66])).
  repeat (apply Forall_cons; split; [apply u8_range|]). constructor.
Defined.

(** ** Lookup in one object *)
Section object_lookup.
Context {M : Type} `{GuestMemorySpec M}.
Context (memory : M) (bias : Z) (md : Elf32LinkerMetadata) (index : Elf32SymbolIndex).
Context (name : list Z) (options : Elf32SymbolLookupOptions).
Context (requirement : option Elf32SymbolVersionRequirement).

Hypothesis (Hm : gm_ok memory).

Lemma read_indexed_word_range base i w : read_indexed_word memory base i = Some w -> is_u32 w.
Proof.
  unfold read_indexed_word, read_u32, checked_add_guest_address. intros Hr.
  destruct (UINT32_MAX <? _) eqn:E; [done|]. cbn in Hr.
  destruct (gm_read memory _ 4) as [bs|] eqn:Eb; [|done]. cbn in Hr. injection Hr as <-.
  apply decode_u32_le_range.
  eapply (gm_read_bytes memory); [done|apply u32_range| |exact Eb]. unfold span_max; lia.
Qed.

(** What a successful lookup returned. *)
Record symbol_found (strings : Elf32StringTableMetadata) (symbols : Elf32SymbolTableMetadata)
    (r : Elf32ResolvedSymbol) : Prop := {
  sf_index : 0 < rsym_symbol_index r < ix_symbol_count index;
  sf_symbol : read_symbol memory symbols (rsym_symbol_index r) = Some (rsym_symbol r);
  sf_name : rsym_name r = name;
  sf_string : read_elf32_string_table_entry memory strings (sym_name_offset (rsym_symbol r))
                (so_max_name_bytes options) = Ok name;
  sf_binding : sym_binding (rsym_symbol r) = kStbGlobal \/ sym_binding (rsym_symbol r) = kStbWeak;
  sf_visibility : sym_visibility (rsym_symbol r) = kStvDefault \/
                  sym_visibility (rsym_symbol r) = kStvProtected;
  sf_type : sym_type (rsym_symbol r) = kSttNotype \/ sym_type (rsym_symbol r) = kSttObject \/
            sym_type (rsym_symbol r) = kSttFunc;
  sf_section : sym_section_index (rsym_symbol r) <> kShnUndef /\
               (sym_section_index (rsym_symbol r) < kShnLoReserve \/
                sym_section_index (rsym_symbol r) = kShnAbs);
  sf_version : match_elf32_symbol_version memory (version_options options) (version_object bias md)
                 (rsym_symbol_index r) requirement = Ok true;
  sf_value : if sym_section_index (rsym_symbol r) =? kShnAbs
             then rsym_guest_value r = sym_value (rsym_symbol r)
             else checked_add_guest_address bias (sym_value (rsym_symbol r)) = Some (rsym_guest_value r);
}.

Notation evaluate strings symbols :=
  (evaluate_candidate memory bias md strings symbols index name options requirement).

Lemma check_candidate_ok symbol raw :
  ordinary_miss symbol = false -> check_candidate symbol raw = Ok tt ->
  (sym_binding symbol = kStbGlobal \/ sym_binding symbol = kStbWeak) /\
  (sym_visibility symbol = kStvDefault \/ sym_visibility symbol = kStvProtected) /\
  (sym_type symbol = kSttNotype \/ sym_type symbol = kSttObject \/ sym_type symbol = kSttFunc) /\
  (sym_section_index symbol <> kShnUndef /\
   (sym_section_index symbol < kShnLoReserve \/ sym_section_index symbol = kShnAbs)).
Proof.
  intros Hmiss Hc. unfold check_candidate, ordinary_miss in *.
  apply bind_ok in Hc as ([] & G1%fail_if_ok & Hc). apply bind_ok in Hc as (bs & _ & Hc).
  apply bind_ok in Hc as ([] & G2%fail_if_ok & Hc). apply bind_ok in Hc as ([] & G3%fail_if_ok & Hc).
  apply bind_ok in Hc as ([] & G4%fail_if_ok & _).
  unfold kStbLocal, kStbGlobal, kStbWeak, kShnUndef, kStvInternal, kStvHidden, kStvDefault, kStvProtected,
    kSttNotype, kSttObject, kSttFunc, kShnCommon, kShnXindex, kShnLoReserve, kShnAbs in *.
  split_and!; lia.
Qed.

(** A candidate that ends the lookup successfully. *)
Lemma evaluate_candidate_found strings symbols i r :
  0 <= i -> evaluate strings symbols i = Ok (Some r) -> symbol_found strings symbols r.
Proof.
  intros Hi He. unfold evaluate_candidate in He.
  apply bind_ok in He as ([] & G1%fail_if_ok & He). bool_prop.
  apply bind_ok in He as (symbol & Hs%or_fail_ok & He).
  apply bind_ok in He as (nm & Hn%map_err_ok & He).
  destruct (bool_decide_reflect (nm = name)) as [->|]; [|done]. cbn [negb] in He.
  destruct (ordinary_miss symbol) eqn:Em; [done|].
  apply bind_ok in He as ([] & Hc & He). apply check_candidate_ok in Hc as (Hb & Hv & Ht & Hsec); [|done].
  apply bind_ok in He as (mt & Hmt%map_err_ok & He). destruct mt; [|done]. cbn [negb] in He.
  apply bind_ok in He as (v & Hval & [= <-]).
  split; cbn; try done; [lia|]. unfold candidate_value in Hval.
  destruct (sym_section_index symbol =? kShnAbs); cbn [negb] in Hval.
  - by injection Hval as ->.
  - by apply or_fail_ok in Hval.
Qed.

Lemma evaluate_candidate_error strings symbols i f :
  evaluate strings symbols i = Err f -> lf_error f <> Elf32SymbolLookupError.None.
Proof.
  intros He. unfold evaluate_candidate in He.
  apply bind_err in He as [He|(u1 & _ & He)]; [by apply fail_if_err in He as [_ <-]|].
  apply bind_err in He as [He|(symbol & _ & He)]; [by apply or_fail_err in He as [_ <-]|].
  apply bind_err in He as [He|(nm & _ & He)].
  { destruct (read_elf32_string_table_entry _ _ _ _); [done|]. by injection He as <-. }
  destruct (negb _); [done|]. destruct (ordinary_miss symbol); [done|].
  apply bind_err in He as [He|(u2 & _ & He)].
  { unfold check_candidate in He. repeat (apply bind_err in He as [He|(? & _ & He)]);
      first [apply fail_if_err in He as [_ <-] | apply or_fail_err in He as [_ <-]]; done. }
  apply bind_err in He as [He|(mt & _ & He)].
  { pose proof (match_elf32_symbol_version_real memory (version_options options) (version_object bias md) i
      requirement) as Hreal.
    destruct (match_elf32_symbol_version _ _ _ _ _) as [|f']; [done|]. injection He as <-. cbn in *.
    by destruct (vf_error f'). }
  destruct (negb mt); [done|]. apply bind_err in He as [He|(v & _ & He)]; [|done].
  unfold candidate_value in He. destruct (negb _); [|done]. by apply or_fail_err in He as [_ <-].
Qed.

Definition found_if_ok strings symbols (r : lookup_result Elf32ResolvedSymbol) : Prop :=
  match r with
  | Ok r => symbol_found strings symbols r
  | Err f => lf_error f <> Elf32SymbolLookupError.None
  end.

(** Both chain walks leave their loop, and return only accepted candidates. *)
Lemma gnu_walk strings symbols hash_index hash i :
  is_u32 (ix_symbol_count index) -> 0 <= i < ix_symbol_count index ->
  exists r, loop chain_fuel (gnu_lookup_step memory (evaluate strings symbols) hash_index
                               (ix_symbol_count index) hash) i = inr r /\
            found_if_ok strings symbols r.
Proof.
  intros Hn Hi. apply (loop_rule (fun i => 0 <= i <= ix_symbol_count index) _
    (fun i => ix_symbol_count index - i)); [|lia|unfold chain_fuel; word_lia].
  intros j Hj. unfold gnu_lookup_step. destruct (_ <=? j) eqn:El; bool_prop; [done|].
  destruct (read_indexed_word _ _ _) as [w|]; [|done].
  destruct (if Z.lor w 1 =? Z.lor hash 1 then _ else _) as [[r|]|e] eqn:Ee; cycle 2.
  - destruct (_ =? _); [|done]. by apply evaluate_candidate_error in Ee.
  - destruct (_ =? _); [|done]. cbn. by apply (evaluate_candidate_found _ _ j); [lia|].
  - destruct (negb _); [done|]. rewrite u32_small by word_lia. lia.
Qed.

Lemma sysv_walk strings symbols hash_index i :
  is_u32 (ix_symbol_count index) -> 0 <= i ->
  exists r, loop chain_fuel (sysv_lookup_step memory (evaluate strings symbols) hash_index
                               (ix_symbol_count index)) (i, 0) = inr r /\
            found_if_ok strings symbols r.
Proof.
  intros Hn Hi. apply (loop_rule (fun s : Z * Z => 0 <= s.1 /\ 0 <= s.2 <= ix_symbol_count index) _
    (fun s => ix_symbol_count index - s.2)); [|cbn; word_lia|unfold chain_fuel; cbn; word_lia].
  intros [j hops] [Hj Hh]. cbn in Hj, Hh. unfold sysv_lookup_step.
  destruct (negb (j =? 0) && (hops <? ix_symbol_count index)) eqn:Ec; bool_prop; cycle 1.
  { by destruct (negb (j =? 0)). }
  destruct (evaluate strings symbols j) as [[r|]|e] eqn:Ee; cycle 2.
  { by apply evaluate_candidate_error in Ee. }
  { cbn. by apply (evaluate_candidate_found _ _ j). }
  destruct (read_indexed_word _ _ _) as [next|] eqn:Er; [|done].
  destruct (_ && _); [done|]. cbn. rewrite u32_small by word_lia.
  split; [|lia]. split; [|lia].
  apply read_indexed_word_range in Er. word_lia.
Qed.

(** C18: lookup in one object is total and sound: the hash-chain walk ends within
    the symbol count whatever the guest tables contain (cyclic SysV chains
    included), and a symbol it returns is an entry of the bounded symbol table
    whose NUL-terminated name is the requested one, that is global or weak, of
    default or protected visibility, of a supported type, defined in a normal or
    absolute section, of the requested version, and whose value is the load bias
    plus [st_value] without 32-bit wrap (or [st_value] itself when absolute). *)
Theorem lookup_elf32_symbol_sound :
  is_u32 (ix_symbol_count index) ->
  match lookup_elf32_symbol_impl memory bias md index name options requirement with
  | Ok r => exists strings symbols,
      lm_string_table md = Some strings /\ lm_symbol_table md = Some symbols /\
      symbol_found strings symbols r
  | Err f => f <> lookup_fails Elf32SymbolLookupError.None
  end.
Proof.
  intros Hn. unfold lookup_elf32_symbol_impl.
  destruct (so_max_name_bytes options =? 0); [done|]. cbn [fail_if mbind result_bind].
  destruct (bool_decide (name = [])); [done|]. cbn [fail_if mbind result_bind].
  destruct (lm_string_table md) as [strings|]; [|done].
  destruct (lm_symbol_table md) as [symbols|]; [|done].
  destruct (ix_symbol_count index =? 0); [done|]. cbn [fail_if mbind result_bind].
  assert (Hlift : forall r : lookup_result Elf32ResolvedSymbol, found_if_ok strings symbols r ->
    match r with
    | Ok r => exists strings' symbols', Some strings = Some strings' /\ Some symbols = Some symbols' /\
                symbol_found strings' symbols' r
    | Err f => f <> lookup_fails Elf32SymbolLookupError.None end).
  { intros [r|f] Hr; cbn in Hr; [by eauto|]. intros ->. by apply Hr. }
  destruct (ix_gnu_hash index) as [g|]; [|destruct (ix_sysv_hash index) as [h|]; [|done]].
  - unfold gnu_lookup. destruct (read_indexed_word memory (gh_bloom_guest_address g) _); [|done]. cbn [or_fail mbind result_bind].
    destruct (gnu_bloom_rejects _ _ _); [done|]. cbn [fail_if mbind result_bind].
    destruct (read_indexed_word memory (gh_buckets_guest_address g) _) as [i|] eqn:Ei; [|done].
    cbn [or_fail mbind result_bind]. destruct (i =? 0); [done|]. cbn [fail_if mbind result_bind].
    destruct (_ || _) eqn:Ec; [done|]. cbn [fail_if mbind result_bind]. bool_prop.
    apply read_indexed_word_range in Ei. unfold run_chain.
    destruct (gnu_walk strings symbols g (gnu_hash name) i Hn) as (r & Hl & Hr); [word_lia|].
    unfold lookup_result in *. rewrite Hl. by apply Hlift.
  - unfold sysv_lookup.
    destruct (read_indexed_word memory _ _) as [i|] eqn:Ei; [|done]. cbn [or_fail mbind result_bind].
    destruct (_ && _); [done|]. cbn [fail_if mbind result_bind].
    apply read_indexed_word_range in Ei.
    destruct (sysv_walk strings symbols h i Hn) as (r & Hl & Hr); [word_lia|].
    unfold lookup_result in *. rewrite Hl. by apply Hlift.
Qed.
End object_lookup.

(** ** The GNU chain is a linear search *)
Section gnu_chain.
Context {M : Type} `{GuestMemory M}.
Context (memory : M) (evaluate : Z -> lookup_result (option Elf32ResolvedSymbol)).

(** The reference: the first candidate of [l] that ends the lookup. *)
Fixpoint first_candidate (l : list Z) : lookup_result Elf32ResolvedSymbol :=
  match l with
  | [] => Err (lookup_fails Elf32SymbolLookupError.SymbolNotFound)
  | j :: l =>
      match evaluate j with
      | Err e => Err e
      | Ok (Some r) => Ok r
      | Ok None => first_candidate l
      end
  end.

(** [first, last_] is a chain with hash words [word]: only the last word has its
    low bit set. *)
Record gnu_chain (g : Elf32GnuHashIndex) (symbol_count : Z) (word : Z -> Z) (first last_ : Z) : Prop := {
  gc_offset : 0 <= gh_symbol_offset g <= first;
  gc_bounds : first <= last_ < symbol_count;
  gc_read j : first <= j <= last_ ->
    read_indexed_word memory (gh_chains_guest_address g) (j - gh_symbol_offset g) = Some (word j);
  gc_open j : first <= j < last_ -> Z.land (word j) 1 = 0;
  gc_closed : Z.land (word last_) 1 <> 0;
}.

Lemma gnu_chain_walk g symbol_count word first last_ hash :
  is_u32 symbol_count -> gnu_chain g symbol_count word first last_ ->
  run_chain (Err (lookup_fails Elf32SymbolLookupError.None))
    (gnu_lookup_step memory evaluate g symbol_count hash) first =
  first_candidate (filter (fun j => Z.lor (word j) 1 = Z.lor hash 1) (seqZ first (last_ - first + 1))).
Proof.
  intros Hn [Ho Hb Hread Hopen Hclosed]. unfold run_chain, lookup_result.
  set (goal := first_candidate _).
  destruct (loop_rule
    (fun j => first <= j <= last_ /\
       first_candidate (filter (fun j => Z.lor (word j) 1 = Z.lor hash 1) (seqZ j (last_ - j + 1))) = goal)
    (fun r => r = goal) (fun j => last_ - j) chain_fuel
    (gnu_lookup_step memory evaluate g symbol_count hash) first) as (r & Hl & ->).
  - intros j [Hj Hg]. unfold gnu_lookup_step.
    rewrite (proj2 (Z.leb_gt _ _)) by lia. rewrite u32_small by word_lia. rewrite Hread by lia.
    rewrite seqZ_cons, filter_cons in Hg by lia.
    destruct (decide (Z.lor (word j) 1 = Z.lor hash 1)) as [Heq|Hne].
    + rewrite Heq, Z.eqb_refl. cbn [first_candidate] in Hg.
      destruct (evaluate j) as [[r|]|e] in Hg |- *; [done| |done].
      destruct (decide (j = last_)) as [->|Hlt].
      * rewrite (proj2 (Z.eqb_neq _ _)) by done. cbn [negb]. rewrite <- Hg.
        by rewrite seqZ_nil by lia.
      * rewrite Hopen by lia. cbn [Z.eqb negb]. rewrite u32_small by word_lia.
        split; [|lia]. split; [lia|]. rewrite <- Hg. unfold Z.succ. do 3 f_equal; lia.
    + rewrite (proj2 (Z.eqb_neq _ _) Hne).
      destruct (decide (j = last_)) as [->|Hlt].
      * rewrite (proj2 (Z.eqb_neq _ _)) by done. cbn [negb]. rewrite <- Hg.
        by rewrite seqZ_nil by lia.
      * rewrite Hopen by lia. cbn [Z.eqb negb]. rewrite u32_small by word_lia.
        split; [|lia]. split; [lia|]. rewrite <- Hg. unfold Z.succ. do 3 f_equal; lia.
  - split; [lia|done].
  - unfold chain_fuel. word_lia.
  - unfold lookup_result in *. by rewrite Hl.
Qed.

(** C33: on a well-formed GNU hash table the bucket walk is a linear search of the
    name's bucket: if the Bloom filter rejects the hash the answer is a miss, and
    otherwise it is that of the first entry of the chain, in table order, whose
    stored hash agrees with the name's (up to the chain-end bit) and whose
    evaluation is conclusive. So a symbol that is in the chain of its bucket is
    found, unless an earlier conclusive entry of the same hash hides it. *)
Theorem gnu_lookup_linear_search g symbol_count word first last_ name bloom_word :
  is_u32 symbol_count -> gnu_chain g symbol_count word first last_ -> first <> 0 ->
  read_indexed_word memory (gh_bloom_guest_address g) (gnu_bloom_index g (gnu_hash name))
    = Some bloom_word ->
  read_indexed_word memory (gh_buckets_guest_address g) (gnu_hash name mod gh_bucket_count g)
    = Some first ->
  gnu_lookup memory evaluate g symbol_count name =
  if gnu_bloom_rejects g (gnu_hash name) bloom_word
  then Err (lookup_fails Elf32SymbolLookupError.SymbolNotFound)
  else first_candidate
         (filter (fun j => Z.lor (word j) 1 = Z.lor (gnu_hash name) 1) (seqZ first (last_ - first + 1))).
Proof.
  intros Hn Hc H0 Hbloom Hbucket. unfold gnu_lookup. rewrite Hbloom. cbn [or_fail mbind result_bind].
  destruct (gnu_bloom_rejects _ _ _); [done|]. cbn [fail_if mbind result_bind].
  rewrite Hbucket. cbn [or_fail mbind result_bind]. rewrite (proj2 (Z.eqb_neq _ _) H0).
  cbn [fail_if mbind result_bind]. pose proof (gc_offset _ _ _ _ _ Hc). pose proof (gc_bounds _ _ _ _ _ Hc).
  rewrite (proj2 (Z.ltb_ge _ _)), (proj2 (Z.leb_gt _ _)) by lia. cbn [orb fail_if mbind result_bind].
  by apply gnu_chain_walk.
Qed.
End gnu_chain.

(** ** What index construction guarantees *)
Section index_safe.
Context {M : Type} `{GuestMemorySpec M}.
Context (memory : M) (md : Elf32LinkerMetadata) (options : Elf32SymbolLookupOptions).
Hypothesis (Hm : gm_ok memory).

Lemma readable_range_read a n b k :
  is_u32 a -> 0 < n -> readable_range memory a n = true -> a + n < 2 ^ 64 ->
  0 < k <= 256 -> a <= b -> b + k <= a + n -> is_Some (gm_read memory b k).
Proof.
  intros Ha Hn Hr Hbig Hk Hb Hbk. unfold readable_range in Hr.
  rewrite (proj2 (Z.eqb_neq _ _)) in Hr by lia. apply andb_true_iff in Hr as [Hfit Hall].
  unfold range_fits in Hfit. rewrite u64_small in Hfit by word_lia. bool_prop.
  assert (Hlr : LinkerMetadata.readable_range memory a n = true).
  { unfold LinkerMetadata.readable_range. rewrite (proj2 (Z.eqb_neq _ _)) by lia. done. }
  pose proof (proj1 (readable_range_iff memory Hm a n Ha ltac:(lia) Hfit) Hlr) as Hp.
  apply gm_read_is_Some; [done|word_lia|unfold span_max; lia|]. intros x Hx. apply Hp. lia.
Qed.

(** A successful symbol-extent check makes every entry readable. *)
Lemma check_symbol_extent_ok symbols count :
  is_u32 (sy_guest_address symbols) -> is_u32 count ->
  check_symbol_extent memory options symbols count = Ok tt ->
  0 < count <= so_max_symbols options /\
  forall i, 0 <= i < count -> is_Some (read_symbol memory symbols i).
Proof.
  intros Ha Hc Hx. unfold check_symbol_extent, kElf32SymbolEntrySize in Hx.
  apply bind_ok in Hx as ([] & G1%fail_if_ok & Hx). apply bind_ok in Hx as ([] & G2%fail_if_ok & Hx).
  apply bind_ok in Hx as ([] & G3%fail_if_ok & Hx). apply fail_if_ok in Hx.
  apply negb_false_iff in G3, Hx. rewrite u64_small in * by word_lia. bool_prop.
  split; [word_lia|]. intros i Hi. unfold range_fits in G3. rewrite u64_small in G3 by word_lia. bool_prop.
  unfold read_symbol, kElf32SymbolEntrySize. rewrite u64_small by word_lia.
  rewrite (proj2 (checked_add_guest_address_Some _ (i * 16) (sy_guest_address symbols + i * 16) Ha ltac:(word_lia)))
    by (split; [done|word_lia]). cbn [mbind option_bind].
  destruct (readable_range_read (sy_guest_address symbols) (count * 16)
    (sy_guest_address symbols + i * 16) 16) as [bs Hbs]; try done; try word_lia.
  rewrite Hbs. by eexists.
Qed.

Lemma check_sysv_words_ok base limit count :
  check_sysv_words memory base limit count = Ok tt ->
  forall i, 0 <= i < count ->
  exists w, read_indexed_word memory base i = Some w /\ (w = 0 \/ w < limit).
Proof.
  intros Hc i Hi. unfold check_sysv_words in Hc.
  assert (Hin : i ∈ seqZ 0 count) by (apply elem_of_seqZ; lia).
  revert Hc Hin. generalize (seqZ 0 count) as l. induction l as [|j l IH]; intros Hc Hin; [by apply not_elem_of_nil in Hin|].
  cbn [foldE] in Hc. apply bind_ok in Hc as ([] & Hw & Hc).
  apply elem_of_cons in Hin as [->|Hin]; [|by apply IH].
  unfold check_sysv_word in Hw. apply bind_ok in Hw as (w & Hr%or_fail_ok & Hw%fail_if_ok).
  exists w. split; [done|]. lia.
Qed.

Record sysv_index_ok (count : Z) (h : Elf32SysvHashIndex) : Prop := {
  sok_count : sh_chain_count h = count;
  sok_buckets : 0 < sh_bucket_count h <= so_max_hash_buckets options;
  sok_bucket_words i : 0 <= i < sh_bucket_count h ->
    exists w, read_indexed_word memory (sh_buckets_guest_address h) i = Some w /\ (w = 0 \/ w < count);
  sok_chain_words i : 0 <= i < count ->
    exists w, read_indexed_word memory (sh_chains_guest_address h) i = Some w /\ (w = 0 \/ w < count);
}.

Lemma read_u32_range a w : is_u32 a -> read_u32 memory a = Some w -> is_u32 w.
Proof.
  intros Ha Hr. unfold read_u32 in Hr. destruct (gm_read memory a 4) as [bs|] eqn:Eb; [|done].
  cbn in Hr. injection Hr as <-. apply decode_u32_le_range.
  eapply (gm_read_bytes memory); [done|done| |exact Eb]. unfold span_max; lia.
Qed.

Lemma build_sysv_index_ok table h :
  is_u32 (ht_guest_address table) -> build_sysv_index memory options table = Ok h ->
  sysv_index_ok (sh_chain_count h) h /\ is_u32 (sh_chain_count h).
Proof.
  intros Ha Hb. unfold build_sysv_index in Hb.
  apply bind_ok in Hb as (nb & Hnb%or_fail_ok & Hb). apply read_u32_range in Hnb; [|done].
  apply bind_ok in Hb as (nc & Hnc%or_fail_ok & Hb).
  assert (Hnc' : is_u32 nc).
  { destruct (checked_add_guest_address _ 4) as [a2|] eqn:E2; [|done]. cbn in Hnc.
    apply checked_add_guest_address_Some in E2 as [_ Ha2]; [|done|lia].
    by apply read_u32_range in Hnc. }
  apply bind_ok in Hb as ([] & G1%fail_if_ok & Hb). apply bind_ok in Hb as ([] & G2%fail_if_ok & Hb).
  apply bind_ok in Hb as ([] & G3%fail_if_ok & Hb). apply bind_ok in Hb as ([] & _ & Hb).
  apply bind_ok in Hb as ([ba ca] & _ & Hb). apply bind_ok in Hb as ([] & _ & Hb).
  apply bind_ok in Hb as ([] & Hw1 & Hb). apply bind_ok in Hb as ([] & Hw2 & [= <-]). bool_prop.
  split; [|done]. split; cbn; [done|word_lia|..].
  - by apply check_sysv_words_ok.
  - by apply check_sysv_words_ok.
Qed.

Definition bucket_word_ok (offset maximum : Z) (sysv : option Z) (w : Z) : Prop :=
  w = 0 \/ (offset <= w <= maximum /\ forall n, sysv = Some n -> w < n).

Lemma gnu_buckets_ok offset base sysv l m0 m1 :
  foldE (gnu_bucket memory options offset base sysv) m0 l = Ok m1 ->
  m0 <= m1 /\ (m1 = m0 \/ (offset <= m1 < so_max_symbols options)) /\
  forall i, i ∈ l -> exists w, read_indexed_word memory base i = Some w /\ bucket_word_ok offset m1 sysv w.
Proof.
  revert m0; induction l as [|j l IH]; intros m0 Hf; cbn [foldE] in Hf.
  { injection Hf as <-. split; [lia|]. split; [by left|]. intros i Hi. by apply not_elem_of_nil in Hi. }
  apply bind_ok in Hf as (m & Hg & Hf). unfold gnu_bucket in Hg.
  apply bind_ok in Hg as (w & Hw%or_fail_ok & Hg). apply IH in Hf as (Hle & Hmax & Hall).
  destruct (w =? 0) eqn:E0; bool_prop.
  - injection Hg as <-. split; [done|]. split; [done|].
    intros i [->|Hi]%elem_of_cons; [|by apply Hall]. exists w. split; [done|by left].
  - apply bind_ok in Hg as ([] & G1%fail_if_ok & Hg). apply bind_ok in Hg as ([] & G2%fail_if_ok & Hg).
    apply bind_ok in Hg as ([] & G3%fail_if_ok & [= <-]). bool_prop.
    split; [lia|]. split; [destruct Hmax; [destruct (Z.max_spec m0 w)|]; lia|].
    intros i [->|Hi]%elem_of_cons; [|by apply Hall]. exists w. split; [done|]. right. split; [lia|].
    intros n ->. bool_prop. done.
Qed.

(** The count the last chain yields lies above the largest bucket. *)
Lemma count_gnu_symbols_ok h chains maximum n :
  is_u32 (so_max_symbols options) -> 0 <= maximum ->
  (maximum = 0 \/ maximum < so_max_symbols options) -> is_u32 (gn_symbol_offset h) ->
  count_gnu_symbols memory options h chains maximum = Ok n ->
  is_u32 n /\ (maximum = 0 \/ maximum < n).
Proof.
  intros Hmax H0' Hlt Ho. unfold count_gnu_symbols, run_chain, index_result.
  destruct (maximum =? 0) eqn:E; bool_prop; [intros Hc; injection Hc as <-; by auto|].
  destruct (loop_rule (fun j => maximum <= j <= so_max_symbols options)
    (fun r => match r with Ok n => is_u32 n /\ maximum < n | Err _ => True end)
    (fun j => so_max_symbols options - j) chain_fuel
    (gnu_count_step memory options (gn_symbol_offset h) chains) maximum) as (r & Hl & Hr).
  - intros j Hj. unfold gnu_count_step. destruct (_ <=? j) eqn:El; bool_prop; [done|].
    destruct (checked_add_guest_address _ _) as [a|]; [|done].
    destruct (read_u32 memory a) as [w|]; [|done].
    destruct (negb _).
    + destruct (j =? UINT32_MAX) eqn:Eu; bool_prop; [done|]. rewrite u32_small by word_lia. word_lia.
    + rewrite u32_small by word_lia. lia.
  - lia.
  - unfold chain_fuel. word_lia.
  - unfold index_result in Hl. rewrite Hl. intros ->. destruct Hr. auto.
Qed.

Record gnu_index_ok (count : Z) (g : Elf32GnuHashIndex) : Prop := {
  gok_buckets : 0 < gh_bucket_count g <= so_max_hash_buckets options;
  gok_offset : 0 < gh_symbol_offset g;
  gok_bloom : is_power_of_two (gh_bloom_word_count g) = true /\
              gh_bloom_word_count g <= so_max_gnu_bloom_words options;
  gok_shift : 0 <= gh_bloom_shift g < 32;
  gok_bucket_words i : 0 <= i < gh_bucket_count g ->
    exists w, read_indexed_word memory (gh_buckets_guest_address g) i = Some w /\
              (w = 0 \/ gh_symbol_offset g <= w < count);
}.

Lemma read_gnu_header_typed a h :
  is_u32 a -> read_gnu_header memory a = Ok h ->
  is_u32 (gn_bucket_count h) /\ is_u32 (gn_symbol_offset h) /\ is_u32 (gn_bloom_word_count h) /\
  is_u32 (gn_bloom_shift h).
Proof.
  intros Ha Hh. unfold read_gnu_header in Hh.
  assert (Hw : forall i w, 0 <= i <= 3 ->
    or_fail (address ← checked_add_guest_address a (u64 (i * 4)); read_u32 memory address)
      Elf32SymbolIndexError.HashHeaderReadFailed = Ok w -> is_u32 w).
  { intros i w Hi Hr%or_fail_ok. rewrite u64_small in Hr by word_lia.
    destruct (checked_add_guest_address a (i * 4)) as [a'|] eqn:E; [|done]. cbn in Hr.
    apply checked_add_guest_address_Some in E as [_ Ha']; [|done|lia]. by apply read_u32_range in Hr. }
  apply bind_ok in Hh as (w0 & H0' & Hh). apply bind_ok in Hh as (w1 & H1' & Hh).
  apply bind_ok in Hh as (w2 & H2' & Hh). apply bind_ok in Hh as (w3 & H3' & [= <-]). cbn.
  apply Hw in H0', H1', H2', H3'; [|lia..]. done.
Qed.

Lemma build_gnu_index_ok table sysv g count :
  is_u32 (ht_guest_address table) -> is_u32 (so_max_symbols options) ->
  (forall n, sysv = Some n -> is_u32 n) ->
  build_gnu_index memory options table sysv = Ok (g, count) ->
  gnu_index_ok count g /\ is_u32 count /\ (forall n, sysv = Some n -> count = n).
Proof.
  intros Ha Hmax Hsysv Hb. unfold build_gnu_index in Hb.
  apply bind_ok in Hb as (h & Hh & Hb). apply read_gnu_header_typed in Hh as (T1 & T2 & T3 & T4); [|done].
  apply bind_ok in Hb as ([] & Hc & Hb). unfold check_gnu_header, kElf32WordBits in Hc.
  apply bind_ok in Hc as ([] & C1%fail_if_ok & Hc). apply bind_ok in Hc as ([] & C2%fail_if_ok & Hc).
  apply fail_if_ok in Hc. apply bind_ok in Hb as ([] & _ & Hb).
  apply bind_ok in Hb as ([[bloom buckets] chains] & _ & Hb).
  apply bind_ok in Hb as ([] & _ & Hb). apply bind_ok in Hb as (maximum & Hf & Hb).
  apply bind_ok in Hb as (n & Hn & [= <- <-]). bool_prop.
  apply gnu_buckets_ok in Hf as (Hle & Hmb & Hall).
  assert (Hcount : is_u32 n /\ (forall m, sysv = Some m -> n = m) /\
            (sysv = None -> maximum = 0 \/ maximum < n)).
  { destruct sysv as [m|].
    - unfold check_dual_hash in Hn. apply bind_ok in Hn as ([] & _ & Hn).
      apply bind_ok in Hn as ([] & _ & Hn). apply bind_ok in Hn as ([] & _ & Hn).
      apply bind_ok in Hn as ([] & _ & [= <-]). split; [by apply Hsysv|]. split; [by intros ? [= ->]|done].
    - apply count_gnu_symbols_ok in Hn as [Hn1 Hn2]; [by auto|done|done|lia|done]. }
  destruct Hcount as (Hn1 & Hn2 & Hn3). split; [|done].
  split; cbn; [word_lia|word_lia|by split|word_lia|].
  intros i Hi. destruct (Hall i) as (w & Hw & Hok); [apply elem_of_seqZ; lia|].
  exists w. split; [done|]. destruct Hok as [?|[Hrange Hlt]]; [by left|right]. split; [lia|].
  destruct sysv as [m|].
  - rewrite (Hn2 m eq_refl). by apply Hlt.
  - destruct (Hn3 eq_refl); word_lia.
Qed.

(** C32: a successfully built symbol index is safe to use: the symbol count is
    positive and within the caller's ceiling, every symbol below it can be read,
    at least one hash table is present, bucket counts are positive (no division
    by zero when hashing), the GNU Bloom size is a power of two and its shift
    less than the word width, and every SysV bucket and chain word and every GNU
    bucket word is readable and 0 or a valid symbol index. *)
Theorem build_elf32_symbol_index_safe ix :
  metadata_wf memory md -> is_u32 (so_max_symbols options) ->
  build_elf32_symbol_index memory md options = Ok ix ->
  exists symbols, lm_symbol_table md = Some symbols /\
    0 < ix_symbol_count ix <= so_max_symbols options /\
    (forall i, 0 <= i < ix_symbol_count ix -> is_Some (read_symbol memory symbols i)) /\
    (is_Some (ix_sysv_hash ix) \/ is_Some (ix_gnu_hash ix)) /\
    (forall h, ix_sysv_hash ix = Some h -> sysv_index_ok (ix_symbol_count ix) h) /\
    (forall g, ix_gnu_hash ix = Some g -> gnu_index_ok (ix_symbol_count ix) g).
Proof.
  intros Hwf Hmax Hb. unfold build_elf32_symbol_index in Hb.
  apply bind_ok in Hb as ([] & _ & Hb). apply bind_ok in Hb as (strings & _ & Hb).
  apply bind_ok in Hb as (symbols & Hsym%or_fail_ok & Hb). apply bind_ok in Hb as ([] & _ & Hb).
  apply bind_ok in Hb as (sysv & Hs & Hb). apply bind_ok in Hb as (gnu & Hg & Hb).
  apply bind_ok in Hb as ([] & Hx & [= <-]). cbn in *.
  exists symbols. split; [done|].
  assert (Haddr : is_u32 (sy_guest_address symbols)).
  { destruct (mw_symbols _ _ Hwf symbols Hsym) as [_ [Hr _]]. done. }
  assert (Hsysv : forall h, sysv = Some h -> sysv_index_ok (sh_chain_count h) h /\ is_u32 (sh_chain_count h)).
  { intros h ->. destruct (lm_sysv_hash_table md) as [t|] eqn:Et; [|done].
    apply bind_ok in Hs as (h' & Hs & [= ->]). eapply build_sysv_index_ok; [|exact Hs].
    by destruct (mw_sysv _ _ Hwf t Et). }
  assert (Hgnu : forall g n, gnu = Some (g, n) ->
    gnu_index_ok n g /\ is_u32 n /\ forall h, sysv = Some h -> n = sh_chain_count h).
  { intros g n ->. destruct (lm_gnu_hash_table md) as [t|] eqn:Et; [|done].
    apply bind_ok in Hg as (g' & Hg & [= ->]). apply build_gnu_index_ok in Hg as (G1 & G2 & G3); [|by destruct (mw_gnu _ _ Hwf t Et)|done|].
    - split; [done|]. split; [done|]. intros h ->. by apply G3.
    - intros m Hm'. destruct sysv as [h|]; [|done]. injection Hm' as <-. by apply (Hsysv h). }
  destruct gnu as [[g n]|]; [|destruct sysv as [h|]].
  - destruct (Hgnu g n eq_refl) as (G1 & G2 & G3). apply check_symbol_extent_ok in Hx as [Hc Hr]; [|done|done].
    split; [done|]. split; [done|]. split; [right; by eexists|]. split; [|by intros ? [= <-]].
    intros h ->. rewrite (G3 h eq_refl). by apply Hsysv.
  - destruct (Hsysv h eq_refl) as [G1 G2]. apply check_symbol_extent_ok in Hx as [Hc Hr]; [|done|done].
    split; [done|]. split; [done|]. split; [left; by eexists|]. split; [by intros ? [= <-]|done].
  - by apply check_symbol_extent_ok in Hx as [Hc _]; [lia|done|].
Qed.
End index_safe.

(** ** Witnesses: an object that exports "f" through both hash tables *)
Definition symbol_memory : LinearGuestMemory.t :=
  LinearGuestMemory.mk 4096
    ([0; 102; 0; 0] ++
     encode_words [0; 0; 0; 0] ++ encode_words [1; 0x100; 4] ++ [0x12; 0; 1; 0] ++
     encode_words [1; 2; 1; 0; 0] ++ encode_words [1; 1; 1; 5; UINT32_MAX; 1; 177675]).

Definition symbol_strings : Elf32StringTableMetadata := {| st_guest_address := 4096; st_size := 4 |}.
Definition symbol_table : Elf32SymbolTableMetadata := {| sy_guest_address := 4100; sy_entry_size := 16 |}.

Definition symbol_metadata : Elf32LinkerMetadata :=
  {| lm_string_table := Some symbol_strings;
     lm_symbol_table := Some symbol_table;
     lm_sysv_hash_table := Some {| ht_guest_address := 4132 |};
     lm_gnu_hash_table := Some {| ht_guest_address := 4152 |};
     lm_rel_table := None; lm_plt_rel_table := None;
     lm_init_array := None; lm_fini_array := None; lm_version_symbol_table := None;
     lm_version_definition_table := None; lm_version_requirement_table := None;
     lm_soname_offset := None; lm_needed_offsets := []; lm_flags_1 := None; lm_global := false;
     lm_symbolic := false; lm_has_symbol_versioning := false |}.

Definition demo_lookup_options : Elf32SymbolLookupOptions :=
  {| so_max_symbols := 16; so_max_hash_buckets := 16; so_max_gnu_bloom_words := 16;
     so_max_scope_objects := 4; so_max_name_bytes := 8; so_max_version_records := 8;
     so_global_scope_objects := [] |}.

Definition demo_gnu_index : Elf32GnuHashIndex :=
  {| gh_bucket_count := 1; gh_symbol_offset := 1; gh_bloom_word_count := 1; gh_bloom_shift := 5;
     gh_bloom_guest_address := 4168; gh_buckets_guest_address := 4172;
     gh_chains_guest_address := 4176 |}.

Definition demo_index : Elf32SymbolIndex :=
  {| ix_symbol_count := 2;
     ix_sysv_hash := Some {| sh_bucket_count := 1; sh_chain_count := 2;
       sh_buckets_guest_address := 4140; sh_chains_guest_address := 4144 |};
     ix_gnu_hash := Some demo_gnu_index |}.

Definition demo_symbol : Elf32Symbol :=
  {| sym_name_offset := 1; sym_value := 0x100; sym_size := 4; sym_binding := 1; sym_type := 2;
     sym_visibility := 0; sym_raw_other := 0; sym_section_index := 1 |}.

Definition demo_resolved : Elf32ResolvedSymbol :=
  {| rsym_symbol_index := 1; rsym_name := [102]; rsym_symbol := demo_symbol;
     rsym_guest_value := 0x1100 |}.

Lemma symbol_memory_wf : linear_wf symbol_memory.
Proof.
  split; [vm_compute; congruence..|]. apply is_bytes_forallb. vm_compute. reflexivity.
Qed.

Lemma symbol_memory_ok : gm_ok symbol_memory.
Proof. exact symbol_memory_wf. Qed.

Lemma linear_range_readable (m : LinearGuestMemory.t) a n :
  linear_wf m -> LinearGuestMemory.base_ m <= a -> 0 <= n -> is_u32 a ->
  a + n <= LinearGuestMemory.base_ m + LinearGuestMemory.size m -> range_readable m a n.
Proof.
  intros Hw Hb Hn Ha Hle. split; [done|]. split; [pose proof (lw_fits _ Hw); word_lia|].
  intros x Hx. cbn. unfold linear_peek. rewrite decide_True by lia.
  apply lookup_lt_is_Some_2. unfold LinearGuestMemory.size in Hle. lia.
Qed.

Lemma symbol_metadata_wf : metadata_wf symbol_memory symbol_metadata.
Proof.
  assert (Hr : forall a n, (4096 <=? a) && (0 <=? n) && (a + n <=? 4180) = true -> range_readable symbol_memory a n).
  { intros a n Hc. bool_prop. apply linear_range_readable; [exact symbol_memory_wf|cbn; lia|lia|word_lia|].
    replace (LinearGuestMemory.base_ symbol_memory + LinearGuestMemory.size symbol_memory) with 4180
      by reflexivity. lia. }
  split; cbn; try done; intros; simplify_eq; try (split; [reflexivity|]); try (by apply Hr).
  all: naive_solver.
Qed.

Lemma build_elf32_symbol_index_safe_witness :
  build_elf32_symbol_index symbol_memory symbol_metadata demo_lookup_options = Ok demo_index /\
  exists symbols, lm_symbol_table symbol_metadata = Some symbols /\
    0 < ix_symbol_count demo_index <= 16 /\
    (forall i, 0 <= i < 2 -> is_Some (read_symbol symbol_memory symbols i)).
Proof.
  assert (Hb : build_elf32_symbol_index symbol_memory symbol_metadata demo_lookup_options = Ok demo_index)
    by (vm_compute; reflexivity).
  split; [exact Hb|].
  destruct (build_elf32_symbol_index_safe symbol_memory symbol_metadata demo_lookup_options
    symbol_memory_ok demo_index symbol_metadata_wf ltac:(split; vm_compute; congruence) Hb)
    as (symbols & H1 & H2 & H3 & _).
  exists symbols. split; [exact H1|]. split; [exact H2|exact H3].
Defined.

Lemma lookup_elf32_symbol_sound_witness :
  lookup_elf32_symbol_impl symbol_memory 0x1000 symbol_metadata demo_index [102] demo_lookup_options None
    = Ok demo_resolved /\
  exists strings symbols,
    lm_string_table symbol_metadata = Some strings /\ lm_symbol_table symbol_metadata = Some symbols /\
    symbol_found symbol_memory 0x1000 symbol_metadata demo_index [102] demo_lookup_options None
      strings symbols demo_resolved.
Proof.
  assert (Hl : lookup_elf32_symbol_impl symbol_memory 0x1000 symbol_metadata demo_index [102]
    demo_lookup_options None = Ok demo_resolved) by (vm_compute; reflexivity).
  split; [exact Hl|].
  pose proof (lookup_elf32_symbol_sound symbol_memory 0x1000 symbol_metadata demo_index [102]
    demo_lookup_options None symbol_memory_ok ltac:(split; vm_compute; congruence)) as Hs.
  rewrite Hl in Hs. exact Hs.
Defined.

Lemma gnu_lookup_linear_search_witness :
  let evaluate := evaluate_candidate symbol_memory 0x1000 symbol_metadata symbol_strings symbol_table
                    demo_index [102] demo_lookup_options None in
  gnu_lookup symbol_memory evaluate demo_gnu_index 2 [102] = first_candidate evaluate [1] /\
  first_candidate evaluate [1] = Ok demo_resolved.
Proof.
  intros evaluate. split; [|vm_compute; reflexivity].
  assert (Hc : gnu_chain symbol_memory demo_gnu_index 2 (fun _ => 177675) 1 1).
  { split; cbn; try lia; try done. intros j Hj. replace j with 1 by lia. vm_compute. reflexivity. }
  rewrite (gnu_lookup_linear_search symbol_memory evaluate demo_gnu_index 2 (fun _ => 177675) 1 1 [102]
    UINT32_MAX ltac:(split; vm_compute; congruence) Hc ltac:(congruence)
    ltac:(vm_compute; reflexivity) ltac:(vm_compute; reflexivity)).
  reflexivity.
Defined.

(** Object 0 (no symbols) depends on object 1, which exports "f". *)
Definition scope_graph : Elf32DependencyGraph :=
  {| objects := [demo_object [1]%nat (demo_metadata None); demo_object []%nat symbol_metadata] |}.

Lemma scope_graph_edges : edges_valid scope_graph.
Proof.
  intros i j (o & Ho & Hj). cbn. destruct i as [|[|i]]; cbn in Ho; simplify_eq; cbn in Hj; set_solver by lia.
Qed.

Lemma graph_lookup_refines_scan_witness :
  exists local,
    local = firsts [] (0%nat :: concat (deps_of scope_graph <$> local)) /\
    (forall i, i ∈ local <-> reaches scope_graph 0 i) /\
    lookup_elf32_graph_symbol_impl symbol_memory scope_graph [102] demo_lookup_options None 0 [] false =
    Some (scan_scope symbol_memory scope_graph [102] demo_lookup_options None 4 (firsts [] local)).
Proof.
  apply (graph_lookup_refines_scan symbol_memory scope_graph [102] demo_lookup_options None
    ltac:(split; vm_compute; congruence) scope_graph_edges 0 [] false).
  - vm_compute. congruence.
  - vm_compute. lia.
  - constructor.
Defined.
