(* ===== verification/Relocation.v ===== *)
(** * Relocation ([src/src/elf/elf32_relocation.h],
      [src/src/elf/linking/elf32_relocation.cpp])

    Planning of the main REL and the PLT REL table, resolution of the referenced
    symbols, and the transactional application with verified rollback. *)

From S2P Require Import Prelude Bytes GuestMemory LinearMemory LoadPlan Dynamic Loader LinkerMetadata LinkerStrings Cpu Graph Lifecycle SymbolVersioning SymbolLookup.

Definition kRArmNone : Z := 0.
Definition kRArmAbs32 : Z := 2.
Definition kRArmRel32 : Z := 3.
Definition kRArmGlobDat : Z := 21.
Definition kRArmJumpSlot : Z := 22.
Definition kRArmRelative : Z := 23.

Inductive Elf32RelocationTable : Set := MainRel | PltRel.

Record Elf32RelocationOptions := {
  rel_max_relocations : Z;
  rel_symbols : Elf32SymbolLookupOptions;
}.

Record Elf32RelocationEntry := {
  re_index : Z;
  re_offset : Z;
  re_info : Z;
  re_symbol_index : Z;
  re_type : Z;
  re_place : Z;
  re_original_word : option Z;
}.

Module Elf32RelocationPlanError.
Inductive t : Set :=
| None | InvalidOptions | InvalidGraphObject | TooManyRelocations | RelocationReadFailed
| PlaceOverflow | UnalignedPlace | TargetReadFailed | DuplicateTarget | UnsupportedRelocationType.

Definition to_string (error : t) : string :=
  match error with
  | None => "none"
  | InvalidOptions => "invalid_options"
  | InvalidGraphObject => "invalid_graph_object"
  | TooManyRelocations => "too_many_relocations"
  | RelocationReadFailed => "relocation_read_failed"
  | PlaceOverflow => "place_overflow"
  | UnalignedPlace => "unaligned_place"
  | TargetReadFailed => "target_read_failed"
  | DuplicateTarget => "duplicate_target"
  | UnsupportedRelocationType => "unsupported_relocation_type"
  end.
End Elf32RelocationPlanError.

Record Elf32RelocationReference := {
  rr_symbol_index : Z;
  rr_name : list Z;
  rr_symbol : Elf32Symbol;
  rr_defining_symbol : option Elf32Symbol;
  rr_symbol_value : Z;
  rr_unresolved_weak : bool;
  rr_defining_object_index : option nat;
  rr_defining_symbol_index : option Z;
}.

Record Elf32ResolvedRelocationEntry := {
  rv_relocation : Elf32RelocationEntry;
  rv_reference : option Elf32RelocationReference;
}.

Module Elf32RelocationResolveError.
Inductive t : Set :=
| None | InvalidOptions | PlanFailed | IndexBuildFailed | MissingReferenceSymbol
| SymbolIndexOutOfRange | ReferenceSymbolReadFailed | ReferenceNameFailed | UnsupportedVersioning
| UnsupportedReferenceBinding | UnsupportedReferenceVisibility | UnsupportedReferenceType
| UnsupportedReferenceSection | SymbolLookupFailed | UnresolvedStrongSymbol.

Definition to_string (error : t) : string :=
  match error with
  | None => "none"
  | InvalidOptions => "invalid_options"
  | PlanFailed => "plan_failed"
  | IndexBuildFailed => "index_build_failed"
  | MissingReferenceSymbol => "missing_reference_symbol"
  | SymbolIndexOutOfRange => "symbol_index_out_of_range"
  | ReferenceSymbolReadFailed => "reference_symbol_read_failed"
  | ReferenceNameFailed => "reference_name_failed"
  | UnsupportedVersioning => "unsupported_versioning"
  | UnsupportedReferenceBinding => "unsupported_reference_binding"
  | UnsupportedReferenceVisibility => "unsupported_reference_visibility"
  | UnsupportedReferenceType => "unsupported_reference_type"
  | UnsupportedReferenceSection => "unsupported_reference_section"
  | SymbolLookupFailed => "symbol_lookup_failed"
  | UnresolvedStrongSymbol => "unresolved_strong_symbol"
  end.
End Elf32RelocationResolveError.

(** The failing fields of [Elf32RelocationResolutionResult]. *)
Record resolve_failure := ResolveFailure {
  rf_error : Elf32RelocationResolveError.t;
  rf_plan_error : Elf32RelocationPlanError.t;
  rf_index_error : Elf32SymbolIndexError.t;
  rf_symbol_read_error : Elf32SymbolReadError.t;
  rf_string_error : Elf32LinkerStringError.t;
  rf_graph_error : Elf32GraphSymbolLookupError.t;
  rf_lookup_error : Elf32SymbolLookupError.t;
  rf_failing_object : option nat;
  rf_failing_relocation : option Z;
}.

Record Elf32RelocationWrite := {
  rw_relocation_index : Z;
  rw_type : Z;
  rw_place : Z;
  rw_original_word : Z;
  rw_final_word : Z;
  rw_table : Elf32RelocationTable;
}.

Module Elf32RelocationApplyError.
Inductive t : Set :=
| None | ResolveFailed | InvalidRelativeSymbol | InvalidResolvedEntry
| DuplicateTargetAcrossTables | TargetWriteFailed | RollbackFailed.

Definition to_string (error : t) : string :=
  match error with
  | None => "none"
  | ResolveFailed => "resolve_failed"
  | InvalidRelativeSymbol => "invalid_relative_symbol"
  | InvalidResolvedEntry => "invalid_resolved_entry"
  | DuplicateTargetAcrossTables => "duplicate_target_across_tables"
  | TargetWriteFailed => "target_write_failed"
  | RollbackFailed => "rollback_failed"
  end.
End Elf32RelocationApplyError.

(** The failing fields of [Elf32RelocationApplyResult]. *)
Record apply_failure := ApplyFailure {
  af_error : Elf32RelocationApplyError.t;
  af_primary_error : Elf32RelocationApplyError.t;
  af_resolution_failure : option resolve_failure;
  af_failing_relocation : option Z;
  af_rollback_failing_relocation : option Z;
  af_failing_table : option Elf32RelocationTable;
  af_rollback_failing_table : option Elf32RelocationTable;
}.

(** [apply_failure(error, primary, object_index, failing_relocation, failing_table)] *)
Definition apply_fails (error : Elf32RelocationApplyError.t) (failing_relocation : option Z)
    (failing_table : Elf32RelocationTable) : apply_failure :=
  ApplyFailure error error None failing_relocation None (Some failing_table) None.

Definition supported_type (type : Z) : bool :=
  (type =? kRArmNone) || (type =? kRArmAbs32) || (type =? kRArmRel32) || (type =? kRArmGlobDat)
  || (type =? kRArmRelative).

Definition symbol_bearing_type (type : Z) : bool :=
  (type =? kRArmAbs32) || (type =? kRArmRel32) || (type =? kRArmGlobDat) || (type =? kRArmJumpSlot).

Definition valid_symbol_options (options : Elf32SymbolLookupOptions) : bool :=
  negb (so_max_symbols options =? 0) && negb (so_max_hash_buckets options =? 0)
  && negb (so_max_gnu_bloom_words options =? 0) && negb (so_max_scope_objects options =? 0)
  && negb (so_max_name_bytes options =? 0).

Definition wrap_add (lhs rhs : Z) : Z := u32 (u64 (lhs + rhs)).
Definition wrap_sub (lhs rhs : Z) : Z := u32 (lhs - rhs).

Definition supported_type_for_table (type : Z) (kind : Elf32RelocationTable) : bool :=
  match kind with
  | PltRel => type =? kRArmJumpSlot
  | MainRel => supported_type type
  end.

Section relocation.
Context {M : Type} `{GuestMemory M}.

Definition read_word (memory : M) (address : Z) : option Z :=
  bytes ← gm_read memory address 4; Some (decode_u32_le bytes 0).

Definition write_word (memory : M) (address value : Z) : bool * M :=
  gm_write memory address (encode_u32_le value).

(** Write the original word back and verify it by reading. *)
Definition restore_word (memory : M) (address original : Z) : bool * M :=
  match write_word memory address original with
  | (false, memory) => (false, memory)
  | (true, memory) => (bool_decide (read_word memory address = Some original), memory)
  end.

(** ** [build_relocation_plan_for_table] *)
Definition plan_result := result Elf32RelocationPlanError.t.

Definition select_table (object : Elf32LoadedDependencyObject) (kind : Elf32RelocationTable)
    : option Elf32RelTableMetadata :=
  match kind with
  | PltRel => lm_plt_rel_table (linker_metadata object)
  | MainRel => lm_rel_table (linker_metadata object)
  end.

(** The checks of a write-producing place: alignment, the original word and
    uniqueness among [write_targets]. *)
Definition plan_place (memory : M) (place : Z) (write_targets : list Z) : plan_result Z :=
  fail_if (negb (Z.land place 0x3 =? 0)) Elf32RelocationPlanError.UnalignedPlace ;;
  original ← or_fail (read_word memory place) Elf32RelocationPlanError.TargetReadFailed;
  fail_if (bool_decide (place ∈ write_targets)) Elf32RelocationPlanError.DuplicateTarget ;;
  Ok original.

(** One iteration of the entry loop; the state is [write_targets] and the entries. *)
Definition plan_entry (memory : M) (load_bias : Z) (table : Elf32RelTableMetadata)
    (kind : Elf32RelocationTable) (s : list Z * list Elf32RelocationEntry) (i : Z)
    : plan_result (list Z * list Elf32RelocationEntry) :=
  let '(write_targets, entries) := s in
  entry_address ← or_fail (checked_add_guest_address (rt_guest_address table)
                             (u64 (i * kElf32RelEntrySize)))
                    Elf32RelocationPlanError.RelocationReadFailed;
  bytes ← or_fail (gm_read memory entry_address kElf32RelEntrySize)
            Elf32RelocationPlanError.RelocationReadFailed;
  let offset := decode_u32_le bytes 0 in
  let info := decode_u32_le bytes 4 in
  let type := Z.land info 0xff in
  fail_if (negb (supported_type_for_table type kind))
    Elf32RelocationPlanError.UnsupportedRelocationType ;;
  place ← or_fail (checked_add_guest_address load_bias offset)
            Elf32RelocationPlanError.PlaceOverflow;
  let entry original :=
    {| re_index := i; re_offset := offset; re_info := info; re_symbol_index := Z.shiftr info 8;
       re_type := type; re_place := place; re_original_word := original |} in
  if negb (type =? kRArmNone)
  then original ← plan_place memory place write_targets;
       Ok (place :: write_targets, entries ++ [entry (Some original)])
  else Ok (write_targets, entries ++ [entry None]).

Definition build_relocation_plan_for_table (memory : M) (graph : Elf32DependencyGraph)
    (object_index : nat) (options : Elf32RelocationOptions) (kind : Elf32RelocationTable)
    : plan_result (list Elf32RelocationEntry) :=
  object ← or_fail (objects graph !! object_index) Elf32RelocationPlanError.InvalidGraphObject;
  match select_table object kind with
  | None => Ok []
  | Some table =>
      fail_if (rel_max_relocations options =? 0) Elf32RelocationPlanError.InvalidOptions ;;
      fail_if (negb (rt_entry_size table =? kElf32RelEntrySize)
               || negb (rt_size table mod kElf32RelEntrySize =? 0))
        Elf32RelocationPlanError.RelocationReadFailed ;;
      let count := rt_size table / kElf32RelEntrySize in
      fail_if (rel_max_relocations options <? count) Elf32RelocationPlanError.TooManyRelocations ;;
      s ← foldE (plan_entry memory (lr_load_bias (load object)) table kind) ([], [])
            (seqZ 0 count);
      Ok (snd s)
  end.

Definition build_elf32_rel_relocation_plan (memory : M) (graph : Elf32DependencyGraph)
    (object_index : nat) (options : Elf32RelocationOptions) :=
  build_relocation_plan_for_table memory graph object_index options MainRel.

Definition build_elf32_plt_rel_relocation_plan (memory : M) (graph : Elf32DependencyGraph)
    (object_index : nat) (options : Elf32RelocationOptions) :=
  build_relocation_plan_for_table memory graph object_index options PltRel.

(** ** [resolve_relocation_references_for_table] *)
Definition resolve_result := result resolve_failure.

(** [resolve_failure(error, object_index, failing_relocation)] *)
Definition resolve_fails (error : Elf32RelocationResolveError.t) (relocation : option Z)
    : resolve_failure :=
  ResolveFailure error Elf32RelocationPlanError.None Elf32SymbolIndexError.None
    Elf32SymbolReadError.None Elf32LinkerStringError.None Elf32GraphSymbolLookupError.None
    Elf32SymbolLookupError.None None relocation.

Definition resolve_plan_failed (e : Elf32RelocationPlanError.t) : resolve_failure :=
  ResolveFailure Elf32RelocationResolveError.PlanFailed e Elf32SymbolIndexError.None
    Elf32SymbolReadError.None Elf32LinkerStringError.None Elf32GraphSymbolLookupError.None
    Elf32SymbolLookupError.None None None.

Definition resolve_index_failed (e : Elf32SymbolIndexError.t) : resolve_failure :=
  ResolveFailure Elf32RelocationResolveError.IndexBuildFailed Elf32RelocationPlanError.None e
    Elf32SymbolReadError.None Elf32LinkerStringError.None Elf32GraphSymbolLookupError.None
    Elf32SymbolLookupError.None None None.

Definition resolve_symbol_failed (relocation : Z) (e : Elf32SymbolReadError.t) : resolve_failure :=
  ResolveFailure Elf32RelocationResolveError.ReferenceSymbolReadFailed Elf32RelocationPlanError.None
    Elf32SymbolIndexError.None e Elf32LinkerStringError.None Elf32GraphSymbolLookupError.None
    Elf32SymbolLookupError.None None (Some relocation).

Definition resolve_name_failed (relocation : Z) (e : Elf32LinkerStringError.t) : resolve_failure :=
  ResolveFailure Elf32RelocationResolveError.ReferenceNameFailed Elf32RelocationPlanError.None
    Elf32SymbolIndexError.None Elf32SymbolReadError.None e Elf32GraphSymbolLookupError.None
    Elf32SymbolLookupError.None None (Some relocation).

Definition resolve_lookup_failed (relocation : Z) (f : graph_failure) : resolve_failure :=
  ResolveFailure Elf32RelocationResolveError.SymbolLookupFailed Elf32RelocationPlanError.None
    (gf_index_error f) Elf32SymbolReadError.None (gf_string_error f) (gf_error f)
    (gf_lookup_error f) (gf_failing_object f) (Some relocation).

(** The policy checks of a reference symbol. *)
Definition check_reference (relocation : Z) (symbol : Elf32Symbol) : resolve_result unit :=
  fail_if (negb (sym_binding symbol =? kStbGlobal) && negb (sym_binding symbol =? kStbWeak))
    (resolve_fails Elf32RelocationResolveError.UnsupportedReferenceBinding (Some relocation)) ;;
  fail_if (negb (Z.land (sym_raw_other symbol) 0xfc =? 0)
           || negb (sym_visibility symbol =? kStvDefault))
    (resolve_fails Elf32RelocationResolveError.UnsupportedReferenceVisibility (Some relocation)) ;;
  fail_if (negb (sym_type symbol =? kSttNotype) && negb (sym_type symbol =? kSttObject)
           && negb (sym_type symbol =? kSttFunc))
    (resolve_fails Elf32RelocationResolveError.UnsupportedReferenceType (Some relocation)) ;;
  fail_if ((sym_section_index symbol =? kShnCommon) || (sym_section_index symbol =? kShnXindex)
           || ((kShnLoReserve <=? sym_section_index symbol)
               && negb (sym_section_index symbol =? kShnAbs)))
    (resolve_fails Elf32RelocationResolveError.UnsupportedReferenceSection (Some relocation)).

(** The graph lookup of a reference; a miss is tolerated for weak references. *)
Definition bind_reference (memory : M) (graph : Elf32DependencyGraph) (object_index : nat)
    (options : Elf32RelocationOptions) (entry : Elf32RelocationEntry) (name : list Z)
    (symbol : Elf32Symbol) : resolve_result Elf32RelocationReference :=
  match lookup_elf32_graph_symbol_for_reference memory graph object_index (re_symbol_index entry)
          name (rel_symbols options) with
  | None => Err (resolve_fails Elf32RelocationResolveError.None (Some (re_index entry)))
  | Some (Ok found) =>
      Ok {| rr_symbol_index := re_symbol_index entry; rr_name := name; rr_symbol := symbol;
            rr_defining_symbol := Some (rsym_symbol (gsym_symbol found));
            rr_symbol_value := rsym_guest_value (gsym_symbol found);
            rr_unresolved_weak := false;
            rr_defining_object_index := Some (gsym_object_index found);
            rr_defining_symbol_index := Some (rsym_symbol_index (gsym_symbol found)) |}
  | Some (Err f) =>
      match gf_error f with
      | Elf32GraphSymbolLookupError.SymbolNotFound =>
          fail_if (negb (sym_binding symbol =? kStbWeak))
            (resolve_fails Elf32RelocationResolveError.UnresolvedStrongSymbol
               (Some (re_index entry))) ;;
          Ok {| rr_symbol_index := re_symbol_index entry; rr_name := name; rr_symbol := symbol;
                rr_defining_symbol := None; rr_symbol_value := 0; rr_unresolved_weak := true;
                rr_defining_object_index := None; rr_defining_symbol_index := None |}
      | _ => Err (resolve_lookup_failed (re_index entry) f)
      end
  end.

(** One iteration of the reference loop. *)
Definition resolve_entry (memory : M) (graph : Elf32DependencyGraph) (object_index : nat)
    (object : Elf32LoadedDependencyObject) (options : Elf32RelocationOptions)
    (index : Elf32SymbolIndex) (entry : Elf32RelocationEntry)
    : resolve_result Elf32ResolvedRelocationEntry :=
  if negb (symbol_bearing_type (re_type entry))
  then Ok {| rv_relocation := entry; rv_reference := None |}
  else
    let relocation := re_index entry in
    fail_if (re_symbol_index entry =? 0)
      (resolve_fails Elf32RelocationResolveError.MissingReferenceSymbol (Some relocation)) ;;
    fail_if (ix_symbol_count index <=? re_symbol_index entry)
      (resolve_fails Elf32RelocationResolveError.SymbolIndexOutOfRange (Some relocation)) ;;
    symbol ← map_err (resolve_symbol_failed relocation)
      (read_elf32_symbol_entry memory (linker_metadata object) index (re_symbol_index entry));
    string_table ← or_fail (lm_string_table (linker_metadata object))
      (resolve_name_failed relocation Elf32LinkerStringError.MissingStringTable);
    name ← map_err (resolve_name_failed relocation)
      (read_elf32_string_table_entry memory string_table (sym_name_offset symbol)
         (so_max_name_bytes (rel_symbols options)));
    fail_if (bool_decide (name = []))
      (resolve_name_failed relocation Elf32LinkerStringError.None) ;;
    check_reference relocation symbol ;;
    reference ← bind_reference memory graph object_index options entry name symbol;
    Ok {| rv_relocation := entry; rv_reference := Some reference |}.

Definition resolve_relocation_references_for_table (memory : M) (graph : Elf32DependencyGraph)
    (object_index : nat) (options : Elf32RelocationOptions) (kind : Elf32RelocationTable)
    : resolve_result (list Elf32ResolvedRelocationEntry) :=
  entries ← map_err resolve_plan_failed
    (build_relocation_plan_for_table memory graph object_index options kind);
  if negb (existsb (fun entry => symbol_bearing_type (re_type entry)) entries)
  then Ok ((fun entry => {| rv_relocation := entry; rv_reference := None |}) <$> entries)
  else
    match objects graph !! object_index with
    | None => Err (resolve_fails Elf32RelocationResolveError.InvalidOptions None)
    | Some object =>
        fail_if (negb (valid_symbol_options (rel_symbols options)))
          (resolve_fails Elf32RelocationResolveError.InvalidOptions None) ;;
        index ← map_err resolve_index_failed
          (build_elf32_symbol_index memory (linker_metadata object) (rel_symbols options));
        mapE (resolve_entry memory graph object_index object options index) entries
    end.

Definition resolve_elf32_rel_relocation_references (memory : M) (graph : Elf32DependencyGraph)
    (object_index : nat) (options : Elf32RelocationOptions) :=
  resolve_relocation_references_for_table memory graph object_index options MainRel.

Definition resolve_elf32_plt_rel_relocation_references (memory : M) (graph : Elf32DependencyGraph)
    (object_index : nat) (options : Elf32RelocationOptions) :=
  resolve_relocation_references_for_table memory graph object_index options PltRel.

(** ** [prepare_relocations_for_table] *)
Definition apply_result := result apply_failure.

(** The definition bound to the reference is a Thumb function. *)
Definition thumb_target (reference : Elf32RelocationReference) : bool :=
  negb (rr_unresolved_weak reference)
  && match rr_defining_symbol reference with
     | Some symbol => (sym_type symbol =? kSttFunc) && negb (Z.land (sym_value symbol) 1 =? 0)
     | None => false
     end.

(** The R_ARM_REL32 word: the Thumb bit of a function symbol is stripped from S
    and put back as T. *)
Definition rel32_word (reference : Elf32RelocationReference) (addend place : Z) : Z :=
  let thumb := thumb_target reference in
  let s := if thumb then Z.land (rr_symbol_value reference) (UINT32_MAX - 1)
           else rr_symbol_value reference in
  let t := if thumb then 1 else 0 in
  wrap_sub (Z.lor (wrap_add s addend) t) place.

(** The [switch] over the relocation type. *)
Definition final_word (load_bias : Z) (kind : Elf32RelocationTable)
    (resolved : Elf32ResolvedRelocationEntry) (original : Z) : apply_result Z :=
  let entry := rv_relocation resolved in
  let invalid := apply_fails Elf32RelocationApplyError.InvalidResolvedEntry
                   (Some (re_index entry)) kind in
  if re_type entry =? kRArmRelative
  then
    fail_if (negb (re_symbol_index entry =? 0))
      (apply_fails Elf32RelocationApplyError.InvalidRelativeSymbol (Some (re_index entry)) kind) ;;
    Ok (wrap_add load_bias original)
  else if (re_type entry =? kRArmGlobDat) || (re_type entry =? kRArmJumpSlot)
  then reference ← or_fail (rv_reference resolved) invalid; Ok (rr_symbol_value reference)
  else if re_type entry =? kRArmAbs32
  then reference ← or_fail (rv_reference resolved) invalid;
       Ok (wrap_add (rr_symbol_value reference) original)
  else if re_type entry =? kRArmRel32
  then reference ← or_fail (rv_reference resolved) invalid;
       Ok (rel32_word reference original (re_place entry))
  else Err invalid.

(** One iteration of the preparation loop. *)
Definition prepare_entry (load_bias : Z) (kind : Elf32RelocationTable)
    (pending : list Elf32RelocationWrite) (resolved : Elf32ResolvedRelocationEntry)
    : apply_result (list Elf32RelocationWrite) :=
  let entry := rv_relocation resolved in
  if re_type entry =? kRArmNone then Ok pending
  else
    original ← or_fail (re_original_word entry)
      (apply_fails Elf32RelocationApplyError.InvalidResolvedEntry (Some (re_index entry)) kind);
    word ← final_word load_bias kind resolved original;
    Ok (pending ++ [{| rw_relocation_index := re_index entry; rw_type := re_type entry;
                       rw_place := re_place entry; rw_original_word := original;
                       rw_final_word := word; rw_table := kind |}]).

Definition prepare_relocations_for_table (memory : M) (graph : Elf32DependencyGraph)
    (object_index : nat) (options : Elf32RelocationOptions) (kind : Elf32RelocationTable)
    : apply_result (list Elf32RelocationWrite) :=
  resolution ← map_err
    (fun f => ApplyFailure Elf32RelocationApplyError.ResolveFailed
                Elf32RelocationApplyError.ResolveFailed (Some f) (rf_failing_relocation f) None
                (Some kind) None)
    (resolve_relocation_references_for_table memory graph object_index options kind);
  object ← or_fail (objects graph !! object_index)
    (apply_fails Elf32RelocationApplyError.InvalidResolvedEntry None kind);
  foldE (prepare_entry (lr_load_bias (load object)) kind) [] resolution.

(** ** [apply_pending_relocations] *)

(** The reverse rollback loop; [failure_] is the first restoration that failed. *)
Fixpoint rollback_writes (memory : M) (applied : list Elf32RelocationWrite)
    (rollback_failed : bool) (failure_ : option Elf32RelocationWrite)
    : bool * option Elf32RelocationWrite * M :=
  match applied with
  | [] => (rollback_failed, failure_, memory)
  | previous :: rest =>
      match restore_word memory (rw_place previous) (rw_original_word previous) with
      | (true, memory) => rollback_writes memory rest rollback_failed failure_
      | (false, memory) =>
          rollback_writes memory rest true
            (match failure_ with None => Some previous | Some f => Some f end)
      end
  end.

(** What happens when the write of [write] failed after [applied] (latest first). *)
Definition fail_write (memory : M) (write : Elf32RelocationWrite)
    (applied : list Elf32RelocationWrite) : apply_failure * M :=
  let failed_target_unchanged :=
    bool_decide (read_word memory (rw_place write) = Some (rw_original_word write)) in
  let '(restored, memory) :=
    if failed_target_unchanged then (true, memory)
    else restore_word memory (rw_place write) (rw_original_word write) in
  let '(rollback_failed, failure_, memory) :=
    rollback_writes memory applied (negb restored) (if restored then None else Some write) in
  (ApplyFailure
     (if rollback_failed then Elf32RelocationApplyError.RollbackFailed
      else Elf32RelocationApplyError.TargetWriteFailed)
     Elf32RelocationApplyError.TargetWriteFailed None (Some (rw_relocation_index write))
     (rw_relocation_index <$> failure_) (Some (rw_table write)) (rw_table <$> failure_), memory).

(** The write loop, with the writes applied so far (latest first). *)
Fixpoint apply_writes (memory : M) (applied pending : list Elf32RelocationWrite)
    : option apply_failure * M :=
  match pending with
  | [] => (None, memory)
  | write :: rest =>
      match write_word memory (rw_place write) (rw_final_word write) with
      | (true, memory) => apply_writes memory (write :: applied) rest
      | (false, memory) =>
          let '(f, memory) := fail_write memory write applied in (Some f, memory)
      end
  end.

Definition apply_pending_relocations (memory : M) (pending : list Elf32RelocationWrite)
    : apply_result (list Elf32RelocationWrite) * M :=
  match apply_writes memory [] pending with
  | (None, memory) => (Ok pending, memory)
  | (Some f, memory) => (Err f, memory)
  end.

Definition apply_relocations_for_table (memory : M) (graph : Elf32DependencyGraph)
    (object_index : nat) (options : Elf32RelocationOptions) (kind : Elf32RelocationTable)
    : apply_result (list Elf32RelocationWrite) * M :=
  match prepare_relocations_for_table memory graph object_index options kind with
  | Err f => (Err f, memory)
  | Ok pending => apply_pending_relocations memory pending
  end.

Definition apply_elf32_rel_relocations (memory : M) (graph : Elf32DependencyGraph)
    (object_index : nat) (options : Elf32RelocationOptions) :=
  apply_relocations_for_table memory graph object_index options MainRel.

Definition apply_elf32_plt_rel_relocations (memory : M) (graph : Elf32DependencyGraph)
    (object_index : nat) (options : Elf32RelocationOptions) :=
  apply_relocations_for_table memory graph object_index options PltRel.

(** The cross-table duplicate check of the combined application, over the growing
    set of targets. *)
Fixpoint cross_duplicate (write_targets : list Z) (plt_pending : list Elf32RelocationWrite)
    : option Elf32RelocationWrite :=
  match plt_pending with
  | [] => None
  | item :: rest =>
      if bool_decide (rw_place item ∈ write_targets) then Some item
      else cross_duplicate (rw_place item :: write_targets) rest
  end.

Definition apply_elf32_combined_relocations (memory : M) (graph : Elf32DependencyGraph)
    (object_index : nat) (options : Elf32RelocationOptions)
    : apply_result (list Elf32RelocationWrite) * M :=
  match prepare_relocations_for_table memory graph object_index options MainRel with
  | Err f => (Err f, memory)
  | Ok main_pending =>
      match prepare_relocations_for_table memory graph object_index options PltRel with
      | Err f => (Err f, memory)
      | Ok plt_pending =>
          match cross_duplicate (rw_place <$> main_pending) plt_pending with
          | Some item =>
              (Err (apply_fails Elf32RelocationApplyError.DuplicateTargetAcrossTables
                      (Some (rw_relocation_index item)) PltRel), memory)
          | None => apply_pending_relocations memory (main_pending ++ plt_pending)
          end
      end
  end.
End relocation.

(** ** The transaction *)
Section transaction.
Context {M : Type} `{GuestMemorySpec M}.
Implicit Types (m : M).

(** A place of a word-sized write. *)
Definition word_place (p : Z) : Prop := is_u32 p /\ p mod 4 = 0.

Definition writable_word m (p : Z) : Prop := forallb (gm_writable m) (seqZ p 4) = true.

Lemma word_place_fits p : word_place p -> p + 4 <= 2 ^ 32.
Proof. intros [Hp Hm]. mod_lia. Qed.

Lemma word_places_disjoint p q x :
  word_place p -> word_place q -> p <= x < p + 4 -> q <= x < q + 4 -> p = q.
Proof. intros [_ Hp] [_ Hq] Hx Hy. mod_lia. Qed.

Lemma read_word_peek m p v :
  gm_ok m -> is_u32 p ->
  read_word m p = Some v <->
  is_u32 v /\ forall i, 0 <= i < 4 -> gm_peek m (p + i) = Some (byte_at (encode_u32_le v) i).
Proof.
  intros Hm Hp. assert (Hs : 0 < 4 <= span_max) by (unfold span_max; lia).
  transitivity (gm_read m p 4 = Some (encode_u32_le v) /\ is_u32 v).
  - rewrite read_word_iff by done. unfold read_word. destruct (gm_read m p 4); cbn; naive_solver.
  - rewrite gm_read_spec by done. rewrite mapM_seqZ_Some by lia. naive_solver.
Qed.

(** The effect of a successful word write. *)
Lemma write_word_effect m p v m' :
  gm_ok m -> is_u32 p -> is_u32 v -> write_word m p v = (true, m') ->
  gm_ok m' /\ (forall x, gm_writable m' x = gm_writable m x) /\ writable_word m p /\
  read_word m' p = Some v /\
  forall x, ~ (p <= x < p + 4) -> gm_peek m' x = gm_peek m x.
Proof.
  intros Hm Hp Hv Hw. unfold write_word in Hw.
  assert (Hlen : length (encode_u32_le v) = 4%nat) by done.
  assert (Hs : 0 < Z.of_nat (length (encode_u32_le v)) <= span_max) by (rewrite Hlen; unfold span_max; lia).
  assert (Hok : gm_ok m').
  { apply (gm_write_ok m p (encode_u32_le v)); [done|apply encode_u32_le_bytes|done|lia|done]. }
  split; [done|]. split; [intros x; by eapply gm_write_writable|]. split.
  { unfold writable_word. pose proof (gm_write_success m p (encode_u32_le v) Hm Hp Hs) as Hsuc.
    rewrite Hw in Hsuc. cbn [fst] in Hsuc. rewrite Hlen in Hsuc. by symmetry. }
  split.
  - apply read_word_peek; [done|done|]. split; [done|]. intros i Hi.
    rewrite (gm_write_peek m p (encode_u32_le v) m') by done. rewrite Hlen.
    rewrite decide_True by lia. replace (p + i - p) with i by lia. unfold byte_at.
    destruct (encode_u32_le v !! Z.to_nat i) eqn:E; [done|].
    apply lookup_ge_None in E. rewrite Hlen in E. lia.
  - intros x Hx. rewrite (gm_write_peek m p (encode_u32_le v) m') by done. rewrite Hlen.
    by rewrite decide_False by lia.
Qed.

Lemma write_word_writable m p v :
  gm_ok m -> is_u32 p -> writable_word m p -> exists m', write_word m p v = (true, m').
Proof.
  intros Hm Hp Hw. unfold write_word.
  pose proof (gm_write_success m p (encode_u32_le v) Hm Hp) as Hs.
  specialize (Hs ltac:(cbn; unfold span_max; lia)). cbn [length encode_u32_le] in Hs.
  change (Z.of_nat 4) with 4 in Hs. rewrite Hw in Hs.
  destruct (gm_write m p (encode_u32_le v)) as [b m']. cbn in Hs. subst b. by eexists.
Qed.

(** A write whose original word is the one in memory [m0]. *)
Record write_planned (m0 : M) (w : Elf32RelocationWrite) : Prop := {
  wp_place : word_place (rw_place w);
  wp_original : read_word m0 (rw_place w) = Some (rw_original_word w);
  wp_final : is_u32 (rw_final_word w);
}.

(** [m] is [m0] with the words of [ws] replaced by their final values. *)
Record written (m0 : M) (ws : list Elf32RelocationWrite) (m : M) : Prop := {
  wr_ok : gm_ok m;
  wr_writable x : gm_writable m x = gm_writable m0 x;
  wr_words w : w ∈ ws -> read_word m (rw_place w) = Some (rw_final_word w) /\
                         writable_word m0 (rw_place w);
  wr_frame x : (forall w, w ∈ ws -> ~ (rw_place w <= x < rw_place w + 4)) -> gm_peek m x = gm_peek m0 x;
}.

Lemma writable_word_ext m m' p :
  (forall x, gm_writable m' x = gm_writable m x) -> writable_word m p -> writable_word m' p.
Proof. intros Hw. unfold writable_word. intros <-. apply forallb_ext_elem. intros x _. apply Hw. Qed.

Lemma read_word_ext m m' p :
  gm_ok m -> gm_ok m' -> is_u32 p -> (forall x, p <= x < p + 4 -> gm_peek m' x = gm_peek m x) ->
  read_word m' p = read_word m p.
Proof.
  intros Hm Hm' Hp Hx. unfold read_word.
  rewrite (gm_read_ext m' m) by (done || (unfold span_max; lia)). done.
Qed.

(** The places of a transaction are pairwise distinct words. *)
Definition distinct_places (ws : list Elf32RelocationWrite) : Prop := NoDup (rw_place <$> ws).

Lemma other_place_untouched m0 ws m w :
  gm_ok m0 -> written m0 ws m -> Forall (write_planned m0) ws -> write_planned m0 w ->
  rw_place w ∉ rw_place <$> ws -> read_word m (rw_place w) = Some (rw_original_word w).
Proof.
  intros Hm0 Hw Hall Hpw Hnew. rewrite <- (wp_original _ _ Hpw).
  apply read_word_ext; [done|apply Hw|apply Hpw|]. intros x Hx.
  apply (wr_frame _ _ _ Hw). intros w' Hw' Hx'.
  apply Hnew. apply list_elem_of_fmap. exists w'. split; [|done].
  rewrite Forall_forall in Hall.
  eapply word_places_disjoint; [apply Hpw|by apply Hall|exact Hx|exact Hx'].
Qed.

(** One more write. *)
Lemma written_cons m0 ws m w m' :
  gm_ok m0 -> written m0 ws m -> Forall (write_planned m0) ws -> write_planned m0 w ->
  rw_place w ∉ rw_place <$> ws ->
  write_word m (rw_place w) (rw_final_word w) = (true, m') -> written m0 (w :: ws) m'.
Proof.
  intros Hm0 Hw Hall Hpw Hnew Hwrite. destruct (wp_place _ _ Hpw) as [Hpu Hpm].
  apply write_word_effect in Hwrite as (Hok & Hwr & Hww & Hrd & Hfr); [|apply Hw|done|apply Hpw].
  rewrite Forall_forall in Hall. split.
  - done.
  - intros x. rewrite Hwr. apply Hw.
  - intros v Hv. apply elem_of_cons in Hv as [->|Hv].
    + split; [done|]. eapply writable_word_ext; [|exact Hww]. intros x. symmetry. apply Hw.
    + destruct (wr_words _ _ _ Hw v Hv) as [Hvr Hvw]. split; [|done]. rewrite <- Hvr.
      destruct (wp_place _ _ (Hall v Hv)) as [Hvu Hvm].
      apply read_word_ext; [apply Hw|done|done|]. intros x Hx. apply Hfr. intros Hx'.
      apply Hnew. apply list_elem_of_fmap. exists v. split; [|done].
      eapply word_places_disjoint; [by split|by split|exact Hx'|exact Hx].
  - intros x Hx. rewrite Hfr by (apply Hx; by left). apply (wr_frame _ _ _ Hw).
    intros v Hv. apply Hx. by right.
Qed.

(** One restoration. *)
Lemma written_restore m0 ws m w :
  gm_ok m0 -> written m0 (w :: ws) m -> Forall (write_planned m0) (w :: ws) ->
  rw_place w ∉ rw_place <$> ws ->
  exists m', restore_word m (rw_place w) (rw_original_word w) = (true, m') /\ written m0 ws m'.
Proof.
  intros Hm0 Hw Hall Hnew. apply Forall_cons in Hall as [Hpw Hall]. rewrite Forall_forall in Hall.
  destruct (wp_place _ _ Hpw) as [Hpu Hpm].
  pose proof (wp_original _ _ Hpw) as Horig.
  assert (Hou : is_u32 (rw_original_word w)) by (by apply read_word_peek in Horig as [? _]).
  destruct (wr_words _ _ _ Hw w) as [_ Hww]; [by left|].
  destruct (write_word_writable m (rw_place w) (rw_original_word w)) as [m' Hwrite]; [apply Hw|done| |].
  { eapply writable_word_ext; [|exact Hww]. intros x. apply Hw. }
  exists m'. unfold restore_word. rewrite Hwrite.
  apply write_word_effect in Hwrite as (Hok & Hwr & _ & Hrd & Hfr); [|apply Hw|done|done].
  split; [by rewrite bool_decide_true|]. split.
  - done.
  - intros x. rewrite Hwr. apply Hw.
  - intros v Hv. destruct (wr_words _ _ _ Hw v) as [Hvr Hvw]; [by right|]. split; [|done].
    rewrite <- Hvr. destruct (wp_place _ _ (Hall v Hv)) as [Hvu Hvm].
    apply read_word_ext; [apply Hw|done|done|]. intros x Hx. apply Hfr. intros Hx'.
    apply Hnew. apply list_elem_of_fmap. exists v. split; [|done].
    eapply word_places_disjoint; [by split|by split|exact Hx'|exact Hx].
  - intros x Hx. destruct (decide (rw_place w <= x < rw_place w + 4)) as [Hin|Hout].
    + apply read_word_peek in Hrd as [_ Hrd]; [|done|done].
      apply read_word_peek in Horig as [_ Horig]; [|done|done].
      replace x with (rw_place w + (x - rw_place w)) by lia.
      rewrite Hrd, Horig by lia. done.
    + rewrite Hfr by done. apply (wr_frame _ _ _ Hw). intros v [->|Hv]%elem_of_cons; [done|by apply Hx].
Qed.

Lemma rollback_writes_restore m0 ws m :
  gm_ok m0 -> written m0 ws m -> Forall (write_planned m0) ws -> distinct_places ws ->
  exists m', rollback_writes m ws false None = (false, None, m') /\ written m0 [] m'.
Proof.
  intros Hm0. revert m; induction ws as [|w ws IH]; intros m Hw Hall Hd; cbn [rollback_writes].
  { by exists m. }
  unfold distinct_places in Hd. cbn [fmap list_fmap] in Hd. apply NoDup_cons in Hd as [Hnew Hd].
  destruct (written_restore m0 ws m w Hm0 Hw Hall Hnew) as (m1 & -> & Hw1).
  apply Forall_cons in Hall as [_ Hall]. by apply IH.
Qed.

(** The reported relocation is the first of [pending] whose place is not writable. *)
Definition first_unwritable (m : M) (pending : list Elf32RelocationWrite) (f : apply_failure) : Prop :=
  exists l1 w l2, pending = l1 ++ w :: l2 /\
    af_failing_relocation f = Some (rw_relocation_index w) /\ af_failing_table f = Some (rw_table w) /\
    ~ writable_word m (rw_place w) /\ Forall (fun v => writable_word m (rw_place v)) l1.

Lemma apply_writes_spec m0 applied pending m :
  gm_ok m0 -> written m0 applied m -> Forall (write_planned m0) (applied ++ pending) ->
  distinct_places (applied ++ pending) ->
  match apply_writes m applied pending with
  | (None, m') => written m0 (applied ++ pending) m'
  | (Some f, m') => written m0 [] m' /\ af_error f = Elf32RelocationApplyError.TargetWriteFailed /\
                    (af_rollback_failing_relocation f = None /\ af_resolution_failure f = None) /\
                    first_unwritable m0 pending f
  end.
Proof.
  intros Hm0. revert applied m; induction pending as [|w pending IH]; intros applied m Hw Hall Hd;
    cbn [apply_writes].
  { by rewrite app_nil_r. }
  assert (Hnew : rw_place w ∉ rw_place <$> applied).
  { unfold distinct_places in Hd. rewrite fmap_app in Hd. apply NoDup_app in Hd as (_ & Hd & _).
    intros Hin. apply (Hd _ Hin). cbn. by left. }
  assert (Hpw : write_planned m0 w) by (rewrite Forall_forall in Hall; apply Hall; set_solver).
  assert (Happ : Forall (write_planned m0) applied) by (by apply Forall_app in Hall as [? _]).
  assert (Hperm : applied ++ w :: pending ≡ₚ (w :: applied) ++ pending) by (cbn; by rewrite Permutation_middle).
  destruct (write_word m (rw_place w) (rw_final_word w)) as [[] m1] eqn:Ew.
  - pose proof (written_cons m0 applied m w m1 Hm0 Hw Happ Hpw Hnew Ew) as Hw1.
    specialize (IH (w :: applied) m1 Hw1).
    rewrite <- Hperm in IH at 1. specialize (IH Hall).
    unfold distinct_places in IH at 1. rewrite <- Hperm in IH at 1. specialize (IH Hd).
    destruct (apply_writes m1 (w :: applied) pending) as [[f|] m'].
    + destruct IH as (I1 & I2 & I3 & l1 & v & l2 & -> & I4 & I5 & I6 & I7). split; [done|]. split; [done|].
      split; [done|]. exists (w :: l1), v, l2. split_and!; try done. constructor; [|done].
      apply (wr_words _ _ _ Hw1). by left.
    + destruct IH as [I1 I2 I3 I4]. split; [done|done|..].
      * intros v Hv. apply I3. by rewrite <- Hperm.
      * intros x Hx. apply I4. intros v Hv. apply Hx. by rewrite Hperm.
  - assert (m1 = m) as -> by (eapply gm_write_failure; [apply Hw|exact Ew]).
    unfold fail_write.
    rewrite bool_decide_true by (by apply (other_place_untouched m0 applied)). cbn [negb].
    destruct (rollback_writes_restore m0 applied m Hm0 Hw Happ) as (m' & -> & Hw').
    { unfold distinct_places in *. rewrite fmap_app in Hd. by apply NoDup_app in Hd as (? & _ & _). }
    cbn. split; [done|]. split; [done|]. split; [done|]. exists [], w, pending. split; [done|]. split; [done|]. split; [done|].
    split; [|constructor]. intros Hww. destruct (wp_place _ _ Hpw) as [Hpu _].
    destruct (write_word_writable m (rw_place w) (rw_final_word w)) as [m2 Hm2]; [apply Hw|done| |congruence].
    eapply writable_word_ext; [|exact Hww]. intros x. apply Hw.
Qed.
End transaction.

(** ** Ranges: what the words of a preparation are *)
Section ranges.
Context {M : Type} `{GuestMemorySpec M}.
Context (memory : M) (Hm : gm_ok memory).

Lemma checked_add_range base offset a : checked_add_guest_address base offset = Some a -> is_u32 a.
Proof.
  unfold checked_add_guest_address. destruct (_ <? _); [done|]. intros [= <-]. apply u32_range.
Qed.

Lemma read_symbol_range symbols i s : read_symbol memory symbols i = Some s -> is_u32 (sym_value s).
Proof.
  unfold read_symbol. intros Hr. apply bind_Some in Hr as (a & Ha & Hr).
  apply bind_Some in Hr as (bs & Hb & [= <-]). cbn. apply decode_u32_le_range.
  apply (gm_read_bytes memory a kElf32SymbolEntrySize); [done|by eapply checked_add_range|by split|exact Hb].
Qed.

Definition value_ok (r : lookup_result Elf32ResolvedSymbol) : Prop :=
  match r with Ok r => is_u32 (rsym_guest_value r) | Err _ => True end.

Lemma value_ok_bind {A} (r : lookup_result A) (f : A -> lookup_result Elf32ResolvedSymbol) :
  (forall a, value_ok (f a)) -> value_ok (r ≫= f).
Proof. intros Hf. destruct r; [apply Hf|done]. Qed.

Lemma evaluate_candidate_range bias md strings symbols index name options requirement i r :
  evaluate_candidate memory bias md strings symbols index name options requirement i = Ok (Some r) ->
  is_u32 (rsym_guest_value r).
Proof.
  intros He. unfold evaluate_candidate in He.
  apply bind_ok in He as ([] & _ & He). apply bind_ok in He as (symbol & Hs%or_fail_ok & He).
  apply bind_ok in He as (nm & _ & He). destruct (negb _); [done|].
  destruct (ordinary_miss symbol); [done|]. apply bind_ok in He as ([] & _ & He).
  apply bind_ok in He as (mt & _ & He). destruct (negb mt); [done|].
  apply bind_ok in He as (v & Hval & [= <-]). cbn. unfold candidate_value in Hval.
  destruct (negb _).
  - apply or_fail_ok in Hval. by eapply checked_add_range.
  - injection Hval as <-. by eapply read_symbol_range.
Qed.

Lemma lookup_impl_range bias md index name options requirement :
  value_ok (lookup_elf32_symbol_impl memory bias md index name options requirement).
Proof.
  unfold lookup_elf32_symbol_impl.
  do 2 (apply value_ok_bind; intros ?).
  destruct (lm_string_table md) as [strings|]; [|done].
  destruct (lm_symbol_table md) as [symbols|]; [|done].
  apply value_ok_bind; intros ?.
  pose proof (evaluate_candidate_range bias md strings symbols index name options requirement) as Hev.
  destruct (ix_gnu_hash index) as [g|]; [|destruct (ix_sysv_hash index) as [h|]; [|done]].
  - unfold gnu_lookup, run_chain.
    do 5 (apply value_ok_bind; intros ?). unfold lookup_result.
    destruct (loop _ _ _) as [s|r] eqn:El; [done|].
    eapply (loop_exit value_ok); [|exact El]. clear El r. intros s r. unfold gnu_lookup_step.
    destruct (_ <=? s); [by intros [= <-]|]. destruct (read_indexed_word _ _ _); [|by intros [= <-]].
    destruct (if _ =? _ then evaluate_candidate _ _ _ _ _ _ _ _ _ s else _) as [[r'|]|e] eqn:Ee;
      [|destruct (negb _); [by intros [= <-]|done]|by intros [= <-]].
    intros [= <-]. cbn. destruct (_ =? _); [by apply (Hev s)|done].
  - unfold sysv_lookup.
    do 2 (apply value_ok_bind; intros ?). unfold lookup_result.
    destruct (loop _ _ _) as [s|r] eqn:El; [done|].
    eapply (loop_exit value_ok); [|exact El]. clear El r. intros [s hops] r. unfold sysv_lookup_step.
    destruct (_ && _); [|destruct (negb _); by intros [= <-]].
    destruct (evaluate_candidate _ _ _ _ _ _ _ _ _ s) as [[r'|]|e] eqn:Ee; [| |by intros [= <-]].
    + intros [= <-]. cbn. by apply (Hev s).
    + destruct (read_indexed_word _ _ _); [|by intros [= <-]]. destruct (_ && _); [by intros [= <-]|done].
Qed.

Definition graph_value_ok (r : graph_result) : Prop :=
  match r with Ok r => is_u32 (rsym_guest_value (gsym_symbol r)) | Err _ => True end.

Lemma search_object_range graph name options requirement s i e r :
  search_object memory graph name options requirement s i e = inr r -> graph_value_ok r.
Proof.
  unfold search_object. destruct (objects graph !! i) as [object|]; [|by intros [= <-]].
  destruct (default _ _); [done|]. destruct (_ <=? _); [by intros [= <-]|].
  destruct (probe_object _ _ _ _ _ _) as [r'|] eqn:Ep; [|done]. intros [= <-].
  unfold probe_object in Ep. destruct (bool_decide _); [|done].
  destruct (build_elf32_symbol_index _ _ _) as [ix|]; [|by injection Ep as <-].
  pose proof (lookup_impl_range (lr_load_bias (load object)) (linker_metadata object) ix name options
    requirement) as Hr.
  destruct (lookup_elf32_symbol_impl _ _ _ _ _ _ _) as [sy|f]; [by injection Ep as <-|].
  destruct (lf_error f); try done; by injection Ep as <-.
Qed.

Lemma graph_lookup_range graph start i name options r :
  lookup_elf32_graph_symbol_for_reference memory graph start i name options = Some r ->
  graph_value_ok r.
Proof.
  unfold lookup_elf32_graph_symbol_for_reference. destruct (_ =? 0) eqn:E0; [by intros [= <-]|].
  destruct (objects graph !! start) as [st|]; [|by intros [= <-]].
  destruct (resolve_elf32_symbol_version_requirement _ _ _ _ _) as [rq|]; [|by intros [= <-]].
  unfold lookup_elf32_graph_symbol_impl. rewrite E0. destruct (_ <=? _); [by intros [= <-]|].
  destruct (list_find _ _) as [[]|]; [by intros [= <-]|].
  destruct (if lm_symbolic _ then _ else _) as [s1|r1] eqn:E1; cycle 1.
  { destruct (lm_symbolic _); [|done]. intros [= <-]. by eapply search_object_range. }
  destruct (search_objects _ _ _ _ _ _ _) as [s2|r2] eqn:E2; cycle 1.
  { intros [= <-]. clear E1. revert s1 E2. induction (so_global_scope_objects options) as [|x l IH]; intros s1; [done|].
    cbn [search_objects]. destruct (search_object _ _ _ _ _ s1 x _) eqn:Es; [apply IH|].
    intros [= <-]. by eapply search_object_range. }
  destruct (loop_nat _ _ _) as [s3|r3] eqn:E3; [done|]. intros [= <-].
  eapply (loop_nat_exit graph_value_ok); [|exact E3]. intros s r'. unfold bfs_step.
  destruct (pending s) as [|x rest]; [by intros [= <-]|].
  destruct (objects graph !! x); [|by intros [= <-]].
  destruct (search_object _ _ _ _ _ _ x _) eqn:Es; [|by intros [= <-]; eapply search_object_range].
  destruct (default _ _); [done|]. destruct (push_edges _ _ _ _ _); [done|by intros [= <-]].
Qed.
End ranges.

(** ** What a successful preparation hands to the transaction *)
Section preparation.
Context {M : Type} `{GuestMemorySpec M}.
Context (memory : M) (Hm : gm_ok memory).

Lemma aligned_place p : is_u32 p -> Z.land p 0x3 = 0 -> word_place p.
Proof.
  intros Hp Ha. split; [done|]. change 0x3 with (Z.ones 2) in Ha. by rewrite Z.land_ones in Ha by lia.
Qed.

(** A planned entry that writes has a readable, aligned word as its place. *)
Definition entry_ok (e : Elf32RelocationEntry) : Prop :=
  re_type e <> kRArmNone ->
  word_place (re_place e) /\
  exists w, re_original_word e = Some w /\ read_word memory (re_place e) = Some w.

(** The places the entries write, in table order. *)
Definition written_places (l : list Elf32RelocationEntry) : list Z :=
  re_place <$> filter (fun e => re_type e <> kRArmNone) l.

Lemma written_places_snoc l e :
  written_places (l ++ [e]) =
  written_places l ++ if decide (re_type e <> kRArmNone) then [re_place e] else [].
Proof.
  unfold written_places. rewrite filter_app, fmap_app. f_equal. rewrite filter_cons, filter_nil.
  by case_decide.
Qed.

Lemma build_plan_ok graph i options kind l :
  build_relocation_plan_for_table memory graph i options kind = Ok l ->
  Forall entry_ok l /\ NoDup (written_places l).
Proof.
  intros Hb. unfold build_relocation_plan_for_table in Hb.
  apply bind_ok in Hb as (object & _ & Hb). destruct (select_table object kind) as [table|]; cycle 1.
  { injection Hb as <-. split; constructor. }
  do 3 apply bind_ok in Hb as ([] & _ & Hb). apply bind_ok in Hb as ([wt l'] & Hf & [= <-]). cbn.
  set (P s := s.1 ≡ₚ written_places s.2 /\ NoDup s.1 /\ Forall entry_ok s.2).
  cut (P (wt, l')). { intros (Hp & Hn & Ha). cbn in *. split; [done|]. by rewrite <- Hp. }
  eapply (foldE_ind _ P); [| |exact Hf]. { repeat constructor. }
  intros [wt1 l1] j [wt2 l2] _ (Hp & Hn & Ha) Hs. cbn in Hp, Hn, Ha. unfold plan_entry in Hs.
  apply bind_ok in Hs as (ea & _ & Hs). apply bind_ok in Hs as (bs & _ & Hs).
  apply bind_ok in Hs as ([] & _ & Hs). apply bind_ok in Hs as (place & Hpl%or_fail_ok & Hs).
  apply checked_add_range in Hpl.
  destruct (Z.eqb_spec (Z.land (decode_u32_le bs 4) 0xff) kRArmNone) as [Et|Et]; cbn [negb] in Hs.
  - injection Hs as <- <-. unfold P. cbn [fst snd]. rewrite written_places_snoc.
    rewrite decide_False by (cbn; by intros Hd). rewrite app_nil_r. split; [done|]. split; [done|].
    apply Forall_app_2; [done|]. apply Forall_singleton. intros Hd. cbn in Hd. done.
  - apply bind_ok in Hs as (w & Hplan & [= <- <-]). unfold plan_place in Hplan.
    apply bind_ok in Hplan as ([] & G1%fail_if_ok & Hplan).
    apply bind_ok in Hplan as (w' & Hw%or_fail_ok & Hplan).
    apply bind_ok in Hplan as ([] & G2%fail_if_ok & [= ->]). bool_prop.
    unfold P. cbn [fst snd]. rewrite written_places_snoc, decide_True by done. cbn [re_place].
    split; [by rewrite <- Hp, Permutation_app_comm|]. split.
    + constructor; [|done]. by apply bool_decide_eq_false in G2.
    + apply Forall_app_2; [done|]. apply Forall_singleton. intros _. cbn. split; [|by exists w].
      apply aligned_place; [done|lia].
Qed.

(** A resolved entry that carries a reference has a 32-bit symbol value. *)
Definition resolved_ok (r : Elf32ResolvedRelocationEntry) : Prop :=
  entry_ok (rv_relocation r) /\
  forall ref, rv_reference r = Some ref -> is_u32 (rr_symbol_value ref).

Lemma bind_reference_range graph i options e name symbol r :
  bind_reference memory graph i options e name symbol = Ok r -> is_u32 (rr_symbol_value r).
Proof.
  unfold bind_reference. intros Hb.
  destruct (lookup_elf32_graph_symbol_for_reference _ _ _ _ _ _) as [g|] eqn:El; [|done].
  apply graph_lookup_range in El; [|done]. destruct g as [found|f].
  - injection Hb as <-. exact El.
  - destruct (gf_error f); try done. apply bind_ok in Hb as ([] & _ & [= <-]). cbn. word_lia.
Qed.

Lemma resolve_entry_ok graph i object options ix e r :
  resolve_entry memory graph i object options ix e = Ok r ->
  rv_relocation r = e /\ forall ref, rv_reference r = Some ref -> is_u32 (rr_symbol_value ref).
Proof.
  unfold resolve_entry. intros Hr. destruct (negb _); [by injection Hr as <-|].
  do 2 apply bind_ok in Hr as ([] & _ & Hr).
  apply bind_ok in Hr as (symbol & _ & Hr). apply bind_ok in Hr as (strings & _ & Hr).
  apply bind_ok in Hr as (nm & _ & Hr). do 2 apply bind_ok in Hr as ([] & _ & Hr).
  apply bind_ok in Hr as (ref & Hb & [= <-]). cbn. split; [done|]. intros ? [= <-].
  by eapply bind_reference_range.
Qed.

Lemma resolve_ok graph i options kind l :
  resolve_relocation_references_for_table memory graph i options kind = Ok l ->
  Forall resolved_ok l /\ NoDup (written_places (rv_relocation <$> l)).
Proof.
  unfold resolve_relocation_references_for_table. intros Hr.
  apply bind_ok in Hr as (es & Hp%map_err_ok & Hr). apply build_plan_ok in Hp as [Hok Hnd].
  destruct (negb _).
  - injection Hr as <-. split.
    + apply Forall_fmap. eapply Forall_impl; [exact Hok|]. intros e He. by split.
    + rewrite <- list_fmap_compose. unfold compose. cbn. by rewrite list_fmap_id.
  - destruct (objects graph !! i) as [object|]; [|done].
    apply bind_ok in Hr as ([] & _ & Hr). apply bind_ok in Hr as (ix & _ & Hr).
    apply mapE_Forall2 in Hr.
    assert (Heq : rv_relocation <$> l = es).
    { clear -Hr Hm. induction Hr as [|e r es l He _ IH]; [done|]. cbn.
      apply resolve_entry_ok in He as [-> _]. by rewrite IH. }
    rewrite Heq. split; [|done]. rewrite <- Heq, Forall_fmap in Hok.
    rewrite Forall_forall in Hok |- *. intros r Hin. split; [by apply Hok|].
    eapply Forall2_elem_r in Hr as (e & _ & He); [|exact Hin]. by eapply resolve_entry_ok.
Qed.

Lemma wrap_add_range a b : is_u32 (wrap_add a b).
Proof. apply u32_range. Qed.

Lemma final_word_range bias kind r original w :
  resolved_ok r -> final_word bias kind r original = Ok w -> is_u32 w.
Proof.
  intros [_ Hr] Hf. unfold final_word in Hf. destruct (_ =? kRArmRelative).
  { apply bind_ok in Hf as ([] & _ & [= <-]). apply wrap_add_range. }
  destruct (_ || _).
  { apply bind_ok in Hf as (ref & Href%or_fail_ok & [= <-]). by apply Hr. }
  destruct (_ =? kRArmAbs32).
  { apply bind_ok in Hf as (ref & _ & [= <-]). apply wrap_add_range. }
  destruct (_ =? kRArmRel32); [|done].
  apply bind_ok in Hf as (ref & _ & [= <-]). apply u32_range.
Qed.

Lemma prepare_entries_ok bias kind pend l ws :
  foldE (prepare_entry bias kind) pend l = Ok ws ->
  Forall resolved_ok l -> Forall (write_planned memory) pend ->
  Forall (write_planned memory) ws /\
  rw_place <$> ws = (rw_place <$> pend) ++ written_places (rv_relocation <$> l).
Proof.
  revert pend; induction l as [|r l IH]; intros pend Hf Hl Hpend; cbn in Hf.
  { injection Hf as <-. cbn. by rewrite app_nil_r. }
  apply bind_ok in Hf as (pend' & Hs & Hf). apply Forall_cons in Hl as [Hr Hl].
  unfold prepare_entry in Hs. unfold written_places. cbn [fmap list_fmap].
  rewrite filter_cons. destruct (Z.eqb_spec (re_type (rv_relocation r)) kRArmNone) as [Et|Et].
  { injection Hs as <-. rewrite decide_False by (by intros Hd). by apply IH. }
  rewrite decide_True by done. apply bind_ok in Hs as (w & Hw%or_fail_ok & Hs).
  apply bind_ok in Hs as (v & Hv & [= <-]). destruct (proj1 Hr Et) as (Hplace & w' & Hw' & Hread).
  apply IH in Hf as [I1 I2]; [|done|].
  - split; [done|]. rewrite I2, fmap_app, <- app_assoc. done.
  - apply Forall_app_2; [done|]. apply Forall_singleton. split; cbn.
    + done.
    + rewrite Hread. congruence.
    + by eapply final_word_range.
Qed.

Lemma prepare_ok graph i options kind ws :
  prepare_relocations_for_table memory graph i options kind = Ok ws ->
  Forall (write_planned memory) ws /\ distinct_places ws.
Proof.
  unfold prepare_relocations_for_table. intros Hp.
  apply bind_ok in Hp as (l & Hr%map_err_ok & Hp). apply bind_ok in Hp as (o & _ & Hp).
  apply resolve_ok in Hr as [Hok Hnd]. apply prepare_entries_ok in Hp as [I1 I2]; [|done|constructor].
  split; [done|]. unfold distinct_places. by rewrite I2.
Qed.

Lemma cross_duplicate_None targets l :
  NoDup targets -> cross_duplicate targets l = None -> NoDup (targets ++ (rw_place <$> l)).
Proof.
  revert targets; induction l as [|w l IH]; intros targets Hn Hc; cbn in *; [by rewrite app_nil_r|].
  case_bool_decide as Hin; [done|]. rewrite <- Permutation_middle. apply (IH (_ :: _)); [|done].
  by constructor.
Qed.
End preparation.

(** ** The failures are real: the resolution does not run out of fuel *)
Section failures.
Context {M : Type} `{GuestMemory M}.

Lemma bind_reference_real (memory : M) graph i options e name symbol f :
  is_u32 (so_max_scope_objects (rel_symbols options)) -> edges_valid graph ->
  bind_reference memory graph i options e name symbol = Err f ->
  rf_error f <> Elf32RelocationResolveError.None.
Proof.
  intros Hmax He. unfold bind_reference.
  destruct (lookup_elf32_graph_symbol_for_reference _ _ _ _ _ _) as [[found|gf]|] eqn:El; [done|..].
  - destruct (gf_error gf); intros Hb; try by injection Hb as <-.
    apply bind_err in Hb as [[_ <-]%fail_if_err|(? & _ & ?)]; done.
  - exfalso. revert El. unfold lookup_elf32_graph_symbol_for_reference.
    destruct (_ =? 0); [done|]. destruct (objects graph !! i) as [st|]; [|done].
    destruct (resolve_elf32_symbol_version_requirement _ _ _ _ _) as [rq|]; [|done]. intros El.
    destruct (graph_lookup_total memory graph name (rel_symbols options) rq Hmax He i
      (so_global_scope_objects (rel_symbols options)) (lm_symbolic (linker_metadata st))) as [r Hr].
    congruence.
Qed.

Lemma resolve_entry_real (memory : M) graph i object options ix e f :
  is_u32 (so_max_scope_objects (rel_symbols options)) -> edges_valid graph ->
  resolve_entry memory graph i object options ix e = Err f ->
  rf_error f <> Elf32RelocationResolveError.None.
Proof.
  intros Hmax He Hr. unfold resolve_entry in Hr. destruct (negb _); [done|].
  do 2 (apply bind_err in Hr as [[_ <-]%fail_if_err|(? & _ & Hr)]; [done|]).
  apply bind_err in Hr as [Hr|(sy & _ & Hr)].
  { destruct (read_elf32_symbol_entry _ _ _ _); [done|]. by injection Hr as <-. }
  apply bind_err in Hr as [[_ <-]%or_fail_err|(st & _ & Hr)]; [done|].
  apply bind_err in Hr as [Hr|(nm & _ & Hr)].
  { destruct (read_elf32_string_table_entry _ _ _ _); [done|]. by injection Hr as <-. }
  apply bind_err in Hr as [[_ <-]%fail_if_err|(? & _ & Hr)]; [done|].
  apply bind_err in Hr as [Hr|(? & _ & Hr)].
  { unfold check_reference in Hr.
    do 3 (apply bind_err in Hr as [[_ <-]%fail_if_err|(? & _ & Hr)]; [done|]).
    by apply fail_if_err in Hr as [_ <-]. }
  apply bind_err in Hr as [Hr|(? & _ & ?)]; [|done]. by eapply bind_reference_real.
Qed.

Lemma prepare_real (memory : M) graph i options kind f :
  is_u32 (so_max_scope_objects (rel_symbols options)) -> edges_valid graph ->
  prepare_relocations_for_table memory graph i options kind = Err f ->
  af_error f <> Elf32RelocationApplyError.RollbackFailed /\
  af_error f <> Elf32RelocationApplyError.TargetWriteFailed /\
  forall r, af_resolution_failure f = Some r -> rf_error r <> Elf32RelocationResolveError.None.
Proof.
  intros Hmax He Hp. unfold prepare_relocations_for_table in Hp.
  apply bind_err in Hp as [Hp|(l & _ & Hp)].
  { destruct (resolve_relocation_references_for_table _ _ _ _ _) as [|rf] eqn:Er; [done|].
    injection Hp as <-. cbn. split; [done|]. split; [done|]. intros r [= <-].
    unfold resolve_relocation_references_for_table in Er.
    apply bind_err in Er as [Er|(es & _ & Er)].
    { destruct (build_relocation_plan_for_table _ _ _ _ _); [done|]. by injection Er as <-. }
    destruct (negb _); [done|]. destruct (objects graph !! i) as [o|]; [|by injection Er as <-].
    apply bind_err in Er as [[_ <-]%fail_if_err|(? & _ & Er)]; [done|].
    apply bind_err in Er as [Er|(ix & _ & Er)].
    { destruct (build_elf32_symbol_index _ _ _); [done|]. by injection Er as <-. }
    apply mapE_err in Er as (e & _ & Er). by eapply resolve_entry_real. }
  apply bind_err in Hp as [[_ <-]%or_fail_err|(o & _ & Hp)]; [done|].
  revert Hp. generalize (@nil Elf32RelocationWrite). induction l as [|r l IH]; intros pend Hp; [done|].
  cbn in Hp. apply bind_err in Hp as [Hp|(p' & _ & Hp)]; [|by eapply IH].
  unfold prepare_entry in Hp. destruct (_ =? kRArmNone); [done|].
  apply bind_err in Hp as [[_ <-]%or_fail_err|(w & _ & Hp)]; [done|].
  apply bind_err in Hp as [Hp|(v & _ & ?)]; [|done]. unfold final_word in Hp.
  destruct (_ =? kRArmRelative); [apply bind_err in Hp as [[_ <-]%fail_if_err|(? & _ & ?)]; [done|done]|].
  destruct (_ || _); [apply bind_err in Hp as [[_ <-]%or_fail_err|(? & _ & ?)]; [done|done]|].
  destruct (_ =? kRArmAbs32); [apply bind_err in Hp as [[_ <-]%or_fail_err|(? & _ & ?)]; [done|done]|].
  destruct (_ =? kRArmRel32); [apply bind_err in Hp as [[_ <-]%or_fail_err|(? & _ & ?)]; [done|done]|].
  injection Hp as <-. done.
Qed.
End failures.

(** ** Formulas *)
Lemma wrap_add_mod a b : is_u32 a -> is_u32 b -> wrap_add a b = (a + b) mod 2 ^ 32.
Proof. intros Ha Hb. unfold wrap_add. rewrite u64_small by word_lia. done. Qed.

Lemma strip_thumb_bit s : is_u32 s -> Z.land s (UINT32_MAX - 1) = s - s mod 2.
Proof.
  intros Hs. change (UINT32_MAX - 1) with (Z.ldiff (Z.ones 32) (Z.ones 1)).
  replace (Z.land s _) with (Z.ldiff (Z.land s (Z.ones 32)) (Z.ones 1)); cycle 1.
  { apply Z.bits_inj'. intros i Hi. rewrite Z.land_spec, !Z.ldiff_spec, Z.land_spec.
    by rewrite andb_assoc. }
  rewrite Z.land_ones, Z.ldiff_ones_r, Z.shiftl_mul_pow2, Z.shiftr_div_pow2 by lia.
  change (2 ^ 1) with 2. rewrite Z.mod_small by word_lia. pose proof (Z.div_mod s 2). lia.
Qed.

Lemma lor_one v : Z.lor v 1 = v + 1 - v mod 2.
Proof.
  assert (H0 : forall k, Z.lor (2 * k) 1 = 2 * k + 1).
  { intros k. assert (Hl : Z.land (2 * k) 1 = 0).
    { change 1 with (Z.ones 1). rewrite Z.land_ones by lia. mod_lia. }
    by rewrite Z.add_nocarry_lxor, Z.lxor_lor by done. }
  pose proof (Z.div_mod v 2 ltac:(lia)) as Hv.
  destruct (Z.mod_pos_bound v 2 ltac:(lia)) as [L U].
  assert (v mod 2 = 0 \/ v mod 2 = 1) as [E|E] by lia; rewrite E in *.
  - rewrite Hv at 1. rewrite Z.add_0_r, H0. lia.
  - rewrite Hv at 1. rewrite <- H0, <- Z.lor_assoc. change (Z.lor 1 1) with 1. rewrite H0. lia.
Qed.

(** The ARM ELF word of the types this linker supports, over the integers:
    [B] the load bias, [S] the symbol value, [A] the addend, [P] the place. *)
Definition rel32_reference_word (thumb : bool) (S A P : Z) : Z :=
  (if thumb then (S - S mod 2 + A) mod 2 ^ 32 + 1 - (S - S mod 2 + A) mod 2 - P else S + A - P) mod 2 ^ 32.

Lemma rel32_word_formula ref A P :
  is_u32 (rr_symbol_value ref) -> is_u32 A -> is_u32 P ->
  rel32_word ref A P = rel32_reference_word (thumb_target ref) (rr_symbol_value ref) A P.
Proof.
  intros HS HA HP. unfold rel32_word, rel32_reference_word. cbv zeta.
  destruct (thumb_target ref).
  - rewrite strip_thumb_bit, lor_one by done.
    rewrite wrap_add_mod by (done || mod_lia). unfold wrap_sub, u32.
    do 3 f_equal. apply Z.mod_mod_divide. by exists (2 ^ 31).
  - rewrite Z.lor_0_r, wrap_add_mod by done. unfold wrap_sub, u32. by rewrite Zminus_mod_idemp_l.
Qed.

Lemma rel32_reaches thumb S A P :
  (thumb = true -> Z.odd S = true /\ Z.even A = true) ->
  (P + rel32_reference_word thumb S A P) mod 2 ^ 32 = (S + A) mod 2 ^ 32.
Proof.
  intros Ht. unfold rel32_reference_word. rewrite Zplus_mod_idemp_r. destruct thumb; [|f_equal; lia].
  destruct Ht as [HS HA]; [done|].
  rewrite Zodd_mod in HS. rewrite Zeven_mod in HA. bool_prop.
  replace ((S - S mod 2 + A) mod 2) with 0 by (rewrite HS; clear -HS HA; mod_lia).
  replace (P + _) with ((S - S mod 2 + A) mod 2 ^ 32 + 1) by lia.
  rewrite Zplus_mod_idemp_l, HS. f_equal. lia.
Qed.

(** C28: the final words are the published relocation formulas modulo 2^32:
    RELATIVE is B + A (and demands symbol index 0), GLOB_DAT and JUMP_SLOT are S
    with the place word ignored, ABS32 is S + A, REL32 is ((S + A) | T) - P with
    the Thumb bit stripped from S first. Consequently, when the Thumb target's
    value is odd and the addend even, the place plus the stored word reaches
    exactly S + A, interworking bit included. *)
Theorem relocation_formulas bias kind r A w :
  is_u32 bias -> is_u32 A -> is_u32 (re_place (rv_relocation r)) ->
  (forall ref, rv_reference r = Some ref -> is_u32 (rr_symbol_value ref)) ->
  final_word bias kind r A = Ok w ->
  let e := rv_relocation r in
  (re_type e = kRArmRelative /\ re_symbol_index e = 0 /\ w = (bias + A) mod 2 ^ 32) \/
  exists ref, rv_reference r = Some ref /\
    let S := rr_symbol_value ref in
    ((re_type e = kRArmGlobDat \/ re_type e = kRArmJumpSlot) /\ w = S \/
     re_type e = kRArmAbs32 /\ w = (S + A) mod 2 ^ 32 \/
     re_type e = kRArmRel32 /\
     w = rel32_reference_word (thumb_target ref) S A (re_place e) /\
     ((thumb_target ref = true -> Z.odd S = true /\ Z.even A = true) ->
      (re_place e + w) mod 2 ^ 32 = (S + A) mod 2 ^ 32)).
Proof.
  intros Hb HA HP HS Hf e. unfold final_word in Hf. fold e in Hf.
  destruct (Z.eqb_spec (re_type e) kRArmRelative) as [Et|_].
  { left. apply bind_ok in Hf as ([] & G%fail_if_ok & [= <-]). bool_prop.
    split; [done|]. split; [lia|]. by apply wrap_add_mod. }
  right. destruct ((re_type e =? kRArmGlobDat) || (re_type e =? kRArmJumpSlot)) eqn:Et.
  { apply bind_ok in Hf as (ref & Href%or_fail_ok & [= <-]). exists ref. split; [done|]. left.
    bool_prop. split; [|done]. lia. }
  clear Et. destruct (Z.eqb_spec (re_type e) kRArmAbs32) as [Et|_].
  { apply bind_ok in Hf as (ref & Href%or_fail_ok & [= <-]). exists ref. split; [done|]. right; left.
    split; [done|]. apply wrap_add_mod; [by apply HS|done]. }
  destruct (Z.eqb_spec (re_type e) kRArmRel32) as [Et|_]; [|done].
  apply bind_ok in Hf as (ref & Href%or_fail_ok & [= <-]). exists ref. split; [done|]. right; right.
  split; [done|]. fold e in HP. specialize (HS ref Href). split.
  - by apply rel32_word_formula.
  - intros Hthumb. rewrite rel32_word_formula by done. by apply rel32_reaches.
Qed.

(** ** The combined application *)
Section combined.
Context {M : Type} `{GuestMemorySpec M}.

Lemma written_nil (m : M) : gm_ok m -> written m [] m.
Proof. intros Hm. split; [done|done| |done]. intros w Hw. by apply elem_of_nil in Hw. Qed.

Lemma combined_run (m : M) graph i options :
  gm_ok m -> is_u32 (so_max_scope_objects (rel_symbols options)) -> edges_valid graph ->
  let '(result, m') := apply_elf32_combined_relocations m graph i options in
  (forall x, gm_writable m' x = gm_writable m x) /\
  match result with
  | Ok ws =>
      (exists main plt,
         prepare_relocations_for_table m graph i options MainRel = Ok main /\
         prepare_relocations_for_table m graph i options PltRel = Ok plt /\ ws = main ++ plt) /\
      NoDup (rw_place <$> ws) /\
      (forall w, w ∈ ws -> read_word m (rw_place w) = Some (rw_original_word w) /\
                           read_word m' (rw_place w) = Some (rw_final_word w)) /\
      (forall x, (forall w, w ∈ ws -> ~ (rw_place w <= x < rw_place w + 4)) ->
                 gm_peek m' x = gm_peek m x)
  | Err f =>
      (forall x, gm_peek m' x = gm_peek m x) /\
      af_error f <> Elf32RelocationApplyError.RollbackFailed /\
      (af_error f = Elf32RelocationApplyError.TargetWriteFailed ->
       exists main plt,
         prepare_relocations_for_table m graph i options MainRel = Ok main /\
         prepare_relocations_for_table m graph i options PltRel = Ok plt /\
         first_unwritable m (main ++ plt) f) /\
      (forall r, af_resolution_failure f = Some r -> rf_error r <> Elf32RelocationResolveError.None)
  end.
Proof.
  intros Hm Hmax He. unfold apply_elf32_combined_relocations.
  destruct (prepare_relocations_for_table m graph i options MainRel) as [main|f] eqn:Emain; cycle 1.
  { split; [done|]. split; [done|]. destruct (prepare_real _ _ _ _ _ _ Hmax He Emain) as (? & ? & ?).
    split; [done|]. by split. }
  destruct (prepare_relocations_for_table m graph i options PltRel) as [plt|f] eqn:Eplt; cycle 1.
  { split; [done|]. split; [done|]. destruct (prepare_real _ _ _ _ _ _ Hmax He Eplt) as (? & ? & ?).
    split; [done|]. by split. }
  apply prepare_ok in Emain as HM; [|done]. apply prepare_ok in Eplt as HP; [|done].
  destruct HM as [Hmain Hdm], HP as [Hplt _].
  destruct (cross_duplicate _ _) as [item|] eqn:Ec; [done|].
  apply cross_duplicate_None in Ec; [|done]. rewrite <- fmap_app in Ec.
  assert (Hall : Forall (write_planned m) (main ++ plt)) by by apply Forall_app_2.
  unfold apply_pending_relocations.
  pose proof (apply_writes_spec m [] (main ++ plt) m Hm (written_nil m Hm) Hall Ec) as Hspec.
  destruct (apply_writes m [] (main ++ plt)) as [[f|] m'].
  - destruct Hspec as (Hw & Herr & [_ Hres] & Hfirst). split; [apply Hw|].
    split; [intros x; apply Hw; intros v Hv; by apply elem_of_nil in Hv|]. rewrite Herr.
    split; [done|]. split.
    + intros _. by exists main, plt.
    + intros r. by rewrite Hres.
  - cbn [app] in Hspec. split; [apply Hspec|]. split; [by exists main, plt|]. split; [done|].
    split; [|apply Hspec]. intros w Hin. split; [|by apply Hspec].
    rewrite Forall_forall in Hall. by apply (Hall w Hin).
Qed.

(** C3: on a memory that keeps the guest-memory contract ([GuestMemorySpec]: whether a
    write succeeds depends only on the permissions of its bytes, as in the mapped
    memory), and in a graph whose edges are in range, relocating an object is one
    transaction over both of its tables. On success the writes are the main table's
    followed by the PLT table's, their places are pairwise distinct, every place holds
    its final word and held the recorded original word, and no other guest byte changed.
    On any failure, before or during the writes, every guest byte is what it was before
    the call, and the rollback does not fail: a place that was written can be written
    back. (A memory that refuses a write it just accepted is outside the contract; there
    the code reports [RollbackFailed].) A write failure names, by table and index, the
    first planned write whose place is not writable. Page permissions never change, and
    the resolution never stops for lack of fuel. *)
Theorem combined_relocation_transactional (m : M) graph i options :
  gm_ok m -> is_u32 (so_max_scope_objects (rel_symbols options)) -> edges_valid graph ->
  let '(result, m') := apply_elf32_combined_relocations m graph i options in
  (forall x, gm_writable m' x = gm_writable m x) /\
  match result with
  | Ok ws =>
      (exists main plt,
         prepare_relocations_for_table m graph i options MainRel = Ok main /\
         prepare_relocations_for_table m graph i options PltRel = Ok plt /\ ws = main ++ plt) /\
      NoDup (rw_place <$> ws) /\
      (forall w, w ∈ ws -> read_word m (rw_place w) = Some (rw_original_word w) /\
                           read_word m' (rw_place w) = Some (rw_final_word w)) /\
      (forall x, (forall w, w ∈ ws -> ~ (rw_place w <= x < rw_place w + 4)) ->
                 gm_peek m' x = gm_peek m x)
  | Err f =>
      (forall x, gm_peek m' x = gm_peek m x) /\
      af_error f <> Elf32RelocationApplyError.RollbackFailed /\
      (af_error f = Elf32RelocationApplyError.TargetWriteFailed ->
       exists main plt,
         prepare_relocations_for_table m graph i options MainRel = Ok main /\
         prepare_relocations_for_table m graph i options PltRel = Ok plt /\
         first_unwritable m (main ++ plt) f) /\
      (forall r, af_resolution_failure f = Some r -> rf_error r <> Elf32RelocationResolveError.None)
  end.
Proof. apply combined_run. Qed.
End combined.

(** ** Witnesses *)

(** "f" (symbol 1, value 0x100) followed by one RELATIVE and one ABS32 entry, one
    JUMP_SLOT entry, and the three words they relocate. *)
Definition relocation_memory : LinearGuestMemory.t :=
  LinearGuestMemory.mk 4096
    ([0; 102; 0; 0] ++
     encode_words [0; 0; 0; 0] ++ encode_words [1; 0x100; 4] ++ [0x12; 0; 1; 0] ++
     encode_words [1; 2; 1; 0; 0] ++ encode_words [1; 1; 1; 5; UINT32_MAX; 1; 177675] ++
     encode_words [4204; 23; 4208; 0x102; 4212; 0x116] ++ encode_words [7; 9; 11; 13]).

Definition relocation_metadata : Elf32LinkerMetadata :=
  {| lm_string_table := Some symbol_strings;
     lm_symbol_table := Some symbol_table;
     lm_sysv_hash_table := Some {| ht_guest_address := 4132 |};
     lm_gnu_hash_table := Some {| ht_guest_address := 4152 |};
     lm_rel_table := Some {| rt_guest_address := 4180; rt_size := 16; rt_entry_size := 8 |};
     lm_plt_rel_table := Some {| rt_guest_address := 4196; rt_size := 8; rt_entry_size := 8 |};
     lm_init_array := None; lm_fini_array := None; lm_version_symbol_table := None;
     lm_version_definition_table := None; lm_version_requirement_table := None;
     lm_soname_offset := None; lm_needed_offsets := []; lm_flags_1 := None; lm_global := false;
     lm_symbolic := false; lm_has_symbol_versioning := false |}.

Definition relocation_graph : Elf32DependencyGraph :=
  {| objects := [demo_object [] relocation_metadata] |}.

Definition relocation_options : Elf32RelocationOptions :=
  {| rel_max_relocations := 8; rel_symbols := demo_lookup_options |}.

Definition relocation_writes : list Elf32RelocationWrite :=
  [{| rw_relocation_index := 0; rw_type := 23; rw_place := 4204; rw_original_word := 7;
      rw_final_word := 7; rw_table := MainRel |};
   {| rw_relocation_index := 1; rw_type := 2; rw_place := 4208; rw_original_word := 9;
      rw_final_word := 0x109; rw_table := MainRel |};
   {| rw_relocation_index := 0; rw_type := 22; rw_place := 4212; rw_original_word := 11;
      rw_final_word := 0x100; rw_table := PltRel |}].

Lemma relocation_memory_ok : gm_ok relocation_memory.
Proof.
  assert (Hw : linear_wf relocation_memory); [|exact Hw].
  split; [vm_compute; congruence..|]. apply is_bytes_forallb. vm_compute. reflexivity.
Qed.

Lemma combined_relocation_transactional_witness :
  fst (apply_elf32_combined_relocations relocation_memory relocation_graph 0 relocation_options)
    = Ok relocation_writes /\
  NoDup (rw_place <$> relocation_writes).
Proof.
  assert (He : edges_valid relocation_graph).
  { intros i j (o & Ho & Hj). destruct i as [|i]; cbn in Ho; simplify_eq; cbn in Hj; set_solver. }
  pose proof (combined_relocation_transactional relocation_memory relocation_graph 0 relocation_options
    relocation_memory_ok ltac:(split; vm_compute; congruence) He) as Ht.
  assert (Hr : fst (apply_elf32_combined_relocations relocation_memory relocation_graph 0 relocation_options)
    = Ok relocation_writes) by (vm_compute; reflexivity).
  split; [exact Hr|].
  destruct (apply_elf32_combined_relocations _ _ _ _) as [result m']. cbn [fst] in Hr. subst result.
  apply Ht.
Defined.

(** A Thumb function at 0x2001 referenced from 0x1000 with addend 4. *)
Definition thumb_entry : Elf32ResolvedRelocationEntry :=
  {| rv_relocation := {| re_index := 0; re_offset := 0; re_info := 0x103; re_symbol_index := 1;
                         re_type := kRArmRel32; re_place := 0x1000; re_original_word := Some 4 |};
     rv_reference := Some
       {| rr_symbol_index := 1; rr_name := [102]; rr_symbol := demo_symbol;
          rr_defining_symbol := Some
            {| sym_name_offset := 1; sym_value := 0x2001; sym_size := 4; sym_binding := 1;
               sym_type := 2; sym_visibility := 0; sym_raw_other := 0; sym_section_index := 1 |};
          rr_symbol_value := 0x2001; rr_unresolved_weak := false;
          rr_defining_object_index := Some 0%nat; rr_defining_symbol_index := Some 1 |} |}.

Lemma relocation_formulas_witness :
  final_word 0 MainRel thumb_entry 4 = Ok 0x1005 /\ (0x1000 + 0x1005) mod 2 ^ 32 = (0x2001 + 4) mod 2 ^ 32.
Proof.
  assert (Hf : final_word 0 MainRel thumb_entry 4 = Ok 0x1005) by (vm_compute; reflexivity).
  split; [exact Hf|].
  assert (Hr : forall ref, rv_reference thumb_entry = Some ref -> is_u32 (rr_symbol_value ref))
    by (intros ref [= <-]; split; vm_compute; congruence).
  destruct (relocation_formulas 0 MainRel thumb_entry 4 0x1005 ltac:(split; vm_compute; congruence)
    ltac:(split; vm_compute; congruence) ltac:(split; vm_compute; congruence) Hr Hf)
    as [(Ht & _)|(ref & Href & Hd)]; [discriminate Ht|].
  injection Href as <-. destruct Hd as [([Ht|Ht] & _)|[(Ht & _)|(_ & _ & Hreach)]]; try discriminate Ht.
  apply Hreach. split; reflexivity.
Defined.
