(* ===== verification/DependencyLoader.v ===== *)
(** * The dependency loader ([src/src/elf/elf32_dependency_loader.h],
      [src/src/elf/linking/elf32_dependency_loader.cpp])

    Loads a root image and, transitively, the libraries it needs, as one
    transaction. The recursion [GraphLoadContext::process_object] threads the guest
    memory, the provider's world and the growing graph; a failure unmaps every image
    the call loaded. [load_elf32_dependency_graph] loads into a fresh graph; the
    other client, [append_elf32_link_map_root], is in LinkMap. *)

From S2P Require Import Prelude Bytes GuestMemory MappedMemory AddressView LoadPlan Loader VaAllocator Placement Dynamic LinkerMetadata LinkerStrings DependencyResolver Graph.

Record Elf32DependencyLoadSource := {
  root_identity : name;
  root_image : list Z;
}.

Record Elf32DependencyLoadOptions := {
  dl_max_objects : Z;
  dl_max_depth : Z;
  dl_max_dependency_occurrences : Z;
  dl_max_image_bytes : Z;
  dl_max_total_image_bytes : Z;
  dl_max_string_bytes : Z;
  dl_placement : Elf32DynamicPlacementOptions;
}.

Module Elf32DependencyLoadError.
Inductive t : Set :=
| None | InvalidOptions | EmptyRootIdentity | EmptyRootImage | ImageTooLarge
| TotalImageBytesExceeded | TooManyObjects | MaxDepthExceeded | TooManyDependencyOccurrences
| DependencyResolveFailed | IdentityImageMismatch | InvalidImage | DependencyNotDynamic
| PlacementFailed | LoadFailed | DynamicParseFailed | LinkerMetadataFailed | LinkerStringFailed
| RollbackFailed | InvalidLinkMap.

Definition to_string (error : t) : string :=
  match error with
  | None => "none"
  | InvalidOptions => "invalid_options"
  | InvalidLinkMap => "invalid_link_map"
  | EmptyRootIdentity => "empty_root_identity"
  | EmptyRootImage => "empty_root_image"
  | ImageTooLarge => "image_too_large"
  | TotalImageBytesExceeded => "total_image_bytes_exceeded"
  | TooManyObjects => "too_many_objects"
  | MaxDepthExceeded => "max_depth_exceeded"
  | TooManyDependencyOccurrences => "too_many_dependency_occurrences"
  | DependencyResolveFailed => "dependency_resolve_failed"
  | IdentityImageMismatch => "identity_image_mismatch"
  | InvalidImage => "invalid_image"
  | DependencyNotDynamic => "dependency_not_dynamic"
  | PlacementFailed => "placement_failed"
  | LoadFailed => "load_failed"
  | DynamicParseFailed => "dynamic_parse_failed"
  | LinkerMetadataFailed => "linker_metadata_failed"
  | LinkerStringFailed => "linker_string_failed"
  | RollbackFailed => "rollback_failed"
  end.
End Elf32DependencyLoadError.

(** The failing fields of [Elf32DependencyLoadResult]. *)
Record load_failure := LoadFailure {
  df_error : Elf32DependencyLoadError.t;
  df_primary_error : Elf32DependencyLoadError.t;
  df_dependency_error : Elf32DependencyResolveError.t;
  df_placement_error : Elf32DynamicPlacementError.t;
  df_load_error : Elf32LoadError.t;
  df_dynamic_error : Elf32DynamicError.t;
  df_metadata_error : Elf32LinkerMetadataError.t;
  df_string_error : Elf32LinkerStringError.t;
  df_failing_identity : name;
  df_requested_name : name;
}.

(** [failure(error, failing_identity)], with the detail fields a caller sets. *)
Definition failure (error : Elf32DependencyLoadError.t) (failing_identity : name) : load_failure :=
  LoadFailure error error Elf32DependencyResolveError.None Elf32DynamicPlacementError.None
    Elf32LoadError.None Elf32DynamicError.None Elf32LinkerMetadataError.None
    Elf32LinkerStringError.None failing_identity [].

Definition with_requested_name (requested_name : name) (f : load_failure) : load_failure :=
  LoadFailure (df_error f) (df_primary_error f) (df_dependency_error f) (df_placement_error f)
    (df_load_error f) (df_dynamic_error f) (df_metadata_error f) (df_string_error f)
    (df_failing_identity f) requested_name.

Definition with_dependency_error (e : Elf32DependencyResolveError.t) (f : load_failure)
    : load_failure :=
  LoadFailure (df_error f) (df_primary_error f) e (df_placement_error f) (df_load_error f)
    (df_dynamic_error f) (df_metadata_error f) (df_string_error f) (df_failing_identity f)
    (df_requested_name f).

Definition with_load_errors (p : Elf32DynamicPlacementError.t) (e : Elf32LoadError.t)
    (f : load_failure) : load_failure :=
  LoadFailure (df_error f) (df_primary_error f) (df_dependency_error f) p e (df_dynamic_error f)
    (df_metadata_error f) (df_string_error f) (df_failing_identity f) (df_requested_name f).

Definition with_inspect_errors (d : Elf32DynamicError.t) (e : Elf32LinkerMetadataError.t)
    (s : Elf32LinkerStringError.t) (f : load_failure) : load_failure :=
  LoadFailure (df_error f) (df_primary_error f) (df_dependency_error f) (df_placement_error f)
    (df_load_error f) d e s (df_failing_identity f) (df_requested_name f).

Definition with_errors (error primary : Elf32DependencyLoadError.t) (f : load_failure)
    : load_failure :=
  LoadFailure error primary (df_dependency_error f) (df_placement_error f) (df_load_error f)
    (df_dynamic_error f) (df_metadata_error f) (df_string_error f) (df_failing_identity f)
    (df_requested_name f).

(** ** Objects *)
Definition default_load : Elf32LoadResult :=
  {| lr_load_bias := 0; lr_entry := 0; lr_segments := []; lr_dynamic_segment := None;
     lr_relro_segments := [] |}.

Definition default_metadata : Elf32LinkerMetadata :=
  {| lm_string_table := None; lm_symbol_table := None; lm_sysv_hash_table := None;
     lm_gnu_hash_table := None; lm_rel_table := None; lm_plt_rel_table := None;
     lm_init_array := None; lm_fini_array := None; lm_version_symbol_table := None;
     lm_version_definition_table := None; lm_version_requirement_table := None;
     lm_soname_offset := None; lm_needed_offsets := []; lm_flags_1 := None; lm_global := false;
     lm_symbolic := false; lm_has_symbol_versioning := false |}.

(** A default-constructed [Elf32LoadedDependencyObject] with identity and image. *)
Definition new_object (object_identity : name) (object_image : list Z)
    : Elf32LoadedDependencyObject :=
  {| identity := object_identity; image := object_image; load := default_load;
     dynamic_entries := []; linker_metadata := default_metadata;
     linker_strings := {| ls_soname := None; ls_needed := [] |}; dependencies := [] |}.

Definition set_load (object : Elf32LoadedDependencyObject) (l : Elf32LoadResult) :=
  {| identity := identity object; image := image object; load := l;
     dynamic_entries := dynamic_entries object; linker_metadata := linker_metadata object;
     linker_strings := linker_strings object; dependencies := dependencies object |}.

Definition set_dynamic_entries (object : Elf32LoadedDependencyObject) (es : list Elf32DynamicEntry) :=
  {| identity := identity object; image := image object; load := load object;
     dynamic_entries := es; linker_metadata := linker_metadata object;
     linker_strings := linker_strings object; dependencies := dependencies object |}.

Definition set_linker_metadata (object : Elf32LoadedDependencyObject) (md : Elf32LinkerMetadata) :=
  {| identity := identity object; image := image object; load := load object;
     dynamic_entries := dynamic_entries object; linker_metadata := md;
     linker_strings := linker_strings object; dependencies := dependencies object |}.

Definition set_linker_strings (object : Elf32LoadedDependencyObject) (s : Elf32LinkerStrings) :=
  {| identity := identity object; image := image object; load := load object;
     dynamic_entries := dynamic_entries object; linker_metadata := linker_metadata object;
     linker_strings := s; dependencies := dependencies object |}.

Definition add_dependency (object : Elf32LoadedDependencyObject) (edge : Elf32DependencyEdge) :=
  {| identity := identity object; image := image object; load := load object;
     dynamic_entries := dynamic_entries object; linker_metadata := linker_metadata object;
     linker_strings := linker_strings object; dependencies := dependencies object ++ [edge] |}.

Notation memory_t := MappedGuestMemory.t (only parsing).

(** [load_object]: plan, place when dynamic, load. *)
Definition load_object (memory : memory_t) (object : Elf32LoadedDependencyObject)
    (options : Elf32DependencyLoadOptions) (require_dynamic : bool)
    : result load_failure Elf32LoadedDependencyObject * memory_t :=
  let commit base :=
    match load_elf32 memory (image object) base with
    | (Err e, memory) =>
        (Err (with_load_errors Elf32DynamicPlacementError.None e
                (failure Elf32DependencyLoadError.LoadFailed (identity object))), memory)
    | (Ok l, memory) => (Ok (set_load object l), memory)
    end in
  match plan_elf32_load memory (image object) with
  | Err e =>
      (Err (with_load_errors Elf32DynamicPlacementError.None e
              (failure Elf32DependencyLoadError.InvalidImage (identity object))), memory)
  | Ok plan =>
      match plan_type plan with
      | LoadPlan.Dynamic =>
          match place_elf32_dynamic memory (image object) (dl_placement options) with
          | Err (p, e) =>
              (Err (with_load_errors p e
                      (failure Elf32DependencyLoadError.PlacementFailed (identity object))), memory)
          | Ok base => commit (Some base)
          end
      | LoadPlan.Executable =>
          if require_dynamic
          then (Err (failure Elf32DependencyLoadError.DependencyNotDynamic (identity object)), memory)
          else commit None
      end
  end.

(** [inspect_object]: fills in the object field by field. *)
Definition inspect_object (memory : memory_t) (object : Elf32LoadedDependencyObject)
    (options : Elf32DependencyLoadOptions)
    : option load_failure * Elf32LoadedDependencyObject :=
  match lr_dynamic_segment (load object) with
  | None => (None, object)
  | Some segment =>
      match parse_elf32_dynamic memory segment with
      | Err e =>
          (Some (with_inspect_errors e Elf32LinkerMetadataError.None Elf32LinkerStringError.None
                   (failure Elf32DependencyLoadError.DynamicParseFailed (identity object))), object)
      | Ok entries =>
          let object := set_dynamic_entries object entries in
          match build_elf32_linker_metadata memory (lr_load_bias (load object)) entries with
          | Err e =>
              (Some (with_inspect_errors Elf32DynamicError.None e Elf32LinkerStringError.None
                       (failure Elf32DependencyLoadError.LinkerMetadataFailed (identity object))),
               object)
          | Ok metadata =>
              let object := set_linker_metadata object metadata in
              match build_elf32_linker_strings memory metadata (dl_max_string_bytes options) with
              | Err e =>
                  (Some (with_inspect_errors Elf32DynamicError.None Elf32LinkerMetadataError.None e
                           (failure Elf32DependencyLoadError.LinkerStringFailed (identity object))),
                   object)
              | Ok strings => (None, set_linker_strings object strings)
              end
          end
      end
  end.

(** ** Rollback *)
Definition SIZE_MAX : Z := 2 ^ 64 - 1.

Definition rollback_load (memory : memory_t) (l : Elf32LoadResult) : bool * memory_t :=
  foldl
    (fun '(success, memory) segment =>
       if SIZE_MAX <? ls_mapping_size segment then (false, memory)
       else
         let '(ok, memory) :=
           MappedGuestMemory.unmap memory (ls_mapping_start segment) (ls_mapping_size segment) in
         (success && ok, memory))
    (true, memory) (rev (lr_segments l)).

Definition rollback_loads (memory : memory_t) (successful_loads : list Elf32LoadResult)
    : bool * memory_t :=
  foldl
    (fun '(rollback_ok, memory) l =>
       let '(ok, memory) := rollback_load memory l in (rollback_ok && ok, memory))
    (true, memory) (rev successful_loads).

(** [rollback_failure(memory, successful_loads, result)] *)
Definition rollback_failure (memory : memory_t) (successful_loads : list Elf32LoadResult)
    (f : load_failure) : load_failure * memory_t :=
  match rollback_loads memory successful_loads with
  | (true, memory) => (f, memory)
  | (false, memory) => (with_errors Elf32DependencyLoadError.RollbackFailed (df_error f) f, memory)
  end.

(** ** [GraphLoadContext] *)
Inductive ObjectState : Set := Discovered | Loading | Loaded.

#[export] Instance ObjectState_eq_dec : EqDecision ObjectState.
Proof. solve_decision. Defined.

Section context.
Context {W : Type}.

Record GraphLoadContext := {
  gc_memory : memory_t;
  gc_world : W;
  gc_objects : list Elf32LoadedDependencyObject;
  gc_object_indices : gmap name nat;
  gc_states : list ObjectState;
  gc_successful_loads : list Elf32LoadResult;
  gc_dependency_occurrences : Z;
  gc_total_image_bytes : Z;
}.

(** The members' computations: they return early with a failure, and keep the
    context's effects when they do. *)
Definition load_m (A : Type) : Type := GraphLoadContext -> result load_failure A * GraphLoadContext.

#[export] Instance load_m_ret : MRet load_m := fun A a c => (Ok a, c).

#[export] Instance load_m_bind : MBind load_m :=
  fun A B f m c => match m c with (Ok a, c') => f a c' | (Err e, c') => (Err e, c') end.

Definition throw {A} (f : load_failure) : load_m A := fun c => (Err f, c).
Definition get_context : load_m GraphLoadContext := fun c => (Ok c, c).
Definition modify (g : GraphLoadContext -> GraphLoadContext) : load_m unit := fun c => (Ok tt, g c).

(** A nested call whose failure gets the requested name, when it has none. *)
Definition on_behalf_of (requested_name : name) (m : load_m unit) : load_m unit :=
  fun c =>
    match m c with
    | (Err f, c') =>
        (Err (if is_empty (df_requested_name f) then with_requested_name requested_name f else f), c')
    | r => r
    end.

Fixpoint for_each {A} (body : A -> load_m unit) (l : list A) : load_m unit :=
  match l with
  | [] => mret tt
  | x :: rest => body x ;; for_each body rest
  end.

(** Out-of-range indexing and exhausted fuel; neither happens. *)
Definition stuck : load_failure := failure Elf32DependencyLoadError.None [].

Definition or_stuck {A} (o : option A) : load_m A :=
  match o with Some a => mret a | None => throw stuck end.

Definition set_object (index : nat) (object : Elf32LoadedDependencyObject) (c : GraphLoadContext) :=
  {| gc_memory := gc_memory c; gc_world := gc_world c;
     gc_objects := <[index := object]> (gc_objects c);
     gc_object_indices := gc_object_indices c; gc_states := gc_states c;
     gc_successful_loads := gc_successful_loads c;
     gc_dependency_occurrences := gc_dependency_occurrences c;
     gc_total_image_bytes := gc_total_image_bytes c |}.

Definition set_object_state (index : nat) (s : ObjectState) (c : GraphLoadContext) :=
  {| gc_memory := gc_memory c; gc_world := gc_world c; gc_objects := gc_objects c;
     gc_object_indices := gc_object_indices c; gc_states := <[index := s]> (gc_states c);
     gc_successful_loads := gc_successful_loads c;
     gc_dependency_occurrences := gc_dependency_occurrences c;
     gc_total_image_bytes := gc_total_image_bytes c |}.

Definition set_memory (memory : memory_t) (c : GraphLoadContext) :=
  {| gc_memory := memory; gc_world := gc_world c; gc_objects := gc_objects c;
     gc_object_indices := gc_object_indices c; gc_states := gc_states c;
     gc_successful_loads := gc_successful_loads c;
     gc_dependency_occurrences := gc_dependency_occurrences c;
     gc_total_image_bytes := gc_total_image_bytes c |}.

Definition push_load (l : Elf32LoadResult) (c : GraphLoadContext) :=
  {| gc_memory := gc_memory c; gc_world := gc_world c; gc_objects := gc_objects c;
     gc_object_indices := gc_object_indices c; gc_states := gc_states c;
     gc_successful_loads := gc_successful_loads c ++ [l];
     gc_dependency_occurrences := gc_dependency_occurrences c;
     gc_total_image_bytes := gc_total_image_bytes c |}.

Definition set_world (w : W) (c : GraphLoadContext) :=
  {| gc_memory := gc_memory c; gc_world := w; gc_objects := gc_objects c;
     gc_object_indices := gc_object_indices c; gc_states := gc_states c;
     gc_successful_loads := gc_successful_loads c;
     gc_dependency_occurrences := gc_dependency_occurrences c;
     gc_total_image_bytes := gc_total_image_bytes c |}.

Definition charge (occurrences bytes : Z) (c : GraphLoadContext) :=
  {| gc_memory := gc_memory c; gc_world := gc_world c; gc_objects := gc_objects c;
     gc_object_indices := gc_object_indices c; gc_states := gc_states c;
     gc_successful_loads := gc_successful_loads c;
     gc_dependency_occurrences := u64 (gc_dependency_occurrences c + occurrences);
     gc_total_image_bytes := u64 (gc_total_image_bytes c + bytes) |}.

(** A discovered object: pushed with its state and its index entry. *)
Definition push_object (object : Elf32LoadedDependencyObject) (c : GraphLoadContext) :=
  {| gc_memory := gc_memory c; gc_world := gc_world c; gc_objects := gc_objects c ++ [object];
     gc_object_indices :=
       match gc_object_indices c !! identity object with
       | Some _ => gc_object_indices c
       | None => <[identity object := length (gc_objects c)]> (gc_object_indices c)
       end;
     gc_states := gc_states c ++ [Discovered];
     gc_successful_loads := gc_successful_loads c;
     gc_dependency_occurrences := gc_dependency_occurrences c;
     gc_total_image_bytes := gc_total_image_bytes c |}.

Definition object_at (index : nat) : load_m Elf32LoadedDependencyObject :=
  c ← get_context; or_stuck (gc_objects c !! index).

Definition state_at_index (index : nat) : load_m ObjectState :=
  c ← get_context; or_stuck (gc_states c !! index).

Context (provider : Elf32DependencyProvider W) (options : Elf32DependencyLoadOptions).

(** Load the object and remember the load for a rollback. *)
Definition load_step (index : nat) (require_dynamic : bool) : load_m unit :=
  object ← object_at index;
  c ← get_context;
  match load_object (gc_memory c) object options require_dynamic with
  | (Err f, memory) => modify (set_memory memory) ;; throw f
  | (Ok object, memory) =>
      modify (set_memory memory) ;;
      modify (set_object index object) ;;
      modify (push_load (load object))
  end.

Definition inspect_step (index : nat) : load_m unit :=
  object ← object_at index;
  c ← get_context;
  let '(r, object) := inspect_object (gc_memory c) object options in
  modify (set_object index object) ;;
  match r with Some f => throw f | None => mret tt end.

(** The byte accounting over the acquired images; [None] when the budget is
    exceeded. *)
Definition acquired_image_bytes (remaining_total : Z) (ordered : list Elf32ResolvedDependency)
    : option Z :=
  foldl
    (fun acquired dependency =>
       acquired_bytes ← acquired;
       let image_bytes := Z.of_nat (length (rd_image dependency)) in
       if u64 (remaining_total - acquired_bytes) <? image_bytes then None
       else Some (u64 (acquired_bytes + image_bytes)))
    (Some 0) ordered.

(** From the occurrence check to the charged budgets; no direct dependency means
    that the provider is not asked. *)
Definition acquire_dependencies (index : nat) : load_m (list Elf32ResolvedDependency) :=
  object ← object_at index;
  c ← get_context;
  let direct_size := Z.of_nat (length (ls_needed (linker_strings object))) in
  if UINT32_MAX <? direct_size
  then throw (failure Elf32DependencyLoadError.TooManyDependencyOccurrences (identity object))
  else if u64 (dl_max_dependency_occurrences options - gc_dependency_occurrences c) <? direct_size
  then throw (failure Elf32DependencyLoadError.TooManyDependencyOccurrences (identity object))
  else if direct_size =? 0 then mret []
  else
    let remaining_total := u64 (dl_max_total_image_bytes options - gc_total_image_bytes c) in
    let '(resolved, w) :=
      resolve_elf32_dependencies provider
        {| ro_max_dependencies := u32 direct_size;
           ro_max_image_bytes := dl_max_image_bytes options;
           ro_max_total_image_bytes := remaining_total;
           ro_requester_identity := identity object |}
        (linker_strings object) (gc_world c) in
    modify (set_world w) ;;
    match resolved with
    | Err e =>
        throw (with_dependency_error e
                 (failure Elf32DependencyLoadError.DependencyResolveFailed (identity object)))
    | Ok ordered =>
        modify (charge direct_size 0) ;;
        match acquired_image_bytes remaining_total ordered with
        | None =>
            throw (failure Elf32DependencyLoadError.TotalImageBytesExceeded (identity object))
        | Some acquired_bytes => modify (charge 0 acquired_bytes) ;; mret ordered
        end
    end.

Definition push_edge (index : nat) (requested_name : name) (target_index : nat) : load_m unit :=
  object ← object_at index;
  modify (set_object index
            (add_dependency object
               {| edge_requested_name := requested_name; target_object := target_index |})).

(** One iteration of the loop over the acquired dependencies of [index]. *)
Definition link_dependency (process : nat -> load_m unit) (index : nat)
    (dependency : Elf32ResolvedDependency) : load_m unit :=
  c ← get_context;
  let count := length (gc_objects c) in
  let target_index := default count (gc_object_indices c !! rd_identity dependency) in
  if negb (bool_decide (target_index = count))
  then
    target ← object_at target_index;
    if negb (bool_decide (image target = rd_image dependency))
    then throw (with_requested_name (rd_requested_name dependency)
                  (failure Elf32DependencyLoadError.IdentityImageMismatch (rd_identity dependency)))
    else
      push_edge index (rd_requested_name dependency) target_index ;;
      state ← state_at_index target_index;
      match state with
      | Discovered => on_behalf_of (rd_requested_name dependency) (process target_index)
      | _ => mret tt
      end
  else if dl_max_objects options <=? Z.of_nat count
  then throw (with_requested_name (rd_requested_name dependency)
                (failure Elf32DependencyLoadError.TooManyObjects (rd_identity dependency)))
  else
    modify (push_object (new_object (rd_identity dependency) (rd_image dependency))) ;;
    push_edge index (rd_requested_name dependency) count ;;
    on_behalf_of (rd_requested_name dependency) (process count).

(** [GraphLoadContext::process_object] *)
Fixpoint process_object (fuel : nat) (index : nat) (depth : Z) (require_dynamic : bool)
    : load_m unit :=
  match fuel with
  | O => throw stuck
  | S fuel' =>
      state ← state_at_index index;
      match state with
      | Loaded | Loading => mret tt
      | Discovered =>
          object ← object_at index;
          if dl_max_depth options <? depth
          then throw (failure Elf32DependencyLoadError.MaxDepthExceeded (identity object))
          else
            modify (set_object_state index Loading) ;;
            load_step index require_dynamic ;;
            inspect_step index ;;
            ordered ← acquire_dependencies index;
            for_each
              (link_dependency (fun target => process_object fuel' target (u64 (depth + 1)) true) index)
              ordered ;;
            modify (set_object_state index Loaded)
      end
  end.

(** A call deeper than [max_depth] returns at once, so the recursion is at most
    [max_depth + 2] deep. *)
Definition process_fuel : nat := Z.to_nat (dl_max_depth options + 2).

(** ** [load_elf32_dependency_graph] *)

(** The checks both entry points start with. *)
Definition check_root (root : Elf32DependencyLoadSource) : result load_failure unit :=
  fail_if (dl_max_objects options =? 0)
    (failure Elf32DependencyLoadError.InvalidOptions (root_identity root)) ;;
  fail_if (is_empty (root_identity root)) (failure Elf32DependencyLoadError.EmptyRootIdentity []) ;;
  fail_if (is_empty (root_image root))
    (failure Elf32DependencyLoadError.EmptyRootImage (root_identity root)) ;;
  let root_image_bytes := Z.of_nat (length (root_image root)) in
  fail_if (dl_max_image_bytes options <? root_image_bytes)
    (failure Elf32DependencyLoadError.ImageTooLarge (root_identity root)) ;;
  fail_if (dl_max_total_image_bytes options <? root_image_bytes)
    (failure Elf32DependencyLoadError.TotalImageBytesExceeded (root_identity root)).

Definition root_context (memory : memory_t) (w : W) (known : list Elf32LoadedDependencyObject)
    (object_indices : gmap name nat) (root : Elf32DependencyLoadSource) : GraphLoadContext :=
  push_object (new_object (root_identity root) (root_image root))
    {| gc_memory := memory; gc_world := w; gc_objects := known;
       gc_object_indices := object_indices;
       gc_states := replicate (length known) Loaded;
       gc_successful_loads := []; gc_dependency_occurrences := 0;
       gc_total_image_bytes := Z.of_nat (length (root_image root)) |}.

Definition load_elf32_dependency_graph (memory : memory_t) (w : W)
    (root : Elf32DependencyLoadSource)
    : result load_failure Elf32DependencyGraph * memory_t * W :=
  match check_root root with
  | Err f => (Err f, memory, w)
  | Ok _ =>
      match process_object process_fuel 0 0 false (root_context memory w [] ∅ root) with
      | (Ok _, c) => (Ok {| objects := gc_objects c |}, gc_memory c, gc_world c)
      | (Err f, c) =>
          let '(f, memory) := rollback_failure (gc_memory c) (gc_successful_loads c) f in
          (Err f, memory, gc_world c)
      end
  end.
End context.

Arguments GraphLoadContext W : clear implicits.
Arguments load_m W A : clear implicits.

(** ** Memory: what a sequence of loads has mapped, and its undoing *)
Section memory.
Context (m0 : memory_t) (Hwf0 : mapped_wf m0).
Notation ps := (MappedGuestMemory.page_size_ m0).

Definition segments_of (loads : list Elf32LoadResult) : list Elf32LoadedSegment :=
  concat (lr_segments <$> loads).

Definition seg_good (s : Elf32LoadedSegment) : Prop :=
  forall m, state_ok ps m -> ranged_ok m (ls_mapping_start s) (ls_mapping_size s).

Notation seg_covers := (covers ls_mapping_start ls_mapping_size).

(** [m] is [m0] with the segments of [loads] mapped in addition. *)
Record mem_inv (loads : list Elf32LoadResult) (m : memory_t) : Prop := {
  mi_state : state_ok ps m;
  mi_failures : (failures m <= failures m0)%nat;
  mi_good : Forall seg_good (segments_of loads);
  mi_disjoint : ForallOrdPairs (ranges_disjoint ls_mapping_start ls_mapping_size) (segments_of loads);
  mi_free s x : s ∈ segments_of loads -> in_range (ls_mapping_start s) (ls_mapping_size s) x ->
    (page_at m0 x).1 = None;
  mi_view x : match List.find (seg_covers x) (segments_of loads) with
              | Some _ => is_Some (page_at m x).1
              | None => page_at m x = page_at m0 x
              end;
}.

Lemma segments_of_snoc loads l : segments_of (loads ++ [l]) = segments_of loads ++ lr_segments l.
Proof. unfold segments_of. rewrite fmap_app, concat_app. cbn. by rewrite app_nil_r. Qed.

Lemma covered_mapped loads m s x :
  mem_inv loads m -> s ∈ segments_of loads -> in_range (ls_mapping_start s) (ls_mapping_size s) x ->
  is_Some (page_at m x).1.
Proof.
  intros Hi Hs Hx. pose proof (mi_view _ _ Hi x) as Hv.
  by rewrite (find_covers_eq _ _ _ x s (mi_disjoint _ _ Hi) Hs Hx) in Hv.
Qed.

(** What was mapped before the loads is untouched by them. *)
Lemma mem_inv_kept loads m x : mem_inv loads m -> is_Some (page_at m0 x).1 -> page_at m x = page_at m0 x.
Proof.
  intros Hi [v Hv]. pose proof (mi_view _ _ Hi x) as Hx.
  destruct (List.find _ _) as [s|] eqn:Ef; [|done]. apply find_covers_Some in Ef as [Hs Hin].
  by rewrite (mi_free _ _ Hi s x Hs Hin) in Hv.
Qed.

Lemma load_elf32_extends loads m img base l m' :
  mem_inv loads m -> is_bytes img -> from_option is_u32 True base ->
  load_elf32 m img base = (Ok l, m') ->
  mem_inv (loads ++ [l]) m' /\
  forall x, is_Some (page_at m x).1 -> page_at m' x = page_at m x.
Proof.
  intros Hi Hb Ho Hl. destruct (mi_state _ _ Hi) as [Hwf Hps].
  destruct (load_elf32_inv _ _ _ _ _ Hwf Hb Ho Hl) as (pl & Hp & Hwf' & Hps' & Hf & Hat).
  destruct (prepare_load_ok m img base l pl Hwf Hb Ho Hp) as (Hok & Hd & Hfree & Hsegs & _).
  assert (Hnew : forall p x, p ∈ pl -> in_range (pl_mapping_start p) (mapping_size p) x ->
            List.find (seg_covers x) (segments_of loads) = None).
  { intros p x Hpl Hx. destruct (List.find _ _) as [s|] eqn:E; [|done].
    apply find_covers_Some in E as [Hs Hxs]. destruct (covered_mapped _ _ _ _ Hi Hs Hxs) as [v Hv].
    by rewrite (Hfree p x Hpl Hx) in Hv. }
  assert (Hfnew : forall x, List.find (seg_covers x) (lr_segments l) =
            loaded_segment <$> List.find (covers pl_mapping_start mapping_size x) pl).
  { intros x. rewrite Hsegs. apply (find_fmap (seg_covers x)). }
  split.
  - split.
    + split; [done|congruence].
    + pose proof (mi_failures _ _ Hi). lia.
    + rewrite segments_of_snoc. apply Forall_app_2; [apply Hi|]. rewrite Hsegs. apply Forall_fmap.
      eapply Forall_impl; [exact Hok|]. intros p Hpo m1 Hm1. rewrite Hps in Hpo.
      by apply (planned_elem_range ps img p m1 Hpo Hm1).
    + rewrite segments_of_snoc. apply ForallOrdPairs_app; [apply Hi| |].
      * rewrite Hsegs. clear -Hd. induction Hd as [|p pl Hp Hd IH]; [constructor|]. cbn.
        constructor; [|done]. apply Forall_fmap. exact Hp.
      * intros s t Hs Ht x Hxs Hxt. rewrite Hsegs in Ht.
        apply list_elem_of_fmap in Ht as (p & -> & Hpl).
        eapply find_covers_None; [exact (Hnew p x Hpl Hxt)|exact Hs|exact Hxs].
    + intros s x. rewrite segments_of_snoc. intros [Hs|Hs]%elem_of_app Hx; [by eapply mi_free|].
      rewrite Hsegs in Hs. apply list_elem_of_fmap in Hs as (p & -> & Hpl).
      pose proof (mi_view _ _ Hi x) as Hv. rewrite (Hnew p x Hpl Hx) in Hv. rewrite <- Hv.
      by apply (Hfree p).
    + intros x. rewrite segments_of_snoc, find_app, Hfnew, Hat. unfold committed_page.
      pose proof (mi_view _ _ Hi x) as Hv.
      destruct (List.find (seg_covers x) (segments_of loads)) as [s|] eqn:Es.
      * destruct (List.find _ pl) as [p|] eqn:Ep; [|done]. by eexists.
      * destruct (List.find _ pl) as [p|] eqn:Ep; [by eexists|done].
  - intros x [v Hv]. rewrite Hat. unfold committed_page.
    destruct (List.find _ pl) as [p|] eqn:Ep; [|done].
    apply find_covers_Some in Ep as [Hpl Hx]. by rewrite (Hfree p x Hpl Hx) in Hv.
Qed.

(** An invisible change keeps the invariant. *)
Lemma mem_inv_view loads m m' :
  mem_inv loads m -> same_view m m' -> mapped_wf m' -> (failures m' <= failures m)%nat -> mem_inv loads m'.
Proof.
  intros [] Hv Hwf Hf. split; try done.
  - split; [done|]. rewrite (sv_page_size _ _ Hv). apply mi_state0.
  - lia.
  - intros x. rewrite (same_view_page_at m m' x Hv). apply mi_view0.
Qed.

(** *** Rollback *)
Definition unmap_segment (s : Elf32LoadedSegment) (m : memory_t) : bool * memory_t :=
  MappedGuestMemory.unmap m (ls_mapping_start s) (ls_mapping_size s).

Lemma unmap_segment_spec s m ok m' :
  state_ok ps m -> seg_good s ->
  (forall x, in_range (ls_mapping_start s) (ls_mapping_size s) x -> is_Some (page_at m x).1) ->
  unmap_segment s m = (ok, m') ->
  op_post ps ls_mapping_start ls_mapping_size (fun _ _ _ => (None, 0)) s m ok m'.
Proof.
  intros Hm Hg Hpre H. pose proof (Hg m Hm) as Hr. pose proof (ranged_ok_no_wrap _ _ _ Hr) as Hn.
  destruct Hm as [Hwf Hps]. destruct (unmap_progress m _ _ ok m' Hwf Hr Hpre H) as [F1 F2].
  pose proof (unmap_wf m _ (ls_mapping_size s) Hwf (proj1 Hr) Hn) as Hwf'.
  unfold unmap_segment in H. rewrite H in Hwf'. cbn in Hwf'. unfold op_post, state_ok. destruct ok.
  - apply unmap_effect in H as [H1 H2]; [|done|apply Hr|done]. by rewrite H1.
  - apply unmap_false in H as [H1 _]; [|done|apply Hr|done]. rewrite H1. auto.
Qed.

(** The rollback loops keep going after a failure; where no unmap fails they are
    the plain loop over all segments, latest first. *)
Lemma rollback_load_ok l m m' :
  Forall seg_good (lr_segments l) -> state_ok ps m ->
  seq_ops unmap_segment (rev (lr_segments l)) m = (true, m') -> rollback_load m l = (true, m').
Proof.
  intros Hg Hm H. unfold rollback_load. apply Forall_rev in Hg. clear -Hg Hm H.
  assert (Hs : Forall (fun s => SIZE_MAX <? ls_mapping_size s = false) (rev (lr_segments l))).
  { eapply Forall_impl; [exact Hg|]. intros s Hr. destruct (Hr m Hm) as (Ha & Hn & _ & _ & Hf).
    unfold SIZE_MAX. word_lia. }
  clear Hg Hm. revert m H. induction Hs as [|s r Hs _ IH]; intros m H; cbn in *; [by simplify_eq|].
  rewrite Hs. unfold unmap_segment in H.
  destruct (MappedGuestMemory.unmap m _ _) as [[] m1]; [by apply IH|done].
Qed.

Lemma rollback_loads_ok loads m m' :
  Forall seg_good (segments_of loads) -> state_ok ps m ->
  (forall l1 l2 m1, rev (segments_of loads) = l1 ++ l2 ->
     seq_ops unmap_segment l1 m = (true, m1) -> state_ok ps m1) ->
  seq_ops unmap_segment (rev (segments_of loads)) m = (true, m') ->
  rollback_loads m loads = (true, m').
Proof.
  unfold rollback_loads. revert m; induction loads as [|l loads IH] using rev_ind; intros m Hg Hm Hst H.
  { cbn in *. by simplify_eq. }
  rewrite segments_of_snoc in *. rewrite rev_app_distr in *. cbn [rev] in *.
  cbn [app foldl]. rewrite seq_ops_app in H.
  destruct (seq_ops unmap_segment (rev (lr_segments l)) m) as [[] m1] eqn:E1; [|done].
  apply Forall_app in Hg as [Hg1 Hg2]. rewrite (rollback_load_ok l m m1 Hg2 Hm E1). cbn [andb].
  apply IH; [done| | |done].
  - by apply (Hst (rev (lr_segments l)) (rev (segments_of loads))).
  - intros l1 l2 m2 Hl H2. apply (Hst (rev (lr_segments l) ++ l1) l2); [by rewrite Hl, app_assoc|].
    by rewrite seq_ops_app, E1.
Qed.

(** A rollback that reports success is the plain loop. *)
Lemma rollback_load_true l m m' :
  rollback_load m l = (true, m') -> seq_ops unmap_segment (rev (lr_segments l)) m = (true, m').
Proof.
  unfold rollback_load.
  assert (Hgo : forall segs b m, foldl (fun '(success, memory) segment =>
       if SIZE_MAX <? ls_mapping_size segment then (false, memory)
       else let '(ok, memory) := MappedGuestMemory.unmap memory (ls_mapping_start segment) (ls_mapping_size segment) in
            (success && ok, memory)) (b, m) segs = (true, m') ->
     b = true /\ seq_ops unmap_segment segs m = (true, m')).
  { induction segs as [|s segs IH]; intros b m1 H; cbn in H; [by simplify_eq|].
    case_match; [by apply IH in H as [? _]|]. cbn. unfold unmap_segment at 1.
    destruct (MappedGuestMemory.unmap m1 _ _) as [ok m2]. apply IH in H as [Hb H].
    apply andb_true_iff in Hb as [-> ->]. done. }
  intros H. by apply Hgo in H as [_ H].
Qed.

Lemma rollback_loads_true loads m m' :
  rollback_loads m loads = (true, m') -> seq_ops unmap_segment (rev (segments_of loads)) m = (true, m').
Proof.
  unfold rollback_loads.
  assert (Hgo : forall loads b m, foldl (fun '(rollback_ok, memory) l =>
       let '(ok, memory) := rollback_load memory l in (rollback_ok && ok, memory)) (b, m) (rev loads) = (true, m') ->
     b = true /\ seq_ops unmap_segment (rev (segments_of loads)) m = (true, m')).
  { clear loads m. induction loads as [|l loads IH] using rev_ind; intros b m1 H; [by cbn in H; simplify_eq|].
    rewrite rev_app_distr in H. cbn in H. destruct (rollback_load m1 l) as [ok m2] eqn:E.
    apply IH in H as [Hb H]. apply andb_true_iff in Hb as [-> ->]. split; [done|].
    rewrite segments_of_snoc, rev_app_distr, seq_ops_app. by rewrite (rollback_load_true l m1 m2 E). }
  intros H. by apply Hgo in H as [_ H].
Qed.

(** Whatever the unmaps do, only the pages of their segments change. *)
Lemma unmap_segment_any s m ok m' :
  state_ok ps m -> seg_good s -> unmap_segment s m = (ok, m') ->
  state_ok ps m' /\ (failures m' <= failures m)%nat /\
  forall x, ~ in_range (ls_mapping_start s) (ls_mapping_size s) x -> page_at m' x = page_at m x.
Proof.
  intros Hm Hg H. pose proof (Hg m Hm) as Hr. pose proof (ranged_ok_no_wrap _ _ _ Hr) as Hn.
  destruct Hm as [Hwf Hps]. pose proof (unmap_wf m _ (ls_mapping_size s) Hwf (proj1 Hr) Hn) as Hwf'.
  unfold unmap_segment in H. rewrite H in Hwf'. cbn in Hwf'. pose proof (unmap_failures _ _ _ _ _ H) as Hf.
  destruct ok.
  - apply unmap_effect in H as [H1 H2]; [|done|apply Hr|done]. split; [split; [done|congruence]|].
    split; [done|]. intros x Hx. by rewrite H2, decide_False.
  - apply unmap_false in H as (H1 & H2 & H3); [|done|apply Hr|done]. split; [split; [done|congruence]|].
    split; [done|]. intros x Hx. unfold page_at, MappedGuestMemory.is_mapped, MappedGuestMemory.permissions, MappedGuestMemory.page_index.
    rewrite H1, H2. destruct (H3 x) as [->|[Hin _]]; [done|]. by destruct Hx.
Qed.

(** What a rollback keeps in any case. *)
Definition outside_kept (segs : list Elf32LoadedSegment) (m m' : memory_t) : Prop :=
  state_ok ps m' /\ (failures m' <= failures m)%nat /\
  forall x, (forall s, s ∈ segs -> ~ in_range (ls_mapping_start s) (ls_mapping_size s) x) ->
    page_at m' x = page_at m x.

Lemma outside_kept_trans segs1 segs2 m m1 m2 :
  outside_kept segs1 m m1 -> outside_kept segs2 m1 m2 -> outside_kept (segs1 ++ segs2) m m2.
Proof.
  intros (A1 & A2 & A3) (B1 & B2 & B3). split; [done|]. split; [lia|]. intros x Hx.
  rewrite B3, A3; [done|..]; intros s Hs; apply Hx, elem_of_app; auto.
Qed.

Lemma rollback_load_kept l m :
  state_ok ps m -> Forall seg_good (lr_segments l) ->
  outside_kept (rev (lr_segments l)) m (rollback_load m l).2.
Proof.
  intros Hm Hg. unfold rollback_load. apply Forall_rev in Hg. generalize true as b.
  revert m Hm. induction Hg as [|s segs Hs Hg IH]; intros m Hm b; [by split|].
  cbn [foldl]. change (s :: segs) with ([s] ++ segs). case_match.
  - eapply outside_kept_trans; [|by apply IH]. by split.
  - destruct (MappedGuestMemory.unmap m _ _) as [ok m1] eqn:E.
    destruct (unmap_segment_any s m ok m1 Hm Hs E) as (H1 & H2 & H3).
    eapply outside_kept_trans; [|by apply IH]. split; [done|]. split; [done|]. intros x Hx. apply H3, Hx. by left.
Qed.

Lemma rollback_loads_kept loads m :
  state_ok ps m -> Forall seg_good (segments_of loads) ->
  outside_kept (rev (segments_of loads)) m (rollback_loads m loads).2.
Proof.
  unfold rollback_loads. generalize true as b. revert m.
  induction loads as [|l loads IH] using rev_ind; intros m b Hm Hg; [by split|].
  rewrite segments_of_snoc in *. apply Forall_app in Hg as [Hg1 Hg2]. rewrite !rev_app_distr. cbn [rev app foldl].
  pose proof (rollback_load_kept l m Hm Hg2) as Hk. destruct (rollback_load m l) as [ok m1]. cbn [snd] in Hk.
  eapply outside_kept_trans; [exact Hk|]. apply IH; [apply Hk|done].
Qed.

Lemma mem_inv_rollback loads m :
  mem_inv loads m ->
  let '(ok, m') := rollback_loads m loads in
  mapped_wf m' /\ (failures m' <= failures m0)%nat /\
  (if ok then same_view m0 m'
   else (0 < failures m)%nat /\ MappedGuestMemory.page_size_ m' = ps /\
        forall x, is_Some (page_at m0 x).1 -> page_at m' x = page_at m0 x).
Proof.
  intros Hi. assert (Hd' : ForallOrdPairs (ranges_disjoint ls_mapping_start ls_mapping_size)
    (rev (segments_of loads))).
  { eapply ForallOrdPairs_perm; [apply _|apply Permutation_rev|apply Hi]. }
  assert (Hg' : Forall seg_good (rev (segments_of loads))) by (apply Forall_rev; apply Hi).
  assert (Hpre : forall s x, s ∈ rev (segments_of loads) ->
    in_range (ls_mapping_start s) (ls_mapping_size s) x -> is_Some (page_at m x).1).
  { intros s x Hs. eapply covered_mapped; [done|]. by rewrite <- Permutation_rev in Hs. }
  assert (Hrun : forall l1 l2 ok m', rev (segments_of loads) = l1 ++ l2 ->
    seq_ops unmap_segment l1 m = (ok, m') ->
    state_ok ps m' /\ (failures m' <= failures m)%nat /\
    if ok
    then forall x, page_at m' x =
           match List.find (seg_covers x) l1 with Some _ => (None, 0) | None => page_at m x end
    else (failures m' < failures m)%nat).
  { intros l1 l2 ok m' Hl H. rewrite Hl in Hd', Hg', Hpre.
    apply (seq_ops_spec ps ls_mapping_start ls_mapping_size unmap_segment (fun _ _ _ => (None, 0))
      (fun _ v => is_Some v.1) seg_good unmap_segment_spec l1 m ok m'); try done.
    - apply Hi.
    - by apply Forall_app in Hg' as [? _].
    - clear -Hd'. induction l1 as [|s l1 IH]; [constructor|]. cbn in Hd'.
      inversion_clear Hd' as [|? ? H1 H2]. apply Forall_app in H1 as [H1 _]. constructor; [done|by apply IH].
    - intros s x Hs. apply Hpre. apply elem_of_app. by left. }
  destruct (rollback_loads_kept loads m (mi_state _ _ Hi) (mi_good _ _ Hi)) as ([Hwf' Hps'] & F & Hout).
  destruct (rollback_loads m loads) as [ok m'] eqn:Er. cbn [snd] in *.
  split; [done|]. split; [pose proof (mi_failures _ _ Hi); lia|]. destruct ok.
  - apply rollback_loads_true in Er as E.
    destruct (Hrun (rev (segments_of loads)) [] true m') as (_ & _ & Heff); [by rewrite app_nil_r|done|].
    apply page_at_same_view; [done|done|done|]. intros x. rewrite Heff.
    destruct (List.find (seg_covers x) (rev _)) as [s|] eqn:Ef.
    + apply find_covers_Some in Ef as [Hs Hx]. rewrite <- Permutation_rev in Hs.
      symmetry. apply unmapped_page_at; [done|]. by eapply mi_free.
    + pose proof (mi_view _ _ Hi x) as Hv.
      destruct (List.find (seg_covers x) (segments_of loads)) as [s|] eqn:Eg; [|done].
      apply find_covers_Some in Eg as [Hs Hx]. exfalso.
      eapply find_covers_None; [exact Ef| |exact Hx]. by rewrite <- Permutation_rev.
  - split; [|split; [done|]].
    + destruct (seq_ops unmap_segment (rev (segments_of loads)) m) as [ok1 m1] eqn:E.
      destruct (Hrun (rev (segments_of loads)) [] ok1 m1) as (_ & _ & Heff); [by rewrite app_nil_r|done|].
      destruct ok1; [|lia]. rewrite (rollback_loads_ok loads m m1) in Er; [done|apply Hi|apply Hi| |done].
      intros l1 l2 m2 Hl H1. by eapply Hrun.
    + intros x Hx. rewrite <- (mem_inv_kept loads m x Hi Hx). apply Hout. intros s Hs Hin.
      rewrite <- Permutation_rev in Hs. rewrite (mi_free _ _ Hi s x Hs Hin) in Hx. by destruct Hx.
Qed.
End memory.

(** ** Loading and inspecting one object *)

(** The image of [o] is in memory at its recorded bias. *)
Record image_loaded (m : memory_t) (o : Elf32LoadedDependencyObject) : Prop := {
  il_result : load_result_ok (MappedGuestMemory.page_size_ m) (load o);
  il_segments : exists plan, plan_elf32_load m (image o) = Ok plan /\
    Forall2 (segment_loaded (image o) (lr_load_bias (load o)) m)
      (mapped_segments (plan_segments plan)) (lr_segments (load o));
  il_dynamic : exists plan, plan_elf32_load m (image o) = Ok plan /\ is_u32 (lr_load_bias (load o)) /\
    lr_dynamic_segment (load o) = dynamic_at plan (lr_load_bias (load o)) /\
    forall d, lr_dynamic_segment (load o) = Some d -> is_u32 (ds_guest_address d);
}.

Lemma plan_elf32_load_page_size m m' img :
  MappedGuestMemory.page_size_ m' = MappedGuestMemory.page_size_ m ->
  plan_elf32_load m' img = plan_elf32_load m img.
Proof. intros Hps. unfold plan_elf32_load, MappedGuestMemory.page_size. by rewrite Hps. Qed.

Lemma image_loaded_ext m m' o :
  MappedGuestMemory.page_size_ m' = MappedGuestMemory.page_size_ m ->
  (forall x, is_Some (page_at m x).1 -> page_at m' x = page_at m x) ->
  image_loaded m o -> image_loaded m' o.
Proof.
  intros Hps Hat [Hr (plan & Hp & HF) (plan' & Hp' & Hd)]. split; [by rewrite Hps| |].
  - exists plan. split; [by rewrite (plan_elf32_load_page_size m)|]. eapply Forall2_impl; [exact HF|]. intros s ls [H1 H2 H3 H4 H5]. split; try done.
    intros x Hx. rewrite Hat; [by apply H5|]. rewrite H5 by done. by eexists.
  - exists plan'. by rewrite (plan_elf32_load_page_size m).
Qed.

(** *** The names an image asks for *)

(** The dynamic array of an image: the entries up to DT_NULL, encoded in the file at
    the offset of PT_DYNAMIC. *)
Definition image_dynamic (img : list Z) (plan : Elf32LoadPlan) (es : list Elf32DynamicEntry) : Prop :=
  match plan_dynamic_segment plan with
  | None => es = []
  | Some d => terminated es /\ Forall entry_typed es /\ 8 * Z.of_nat (length es) <= dyn_file_size d /\
      forall i, 0 <= i < 8 * Z.of_nat (length es) ->
        byte_at img (dyn_offset d + i) = byte_at (encode_dynamic es) i
  end.

(** The recorded DT_NEEDED names are those of the image: one per DT_NEEDED entry of its
    dynamic array, in order, each the C string in guest memory at that offset of the
    string table that DT_STRTAB places. *)
Definition names_read (m : memory_t) (o : Elf32LoadedDependencyObject) : Prop :=
  exists plan es, plan_elf32_load m (image o) = Ok plan /\ image_dynamic (image o) plan es /\
    Forall2 (fun offset nm => exists table, tag_value (live_entries es) kDtStrtab = Some table /\
               is_cstring m (lr_load_bias (load o) + table + offset) nm)
      (needed_values (live_entries es)) (ls_needed (linker_strings o)).

Lemma is_cstring_ext (m m' : memory_t) a v :
  (forall x, is_Some (page_at m x).1 -> page_at m' x = page_at m x) ->
  is_cstring m a v -> is_cstring m' a v.
Proof.
  intros Hat. assert (Hpeek : forall x b, gm_peek m x = Some b -> gm_peek m' x = Some b).
  { intros x b Hx. cbn in *. rewrite (page_at_peek m m'); [done|]. apply Hat. by eapply peek_mapped. }
  intros [H1 H2]. split; [|by apply Hpeek]. intros i Hi. destruct (H1 i Hi). auto.
Qed.

Lemma names_read_ext m m' o :
  MappedGuestMemory.page_size_ m' = MappedGuestMemory.page_size_ m ->
  (forall x, is_Some (page_at m x).1 -> page_at m' x = page_at m x) ->
  names_read m o -> names_read m' o.
Proof.
  intros Hps Hat (plan & es & Hp & Hd & HF). exists plan, es.
  rewrite (plan_elf32_load_page_size m) by done. split; [done|]. split; [done|].
  eapply Forall2_impl; [exact HF|]. intros off nm (t & Ht & Hc). exists t. split; [done|].
  by eapply is_cstring_ext.
Qed.

Lemma names_read_same m o o' :
  image o' = image o -> load o' = load o -> linker_strings o' = linker_strings o ->
  names_read m o -> names_read m o'.
Proof. unfold names_read. by intros -> -> ->. Qed.

(** The file bytes of PT_DYNAMIC are in memory at its biased address. *)
Lemma dynamic_bytes m o plan d :
  mapped_wf m -> is_bytes (image o) -> image_loaded m o -> plan_elf32_load m (image o) = Ok plan ->
  plan_dynamic_segment plan = Some d ->
  forall i, 0 <= i < dyn_file_size d ->
    (page_at m (dyn_virtual_address d + lr_load_bias (load o) + i)).2 = byte_at (image o) (dyn_offset d + i).
Proof.
  intros Hwf Hb [_ (plan' & Hp' & HF) _] Hp Hd i Hi. assert (plan' = plan) as -> by congruence.
  pose proof (plan_elf32_load_wf m (image o) plan Hwf Hb Hp) as Hpw.
  destruct (pw_dynamic _ _ _ Hpw d Hd) as (ld & Hld & _ & L1 & L2 & L3).
  destruct (L3 ltac:(lia)) as [L4 L5].
  destruct (hw_dynamic _ _ _ (pw_headers _ _ _ Hpw) d Hd) as (_ & _ & D1 & D2 & _).
  assert (Hm : ld ∈ mapped_segments (plan_segments plan)).
  { apply list_elem_of_filter. split; [lia|done]. }
  destruct (Forall2_elem_l _ _ _ ld HF Hm) as (ls & _ & [S1 _ _ S2 S3]).
  rewrite S3 by (unfold in_range; lia). cbn. rewrite decide_True by (unfold in_range; lia).
  f_equal. lia.
Qed.

(** The typed ranges the placement search relies on. *)
Definition load_options_typed (options : Elf32DependencyLoadOptions) : Prop :=
  is_u32 (dl_max_depth options) /\ is_u64 (dl_max_dependency_occurrences options) /\
  is_u32 (dl_max_objects options) /\
  is_u64 (dl_max_total_image_bytes options) /\ is_u32 (dl_max_string_bytes options) /\
  is_u32 (search_begin (dl_placement options)) /\ is_u64 (search_end_exclusive (dl_placement options)).

Section one_object.
Context (m0 : memory_t) (Hwf0 : mapped_wf m0) (options : Elf32DependencyLoadOptions).
Hypothesis (Hopts : load_options_typed options).

Definition real_failure (f : load_failure) : Prop :=
  df_error f <> Elf32DependencyLoadError.None /\ df_error f <> Elf32DependencyLoadError.RollbackFailed.

Lemma load_object_spec loads m o rd r m' :
  (failures m0 <= 1)%nat -> mem_inv m0 loads m -> is_bytes (image o) -> load_object m o options rd = (r, m') ->
  match r with
  | Ok o' => exists l, o' = set_load o l /\ mem_inv m0 (loads ++ [l]) m' /\ image_loaded m' o' /\
               MappedGuestMemory.page_size_ m' = MappedGuestMemory.page_size_ m /\
               forall x, is_Some (page_at m x).1 -> page_at m' x = page_at m x
  | Err f => mem_inv m0 loads m' /\ MappedGuestMemory.page_size_ m' = MappedGuestMemory.page_size_ m /\
             (forall x, page_at m' x = page_at m x) /\ real_failure f
  end.
Proof.
  intros Hone Hi Hb Hl. destruct (mi_state _ _ _ Hi) as [Hwf Hps].
  assert (Hcommit : forall base, from_option is_u32 True base ->
    forall r m', match load_elf32 m (image o) base with
      | (Err e, memory) =>
          (Err (with_load_errors Elf32DynamicPlacementError.None e
                  (failure Elf32DependencyLoadError.LoadFailed (identity o))), memory)
      | (Ok l, memory) => (Ok (set_load o l), memory) end = (r, m') ->
    match r with
    | Ok o' => exists l, o' = set_load o l /\ mem_inv m0 (loads ++ [l]) m' /\ image_loaded m' o' /\
               MappedGuestMemory.page_size_ m' = MappedGuestMemory.page_size_ m /\
               forall x, is_Some (page_at m x).1 -> page_at m' x = page_at m x
    | Err f => mem_inv m0 loads m' /\ MappedGuestMemory.page_size_ m' = MappedGuestMemory.page_size_ m /\
               (forall x, page_at m' x = page_at m x) /\ real_failure f
    end).
  { intros base Hbase r1 m1 H. destruct (load_elf32 m (image o) base) as [[l|e] m2] eqn:E; simplify_eq.
    - exists l. split; [done|]. destruct (load_elf32_extends m0 loads m _ _ l _ Hi Hb Hbase E) as [H1 H2].
      split; [done|]. destruct (load_elf32_loaded m _ _ _ _ Hwf Hb Hbase E) as (plan & Hp & HF).
      pose proof (mi_state _ _ _ H1) as [_ Hps1].
      split; [|by rewrite Hps, Hps1].
      split; [cbn; rewrite Hps1, <- Hps; by eapply load_elf32_result| |].
      + exists plan. split; [|done]. rewrite (plan_elf32_load_page_size m) by congruence. done.
      + destruct (load_elf32_dynamic m _ _ _ _ Hwf Hb Hbase E) as (plan' & Hp' & Hd). exists plan'.
        rewrite (plan_elf32_load_page_size m) by congruence. done.
    - apply load_elf32_inv in E; [|done..]. pose proof (mi_failures _ _ _ Hi).
      destruct E as [[_ ->]|[Hf Hv]]; [done|]. destruct Hv as (Hv & Hwf' & Hz); [lia|].
      split; [by eapply mem_inv_view; [|done|done|lia]|]. split; [apply Hv|]. split; [|done].
      intros x. by apply same_view_page_at. }
  unfold load_object in Hl. destruct (plan_elf32_load m (image o)) as [plan|e] eqn:Ep; [|by simplify_eq].
  destruct (plan_type plan).
  - destruct rd; [by simplify_eq|]. by apply (Hcommit None).
  - destruct (place_elf32_dynamic m (image o) (dl_placement options)) as [base|[p e]] eqn:Epl; [|by simplify_eq].
    apply place_elf32_dynamic_ok in Epl as (_ & _ & _ & Hbase & _); [|done|done|apply Hopts..].
    by apply (Hcommit (Some base)).
Qed.

(** What parsing the loaded PT_DYNAMIC returns is the image's dynamic array. *)
Lemma parsed_image_dynamic m o plan seg es :
  mapped_wf m -> is_bytes (image o) -> image_loaded m o -> plan_elf32_load m (image o) = Ok plan ->
  lr_dynamic_segment (load o) = Some seg -> parse_elf32_dynamic m seg = Ok es ->
  image_dynamic (image o) plan es /\ Forall entry_typed es.
Proof.
  intros Hwf Hb Himg Hp Hseg Hparse. destruct (il_dynamic m o Himg) as (plan' & Hp' & Hbias & Hdyn & Hga).
  assert (plan' = plan) as -> by congruence.
  rewrite Hseg in Hdyn. unfold dynamic_at in Hdyn. unfold image_dynamic.
  destruct (plan_dynamic_segment plan) as [d|] eqn:Ed; [|done]. injection Hdyn as ->.
  specialize (Hga _ Hseg). cbn in Hga.
  pose proof (plan_elf32_load_wf m (image o) plan Hwf Hb Hp) as Hpw.
  destruct (hw_dynamic _ _ _ (pw_headers _ _ _ Hpw) d Ed) as (_ & D1 & D2 & D3 & _ & D4).
  unfold parse_elf32_dynamic in Hparse. cbn in Hparse. apply bind_ok in Hparse as ([] & G1%fail_if_ok & Hparse).
  apply bind_ok in Hparse as ([] & G2%fail_if_ok & Hparse). rewrite u64_small in G1 by word_lia. bool_prop.
  apply parse_entries_sound in Hparse as (es' & -> & Ht & Hf & Hle & Hr); try done; try word_lia.
  cbn [app] in *. split; [|done]. split; [done|]. split; [done|]. split; [lia|]. intros i Hi.
  rewrite Z.add_0_r, gm_read_spec in Hr by (done || (unfold span_max; word_lia)).
  apply mapM_seqZ_Some in Hr as [_ Hr]; [|lia]. specialize (Hr i Hi).
  rewrite <- (dynamic_bytes m o plan d Hwf Hb Himg Hp Ed) by lia.
  cbn in Hr. by apply peek_byte in Hr.
Qed.

(** A successful inspection records the image's names. *)
Lemma inspect_object_names m o o' :
  mapped_wf m -> is_bytes (image o) -> image_loaded m o -> ls_needed (linker_strings o) = [] ->
  inspect_object m o options = (None, o') -> names_read m o'.
Proof.
  intros Hwf Hb Himg Hnil H. destruct (il_dynamic m o Himg) as (plan & Hp & Hbias & Hdyn & _).
  exists plan. unfold inspect_object in H. destruct (lr_dynamic_segment (load o)) as [seg|] eqn:Eseg.
  - destruct (parse_elf32_dynamic m seg) as [es|e] eqn:Ep; [|done].
    destruct (build_elf32_linker_metadata _ _ _) as [md|e] eqn:Em; [|done].
    destruct (build_elf32_linker_strings _ _ _) as [st|e] eqn:Es; [|done]. injection H as <-. cbn.
    destruct (parsed_image_dynamic m o plan seg es) as [Hd Hty]; try done. cbn in Em.
    pose proof (build_metadata_wf m _ es md Hwf Hbias Hty Em) as Hmd.
    pose proof (build_metadata_names m _ es md Hwf Hbias Hty Em) as [Hn Ht].
    exists es. split; [done|]. split; [done|]. rewrite <- Hn.
    eapply Forall2_impl; [eapply (build_linker_strings_needed m md (dl_max_string_bytes options)); [done|by destruct Hopts as (_ & _ & _ & _ & ? & _)|done| |exact Es]|].
    + intros t Hst. by apply Ht.
    + intros off nm (t & Hst & Hc). destruct (Ht t Hst) as (_ & tab & Htab & Ea). exists tab.
      split; [done|]. by rewrite Ea, (Z.add_comm tab) in Hc.
  - injection H as <-. exists []. split; [done|]. unfold image_dynamic, dynamic_at in *.
    destruct (plan_dynamic_segment plan); [done|]. split; [done|]. rewrite Hnil. constructor.
Qed.

(** Inspection leaves identity, image, load and edges alone. *)
Lemma inspect_object_spec m o r o' :
  inspect_object m o options = (r, o') ->
  identity o' = identity o /\ image o' = image o /\ load o' = load o /\
  dependencies o' = dependencies o /\ (forall f, r = Some f -> real_failure f).
Proof.
  unfold inspect_object. intros H. destruct (lr_dynamic_segment (load o)) as [seg|]; [|by simplify_eq].
  destruct (parse_elf32_dynamic m seg) as [es|e]; [|simplify_eq; split_and!; try done; by intros f [= <-]].
  destruct (build_elf32_linker_metadata _ _ _) as [md|e]; [|simplify_eq; split_and!; try done; by intros f [= <-]].
  destruct (build_elf32_linker_strings _ _ _) as [st|e]; simplify_eq; split_and!; try done; by intros f [= <-].
Qed.
End one_object.

(** ** Acquisition *)

(** The images a provider hands out are byte vectors. *)
Definition provider_bytes {W} (p : Elf32DependencyProvider W) : Prop :=
  forall requester nm limit w src w',
    dp_resolve_for p requester nm limit w = (Ok src, w') -> is_bytes (src_image src).

(** The provider returned this identity and image for a name the requester asked for. *)
Definition provided {W} (p : Elf32DependencyProvider W) (requester nm id : name) (img : list Z) : Prop :=
  exists limit w w',
    dp_resolve_for p requester nm limit w = (Ok {| src_identity := id; src_image := img |}, w').

Definition dependency_provided {W} (p : Elf32DependencyProvider W) (requester : name)
    (d : Elf32ResolvedDependency) : Prop :=
  provided p requester (rd_requested_name d) (rd_identity d) (rd_image d).

Lemma resolve_names_provided {W} (p : Elf32DependencyProvider W) o needed total acc w l w' :
  Forall (dependency_provided p (ro_requester_identity o)) acc ->
  resolve_names p o needed total acc w = (Ok l, w') ->
  Forall (dependency_provided p (ro_requester_identity o)) l.
Proof.
  revert total acc w; induction needed as [|nm needed IH]; intros total acc w Hacc H;
    cbn in H; [by simplify_eq|].
  destruct (is_empty nm); [done|]. case_head H E1; [done|]. case_head H E2; [done|].
  destruct (dp_resolve_for p _ _ _ w) as [r w1] eqn:Er.
  destruct (accept_source _ _ _ _ _) as [d|] eqn:Ea; [|done].
  eapply IH; [|exact H]. apply Forall_app_2; [done|]. apply Forall_singleton.
  unfold accept_source in Ea. apply bind_ok in Ea as (s & ->%map_err_ok & Ea).
  do 4 apply bind_ok in Ea as ([] & _ & Ea). injection Ea as <-.
  exists (Z.min (ro_max_image_bytes o) (u64 (ro_max_total_image_bytes o - total))), w, w1. by destruct s.
Qed.

Lemma catalog_scan_elem nm l acc e :
  catalog_scan nm l acc = inl (Some e) -> e ∈ l \/ acc = Some e.
Proof.
  revert acc; induction l as [|x l IH]; intros acc H; cbn in H; [right; congruence|].
  destruct (negb _); [apply IH in H as [H|H]; [left; by right|by right]|].
  destruct acc; [done|]. apply IH in H as [H|[= ->]]; left; [by right|by left].
Qed.

(** A catalog of byte images is a byte provider. *)
Lemma catalog_provider_bytes {W} entries :
  Forall (fun e => is_bytes (ce_image e)) entries ->
  provider_bytes (W := W) (Elf32DependencyCatalogProvider entries).
Proof.
  intros He requester nm limit w src w' H. cbn in H. unfold default_resolve_for in H.
  injection H as H _. unfold catalog_resolve in H.
  destruct (catalog_scan nm _ None) as [[entry|]|] eqn:Es; [|done..].
  destruct (_ || _); [done|]. injection H as <-. cbn [src_image].
  apply catalog_scan_elem in Es as [Es|?]; [|done]. rewrite Forall_forall in He. by apply He.
Qed.

Lemma acquired_image_bytes_ok remaining l n :
  is_u64 remaining -> acquired_image_bytes remaining l = Some n ->
  0 <= n <= remaining.
Proof.
  intros Hr. unfold acquired_image_bytes.
  assert (Hgo : forall a, 0 <= a <= remaining ->
    foldl (fun acquired dependency => acquired_bytes ← acquired;
       if u64 (remaining - acquired_bytes) <? Z.of_nat (length (rd_image dependency)) then None
       else Some (u64 (acquired_bytes + Z.of_nat (length (rd_image dependency))))) (Some a) l = Some n ->
    0 <= n <= remaining).
  { induction l as [|d l IH]; intros a Ha H; cbn in H; [by simplify_eq|].
    rewrite u64_small in H by word_lia. destruct (_ <? _) eqn:E; bool_prop.
    - exfalso. clear -H. induction l as [|d' l IH]; [done|]. by apply IH.
    - apply IH in H; [done|]. rewrite u64_small by word_lia. lia. }
  apply (Hgo 0). word_lia.
Qed.

(** ** The context invariant *)
Section graph_invariant.
Context {W : Type} (provider : Elf32DependencyProvider W) (options : Elf32DependencyLoadOptions).
Context (m0 : memory_t) (n0 : nat).
Hypothesis (Hwf0 : mapped_wf m0) (Hopts : load_options_typed options) (Hbytes : provider_bytes provider).
Hypothesis (Hone : (failures m0 <= 1)%nat).

Implicit Types (c : GraphLoadContext W) (i j : nat).

Definition graph_of c : Elf32DependencyGraph := {| objects := gc_objects c |}.

Record object_ok (count : nat) (o : Elf32LoadedDependencyObject) : Prop := {
  ok_identity : identity o <> [];
  ok_edges e : e ∈ dependencies o -> (target_object e < count)%nat /\ edge_requested_name e <> [];
}.

(** Every DT_NEEDED occurrence has its edge, in order. *)
Definition edges_complete (o : Elf32LoadedDependencyObject) : Prop :=
  edge_requested_name <$> dependencies o = ls_needed (linker_strings o).

(** An edge leads to the object the provider returned for its name. *)
Definition edge_resolved (objs : list Elf32LoadedDependencyObject) (o : Elf32LoadedDependencyObject)
    (e : Elf32DependencyEdge) : Prop :=
  exists t, objs !! target_object e = Some t /\
    provided provider (identity o) (edge_requested_name e) (identity t) (image t).

Lemma edge_resolved_mono objs objs' o o' e :
  identity o' = identity o ->
  (forall j t, objs !! j = Some t -> exists t', objs' !! j = Some t' /\ identity t' = identity t /\ image t' = image t) ->
  edge_resolved objs o e -> edge_resolved objs' o' e.
Proof.
  intros Hid Hsub (t & Ht & Hp). destruct (Hsub _ t Ht) as (t' & Ht' & Hi & Hm).
  exists t'. split; [done|]. by rewrite Hid, Hi, Hm.
Qed.

(** The invariant; [pending] is the object whose processing starts. *)
Record ctx_inv c (pending : option nat) : Prop := {
  ci_states : length (gc_states c) = length (gc_objects c);
  ci_index id j : gc_object_indices c !! id = Some j <->
    exists o, gc_objects c !! j = Some o /\ identity o = id;
  ci_objects j o : gc_objects c !! j = Some o -> object_ok (length (gc_objects c)) o;
  ci_count : Z.of_nat (length (gc_objects c)) <= dl_max_objects options;
  ci_start : (n0 <= length (gc_objects c))%nat;
  ci_budget : 0 <= gc_dependency_occurrences c <= dl_max_dependency_occurrences options /\
              0 <= gc_total_image_bytes c <= dl_max_total_image_bytes options;
  ci_mem : mem_inv m0 (gc_successful_loads c) (gc_memory c);
  ci_loaded j o : gc_objects c !! j = Some o -> (n0 <= j)%nat -> pending <> Some j ->
    load o ∈ gc_successful_loads c /\ image_loaded (gc_memory c) o;
  ci_loads l : l ∈ gc_successful_loads c ->
    exists j o, gc_objects c !! j = Some o /\ (n0 <= j)%nat /\ pending <> Some j /\ load o = l;
  ci_discovered j : gc_states c !! j = Some Discovered -> pending = Some j;
  ci_complete j o : gc_objects c !! j = Some o -> (n0 <= j)%nat -> gc_states c !! j = Some Loaded ->
    edges_complete o /\ names_read (gc_memory c) o;
  ci_edges j o e : gc_objects c !! j = Some o -> (n0 <= j)%nat -> e ∈ dependencies o ->
    edge_resolved (gc_objects c) o e;
}.

(** Objects other than [i] are left alone, new ones are appended. *)
Record frame c i c' : Prop := {
  fr_length : (length (gc_objects c) <= length (gc_objects c'))%nat;
  fr_objects j : (j < length (gc_objects c))%nat -> j <> i -> gc_objects c' !! j = gc_objects c !! j;
  fr_states j : (j < length (gc_objects c))%nat -> j <> i -> gc_states c' !! j = gc_states c !! j;
  fr_page_size : MappedGuestMemory.page_size_ (gc_memory c') = MappedGuestMemory.page_size_ (gc_memory c);
  fr_memory x : is_Some (page_at (gc_memory c) x).1 -> page_at (gc_memory c') x = page_at (gc_memory c) x;
}.

Lemma frame_refl c i : frame c i c.
Proof. by split. Qed.

Lemma frame_trans c i c1 k c2 :
  frame c i c1 -> frame c1 k c2 -> k = i \/ (length (gc_objects c) <= k)%nat -> frame c i c2.
Proof.
  intros [L1 O1 S1 P1 M1] [L2 O2 S2 P2 M2] Hk. split; [lia| | |congruence|].
  - intros j Hj Hne. rewrite O2 by (lia || (destruct Hk; subst; lia)). by apply O1.
  - intros j Hj Hne. rewrite S2 by (lia || (destruct Hk; subst; lia)). by apply S1.
  - intros x Hx. rewrite M2 by (by rewrite M1). by apply M1.
Qed.

(** How a run ends. *)
Definition wp {A} (m : load_m W A) c (Q : A -> GraphLoadContext W -> Prop)
    (E : load_failure -> GraphLoadContext W -> Prop) : Prop :=
  match m c with (Ok a, c') => Q a c' | (Err f, c') => E f c' end.

Lemma wp_bind {A B} (m : load_m W A) (g : A -> load_m W B) c Q E :
  wp m c (fun a c1 => wp (g a) c1 Q E) E -> wp (m ≫= g) c Q E.
Proof. unfold wp, mbind, load_m_bind. by destruct (m c) as [[a|f] c1]. Qed.

Lemma wp_conseq {A} (m : load_m W A) c (Q Q' : A -> GraphLoadContext W -> Prop)
    (E E' : load_failure -> GraphLoadContext W -> Prop) :
  wp m c Q E -> (forall a c', Q a c' -> Q' a c') -> (forall f c', E f c' -> E' f c') -> wp m c Q' E'.
Proof. unfold wp. destruct (m c) as [[a|f] c1]; eauto. Qed.

Lemma wp_object_at i c o Q E :
  gc_objects c !! i = Some o -> Q o c -> wp (object_at i) c Q E.
Proof. intros Ho HQ. unfold wp, object_at, mbind, load_m_bind, get_context. by rewrite Ho. Qed.

Lemma wp_state_at i c s Q E :
  gc_states c !! i = Some s -> Q s c -> wp (state_at_index i) c Q E.
Proof. intros Ho HQ. unfold wp, state_at_index, mbind, load_m_bind, get_context. by rewrite Ho. Qed.

(** What a failing run leaves. *)
Record fails c i f c' : Prop := {
  fl_frame : frame c i c';
  fl_mem : mem_inv m0 (gc_successful_loads c') (gc_memory c');
  fl_real : real_failure f;
}.

Lemma fails_trans c i c1 k f c2 :
  frame c i c1 -> fails c1 k f c2 -> k = i \/ (length (gc_objects c) <= k)%nat -> fails c i f c2.
Proof. intros H1 [H2 H3 H4] Hk. split; [by eapply frame_trans|done..]. Qed.

Lemma set_object_lookup i o' c j :
  (i < length (gc_objects c))%nat ->
  gc_objects (set_object i o' c) !! j = if decide (j = i) then Some o' else gc_objects c !! j.
Proof.
  intros Hi. cbn. case_decide; [subst; by rewrite list_lookup_insert_eq|by rewrite list_lookup_insert_ne].
Qed.

Lemma set_object_frame i o' c : frame c i (set_object i o' c).
Proof.
  split; cbn; [by rewrite length_insert| |done..]. intros j _ Hne. by rewrite list_lookup_insert_ne.
Qed.

Lemma set_object_edges i o o' c o1 o1' e :
  gc_objects c !! i = Some o -> identity o' = identity o -> image o' = image o -> identity o1' = identity o1 ->
  edge_resolved (gc_objects c) o1 e -> edge_resolved (gc_objects (set_object i o' c)) o1' e.
Proof.
  intros Ho Hid Him H1. apply edge_resolved_mono; [done|]. intros j t Ht.
  rewrite set_object_lookup by by eapply lookup_lt_Some. case_decide as Hj; [|by exists t].
  subst j. exists o'. simplify_eq. done.
Qed.

(** Rewriting an object without touching identity, image or load. *)
Lemma set_object_inv c pending i o o' :
  ctx_inv c pending -> gc_objects c !! i = Some o ->
  identity o' = identity o -> image o' = image o -> load o' = load o ->
  object_ok (length (gc_objects c)) o' ->
  (gc_states c !! i <> Some Loaded) ->
  (forall e, e ∈ dependencies o' -> (n0 <= i)%nat -> edge_resolved (gc_objects c) o e) ->
  ctx_inv (set_object i o' c) pending.
Proof.
  intros [] Ho Hid Him Hld Hok Hcomp Hedge.
  assert (Hi : (i < length (gc_objects c))%nat) by by eapply lookup_lt_Some.
  split; try done.
  - cbn. by rewrite length_insert.
  - intros id j. change (gc_object_indices (set_object i o' c)) with (gc_object_indices c).
    rewrite ci_index0. rewrite set_object_lookup by done. case_decide; [subst|done].
    split; intros (o1 & H1 & H2); [exists o'|exists o]; split; congruence.
  - intros j o1. rewrite set_object_lookup by done. cbn [gc_objects set_object]. rewrite length_insert.
    case_decide; [intros [= <-]; done|apply ci_objects0].
  - cbn. by rewrite length_insert.
  - cbn. by rewrite length_insert.
  - intros j o1. rewrite set_object_lookup by done. case_decide; [subst; intros [= <-]|apply ci_loaded0].
    intros Hj Hp. rewrite Hld. destruct (ci_loaded0 i o Ho Hj Hp) as [H1 [H4 H5 H6]].
    split; [done|]. split; rewrite ?Him, ?Hld; done.
  - intros l Hl. destruct (ci_loads0 l Hl) as (j & o1 & H1 & H2 & H4 & H3).
    destruct (decide (j = i)) as [->|Hne].
    + exists i, o'. rewrite set_object_lookup, decide_True by done. split; [done|]. split; [done|].
      split; [done|]. replace o1 with o in H3 by congruence. congruence.
    + exists j, o1. by rewrite set_object_lookup, decide_False.
  - intros j o1. rewrite set_object_lookup by done. case_decide; [by subst|apply ci_complete0].
  - intros j o1 e. rewrite set_object_lookup by done. case_decide as Hj.
    + subst j. intros [= <-] Hn He. eapply set_object_edges; [done..|]. by apply (Hedge e).
    + intros H1 Hn He. eapply (set_object_edges i o o'); [done..|]. by eapply ci_edges0.
Qed.

Lemma load_step_ok i rd c o :
  ctx_inv c (Some i) -> (n0 <= i)%nat -> gc_states c !! i = Some Loading ->
  gc_objects c !! i = Some o -> is_bytes (image o) ->
  wp (load_step options i rd) c
    (fun _ c' => exists l, ctx_inv c' None /\ frame c i c' /\ gc_objects c' !! i = Some (set_load o l) /\
       length (gc_objects c') = length (gc_objects c) /\ gc_states c' = gc_states c)
    (fails c i).
Proof.
  intros Hinv Hn Hst Ho Hb. unfold load_step. apply wp_bind. apply (wp_object_at i c o); [done|].
  unfold wp, mbind, load_m_bind, get_context.
  destruct (load_object (gc_memory c) o options rd) as [r m'] eqn:El.
  pose proof (load_object_spec m0 options Hopts _ _ _ _ _ _ Hone (ci_mem _ _ Hinv) Hb El) as Hspec.
  assert (Hi : (i < length (gc_objects c))%nat) by by eapply lookup_lt_Some.
  destruct r as [o'|f]; cbn; cycle 1.
  { destruct Hspec as (Hmem & Hps & Hat & Hf). split; [by split|done|done]. }
  destruct Hspec as (l & -> & Hmem & Himg & Hps & Hat). exists l. destruct Hinv.
  assert (Hlk : forall j, <[i := set_load o l]> (gc_objects c) !! j =
            if decide (j = i) then Some (set_load o l) else gc_objects c !! j).
  { intros j. apply (set_object_lookup i (set_load o l) c j Hi). }
  split; [|split; [|split; [|split; [by rewrite length_insert|done]]]]; cbn.
  - split; cbn; try done; rewrite ?length_insert; try done.
    + intros id j. rewrite ci_index0, Hlk. case_decide; [subst|done].
      split; intros (o1 & H1 & H2); eexists; split; [done|cbn|exact Ho|]; simplify_eq; done.
    + intros j o1. rewrite Hlk. case_decide; [intros [= <-]|apply ci_objects0].
      destruct (ci_objects0 i o Ho) as [H1 H2]. by split.
    + intros j o1. rewrite Hlk. case_decide as Hji.
      * intros [= <-] _ _. split; [|done]. apply elem_of_app. right. by apply list_elem_of_singleton.
      * intros Hj Hnj _. destruct (ci_loaded0 j o1 Hj Hnj) as [H1 H2]; [congruence|].
        split; [apply elem_of_app; by left|]. by eapply image_loaded_ext.
    + intros l1 [Hl1|Hl1]%elem_of_app.
      * destruct (ci_loads0 l1 Hl1) as (j & o1 & H1 & H2 & H4 & H3).
        exists j, o1. rewrite Hlk, decide_False by congruence. done.
      * apply list_elem_of_singleton in Hl1 as ->. exists i, (set_load o l).
        by rewrite Hlk, decide_True.
    + intros j Hj. assert (Some i = Some j) as [= <-] by by apply ci_discovered0. congruence.
    + intros j o1. rewrite Hlk. case_decide; [intros [= <-] _ Hl; congruence|].
      intros H1 H2 H3. destruct (ci_complete0 j o1 H1 H2 H3). split; [done|]. by eapply names_read_ext.
    + intros j o1 e. rewrite Hlk. case_decide as Hji.
      * subst j. intros [= <-] Hn1 He. eapply (set_object_edges i o (set_load o l) c o); try done. by eapply ci_edges0.
      * intros H1 Hn1 He. eapply (set_object_edges i o (set_load o l) c o1); try done. by eapply ci_edges0.
  - split; cbn; [by rewrite length_insert| |done..]. intros j _ Hne. by rewrite Hlk, decide_False.
  - by rewrite Hlk, decide_True.
Qed.

Lemma inspect_step_ok i c o :
  ctx_inv c None -> (n0 <= i)%nat -> gc_states c !! i = Some Loading -> gc_objects c !! i = Some o ->
  is_bytes (image o) -> ls_needed (linker_strings o) = [] ->
  wp (inspect_step options i) c
    (fun _ c' => exists o', ctx_inv c' None /\ frame c i c' /\ gc_objects c' !! i = Some o' /\
       identity o' = identity o /\ image o' = image o /\ dependencies o' = dependencies o /\
       names_read (gc_memory c') o' /\
       length (gc_objects c') = length (gc_objects c) /\ gc_states c' = gc_states c)
    (fails c i).
Proof.
  intros Hinv Hn Hst Ho Hb Hnil. unfold inspect_step. apply wp_bind. apply (wp_object_at i c o); [done|].
  unfold wp, mbind, load_m_bind, get_context.
  destruct (inspect_object (gc_memory c) o options) as [r o'] eqn:Ei.
  assert (Hnames : r = None -> names_read (gc_memory c) o').
  { intros ->. destruct (ci_loaded _ _ Hinv i o Ho Hn) as [_ Himg]; [done|].
    eapply inspect_object_names; [exact Hopts|apply (ci_mem _ _ Hinv)|done..]. }
  apply inspect_object_spec in Ei as (Hid & Him & Hld & Hdep & Hf).
  assert (Hi : (i < length (gc_objects c))%nat) by by eapply lookup_lt_Some.
  assert (Hinv' : ctx_inv (set_object i o' c) None).
  { eapply set_object_inv; try done; [|congruence|].
    - destruct (ci_objects _ _ Hinv i o Ho) as [H1 H2]. split; [congruence|]. by rewrite Hdep.
    - intros e. rewrite Hdep. intros He _. by eapply ci_edges. }
  pose proof (set_object_frame i o' c) as Hfr.
  destruct r as [f|]; cbn.
  - split; [done|apply Hinv'|by apply Hf].
  - exists o'. split; [done|]. split; [done|]. split; [by rewrite list_lookup_insert_eq|].
    split_and!; try done; [by apply Hnames|by rewrite length_insert].
Qed.

(** What the provider's answers are worth. *)
Definition dependency_acquired (who : name) (d : Elf32ResolvedDependency) : Prop :=
  rd_requested_name d <> [] /\ rd_identity d <> [] /\ dependency_provided provider who d.

Lemma acquire_ok i c o :
  ctx_inv c None -> gc_objects c !! i = Some o ->
  wp (acquire_dependencies provider options i) c
    (fun ordered c' => ctx_inv c' None /\ gc_objects c' = gc_objects c /\ gc_states c' = gc_states c /\
       gc_memory c' = gc_memory c /\
       rd_requested_name <$> ordered = ls_needed (linker_strings o) /\
       Forall (dependency_acquired (identity o)) ordered)
    (fails c i).
Proof.
  intros Hinv Ho. unfold acquire_dependencies. apply wp_bind. apply (wp_object_at i c o); [done|].
  unfold wp, mbind, load_m_bind, get_context. cbv zeta.
  assert (Hthrow : forall f, real_failure f -> fails c i f c) by (intros f Hf; split; [by split|apply Hinv|done]).
  destruct (UINT32_MAX <? _) eqn:E1; [by apply Hthrow|]. bool_prop.
  destruct (ci_budget _ _ Hinv) as [Bo Bt]. destruct Hopts as (_ & Ho1 & _ & Ho2 & _).
  rewrite u64_small by word_lia. destruct (_ <? _) eqn:E2; [by apply Hthrow|]. bool_prop.
  destruct (_ =? 0) eqn:E0; bool_prop.
  { cbn. split; [done|]. split; [done|]. split; [done|]. split; [done|].
    destruct (ls_needed (linker_strings o)); [by split|cbn in E0; lia]. }
  rewrite (u64_small (_ - gc_total_image_bytes c)) by word_lia.
  set (ro := {| ro_max_dependencies := _ |}).
  destruct (resolve_elf32_dependencies provider ro (linker_strings o) (gc_world c)) as [r w] eqn:Er.
  destruct r as [ordered|e]; cbn; [|split; [by split|apply Hinv|done]].
  destruct (acquired_image_bytes _ ordered) as [n|] eqn:Ea; cbn; [|split; [by split|apply Hinv|done]].
  apply acquired_image_bytes_ok in Ea; [|word_lia].
  unfold resolve_elf32_dependencies in Er. case_head Er E3; [done|].
  pose proof Er as Hb. apply resolve_names_provided in Hb; [|constructor].
  apply resolve_names_ok in Er as (R1 & R2 & _); [|cbn; word_lia|done|cbn; word_lia|constructor].
  split; [|split; [done|]; split; [done|]; split; [done|]; split; [done|]].
  - destruct Hinv. split; cbn; try done. rewrite !Z.add_0_r.
    rewrite (u64_small (gc_total_image_bytes c)), (u64_small (gc_dependency_occurrences c + _)) by word_lia.
    rewrite !u64_small by word_lia. lia.
  - rewrite Forall_forall in R2, Hb |- *. intros d Hd. destruct (R2 d Hd) as (H1 & H2 & _).
    split; [done|]. split; [done|]. by apply Hb.
Qed.

(** ** Linking one dependency *)

(** Discovery of a new identity. *)
Lemma push_object_inv c nm img :
  ctx_inv c None -> gc_object_indices c !! nm = None -> nm <> [] ->
  Z.of_nat (length (gc_objects c)) < dl_max_objects options ->
  ctx_inv (push_object (new_object nm img) c) (Some (length (gc_objects c))).
Proof.
  intros [] Hnew Hnm Hcount.
  assert (Hlk : forall j o, (gc_objects c ++ [new_object nm img]) !! j = Some o ->
    gc_objects c !! j = Some o \/ j = length (gc_objects c) /\ o = new_object nm img).
  { intros j o [H|[Hge H]]%lookup_app_Some; [by left|right].
    apply list_lookup_singleton_Some in H as [Hj ->]. split; [lia|done]. }
  assert (Hout : forall j o, gc_objects c !! j = Some o -> (j < length (gc_objects c))%nat)
    by (intros; by eapply lookup_lt_Some).
  split; cbn; rewrite ?length_app; cbn; try lia; try done.
  - rewrite Hnew. intros id j. destruct (decide (id = nm)) as [->|Hne].
    + rewrite lookup_insert_eq. split.
      * intros [= <-]. exists (new_object nm img). by rewrite lookup_app_r, Nat.sub_diag.
      * intros (o & [Ho|[-> _]]%Hlk & Hid); [|done]. exfalso.
        assert (Hs : gc_object_indices c !! nm = Some j) by (apply ci_index0; eauto). congruence.
    + rewrite lookup_insert_ne by done. rewrite ci_index0. split.
      * intros (o & Ho & Hid). exists o. split; [by apply lookup_app_l_Some|done].
      * intros (o & [Ho|[-> ->]]%Hlk & Hid); [by exists o|cbn in Hid; congruence].
  - intros j o [Ho|[-> ->]]%Hlk; [|split; [done|]; intros e He; by apply elem_of_nil in He].
    destruct (ci_objects0 j o Ho) as [H1 H2]. split; [done|]. intros e He.
    destruct (H2 e He). split; [lia|done].
  - intros j o [Ho|[-> ->]]%Hlk Hj Hp; [by apply (ci_loaded0 j o)|done].
  - intros l Hl. destruct (ci_loads0 l Hl) as (j & o & H1 & H2 & _ & H3). exists j, o.
    split; [by apply lookup_app_l_Some|]. split; [done|]. split; [|done].
    intros [= <-]. apply Hout in H1. lia.
  - intros j [Hj|[Hge Hj]]%lookup_app_Some; [by apply ci_discovered0 in Hj|].
    apply list_lookup_singleton_Some in Hj as [Hj _]. f_equal. lia.
  - intros j o [Ho|[-> ->]]%Hlk Hn Hst.
    2: { rewrite lookup_app_r, ci_states0, Nat.sub_diag in Hst by lia. done. }
    apply (ci_complete0 j o); [done|done|].
    rewrite lookup_app_l in Hst; [done|]. rewrite ci_states0. by eapply Hout.
  - intros j o e [Ho|[-> ->]]%Hlk Hn He; [|by apply elem_of_nil in He].
    apply (edge_resolved_mono (gc_objects c) _ o); [done| |by eapply ci_edges0].
    intros k t Ht. exists t. split; [by apply lookup_app_l_Some|done].
Qed.

Lemma push_object_frame c i o :
  length (gc_states c) = length (gc_objects c) -> frame c i (push_object o c).
Proof.
  intros Hl. split; cbn; [rewrite length_app; lia| | |done..]; intros j Hj _; apply lookup_app_l; lia.
Qed.

Lemma reaches_mono objs objs' i j :
  (forall k o, objs !! k = Some o -> exists o', objs' !! k = Some o' /\ targets o ⊆ targets o') ->
  reaches {| objects := objs |} i j -> reaches {| objects := objs' |} i j.
Proof.
  intros Hsub Hr. induction Hr as [x|x y z (o & Ho & Hy) Hr IH]; [done|].
  destruct (Hsub x o Ho) as (o' & Ho' & Hs). eapply reaches_step; [|exact IH].
  exists o'. split; [done|]. by apply Hs.
Qed.

(** What processing object [i] from [c] establishes when it succeeds. *)
Record processed c i c' : Prop := {
  pr_inv : ctx_inv c' None;
  pr_frame : frame c i c';
  pr_state : gc_states c' !! i = Some Loaded;
  pr_object o : gc_objects c !! i = Some o ->
    exists o', gc_objects c' !! i = Some o' /\ identity o' = identity o /\ image o' = image o;
  pr_new j : (length (gc_objects c) <= j < length (gc_objects c'))%nat ->
    gc_states c' !! j = Some Loaded /\ reaches (graph_of c') i j;
}.

Definition fresh_pending c i : Prop :=
  ctx_inv c (Some i) /\ (n0 <= i)%nat /\ gc_states c !! i = Some Discovered /\
  exists o, gc_objects c !! i = Some o /\ is_bytes (image o) /\ dependencies o = [] /\
    ls_needed (linker_strings o) = [].

(** The loop state: object [i], with the inspected names [needed], has got edges for
    [names] so far. *)
Record linking c i (who : name) (names : list name) (needed : list name) : Prop := {
  lk_inv : ctx_inv c None;
  lk_start : (n0 <= i)%nat;
  lk_state : gc_states c !! i = Some Loading;
  lk_object : exists o, gc_objects c !! i = Some o /\ identity o = who /\
                names_read (gc_memory c) o /\ ls_needed (linker_strings o) = needed /\
                edge_requested_name <$> dependencies o = names;
}.

(** What the loop adds: new objects are loaded and reachable. *)
Record linked c i c' : Prop := {
  ld_frame : frame c i c';
  ld_object o : gc_objects c !! i = Some o ->
    exists o', gc_objects c' !! i = Some o' /\ identity o' = identity o /\ image o' = image o /\
               targets o ⊆ targets o';
  ld_new j : (length (gc_objects c) <= j < length (gc_objects c'))%nat ->
    gc_states c' !! j = Some Loaded /\ reaches (graph_of c') i j;
}.

Lemma linked_mono c i c' k j :
  linked c i c' -> reaches (graph_of c) k j -> reaches (graph_of c') k j.
Proof.
  intros [[L O S _ _] Hi _]. apply reaches_mono. intros x o Ho. destruct (decide (x = i)) as [->|Hne].
  - destruct (Hi o Ho) as (o' & H1 & _ & _ & H2). by exists o'.
  - exists o. rewrite O by (done || by eapply lookup_lt_Some). done.
Qed.

Lemma linked_trans c i c1 c2 : linked c i c1 -> linked c1 i c2 -> (i < length (gc_objects c))%nat -> linked c i c2.
Proof.
  intros H1 H2 Hi. pose proof (ld_frame _ _ _ H1) as F1. pose proof (ld_frame _ _ _ H2) as F2. split.
  - eapply frame_trans; [done..|by left].
  - intros o Ho. destruct (ld_object _ _ _ H1 o Ho) as (o1 & E1 & I1 & M1 & T1).
    destruct (ld_object _ _ _ H2 o1 E1) as (o2 & E2 & I2 & M2 & T2).
    exists o2. split; [done|]. split; [congruence|]. split; [congruence|]. set_solver.
  - intros j [Hj1 Hj2]. destruct (decide (j < length (gc_objects c1))%nat) as [Hlt|Hge].
    + destruct (ld_new _ _ _ H1 j ltac:(lia)) as [S1 R1]. split; [|by eapply linked_mono].
      rewrite (fr_states _ _ _ F2) by lia. done.
    + apply (ld_new _ _ _ H2). lia.
Qed.

Lemma add_dependency_targets o e : targets (add_dependency o e) = targets o ++ [target_object e].
Proof. unfold targets. cbn. by rewrite fmap_app. Qed.

Lemma push_edge_wp i nm t c o Q E :
  gc_objects c !! i = Some o ->
  Q tt (set_object i (add_dependency o {| edge_requested_name := nm; target_object := t |}) c) ->
  wp (push_edge i nm t) c Q E.
Proof. intros Ho HQ. unfold push_edge. apply wp_bind. by apply (wp_object_at i c o). Qed.

Lemma add_dependency_inv c pending i o nm t :
  ctx_inv c pending -> gc_objects c !! i = Some o -> (t < length (gc_objects c))%nat -> nm <> [] ->
  gc_states c !! i <> Some Loaded ->
  edge_resolved (gc_objects c) o {| edge_requested_name := nm; target_object := t |} ->
  ctx_inv (set_object i (add_dependency o {| edge_requested_name := nm; target_object := t |}) c) pending.
Proof.
  intros Hinv Ho Ht Hnm Hst Hres. eapply set_object_inv; try done.
  - destruct (ci_objects _ _ Hinv i o Ho) as [H1 H2]. split; [done|]. cbn.
    intros e [He|He]%elem_of_app; [by apply H2|]. apply list_elem_of_singleton in He as ->. done.
  - cbn. intros e [He|He]%elem_of_app Hn; [by eapply ci_edges|]. by apply list_elem_of_singleton in He as ->.
Qed.

(** A known identity: one more edge, nothing to process. *)
Lemma link_known process i c o d t tgt E :
  ctx_inv c None -> gc_states c !! i = Some Loading -> gc_objects c !! i = Some o ->
  gc_object_indices c !! rd_identity d = Some t -> gc_objects c !! t = Some tgt ->
  image tgt = rd_image d ->
  wp (link_dependency options process i d) c
    (fun _ c' => c' = set_object i (add_dependency o
       {| edge_requested_name := rd_requested_name d; target_object := t |}) c) E.
Proof.
  intros Hinv Hst Ho Hidx Htgt Himg. unfold link_dependency. apply wp_bind. unfold wp at 1, get_context.
  assert (Ht : (t < length (gc_objects c))%nat) by by eapply lookup_lt_Some.
  rewrite Hidx. cbn [default from_option id].
  rewrite bool_decide_false by lia. cbn [negb].
  apply wp_bind. apply (wp_object_at t c tgt); [done|].
  rewrite bool_decide_true by done. cbn [negb]. apply wp_bind.
  apply (push_edge_wp i _ _ c o); [done|]. apply wp_bind.
  destruct (lookup_lt_is_Some_2 (gc_states c) t) as [s Hs]; [by rewrite (ci_states _ _ Hinv)|].
  eapply wp_state_at; [exact Hs|]. destruct s; [|done..].
  by apply (ci_discovered _ _ Hinv) in Hs.
Qed.

Lemma add_dependency_linking c i who names needed o nm t :
  linking c i who names needed -> gc_objects c !! i = Some o -> (t < length (gc_objects c))%nat -> nm <> [] ->
  edge_resolved (gc_objects c) o {| edge_requested_name := nm; target_object := t |} ->
  let c' := set_object i (add_dependency o {| edge_requested_name := nm; target_object := t |}) c in
  linking c' i who (names ++ [nm]) needed /\ linked c i c'.
Proof.
  intros [Hinv Hn Hst (o1 & Ho1 & Hwho & Hrd & Hne & Hnames)] Ho Ht Hnm Hres c'.
  assert (o1 = o) as -> by congruence.
  assert (Hi : (i < length (gc_objects c))%nat) by by eapply lookup_lt_Some.
  assert (Hlk : gc_objects c' !! i = Some (add_dependency o {| edge_requested_name := nm; target_object := t |})).
  { unfold c'. by rewrite set_object_lookup, decide_True. }
  split.
  - split; [|done|done|].
    + apply add_dependency_inv; try done. by rewrite Hst.
    + eexists. split; [exact Hlk|]. split; [done|]. split; [by eapply names_read_same|]. split; [done|].
      cbn. by rewrite fmap_app, Hnames.
  - split; [apply set_object_frame| |].
    + intros o2 Ho2. simplify_eq. eexists. split; [exact Hlk|]. split; [done|]. split; [done|].
      rewrite add_dependency_targets. set_solver.
    + intros j Hj. unfold c' in Hj. cbn in Hj. rewrite length_insert in Hj. lia.
Qed.

(** A new identity: discovered, linked and processed. *)
Lemma link_new (process : nat -> load_m W unit) i c d who names needed o :
  (forall t c, fresh_pending c t -> wp (process t) c (fun _ c' => processed c t c') (fails c t)) ->
  linking c i who names needed -> dependency_acquired who d -> gc_objects c !! i = Some o ->
  gc_object_indices c !! rd_identity d = None ->
  Z.of_nat (length (gc_objects c)) < dl_max_objects options ->
  let t := length (gc_objects c) in
  let c1 := push_object (new_object (rd_identity d) (rd_image d)) c in
  let c2 := set_object i (add_dependency o
              {| edge_requested_name := rd_requested_name d; target_object := t |}) c1 in
  wp (process t) c2
    (fun _ c' => linking c' i who (names ++ [rd_requested_name d]) needed /\ linked c i c')
    (fails c i).
Proof.
  intros Hproc [Hinv Hn Hst (o1 & Ho1 & Hwho & Hrd & Hne & Hnames)] (Hd1 & Hd2 & Hd3) Ho Hidx Hcount t c1 c2.
  assert (o1 = o) as -> by congruence.
  assert (Hi : (i < length (gc_objects c))%nat) by by eapply lookup_lt_Some.
  assert (Hlen : length (gc_objects c2) = S t).
  { unfold c2, c1. cbn. rewrite length_insert, length_app. cbn. lia. }
  assert (Hst1 : gc_states c1 !! i = Some Loading) by (by apply lookup_app_l_Some).
  assert (Ho1' : gc_objects c1 !! i = Some o) by (by apply lookup_app_l_Some).
  assert (Hlen1 : length (gc_objects c1) = S t) by (unfold c1; cbn; rewrite length_app; cbn; lia).
  assert (Hinv2 : ctx_inv c2 (Some t)).
  { apply add_dependency_inv; [by apply push_object_inv|done|lia|done|by rewrite Hst1|].
    exists (new_object (rd_identity d) (rd_image d)). cbn.
    rewrite lookup_app_r, Nat.sub_diag, Hwho by done. split; [done|exact Hd3]. }
  assert (Ht : gc_objects c2 !! t = Some (new_object (rd_identity d) (rd_image d))).
  { unfold c2. rewrite set_object_lookup by lia. rewrite decide_False by lia. unfold c1; cbn.
    by rewrite lookup_app_r, Nat.sub_diag. }
  assert (Hfr : frame c i c2).
  { eapply frame_trans; [apply push_object_frame, Hinv|apply set_object_frame|by left]. }
  assert (Hpend : fresh_pending c2 t).
  { split; [done|]. split; [apply Hinv|]. split; cycle 1.
    { exists (new_object (rd_identity d) (rd_image d)). split_and!; try done.
      destruct Hd3 as (lim & w & w' & Hr). by apply Hbytes in Hr. }
    unfold c2, c1; cbn. rewrite lookup_app_r by (rewrite (ci_states _ _ Hinv); lia).
    by rewrite (ci_states _ _ Hinv), Nat.sub_diag. }
  eapply wp_conseq; [by apply Hproc| |intros f c' Hf; eapply fails_trans; [exact Hfr|exact Hf|right; lia]].
  intros u c' Hp. cbn beta in Hp. pose proof (pr_frame _ _ _ Hp) as Fp.
  set (o2 := add_dependency o {| edge_requested_name := rd_requested_name d; target_object := t |}).
  assert (Hoi : gc_objects c' !! i = Some o2).
  { rewrite (fr_objects _ _ _ Fp) by lia. unfold c2. by rewrite set_object_lookup, decide_True by lia. }
  split.
  - split; [apply Hp|done| |].
    + rewrite (fr_states _ _ _ Fp) by lia. done.
    + exists o2. split; [done|]. split; [done|]. split; [|split; [done|cbn; by rewrite fmap_app, Hnames]].
      eapply (names_read_ext (gc_memory c2)); [apply Fp|apply Fp|]. by eapply (names_read_same _ o).
  - assert (Hedge : reaches (graph_of c') i t).
    { apply rtc_once. exists o2. split; [done|]. unfold o2. rewrite add_dependency_targets. set_solver. }
    split; [eapply frame_trans; [exact Hfr|exact Fp|right; lia]| |].
    + intros o3 Ho3. simplify_eq. exists o2. split; [done|]. split; [done|]. split; [done|].
      unfold o2. rewrite add_dependency_targets. set_solver.
    + intros j Hj. destruct (decide (j = t)) as [->|Hjt]; [split; [apply Hp|done]|].
      destruct (pr_new _ _ _ Hp j) as [S1 R1]; [lia|]. split; [done|].
      unfold reaches. by etrans.
Qed.

Lemma on_behalf_of_wp nm (m : load_m W unit) c Q k :
  wp m c Q (fails c k) -> wp (on_behalf_of nm m) c Q (fails c k).
Proof.
  unfold wp, on_behalf_of. destruct (m c) as [[a|f] c']; [done|]. intros [H1 H2 H3].
  split; [done|done|]. by destruct (is_empty _).
Qed.

Lemma link_dependency_ok (process : nat -> load_m W unit) i c d who names needed :
  (forall t c, fresh_pending c t -> wp (process t) c (fun _ c' => processed c t c') (fails c t)) ->
  linking c i who names needed -> dependency_acquired who d ->
  wp (link_dependency options process i d) c
    (fun _ c' => linking c' i who (names ++ [rd_requested_name d]) needed /\ linked c i c')
    (fails c i).
Proof.
  intros Hproc Hlk Hd. pose proof Hlk as [Hinv Hn Hst (o & Ho & Hwho & Hrd & Hne & Hnames)].
  assert (Hthrow : forall f, real_failure f -> fails c i f c) by (intros f Hf; split; [by split|apply Hinv|done]).
  destruct (gc_object_indices c !! rd_identity d) as [t|] eqn:Hidx.
  - destruct (proj1 (ci_index _ _ Hinv _ _) Hidx) as (tgt & Htgt & Hti).
    destruct (decide (image tgt = rd_image d)) as [Himg|Himg].
    + eapply wp_conseq; [by eapply link_known| |intros f c' Hf; exact Hf].
      intros u c' Hc'. cbn beta in Hc'. subst c'. apply add_dependency_linking; [done|done|by eapply lookup_lt_Some|apply Hd|].
      exists tgt. cbn. split; [done|]. rewrite Hwho, Hti, Himg. apply Hd.
    + unfold link_dependency. apply wp_bind. unfold wp at 1, get_context. rewrite Hidx.
      cbn [default from_option id]. apply lookup_lt_Some in Htgt as Hlt.
      rewrite bool_decide_false by lia. cbn [negb]. apply wp_bind.
      apply (wp_object_at t c tgt); [done|]. rewrite bool_decide_false by done. by apply Hthrow.
  - unfold link_dependency. apply wp_bind. unfold wp at 1, get_context. rewrite Hidx.
    cbn [default from_option id]. rewrite bool_decide_true by done. cbn [negb].
    destruct (dl_max_objects options <=? _) eqn:Ec; [by apply Hthrow|]. bool_prop.
    apply wp_bind. unfold wp at 1, modify. apply wp_bind.
    apply (push_edge_wp i _ _ _ o).
    { by apply lookup_app_l_Some. }
    pose proof (link_new process i c d who names needed o Hproc Hlk Hd Ho Hidx Ec) as Hnew.
    unfold wp, on_behalf_of in *. cbv zeta in Hnew.
    destruct (process _ _) as [[a|f] c']; [done|]. destruct Hnew as [H1 H2 H3].
    split; [done|done|]. by destruct (is_empty _).
Qed.

Lemma link_all_ok (process : nat -> load_m W unit) i c l who names needed :
  (forall t c, fresh_pending c t -> wp (process t) c (fun _ c' => processed c t c') (fails c t)) ->
  linking c i who names needed -> Forall (dependency_acquired who) l ->
  wp (for_each (link_dependency options process i) l) c
    (fun _ c' => linking c' i who (names ++ (rd_requested_name <$> l)) needed /\ linked c i c')
    (fails c i).
Proof.
  intros Hproc Hlk Hl. revert c names Hlk. induction Hl as [|d l Hd Hl IH]; intros c names Hlk; cbn [for_each].
  { unfold wp. cbn. rewrite app_nil_r. split; [done|]. split; [by split| |].
    - intros o Ho. exists o. done.
    - intros j Hj. lia. }
  apply wp_bind. eapply wp_conseq; [by apply link_dependency_ok| |done].
  intros u c1 [Hlk1 Hd1]. eapply wp_conseq; [by apply IH| |].
  - intros u' c2 [Hlk2 Hd2]. split; [by rewrite <- app_assoc in Hlk2|].
    eapply linked_trans; [done|done|]. destruct Hlk as [_ _ _ (o & Ho & _)]. by eapply lookup_lt_Some.
  - intros f c2 Hf. eapply fails_trans; [apply Hd1|exact Hf|by left].
Qed.

(** ** Processing an object *)
Lemma set_state_loading_inv c i :
  ctx_inv c (Some i) -> gc_states c !! i = Some Discovered ->
  ctx_inv (set_object_state i Loading c) (Some i) /\ frame c i (set_object_state i Loading c).
Proof.
  intros [] Hst. split.
  - split; cbn; try done; [by rewrite length_insert|..].
    + intros j [[-> [? _]]|[? Hj]]%list_lookup_insert_Some; [done|by apply ci_discovered0].
    + intros j o Ho Hn [[-> [? _]]|[? Hj]]%list_lookup_insert_Some; [done|]. by eapply ci_complete0.
  - split; cbn; try done. intros j _ Hne. by rewrite list_lookup_insert_ne.
Qed.

Lemma set_state_loaded_inv c i o :
  ctx_inv c None -> gc_objects c !! i = Some o -> edges_complete o -> names_read (gc_memory c) o ->
  ctx_inv (set_object_state i Loaded c) None /\ frame c i (set_object_state i Loaded c) /\
  gc_states (set_object_state i Loaded c) !! i = Some Loaded.
Proof.
  intros [] Ho Hcomp Hread. assert (Hi : (i < length (gc_states c))%nat).
  { rewrite ci_states0. by eapply lookup_lt_Some. }
  split; [|split; [|cbn; by rewrite list_lookup_insert_eq]].
  - split; cbn; try done; [by rewrite length_insert|..].
    + intros j [[-> [? _]]|[? Hj]]%list_lookup_insert_Some; [done|by apply ci_discovered0].
    + intros j o1 Ho1 Hn [[-> _]|[? Hj]]%list_lookup_insert_Some; [|by eapply ci_complete0].
      by assert (o1 = o) as -> by congruence.
  - split; cbn; try done. intros j _ Hne. by rewrite list_lookup_insert_ne.
Qed.

Lemma process_object_ok fuel i depth rd c :
  0 <= depth <= dl_max_depth options + 1 -> dl_max_depth options + 2 - depth <= Z.of_nat fuel ->
  fresh_pending c i ->
  wp (process_object provider options fuel i depth rd) c (fun _ c' => processed c i c') (fails c i).
Proof.
  destruct Hopts as [Hdepth _]. revert i depth rd c.
  induction fuel as [|fuel IH]; intros i depth rd c Hd Hfuel (Hinv & Hn & Hst & o & Ho & Hb & Hnil & Hnone); [lia|].
  cbn [process_object]. apply wp_bind. apply (wp_state_at i c Discovered); [done|].
  apply wp_bind. apply (wp_object_at i c o); [done|].
  assert (Hthrow : forall f, real_failure f -> fails c i f c) by (intros f Hf; split; [by split|apply Hinv|done]).
  destruct (dl_max_depth options <? depth) eqn:Edepth; [by apply Hthrow|]. bool_prop.
  destruct (set_state_loading_inv c i Hinv Hst) as [Hinv1 Hfr1].
  apply wp_bind. unfold wp at 1, modify. set (c1 := set_object_state i Loading c) in *.
  assert (Hst1 : gc_states c1 !! i = Some Loading).
  { cbn. apply list_lookup_insert_eq. by eapply lookup_lt_Some. }
  apply wp_bind. eapply wp_conseq; [by apply (load_step_ok i rd c1 o)| |].
  2: { intros f c' Hf. eapply fails_trans; [exact Hfr1|exact Hf|by left]. }
  intros u c2 (l & Hinv2 & Hfr2 & Ho2 & Hlen2 & Hst2). cbn beta.
  assert (Hfr12 : frame c i c2) by (eapply frame_trans; [exact Hfr1|exact Hfr2|by left]).
  apply wp_bind. eapply wp_conseq; [apply (inspect_step_ok i c2 (set_load o l)); [done|done|by rewrite Hst2|done..]| |].
  2: { intros f c' Hf. eapply fails_trans; [exact Hfr12|exact Hf|by left]. }
  intros u' c3 (o3 & Hinv3 & Hfr3 & Ho3 & Hid3 & Him3 & Hdep3 & Hrd3 & Hlen3 & Hst3).
  assert (Hfr13 : frame c i c3) by (eapply frame_trans; [exact Hfr12|exact Hfr3|by left]).
  apply wp_bind. eapply wp_conseq; [by apply (acquire_ok i c3 o3)| |].
  2: { intros f c' Hf. eapply fails_trans; [exact Hfr13|exact Hf|by left]. }
  intros ordered c4 (Hinv4 & Hobj4 & Hst4 & Hmem4 & Hnames & Hacq).
  assert (Hfr14 : frame c i c4).
  { destruct Hfr13 as [L O S P M]. split; rewrite ?Hobj4, ?Hst4, ?Hmem4; done. }
  apply wp_bind. eapply wp_conseq; [apply (link_all_ok _ i c4 ordered (identity o3) [] (ls_needed (linker_strings o3)))| |].
  - intros t c' Hp. rewrite u64_small by word_lia. apply IH; [lia|lia|done].
  - split; [done|done|by rewrite Hst4, Hst3, Hst2|]. exists o3. rewrite Hobj4, Hmem4. split; [done|].
    split; [done|]. split; [done|]. split; [done|]. by rewrite Hdep3; cbn; rewrite Hnil.
  - done.
  - intros u'' c5 [[Hinv5 _ Hst5 (o5 & Ho5 & _ & Hrd5 & Hne5 & Hnm5)] Hld]. unfold wp, modify.
    destruct (set_state_loaded_inv c5 i o5) as (Hinv6 & Hfr6 & Hst6); [done|done| |done|].
    { unfold edges_complete. rewrite Hnm5, Hne5. cbn. by rewrite Hnames. }
    assert (Hlen4 : length (gc_objects c4) = length (gc_objects c)).
    { rewrite Hobj4, Hlen3, Hlen2. done. }
    split; [done| |done| |].
    + eapply frame_trans; [exact Hfr14| |by left]. eapply frame_trans; [apply Hld|exact Hfr6|by left].
    + intros o' Ho'. assert (o' = o) as -> by congruence.
      destruct (ld_object _ _ _ Hld o3) as (o6 & Ho6 & I6 & M6 & _); [by rewrite Hobj4|].
      exists o6. cbn. split; [done|]. split; [by rewrite I6, Hid3|by rewrite M6, Him3].
    + intros j Hj. cbn in Hj. destruct (ld_new _ _ _ Hld j) as [Hs Hr]; [lia|]. split; [|exact Hr].
      cbn. rewrite list_lookup_insert_ne; [done|]. apply lookup_lt_Some in Ho. lia.
  - intros f c' Hf. eapply fails_trans; [exact Hfr14|exact Hf|by left].
Qed.
End graph_invariant.

(** ** The one-shot load *)

(** The objects from [n0] on were loaded into [m'] by one call that started in
    [m0]: they are reachable from the first of them, their recorded names are the
    DT_NEEDED names of their images, they have one edge per name, in order, to the
    object the provider returned for it, their images are in memory at their recorded
    biases, and nothing outside their segments changed. *)
Record graph_loaded {W} (provider : Elf32DependencyProvider W) (options : Elf32DependencyLoadOptions) (m0 : memory_t) (n0 : nat) (m' : memory_t)
    (g : Elf32DependencyGraph) : Prop := {
  gl_memory : mapped_wf m';
  gl_identities : NoDup (identity <$> objects g);
  gl_edges : edges_valid g;
  gl_count : Z.of_nat (length (objects g)) <= dl_max_objects options;
  gl_reach j : (n0 <= j < length (objects g))%nat -> reaches g n0 j;
  gl_objects j o : (n0 <= j)%nat -> objects g !! j = Some o -> edges_complete o /\ image_loaded m' o;
  gl_names j o : (n0 <= j)%nat -> objects g !! j = Some o -> names_read m' o;
  gl_resolved j o e : (n0 <= j)%nat -> objects g !! j = Some o -> e ∈ dependencies o ->
    edge_resolved provider (objects g) o e;
  gl_frame x :
    (forall j o s, (n0 <= j)%nat -> objects g !! j = Some o -> s ∈ lr_segments (load o) ->
       ~ in_range (ls_mapping_start s) (ls_mapping_size s) x) ->
    page_at m' x = page_at m0 x;
  gl_kept x : is_Some (page_at m0 x).1 -> page_at m' x = page_at m0 x;
  gl_page_size : MappedGuestMemory.page_size_ m' = MappedGuestMemory.page_size_ m0;
  gl_failures : (failures m' <= failures m0)%nat;
}.

Section load_graph.
Context {W : Type} (provider : Elf32DependencyProvider W) (options : Elf32DependencyLoadOptions).

Lemma identities_nodup (l : list Elf32LoadedDependencyObject) (idx : gmap name nat) :
  (forall id j, idx !! id = Some j <-> exists o, l !! j = Some o /\ identity o = id) ->
  NoDup (identity <$> l).
Proof.
  intros Hidx. apply NoDup_alt. intros i j x Hi Hj.
  apply list_lookup_fmap_Some in Hi as (oi & -> & Hi).
  apply list_lookup_fmap_Some in Hj as (oj & He & Hj).
  assert (H1 : idx !! identity oi = Some i) by (apply Hidx; eauto).
  assert (H2 : idx !! identity oi = Some j) by (apply Hidx; eauto). congruence.
Qed.

Lemma mem_inv_nil (m : memory_t) : mapped_wf m -> mem_inv m [] m.
Proof.
  intros Hwf. split; cbn; try done; [apply FOP_nil|]. intros s x Hs. by apply elem_of_nil in Hs.
Qed.

(** The context the recursion starts from. *)
Lemma root_context_pending (m : memory_t) (w : W) known idx root :
  mapped_wf m -> (failures m <= 1)%nat -> load_options_typed options ->
  (forall id j, idx !! id = Some j <-> exists o, known !! j = Some o /\ identity o = id) ->
  (forall j o, known !! j = Some o -> object_ok (length known) o) ->
  Z.of_nat (length known) < dl_max_objects options ->
  idx !! root_identity root = None -> is_bytes (root_image root) ->
  check_root options root = Ok tt ->
  fresh_pending provider options m (length known) (root_context m w known idx root) (length known).
Proof.
  intros Hwf Hf Hopts Hidx Hok Hcount Hnew Hb Hc. unfold check_root in Hc.
  apply bind_ok in Hc as ([] & _ & Hc). apply bind_ok in Hc as ([] & G1%fail_if_ok & Hc).
  apply bind_ok in Hc as ([] & _ & Hc). apply bind_ok in Hc as ([] & _ & G2%fail_if_ok). bool_prop.
  apply is_empty_false in G1. destruct Hopts as (_ & Ho1 & _ & Ho2 & _).
  split; [|split; [done|]; split].
  - apply (push_object_inv provider options m (length known) Hf
      {| gc_memory := m; gc_world := w; gc_objects := known; gc_object_indices := idx;
         gc_states := replicate (length known) Loaded; gc_successful_loads := [];
         gc_dependency_occurrences := 0; gc_total_image_bytes := Z.of_nat (length (root_image root)) |});
      try done.
    split; cbn; try done; try lia.
    + by rewrite length_replicate.
    + unfold is_u64 in *. lia.
    + by apply mem_inv_nil.
    + intros j o Ho%lookup_lt_Some. lia.
    + intros l Hl. by apply elem_of_nil in Hl.
    + intros j Hj%list_elem_of_lookup_2. by apply elem_of_replicate in Hj as [? _].
    + intros j o Ho%lookup_lt_Some. lia.
    + intros j o e Ho%lookup_lt_Some. lia.
  - cbn. rewrite lookup_app_r by (rewrite length_replicate; lia).
    by rewrite length_replicate, Nat.sub_diag.
  - exists (new_object (root_identity root) (root_image root)). cbn.
    by rewrite lookup_app_r, Nat.sub_diag.
Qed.

Lemma processed_graph (m : memory_t) n0 (c c' : GraphLoadContext W) :
  processed provider options m n0 c n0 c' -> length (gc_objects c) = S n0 ->
  (forall j, (j < n0)%nat -> gc_objects c' !! j = gc_objects c !! j) ->
  graph_loaded provider options m n0 (gc_memory c') {| objects := gc_objects c' |}.
Proof.
  intros [Hinv Hfr Hst Hobj Hnew] Hlen Hold. split; cbn.
  - apply (mi_state _ _ _ (ci_mem _ _ _ _ _ _ Hinv)).
  - eapply identities_nodup. apply Hinv.
  - intros i j (o & Ho & Hj). cbn in *. apply list_elem_of_fmap in Hj as (e & -> & He).
    by apply (ci_objects _ _ _ _ _ _ Hinv i o Ho).
  - apply Hinv.
  - intros j Hj. destruct (decide (j = n0)) as [->|Hne]; [done|]. apply (Hnew j). lia.
  - intros j o Hj Ho. split.
    + apply (ci_complete _ _ _ _ _ _ Hinv j o Ho Hj). destruct (decide (j = n0)) as [->|Hne]; [done|].
      apply (Hnew j). apply lookup_lt_Some in Ho. lia.
    + by apply (ci_loaded _ _ _ _ _ _ Hinv j o Ho Hj).
  - intros j o Hj Ho. apply (ci_complete _ _ _ _ _ _ Hinv j o Ho Hj).
    destruct (decide (j = n0)) as [->|Hne]; [done|]. apply (Hnew j). apply lookup_lt_Some in Ho. lia.
  - intros j o e Hj Ho. by apply (ci_edges _ _ _ _ _ _ Hinv j o e).
  - intros x Hx. pose proof (mi_view _ _ _ (ci_mem _ _ _ _ _ _ Hinv) x) as Hv.
    destruct (List.find _ _) as [s|] eqn:Ef; [|done]. exfalso.
    apply find_covers_Some in Ef as [Hs Hxs]. unfold segments_of in Hs.
    apply list_elem_of_In, in_concat in Hs as (l & Hl & Hs).
    apply list_elem_of_In, list_elem_of_fmap in Hl as (ld & -> & Hl).
    destruct (ci_loads _ _ _ _ _ _ Hinv ld Hl) as (j & o & Ho & Hj & _ & <-).
    by eapply (Hx j o s Hj Ho); [apply list_elem_of_In|].
  - intros x. by eapply mem_inv_kept, Hinv.
  - apply (mi_state _ _ _ (ci_mem _ _ _ _ _ _ Hinv)).
  - apply (mi_failures _ _ _ (ci_mem _ _ _ _ _ _ Hinv)).
Qed.

(** What a failed call leaves: it is undone and reports its error, or, when the one
    failing host call was an unmap of the rollback, it reports [RollbackFailed] with the
    error as primary error, and what was mapped before is still as it was. *)
Definition undone (m : memory_t) (f : load_failure) (m' : memory_t) : Prop :=
  mapped_wf m' /\ (failures m' <= failures m)%nat /\
  (same_view m m' /\ real_failure f \/
   failures m = 1%nat /\ df_error f = Elf32DependencyLoadError.RollbackFailed /\
   df_primary_error f <> Elf32DependencyLoadError.None /\
   MappedGuestMemory.page_size_ m' = MappedGuestMemory.page_size_ m /\
   forall x, is_Some (page_at m x).1 -> page_at m' x = page_at m x).

Lemma undone_reliable (m : memory_t) f m' :
  failures m = 0%nat -> undone m f m' ->
  (same_view m m' /\ mapped_wf m' /\ failures m' = 0%nat) /\ real_failure f.
Proof. intros Hf (Hwf & Hf' & [[Hv Hr]|[Hbad _]]); [|lia]. split_and!; [done|done|lia|apply Hr..]. Qed.

Lemma undone_refl (m : memory_t) f : mapped_wf m -> real_failure f -> undone m f m.
Proof. intros Hwf Hf. split; [done|]. split; [done|]. by left. Qed.

Lemma rollback_failure_ok (m : memory_t) (c : GraphLoadContext W) i f c' :
  mapped_wf m -> (failures m <= 1)%nat -> fails m c i f c' ->
  exists f' m', rollback_failure (gc_memory c') (gc_successful_loads c') f = (f', m') /\ undone m f' m'.
Proof.
  intros Hwf Hone [_ Hmem Hreal]. pose proof (mem_inv_rollback m Hwf _ _ Hmem) as Hr.
  unfold rollback_failure. destruct (rollback_loads _ _) as [[] m'].
  - destruct Hr as (Hwf' & Hf' & Hv). eexists _, _. split; [done|]. split; [done|]. split; [done|]. by left.
  - destruct Hr as (Hwf' & Hf' & Hpos & Hps & Hk). eexists _, _. split; [done|]. split; [done|]. split; [done|].
    right. pose proof (mi_failures _ _ _ Hmem). split; [lia|]. split_and!; try done. apply Hreal.
Qed.

Lemma check_root_real root f : check_root options root = Err f -> real_failure f.
Proof.
  unfold check_root. intros Hc.
  do 4 (apply bind_err in Hc as [[_ <-]%fail_if_err|([] & _ & Hc)]; [done|]).
  by apply fail_if_err in Hc as [_ <-].
Qed.

(** The recursion on a new root behind [known], where the checks passed. *)
Lemma new_root_run (m : memory_t) (w : W) known idx root :
  mapped_wf m -> (failures m <= 1)%nat -> load_options_typed options -> provider_bytes provider ->
  (forall id j, idx !! id = Some j <-> exists o, known !! j = Some o /\ identity o = id) ->
  (forall j o, known !! j = Some o -> object_ok (length known) o) ->
  Z.of_nat (length known) < dl_max_objects options ->
  idx !! root_identity root = None -> is_bytes (root_image root) ->
  check_root options root = Ok tt ->
  wp (process_object provider options (process_fuel options) (length known) 0 false)
    (root_context m w known idx root)
    (fun _ c' => processed provider options m (length known) (root_context m w known idx root) (length known) c')
    (fails m (root_context m w known idx root) (length known)).
Proof.
  intros Hwf Hf Hopts Hp Hidx Hok Hcount Hnew Hb Hc. pose proof Hopts as [Hd _].
  apply process_object_ok; [done|done|done|done|word_lia|unfold process_fuel; word_lia|].
  by apply root_context_pending.
Qed.

Lemma load_graph_run (m : memory_t) (w : W) root :
  mapped_wf m -> (failures m <= 1)%nat -> load_options_typed options -> provider_bytes provider ->
  is_bytes (root_image root) -> check_root options root = Ok tt ->
  wp (process_object provider options (process_fuel options) 0 0 false) (root_context m w [] ∅ root)
    (fun _ c' => processed provider options m 0 (root_context m w [] ∅ root) 0 c')
    (fails m (root_context m w [] ∅ root) 0).
Proof.
  intros Hwf Hf Hopts Hp Hb Hc. apply (new_root_run m w []); try done.
  { intros id j. rewrite lookup_empty. split; [done|]. by intros (o & ? & _). }
  unfold check_root in Hc. apply bind_ok in Hc as ([] & G%fail_if_ok & _). bool_prop.
  destruct Hopts as (_ & _ & Hmax & _). cbn. word_lia.
Qed.

(** C4: on a host that fails at most one of the calls to come ([failures m <= 1]), a
    successful graph load is a complete, bounded, correctly linked graph. The root is object 0; every other
    object is reachable from it; identities are distinct, so cycles and diamonds share
    one object. Each object's recorded names are those of its image: the C strings, at
    the offsets of the DT_NEEDED entries of the image's dynamic array, in the string
    table that DT_STRTAB places, in order, and none without PT_DYNAMIC. It has exactly
    one edge per name, in order, and the edge leads to an object of the graph with the
    identity and the image that the provider returned for that name and requester. The
    object count is within the limit; every image is in guest memory at its recorded bias with its
    final permissions, and every address outside the loaded segments, in particular
    everything mapped before the call, is untouched. *)
Theorem load_elf32_dependency_graph_success (m : memory_t) (w : W) root g m' w' :
  mapped_wf m -> (failures m <= 1)%nat -> load_options_typed options -> provider_bytes provider ->
  is_bytes (root_image root) ->
  load_elf32_dependency_graph provider options m w root = (Ok g, m', w') ->
  graph_loaded provider options m 0 m' g /\
  exists o, objects g !! 0%nat = Some o /\ identity o = root_identity root /\ image o = root_image root.
Proof.
  intros Hwf Hf Hopts Hp Hb Hl. unfold load_elf32_dependency_graph in Hl.
  destruct (check_root options root) as [[]|f] eqn:Ec; [|done].
  pose proof (load_graph_run m w root Hwf Hf Hopts Hp Hb Ec) as Hrun. unfold wp in Hrun.
  destruct (process_object _ _ _ _ _ _ _) as [[u|f] c]; [|by destruct (rollback_failure _ _ _)].
  injection Hl as <- <- <-. split.
  - eapply processed_graph; [done|done|]. intros j Hj. lia.
  - by apply (pr_object _ _ _ _ _ _ _ Hrun (new_object (root_identity root) (root_image root))).
Qed.

End load_graph.

(** *** Witnesses: "a" needs "b", which needs "a" again *)
Definition needing_image (needed : Z) : list Z :=
  elf32_ehdr 3 40 0 2
  ++ elf32_phdr 1 0 0 151 151 4 4096
  ++ elf32_phdr 2 116 116 32 32 4 4
  ++ encode_dynamic [{| de_tag := 1; de_value := 1 |}; {| de_tag := 5; de_value := 148 |};
                     {| de_tag := 10; de_value := 3 |}; {| de_tag := 0; de_value := 0 |}]
  ++ [0; needed; 0].

Definition cycle_provider : Elf32DependencyProvider unit :=
  Elf32DependencyCatalogProvider
    [{| ce_requested_name := [98]; ce_identity := [98]; ce_image := needing_image 97 |};
     {| ce_requested_name := [97]; ce_identity := [97]; ce_image := needing_image 98 |}].

Definition cycle_options (max_objects : Z) : Elf32DependencyLoadOptions :=
  {| dl_max_objects := max_objects; dl_max_depth := 4; dl_max_dependency_occurrences := 8;
     dl_max_image_bytes := 4096; dl_max_total_image_bytes := 16384; dl_max_string_bytes := 16;
     dl_placement := default_placement_options |}.

Definition cycle_root : Elf32DependencyLoadSource :=
  {| root_identity := [97]; root_image := needing_image 98 |}.

Notation cycle_run max_objects :=
  (load_elf32_dependency_graph cycle_provider (cycle_options max_objects) empty_memory tt cycle_root).

Definition edge_lists (g : Elf32DependencyGraph) : list (list nat) := targets <$> objects g.

Lemma needing_image_bytes n : is_byte n -> is_bytes (needing_image n).
Proof.
  intros Hn. unfold needing_image. repeat apply Forall_app_2; try (apply is_bytes_forallb; vm_compute; reflexivity).
  assert (is_byte 0) by (unfold is_byte; lia). by repeat (apply Forall_cons_2; [done|]).
Qed.

Lemma cycle_provider_bytes : provider_bytes cycle_provider.
Proof.
  apply catalog_provider_bytes. repeat (apply Forall_cons_2; [apply needing_image_bytes; unfold is_byte; lia|]).
  by apply Forall_nil.
Qed.

Lemma cycle_options_typed n : is_u32 n -> load_options_typed (cycle_options n).
Proof. intros Hn. split_and!; try done; split; vm_compute; congruence. Qed.

Lemma load_elf32_dependency_graph_success_witness :
  exists g m', cycle_run 4 = (Ok g, m', tt) /\ edge_lists g = [[1]; [0]]%nat /\
    graph_loaded cycle_provider (cycle_options 4) empty_memory 0 m' g.
Proof.
  assert (Hok : match cycle_run 4 with (Ok g, _, _) => edge_lists g = [[1]; [0]]%nat | _ => False end)
    by (vm_compute; reflexivity).
  destruct (cycle_run 4) as [[[g|f] m'] []] eqn:E; [|destruct Hok].
  exists g, m'. split; [reflexivity|]. split; [exact Hok|].
  refine (proj1 (load_elf32_dependency_graph_success cycle_provider (cycle_options 4) empty_memory tt
    cycle_root g m' tt empty_memory_wf (Nat.le_0_l 1) _ cycle_provider_bytes _ E)).
  - apply cycle_options_typed. split; vm_compute; congruence.
  - apply needing_image_bytes. split; vm_compute; congruence.
Defined.

(** The second image does not fit the object limit, with a reliable host; and with a
    host whose first unmap fails. *)
Notation failing_memory calls :=
  (MappedGuestMemory.mk 65536 4096 ∅ ∅ ∅ calls) (only parsing).

