(* ===== verification/LinkMap.v ===== *)
(** * The link map ([append_elf32_link_map_root] of
      [src/src/elf/linking/elf32_dependency_loader.cpp])

    A caller-owned link map keeps the loaded objects, the root records (dlopen
    roots with their policy) and the global lookup scope. Appending a root checks
    the whole map first, reuses a known identity, or loads the new objects behind
    the known ones as one transaction. *)

From Stdlib Require Import Sorting.Sorted.
From S2P Require Import Prelude Bytes GuestMemory MappedMemory AddressView LoadPlan Loader VaAllocator Placement Dynamic LinkerMetadata LinkerStrings DependencyResolver Graph DependencyLoader.


(** ** [append_elf32_link_map_root] *)
Definition invalid_link_map (failing_identity : name) : load_failure :=
  failure Elf32DependencyLoadError.InvalidLinkMap failing_identity.

Definition flag (flags : list bool) (i : nat) : bool := default false (flags !! i).

(** One iteration of the preflight loop over the known objects: a fresh non-empty
    identity, and named edges into the graph. *)
Definition check_known_object (object_count : nat) (object_indices : gmap name nat)
    (entry : nat * Elf32LoadedDependencyObject) : result load_failure (gmap name nat) :=
  let '(index, object) := entry in
  fail_if (is_empty (identity object)
           || bool_decide (is_Some (object_indices !! identity object)))
    (invalid_link_map (identity object)) ;;
  fail_if (existsb (fun edge => is_empty (edge_requested_name edge)
                                || (object_count <=? target_object edge)%nat)
             (dependencies object))
    (invalid_link_map (identity object)) ;;
  Ok (<[identity object := index]> object_indices).

(** One iteration over the root records; the state is [root_seen] and
    [required_global]. *)
Definition check_root_record (object_count : nat) (s : list bool * list bool)
    (record : Elf32LinkMapRoot) : result load_failure (list bool * list bool) :=
  let '(root_seen, required_global) := s in
  fail_if ((object_count <=? root_object_index record)%nat
           || flag root_seen (root_object_index record))
    (invalid_link_map []) ;;
  Ok (<[root_object_index record := true]> root_seen,
      match root_policy record with
      | Global => <[root_object_index record := true]> required_global
      | Local => required_global
      end).

(** One iteration over the global scope; the state is [global_seen] and the
    previous member. *)
Definition check_global_member (object_count : nat) (required_global : list bool)
    (s : list bool * option nat) (object_index : nat)
    : result load_failure (list bool * option nat) :=
  let '(global_seen, previous_global) := s in
  fail_if ((object_count <=? object_index)%nat || flag global_seen object_index
           || negb (flag required_global object_index)
           || match previous_global with
              | Some previous => (object_index <=? previous)%nat
              | None => false
              end)
    (invalid_link_map []) ;;
  Ok (<[object_index := true]> global_seen, Some object_index).

(** The preflight of the link map: the identity index and [global_seen]. *)
Definition check_link_map (link_map : Elf32LinkMap)
    : result load_failure (gmap name nat * list bool) :=
  let known := objects (lmap_graph link_map) in
  let count := length known in
  object_indices ← foldE (check_known_object count) ∅ (imap pair known);
  roots ← foldE (check_root_record count)
            (replicate count false, (fun o => lm_global (linker_metadata o)) <$> known)
            (lmap_roots link_map);
  let required_global := snd roots in
  scope ← foldE (check_global_member count required_global) (replicate count false, None)
            (lmap_global_scope_objects link_map);
  let global_seen := fst scope in
  foldE (fun _ entry =>
           let '(index, object) := entry in
           fail_if (negb (Bool.eqb (flag required_global index) (flag global_seen index)))
             (invalid_link_map (identity object)))
    tt (imap pair known) ;;
  Ok (object_indices, global_seen).

(** The lambda [record_root]. *)
Fixpoint record_root (policy : Elf32LinkMapRootPolicy) (object_index : nat)
    (roots : list Elf32LinkMapRoot) : list Elf32LinkMapRoot :=
  match roots with
  | [] => [{| root_object_index := object_index; root_policy := policy |}]
  | record :: rest =>
      if bool_decide (root_object_index record = object_index)
      then {| root_object_index := root_object_index record;
              root_policy := match policy with Global => Global | Local => root_policy record end |}
           :: rest
      else record :: record_root policy object_index rest
  end.

(** Insertion at [std::lower_bound]. *)
Fixpoint insert_at_lower_bound (object_index : nat) (scope : list nat) : list nat :=
  match scope with
  | [] => [object_index]
  | x :: rest =>
      if (x <? object_index)%nat then x :: insert_at_lower_bound object_index rest
      else object_index :: scope
  end.

(** The lambda [record_global]; the state is [global_seen] and the scope. *)
Definition record_global (object_count : nat) (object_index : nat) (s : list bool * list nat)
    : list bool * list nat :=
  let '(global_seen, scope) := s in
  let global_seen :=
    if (length global_seen <? object_count)%nat
    then global_seen ++ replicate (object_count - length global_seen) false else global_seen in
  if flag global_seen object_index then (global_seen, scope)
  else (<[object_index := true]> global_seen, insert_at_lower_bound object_index scope).

(** The loop over the new objects. *)
Definition record_new_globals (policy : Elf32LinkMapRootPolicy) (root_index : nat)
    (all : list Elf32LoadedDependencyObject) (s : list bool * list nat) : list bool * list nat :=
  foldl
    (fun s entry =>
       let '(object_index, object) := entry in
       let caller_global :=
         bool_decide (object_index = root_index)
         && match policy with Global => true | Local => false end in
       if caller_global || lm_global (linker_metadata object)
       then record_global (length all) object_index s else s)
    s (drop root_index (imap pair all)).

(** What an append returns when it succeeds. *)
Record append_success := AppendSuccess {
  root_object_index_result : nat;
  reused_existing_root : bool;
}.

Section append.
Context {W : Type} (provider : Elf32DependencyProvider W) (options : Elf32DependencyLoadOptions).

(** An identity that is already in the map. *)
Definition reuse_root (link_map : Elf32LinkMap) (global_seen : list bool)
    (root : Elf32DependencyLoadSource) (policy : Elf32LinkMapRootPolicy) (root_index : nat)
    : result load_failure append_success * Elf32LinkMap :=
  match objects (lmap_graph link_map) !! root_index with
  | None => (Err stuck, link_map)
  | Some object =>
      if negb (bool_decide (image object = root_image root))
      then (Err (failure Elf32DependencyLoadError.IdentityImageMismatch (root_identity root)), link_map)
      else
        let scope := lmap_global_scope_objects link_map in
        let scope :=
          if match policy with Global => true | Local => false end
             || lm_global (linker_metadata object)
          then snd (record_global (length (objects (lmap_graph link_map))) root_index
                      (global_seen, scope))
          else scope in
        (Ok (AppendSuccess root_index true),
         {| lmap_graph := lmap_graph link_map;
            lmap_roots := record_root policy root_index (lmap_roots link_map);
            lmap_global_scope_objects := scope |})
  end.

(** A new identity: load it into the map's graph. *)
Definition load_new_root (memory : memory_t) (w : W) (link_map : Elf32LinkMap)
    (object_indices : gmap name nat) (global_seen : list bool)
    (root : Elf32DependencyLoadSource) (policy : Elf32LinkMapRootPolicy)
    : result load_failure append_success * Elf32LinkMap * memory_t * W :=
  let known := objects (lmap_graph link_map) in
  let root_index := length known in
  match process_object provider options (process_fuel options) root_index 0 false
          (root_context memory w known object_indices root) with
  | (Err f, c) =>
      let '(f, memory) := rollback_failure (gc_memory c) (gc_successful_loads c) f in
      (Err f,
       {| lmap_graph := {| objects := take root_index (gc_objects c) |};
          lmap_roots := lmap_roots link_map;
          lmap_global_scope_objects := lmap_global_scope_objects link_map |},
       memory, gc_world c)
  | (Ok _, c) =>
      (Ok (AppendSuccess root_index false),
       {| lmap_graph := {| objects := gc_objects c |};
          lmap_roots := record_root policy root_index (lmap_roots link_map);
          lmap_global_scope_objects :=
            snd (record_new_globals policy root_index (gc_objects c)
                   (global_seen, lmap_global_scope_objects link_map)) |},
       gc_memory c, gc_world c)
  end.

Definition append_elf32_link_map_root (memory : memory_t) (w : W) (link_map : Elf32LinkMap)
    (root : Elf32DependencyLoadSource) (policy : Elf32LinkMapRootPolicy)
    : result load_failure append_success * Elf32LinkMap * memory_t * W :=
  let count := Z.of_nat (length (objects (lmap_graph link_map))) in
  match
    check_root options root ;;
    fail_if (dl_max_objects options <? count)
      (failure Elf32DependencyLoadError.TooManyObjects (root_identity root)) ;;
    check_link_map link_map
  with
  | Err f => (Err f, link_map, memory, w)
  | Ok (object_indices, global_seen) =>
      match object_indices !! root_identity root with
      | Some root_index =>
          let '(r, link_map) := reuse_root link_map global_seen root policy root_index in
          (r, link_map, memory, w)
      | None =>
          if dl_max_objects options <=? count
          then (Err (failure Elf32DependencyLoadError.TooManyObjects (root_identity root)),
                link_map, memory, w)
          else load_new_root memory w link_map object_indices global_seen root policy
      end
  end.
End append.

(** ** The link map *)

(** Object [i] belongs to the global scope: DF_1_GLOBAL or a global root. *)
Definition required_global (known : list Elf32LoadedDependencyObject) (roots : list Elf32LinkMapRoot)
    (i : nat) : Prop :=
  exists o, known !! i = Some o /\
    (lm_global (linker_metadata o) = true \/
     exists r, r ∈ roots /\ root_object_index r = i /\ root_policy r = Global).

(** The invariant of a link map. *)
Record link_map_wf (m : Elf32LinkMap) : Prop := {
  lw_identities : NoDup (identity <$> objects (lmap_graph m));
  lw_objects j o : objects (lmap_graph m) !! j = Some o ->
    object_ok (length (objects (lmap_graph m))) o;
  lw_roots : NoDup (root_object_index <$> lmap_roots m);
  lw_root_range r : r ∈ lmap_roots m -> (root_object_index r < length (objects (lmap_graph m)))%nat;
  lw_sorted : StronglySorted lt (lmap_global_scope_objects m);
  lw_scope i : i ∈ lmap_global_scope_objects m <->
    required_global (objects (lmap_graph m)) (lmap_roots m) i;
}.

Definition index_spec (idx : gmap name nat) (known : list Elf32LoadedDependencyObject) : Prop :=
  forall id j, idx !! id = Some j <-> exists o, known !! j = Some o /\ identity o = id.

(** [flags] decides [P] on the indices below [count]. *)
Definition flags_decide (count : nat) (flags : list bool) (P : nat -> Prop) : Prop :=
  length flags = count /\ forall i, (i < count)%nat -> flag flags i = true <-> P i.

Lemma flags_decide_insert count flags P i :
  flags_decide count flags P -> (i < count)%nat ->
  flags_decide count (<[i := true]> flags) (fun j => P j \/ j = i).
Proof.
  intros [Hl Hf] Hi. split; [by rewrite length_insert|]. intros j Hj. unfold flag in *.
  destruct (decide (j = i)) as [->|Hne].
  - rewrite list_lookup_insert_eq by lia. cbn. tauto.
  - rewrite list_lookup_insert_ne by done. rewrite Hf by done. tauto.
Qed.

Lemma flags_decide_none count : flags_decide count (replicate count false) (fun _ => False).
Proof.
  split; [apply length_replicate|]. intros i Hi. unfold flag. by rewrite lookup_replicate_2.
Qed.

Lemma flags_decide_ext count flags P Q :
  flags_decide count flags P -> (forall i, (i < count)%nat -> P i <-> Q i) -> flags_decide count flags Q.
Proof. intros [Hl Hf] Hpq. split; [done|]. intros i Hi. by rewrite Hf, Hpq. Qed.

(** *** The identity and edge preflight *)
Lemma edges_check_false count o :
  existsb (fun edge => is_empty (edge_requested_name edge) || (count <=? target_object edge)%nat)
    (dependencies o) = false <->
  forall e, e ∈ dependencies o -> (target_object e < count)%nat /\ edge_requested_name e <> [].
Proof.
  rewrite <- not_true_iff_false, existsb_elem. split.
  - intros Hn e He. destruct (is_empty (edge_requested_name e)) eqn:E1.
    { exfalso. apply Hn. exists e. by rewrite E1. }
    destruct (Nat.leb_spec count (target_object e)) as [Hl|Hl].
    { exfalso. apply Hn. exists e. split; [done|]. apply orb_true_iff. right. by apply Nat.leb_le. }
    split; [lia|]. by apply is_empty_false.
  - intros H (e & He & Hb). destruct (H e He) as [H1 H2].
    apply orb_true_iff in Hb as [Hb|Hb]; [by destruct (edge_requested_name e)|].
    apply Nat.leb_le in Hb. lia.
Qed.

Lemma index_spec_snoc (idx : gmap name nat) l o :
  index_spec idx l -> idx !! identity o = None -> index_spec (<[identity o := length l]> idx) (l ++ [o]).
Proof.
  intros Hidx Hn id j. destruct (decide (id = identity o)) as [->|Hne].
  - rewrite lookup_insert_eq. split.
    + intros [= <-]. exists o. by rewrite lookup_app_r, Nat.sub_diag.
    + intros (o1 & [Ho1|[Hge Ho1]]%lookup_app_Some & Hid).
      * assert (Hs : idx !! identity o = Some j) by (apply Hidx; eauto). congruence.
      * apply list_lookup_singleton_Some in Ho1 as [? _]. f_equal. lia.
  - rewrite lookup_insert_ne, (Hidx id j) by done. split; intros (o1 & Ho1 & Hid).
    + exists o1. split; [by apply lookup_app_l_Some|done].
    + apply lookup_app_Some in Ho1 as [Ho1|[_ Ho1]]; [by exists o1|].
      apply list_lookup_singleton_Some in Ho1 as [_ ->]. congruence.
Qed.

Lemma index_spec_none idx l (id : name) : index_spec idx l -> idx !! id = None <-> id ∉ identity <$> l.
Proof.
  intros Hidx. rewrite eq_None_not_Some. split; intros Hn H; apply Hn.
  - apply list_elem_of_fmap in H as (o & -> & [j Ho]%list_elem_of_lookup). exists j. apply Hidx. eauto.
  - destruct H as [j (o & Ho & <-)%Hidx]. apply list_elem_of_fmap_2. by eapply list_elem_of_lookup_2.
Qed.

Lemma check_known_object_ok count idx l o idx' :
  index_spec idx l ->
  check_known_object count idx (length l, o) = Ok idx' <->
  identity o ∉ identity <$> l /\ object_ok count o /\ idx' = <[identity o := length l]> idx.
Proof.
  intros Hidx. unfold check_known_object. rewrite <- (index_spec_none _ _ _ Hidx). split.
  - intros H. apply bind_ok in H as ([] & G1%fail_if_ok & H).
    apply bind_ok in H as ([] & G2%fail_if_ok & [= <-]). apply orb_false_iff in G1 as [G0 G1].
    apply is_empty_false in G0. apply bool_decide_eq_false in G1. apply eq_None_not_Some in G1.
    split_and!; [done| |done]. split; [done|]. by apply edges_check_false.
  - intros (Hn & [Hid He] & ->). pose proof (Hn : idx !! identity o = None) as Hn1. rewrite Hn1, (bool_decide_false (is_Some None)) by (by intros [? ?]).
    destruct (is_empty (identity o)) eqn:Ee; [by destruct (identity o)|].
    cbn. apply edges_check_false in He. by rewrite He.
Qed.

Lemma check_known_ok count l idx :
  foldE (check_known_object count) ∅ (imap pair l) = Ok idx ->
  index_spec idx l /\ NoDup (identity <$> l) /\ Forall (object_ok count) l.
Proof.
  revert idx. induction l as [|o l IH] using rev_ind; intros idx.
  { intros [= <-]. split_and!; [|apply NoDup_nil_2|constructor]. intros id j.
    rewrite lookup_empty. split; [done|by intros (? & ? & _)]. }
  rewrite imap_pair_snoc, NoDup_fmap_snoc, Forall_snoc. intros (idx1 & H1 & H2)%foldE_snoc.
  destruct (IH _ H1) as (Hi & Hn & Ha).
  apply check_known_object_ok in H2 as (Hnew & Ho & ->); [|done].
  split; [|done]. apply index_spec_snoc; [done|]. by apply (index_spec_none _ _ _ Hi).
Qed.

Lemma check_known_complete count l :
  NoDup (identity <$> l) -> Forall (object_ok count) l ->
  exists idx, foldE (check_known_object count) ∅ (imap pair l) = Ok idx.
Proof.
  induction l as [|o l IH] using rev_ind; [by eexists|].
  rewrite imap_pair_snoc, NoDup_fmap_snoc, Forall_snoc. intros [Hn Hnew] [Ha Ho].
  destruct (IH Hn Ha) as [idx1 H1]. eexists. apply foldE_snoc. exists idx1. split; [done|].
  apply check_known_object_ok; [by eapply check_known_ok|done].
Qed.

(** *** The root records *)
Definition root_flags (count : nat) (g0 : list bool) (l : list Elf32LinkMapRoot)
    (s : list bool * list bool) : Prop :=
  flags_decide count (fst s) (fun i => i ∈ root_object_index <$> l) /\
  flags_decide count (snd s) (fun i => flag g0 i = true \/
    exists r, r ∈ l /\ root_object_index r = i /\ root_policy r = Global).

Definition root_accepted (count : nat) (l : list Elf32LinkMapRoot) (r : Elf32LinkMapRoot) : Prop :=
  (root_object_index r < count)%nat /\ root_object_index r ∉ root_object_index <$> l.

Lemma root_check_false count g0 l s r :
  root_flags count g0 l s ->
  (count <=? root_object_index r)%nat || flag (fst s) (root_object_index r) = false <->
  root_accepted count l r.
Proof.
  intros [[_ Hf] _]. unfold root_accepted. rewrite orb_false_iff, Nat.leb_gt. split; intros [H1 H2].
  - split; [done|]. rewrite <- Hf by done. congruence.
  - split; [done|]. rewrite <- Hf in H2 by done. by apply not_true_iff_false.
Qed.

Lemma check_root_record_step count g0 l r s s' :
  root_flags count g0 l s -> check_root_record count s r = Ok s' ->
  root_accepted count l r /\ root_flags count g0 (l ++ [r]) s'.
Proof.
  intros Hs H. destruct s as [seen req]. unfold check_root_record in H.
  apply bind_ok in H as ([] & G%fail_if_ok & [= <-]).
  apply (root_check_false _ _ _ _ _ Hs) in G as Ha. split; [done|]. destruct Hs as [Hs1 Hs2], Ha as [Hr _].
  split; cbn [fst snd].
  - eapply flags_decide_ext; [by apply flags_decide_insert|]. intros i _. cbn.
    rewrite fmap_app, elem_of_app. cbn. by rewrite list_elem_of_singleton.
  - destruct (root_policy r) eqn:Ep.
    + eapply flags_decide_ext; [done|]. intros i _. cbn. split.
      * intros [?|(r1 & H1 & H2 & H3)]; [by left|right]. exists r1. rewrite elem_of_app. tauto.
      * intros [?|(r1 & H1 & H2 & H3)]; [by left|right]. exists r1.
        apply elem_of_app in H1 as [H1|H1]; [done|]. apply list_elem_of_singleton in H1 as ->. congruence.
    + eapply flags_decide_ext; [by apply flags_decide_insert|]. intros i _. cbn. split.
      * intros [[?|(r1 & H1 & H2 & H3)]| ->]; [by left|right..].
        -- exists r1. rewrite elem_of_app. tauto.
        -- exists r. rewrite elem_of_app, list_elem_of_singleton. tauto.
      * intros [?|(r1 & H1 & H2 & H3)]; [by left; left|].
        apply elem_of_app in H1 as [H1|H1]; [left; right; eauto|].
        apply list_elem_of_singleton in H1 as ->. by right.
Qed.

Lemma root_accepted_iff count l :
  accepted (root_accepted count) l <->
  NoDup (root_object_index <$> l) /\ Forall (fun r => (root_object_index r < count)%nat) l.
Proof.
  apply (accepted_iff (root_accepted count) (fun l => NoDup (root_object_index <$> l) /\
    Forall (fun r => (root_object_index r < count)%nat) l)).
  - split; [apply NoDup_nil_2|constructor].
  - intros l1 x. unfold root_accepted. rewrite NoDup_fmap_snoc, Forall_snoc. tauto.
Qed.

Lemma root_flags_start count g0 : length g0 = count -> root_flags count g0 [] (replicate count false, g0).
Proof.
  intros Hl. split; cbn.
  - eapply flags_decide_ext; [apply flags_decide_none|]. intros i _. cbn. by rewrite elem_of_nil.
  - split; [done|]. intros i _. split; [by left|]. intros [?|(r & Hr & _)]; [done|]. by apply elem_of_nil in Hr.
Qed.

Lemma check_roots_ok count g0 l s :
  length g0 = count -> foldE (check_root_record count) (replicate count false, g0) l = Ok s ->
  NoDup (root_object_index <$> l) /\ Forall (fun r => (root_object_index r < count)%nat) l /\
  root_flags count g0 l s.
Proof.
  intros Hl H. apply (checking_fold_sound _ _ (root_flags count g0) (root_accepted count)) in H
    as [[H1 H2]%root_accepted_iff H3]; [done|by apply root_flags_start|].
  intros. by eapply check_root_record_step.
Qed.

Lemma check_roots_complete count g0 l :
  length g0 = count ->
  NoDup (root_object_index <$> l) -> Forall (fun r => (root_object_index r < count)%nat) l ->
  exists s, foldE (check_root_record count) (replicate count false, g0) l = Ok s.
Proof.
  intros Hl Hn Hr. apply (checking_fold_complete _ _ (root_flags count g0) (root_accepted count)).
  - by apply root_flags_start.
  - intros. by eapply check_root_record_step.
  - intros l1 x s Hs Ha. apply (root_check_false _ _ _ _ _ Hs) in Ha. destruct s as [seen req].
    unfold check_root_record. cbn [fst] in Ha. rewrite Ha. by eexists.
  - by apply root_accepted_iff.
Qed.

(** *** The global scope *)
Definition scope_flags (count : nat) (l : list nat) (s : list bool * option nat) : Prop :=
  flags_decide count (fst s) (fun i => i ∈ l) /\ snd s = last l /\ StronglySorted lt l.

Definition scope_accepted (count : nat) (req : list bool) (l : list nat) (i : nat) : Prop :=
  (i < count)%nat /\ flag req i = true /\ Forall (fun j => (j < i)%nat) l.

Lemma StronglySorted_snoc (l : list nat) i :
  StronglySorted lt (l ++ [i]) <-> StronglySorted lt l /\ Forall (fun j => (j < i)%nat) l.
Proof.
  induction l as [|x l IH]; cbn.
  - split; [split; constructor|intros _; repeat constructor].
  - split.
    + intros [H1 H2]%StronglySorted_inv. apply IH in H1 as [H1 H3]. apply Forall_snoc in H2 as [H2 H4].
      split; [by constructor|by constructor].
    + intros [[H1 H2]%StronglySorted_inv H3]. apply Forall_cons_1 in H3 as [H3 H4].
      constructor; [by apply IH|by apply Forall_snoc].
Qed.

(** Above the last member of a sorted scope is above all of them. *)
Lemma above_last (l : list nat) i :
  StronglySorted lt l ->
  (match last l with Some p => (i <=? p)%nat | None => false end = false <-> Forall (fun j => (j < i)%nat) l).
Proof.
  destruct l as [|x l _] using rev_ind; [by split; constructor|].
  rewrite last_snoc, StronglySorted_snoc, Forall_snoc, Nat.leb_gt. intros [_ Hx]. split; [|tauto].
  intros Hi. split; [|done]. eapply Forall_impl; [exact Hx|]. cbn. lia.
Qed.

Lemma member_check_false count req l s i :
  scope_flags count l s ->
  ((count <=? i)%nat || flag (fst s) i || negb (flag req i)
     || match snd s with Some p => (i <=? p)%nat | None => false end = false <->
   scope_accepted count req l i).
Proof.
  intros ([_ Hf] & -> & Hsort). unfold scope_accepted.
  rewrite !orb_false_iff, (above_last l i Hsort), Nat.leb_gt, negb_false_iff.
  split; [tauto|]. intros (H1 & H2 & H3). split_and!; [done| |done|done].
  apply not_true_iff_false. rewrite Hf by done. intros Hi. rewrite Forall_forall in H3.
  pose proof (H3 i Hi). lia.
Qed.

Lemma check_global_member_step count req l i s s' :
  scope_flags count l s -> check_global_member count req s i = Ok s' ->
  scope_accepted count req l i /\ scope_flags count (l ++ [i]) s'.
Proof.
  intros Hs H. destruct s as [seen prev]. unfold check_global_member in H.
  apply bind_ok in H as ([] & G%fail_if_ok & [= <-]).
  apply (member_check_false _ req _ _ _ Hs) in G as Ha. split; [done|].
  destruct Hs as (Hs1 & _ & Hs2), Ha as (Hi & _ & Hl). split_and!; cbn [fst snd].
  - eapply flags_decide_ext; [by apply flags_decide_insert|]. intros j _. cbn.
    by rewrite elem_of_app, list_elem_of_singleton.
  - by rewrite last_snoc.
  - by apply StronglySorted_snoc.
Qed.

Lemma scope_accepted_iff count req l :
  accepted (scope_accepted count req) l <->
  StronglySorted lt l /\ Forall (fun i => (i < count)%nat /\ flag req i = true) l.
Proof.
  apply (accepted_iff (scope_accepted count req) (fun l => StronglySorted lt l /\
    Forall (fun i => (i < count)%nat /\ flag req i = true) l)).
  - split; constructor.
  - intros l1 x. unfold scope_accepted. rewrite StronglySorted_snoc, Forall_snoc. tauto.
Qed.

Lemma scope_flags_start count : scope_flags count [] (replicate count false, None).
Proof.
  split_and!; [|done|constructor].
  eapply flags_decide_ext; [apply flags_decide_none|]. intros i _. cbn. by rewrite elem_of_nil.
Qed.

Lemma check_scope_ok count req l s :
  foldE (check_global_member count req) (replicate count false, None) l = Ok s ->
  StronglySorted lt l /\ Forall (fun i => (i < count)%nat /\ flag req i = true) l /\
  flags_decide count (fst s) (fun i => i ∈ l).
Proof.
  intros H. apply (checking_fold_sound _ _ (scope_flags count) (scope_accepted count req)) in H
    as [[H1 H2]%scope_accepted_iff [H3 _]]; [done|apply scope_flags_start|].
  intros. by eapply check_global_member_step.
Qed.

Lemma check_scope_complete count req l :
  StronglySorted lt l -> Forall (fun i => (i < count)%nat /\ flag req i = true) l ->
  exists s, foldE (check_global_member count req) (replicate count false, None) l = Ok s.
Proof.
  intros Hn Hr. apply (checking_fold_complete _ _ (scope_flags count) (scope_accepted count req)).
  - apply scope_flags_start.
  - intros. by eapply check_global_member_step.
  - intros l1 x s Hs Ha. apply (member_check_false _ req _ _ _ Hs) in Ha. destruct s as [seen prev].
    unfold check_global_member. cbn [fst snd] in Ha. rewrite Ha. by eexists.
  - by apply scope_accepted_iff.
Qed.

(** *** The whole preflight *)
Definition compare_flags (req seen : list bool) (u : unit) (entry : nat * Elf32LoadedDependencyObject)
    : result load_failure unit :=
  let '(index, object) := entry in
  fail_if (negb (Bool.eqb (flag req index) (flag seen index))) (invalid_link_map (identity object)).

Lemma compare_flags_ok req seen known :
  foldE (compare_flags req seen) tt (imap pair known) = Ok tt <->
  forall i, (i < length known)%nat -> flag req i = flag seen i.
Proof.
  induction known as [|o l IH] using rev_ind; [split; [cbn; lia|done]|].
  rewrite imap_pair_snoc, foldE_snoc, length_app. cbn [length].
  assert (Hx : compare_flags req seen tt (length l, o) = Ok tt <->
               flag req (length l) = flag seen (length l)).
  { unfold compare_flags. split.
    - intros G%fail_if_ok. apply negb_false_iff in G. by apply eqb_prop.
    - intros ->. by rewrite eqb_reflx. }
  split.
  - intros ([] & H1 & H2) i Hi. destruct (decide (i = length l)) as [->|Hne]; [by apply Hx|].
    apply IH; [done|lia].
  - intros H. exists tt. split; [apply IH; intros; apply H; lia|]. apply Hx, H. lia.
Qed.

Lemma check_link_map_unfold m :
  check_link_map m =
  (let known := objects (lmap_graph m) in
   object_indices ← foldE (check_known_object (length known)) ∅ (imap pair known);
   roots ← foldE (check_root_record (length known))
             (replicate (length known) false, (fun o => lm_global (linker_metadata o)) <$> known)
             (lmap_roots m);
   scope ← foldE (check_global_member (length known) (snd roots))
             (replicate (length known) false, None) (lmap_global_scope_objects m);
   foldE (compare_flags (snd roots) (fst scope)) tt (imap pair known) ;;
   Ok (object_indices, fst scope)).
Proof. done. Qed.

(** The flags of the second loop decide [required_global]. *)
Lemma root_flags_required known roots s :
  root_flags (length known) ((fun o => lm_global (linker_metadata o)) <$> known) roots s ->
  flags_decide (length known) (snd s) (required_global known roots).
Proof.
  intros [_ Hs]. eapply flags_decide_ext; [exact Hs|]. intros i Hi. cbn.
  destruct (lookup_lt_is_Some_2 known i Hi) as [o Ho].
  assert (Hf : flag ((fun o => lm_global (linker_metadata o)) <$> known) i = lm_global (linker_metadata o)).
  { unfold flag. by rewrite list_lookup_fmap, Ho. }
  rewrite Hf. unfold required_global. split.
  - intros H. exists o. tauto.
  - intros (o1 & Ho1 & H). by simplify_eq.
Qed.

Lemma required_global_range known roots i : required_global known roots i -> (i < length known)%nat.
Proof. intros (o & Ho & _). by eapply lookup_lt_Some. Qed.

Lemma check_link_map_ok m idx seen :
  check_link_map m = Ok (idx, seen) ->
  link_map_wf m /\ index_spec idx (objects (lmap_graph m)) /\
  flags_decide (length (objects (lmap_graph m))) seen (fun i => i ∈ lmap_global_scope_objects m).
Proof.
  rewrite check_link_map_unfold. cbv zeta. set (known := objects (lmap_graph m)). intros H.
  apply bind_ok in H as (idx1 & H1 & H). apply check_known_ok in H1 as (Hi & Hn & Ho).
  apply bind_ok in H as (rs & H1 & H). apply check_roots_ok in H1 as (Rn & Rr & Rf%root_flags_required);
    [|apply length_fmap].
  apply bind_ok in H as (ss & H1 & H). apply check_scope_ok in H1 as (Ss & Sr & Sf).
  apply bind_ok in H as ([] & H1 & [= <- <-]). rewrite compare_flags_ok in H1.
  rewrite Forall_forall in Rr. rewrite Forall_forall in Sr. rewrite Forall_lookup in Ho.
  split; [|done]. split; [done|done|done|done|done|].
  intros i. fold known. split.
  - intros Hin. destruct (Sr i Hin) as [Hlt Hf]. by apply Rf.
  - intros Hreq. pose proof (required_global_range _ _ _ Hreq) as Hlt. apply Sf; [done|].
    rewrite <- H1 by done. by apply Rf.
Qed.

Lemma check_link_map_complete m : link_map_wf m -> exists r, check_link_map m = Ok r.
Proof.
  intros [Hn Ho Rn Rr Ss Hs]. rewrite check_link_map_unfold. cbv zeta.
  set (known := objects (lmap_graph m)) in *.
  destruct (check_known_complete (length known) known Hn) as [idx Hidx]; [by apply Forall_lookup|].
  rewrite Hidx. cbn.
  destruct (check_roots_complete (length known) ((fun o => lm_global (linker_metadata o)) <$> known)
              (lmap_roots m)) as [rs Hrs]; [apply length_fmap|done|by apply Forall_forall|].
  rewrite Hrs. cbn. apply check_roots_ok in Hrs as (_ & _ & Rf%root_flags_required); [|apply length_fmap].
  destruct (check_scope_complete (length known) (snd rs) (lmap_global_scope_objects m) Ss) as [ss Hss].
  { apply Forall_forall. intros i Hin%Hs. pose proof (required_global_range _ _ _ Hin) as Hlt.
    split; [done|]. by apply Rf. }
  rewrite Hss. cbn. apply check_scope_ok in Hss as (_ & _ & Sf).
  assert (Hc : foldE (compare_flags (snd rs) (fst ss)) tt (imap pair known) = Ok tt).
  { apply compare_flags_ok. intros i Hi. apply eq_bool_prop_intro. rewrite !Is_true_true.
    rewrite (proj2 Rf i Hi), (proj2 Sf i Hi). by rewrite Hs. }
  rewrite Hc. by eexists.
Qed.

Lemma fold_invalid {A S} (step : S -> A -> result load_failure S) s l f :
  (forall s x f, step s x = Err f -> df_error f = Elf32DependencyLoadError.InvalidLinkMap) ->
  foldE step s l = Err f -> df_error f = Elf32DependencyLoadError.InvalidLinkMap.
Proof.
  intros Hs. revert s. induction l as [|x l IH]; intros s; [done|]. cbn.
  intros [H|(s1 & _ & H)]%bind_err; [by eapply Hs|by eapply IH].
Qed.

(** Every rejection is an InvalidLinkMap. *)
Lemma check_link_map_invalid m f :
  check_link_map m = Err f -> df_error f = Elf32DependencyLoadError.InvalidLinkMap.
Proof.
  rewrite check_link_map_unfold. cbv zeta. intros H.
  apply bind_err in H as [H|(idx & _ & H)].
  { eapply fold_invalid; [|exact H]. intros s [i o] f1 H1. unfold check_known_object in H1.
    apply bind_err in H1 as [[_ <-]%fail_if_err|([] & _ & H1)]; [done|].
    apply bind_err in H1 as [[_ <-]%fail_if_err|([] & _ & H1)]; done. }
  apply bind_err in H as [H|(rs & _ & H)].
  { eapply fold_invalid; [|exact H]. intros [s1 s2] r f1 H1. unfold check_root_record in H1.
    apply bind_err in H1 as [[_ <-]%fail_if_err|([] & _ & H1)]; done. }
  apply bind_err in H as [H|(ss & _ & H)].
  { eapply fold_invalid; [|exact H]. intros [s1 s2] r f1 H1. unfold check_global_member in H1.
    apply bind_err in H1 as [[_ <-]%fail_if_err|([] & _ & H1)]; done. }
  apply bind_err in H as [H|(u & _ & H)]; [|done].
  eapply fold_invalid; [|exact H]. intros s [i o] f1 [_ <-]%fail_if_err. done.
Qed.

Lemma check_link_map_real m f : check_link_map m = Err f -> real_failure f.
Proof. intros H%check_link_map_invalid. unfold real_failure. by rewrite H. Qed.

(** C23: the preflight of an append accepts exactly the well-formed link maps: unique
    non-empty identities, named edges into the graph, at most one record per root,
    and a strictly increasing global scope that holds exactly the DF_1_GLOBAL
    objects and the roots opened globally. *)
Theorem check_link_map_exact (m : Elf32LinkMap) :
  (exists r, check_link_map m = Ok r) <-> link_map_wf m.
Proof.
  split; [|apply check_link_map_complete]. intros [[idx seen] H]. by apply check_link_map_ok in H as [? _].
Qed.

(** *** Recording a root *)
Definition opened_globally (roots : list Elf32LinkMapRoot) (i : nat) : Prop :=
  exists r, r ∈ roots /\ root_object_index r = i /\ root_policy r = Global.

Lemma opened_globally_cons r roots i :
  opened_globally (r :: roots) i <->
  (root_object_index r = i /\ root_policy r = Global) \/ opened_globally roots i.
Proof.
  unfold opened_globally. split.
  - intros (r1 & H & H1 & H2). apply elem_of_cons in H as [->|H]; eauto.
  - intros [[H1 H2]|(r1 & H & H1 & H2)]; [exists r|exists r1]; rewrite elem_of_cons; eauto.
Qed.

Lemma record_root_indices p i roots :
  root_object_index <$> record_root p i roots =
  if decide (i ∈ root_object_index <$> roots) then root_object_index <$> roots
  else (root_object_index <$> roots) ++ [i].
Proof.
  induction roots as [|r roots IH]; cbn.
  { by rewrite decide_False by apply not_elem_of_nil. }
  case_bool_decide as He; cbn.
  - rewrite decide_True; [done|]. rewrite He. by left.
  - rewrite IH. destruct (decide (i ∈ root_object_index <$> roots)) as [Hi|Hi].
    + rewrite decide_True; [done|]. by right.
    + rewrite decide_False; [done|]. intros [->|?]%elem_of_cons; done.
Qed.

Lemma record_root_global p i roots j :
  opened_globally (record_root p i roots) j <-> opened_globally roots j \/ (j = i /\ p = Global).
Proof.
  induction roots as [|r roots IH]; cbn.
  - rewrite opened_globally_cons. cbn. split.
    + intros [[-> ->]|?]; tauto.
    + intros [?|[-> ->]]; tauto.
  - case_bool_decide as He; rewrite !opened_globally_cons; cbn; [|rewrite IH; tauto].
    destruct p; split; try tauto; intros H; intuition (try congruence); subst; tauto.
Qed.

Lemma record_root_idempotent p i roots : record_root p i (record_root p i roots) = record_root p i roots.
Proof.
  induction roots as [|r roots IH]; cbn.
  - rewrite bool_decide_true by done. by destruct p.
  - case_bool_decide as He; cbn.
    + rewrite bool_decide_true by done. by destruct p.
    + rewrite bool_decide_false by done. by rewrite IH.
Qed.

Lemma record_root_nodup p i roots :
  NoDup (root_object_index <$> roots) -> NoDup (root_object_index <$> record_root p i roots).
Proof.
  intros H. rewrite record_root_indices. case_decide as Hi; [done|].
  apply NoDup_app. split_and!; [done| |apply NoDup_singleton].
  intros x Hx ->%list_elem_of_singleton. done.
Qed.

Lemma record_root_range p i roots j :
  j ∈ root_object_index <$> record_root p i roots <-> j ∈ root_object_index <$> roots \/ j = i.
Proof.
  rewrite record_root_indices. case_decide as Hi.
  - split; [tauto|]. intros [?| ->]; done.
  - by rewrite elem_of_app, list_elem_of_singleton.
Qed.

(** *** Recording a global object *)
Lemma insert_at_lower_bound_elem i l j : j ∈ insert_at_lower_bound i l <-> j ∈ l \/ j = i.
Proof.
  induction l as [|x l IH]; cbn [insert_at_lower_bound].
  - rewrite list_elem_of_singleton, elem_of_nil. tauto.
  - destruct (x <? i)%nat; rewrite !elem_of_cons; [rewrite IH|]; tauto.
Qed.

Lemma insert_at_lower_bound_sorted i l :
  StronglySorted lt l -> i ∉ l -> StronglySorted lt (insert_at_lower_bound i l).
Proof.
  induction l as [|x l IH]; cbn [insert_at_lower_bound]; intros Hs Hi; [repeat constructor|].
  apply StronglySorted_inv in Hs as Hx. destruct Hx as [Hl Hx]. apply not_elem_of_cons in Hi as [Hne Hi].
  destruct (Nat.ltb_spec x i) as [Hlt|Hge]; constructor; try done.
  - by apply IH.
  - rewrite Forall_forall in Hx |- *. intros j [?| ->]%insert_at_lower_bound_elem; [by apply Hx|done].
  - constructor; [lia|]. eapply Forall_impl; [exact Hx|]. cbn. lia.
Qed.

(** [seen] (of some length up to [count]) tells the members of the sorted [scope]. *)
Record scope_inv (count : nat) (s : list bool * list nat) : Prop := {
  si_length : (length (fst s) <= count)%nat;
  si_sorted : StronglySorted lt (snd s);
  si_flags i : flag (fst s) i = true <-> i ∈ snd s;
}.

Lemma scope_inv_start count seen scope n :
  flags_decide n seen (fun i => i ∈ scope) -> (n <= count)%nat -> StronglySorted lt scope ->
  (forall i, i ∈ scope -> (i < n)%nat) -> scope_inv count (seen, scope).
Proof.
  intros [Hl Hf] Hn Hs Hr. split; cbn; [lia|done|]. intros i.
  destruct (decide (i < n)%nat) as [Hi|Hi]; [by apply Hf|]. split.
  - unfold flag. by rewrite lookup_ge_None_2 by lia.
  - intros Hin%Hr. lia.
Qed.

Lemma flag_app_false seen k i : flag (seen ++ replicate k false) i = flag seen i.
Proof.
  unfold flag. destruct (decide (i < length seen)%nat) as [Hi|Hi]; [by rewrite lookup_app_l|].
  rewrite lookup_app_r, (lookup_ge_None_2 seen) by lia.
  destruct (replicate k false !! (i - length seen)%nat) as [b|] eqn:E; [|done].
  by apply lookup_replicate in E as [-> _].
Qed.

Lemma record_global_spec count i s :
  scope_inv count s -> (i < count)%nat ->
  scope_inv count (record_global count i s) /\
  forall j, j ∈ snd (record_global count i s) <-> j ∈ snd s \/ j = i.
Proof.
  destruct s as [seen scope]. intros [Hl Hs Hf] Hi. unfold record_global. cbn [fst snd] in *.
  set (seen' := if (length seen <? count)%nat then _ else seen).
  assert (H1 : length seen' = count).
  { unfold seen'. destruct (Nat.ltb_spec (length seen) count); [|lia].
    rewrite length_app, length_replicate. lia. }
  assert (H2 : forall j, flag seen' j = flag seen j).
  { intros j. unfold seen'. destruct (length seen <? count)%nat; [apply flag_app_false|done]. }
  destruct (flag seen' i) eqn:Ei.
  - rewrite H2, Hf in Ei. split; [split; cbn; [lia|done|]|]; intros j; cbn.
    + by rewrite H2.
    + split; [tauto|]. intros [?| ->]; done.
  - assert (Hni : i ∉ scope) by (rewrite <- Hf, <- H2; congruence).
    split; [split; cbn|]; cbn.
    + rewrite length_insert. lia.
    + by apply insert_at_lower_bound_sorted.
    + intros j. rewrite insert_at_lower_bound_elem, <- Hf, <- H2. unfold flag.
      destruct (decide (j = i)) as [->|Hne].
      * rewrite list_lookup_insert_eq by lia. cbn. tauto.
      * rewrite list_lookup_insert_ne by done. tauto.
    + intros j. apply insert_at_lower_bound_elem.
Qed.

Lemma elem_of_drop_imap (k : nat) (all : list Elf32LoadedDependencyObject) j o :
  (j, o) ∈ drop k (imap pair all) <-> (k <= j)%nat /\ all !! j = Some o.
Proof.
  rewrite list_elem_of_lookup. split.
  - intros [i Hi]. rewrite lookup_drop, list_lookup_imap in Hi.
    apply fmap_Some in Hi as (o1 & Ho & [= -> ->]). split; [lia|done].
  - intros [Hk Ho]. exists (j - k)%nat. rewrite lookup_drop, list_lookup_imap.
    replace (k + (j - k))%nat with j by lia. by rewrite Ho.
Qed.

Lemma record_new_globals_fold p k count l s :
  scope_inv count s -> (forall j o, (j, o) ∈ l -> (j < count)%nat) ->
  let s' := foldl (fun s entry =>
       let '(object_index, object) := entry in
       let caller_global :=
         bool_decide (object_index = k) && match p with Global => true | Local => false end in
       if caller_global || lm_global (linker_metadata object)
       then record_global count object_index s else s) s l in
  scope_inv count s' /\
  forall j, j ∈ snd s' <-> j ∈ snd s \/
    exists o, (j, o) ∈ l /\ ((j = k /\ p = Global) \/ lm_global (linker_metadata o) = true).
Proof.
  revert s. induction l as [|[i o] l IH]; intros s Hs Hr; cbn.
  { split; [done|]. intros j. split; [by left|]. intros [?|(o & Ho & _)]; [done|]. by apply elem_of_nil in Ho. }
  match goal with |- context [foldl _ (if ?b then _ else _) _] => set (c := b) end.
  assert (Hc : c = true <-> (i = k /\ p = Global) \/ lm_global (linker_metadata o) = true).
  { unfold c. rewrite orb_true_iff, andb_true_iff, bool_decide_eq_true. destruct p; split; intros [[? ?]|?]; (done || tauto). }
  assert (Hr' : forall j o1, (j, o1) ∈ l -> (j < count)%nat) by (intros j o1 H; eapply Hr; by right).
  assert (Hi : (i < count)%nat) by (eapply Hr; by left).
  set (s1 := if c then _ else s).
  assert (H1 : scope_inv count s1 /\ forall j, j ∈ snd s1 <-> j ∈ snd s \/ (j = i /\ c = true)).
  { unfold s1. destruct c; [|split; [done|]; intros j; split; [tauto|by intros [?|[_ ?]]]].
    destruct (record_global_spec count i s Hs Hi) as [H1 H2]. split; [done|]. intros j. rewrite H2. tauto. }
  destruct H1 as [H1 H2]. destruct (IH s1 H1 Hr') as [H3 H4]. split; [done|]. intros j. rewrite H4, H2, Hc. split.
  - intros [[?|[-> ?]]|(o1 & Ho1 & H)]; [by left|right..]; [exists o|exists o1]; rewrite elem_of_cons; tauto.
  - intros [?|(o1 & Ho1 & H)]; [tauto|]. apply elem_of_cons in Ho1 as [[= -> ->]|Ho1]; [tauto|]. right. eauto.
Qed.

Lemma record_new_globals_spec p k all s :
  scope_inv (length all) s ->
  scope_inv (length all) (record_new_globals p k all s) /\
  forall j, j ∈ snd (record_new_globals p k all s) <-> j ∈ snd s \/
    exists o, (k <= j)%nat /\ all !! j = Some o /\
      ((j = k /\ p = Global) \/ lm_global (linker_metadata o) = true).
Proof.
  intros Hs. unfold record_new_globals.
  destruct (record_new_globals_fold p k (length all) (drop k (imap pair all)) s Hs) as [H1 H2].
  { intros j o [_ Ho]%elem_of_drop_imap. by eapply lookup_lt_Some. }
  split; [done|]. intros j. rewrite H2. setoid_rewrite elem_of_drop_imap.
  by setoid_rewrite <- (assoc and).
Qed.

(** *** The invariant of the extended map *)
Lemma link_map_wf_extend m g p i scope' :
  link_map_wf m ->
  objects (lmap_graph m) `prefix_of` objects g ->
  NoDup (identity <$> objects g) ->
  (forall j o, objects g !! j = Some o -> object_ok (length (objects g)) o) ->
  (i < length (objects g))%nat ->
  StronglySorted lt scope' ->
  (forall j, j ∈ scope' <-> j ∈ lmap_global_scope_objects m \/ (j = i /\ p = Global) \/
     ((length (objects (lmap_graph m)) <= j)%nat /\
      exists o, objects g !! j = Some o /\ lm_global (linker_metadata o) = true)) ->
  link_map_wf {| lmap_graph := g; lmap_roots := record_root p i (lmap_roots m);
                 lmap_global_scope_objects := scope' |}.
Proof.
  intros [_ _ Rn Rr _ Hsc] Hpre Hn Ho Hi Hs Hm. split; cbn; try done.
  - by apply record_root_nodup.
  - intros r Hr. assert (Hri : root_object_index r ∈ root_object_index <$> record_root p i (lmap_roots m))
      by by apply list_elem_of_fmap_2.
    apply record_root_range in Hri as [(r1 & -> & Hr1)%list_elem_of_fmap| ->]; [|done].
    apply Rr in Hr1. apply prefix_length in Hpre. lia.
  - intros j. rewrite Hm, Hsc. unfold required_global. change (exists r, r ∈ ?l /\ _ = j /\ _ = Global)
      with (opened_globally l j).
    setoid_rewrite record_root_global. split.
    + intros [(o & Hoj & H)|[[-> ->]|(_ & o & Hoj & H)]].
      * exists o. split; [|tauto]. by eapply prefix_lookup_Some.
      * destruct (lookup_lt_is_Some_2 _ _ Hi) as [o Hoj]. exists o. tauto.
      * exists o. tauto.
    + intros (o & Hoj & H). destruct (decide (j < length (objects (lmap_graph m)))%nat) as [Hj|Hj].
      * assert (Hold : objects (lmap_graph m) !! j = Some o)
          by (rewrite <- Hoj; by apply prefix_lookup_lt).
        destruct H as [H|[H|H]]; [left; exists o; tauto..|tauto].
      * destruct H as [H|[(r & Hr & <- & _)|H]]; [right; right; split; [lia|eauto]| |tauto].
        apply Rr in Hr. lia.
Qed.

(** ** Appending a root *)

(** What a successful append leaves: the known objects in front, the root found or
    loaded, recorded, and the invariant of the map kept. *)
Record root_appended {W} (provider : Elf32DependencyProvider W) (options : Elf32DependencyLoadOptions) (m : memory_t) (lm : Elf32LinkMap)
    (root : Elf32DependencyLoadSource) (policy : Elf32LinkMapRootPolicy) (r : append_success)
    (m' : memory_t) (lm' : Elf32LinkMap) : Prop := {
  ra_wf : link_map_wf lm';
  ra_known : objects (lmap_graph lm) `prefix_of` objects (lmap_graph lm');
  ra_root : exists o, objects (lmap_graph lm') !! root_object_index_result r = Some o /\
    identity o = root_identity root /\ image o = root_image root;
  ra_roots : lmap_roots lm' = record_root policy (root_object_index_result r) (lmap_roots lm);
  ra_scope j : j ∈ lmap_global_scope_objects lm -> j ∈ lmap_global_scope_objects lm';
  ra_count : Z.of_nat (length (objects (lmap_graph lm'))) <= dl_max_objects options;
  ra_loaded :
    if reused_existing_root r then m' = m /\ lmap_graph lm' = lmap_graph lm
    else root_object_index_result r = length (objects (lmap_graph lm)) /\
         graph_loaded provider options m (length (objects (lmap_graph lm))) m' (lmap_graph lm');
}.

(** What a failed append leaves. *)
Definition append_undone (m : memory_t) (lm : Elf32LinkMap) (f : load_failure)
    (m' : memory_t) (lm' : Elf32LinkMap) : Prop :=
  lm' = lm /\ undone m f m'.

Section append_proofs.
Context {W : Type} (provider : Elf32DependencyProvider W) (options : Elf32DependencyLoadOptions).
Context (m : memory_t) (lm : Elf32LinkMap) (root : Elf32DependencyLoadSource)
        (policy : Elf32LinkMapRootPolicy) (idx : gmap name nat) (seen : list bool).
Hypothesis Hmem : mapped_wf m.
Hypothesis Hcalls : (failures m <= 1)%nat.
Hypothesis Hcheck : check_link_map lm = Ok (idx, seen).
Hypothesis Hroot : check_root options root = Ok tt.

Lemma lm_scope_inv count :
  (length (objects (lmap_graph lm)) <= count)%nat ->
  scope_inv count (seen, lmap_global_scope_objects lm).
Proof.
  intros Hc. apply check_link_map_ok in Hcheck as ([_ _ _ _ Hs Hm] & _ & Hf).
  eapply scope_inv_start; [exact Hf|done|done|]. intros i Hi. apply Hm in Hi. by eapply required_global_range.
Qed.

Lemma reuse_root_ok i :
  idx !! root_identity root = Some i ->
  Z.of_nat (length (objects (lmap_graph lm))) <= dl_max_objects options ->
  match reuse_root lm seen root policy i with
  | (Ok r, lm') => root_appended provider options m lm root policy r m lm'
  | (Err f, lm') => append_undone m lm f m lm'
  end.
Proof.
  intros Hi Hcount. pose proof (check_link_map_ok _ _ _ Hcheck) as (Hwf & Hidx & _).
  apply Hidx in Hi as (o & Ho & Hid). unfold reuse_root. rewrite Ho.
  destruct (bool_decide (image o = root_image root)) eqn:Eb; cbn [negb]; [|by split; [|apply undone_refl]].
  apply bool_decide_eq_true in Eb. apply lookup_lt_Some in Ho as Hlt.
  set (b := _ || lm_global _). set (scope' := if b then _ else _).
  assert (Hsc : StronglySorted lt scope' /\ forall j, j ∈ scope' <->
    j ∈ lmap_global_scope_objects lm \/ (j = i /\ policy = Global)).
  { assert (Hb : b = true -> policy = Global \/ i ∈ lmap_global_scope_objects lm).
    { unfold b. destruct policy; [|by left]. cbn. intros H. right. apply Hwf. exists o. tauto. }
    assert (Hb' : policy = Global -> b = true) by (unfold b; by intros ->).
    unfold scope'. destruct b.
    - destruct (record_global_spec _ i _ (lm_scope_inv _ (le_n _)) Hlt) as [[_ Hs _] Hm].
      split; [done|]. intros j. rewrite Hm. cbn [snd]. split; [|tauto].
      intros [?| ->]; [tauto|]. destruct (Hb eq_refl); tauto.
    - split; [apply Hwf|]. intros j. split; [tauto|]. intros [?|[_ Hp]]; [done|]. by apply Hb' in Hp. }
  destruct Hsc as [Hs Hm]. split; cbn; try done.
  - apply link_map_wf_extend; try done; try apply Hwf. intros j. rewrite Hm. split; [tauto|].
    intros [?|[?|(Hge & o1 & Ho1%lookup_lt_Some & _)]]; [tauto..|lia].
  - by exists o.
  - intros j Hj. apply Hm. by left.
Qed.

(** The known objects stay in front, whatever the recursion does. *)
Lemma root_frame_known w (known : list Elf32LoadedDependencyObject) (c : GraphLoadContext W) :
  frame (root_context m w known idx root) (length known) c ->
  (length known < length (gc_objects c))%nat /\ take (length known) (gc_objects c) = known.
Proof.
  intros [Hlen Hobj _]. cbn in Hlen. rewrite length_app in Hlen. cbn in Hlen. split; [lia|].
  apply list_eq_same_length with (length known); [done|rewrite length_take; lia|].
  intros j o1 o2 Hj H1 H2. rewrite lookup_take_lt, Hobj in H1 by (cbn; rewrite ?length_app; cbn; lia).
  cbn in H1. rewrite lookup_app_l in H1 by done. congruence.
Qed.

Lemma load_new_root_ok w :
  load_options_typed options -> provider_bytes provider ->
  is_bytes (root_image root) -> idx !! root_identity root = None ->
  Z.of_nat (length (objects (lmap_graph lm))) < dl_max_objects options ->
  match load_new_root provider options m w lm idx seen root policy with
  | (Ok r, lm', m', _) => root_appended provider options m lm root policy r m' lm'
  | (Err f, lm', m', _) => append_undone m lm f m' lm'
  end.
Proof.
  intros Hopts Hp Hb Hnew Hcount.
  pose proof (check_link_map_ok _ _ _ Hcheck) as (Hlm & Hidx & _).
  set (known := objects (lmap_graph lm)) in *.
  pose proof (new_root_run provider options m w known idx root Hmem Hcalls Hopts Hp Hidx (lw_objects _ Hlm)
                Hcount Hnew Hb Hroot) as Hrun.
  unfold load_new_root. fold known. unfold wp in Hrun.
  destruct (process_object _ _ _ _ _ _ _) as [[u|f] c].
  - pose proof Hrun as [Hinv [Hlen Hobj _ _ _] Hst Hro Hnew'].
    destruct (root_frame_known w known c (pr_frame _ _ _ _ _ _ _ Hrun)) as [Hlt Htake].
    assert (Hpre : known `prefix_of` gc_objects c).
    { exists (drop (length known) (gc_objects c)). rewrite <- Htake at 1. by rewrite take_drop. }
    destruct (record_new_globals_spec policy (length known) (gc_objects c)
      (seen, lmap_global_scope_objects lm)) as [[_ Hs _] Hm]; [apply lm_scope_inv; fold known; lia|].
    assert (Hgl : graph_loaded provider options m (length known) (gc_memory c) {| objects := gc_objects c |}).
    { eapply processed_graph; [exact Hrun|cbn; rewrite length_app; cbn; lia|].
      intros j Hj. apply Hobj; [cbn; rewrite length_app|]; lia. }
    split; cbn; try done.
    + apply link_map_wf_extend; try done; [|apply Hinv|].
      * apply (gl_identities _ _ _ _ _ _ Hgl).
      * intros j. rewrite Hm. cbn [snd objects]. fold known. split.
        -- intros [?|(o & Hge & Ho & [[-> ->]|Hg])]; [tauto|tauto|]. right; right. eauto.
        -- intros [?|[[-> ->]|(Hge & o & Ho & Hg)]]; [tauto| |right; exists o; tauto].
           destruct (lookup_lt_is_Some_2 (gc_objects c) (length known)) as [o Ho]; [lia|].
           right. exists o. split_and!; [lia|done|by left].
    + apply (Hro (new_object (root_identity root) (root_image root))). cbn.
      by rewrite lookup_app_r, Nat.sub_diag.
    + intros j Hj. apply Hm. by left.
    + apply (gl_count _ _ _ _ _ _ Hgl).
  - destruct (rollback_failure_ok m _ _ _ _ Hmem Hcalls Hrun) as (f1 & m1 & Hr & Hv). rewrite Hr.
    destruct Hrun as [Hfr _ Hreal]. split; [|done].
    destruct (root_frame_known w known c Hfr) as [_ Ht].
    rewrite Ht. unfold known. by destruct lm as [[]].
Qed.
End append_proofs.

Section append_theorems.
Context {W : Type} (provider : Elf32DependencyProvider W) (options : Elf32DependencyLoadOptions).

Lemma append_run (m : memory_t) (w : W) lm root policy :
  mapped_wf m -> (failures m <= 1)%nat -> load_options_typed options -> provider_bytes provider ->
  is_bytes (root_image root) ->
  match append_elf32_link_map_root provider options m w lm root policy with
  | (Ok r, lm', m', _) =>
      root_appended provider options m lm root policy r m' lm' /\ check_root options root = Ok tt
  | (Err f, lm', m', _) => append_undone m lm f m' lm'
  end.
Proof.
  intros Hwf Hf Hopts Hp Hb. unfold append_elf32_link_map_root.
  destruct (check_root options root) as [[]|f] eqn:Ec; cbn [mbind result_bind]; cycle 1.
  { split; [done|]. apply undone_refl; [done|]. by eapply check_root_real. }
  destruct (dl_max_objects options <? _) eqn:Em; [by split; [|apply undone_refl]|]. cbn. bool_prop.
  destruct (check_link_map lm) as [[idx seen]|f] eqn:El; cycle 1.
  { split; [done|]. apply undone_refl; [done|]. by eapply check_link_map_real. }
  destruct (idx !! root_identity root) as [i|] eqn:Ei.
  - pose proof (reuse_root_ok provider options m lm root policy idx seen Hwf Hf El i Ei Em) as H.
    destruct (reuse_root _ _ _ _ _) as [[r|f] lm']; [by split|done].
  - destruct (dl_max_objects options <=? _) eqn:Ele; [by split; [|apply undone_refl]|]. bool_prop.
    pose proof (load_new_root_ok provider options m lm root policy idx seen Hwf Hf El Ec w Hopts Hp Hb Ei Ele) as H.
    destruct (load_new_root _ _ _ _ _ _ _ _ _) as [[[[r|f] lm'] m'] w']; [by split|done].
Qed.

(** C6: on a host that fails at most one of the calls to come, a successful append keeps the invariant of the link map: the known objects
    stay in front with their indices, the requested root is in the map with its
    identity and image and is recorded, the global scope only grows and is again
    exactly the global objects in load order. A reused root changes neither the
    graph nor guest memory; a new one adds exactly the objects reachable from it,
    mapped at their biases, with nothing else in memory touched. *)
Theorem append_elf32_link_map_root_success (m : memory_t) (w : W) lm root policy r lm' m' w' :
  mapped_wf m -> (failures m <= 1)%nat -> load_options_typed options -> provider_bytes provider ->
  is_bytes (root_image root) ->
  append_elf32_link_map_root provider options m w lm root policy = (Ok r, lm', m', w') ->
  root_appended provider options m lm root policy r m' lm'.
Proof.
  intros Hwf Hf Hopts Hp Hb H. pose proof (append_run m w lm root policy Hwf Hf Hopts Hp Hb) as Hr.
  rewrite H in Hr. apply Hr.
Qed.


(** Recording a member again changes nothing. *)
Lemma record_global_member count i seen scope :
  flag seen i = true -> snd (record_global count i (seen, scope)) = scope.
Proof.
  intros Hf. unfold record_global. destruct (length seen <? count)%nat.
  - by rewrite flag_app_false, Hf.
  - by rewrite Hf.
Qed.

(** C24: opening is idempotent: after a successful append on a host that fails at most
    one of the calls to come, appending the same root with the same policy once
    more returns the same index as a reuse and changes nothing: not the link map,
    not guest memory, and the provider is not asked. *)
Theorem append_elf32_link_map_root_idempotent (m : memory_t) (w : W) lm root policy r lm' m' w' :
  mapped_wf m -> (failures m <= 1)%nat -> load_options_typed options -> provider_bytes provider ->
  is_bytes (root_image root) ->
  append_elf32_link_map_root provider options m w lm root policy = (Ok r, lm', m', w') ->
  append_elf32_link_map_root provider options m' w' lm' root policy =
    (Ok (AppendSuccess (root_object_index_result r) true), lm', m', w').
Proof.
  intros Hwf Hf Hopts Hp Hb H. pose proof (append_run m w lm root policy Hwf Hf Hopts Hp Hb) as Hr.
  rewrite H in Hr. destruct Hr as [[Hlm _ (o & Ho & Hid & Him) Hroots _ Hcount _] Hc].
  unfold append_elf32_link_map_root. rewrite Hc. cbn [mbind result_bind].
  rewrite (proj2 (Z.ltb_ge _ _)) by lia. cbn.
  destruct (check_link_map_complete _ Hlm) as [[idx seen] El]. rewrite El.
  destruct (check_link_map_ok _ _ _ El) as (_ & Hidx & [_ Hsc]).
  assert (Hi : idx !! root_identity root = Some (root_object_index_result r)) by (apply Hidx; eauto).
  rewrite Hi. unfold reuse_root. rewrite Ho, bool_decide_true by done. cbn [negb].
  apply lookup_lt_Some in Ho as Hlt. do 3 f_equal. destruct lm' as [g roots scope]; cbn in *.
  f_equal; [rewrite Hroots; apply record_root_idempotent|].
  set (b := match policy with Local => false | Global => true end || lm_global (linker_metadata o)).
  destruct b eqn:Eb; [|done]. apply record_global_member, Hsc; [done|].
  apply (lw_scope _ Hlm). exists o. split; [done|]. unfold b in Eb. destruct policy; [by left|].
  right. cbn. rewrite Hroots. apply record_root_global. by right.
Qed.
End append_theorems.

(** *** Witnesses: the cycle of DependencyLoader, opened into an empty map *)
Definition empty_link_map : Elf32LinkMap :=
  {| lmap_graph := {| objects := [] |}; lmap_roots := []; lmap_global_scope_objects := [] |}.

Notation cycle_append max_objects :=
  (append_elf32_link_map_root cycle_provider (cycle_options max_objects) empty_memory tt
     empty_link_map cycle_root Global).

Lemma append_elf32_link_map_root_success_witness :
  exists r lm' m', cycle_append 4 = (Ok r, lm', m', tt) /\
    lmap_global_scope_objects lm' = [0%nat] /\ edge_lists (lmap_graph lm') = [[1]; [0]]%nat /\
    root_appended cycle_provider (cycle_options 4) empty_memory empty_link_map cycle_root Global r m' lm'.
Proof.
  assert (Hok : match cycle_append 4 with
    | (Ok r, lm', _, _) =>
        (lmap_global_scope_objects lm', edge_lists (lmap_graph lm')) = ([0%nat], [[1]; [0]]%nat)
    | _ => False end) by (vm_compute; reflexivity).
  destruct (cycle_append 4) as [[[[r|f] lm'] m'] []] eqn:E; [|destruct Hok].
  exists r, lm', m'. injection Hok as H1 H2. split; [reflexivity|]. split; [exact H1|]. split; [exact H2|].
  refine (append_elf32_link_map_root_success cycle_provider (cycle_options 4) empty_memory tt
    empty_link_map cycle_root Global r lm' m' tt empty_memory_wf (Nat.le_0_l 1) _ cycle_provider_bytes _ E).
  - apply cycle_options_typed. split; vm_compute; congruence.
  - apply needing_image_bytes. split; vm_compute; congruence.
Defined.


Lemma append_elf32_link_map_root_idempotent_witness :
  exists r lm' m', cycle_append 4 = (Ok r, lm', m', tt) /\
    append_elf32_link_map_root cycle_provider (cycle_options 4) m' tt lm' cycle_root Global =
      (Ok (AppendSuccess (root_object_index_result r) true), lm', m', tt).
Proof.
  assert (Hok : match cycle_append 4 with (Ok _, _, _, _) => True | _ => False end)
    by (vm_compute; exact I).
  destruct (cycle_append 4) as [[[[r|f] lm'] m'] []] eqn:E; [|destruct Hok].
  exists r, lm', m'. split; [reflexivity|].
  refine (append_elf32_link_map_root_idempotent cycle_provider (cycle_options 4) empty_memory tt
    empty_link_map cycle_root Global r lm' m' tt empty_memory_wf (Nat.le_0_l 1) _ cycle_provider_bytes _ E).
  - apply cycle_options_typed. split; vm_compute; congruence.
  - apply needing_image_bytes. split; vm_compute; congruence.
Defined.
