(* ===== verification/Closure.v ===== *)
(** * The linker acts on guest memory through four operations

    Loading, rolling back, sealing, relocating and appending change a
    [MappedGuestMemory] only by [map], [protect], [unmap] and [write]. A property
    that each of the four keeps is therefore kept by all of them, whatever their
    arguments and however they end: [OpClosed] is that interface, and coherence of
    the host protections with the guest permissions is an instance of it. *)

From S2P Require Import Prelude Bytes GuestMemory MappedMemory AddressView LoadPlan Loader VaAllocator Placement Relro DependencyResolver Graph SymbolLookup Relocation DependencyLoader LinkMap.

Class OpClosed (P : MappedGuestMemory.t -> Prop) : Prop := {
  closed_map m a n p : P m -> P (MappedGuestMemory.map m a n p).2;
  closed_protect m a n p : P m -> P (MappedGuestMemory.protect m a n p).2;
  closed_unmap m a n : P m -> P (MappedGuestMemory.unmap m a n).2;
  closed_write m a bs : P m -> P (MappedGuestMemory.write m a bs).2;
}.

Section closure.
Context (P : MappedGuestMemory.t -> Prop) {HC : OpClosed P}.
Implicit Types (m : MappedGuestMemory.t).

Lemma seq_ops_closed {S A} (proj : S -> MappedGuestMemory.t) (op : A -> S -> bool * S) l s :
  (forall x s, P (proj s) -> P (proj (op x s).2)) -> P (proj s) -> P (proj (seq_ops op l s).2).
Proof.
  intros Hop. revert s; induction l as [|x l IH]; intros s Hs; cbn; [done|].
  specialize (Hop x s Hs). destruct (op x s) as [[] s']; [by apply IH|done].
Qed.

Lemma foldl_closed {A} (f : MappedGuestMemory.t -> A -> MappedGuestMemory.t) l m :
  (forall m x, P m -> P (f m x)) -> P m -> P (foldl f m l).
Proof. intros Hf. revert m; induction l as [|x l IH]; intros m Hm; cbn; auto. Qed.

(** ** Loading one image *)
Lemma rollback_closed m l : P m -> P (rollback m l).
Proof. intros Hm. apply foldl_closed; [|done]. intros m1 r. apply closed_unmap. Qed.

Lemma commit_segments_closed m img planned : P m -> P (commit_segments m img planned).2.
Proof.
  intros Hm. unfold commit_segments.
  assert (H1 : P (seq_ops map_segment planned (m, [])).2.1).
  { apply (seq_ops_closed (fun s : MappedGuestMemory.t * list (Z * Z) => s.1)); [|done].
    intros p [m1 rs] H1. cbn. pose proof (closed_map m1 (pl_mapping_start p) (mapping_size p)
      initialization_permissions H1) as H2.
    destruct (MappedGuestMemory.map _ _ _ _) as [[] m2]; exact H2. }
  destruct (seq_ops map_segment planned (m, [])) as [[] [m1 rs]]; cbn in *; [|by apply rollback_closed].
  assert (H2 : P (seq_ops (write_segment img) planned m1).2).
  { apply (seq_ops_closed id); [|done]. intros p m2 Hm2. unfold id, write_segment in *.
    assert (H3 : P (if seg_file_size (pl_raw p) =? 0 then (true, m2)
      else MappedGuestMemory.write m2 (pl_guest_address p)
             (subspan img (seg_offset (pl_raw p)) (seg_file_size (pl_raw p)))).2)
      by (destruct (_ =? 0); [done|by apply closed_write]).
    destruct (if seg_file_size _ =? 0 then _ else _) as [[] m3]; cbn in *; [|done].
    apply (seq_ops_closed id); [|done]. intros a m4 Hm4. by apply closed_write. }
  destruct (seq_ops (write_segment img) planned m1) as [[] m2]; cbn in *; [|by apply rollback_closed].
  assert (H3 : P (seq_ops protect_segment planned m2).2).
  { apply (seq_ops_closed id); [|done]. intros p m3 Hm3. by apply closed_protect. }
  destruct (seq_ops protect_segment planned m2) as [[] m3]; cbn in *; [done|by apply rollback_closed].
Qed.

Lemma load_elf32_closed m img base : P m -> P (load_elf32 m img base).2.
Proof.
  intros Hm. unfold load_elf32. destruct (prepare_load _ _ _) as [[r pl]|e]; [|done].
  pose proof (commit_segments_closed m img pl Hm) as H.
  by destruct (commit_segments m img pl) as [[e|] m'].
Qed.

(** ** RELRO *)
Lemma rollback_pages_closed m l : P m -> P (rollback_pages m l).2.
Proof.
  revert m; induction l as [|p l IH]; intros m Hm; cbn; [done|].
  pose proof (closed_protect m (rp_address p) (MappedGuestMemory.page_size m)
    (rp_original_permissions p) Hm) as H.
  destruct (MappedGuestMemory.protect _ _ _ _) as [ok m1]; cbn in H.
  destruct (_ || _); [done|by apply IH].
Qed.

Lemma seal_pages_closed m pages changed : P m -> P (seal_pages m pages changed).2.
Proof.
  revert m changed; induction pages as [|p pages IH]; intros m changed Hm; cbn; [done|].
  destruct (negb _); [by apply IH|].
  pose proof (closed_protect m (rp_address p) (MappedGuestMemory.page_size m) MemoryPermission.Read Hm) as H.
  destruct (MappedGuestMemory.protect _ _ _ _) as [[] m1]; cbn in *; [by apply IH|].
  pose proof (rollback_pages_closed m1 (rev changed) H) as H1.
  by destruct (rollback_pages m1 (rev changed)) as [[q|] m2].
Qed.

Lemma seal_closed m l max_pages : P m -> P (seal_elf32_gnu_relro m l max_pages).2.
Proof.
  intros Hm. unfold seal_elf32_gnu_relro. destruct (lr_relro_segments l) as [|s ss]; [done|].
  destruct (plan_relro _ _ _) as [pages|e]; [|done].
  pose proof (seal_pages_closed m pages [] Hm) as H. by destruct (seal_pages m pages []) as [[f|] m'].
Qed.

(** ** Graph loads and appends *)
Lemma load_object_closed m o options rd : P m -> P (load_object m o options rd).2.
Proof.
  intros Hm. unfold load_object. destruct (plan_elf32_load _ _) as [plan|e]; [|done].
  assert (Hl : forall base, P (match load_elf32 m (image o) base with
    | (Err e, memory) =>
        (Err (with_load_errors Elf32DynamicPlacementError.None e
                (failure Elf32DependencyLoadError.LoadFailed (identity o))), memory)
    | (Ok l, memory) => (Ok (set_load o l), memory) end).2).
  { intros base. pose proof (load_elf32_closed m (image o) base Hm) as H.
    by destruct (load_elf32 _ _ _) as [[l|e] m']. }
  destruct (plan_type plan).
  - by destruct rd; [|apply (Hl None)].
  - destruct (place_elf32_dynamic _ _ _) as [base|[p e]]; [apply (Hl (Some base))|done].
Qed.

Lemma rollback_load_closed m l : P m -> P (rollback_load m l).2.
Proof.
  intros Hm. unfold rollback_load. generalize true. revert m Hm.
  induction (rev (lr_segments l)) as [|s ss IH]; intros m Hm b; cbn; [done|].
  destruct (_ <? _); [by apply IH|].
  pose proof (closed_unmap m (ls_mapping_start s) (ls_mapping_size s) Hm) as H.
  destruct (MappedGuestMemory.unmap _ _ _) as [ok m1]. by apply IH.
Qed.

Lemma rollback_failure_closed m loads f : P m -> P (rollback_failure m loads f).2.
Proof.
  intros Hm. unfold rollback_failure.
  assert (H : P (rollback_loads m loads).2).
  { unfold rollback_loads. generalize true. revert m Hm.
    induction (rev loads) as [|l ls IH]; intros m Hm b; cbn; [done|].
    pose proof (rollback_load_closed m l Hm) as H. destruct (rollback_load m l) as [ok m1]. by apply IH. }
  by destruct (rollback_loads m loads) as [[] m1].
Qed.
End closure.

(** Computations of the graph loader that keep a property of guest memory. *)
Section graph.
Context (P : MappedGuestMemory.t -> Prop) {HC : OpClosed P}.
Context {W : Type} (provider : Elf32DependencyProvider W) (options : Elf32DependencyLoadOptions).

Definition keeps {A} (p : load_m W A) : Prop := forall c, P (gc_memory c) -> P (gc_memory (p c).2).

Lemma keeps_bind {A B} (p : load_m W A) (k : A -> load_m W B) :
  keeps p -> (forall a, keeps (k a)) -> keeps (p ≫= k).
Proof.
  intros Hp Hk c Hc. unfold mbind, load_m_bind. specialize (Hp c Hc).
  destruct (p c) as [[a|e] c']; [by apply Hk|done].
Qed.

Lemma keeps_modify g : (forall c, gc_memory (g c) = gc_memory c) -> keeps (modify g).
Proof. intros Hg c Hc. cbn. by rewrite Hg. Qed.

Lemma keeps_pure {A} (r : result load_failure A) : keeps (fun c => (r, c)).
Proof. by intros c Hc. Qed.

Lemma keeps_get : keeps get_context.
Proof. by intros c Hc. Qed.

Lemma keeps_at {A} (o : option A) : keeps (or_stuck o).
Proof. by destruct o; intros c Hc. Qed.

Lemma keeps_object_at i : keeps (object_at i).
Proof. intros c Hc. unfold object_at, mbind, load_m_bind, get_context. by destruct (gc_objects c !! i). Qed.

Lemma keeps_state_at i : keeps (state_at_index i).
Proof. intros c Hc. unfold state_at_index, mbind, load_m_bind, get_context. by destruct (gc_states c !! i). Qed.

Lemma keeps_for_each {A} (body : A -> load_m W unit) l : (forall x, keeps (body x)) -> keeps (for_each body l).
Proof. intros Hb. induction l; cbn; [apply keeps_pure|]. by apply keeps_bind. Qed.

Lemma keeps_on_behalf_of nm (p : load_m W unit) : keeps p -> keeps (on_behalf_of nm p).
Proof. intros Hp c Hc. specialize (Hp c Hc). unfold on_behalf_of. by destruct (p c) as [[a|e] c']. Qed.

Ltac keep :=
  repeat first
    [ apply keeps_pure | apply keeps_get | apply keeps_object_at | apply keeps_state_at | apply keeps_at
    | (apply keeps_modify; done) | apply keeps_on_behalf_of | (apply keeps_bind; [|intros ?])
    | case_match ].

Lemma keeps_load_step i rd : keeps (load_step options i rd).
Proof.
  intros c Hc. unfold load_step, object_at, get_context, mbind, load_m_bind. cbn.
  destruct (gc_objects c !! i) as [o|]; [|done]. cbn.
  pose proof (load_object_closed P (gc_memory c) o options rd Hc) as H.
  by destruct (load_object _ _ _ _) as [[o'|f] m'].
Qed.

Lemma keeps_inspect_step i : keeps (inspect_step options i).
Proof. unfold inspect_step, throw, mret, load_m_ret. keep. Qed.

Lemma keeps_acquire i : keeps (acquire_dependencies provider options i).
Proof. unfold acquire_dependencies, throw, mret, load_m_ret. keep. Qed.

Lemma keeps_link process i d : (forall j, keeps (process j)) -> keeps (link_dependency options process i d).
Proof. intros Hp. unfold link_dependency, push_edge, throw, mret, load_m_ret. keep; apply Hp. Qed.

Lemma keeps_process fuel i depth rd : keeps (process_object provider options fuel i depth rd).
Proof.
  revert i depth rd; induction fuel as [|fuel IH]; intros i depth rd; cbn [process_object]; [apply keeps_pure|].
  apply keeps_bind; [apply keeps_state_at|intros state]. destruct state; [|apply keeps_pure..].
  apply keeps_bind; [apply keeps_object_at|intros o]. destruct (_ <? _); [apply keeps_pure|].
  apply keeps_bind; [by apply keeps_modify|intros _].
  apply keeps_bind; [apply keeps_load_step|intros _].
  apply keeps_bind; [apply keeps_inspect_step|intros _].
  apply keeps_bind; [apply keeps_acquire|intros ordered].
  apply keeps_bind; [|intros _; by apply keeps_modify].
  apply keeps_for_each. intros d. apply keeps_link. intros j. apply IH.
Qed.

Lemma append_closed m w lm root policy :
  P m -> P (append_elf32_link_map_root provider options m w lm root policy).1.2.
Proof.
  intros Hm. unfold append_elf32_link_map_root. destruct (check_root options root ;; _) as [[idx seen]|f]; [|done].
  destruct (idx !! _) as [i|]; [by destruct (reuse_root _ _ _ _ _)|]. destruct (_ <=? _); [done|].
  unfold load_new_root.
  pose proof (keeps_process (process_fuel options) (length (objects (lmap_graph lm))) 0 false
    (root_context m w (objects (lmap_graph lm)) idx root) Hm) as H.
  destruct (process_object _ _ _ _ _ _ _) as [[u|f] c]; [done|]. cbn in H.
  pose proof (rollback_failure_closed P (gc_memory c) (gc_successful_loads c) f H) as H1.
  by destruct (rollback_failure _ _ _) as [f' m'].
Qed.
End graph.

(** ** The host window *)

(** The host protections are the guest permissions, and host calls succeed. *)
Definition hosted (m : MappedGuestMemory.t) : Prop := host_coherent m /\ host_reliable m.

Lemma hosted_fill m first count state prot bytes calls :
  hosted m -> prot = (if page_is_mapped state then MappedGuestMemory.host_protection (decode_permissions state)
                      else PROT_NONE) -> Forall (eq HostOk) calls ->
  hosted (MappedGuestMemory.mk (MappedGuestMemory.reservation_ m) (MappedGuestMemory.page_size_ m)
    (fill_n first count state (MappedGuestMemory.page_state_ m)) bytes
    (fill_n first count prot (MappedGuestMemory.host_prot m)) calls).
Proof.
  intros [Hc _] -> Hr. split; [|done]. intros i. unfold MappedGuestMemory.state_at; cbn.
  rewrite !cell_fill_n. case_decide; [done|apply Hc].
Qed.

(** A reliable host changes all the pages it is asked to. *)
Lemma reliable_tail m : host_reliable m -> Forall (eq HostOk) (tail (MappedGuestMemory.host_calls m)).
Proof. unfold host_reliable. by destruct 1. Qed.

Lemma mprotect_eq m f c p :
  host_reliable m ->
  MappedGuestMemory.mprotect m f c p =
    (true, MappedGuestMemory.mk (MappedGuestMemory.reservation_ m) (MappedGuestMemory.page_size_ m)
      (MappedGuestMemory.page_state_ m) (MappedGuestMemory.host_bytes m)
      (fill_n f c p (MappedGuestMemory.host_prot m)) (tail (MappedGuestMemory.host_calls m))).
Proof.
  unfold host_reliable, MappedGuestMemory.mprotect. intros Hr.
  destruct (MappedGuestMemory.host_calls m) as [|o rest]; [done|]. by apply Forall_cons in Hr as [<- _].
Qed.

Lemma madvise_eq m f c :
  host_reliable m ->
  MappedGuestMemory.madvise_dontneed m f c =
    (true, MappedGuestMemory.mk (MappedGuestMemory.reservation_ m) (MappedGuestMemory.page_size_ m)
      (MappedGuestMemory.page_state_ m)
      (discard (f * MappedGuestMemory.page_size_ m) (c * MappedGuestMemory.page_size_ m)
         (MappedGuestMemory.host_bytes m))
      (MappedGuestMemory.host_prot m) (tail (MappedGuestMemory.host_calls m))).
Proof.
  unfold host_reliable, MappedGuestMemory.madvise_dontneed. intros Hr.
  destruct (MappedGuestMemory.host_calls m) as [|o rest]; [done|]. by apply Forall_cons in Hr as [<- _].
Qed.

Lemma encoded_protection p :
  MappedGuestMemory.valid_permissions p = true ->
  MappedGuestMemory.host_protection p =
    (if page_is_mapped (encode_page_state p)
     then MappedGuestMemory.host_protection (decode_permissions (encode_page_state p)) else PROT_NONE).
Proof. intros Hp%valid_permissions_shape. by rewrite encode_mapped, decode_encode. Qed.

#[export] Instance hosted_closed : OpClosed hosted.
Proof.
  split; intros m a n.
  - intros p Hm. unfold MappedGuestMemory.map. destruct (_ || _) eqn:E; [done|]. bool_prop.
    destruct (existsb _ _); [done|]. rewrite mprotect_eq by apply Hm. cbn; unfold MappedGuestMemory.set_page_states; cbn.
    apply (hosted_fill m); [done|by apply encoded_protection|apply reliable_tail, Hm].
  - intros p Hm. unfold MappedGuestMemory.protect. destruct (_ || _) eqn:E; [done|]. bool_prop.
    destruct (existsb _ _); [done|]. rewrite mprotect_eq by apply Hm. cbn; unfold MappedGuestMemory.set_page_states; cbn.
    apply (hosted_fill m); [done|by apply encoded_protection|apply reliable_tail, Hm].
  - intros Hm. unfold MappedGuestMemory.unmap. destruct (negb _); [done|].
    destruct (existsb _ _); [done|]. rewrite madvise_eq by apply Hm. cbn.
    rewrite mprotect_eq by apply reliable_tail, Hm. cbn; unfold MappedGuestMemory.set_page_states; cbn.
    apply (hosted_fill m); [done|done|]. apply (reliable_tail (MappedGuestMemory.mk 0 0 ∅ ∅ ∅ _)), reliable_tail, Hm.
  - intros Hm. unfold MappedGuestMemory.write. by destruct (negb _).
Qed.

(** So a host access to the window can do what the guest permissions allow, and
    nothing else. *)
Lemma hosted_writable m x :
  mapped_wf m -> hosted m ->
  negb (Z.land (cell (MappedGuestMemory.host_prot m) (MappedGuestMemory.page_index m x)) PROT_WRITE =? 0)
  = page_allows m x MemoryPermission.Write.
Proof.
  intros Hwf [Hc _]. rewrite page_allows_state, Hc. unfold MappedGuestMemory.page_index.
  destruct (page_is_mapped _) eqn:E; [|done].
  apply state_mapped_shape in E as (_ & p & Hsh & ->); [|done]. rewrite decode_encode by done.
  by destruct Hsh as [-> | [-> | [-> | [-> | ->]]]].
Qed.
