(* ===== verification/Confinement.v ===== *)
(** * Confinement of guest execution and relocation

    Guest code, host services and relocation change guest memory only where the
    guest page table says it is writable, and never change the page table. The
    data callbacks of the CPU go through [write], which checks; a fastmem store goes
    straight to the host window, where the host protection decides. The host
    protections are the guest permissions ([hosted]), so both ways are confined. *)

From S2P Require Import Prelude Bytes GuestMemory MappedMemory AddressView Cpu ServiceDispatch AndroidLog Graph Lifecycle SymbolLookup Relocation Closure.

Import MappedGuestMemory.

(** ** The relation *)
Definition writable_at (m : t) (x : Z) : bool := page_allows m x MemoryPermission.Write.

(** Same page table and host state; bytes differ only on writable pages. *)
Record writes_only (m m' : t) : Prop := {
  wo_reservation : reservation_ m' = reservation_ m;
  wo_page_size : page_size_ m' = page_size_ m;
  wo_states : page_state_ m' = page_state_ m;
  wo_prot : host_prot m' = host_prot m;
  wo_calls : host_calls m' = host_calls m;
  wo_bytes x : is_byte (cell (host_bytes m') x);
  wo_changed x : cell (host_bytes m') x <> cell (host_bytes m) x -> writable_at m x = true;
}.

Definition memory_ok (m : t) : Prop := mapped_wf m /\ hosted m.

Definition confined (m m' : t) : Prop := memory_ok m -> writes_only m m'.

Lemma writes_only_page m m' : writes_only m m' ->
  (forall x, is_mapped m' x = is_mapped m x) /\ (forall x, permissions m' x = permissions m x).
Proof.
  intros [_ Hp Hs _ _ _ _]. unfold is_mapped, permissions, state_at, page_index.
  split; intros x; by rewrite Hp, Hs.
Qed.

Lemma writes_only_writable m m' x : writes_only m m' -> writable_at m' x = writable_at m x.
Proof.
  intros [Hm Hp]%writes_only_page. unfold writable_at, page_allows. by rewrite Hm, Hp.
Qed.

Lemma writes_only_ok m m' : memory_ok m -> writes_only m m' -> memory_ok m'.
Proof.
  intros [Hwf [Hc Hr]] Hw. pose proof (writes_only_page _ _ Hw) as [Hm Hp].
  destruct Hw as [Hrv Hps Hst Hpr Hca Hb Hch]. split; [split|split].
  - rewrite Hps. apply Hwf.
  - rewrite Hps. apply Hwf.
  - intros i. unfold state_at. rewrite Hst, Hps. apply Hwf.
  - done.
  - intros x Hx. rewrite Hm in Hx.
    destruct (decide (cell (host_bytes m') x = cell (host_bytes m) x)) as [->|Hne].
    + by apply Hwf.
    + apply Hch in Hne. unfold writable_at, page_allows in Hne. by rewrite Hx in Hne.
  - intros i. rewrite Hpr. unfold state_at. rewrite Hst. apply Hc.
  - unfold host_reliable. by rewrite Hca.
Qed.

#[export] Instance confined_preorder : PreOrder confined.
Proof.
  split.
  - intros m [Hwf _]. split; try done. apply Hwf.
  - intros m1 m2 m3 H12 H23 Hm. specialize (H12 Hm).
    specialize (H23 (writes_only_ok _ _ Hm H12)).
    pose proof (fun x => writes_only_writable _ _ x H12) as Hwr.
    destruct H12 as [A1 A2 A3 A4 A5 A6 A7], H23 as [B1 B2 B3 B4 B5 B6 B7].
    split; try congruence; [done|]. intros x Hx.
    destruct (decide (cell (host_bytes m2) x = cell (host_bytes m1) x)) as [He|Hne]; [|by apply A7].
    rewrite <- Hwr. apply B7. congruence.
Qed.

(** What the address view sees of it. *)
Lemma writes_only_view m m' x :
  writes_only m m' ->
  (page_at m' x).1 = (page_at m x).1 /\ (writable_at m x = false -> page_at m' x = page_at m x).
Proof.
  intros Hw. pose proof (writes_only_page _ _ Hw) as [Hm Hp]. unfold page_at; cbn. rewrite Hm, Hp.
  split; [done|]. intros Hx. f_equal.
  destruct (decide (cell (host_bytes m') x = cell (host_bytes m) x)) as [|Hne]; [done|].
  apply (wo_changed _ _ Hw) in Hne. congruence.
Qed.

(** ** Checked writes and window accesses *)
Lemma write_confined m a bs :
  is_u32 a -> is_bytes bs -> Z.of_nat (length bs) <= span_max -> confined m (write m a bs).2.
Proof.
  intros Ha Hbs Hlen [Hwf Hh]. destruct (write m a bs) as [[] m'] eqn:E; cbn; cycle 1.
  { assert (m' = m) as -> by (unfold write in E; by destruct (negb _); simplify_eq).
    apply confined_preorder. by split. }
  pose proof (mapped_write_wf m a bs m' Hwf Hbs Ha Hlen E) as Hwf'.
  unfold write in E. destruct (valid_access _ _ _ _) eqn:Ev; cbn in E; simplify_eq.
  split; try done; cbn; [apply Hwf'|]. intros x. rewrite cell_poke.
  case_decide as Hx; [intros _|done].
  assert (Hn : 0 < Z.of_nat (length bs)) by lia.
  rewrite valid_access_bytes in Ev by (done || apply Hwf). rewrite forallb_elem in Ev.
  specialize (Ev x). rewrite elem_of_seqZ in Ev. specialize (Ev ltac:(lia)).
  by apply andb_true_iff in Ev as [_ Ev].
Qed.

(** A store through the host window: the host keeps every byte of a page without
    PROT_WRITE, and the store touches nothing but bytes. *)
Record window_access (m m' : t) : Prop := {
  wa_reservation : reservation_ m' = reservation_ m;
  wa_page_size : page_size_ m' = page_size_ m;
  wa_states : page_state_ m' = page_state_ m;
  wa_prot : host_prot m' = host_prot m;
  wa_calls : host_calls m' = host_calls m;
  wa_bytes x : is_byte (cell (host_bytes m') x) \/ cell (host_bytes m') x = cell (host_bytes m) x;
  wa_protected x : Z.land (cell (host_prot m) (page_index m x)) PROT_WRITE = 0 ->
    cell (host_bytes m') x = cell (host_bytes m) x;
}.

Lemma window_access_confined m m' : window_access m m' -> confined m m'.
Proof.
  intros [H1 H2 H3 H4 H5 H6 H7] [Hwf Hh]. split; try done.
  - intros x. destruct (H6 x) as [Hb|Hb]; [done|rewrite Hb; apply Hwf].
  - intros x Hne. unfold writable_at. rewrite <- (hosted_writable m x Hwf Hh).
    apply negb_true_iff, Z.eqb_neq. intros Hz. by apply Hne, H7.
Qed.

(** ** Guest code *)

(** What is assumed of the JIT: callback addresses are 32-bit, stores have at most
    eight bytes, and fastmem accesses are window accesses. *)
Fixpoint prog_confined {J} (p : jit_prog t J) : Prop :=
  match p with
  | JitDone _ => True
  | JitReadCode _ k => forall v, prog_confined (k v)
  | JitRead _ _ k => forall v, prog_confined (k v)
  | JitWrite size vaddr _ k => is_u32 vaddr /\ (size <= 8)%nat /\ prog_confined k
  | JitSvc _ k | JitInterpreterFallback k | JitException k => prog_confined k
  | JitFastmem access k => (forall m, window_access m (access m).2) /\ forall v, prog_confined (k v)
  end.

Section guest.
Context {I : Type} (jit_new : option Z -> I) (jit_step : @Jit I -> jit_prog t (@Jit I)).
Hypothesis Hjit : forall j, prog_confined (jit_step j).

Lemma split_bytes_ok size value : is_bytes (split_bytes size value) /\ length (split_bytes size value) = size.
Proof.
  unfold split_bytes. split; [|by rewrite length_fmap, length_seq].
  apply Forall_fmap, Forall_forall. intros i _. apply u8_range.
Qed.

Lemma MemoryWrite_confined size vaddr value e m :
  is_u32 vaddr -> (size <= 8)%nat -> confined m (MemoryWrite size vaddr value (e, m)).2.
Proof.
  intros Ha Hn. pose proof (split_bytes_ok size value) as [Hb Hl].
  pose proof (write_confined m vaddr (split_bytes size value) Ha Hb) as H.
  rewrite Hl in H. specialize (H ltac:(unfold span_max; lia)). cbn.
  by destruct (write m vaddr (split_bytes size value)) as [[] m'].
Qed.

Lemma run_prog_confined (p : jit_prog t (@Jit I)) e m : prog_confined p -> confined m (run_prog p (e, m)).2.2.
Proof.
  revert e m. induction p as [j|va k IH|size va k IH|size va v k IH|i k IH|k IH|k IH|acc k IH]; intros e m Hp;
    cbn [run_prog prog_confined] in *.
  - reflexivity.
  - cbn. destruct (read_code m va 4); by apply IH.
  - cbn. destruct (read m va _); by apply IH.
  - destruct Hp as (Ha & Hn & Hk). pose proof (MemoryWrite_confined size va v e m Ha Hn) as H.
    destruct (MemoryWrite size va v (e, m)) as [e1 m1]. cbn in H. etransitivity; [exact H|by apply IH].
  - by apply IH.
  - by apply IH.
  - by apply IH.
  - destruct Hp as [Ha Hk]. cbn. pose proof (window_access_confined _ _ (Ha m)) as H.
    destruct (acc m) as [v m1]. cbn in H. etransitivity; [exact H|by apply IH].
Qed.

Lemma loop_state_rule {S R} (Q : S -> Prop) (QR : R -> Prop) p (step : S -> S + R) s :
  (forall s, Q s -> match step s with inl s' => Q s' | inr r => QR r end) -> Q s ->
  match loop p step s with inl s' => Q s' | inr r => QR r end.
Proof.
  intros Hstep. rewrite loop_loop_nat. revert s; induction (Pos.to_nat p) as [|n IH]; intros s Hs; cbn; [done|].
  specialize (Hstep s Hs). destruct (step s) as [s'|r]; [by apply IH|done].
Qed.

Lemma execute_confined m request : confined m (execute jit_new jit_step m request).2.
Proof.
  unfold execute. cbn [snd].
  pose proof (loop_state_rule (fun s => confined m (xs_mem s)) (fun s => confined m (xs_mem s)) exec_fuel
    (exec_step jit_step request) (initial_state jit_new m request)) as H.
  assert (Hq : match loop exec_fuel (exec_step jit_step request) (initial_state jit_new m request) with
               | inl s' => confined m (xs_mem s') | inr r => confined m (xs_mem r) end).
  { apply H; [|reflexivity]. clear H. intros s Hs. unfold exec_step. destruct (_ && _); [|done].
    pose proof (run_prog_confined (jit_step (xs_jit s)) (xs_env s) (xs_mem s) (Hjit _)) as Hr.
    destruct (run_prog _ _) as [j [e m']]. cbn in *. by etransitivity. }
  by destruct (loop _ _ _).
Qed.

(** Constructors. *)
Lemma init_calls_confined options m cs : confined m (execute_elf32_init_calls jit_new jit_step options m cs).2.
Proof.
  unfold execute_elf32_init_calls. destruct (init_options_bad options); [reflexivity|].
  generalize 0 at 1 as index. generalize 0 as completed. revert m.
  induction cs as [|c cs IH]; intros m completed index; cbn [run_init_calls]; [reflexivity|].
  destruct (call_address_bad _ _); [reflexivity|].
  pose proof (execute_confined m (init_request options (call_function c))) as H.
  destruct (execute _ _ _ _) as [r m1]. cbn in H.
  destruct (er_memory_fault r); [done|]. destruct (er_exception_raised r); [done|].
  destruct (negb _); [done|]. etransitivity; [exact H|apply IH].
Qed.

(** Services: a handler is host code, and must keep to the guest's permissions
    itself. *)
Context {W : Type} (handler : A32HostServiceHandler t W).
Hypothesis Hhandler : forall m i regs cpsr w, confined m (ho_memory (handler m i regs cpsr w)).

Lemma service_step_confined max stop m request result remaining w i :
  match service_step handler max stop m request result remaining w i with
  | inl s => confined m (ds_memory s)
  | inr d => confined m d.1.2
  end.
Proof.
  unfold service_step. destruct (_ <=? _); [reflexivity|].
  pose proof (Hhandler m i (dr_regs result) (dr_cpsr result) w) as H.
  destruct (handler m i _ _ w) as [d m1 regs cpsr w1]. cbn in *.
  destruct d; [|done..]. destruct (match stop with Some _ => _ | None => _ end); [done|].
  destruct (remaining =? 0); [by destruct stop|done].
Qed.

Lemma dispatch_confined m request max w r m' w' :
  execute_a32_with_services jit_new jit_step handler m request max w = Some (r, m', w') -> confined m m'.
Proof.
  unfold execute_a32_with_services. intros H.
  pose proof (loop_state_rule (fun s => confined m (ds_memory s)) (fun d => confined m d.1.2) dispatch_fuel
    (dispatch_step jit_new jit_step handler max (rq_stop_pc request)) (initial_dispatch m request w)) as Hl.
  destruct (loop _ _ _) as [s|d]; [done|]. injection H as ->. apply Hl; [clear Hl|reflexivity].
  intros s Hs. unfold dispatch_step.
  match goal with |- context [execute jit_new jit_step (ds_memory s) ?rq] =>
    pose proof (execute_confined (ds_memory s) rq) as Hx;
    destruct (execute jit_new jit_step (ds_memory s) rq) as [cpu m1] end.
  cbn in Hx. assert (H1 : confined m m1) by by etransitivity.
  destruct (_ <? _); [done|]. destruct (er_memory_fault cpu); [done|].
  destruct (er_svc_immediate cpu) as [i|]; cycle 1.
  { destruct (er_exception_raised cpu); [done|]. destruct (er_stop_pc_reached cpu); [done|].
    by destruct (rq_stop_pc request). }
  match goal with |- context [service_step handler max ?st m1 ?rq ?rs ?rem ?w1 i] =>
    pose proof (service_step_confined max st m1 rq rs rem w1 i) as Hst;
    destruct (service_step handler max st m1 rq rs rem w1 i) end; by etransitivity.
Qed.
End guest.

(** The log service only reads. *)
Lemma log_write_confined {W} (service : @A32AndroidLogWriteService W) m i regs cpsr w :
  confined m (ho_memory (log_write_handle service m i regs cpsr w)).
Proof. unfold log_write_handle. repeat case_match; reflexivity. Qed.

(** ** Relocation *)
Definition place_ok (w : Elf32RelocationWrite) : Prop := is_u32 (rw_place w).

Lemma write_word_confined m p v : is_u32 p -> confined m (write_word m p v).2.
Proof.
  intros Hp. apply write_confined; [done|apply encode_u32_le_bytes|]. cbn. unfold span_max. lia.
Qed.

Lemma restore_word_confined m p v : is_u32 p -> confined m (restore_word m p v).2.
Proof.
  intros Hp. unfold restore_word. pose proof (write_word_confined m p v Hp) as H.
  by destruct (write_word m p v) as [[] m'].
Qed.

Lemma rollback_writes_confined ws m b f :
  Forall place_ok ws -> confined m (rollback_writes m ws b f).2.
Proof.
  revert m b f; induction ws as [|w ws IH]; intros m b f Hw; cbn [rollback_writes]; [reflexivity|].
  apply Forall_cons in Hw as [Hp Hw].
  pose proof (restore_word_confined m (rw_place w) (rw_original_word w) Hp) as H.
  destruct (restore_word _ _ _) as [[] m1]; (etransitivity; [exact H|by apply IH]).
Qed.

Lemma fail_write_confined m w applied :
  place_ok w -> Forall place_ok applied -> confined m (fail_write m w applied).2.
Proof.
  intros Hp Ha. unfold fail_write.
  assert (H : confined m (if bool_decide (read_word m (rw_place w) = Some (rw_original_word w)) then (true, m)
    else restore_word m (rw_place w) (rw_original_word w)).2)
    by (case_bool_decide; [reflexivity|by apply restore_word_confined]).
  destruct (if bool_decide _ then _ else _) as [restored m1]. cbn in H.
  pose proof (rollback_writes_confined applied m1 (negb restored) (if restored then None else Some w) Ha) as H1.
  destruct (rollback_writes _ _ _ _) as [[rf ff] m2]. cbn in *. by etransitivity.
Qed.

Lemma apply_writes_confined m applied pending :
  Forall place_ok applied -> Forall place_ok pending -> confined m (apply_writes m applied pending).2.
Proof.
  revert m applied; induction pending as [|w pending IH]; intros m applied Ha Hp; cbn [apply_writes]; [reflexivity|].
  apply Forall_cons in Hp as [Hw Hp].
  pose proof (write_word_confined m (rw_place w) (rw_final_word w) Hw) as H.
  destruct (write_word _ _ _) as [[] m1]; cbn in H.
  - etransitivity; [exact H|]. apply IH; [by constructor|done].
  - pose proof (fail_write_confined m1 w applied Hw Ha) as H1.
    destruct (fail_write m1 w applied) as [f m2]. cbn in *. by etransitivity.
Qed.

Lemma relocations_confined m graph i options :
  confined m (apply_elf32_combined_relocations m graph i options).2.
Proof.
  intros Hm. assert (Hw : forall kind ws, prepare_relocations_for_table m graph i options kind = Ok ws ->
    Forall place_ok ws).
  { intros kind ws Hk. apply prepare_ok in Hk as [Hk _]; [|apply Hm].
    eapply Forall_impl; [exact Hk|]. intros w Hp. apply (wp_place _ _ Hp). }
  unfold apply_elf32_combined_relocations.
  destruct (prepare_relocations_for_table m graph i options MainRel) as [main|f] eqn:E1; [|by apply confined_preorder].
  destruct (prepare_relocations_for_table m graph i options PltRel) as [plt|f] eqn:E2; [|by apply confined_preorder].
  destruct (cross_duplicate _ _); [by apply confined_preorder|]. unfold apply_pending_relocations.
  pose proof (apply_writes_confined m [] (main ++ plt) (Forall_nil_2 _)
    (Forall_app_2 _ _ _ (Hw _ _ E1) (Hw _ _ E2)) Hm) as H.
  by destruct (apply_writes _ _ _) as [[f|] m'].
Qed.
