(* ===== verification/Session.v ===== *)
(** * Sessions: the linker pipeline on one guest memory

    How the components fit together. A process opens roots one after the other into
    one link map ([append_elf32_link_map_root]); relocates their objects
    ([apply_elf32_combined_relocations]); seals their RELRO ranges
    ([seal_elf32_gnu_relro]); runs constructors ([execute_elf32_init_calls]) and
    guest functions with host services ([execute_a32_with_services]); and looks
    symbols up. A session is any sequence of these steps, in any order, successful or
    not, on a host whose mprotect and madvise calls succeed ([host_reliable], part of
    [memory_ok]). The theorems say what holds after every one of them. *)

From S2P Require Import Prelude Bytes GuestMemory MappedMemory AddressView LoadPlan Loader VaAllocator Placement Dynamic LinkerMetadata LinkerStrings Relro DependencyResolver Cpu ServiceDispatch AndroidLog Graph Lifecycle SymbolVersioning SymbolLookup Relocation DependencyLoader LinkMap Closure Confinement.

(** ** How memory may evolve *)

(** No page is writable and executable at once. *)
Definition write_xor_execute (m : memory_t) : Prop :=
  forall x p, (page_at m x).1 = Some p ->
    has_permission p MemoryPermission.Write = true -> has_permission p MemoryPermission.Execute = false.

(** A mapped page that is not writable keeps its permission and its byte; a writable
    page keeps its permission or, if it was read-write, becomes read-only. *)
Definition page_evolves (v v' : view) : Prop :=
  forall p, v.1 = Some p ->
    v' = v \/ (has_permission p MemoryPermission.Write = true /\
               (v'.1 = Some p \/ p = 3 /\ v'.1 = Some 1)).

Record evolves (m m' : memory_t) : Prop := {
  ev_page_size : MappedGuestMemory.page_size_ m' = MappedGuestMemory.page_size_ m;
  ev_pages x : page_evolves (page_at m x) (page_at m' x);
}.

#[export] Instance page_evolves_preorder : PreOrder page_evolves.
Proof.
  split; [by left|]. intros v1 v2 v3 H12 H23 p Hp.
  destruct (H12 p Hp) as [->|[Hw [H2|[-> H2]]]]; [by apply H23|..].
  - destruct (H23 p H2) as [->|H3]; [by right; split; [|left]|by right].
  - right. split; [done|]. right. split; [done|].
    destruct (H23 1 H2) as [->|[Hbad _]]; [done|by vm_compute in Hbad].
Qed.

#[export] Instance evolves_preorder : PreOrder evolves.
Proof.
  split.
  - intros m. split; [done|]. intros x. reflexivity.
  - intros m1 m2 m3 [S1 P1] [S2 P2]. split; [congruence|]. intros x. etransitivity; [apply P1|apply P2].
Qed.

(** A page that is mapped and not writable is frozen. *)
Lemma evolves_frozen m m' x p :
  evolves m m' -> (page_at m x).1 = Some p -> has_permission p MemoryPermission.Write = false ->
  page_at m' x = page_at m x.
Proof. intros He Hp Hw. destruct (ev_pages _ _ He x p Hp) as [|[Hbad _]]; [done|congruence]. Qed.

Lemma confined_evolves m m' : memory_ok m -> confined m m' -> evolves m m' /\ memory_ok m'.
Proof.
  intros Hm Hc. specialize (Hc Hm). split; [|by eapply writes_only_ok].
  split; [apply Hc|]. intros x p Hp. destruct (writes_only_view m m' x Hc) as [H1 H2].
  unfold writable_at in H2. rewrite page_at_allows, Hp in H2.
  destruct (has_permission p MemoryPermission.Write); [|by left; apply H2].
  right. split; [done|]. left. by rewrite H1.
Qed.

Lemma kept_evolves m m' :
  MappedGuestMemory.page_size_ m' = MappedGuestMemory.page_size_ m ->
  (forall x, is_Some (page_at m x).1 -> page_at m' x = page_at m x) -> evolves m m'.
Proof. intros Hps Hk. split; [done|]. intros x p Hp. left. apply Hk. by eexists. Qed.

Lemma narrowed_evolves m m' :
  MappedGuestMemory.page_size_ m' = MappedGuestMemory.page_size_ m -> narrowed m m' -> evolves m m'.
Proof.
  intros Hps Hn. split; [done|]. intros x p Hp. destruct (Hn x) as [->|[H3 H1]]; [by left|].
  right. rewrite H3 in Hp. injection Hp as <-. split; [done|]. right. by rewrite H1.
Qed.

(** ** The steps *)
Definition state : Type := memory_t * Elf32LinkMap.

Inductive session_step : state -> state -> Prop :=
| step_append (W : Type) (provider : Elf32DependencyProvider W) options m w lm root policy r lm' m' w' :
    load_options_typed options -> provider_bytes provider -> is_bytes (root_image root) ->
    append_elf32_link_map_root provider options m w lm root policy = (r, lm', m', w') ->
    session_step (m, lm) (m', lm')
| step_relocate m lm i options r m' :
    apply_elf32_combined_relocations m (lmap_graph lm) i options = (r, m') ->
    session_step (m, lm) (m', lm)
| step_seal m lm i o max_pages r m' :
    objects (lmap_graph lm) !! i = Some o ->
    seal_elf32_gnu_relro m (load o) max_pages = (r, m') ->
    session_step (m, lm) (m', lm)
| step_init (I : Type) (jit_new : option Z -> I) (jit_step : @Jit I -> jit_prog memory_t (@Jit I))
    options m lm calls r m' :
    (forall j, prog_confined (jit_step j)) ->
    execute_elf32_init_calls jit_new jit_step options m calls = (r, m') ->
    session_step (m, lm) (m', lm)
| step_call (I W : Type) (jit_new : option Z -> I) (jit_step : @Jit I -> jit_prog memory_t (@Jit I))
    (handler : A32HostServiceHandler memory_t W) request limit m lm w r m' w' :
    (forall j, prog_confined (jit_step j)) ->
    (forall m i regs cpsr w, confined m (ho_memory (handler m i regs cpsr w))) ->
    execute_a32_with_services jit_new jit_step handler m request limit w = Some (r, m', w') ->
    session_step (m, lm) (m', lm)
| step_embedder m lm m' :
    (** anything else the process does: fresh mappings (stacks, return stubs) and
        writes to writable pages *)
    evolves m m' -> memory_ok m' -> write_xor_execute m' -> session_step (m, lm) (m', lm).

Definition session (m : memory_t) (lm : Elf32LinkMap) : Prop :=
  exists m0, memory_ok m0 /\ write_xor_execute m0 /\ rtc session_step (m0, empty_link_map) (m, lm).

(** ** The invariant *)

(** What a session keeps of a loaded segment. *)
Definition byte_kept (p b : Z) (v : view) : Prop :=
  v = (Some p, b) \/ (has_permission p MemoryPermission.Write = true /\
                      (v.1 = Some p \/ p = 3 /\ v.1 = Some 1)).

Definition segment_kept (image : list Z) (m : memory_t) (s : Elf32LoadPlanSegment)
    (ls : Elf32LoadedSegment) : Prop :=
  ls_permissions ls = seg_permissions s /\
  forall x, in_range (ls_mapping_start ls) (ls_mapping_size ls) x ->
    byte_kept (seg_permissions s)
      (if decide (in_range (ls_guest_address ls) (seg_file_size s) x)
       then byte_at image (seg_offset s + (x - ls_guest_address ls)) else 0)
      (page_at m x).

Record image_kept (m : memory_t) (o : Elf32LoadedDependencyObject) : Prop := {
  ik_result : load_result_ok (MappedGuestMemory.page_size_ m) (load o);
  ik_segments : exists plan, plan_elf32_load m (image o) = Ok plan /\
    Forall2 (segment_kept (image o) m) (mapped_segments (plan_segments plan)) (lr_segments (load o));
}.

(** Every object is loaded, completely linked and belongs to a recorded root; its
    names were read from its image, in the memory the image was loaded into. *)
Record object_in_session (m : memory_t) (lm : Elf32LinkMap) (j : nat)
    (o : Elf32LoadedDependencyObject) : Prop := {
  os_edges : edges_complete o;
  os_names : exists m1, image_loaded m1 o /\ names_read m1 o;
  os_image : image_kept m o;
  os_root : exists r, r ∈ lmap_roots lm /\ reaches (lmap_graph lm) (root_object_index r) j;
}.

Record session_ok (m : memory_t) (lm : Elf32LinkMap) : Prop := {
  so_memory : memory_ok m;
  so_wx : write_xor_execute m;
  so_map : link_map_wf lm;
  so_objects j o : objects (lmap_graph lm) !! j = Some o -> object_in_session m lm j o;
}.

Lemma byte_kept_evolves p b v v' : page_evolves v v' -> byte_kept p b v -> byte_kept p b v'.
Proof.
  intros He [->|[Hw [Hv|[-> Hv]]]].
  - destruct (He p eq_refl) as [->|H]; [by left|by right].
  - destruct (He p Hv) as [->|H]; [by right; split; [|left]|by right].
  - destruct (He 1 Hv) as [->|[Hbad _]]; [by right; split; [|right]|by vm_compute in Hbad].
Qed.

Lemma image_kept_evolves m m' o : evolves m m' -> image_kept m o -> image_kept m' o.
Proof.
  intros He [Hr (plan & Hp & HF)]. pose proof (ev_page_size _ _ He) as Hps. split; [by rewrite Hps|].
  exists plan. split; [unfold plan_elf32_load, MappedGuestMemory.page_size in *; by rewrite Hps|].
  eapply Forall2_impl; [exact HF|]. intros s ls [H1 H2]. split; [done|]. intros x Hx.
  eapply byte_kept_evolves; [apply He|by apply H2].
Qed.

Lemma image_loaded_kept m o : image_loaded m o -> image_kept m o.
Proof.
  intros [Hr (plan & Hp & HF) _]. split; [done|]. exists plan. split; [done|].
  eapply Forall2_impl; [exact HF|]. intros s ls [_ _ H3 _ H5]. split; [done|]. intros x Hx. left. by apply H5.
Qed.

Lemma reaches_prefix g g' i j : objects g `prefix_of` objects g' -> reaches g i j -> reaches g' i j.
Proof.
  intros Hp H. eapply rtc_subrel; [|exact H]. intros x y (o & Ho & Hy). exists o.
  split; [by eapply prefix_lookup_Some|done].
Qed.

Lemma link_map_edges_valid lm : link_map_wf lm -> edges_valid (lmap_graph lm).
Proof.
  intros Hw i j (o & Ho & (e & -> & He)%list_elem_of_fmap).
  by apply (lw_objects _ Hw i o Ho).
Qed.

Lemma record_root_keeps p i roots j :
  (exists r, r ∈ roots /\ root_object_index r = j) ->
  exists r, r ∈ record_root p i roots /\ root_object_index r = j.
Proof.
  intros (r & Hr & <-).
  assert (H : root_object_index r ∈ root_object_index <$> record_root p i roots)
    by (apply record_root_range; left; by apply list_elem_of_fmap_2).
  apply list_elem_of_fmap in H as (r' & He & Hr'). eauto.
Qed.

Lemma root_appended_recorded {W} (provider : Elf32DependencyProvider W) options m lm root policy r m' lm' :
  root_appended provider options m lm root policy r m' lm' ->
  exists rec, rec ∈ lmap_roots lm' /\ root_object_index rec = root_object_index_result r.
Proof.
  intros Ha. rewrite (ra_roots _ _ _ _ _ _ _ _ _ Ha).
  assert (H : root_object_index_result r ∈
    root_object_index <$> record_root policy (root_object_index_result r) (lmap_roots lm))
    by (apply record_root_range; by right).
  apply list_elem_of_fmap in H as (r' & He & Hr'). eauto.
Qed.

Lemma empty_link_map_wf : link_map_wf empty_link_map.
Proof.
  split; cbn; [apply NoDup_nil_2|done|apply NoDup_nil_2| |constructor|].
  - intros r Hr. by apply elem_of_nil in Hr.
  - intros i. rewrite elem_of_nil. split; [done|]. by intros (o & Ho & _).
Qed.


(** ** Preservation *)
Lemma memory_ok_failures m : memory_ok m -> failures m = 0%nat.
Proof. intros [_ [_ Hr]]. by apply failures_reliable. Qed.

Lemma memory_ok_one m : memory_ok m -> (failures m <= 1)%nat.
Proof. intros Hm. rewrite memory_ok_failures by done. lia. Qed.

(** Narrowing permissions keeps W^X. *)
Lemma wx_narrowed m m' :
  (forall x p', (page_at m' x).1 = Some p' -> exists p, (page_at m x).1 = Some p /\ (p' = p \/ p' = 1)) ->
  write_xor_execute m -> write_xor_execute m'.
Proof.
  intros H Hwx x p' Hp' Hw. destruct (H x p' Hp') as (p & Hp & [E|E]); subst p'; [|done]. by apply (Hwx x).
Qed.

Lemma session_ok_evolves m lm m' :
  session_ok m lm -> evolves m m' -> memory_ok m' -> write_xor_execute m' -> session_ok m' lm.
Proof.
  intros [_ _ Hw Ho] He Hm Hwx. split; [done..|]. intros j o Hj. destruct (Ho j o Hj) as [H1 Hnm H2 H3].
  split; [done|done| |done]. by eapply image_kept_evolves.
Qed.

Lemma confined_step m lm m' : session_ok m lm -> confined m m' -> session_ok m' lm /\ evolves m m'.
Proof.
  intros Hs Hc. destruct (confined_evolves m m' (so_memory _ _ Hs) Hc) as [He Hm'].
  split; [|done]. apply (session_ok_evolves m); [done..|]. eapply wx_narrowed; [|apply Hs].
  intros x p Hp. exists p. split; [|by left].
  destruct (writes_only_view m m' x (Hc (so_memory _ _ Hs))) as [<- _]. done.
Qed.

Lemma seal_step m lm i o max_pages r m' :
  session_ok m lm -> objects (lmap_graph lm) !! i = Some o ->
  seal_elf32_gnu_relro m (load o) max_pages = (r, m') -> session_ok m' lm /\ evolves m m'.
Proof.
  intros Hs Ho H. destruct (so_memory _ _ Hs) as [Hwf Hh].
  pose proof (ik_result _ _ (os_image _ _ _ _ (so_objects _ _ Hs i o Ho))) as [_ Hrelro].
  pose proof (seal_closed hosted m (load o) max_pages Hh) as Hh'. rewrite H in Hh'. cbn in Hh'.
  apply seal_run in H as ([Hwf' Hps'] & Hn & _); [|done|].
  2: { eapply Forall_impl; [exact Hrelro|]. intros s Hr. apply Hr. }
  pose proof (narrowed_evolves m m' Hps' Hn) as He. split; [|done].
  apply (session_ok_evolves m); [done|done|by split|]. eapply wx_narrowed; [|apply Hs].
  intros x p Hp. destruct (Hn x) as [E|[E1 E2]].
  - exists p. split; [by rewrite <- E|by left].
  - exists 3. split; [done|]. right. rewrite E2 in Hp. by injection Hp.
Qed.

(** New pages belong to new segments, none of which is writable and executable. *)
Lemma graph_loaded_wx {W} (provider : Elf32DependencyProvider W) options m n0 m' g :
  graph_loaded provider options m n0 m' g -> write_xor_execute m -> write_xor_execute m'.
Proof.
  intros Hg Hwx x p Hp Hw.
  destruct (page_at m x) as [[q|] b] eqn:E.
  { rewrite (gl_kept _ _ _ _ _ _ Hg) in Hp by (rewrite E; by eexists). by apply (Hwx x p Hp). }
  destruct (decide (Exists (fun o => Exists (fun s => in_range (ls_mapping_start s) (ls_mapping_size s) x)
    (lr_segments (load o))) (drop n0 (objects g)))) as [Hin|Hout]; cycle 1.
  { rewrite (gl_frame _ _ _ _ _ _ Hg), E in Hp; [done|]. intros j o s Hj Ho Hs Hx. apply Hout.
    apply Exists_exists. exists o. split.
    - apply list_elem_of_lookup. exists (j - n0)%nat. rewrite lookup_drop. by replace (n0 + (j - n0))%nat with j by lia.
    - apply Exists_exists. by exists s. }
  apply Exists_exists in Hin as (o & Ho & Hin). apply Exists_exists in Hin as (s & Hs & Hx).
  apply list_elem_of_lookup in Ho as (k & Hk). rewrite lookup_drop in Hk.
  destruct (gl_objects _ _ _ _ _ _ Hg (n0 + k) o ltac:(lia) Hk) as [_ [[Hperm _] (plan & _ & HF) _]].
  destruct (Forall2_elem_r _ _ _ s HF Hs) as (raw & _ & [_ _ H3 _ H5]). rewrite H5 in Hp by done.
  injection Hp as <-. rewrite Forall_forall in Hperm. specialize (Hperm s Hs). rewrite H3 in Hperm.
  revert Hw. clear -Hperm. repeat (apply elem_of_cons in Hperm as [->|Hperm]; [by vm_compute|]).
  by apply elem_of_nil in Hperm.
Qed.

(** A successful append takes the session from one good state to the next. *)
Lemma session_ok_appended {W} (provider : Elf32DependencyProvider W) options m lm root policy r m' lm' :
  session_ok m lm -> root_appended provider options m lm root policy r m' lm' -> hosted m' ->
  session_ok m' lm' /\ evolves m m'.
Proof.
  intros Hs Ha Hh. pose proof (ra_known _ _ _ _ _ _ _ _ _ Ha) as Hpre.
  pose proof (root_appended_recorded _ _ _ _ _ _ _ _ _ Ha) as (rec & Hrec & Hri).
  pose proof (ra_loaded _ _ _ _ _ _ _ _ _ Ha) as Hl.
  assert (He : evolves m m' /\ mapped_wf m' /\ write_xor_execute m').
  { destruct (reused_existing_root r).
    - destruct Hl as [-> _]. split_and!; [reflexivity|apply Hs..].
    - destruct Hl as [_ Hgl]. split_and!; [|apply Hgl|by eapply graph_loaded_wx; [|apply Hs]].
      by apply kept_evolves; apply Hgl. }
  destruct He as (He & Hwf' & Hwx'). split; [|done]. split; [by split|done|apply Ha|]. intros j o Hj.
  assert (Hold : objects (lmap_graph lm) !! j = Some o -> object_in_session m' lm' j o).
  { intros Ho. destruct (so_objects _ _ Hs j o Ho) as [H1 Hnm H2 (r0 & Hr0 & Hp0)].
    split; [done|done|by eapply image_kept_evolves|].
    destruct (record_root_keeps policy (root_object_index_result r) (lmap_roots lm) (root_object_index r0))
      as (r1 & Hr1 & Hi1); [by exists r0|].
    exists r1. rewrite (ra_roots _ _ _ _ _ _ _ _ _ Ha), Hi1. split; [done|]. by eapply reaches_prefix. }
  destruct (decide (j < length (objects (lmap_graph lm)))%nat) as [Hlt|Hge].
  { apply Hold. rewrite <- Hj. by apply prefix_lookup_lt. }
  destruct (reused_existing_root r).
  { destruct Hl as [_ Hg]. rewrite Hg in Hj. by apply Hold. }
  destruct Hl as [Hidx Hgl]. destruct (gl_objects _ _ _ _ _ _ Hgl j o) as [H1 H2]; [lia|done|].
  split; [done| |by apply image_loaded_kept|].
  { exists m'. split; [done|]. by apply (gl_names _ _ _ _ _ _ Hgl j o); [lia|]. }
  exists rec. split; [done|]. rewrite Hri, Hidx.
  apply (gl_reach _ _ _ _ _ _ Hgl). apply lookup_lt_Some in Hj. lia.
Qed.

Lemma session_step_ok s s' :
  session_ok s.1 s.2 -> session_step s s' -> session_ok s'.1 s'.2 /\ evolves s.1 s'.1.
Proof.
  intros Hs Hstep. destruct Hstep as
    [W provider options m w lm root policy r lm' m' w' Hopts Hp Hb H
    |m lm i options r m' H|m lm i o max_pages r m' Ho H
    |I jit_new jit_step options m lm calls r m' Hj H
    |I W jit_new jit_step handler request limit m lm w r m' w' Hj Hh H|m lm m' He Hm Hwx]; cbn in *.
  - destruct (so_memory _ _ Hs) as [Hwf Hh].
    pose proof (append_run provider options m w lm root policy Hwf (memory_ok_one _ (so_memory _ _ Hs))
      Hopts Hp Hb) as Hr.
    pose proof (append_closed hosted provider options m w lm root policy Hh) as Hh'.
    rewrite H in Hr, Hh'. cbn in Hh'. destruct r as [r|f].
    + destruct Hr as [Hr _]. by eapply session_ok_appended.
    + destruct Hr as [-> Hr]. apply undone_reliable in Hr as [(Hv & Hwf' & _) _]; [|by apply memory_ok_failures].
      assert (He : evolves m m').
      { apply kept_evolves; [apply Hv|]. intros x _. by apply same_view_page_at. }
      split; [|done]. apply (session_ok_evolves m); [done|done|by split|]. eapply wx_narrowed; [|apply Hs].
      intros x p Hx. exists p. rewrite (same_view_page_at m m' x Hv) in Hx. auto.
  - apply confined_step; [done|]. pose proof (relocations_confined m (lmap_graph lm) i options) as Hc.
    by rewrite H in Hc.
  - by eapply seal_step.
  - apply confined_step; [done|]. pose proof (init_calls_confined jit_new jit_step Hj options m calls) as Hc.
    by rewrite H in Hc.
  - apply confined_step; [done|]. by eapply dispatch_confined.
  - split; [|done]. by apply (session_ok_evolves m).
Qed.

Lemma session_steps_ok s s' :
  session_ok s.1 s.2 -> rtc session_step s s' -> session_ok s'.1 s'.2 /\ evolves s.1 s'.1.
Proof.
  intros Hs Hr. induction Hr as [s|s s1 s2 H1 _ IH]; [by split; [|reflexivity]|].
  destruct (session_step_ok s s1 Hs H1) as [Hs1 He1]. destruct (IH Hs1) as [Hs2 He2].
  split; [done|by etransitivity].
Qed.

Lemma session_good m lm : session m lm -> session_ok m lm.
Proof.
  intros (m0 & Hm0 & Hwx & Hr).
  apply (session_steps_ok (m0, empty_link_map) (m, lm)); [|done].
  split; [done|done|apply empty_link_map_wf|]. cbn. intros j o Hj. by rewrite lookup_nil in Hj.
Qed.

(** The objects of the map stay, with their indices. *)
Lemma session_step_objects s s' :
  session_ok s.1 s.2 -> session_step s s' ->
  objects (lmap_graph s.2) `prefix_of` objects (lmap_graph s'.2).
Proof.
  intros Hs Hstep. destruct Hstep as [W provider options m w lm root policy r lm' m' w' Hopts Hp Hb H| | | | |];
    cbn in *; try done.
  pose proof (append_run provider options m w lm root policy (proj1 (so_memory _ _ Hs))
    (memory_ok_one _ (so_memory _ _ Hs)) Hopts Hp Hb) as Hr.
  rewrite H in Hr. destruct r as [r|f]; [apply Hr|]. by destruct Hr as [-> _].
Qed.

Lemma session_steps_objects s s' :
  session_ok s.1 s.2 -> rtc session_step s s' ->
  objects (lmap_graph s.2) `prefix_of` objects (lmap_graph s'.2).
Proof.
  intros Hs Hr. induction Hr as [s|s s1 s2 H1 _ IH]; [done|]. etransitivity; [by apply session_step_objects|].
  apply IH. by apply (session_step_ok s).
Qed.

(** C8: in every state of a session on a reliable host (no mprotect or madvise call
    fails), whatever sequence of appends, relocations, RELRO seals, constructor runs and
    guest calls led to it and however many of them reported an error: the link map is
    well formed; guest memory is a valid page table whose host protections are the guest
    permissions; no page is writable and executable; and every object of the map is
    still mapped where it was loaded, with the file's bytes on every page that is not
    writable, is reachable from a recorded root, and has one edge per recorded name, in
    order, where the recorded names are the DT_NEEDED names of its image, read when it
    had just been loaded. Later steps never remove or move an object: it keeps its index. *)
Theorem session_invariant m lm :
  session m lm ->
  session_ok m lm /\
  forall m' lm', rtc session_step (m, lm) (m', lm') ->
    objects (lmap_graph lm) `prefix_of` objects (lmap_graph lm').
Proof.
  intros Hs. split; [by apply session_good|]. intros m' lm' Hr.
  apply (session_steps_objects (m, lm) (m', lm')); [by apply session_good|done].
Qed.

(** C9: memory that is mapped and not writable never changes again: from any state
    of a session (on a reliable host, as every session), no later step (guest stores through callbacks or fastmem,
    relocations, further loads and their rollbacks, seals) changes its mapping, its
    permission or its bytes. Code and sealed data are immutable, and a page that
    was not executable never becomes so. *)
Theorem session_frozen m lm m' lm' x p :
  session m lm -> rtc session_step (m, lm) (m', lm') -> (page_at m x).1 = Some p ->
  (has_permission p MemoryPermission.Write = false -> page_at m' x = page_at m x) /\
  exists p', (page_at m' x).1 = Some p' /\
    (has_permission p' MemoryPermission.Execute = true -> has_permission p MemoryPermission.Execute = true).
Proof.
  intros Hs Hr Hp. destruct (session_steps_ok (m, lm) (m', lm') (session_good _ _ Hs) Hr) as [_ He]. cbn in He.
  split; [intros Hw; by eapply evolves_frozen|].
  destruct (ev_pages _ _ He x p Hp) as [->|[_ [Hq|[-> Hq]]]]; [by exists p|by exists p|by exists 1].
Qed.

(** ** Relocation and RELRO together *)
Lemma sealed_peek m m' x b :
  mapped_peek m x = Some b -> page_at m' x = (Some 1, (page_at m x).2) -> mapped_peek m' x = Some b.
Proof.
  unfold mapped_peek. rewrite !page_at_allows. intros H E. rewrite E. unfold page_at in E. cbn in E.
  injection E as _ E. destruct (in_space x); [|done]. cbn in *. rewrite E. by destruct (page_at m x).1; cbn in H; case_match.
Qed.

(** C10: relocated data that is sealed keeps its relocated values for the rest of the
    session (on a reliable host, as every session). Once an object has been relocated and its RELRO ranges sealed, every
    relocated word inside them reads as its final value in every later state, even
    if guest code or a later relocation tries to overwrite it. *)
Theorem sealed_relocations_persist m lm i o options ws m1 max_pages n m2 m3 lm3 w :
  session m lm -> is_u32 (so_max_scope_objects (rel_symbols options)) ->
  objects (lmap_graph lm) !! i = Some o ->
  apply_elf32_combined_relocations m (lmap_graph lm) i options = (Ok ws, m1) ->
  seal_elf32_gnu_relro m1 (load o) max_pages = (Ok n, m2) ->
  rtc session_step (m2, lm) (m3, lm3) ->
  w ∈ ws -> (forall x, in_range (rw_place w) 4 x -> in_relro (lr_relro_segments (load o)) x) ->
  read_word m3 (rw_place w) = Some (rw_final_word w).
Proof.
  intros Hs Hmax Ho Hr Hseal Hsteps Hw Hin. pose proof (session_good _ _ Hs) as Hok.
  destruct (session_step_ok (m, lm) (m1, lm) Hok) as [Hok1 _]; [by eapply step_relocate|]. cbn in Hok1.
  destruct (session_step_ok (m1, lm) (m2, lm) Hok1) as [Hok2 _]; [by eapply step_seal|]. cbn in Hok2.
  destruct (session_steps_ok (m2, lm) (m3, lm3) Hok2 Hsteps) as [Hok3 He]. cbn in Hok3, He.
  pose proof (combined_run m (lmap_graph lm) i options (proj1 (so_memory _ _ Hok)) Hmax
    (link_map_edges_valid lm (so_map _ _ Hok))) as Hrun.
  rewrite Hr in Hrun. destruct Hrun as (_ & (main & plt & Hmain & Hplt & ->) & _ & Hwords & _).
  destruct (Hwords w Hw) as [_ Hfinal].
  assert (Hpl : is_u32 (rw_place w)).
  { apply elem_of_app in Hw as [Hw|Hw].
    - apply prepare_ok in Hmain as [HF _]; [|apply Hok]. rewrite Forall_forall in HF. apply (wp_place _ _ (HF w Hw)).
    - apply prepare_ok in Hplt as [HF _]; [|apply Hok]. rewrite Forall_forall in HF. apply (wp_place _ _ (HF w Hw)). }
  pose proof (ik_result _ _ (os_image _ _ _ _ (so_objects _ _ Hok1 i o Ho))) as [_ Hrelro].
  apply seal_run in Hseal as (_ & _ & Hview); [|apply Hok1|].
  2: { eapply Forall_impl; [exact Hrelro|]. intros s Hl. apply Hl. }
  rewrite <- Hfinal. apply read_word_ext; [apply Hok1|apply Hok3|done|].
  intros x Hx. destruct (Hview x) as [Hv _]. specialize (Hv (Hin x Hx)).
  rewrite (page_at_peek m2 m3) by (eapply evolves_frozen; [done|by rewrite Hv|done]).
  apply read_word_peek in Hfinal as [_ Hfinal]; [|apply Hok1|done].
  specialize (Hfinal (x - rw_place w) ltac:(unfold in_range in Hx; lia)).
  replace (rw_place w + (x - rw_place w)) with x in Hfinal by lia. cbn in Hfinal |- *.
  rewrite Hfinal. by eapply sealed_peek.
Qed.

(** C11: in a session, whose host is assumed not to fail an mprotect call, sealing an
    object never meets an unmapped or unreadable page or malformed RELRO metadata, so it
    never needs a rollback: it succeeds, or it reports the caller's page limit or an
    executable page and leaves memory untouched. On success exactly the RELRO pages are
    read-only. (The protection failures of an unreliable host are covered by the
    theorem on [seal_elf32_gnu_relro] alone.) *)
Theorem session_seal m lm i o max_pages :
  session m lm -> objects (lmap_graph lm) !! i = Some o ->
  match seal_elf32_gnu_relro m (load o) max_pages with
  | (Ok _, m') => forall x,
      (in_relro (lr_relro_segments (load o)) x -> page_at m' x = (Some 1, (page_at m x).2)) /\
      (~ in_relro (lr_relro_segments (load o)) x -> page_at m' x = page_at m x)
  | (Err f, m') => m' = m /\
      (Relro.rf_error f = Elf32RelroError.InvalidOptions /\ max_pages = 0 \/
       Relro.rf_error f = Elf32RelroError.PageLimitExceeded \/ Relro.rf_error f = Elf32RelroError.ExecutablePage)
  end.
Proof.
  intros Hs Ho. pose proof (session_good _ _ Hs) as Hok. destruct (so_memory _ _ Hok) as [Hwf Hh].
  pose proof (os_image _ _ _ _ (so_objects _ _ Hok i o Ho)) as [[_ Hrelro] (plan & _ & HF)].
  assert (Hrd : relro_readable m (lr_relro_segments (load o))).
  { intros x (s & Hin & Hx). rewrite Forall_forall in Hrelro.
    destruct (rl_backed _ _ _ (Hrelro s Hin) x Hx) as (ls & Hls & Hxl & Hr).
    destruct (Forall2_elem_r _ _ _ ls HF Hls) as (raw & _ & Hperm & Hkept). rewrite Hperm in Hr.
    destruct (Hkept x Hxl) as [->|[_ [Hv|[_ Hv]]]]; eauto. }
  pose proof (seal_loaded m (load o) max_pages Hwf (memory_ok_failures _ (so_memory _ _ Hok)) Hrelro Hrd) as Hl.
  destruct (seal_elf32_gnu_relro m (load o) max_pages) as [[n|f] m'] eqn:E; [|done].
  apply seal_run in E as (_ & _ & Hv); [done|done|].
  eapply Forall_impl; [exact Hrelro|]. intros s Hsl. apply Hsl.
Qed.

(** ** Lookup and constructors in a session *)
Section clients.
Context (m : memory_t) (lm : Elf32LinkMap).
Hypothesis Hs : session m lm.

Lemma session_edges : edges_valid (lmap_graph lm).
Proof. apply link_map_edges_valid, (so_map _ _ (session_good _ _ Hs)). Qed.

Lemma session_scope_range : Forall (fun i => (i < length (objects (lmap_graph lm)))%nat) (global_scope lm).
Proof.
  apply Forall_forall. intros i Hi. apply (lw_scope _ (so_map _ _ (session_good _ _ Hs))) in Hi.
  by eapply required_global_range.
Qed.

Lemma session_root_range r :
  r ∈ lmap_roots lm -> (root_object_index r < length (objects (lmap_graph lm)))%nat.
Proof. apply (lw_root_range _ (so_map _ _ (session_good _ _ Hs))). Qed.

End clients.


(** C27: planning the constructors of a recorded root of a session never meets an
    edge that leaves the graph or an invalid root: it yields the calls of exactly
    the objects reachable from the root, dependencies first except along cycles, or
    fails for a budget or an INIT_ARRAY that does not decode. *)
Theorem session_init_plan m lm options r :
  session m lm -> is_u32 (ip_max_objects options) -> is_u32 (ip_max_entries options) -> ip_max_objects options <> 0 ->
  r ∈ lmap_roots lm ->
  match plan_elf32_init_array_calls m (lmap_graph lm) options (root_object_index r) with
  | Ok cs => exists order, init_plan_ok m (lmap_graph lm) options (root_object_index r) cs order
  | Err Stuck => False
  | Err (Failure f) =>
      pf_error f = Elf32InitPlanError.ObjectLimitExceeded \/
      pf_error f = Elf32InitPlanError.EntryLimitExceeded \/
      pf_error f = Elf32InitPlanError.DecodeFailed
  end.
Proof.
  intros Hs Ho He Hne Hr. pose proof (session_root_range m lm Hs r Hr) as Hrange.
  pose proof (plan_calls_spec m (lmap_graph lm) options Ho He _ Hne Hrange) as Hp.
  destruct (plan_elf32_init_array_calls _ _ _ _) as [cs|[|f]]; [done|done|].
  destruct Hp as (o & _ & _ & Hf). destruct (pf_error f); try done; try tauto.
  destruct Hf as (j & Hd & Hj). apply (session_edges m lm Hs) in Hd. lia.
Qed.

(** ** Witnesses: the cyclic pair of DependencyLoader, opened globally *)
Lemma empty_memory_ok : memory_ok empty_memory.
Proof.
  split; [exact empty_memory_wf|]. split; [|by apply Forall_nil_2].
  intros i. unfold MappedGuestMemory.state_at; cbn. by rewrite !cell_empty.
Qed.

Lemma empty_memory_wx : write_xor_execute empty_memory.
Proof.
  intros x p Hp. unfold page_at, MappedGuestMemory.is_mapped, MappedGuestMemory.state_at in Hp. cbn in Hp.
  by rewrite cell_empty in Hp.
Qed.

Lemma cycle_session :
  exists m lm, session m lm /\ edge_lists (lmap_graph lm) = [[1]; [0]]%nat /\
    lmap_roots lm = [{| root_object_index := 0; root_policy := Global |}] /\ global_scope lm = [0%nat].
Proof.
  assert (Hok : match cycle_append 4 with
    | (Ok r, lm', _, _) =>
        (edge_lists (lmap_graph lm'), lmap_roots lm', global_scope lm') =
        ([[1]; [0]]%nat, [{| root_object_index := 0; root_policy := Global |}], [0%nat])
    | _ => False end) by (vm_compute; reflexivity).
  destruct (cycle_append 4) as [[[[r|f] lm'] m'] []] eqn:E; [|destruct Hok].
  exists m', lm'. injection Hok as H1 H2 H3.
  split; [|split; [exact H1|split; [exact H2|exact H3]]].
  exists empty_memory. split; [exact empty_memory_ok|]. split; [exact empty_memory_wx|]. apply rtc_once.
  refine (step_append unit cycle_provider (cycle_options 4) empty_memory tt empty_link_map cycle_root
    Global (Ok r) lm' m' tt _ _ _ E).
  - apply cycle_options_typed. split; vm_compute; congruence.
  - apply cycle_provider_bytes.
  - apply needing_image_bytes. split; vm_compute; congruence.
Qed.

Lemma edge_lists_length g : length (edge_lists g) = length (objects g).
Proof. apply length_fmap. Qed.

Lemma session_invariant_witness :
  exists m lm, session m lm /\ length (objects (lmap_graph lm)) = 2%nat /\ session_ok m lm.
Proof.
  destruct cycle_session as (m & lm & Hs & Hg & _). exists m, lm. split; [exact Hs|].
  split; [by rewrite <- edge_lists_length, Hg|].
  exact (proj1 (session_invariant m lm Hs)).
Defined.

Lemma session_init_plan_witness :
  exists m lm, session m lm /\
    match plan_elf32_init_array_calls m (lmap_graph lm) {| ip_max_objects := 8; ip_max_entries := 8 |} 0 with
    | Ok cs => exists order,
        init_plan_ok m (lmap_graph lm) {| ip_max_objects := 8; ip_max_entries := 8 |} 0 cs order
    | Err Stuck => False
    | Err (Failure f) =>
        pf_error f = Elf32InitPlanError.ObjectLimitExceeded \/
        pf_error f = Elf32InitPlanError.EntryLimitExceeded \/
        pf_error f = Elf32InitPlanError.DecodeFailed
    end.
Proof.
  destruct cycle_session as (m & lm & Hs & _ & Hr & _). exists m, lm. split; [exact Hs|].
  apply (session_init_plan m lm {| ip_max_objects := 8; ip_max_entries := 8 |}
    {| root_object_index := 0; root_policy := Global |} Hs); [by split; vm_compute|by split; vm_compute|done|].
  rewrite Hr. by left.
Defined.


(** A read-write library with one RELATIVE relocation inside its RELRO range. *)
Definition relro_image : list Z :=
  elf32_ehdr 3 40 0 3
  ++ elf32_phdr 1 0 0 192 192 6 4096
  ++ elf32_phdr 2 148 148 32 32 6 4
  ++ elf32_phdr 0x6474E552 188 188 4 4 4 1
  ++ encode_dynamic [{| de_tag := 17; de_value := 180 |}; {| de_tag := 18; de_value := 8 |};
                     {| de_tag := 19; de_value := 8 |}; {| de_tag := 0; de_value := 0 |}]
  ++ encode_words [188; 23] ++ encode_words [7].

Definition relro_root : Elf32DependencyLoadSource := {| root_identity := [114]; root_image := relro_image |}.

Notation relro_append :=
  (append_elf32_link_map_root cycle_provider (cycle_options 4) empty_memory tt empty_link_map relro_root Local).

(** What happens to it: relocated, sealed, and then relocated again, which fails. *)
Definition relro_events (m : memory_t) (lm : Elf32LinkMap)
    : option (list Elf32RelocationWrite * list Elf32RelroSegment * bool * option Z) :=
  o ← objects (lmap_graph lm) !! 0%nat;
  match apply_elf32_combined_relocations m (lmap_graph lm) 0 relocation_options with
  | (Ok ws, m1) =>
      match seal_elf32_gnu_relro m1 (load o) 4 with
      | (Ok _, m2) =>
          Some (ws, lr_relro_segments (load o),
                is_ok (apply_elf32_combined_relocations m2 (lmap_graph lm) 0 relocation_options).1,
                (page_at m2 65536).1)
      | _ => None
      end
  | _ => None
  end.

Definition relro_write : Elf32RelocationWrite :=
  {| rw_relocation_index := 0; rw_type := 23; rw_place := 65724; rw_original_word := 7;
     rw_final_word := 65543; rw_table := MainRel |}.

Definition relro_range : Elf32RelroSegment :=
  {| rs_guest_address := 65724; rs_memory_size := 4; rs_mapping_start := 65536; rs_mapping_size := 4096 |}.

Lemma relro_session :
  exists m lm, session m lm /\ relro_events m lm = Some ([relro_write], [relro_range], false, Some 1).
Proof.
  assert (Hok : match relro_append with
    | (Ok r, lm', m', _) => relro_events m' lm' = Some ([relro_write], [relro_range], false, Some 1)
    | _ => False end) by (vm_compute; reflexivity).
  destruct relro_append as [[[[r|f] lm'] m'] []] eqn:E; [|destruct Hok].
  exists m', lm'. split; [|exact Hok].
  exists empty_memory. split; [exact empty_memory_ok|]. split; [exact empty_memory_wx|]. apply rtc_once.
  refine (step_append unit cycle_provider (cycle_options 4) empty_memory tt empty_link_map relro_root
    Local (Ok r) lm' m' tt _ _ _ E).
  - apply cycle_options_typed. split; vm_compute; congruence.
  - apply cycle_provider_bytes.
  - apply is_bytes_forallb. vm_compute. reflexivity.
Qed.

(** The second relocation cannot change the sealed word. *)
Lemma sealed_relocations_persist_witness :
  exists m lm o m1 n m2 r m3,
    session m lm /\ objects (lmap_graph lm) !! 0%nat = Some o /\
    apply_elf32_combined_relocations m (lmap_graph lm) 0 relocation_options = (Ok [relro_write], m1) /\
    seal_elf32_gnu_relro m1 (load o) 4 = (Ok n, m2) /\
    apply_elf32_combined_relocations m2 (lmap_graph lm) 0 relocation_options = (Err r, m3) /\
    read_word m3 65724 = Some 65543.
Proof.
  destruct relro_session as (m & lm & Hs & Hev). unfold relro_events in Hev.
  apply bind_Some in Hev as (o & Ho & Hev).
  destruct (apply_elf32_combined_relocations m _ 0 _) as [[ws|f] m1] eqn:E1; [|discriminate Hev].
  destruct (seal_elf32_gnu_relro m1 (load o) 4) as [[n|f] m2] eqn:E2; [|discriminate Hev].
  injection Hev as -> Hrelro Hbad _.
  destruct (apply_elf32_combined_relocations m2 _ 0 _) as [[ws|f] m3] eqn:E3; [discriminate Hbad|].
  exists m, lm, o, m1, n, m2, f, m3.
  split; [exact Hs|]. split; [exact Ho|]. split; [exact E1|]. split; [exact E2|]. split; [exact E3|].
  refine (sealed_relocations_persist m lm 0 o relocation_options [relro_write] m1 4 n m2 m3 lm relro_write
    Hs _ Ho E1 E2 _ _ _).
  - split; vm_compute; congruence.
  - apply rtc_once. by eapply step_relocate.
  - by left.
  - intros x Hx. rewrite Hrelro. exists relro_range. split; [by left|]. unfold in_range in *; cbn in *. lia.
Defined.

Lemma session_seal_witness :
  exists m lm o, session m lm /\ objects (lmap_graph lm) !! 0%nat = Some o /\
    match seal_elf32_gnu_relro m (load o) 4 with
    | (Ok _, m') => forall x,
        (in_relro (lr_relro_segments (load o)) x -> page_at m' x = (Some 1, (page_at m x).2)) /\
        (~ in_relro (lr_relro_segments (load o)) x -> page_at m' x = page_at m x)
    | (Err f, m') => m' = m /\
        (Relro.rf_error f = Elf32RelroError.InvalidOptions /\ 4 = 0 \/
         Relro.rf_error f = Elf32RelroError.PageLimitExceeded \/
         Relro.rf_error f = Elf32RelroError.ExecutablePage)
    end.
Proof.
  destruct relro_session as (m & lm & Hs & Hev). unfold relro_events in Hev.
  apply bind_Some in Hev as (o & Ho & _). exists m, lm, o. split; [exact Hs|]. split; [exact Ho|].
  exact (session_seal m lm 0 o 4 Hs Ho).
Defined.

(** After the seal the page of the library is frozen. *)
Lemma session_frozen_witness :
  exists m lm m', session m lm /\ rtc session_step (m, lm) (m', lm) /\ (page_at m 65536).1 = Some 1 /\
    page_at m' 65536 = page_at m 65536.
Proof.
  destruct relro_session as (m & lm & Hs & Hev). unfold relro_events in Hev.
  apply bind_Some in Hev as (o & Ho & Hev).
  destruct (apply_elf32_combined_relocations m _ 0 _) as [[ws|f] m1] eqn:E1; [|discriminate Hev].
  destruct (seal_elf32_gnu_relro m1 (load o) 4) as [[n|f] m2] eqn:E2; [|discriminate Hev].
  injection Hev as _ _ _ Hp.
  destruct (apply_elf32_combined_relocations m2 (lmap_graph lm) 0 relocation_options) as [r m3] eqn:E3.
  assert (Hs2 : session m2 lm).
  { destruct Hs as (m0 & H0 & Hwx & Hr). exists m0. split; [exact H0|]. split; [exact Hwx|].
    eapply rtc_r; [eapply rtc_r; [exact Hr|by eapply step_relocate]|by eapply step_seal]. }
  assert (Hr : rtc session_step (m2, lm) (m3, lm)) by (apply rtc_once; by eapply step_relocate).
  exists m2, lm, m3. split; [exact Hs2|]. split; [exact Hr|]. split; [exact Hp|].
  exact (proj1 (session_frozen m2 lm m3 lm 65536 1 Hs2 Hr Hp) eq_refl).
Defined.
