(* ===== verification/Smoke.v ===== *)
(** * The runtime smoke test ([src/tools/android/android_runtime_smoke.cpp])

    [run_smoke] is the smallest whole-stack client: it maps code and data pages,
    runs three pieces of A32 code through [execute] and checks registers, memory
    and the callback counters. The printed report is a list of key/value lines. The
    theorem says that a JIT that executes the three instructions as the
    architecture defines them, and that uses the fastmem window, passes. *)

From S2P Require Import Prelude Bytes GuestMemory MappedMemory AddressView Cpu.

Import MappedGuestMemory.

(** The values [log_printf] prints after a key. *)
Inductive log_value : Set :=
| LBool (b : bool)
| LUnsigned (n : Z)
| LSigned (n : Z)
| LHex (n : Z)
| LText (s : string)
| LPath (p : list Z)
| LStrerror (error : Z)
| LMapping (start end_ : Z) (permissions : string).

Definition log_line : Type := string * log_value.

Definition verdict (b : bool) : log_value := LText (if b then "PASS" else "FAIL").

(** The [A32ERR] lines on stderr. *)
Definition smoke_error (code message : string) : log_line :=
  ("A32ERR", LText ("component=android_runtime_smoke|code=" ++ code ++ "|message=" ++ message)).

Section run_smoke.
Context {I : Type} (jit_new : option Z -> I) (jit_step : @Jit I -> jit_prog t (@Jit I)).

(** [execution_ok(result, expected)] *)
Definition execution_ok (result : ExecutionResult) (expected : Z) : bool :=
  negb (er_exception_raised result) && negb (er_memory_fault result)
  && (er_instructions_executed result =? expected).

(** A default [ExecutionRequest] with [entry_pc], [regs] and [instruction_count]. *)
Definition smoke_request (entry_pc : Z) (regs : regs_t) (instruction_count : Z) : ExecutionRequest :=
  {| rq_instruction_set := Arm; rq_entry_pc := entry_pc; rq_regs := regs;
     rq_instruction_count := instruction_count; rq_stop_pc := None; rq_initial_cpsr := None |}.

Definition zero_regs : regs_t := replicate 16 0.

Definition rw : Z := perm_or MemoryPermission.Read MemoryPermission.Write.
Definition rx : Z := perm_or MemoryPermission.Read MemoryPermission.Execute.

(** [map(rw) && write && protect(rx)], left at the first failing call. *)
Definition prepare_code (memory : t) (address page : Z) (code : list Z) : bool * t :=
  let '(ok, memory) := map memory address page rw in
  if negb ok then (false, memory)
  else
    let '(ok, memory) := write memory address code in
    if negb ok then (false, memory) else protect memory address page rx.

Definition return_42 : list Z := [0x2A; 0x00; 0xA0; 0xE3].
Definition load_store : list Z := [0x00; 0x00; 0x81; 0xE5; 0x00; 0x20; 0x91; 0xE5].
Definition faulting_load : list Z := [0x00; 0x00; 0x91; 0xE5].

(** The stages return what they printed, whether the test goes on, and memory. *)
Definition smoke_return42 (memory : t) : bool * list log_line * t :=
  let page := page_size memory in
  let return_code := u32 (page * 16) in
  let '(ok, memory) := prepare_code memory return_code page return_42 in
  if negb ok then (false, [smoke_error "MAP_RETURN42" "failed to prepare code page"], memory)
  else
    let '(result, memory) :=
      execute jit_new jit_step memory (smoke_request return_code zero_regs 1) in
    let passed := execution_ok result 1 && (reg (er_regs result) 0 =? 42) in
    (passed && er_fastmem_enabled result,
     [("a32.return42.fastmem_enabled", LBool (er_fastmem_enabled result));
      ("a32.return42.r0", LUnsigned (reg (er_regs result) 0));
      ("a32.return42.code_callbacks", LUnsigned (er_code_read_callbacks result));
      ("a32.return42.status", verdict passed)], memory).

Definition smoke_memory (memory : t) : bool * list log_line * t :=
  let page := page_size memory in
  let memory_code := u32 (page * 17) in
  let data := u32 (page * 32) in
  let map_error := smoke_error "MAP_LOAD_STORE" "failed to prepare mapped pages" in
  let '(ok, memory) := prepare_code memory memory_code page load_store in
  if negb ok then (false, [map_error], memory)
  else
    let '(ok, memory) := map memory data page rw in
    if negb ok then (false, [map_error], memory)
    else
      let '(result, memory) :=
        execute jit_new jit_step memory
          (smoke_request memory_code (set_reg (set_reg zero_regs 0 0x12345678) 1 data) 2) in
      let stored_bytes := read memory data 4 in
      let stored_ok := bool_decide (is_Some stored_bytes) in
      let stored := decode_u32_le (default [0; 0; 0; 0] stored_bytes) 0 in
      let fastmem_direct :=
        (er_data_read_callbacks result =? 0) && (er_data_write_callbacks result =? 0) in
      let memory_ok :=
        execution_ok result 2 && er_fastmem_enabled result
        && (reg (er_regs result) 2 =? 0x12345678) && stored_ok
        && (stored =? 0x12345678) && fastmem_direct in
      (memory_ok,
       [("a32.memory.fastmem_enabled", LBool (er_fastmem_enabled result));
        ("a32.memory.data_read_callbacks", LUnsigned (er_data_read_callbacks result));
        ("a32.memory.data_write_callbacks", LUnsigned (er_data_write_callbacks result));
        ("a32.memory.r2", LHex (reg (er_regs result) 2));
        ("a32.memory.stored", LHex stored);
        ("a32.memory.fastmem_direct", LBool fastmem_direct);
        ("a32.memory.status", verdict memory_ok)], memory).

Definition smoke_fault (memory : t) : bool * list log_line * t :=
  let page := page_size memory in
  let fault_code := u32 (page * 18) in
  let unmapped := u32 (page * 48) in
  let '(ok, memory) := prepare_code memory fault_code page faulting_load in
  if negb ok then (false, [], memory)
  else
    let '(result, memory) :=
      execute jit_new jit_step memory (smoke_request fault_code (set_reg zero_regs 1 unmapped) 1) in
    let fallback_ok :=
      er_fastmem_enabled result && er_memory_fault result
      && negb (er_data_read_callbacks result =? 0) in
    (fallback_ok,
     [("a32.fastmem_fault.memory_fault", LBool (er_memory_fault result));
      ("a32.fastmem_fault.data_read_callbacks", LUnsigned (er_data_read_callbacks result));
      ("a32.fastmem_fault.status", verdict fallback_ok)], memory).

(** [run_smoke(exercise_fault)] on a constructed memory: the exit code, the report
    and the memory. *)
Definition run_smoke (memory : t) (exercise_fault : bool) : Z * list log_line * t :=
  let fastmem := fastmem_base memory in
  let head :=
    ("fastmem.available", LBool (bool_decide (is_Some fastmem)))
    :: match fastmem with Some base => [("fastmem.base", LHex base)] | None => [] end in
  let '(ok, lines1, memory) := smoke_return42 memory in
  if negb ok then (1, head ++ lines1, memory)
  else
    let '(ok, lines2, memory) := smoke_memory memory in
    if negb ok then (1, head ++ lines1 ++ lines2, memory)
    else if exercise_fault then
      let '(ok, lines3, memory) := smoke_fault memory in
      (if ok then 0 else 1, head ++ lines1 ++ lines2 ++ lines3, memory)
    else (0, head ++ lines1 ++ lines2 ++ [("a32.fastmem_fault.status", LText "NOT_RUN")], memory).
End run_smoke.

(** ** One- and two-instruction runs of [execute] *)
Section runs.
Context {I : Type} (jit_new : option Z -> I) (jit_step : @Jit I -> jit_prog t (@Jit I)).

Definition quiet_flags (e : Environment) : Prop :=
  exception_raised_ e = false /\ memory_fault_ e = false.

(** The result of a run that ends in [j], [e]. *)
Definition run_result (memory : t) (j : @Jit I) (e : Environment) (n : Z) : ExecutionResult :=
  {| er_regs := jit_regs j; er_cpsr := jit_cpsr j; er_instructions_executed := n;
     er_exception_raised := exception_raised_ e; er_memory_fault := memory_fault_ e;
     er_stop_pc_reached := false; er_svc_immediate := svc_immediate_ e;
     er_fastmem_enabled := bool_decide (is_Some (gm_fastmem_base memory));
     er_code_read_callbacks := code_read_callbacks_ e;
     er_data_read_callbacks := data_read_callbacks_ e;
     er_data_write_callbacks := data_write_callbacks_ e |}.

Definition start_jit (memory : t) (entry_pc : Z) (regs : regs_t) : @Jit I :=
  {| jit_regs := set_reg regs 15 entry_pc; jit_cpsr := 0x10;
     jit_internal := jit_new (gm_fastmem_base memory) |}.

Lemma loop_two {S R} (step : S -> S + R) p s s1 r :
  (2 <= p)%positive -> step s = inl s1 -> step s1 = inr r -> loop p step s = inr r.
Proof.
  intros Hp H1 H2. rewrite loop_loop_nat.
  destruct (Pos.to_nat p) as [|[|n]] eqn:E; [lia|lia|]. cbn. by rewrite H1, H2.
Qed.

Lemma loop_three {S R} (step : S -> S + R) p s s1 s2 r :
  (3 <= p)%positive -> step s = inl s1 -> step s1 = inl s2 -> step s2 = inr r -> loop p step s = inr r.
Proof.
  intros Hp H1 H2 H3. rewrite loop_loop_nat.
  destruct (Pos.to_nat p) as [|[|[|n]]] eqn:E; [lia|lia|lia|]. cbn. by rewrite H1, H2, H3.
Qed.

Definition run_state (n : Z) (j : @Jit I) (e : Environment) (m : t) : exec_state :=
  {| xs_executed := n; xs_stop_pc_reached := false; xs_jit := j; xs_env := e; xs_mem := m |}.

(** One iteration without a stop address, and the exit of the full slice. *)
Lemma exec_step_run pc regs count n j e m j' e' m' :
  n < count < 2 ^ 64 -> 0 <= n -> quiet_flags e -> run_prog (jit_step j) (e, m) = (j', (e', m')) ->
  exec_step jit_step (smoke_request pc regs count) (run_state n j e m) = inl (run_state (n + 1) j' e' m').
Proof.
  intros Hn H0 [Hx Hf] H. unfold exec_step. cbn. rewrite Hx, Hf, (proj2 (Z.ltb_lt _ _)) by lia. cbn.
  rewrite H. cbn. rewrite andb_false_r, u64_small by word_lia. done.
Qed.

Lemma exec_step_done pc regs n j e m :
  exec_step jit_step (smoke_request pc regs n) (run_state n j e m) = inr (run_state n j e m).
Proof. unfold exec_step. cbn. by rewrite Z.ltb_irrefl. Qed.

Lemma execute_one memory pc regs j e m :
  run_prog (jit_step (start_jit memory pc regs)) (new_environment, memory) = (j, (e, m)) ->
  execute jit_new jit_step memory (smoke_request pc regs 1) = (run_result memory j e 1, m).
Proof.
  intros H. unfold execute.
  rewrite (loop_two _ _ (initial_state jit_new memory (smoke_request pc regs 1)) (run_state 1 j e m)
             (run_state 1 j e m)); [done|unfold exec_fuel; lia| |apply exec_step_done].
  by apply (exec_step_run pc regs 1 0 (start_jit memory pc regs) new_environment memory j e m).
Qed.

Lemma execute_two memory pc regs j1 e1 m1 j e m :
  run_prog (jit_step (start_jit memory pc regs)) (new_environment, memory) = (j1, (e1, m1)) ->
  quiet_flags e1 ->
  run_prog (jit_step j1) (e1, m1) = (j, (e, m)) ->
  execute jit_new jit_step memory (smoke_request pc regs 2) = (run_result memory j e 2, m).
Proof.
  intros H1 Hq H2. unfold execute.
  rewrite (loop_three _ _ (initial_state jit_new memory (smoke_request pc regs 2)) (run_state 1 j1 e1 m1)
             (run_state 2 j e m) (run_state 2 j e m)); [done|unfold exec_fuel; lia| | |apply exec_step_done].
  - by apply (exec_step_run pc regs 2 0 (start_jit memory pc regs) new_environment memory j1 e1 m1).
  - by apply (exec_step_run pc regs 2 1).
Qed.
End runs.

(** ** Preparing pages *)
Lemma host_ok_filter calls : Forall (eq HostOk) calls -> filter (fun o => o <> HostOk) calls = [].
Proof.
  induction 1 as [|c l <- _ IH]; [done|]. rewrite filter_cons, decide_False; [done|]. by intros [].
Qed.

Definition smoke_ok (ps base : Z) (m : t) : Prop :=
  (mapped_wf m /\ host_coherent m) /\ failures m = 0%nat /\ page_size_ m = ps /\ reservation_ m = base.

Definition page_free (ps : Z) (m : t) (k : Z) : Prop :=
  forall x, in_range (ps * k) ps x -> (page_at m x).1 = None.

Lemma mprotect_reservation m f c p : reservation_ (mprotect m f c p).2 = reservation_ m.
Proof. unfold mprotect. by destruct (host_calls m) as [|[] ?]. Qed.

Lemma map_reservation m a n p : reservation_ (map m a n p).2 = reservation_ m.
Proof.
  unfold map. repeat case_match; try done; cbn;
  match goal with H : mprotect _ _ _ _ = _ |- _ =>
    by rewrite <- (mprotect_reservation m (page_index m a) (n / page_size_ m) (host_protection p)), H end.
Qed.

Lemma protect_reservation m a n p : reservation_ (protect m a n p).2 = reservation_ m.
Proof.
  unfold protect. repeat case_match; try done; cbn;
  match goal with H : mprotect _ _ _ _ = _ |- _ =>
    by rewrite <- (mprotect_reservation m (page_index m a) (n / page_size_ m) (host_protection p)), H end.
Qed.

Lemma write_coherent m a bs m' : write m a bs = (true, m') -> host_coherent m -> host_coherent m'.
Proof. intros E Hc. unfold write in E. case_match; by simplify_eq. Qed.

Section prepare.
Context (ps base : Z).
Hypothesis Hps : 8 <= ps /\ ps * 49 <= 2 ^ 32 /\ ps mod 4 = 0.

Lemma page_bounds k : 0 <= k < 49 -> 0 <= ps * k /\ ps * k + ps <= 2 ^ 32 /\ (ps * k) mod 4 = 0.
Proof.
  intros Hk. split_and!; [nia..|]. rewrite <- Z.mul_mod_idemp_l by done.
  destruct Hps as (_ & _ & ->). done.
Qed.

Lemma smoke_page_ranged m k : page_size_ m = ps -> 0 <= k < 49 -> ranged_ok m (ps * k) ps.
Proof.
  intros Hp Hk. pose proof (page_bounds k Hk). unfold ranged_ok, page_range_ok. rewrite Hp.
  split; [word_lia|]. split_and!; try word_lia.
  - rewrite Z.mul_comm. by apply Z_mod_mult.
  - by apply Z_mod_same_full.
Qed.

Lemma map_page_ok m k p :
  smoke_ok ps base m -> 0 <= k < 49 -> perm_shape p -> page_free ps m k ->
  exists m', map m (ps * k) ps p = (true, m') /\ smoke_ok ps base m' /\
    forall x, page_at m' x = if decide (in_range (ps * k) ps x) then (Some p, (page_at m x).2) else page_at m x.
Proof.
  intros ((Hwf & Hc) & Hf & Hp & Hb) Hk Hsh Hfree. pose proof (smoke_page_ranged m k Hp Hk) as Hr.
  pose proof (ranged_ok_no_wrap _ _ _ Hr) as Hn. pose proof Hr as [Hu _].
  pose proof (map_wf m (ps * k) ps p Hwf Hu Hn) as Hwf'.
  pose proof (map_reservation m (ps * k) ps p) as Hres.
  pose proof (exec_op_coherent (OpMap (ps * k) ps p) m Hwf (conj Hu Hn) Hc (proj2 (failures_reliable m) Hf)) as [Hc' _].
  cbn in Hc'.
  destruct (map m (ps * k) ps p) as [ok m'] eqn:E. cbn in Hwf', Hres, Hc'.
  destruct (map_progress m _ _ p ok m' Hwf Hr Hsh Hfree E) as [F1 F2].
  destruct ok; [|specialize (F2 eq_refl); lia].
  destruct (map_effect m _ _ p m' Hwf Hu Hn E) as [Hps' Hat].
  exists m'. split_and!; [done|..|done]. split; [done|]. split_and!; [lia|congruence|congruence].
Qed.

Lemma prepare_code_ok m k code :
  smoke_ok ps base m -> 0 <= k < 49 -> page_free ps m k -> is_bytes code ->
  0 < Z.of_nat (length code) <= ps ->
  exists m', prepare_code m (ps * k) ps code = (true, m') /\ smoke_ok ps base m' /\
    (forall x, in_range (ps * k) (Z.of_nat (length code)) x ->
       page_at m' x = (Some rx, byte_at code (x - ps * k))) /\
    (forall x, ~ in_range (ps * k) ps x -> page_at m' x = page_at m x).
Proof.
  intros Hm Hk Hfree Hcode Hlen. pose proof (page_bounds k Hk). unfold prepare_code.
  destruct (map_page_ok m k rw Hm Hk) as (m1 & -> & Hm1 & Hat1); [unfold perm_shape, rw; tauto|done|].
  cbn [negb]. destruct Hm1 as ((Hwf1 & Hc1) & Hf1 & Hp1 & Hb1). pose proof (smoke_page_ranged m1 k Hp1 Hk) as Hr1.
  destruct (write_progress m1 (ps * k) code Hwf1) as [m2 E2]; [apply Hr1|lia|unfold kGuestAddressSpaceSize; word_lia| |].
  { intros x Hx. rewrite Hat1, decide_True; [done|]. unfold in_range in *. lia. }
  rewrite E2. cbn [negb].
  assert (Hwf2 : mapped_wf m2) by (eapply mapped_write_wf; [exact Hwf1|done|apply Hr1| |exact E2]; unfold span_max; word_lia).
  assert (Hb2 : reservation_ m2 = base) by (unfold write in E2; case_match; by simplify_eq).
  assert (Hco2 : host_coherent m2) by (by eapply write_coherent).
  apply write_effect in E2 as (Hp2 & Hc2 & Hat2). rewrite Hp1 in Hp2.
  assert (Hf2 : failures m2 = 0%nat) by (unfold failures; by rewrite Hc2).
  pose proof (smoke_page_ranged m2 k Hp2 Hk) as Hr2. pose proof (ranged_ok_no_wrap _ _ _ Hr2) as Hn2.
  pose proof Hr2 as [Hu _]. pose proof (protect_wf m2 (ps * k) ps rx Hwf2 Hu Hn2) as Hwf3.
  pose proof (protect_reservation m2 (ps * k) ps rx) as Hb3.
  pose proof (exec_op_coherent (OpProtect (ps * k) ps rx) m2 Hwf2 (conj Hu Hn2) Hco2
    (proj2 (failures_reliable m2) Hf2)) as [Hc3 _]. cbn in Hc3.
  destruct (protect m2 (ps * k) ps rx) as [ok m3] eqn:E3. cbn in Hwf3, Hb3, Hc3.
  destruct (protect_progress m2 _ _ rx ok m3 Hwf2 Hr2) as [F1 F2]; [unfold perm_shape, rx; cbn; tauto| |done|].
  { intros x Hx. rewrite Hat2, Hat1, (decide_True _ _ Hx). case_decide; by eexists. }
  destruct ok; [|specialize (F2 eq_refl); lia].
  destruct (protect_effect m2 _ _ rx m3 Hwf2 Hu Hn2 E3) as [Hp3 Hat3].
  exists m3. split; [done|]. split; [split; [done|]; split_and!; [lia|congruence|congruence]|]. split.
  - intros x Hx. rewrite Hat3, decide_True by (unfold in_range in *; lia). by rewrite Hat2, decide_True.
  - intros x Hx. rewrite Hat3, decide_False by done. rewrite Hat2, decide_False by (unfold in_range in *; lia).
    by rewrite Hat1, decide_False.
Qed.
End prepare.

(** ** Accesses through the view *)
Lemma view_access m a n q :
  mapped_wf m -> is_u32 a -> 0 < n -> a + n <= 2 ^ 32 ->
  (forall x, in_range a n x -> exists p, (page_at m x).1 = Some p /\ has_permission p q = true) ->
  valid_access m a n q = true.
Proof.
  intros Hwf Ha Hn Hend Hall. rewrite valid_access_in_space by (by apply Hwf || unfold span_max; word_lia).
  apply forallb_elem. intros x Hx%elem_of_seqZ. destruct (Hall x Hx) as (p & Hp & Hq).
  by rewrite page_at_allows, Hp, Hq, (proj2 (in_space_iff x)) by word_lia.
Qed.

Lemma view_copy m a bs :
  (forall x, in_range a (Z.of_nat (length bs)) x -> (page_at m x).2 = byte_at bs (x - a)) ->
  host_copy m a (Z.of_nat (length bs)) = bs.
Proof.
  intros Hall. unfold host_copy. apply list_eq_same_length with (length bs).
  - done.
  - rewrite length_fmap, length_seqZ. lia.
  - intros i x y Hi Hx Hy. apply list_lookup_fmap_Some in Hx as (z & -> & [Hz _]%lookup_seqZ).
    specialize (Hall z). unfold in_range in Hall. cbn in Hall. rewrite Hall by lia.
    unfold byte_at. replace (Z.to_nat (z - a)) with i by lia. by rewrite Hy.
Qed.

Lemma read_unmapped m a : mapped_wf m -> is_u32 a -> (page_at m a).1 = None -> read m a 4 = None.
Proof.
  intros Hwf Ha Hn. destruct (read m a 4) as [bs|] eqn:E; [|done]. exfalso. unfold read in E.
  rewrite valid_access_in_space in E by (by apply Hwf || done).
  destruct (forallb _ _) eqn:Ef; [|done]. rewrite forallb_elem in Ef.
  specialize (Ef a). rewrite elem_of_seqZ in Ef. specialize (Ef ltac:(lia)).
  apply andb_true_iff in Ef as [_ Ef]. by rewrite page_at_allows, Hn in Ef.
Qed.

(** The word at [pc] is fetched and is [w]. *)
Definition fetches (m : t) (pc w : Z) : Prop :=
  exists bs, read_code m pc 4 = Some bs /\ decode_u32_le bs 0 = w.

Lemma fetches_view m pc code w :
  mapped_wf m -> is_u32 pc -> pc + 4 <= 2 ^ 32 -> length code = 4%nat -> decode_u32_le code 0 = w ->
  (forall x, in_range pc 4 x -> page_at m x = (Some rx, byte_at code (x - pc))) -> fetches m pc w.
Proof.
  intros Hwf Ha Hend Hlen Hw Hall. exists code. split; [|done]. unfold read_code.
  rewrite view_access; [|done|done|lia|done|].
  - cbn [negb]. f_equal. change 4 with (Z.of_nat 4). rewrite <- Hlen. apply view_copy.
    intros x Hx. by rewrite Hall by (by rewrite Hlen in Hx).
  - intros x Hx. rewrite Hall by done. by exists rx.
Qed.

(** ** What the test asks of the JIT

    Third-party code. A JIT with a fastmem pointer executes the test's instructions as
    the A32 architecture defines them, except that a data access goes to the host page
    behind the guest address: where the host protection permits it, the access acts on
    the host bytes; where it does not, the host's trap makes the JIT call the data
    callback of its environment. [fast] is the JIT's own notion of a fastmem-enabled
    state. Nothing is assumed about which of the two happens in the test, nor about
    what the callbacks do: those follow from the page table and from [Environment]. *)
Definition host_permits (m : t) (a prot : Z) : bool :=
  negb (Z.land (cell (host_prot m) (page_index m a)) prot =? 0).

(** A store to the host bytes. *)
Definition window_store (m : t) (a : Z) (bytes : list Z) : t :=
  mk (reservation_ m) (page_size_ m) (page_state_ m) (poke a bytes (host_bytes m)) (host_prot m) (host_calls m).

Definition jit_load (a : Z) (s : Environment * t) : Z * (Environment * t) :=
  if host_permits s.2 a PROT_READ then (decode_u32_le (host_copy s.2 a 4) 0, s) else MemoryRead32 a s.

Definition jit_store (a v : Z) (s : Environment * t) : Environment * t :=
  if host_permits s.2 a PROT_WRITE then (s.1, window_store s.2 a (encode_u32_le v)) else MemoryWrite32 a v s.

Section jit_contract.
Context {I : Type} (jit_new : option Z -> I) (jit_step : @Jit I -> jit_prog t (@Jit I)).
Context (fast : I -> Prop).

(** Fetching changes neither flag nor data callback counter. *)
Definition undisturbed (e e' : Environment) : Prop :=
  exception_raised_ e' = exception_raised_ e /\ memory_fault_ e' = memory_fault_ e /\
  data_read_callbacks_ e' = data_read_callbacks_ e /\ data_write_callbacks_ e' = data_write_callbacks_ e.

Definition ready (j : @Jit I) (m : t) (instruction : Z) : Prop :=
  fast (jit_internal j) /\ length (jit_regs j) = 16%nat /\ fetches m (reg (jit_regs j) 15) instruction.

Record a32_jit : Prop := {
  aj_new base : fast (jit_new (Some base));
  (** [mov r0, #42] *)
  aj_mov j e m : ready j m 0xE3A0002A ->
    exists j' e', undisturbed e e' /\ run_prog (jit_step j) (e, m) = (j', (e', m)) /\
      reg (jit_regs j') 0 = 42;
  (** [str r0, [r1]] *)
  aj_str j e m : ready j m 0xE5810000 -> reg (jit_regs j) 1 mod 4 = 0 ->
    exists j' e', undisturbed e e' /\
      run_prog (jit_step j) (e, m) = (j', jit_store (reg (jit_regs j) 1) (reg (jit_regs j) 0) (e', m)) /\
      (host_permits m (reg (jit_regs j) 1) PROT_WRITE = true -> fast (jit_internal j')) /\
      jit_regs j' = set_reg (jit_regs j) 15 (u32 (reg (jit_regs j) 15 + 4));
  (** [ldr r2, [r1]] and [ldr r0, [r1]] *)
  aj_ldr j e m d : ready j m (if (d =? 2)%nat then 0xE5912000 else 0xE5910000) -> d = 2%nat \/ d = 0%nat ->
    reg (jit_regs j) 1 mod 4 = 0 ->
    exists j' e', undisturbed e e' /\
      run_prog (jit_step j) (e, m) = (j', (jit_load (reg (jit_regs j) 1) (e', m)).2) /\
      reg (jit_regs j') d = (jit_load (reg (jit_regs j) 1) (e', m)).1;
}.
End jit_contract.

(** Where the guest may write, the host page takes the store; where it may read, the load. *)
Lemma jit_store_write m a v m' e :
  mapped_wf m -> host_coherent m -> page_allows m a MemoryPermission.Write = true ->
  write m a (encode_u32_le v) = (true, m') -> jit_store a v (e, m) = (e, m').
Proof.
  intros Hwf Hc Ha Hw. unfold jit_store, host_permits. cbn [fst snd].
  rewrite (proj2 (coherent_permits m a Hwf Hc)), Ha. unfold write in Hw. case_match; by simplify_eq.
Qed.

Lemma jit_load_read m a bs e :
  mapped_wf m -> host_coherent m -> page_allows m a MemoryPermission.Read = true ->
  read m a 4 = Some bs -> jit_load a (e, m) = (decode_u32_le bs 0, (e, m)).
Proof.
  intros Hwf Hc Ha Hr. unfold jit_load, host_permits. cbn [fst snd].
  rewrite (proj1 (coherent_permits m a Hwf Hc)), Ha. unfold read in Hr. case_match; by simplify_eq.
Qed.

(** A load from a page that is not mapped traps and faults in the callback. *)
Lemma jit_load_fault m a e :
  mapped_wf m -> host_coherent m -> (page_at m a).1 = None -> read m a 4 = None ->
  jit_load a (e, m) = (0, (set_fault (count_data_read e), m)).
Proof.
  intros Hwf Hc Ha Hr. unfold jit_load, host_permits. cbn [fst snd].
  rewrite (proj1 (coherent_permits m a Hwf Hc)), page_at_allows, Ha. unfold MemoryRead32, MemoryRead. cbn -[read].
  change (Z.of_nat 4) with 4. by rewrite Hr.
Qed.

(** ** The test passes *)
Lemma length_set_reg regs i v : length (set_reg regs i v) = length regs.
Proof. apply (length_insert (A := Z)). Qed.

Lemma reg_set_same regs i v : (i < length regs)%nat -> reg (set_reg regs i v) i = v.
Proof. intros Hi. unfold reg, set_reg. by rewrite (list_lookup_insert_eq (A := Z)). Qed.

Lemma reg_set_other regs i k v : i <> k -> reg (set_reg regs i v) k = reg regs k.
Proof. intros Hi. unfold reg, set_reg. by rewrite (list_lookup_insert_ne (A := Z)). Qed.

Section passes.
Context {I : Type} (jit_new : option Z -> I) (jit_step : @Jit I -> jit_prog t (@Jit I)).
Context (fast : I -> Prop) (ps base : Z).
Hypothesis Hjit : a32_jit jit_new jit_step fast.
Hypothesis Hps : 8 <= ps /\ ps * 49 <= 2 ^ 32 /\ ps mod 4 = 0.
Hypothesis Hbase : base <> 0.

Lemma smoke_fastmem m : smoke_ok ps base m -> gm_fastmem_base m = Some base.
Proof. intros (_ & _ & _ & <-). cbn. unfold fastmem_base. by rewrite (proj2 (Z.eqb_neq _ _) Hbase). Qed.

Lemma page_word k : 0 <= k < 49 -> u32 (ps * k) = ps * k.
Proof. intros Hk. pose proof (page_bounds ps Hps k Hk). apply u32_small. word_lia. Qed.

(** The fetch of word [i] of code prepared on page [k]. *)
Lemma prepared_fetches m k code i w :
  mapped_wf m -> 0 <= k < 49 -> 4 * i + 4 <= Z.of_nat (length code) <= ps -> 0 <= i ->
  decode_u32_le (take 4 (drop (Z.to_nat (4 * i)) code)) 0 = w ->
  (forall x, in_range (ps * k) (Z.of_nat (length code)) x ->
     page_at m x = (Some rx, byte_at code (x - ps * k))) ->
  fetches m (ps * k + 4 * i) w.
Proof.
  intros Hwf Hk Hi H0 Hw Hat. pose proof (page_bounds ps Hps k Hk) as (B1 & B2 & _).
  eapply (fetches_view m _ (take 4 (drop (Z.to_nat (4 * i)) code))); [done|word_lia|lia| |done|].
  { rewrite length_take, length_drop. lia. }
  intros x Hx. unfold in_range in Hx. rewrite Hat by (unfold in_range; lia). f_equal. unfold byte_at.
  rewrite lookup_take_lt, lookup_drop by lia. do 2 f_equal. lia.
Qed.

Lemma start_ready m pc regs w :
  smoke_ok ps base m -> length regs = 16%nat -> fetches m pc w ->
  ready fast (start_jit jit_new m pc regs) m w.
Proof.
  intros Hm Hl Hfe. unfold ready, start_jit. cbn [jit_internal jit_regs].
  rewrite (smoke_fastmem m Hm), length_set_reg, reg_set_same by lia. split_and!; [apply Hjit|done|done].
Qed.

Lemma smoke_return42_ok m :
  smoke_ok ps base m -> page_free ps m 16 ->
  exists lines m', smoke_return42 jit_new jit_step m = (true, lines, m') /\ smoke_ok ps base m' /\
    forall x, ~ in_range (ps * 16) ps x -> page_at m' x = page_at m x.
Proof.
  intros Hm Hfree. unfold smoke_return42. pose proof Hm as (_ & _ & Hp & _). unfold page_size.
  rewrite Hp, page_word by lia.
  destruct (prepare_code_ok ps base Hps m 16 return_42 Hm ltac:(lia) Hfree) as (m1 & -> & Hm1 & Hcode & Hout).
  { by apply is_bytes_forallb. } { cbn. lia. }
  cbn [negb].
  assert (Hready : ready fast (start_jit jit_new m1 (ps * 16) zero_regs) m1 0xE3A0002A).
  { apply start_ready; [done|done|]. replace (ps * 16) with (ps * 16 + 4 * 0) by lia.
    eapply (prepared_fetches m1 16 return_42 0); [apply Hm1|lia|cbn; lia|lia|done|done]. }
  destruct (aj_mov _ _ _ Hjit _ new_environment _ Hready) as (j & e & (E1 & E2 & _) & Hrun & Hr0).
  rewrite (execute_one _ _ _ _ _ _ _ _ Hrun). unfold execution_ok. cbn. rewrite Hr0, E1, E2.
  pose proof (smoke_fastmem m1 Hm1) as Hfm. cbn in Hfm. rewrite Hfm. by eexists _, m1.
Qed.

Lemma encode_u32_length v : length (encode_u32_le v) = 4%nat.
Proof. done. Qed.

(** Disjoint pages. *)
Lemma pages_apart k1 k2 x : k1 <> k2 -> in_range (ps * k1) ps x -> ~ in_range (ps * k2) ps x.
Proof. unfold in_range. intros Hne H1 H2. assert (k1 < k2 \/ k2 < k1) as [H|H] by lia; nia. Qed.

(** A word stored into a read-write page. *)
Lemma store_word_ok m k v :
  smoke_ok ps base m -> 0 <= k < 49 -> is_u32 v ->
  (forall x, in_range (ps * k) ps x -> (page_at m x).1 = Some rw) ->
  exists m', write m (ps * k) (encode_u32_le v) = (true, m') /\ smoke_ok ps base m' /\
    read m' (ps * k) 4 = Some (encode_u32_le v) /\
    forall x, ~ in_range (ps * k) ps x -> page_at m' x = page_at m x.
Proof.
  intros Hm Hk Hv Hat. pose proof (page_bounds ps Hps k Hk) as (B1 & B2 & _). pose proof Hm as ((W & Co) & F & P & R).
  assert (Hb : is_bytes (encode_u32_le v)) by apply encode_u32_le_bytes.
  destruct (write_progress m (ps * k) (encode_u32_le v) W) as [m' E]; rewrite ?encode_u32_length.
  { word_lia. } { lia. } { unfold kGuestAddressSpaceSize. lia. }
  { intros x Hx. apply Hat. unfold in_range in *. lia. }
  exists m'. split; [done|]. split; [|split].
  - split; [split|split_and!].
    + apply (mapped_write_wf m (ps * k) (encode_u32_le v) m'); [done|done|word_lia| |done].
      rewrite encode_u32_length. unfold span_max. lia.
    + by eapply write_coherent.
    + apply write_effect in E as (_ & Hc & _). unfold failures. by rewrite Hc.
    + apply write_effect in E as (-> & _). done.
    + unfold write in E. case_match; by simplify_eq.
  - change 4 with (Z.of_nat (length (encode_u32_le v))).
    pose proof (gm_read_write_same m (ps * k) (encode_u32_le v) m') as Hrw.
    apply Hrw; [done|done|word_lia| |done].
    rewrite encode_u32_length. unfold span_max. lia.
  - apply write_effect in E as (_ & _ & Hx). rewrite encode_u32_length in Hx.
    intros x Hn. rewrite Hx, decide_False; [done|]. unfold in_range in *. lia.
Qed.

(** The two instructions of the load/store test. *)
Lemma load_store_run m m' v :
  smoke_ok ps base m -> smoke_ok ps base m' -> is_u32 v ->
  (forall x, in_range (ps * 17) 8 x -> page_at m x = (Some rx, byte_at load_store (x - ps * 17))) ->
  (forall x, in_range (ps * 17) 8 x -> page_at m' x = page_at m x) ->
  (page_at m (ps * 32)).1 = Some rw ->
  write m (ps * 32) (encode_u32_le v) = (true, m') -> read m' (ps * 32) 4 = Some (encode_u32_le v) ->
  let regs := set_reg (set_reg zero_regs 0 v) 1 (ps * 32) in
  exists (j : @Jit I) e, execute jit_new jit_step m (smoke_request (ps * 17) regs 2) = (run_result m j e 2, m') /\
    undisturbed new_environment e /\ reg (jit_regs j) 2 = v.
Proof.
  intros Hm Hm' Hv Hcode Hsame Hrw Hw Hread regs. pose proof (page_bounds ps Hps 17 ltac:(lia)) as (B1 & B2 & _).
  pose proof (page_bounds ps Hps 32 ltac:(lia)) as (_ & _ & B3).
  assert (R1 : ready fast (start_jit jit_new m (ps * 17) regs) m 0xE5810000).
  { apply start_ready; [done|done|]. replace (ps * 17) with (ps * 17 + 4 * 0) by lia.
    eapply (prepared_fetches m 17 load_store 0); [apply Hm|lia|cbn; lia|lia|done|done]. }
  destruct Hm as [[Hwf Hco] _], Hm' as [[Hwf' Hco'] Hm'].
  assert (Ha : page_allows m (ps * 32) MemoryPermission.Write = true) by (by rewrite page_at_allows, Hrw).
  assert (Ha' : page_allows m' (ps * 32) MemoryPermission.Read = true).
  { rewrite page_at_allows. apply write_effect in Hw as (_ & _ & Hw). rewrite Hw.
    case_decide; cbn [fst]; by rewrite Hrw. }
  destruct (aj_str _ _ _ Hjit _ new_environment _ R1)
    as (j1 & e1 & (X1 & F1 & D1 & S1) & Hrun1 & Hfast1 & Hregs1); [done|].
  change (reg (jit_regs (start_jit jit_new m (ps * 17) regs)) 1) with (ps * 32) in Hrun1, Hfast1.
  change (reg (jit_regs (start_jit jit_new m (ps * 17) regs)) 0) with v in Hrun1.
  rewrite (jit_store_write m _ v m' e1 Hwf Hco Ha Hw) in Hrun1.
  unfold host_permits in Hfast1. rewrite (proj2 (coherent_permits m _ Hwf Hco)), Ha in Hfast1.
  specialize (Hfast1 eq_refl).
  assert (Hregs2 : jit_regs j1 = set_reg (set_reg regs 15 (ps * 17)) 15 (ps * 17 + 4)).
  { rewrite Hregs1. unfold start_jit. cbn [jit_regs]. rewrite reg_set_same by (cbn; lia).
    rewrite u32_small by word_lia. done. }
  assert (R2 : ready fast j1 m' 0xE5912000).
  { split; [done|]. rewrite Hregs2, !length_set_reg, reg_set_same by (rewrite !length_set_reg; cbn; lia).
    split; [done|]. change (ps * 17 + 4) with (ps * 17 + 4 * 1).
    eapply (prepared_fetches m' 17 load_store 1); [done|lia|cbn; lia|lia|done|].
    intros x Hx. rewrite Hsame by done. by apply Hcode. }
  assert (Hr1 : reg (jit_regs j1) 1 = ps * 32).
  { rewrite Hregs2, !reg_set_other by done. apply reg_set_same. cbn. lia. }
  destruct (aj_ldr _ _ _ Hjit _ e1 _ 2%nat R2)
    as (j2 & e2 & (X2 & F2 & D2 & S2) & Hrun2 & Hr2); [by left|by rewrite Hr1|].
  rewrite Hr1, (jit_load_read m' _ _ e2 Hwf' Hco' Ha' Hread) in Hrun2, Hr2. cbn [fst snd] in Hrun2, Hr2.
  exists j2, e2. rewrite (execute_two _ _ _ _ _ _ _ _ _ _ _ Hrun1 (conj X1 F1) Hrun2). split; [done|].
  split; [split_and!; congruence|]. rewrite Hr2. by apply decode_encode_u32.
Qed.

Lemma smoke_memory_ok m :
  smoke_ok ps base m -> page_free ps m 17 -> page_free ps m 32 ->
  exists lines m', smoke_memory jit_new jit_step m = (true, lines, m') /\ smoke_ok ps base m' /\
    forall x, ~ in_range (ps * 17) ps x -> ~ in_range (ps * 32) ps x -> page_at m' x = page_at m x.
Proof.
  intros Hm Hfree1 Hfree2. unfold smoke_memory. pose proof Hm as (_ & _ & Hp & _). unfold page_size.
  rewrite Hp, !page_word by lia.
  destruct (prepare_code_ok ps base Hps m 17 load_store Hm ltac:(lia) Hfree1) as (m1 & -> & Hm1 & Hcode & Hout1).
  { by apply is_bytes_forallb. } { cbn. lia. }
  cbn [negb].
  destruct (map_page_ok ps base Hps m1 32 rw Hm1 ltac:(lia)) as (m2 & -> & Hm2 & Hat2).
  { unfold perm_shape, rw; tauto. }
  { intros x Hx. rewrite Hout1 by (by apply (pages_apart 32)). by apply Hfree2. }
  cbn [negb].
  destruct (store_word_ok m2 32 0x12345678 Hm2) as (m3 & Hw & Hm3 & Hread & Hout3); [lia|by split|..].
  { intros x Hx. by rewrite Hat2, decide_True. }
  assert (Hpage : forall x, in_range (ps * 17) 8 x -> ~ in_range (ps * 32) ps x).
  { intros x Hx. apply (pages_apart 17); [lia|]. unfold in_range in *. lia. }
  destruct (load_store_run m2 m3 0x12345678 Hm2 Hm3) as (j & e & -> & (X & F & D & S) & Hr2); try done.
  { intros x Hx. rewrite Hat2, decide_False by (by apply Hpage). by apply Hcode. }
  { intros x Hx. by apply Hout3, Hpage. }
  { rewrite Hat2, decide_True; [done|]. unfold in_range. lia. }
  rewrite Hread. unfold execution_ok. cbn -[decode_u32_le]. rewrite Hr2, X, F, D, S.
  pose proof (smoke_fastmem m2 Hm2) as Hfm. cbn in Hfm. rewrite Hfm.
  eexists _, m3. split; [reflexivity|]. split; [done|].
  intros x Hx1 Hx2. rewrite Hout3, Hat2, decide_False by done. by apply Hout1.
Qed.

Lemma smoke_fault_ok m :
  smoke_ok ps base m -> page_free ps m 18 -> page_free ps m 48 ->
  exists lines m', smoke_fault jit_new jit_step m = (true, lines, m').
Proof.
  intros Hm Hfree1 Hfree2. unfold smoke_fault. pose proof Hm as (_ & _ & Hp & _). unfold page_size.
  rewrite Hp, !page_word by lia.
  destruct (prepare_code_ok ps base Hps m 18 faulting_load Hm ltac:(lia) Hfree1) as (m1 & -> & Hm1 & Hcode & Hout1).
  { by apply is_bytes_forallb. } { cbn. lia. }
  cbn [negb]. pose proof (page_bounds ps Hps 48 ltac:(lia)) as (B1 & B2 & B3).
  assert (R : ready fast (start_jit jit_new m1 (ps * 18) (set_reg zero_regs 1 (ps * 48))) m1 0xE5910000).
  { apply start_ready; [done|done|]. replace (ps * 18) with (ps * 18 + 4 * 0) by lia.
    eapply (prepared_fetches m1 18 faulting_load 0); [apply Hm1|lia|cbn; lia|lia|done|done]. }
  assert (Hr1 : reg (jit_regs (start_jit jit_new m1 (ps * 18) (set_reg zero_regs 1 (ps * 48)))) 1 = ps * 48) by done.
  assert (Hnone : read m1 (ps * 48) 4 = None).
  { apply read_unmapped; [apply Hm1|word_lia|]. rewrite Hout1; [apply Hfree2|apply (pages_apart 48); [lia|]];
      unfold in_range; lia. }
  assert (Hpage : (page_at m1 (ps * 48)).1 = None).
  { rewrite Hout1; [apply Hfree2|apply (pages_apart 48); [lia|]]; unfold in_range; lia. }
  destruct (aj_ldr _ _ _ Hjit _ new_environment _ 0%nat R) as (j & e & (X & F & D & S) & Hrun & _);
    [by right|by rewrite Hr1|].
  rewrite Hr1, (jit_load_fault m1 _ e (proj1 (proj1 Hm1)) (proj2 (proj1 Hm1)) Hpage Hnone) in Hrun. cbn [snd] in Hrun.
  rewrite (execute_one _ _ _ _ _ _ _ _ Hrun). cbn. rewrite D.
  pose proof (smoke_fastmem m1 Hm1) as Hfm. cbn in Hfm. rewrite Hfm.
  by eexists _, m1.
Qed.

(** On a fresh memory whose host calls succeed, with its fastmem window, the smoke
    test returns 0. *)
Lemma run_smoke_passes calls m0 exercise_fault :
  make ps (Some base) calls = Some m0 -> Forall (eq HostOk) calls ->
  (run_smoke jit_new jit_step m0 exercise_fault).1.1 = 0.
Proof.
  intros Hmake Hcalls. pose proof (mapped_make_wf _ _ _ _ Hmake) as Hwf.
  pose proof (proj1 (make_coherent _ _ _ _ Hmake)) as Hco0.
  assert (H0 : smoke_ok ps base m0 /\ forall x, page_at m0 x = (None, 0)).
  { unfold make in Hmake. repeat case_match; simplify_eq. split.
    - split; [split; [done|exact Hco0]|].
      split_and!; [|done|done]. unfold failures. cbn. by rewrite (host_ok_filter calls).
    - intros x. unfold page_at, is_mapped, state_at. cbn. by rewrite !cell_empty. }
  destruct H0 as [Hm0 Hat0]. unfold run_smoke.
  destruct (smoke_return42_ok m0 Hm0) as (l1 & m1 & -> & Hm1 & Hout1).
  { intros x _. by rewrite Hat0. }
  cbn [negb].
  destruct (smoke_memory_ok m1 Hm1) as (l2 & m2 & -> & Hm2 & Hout2).
  { intros x Hx. rewrite Hout1, Hat0; [done|]. by apply (pages_apart 17). }
  { intros x Hx. rewrite Hout1, Hat0; [done|]. by apply (pages_apart 32). }
  cbn [negb]. destruct exercise_fault; [|done].
  assert (Hfree : forall k, k <> 16 -> k <> 17 -> k <> 32 -> page_free ps m2 k).
  { intros k H1 H2 H3 x Hx. rewrite Hout2, Hout1, Hat0; [done|..]; by apply (pages_apart k). }
  destruct (smoke_fault_ok m2 Hm2) as (l3 & m3 & ->); [by apply Hfree..|done].
Qed.
End passes.

(** ** Witness: an interpreter of the four instructions *)
Definition next_regs (regs : regs_t) : regs_t := set_reg regs 15 (u32 (reg regs 15 + 4)).

Definition with_regs (j : @Jit unit) (regs : regs_t) : @Jit unit :=
  {| jit_regs := regs; jit_cpsr := jit_cpsr j; jit_internal := tt |}.

(** Accesses through the window, or by callback when the host page traps. *)
Definition demo_load (j : @Jit unit) (d : nat) : jit_prog t (@Jit unit) :=
  let address := reg (jit_regs j) 1 in
  let finish v := JitDone (with_regs j (next_regs (set_reg (jit_regs j) d v))) in
  JitFastmem (fun m => (if host_permits m address PROT_READ then 1 else 0, m))
    (fun permitted =>
       if permitted =? 0 then JitRead 4 address finish
       else JitFastmem (fun m => (decode_u32_le (host_copy m address 4) 0, m)) finish).

Definition demo_store (j : @Jit unit) : jit_prog t (@Jit unit) :=
  let address := reg (jit_regs j) 1 in
  let value := reg (jit_regs j) 0 in
  let finish := JitDone (with_regs j (next_regs (jit_regs j))) in
  JitFastmem
    (fun m => if host_permits m address PROT_WRITE
              then (1, window_store m address (encode_u32_le value)) else (0, m))
    (fun permitted => if permitted =? 0 then JitWrite 4 address value finish else finish).

Definition demo_jit (j : @Jit unit) : jit_prog t (@Jit unit) :=
  JitReadCode (reg (jit_regs j) 15) (fun w =>
    match w with
    | None => JitException (JitDone j)
    | Some w =>
        if w =? 0xE3A0002A then JitDone (with_regs j (next_regs (set_reg (jit_regs j) 0 42)))
        else if w =? 0xE5810000 then demo_store j
        else if w =? 0xE5912000 then demo_load j 2
        else if w =? 0xE5910000 then demo_load j 0
        else JitException (JitDone j)
    end).

Lemma demo_fetch (j : @Jit unit) e (m : t) w :
  fetches m (reg (jit_regs j) 15) w ->
  MemoryReadCode (reg (jit_regs j) 15) (e, m) = (Some w, (count_code_read e, m)).
Proof. intros (bs & Hb & <-). unfold MemoryReadCode. cbn. by rewrite Hb. Qed.

Lemma reg_next regs d v : length regs = 16%nat -> (d < 15)%nat -> reg (next_regs (set_reg regs d v)) d = v.
Proof. intros Hl Hd. unfold next_regs. rewrite reg_set_other by lia. apply reg_set_same. lia. Qed.

Lemma demo_jit_ok : a32_jit (fun _ => tt) demo_jit (fun _ => True).
Proof.
  split; [done|..]; intros j e m.
  - intros (_ & Hl & Hfe). eexists _, (count_code_read e). unfold demo_jit. cbn [run_prog]. rewrite (demo_fetch j e m _ Hfe).
    split; [by split_and!|]. split; [reflexivity|]. apply reg_next; [done|lia].
  - intros (_ & Hl & Hfe) _. eexists _, (count_code_read e). unfold demo_jit. cbn [run_prog]. rewrite (demo_fetch j e m _ Hfe).
    split; [by split_and!|]. split; [|split; [done|]].
    + unfold jit_store, demo_store. cbn -[window_store host_permits MemoryWrite].
      destruct (host_permits m _ _); reflexivity.
    + done.
  - intros d (_ & Hl & Hfe) Hd _. set (a := reg (jit_regs j) 1).
    exists (with_regs j (next_regs (set_reg (jit_regs j) d (jit_load a (count_code_read e, m)).1))), (count_code_read e).
    split; [by split_and!|]. split; [|apply reg_next; [done|lia]].
    unfold demo_jit. cbn [run_prog]. rewrite (demo_fetch j e m _ Hfe). unfold jit_load.
    destruct Hd as [-> | ->]; cbn -[host_permits MemoryRead decode_u32_le host_copy]; fold a;
      (destruct (host_permits m a _); cbn -[MemoryRead decode_u32_le host_copy];
       [reflexivity|unfold MemoryRead32; by destruct (MemoryRead 4 a _) as [v s']]).
Qed.
