(* ===== verification/Diagnostics.v ===== *)
(** * Diagnostics of the Android tools
      ([src/tools/android/android_address_space_probe.cpp],
       [src/tools/android/android_runtime_smoke.cpp])

    The parts of the two programs that do not depend on what the host kernel
    answers: the async-signal-safe crash marker, the complete write, the creation of
    parent directories, the choice of a log file, the low-mapping report and the
    command lines. C strings are the lists of their bytes without the terminator; a
    buffer with a cursor is the list written so far and its capacity. Host calls
    are parameters. *)

From S2P Require Import Prelude Bytes.

(** ** The crash marker *)

(** [append_literal(cursor, end, text)]; [limit] is [end] as an offset. *)
Fixpoint append_literal (limit : nat) (out text : list Z) : list Z :=
  match text with
  | [] => out
  | c :: rest =>
      if (length out <? limit)%nat then append_literal limit (out ++ [c]) rest else out
  end.

(** The [do ... while] that fills [reversed], least significant digit first;
    [room] is what is left of the array. *)
Fixpoint decimal_digits (room : nat) (value : Z) : list Z :=
  match room with
  | O => []
  | S room' =>
      48 + value mod 10
      :: (if value / 10 =? 0 then [] else decimal_digits room' (value / 10))
  end.

(** [append_unsigned_decimal(cursor, end, value)] *)
Definition append_unsigned_decimal (limit : nat) (out : list Z) (value : Z) : list Z :=
  append_literal limit out (rev (decimal_digits 32 value)).

Definition hex_digit (d : Z) : Z := byte_at (bytes_of_string "0123456789abcdef") d.

Fixpoint hex_digits (room : nat) (value : Z) : list Z :=
  match room with
  | O => []
  | S room' =>
      hex_digit (Z.land value 0x0f)
      :: (if Z.shiftr value 4 =? 0 then [] else hex_digits room' (Z.shiftr value 4))
  end.

(** [append_hex(cursor, end, value)] *)
Definition append_hex (limit : nat) (out : list Z) (value : Z) : list Z :=
  append_literal limit (append_literal limit out (bytes_of_string "0x")) (rev (hex_digits 16 value)).

(** [sizeof(message) - 1] *)
Definition message_limit : nat := 255.

(** The message [crash_handler] builds; [address] is [info->si_addr]. *)
Definition crash_message (component : string) (signal_number pid : Z) (address : option Z) : list Z :=
  let out := append_literal message_limit []
               (bytes_of_string ("A32CRASH|component=" ++ component ++ "|signal=")) in
  let out := append_unsigned_decimal message_limit out signal_number in
  let out := append_literal message_limit out (bytes_of_string "|pid=") in
  let out := append_unsigned_decimal message_limit out pid in
  let out :=
    match address with
    | Some a => append_hex message_limit (append_literal message_limit out (bytes_of_string "|addr=")) a
    | None => out
    end in
  append_literal message_limit out [10].

(** ** Complete writes *)

(** What [write(fd, data, size)] returns: a positive count, EINTR, or something
    else (0 or another error). *)
Inductive write_outcome : Set := Wrote (n : Z) | Interrupted | Refused.

(** [safe_write_all(fd, data, size)] against the host's answers, in order; the
    bytes that reached the file, and whether the loop ended. *)
Fixpoint safe_write_all (answers : list write_outcome) (data : list Z) : list Z * bool :=
  if is_empty data then ([], true)
  else
    match answers with
    | [] => ([], false)
    | Wrote n :: rest =>
        let '(written, ended) := safe_write_all rest (drop (Z.to_nat n) data) in
        (take (Z.to_nat n) data ++ written, ended)
    | Interrupted :: rest => safe_write_all rest data
    | Refused :: _ => ([], true)
    end.

Definition STDERR_FILENO : Z := 2.

(** [crash_handler]: the files that get the marker. *)
Definition crash_handler (component : string) (crash_log_fd signal_number pid : Z)
    (address : option Z) : list (Z * list Z) :=
  let message := crash_message component signal_number pid address in
  (STDERR_FILENO, message)
  :: (if (0 <=? crash_log_fd) && negb (crash_log_fd =? STDERR_FILENO)
      then [(crash_log_fd, message)] else []).

(** ** Log files *)
Definition kPathCapacity : Z := 768.
Definition EEXIST : Z := 17.
Definition EINVAL : Z := 22.
Definition ENAMETOOLONG : Z := 36.
Definition slash : Z := 47.

(** The host: [mkdir], [fopen(path, "w")] ([None]: success, else [errno]) and the
    environment. Every path is created at most once per call. *)
Record Host := {
  host_mkdir : list Z -> option Z;
  host_fopen : list Z -> option Z;
  host_getenv : string -> option (list Z);
}.

(** [mkdir(...) != 0 && errno != EEXIST] *)
Definition mkdir_fails (h : Host) (directory : list Z) : option Z :=
  match host_mkdir h directory with
  | Some e => if e =? EEXIST then None else Some e
  | None => None
  end.

(** The loop over the path, with the part left of the cursor; the directories it
    tried to create and the error it left with. *)
Fixpoint make_directories (h : Host) (left right : list Z) : list (list Z) * option Z :=
  match right with
  | [] => ([left], mkdir_fails h left)
  | c :: rest =>
      if c =? slash then
        match mkdir_fails h left with
        | Some e => ([left], Some e)
        | None =>
            let '(tried, e) := make_directories h (left ++ [c]) rest in (left :: tried, e)
        end
      else make_directories h (left ++ [c]) rest
  end.

(** [strrchr(buffer, '/')] as an index. *)
Fixpoint last_slash (path : list Z) : option nat :=
  match path with
  | [] => None
  | c :: rest =>
      match last_slash rest with
      | Some i => Some (S i)
      | None => if c =? slash then Some O else None
      end
  end.

(** [ensure_parent_directories(path)] *)
Definition ensure_parent_directories (h : Host) (path : option (list Z))
    : list (list Z) * option Z :=
  match path with
  | None => ([], Some EINVAL)
  | Some path =>
      if is_empty path then ([], Some EINVAL)
      else if kPathCapacity <=? Z.of_nat (length path) then ([], Some ENAMETOOLONG)
      else
        match last_slash path with
        | None | Some O => ([], None)
        | Some i => make_directories h (take 1 path) (drop 1 (take i path))
        end
  end.

(** [open_log_file(path)]: [None] on success, else [errno]. *)
Definition open_log_file (h : Host) (path : list Z) : option Z :=
  match snd (ensure_parent_directories h (Some path)) with
  | Some e => Some e
  | None => host_fopen h path
  end.

Record LoggingState := {
  file_enabled : bool;
  shared_download_selected : bool;
  shared_download_error : Z;
  fallback_error : Z;
  log_path : list Z;
}.

Definition kSharedDownloadLog : list Z :=
  bytes_of_string "/sdcard/Download/liba32android/address-space-probe.log".

Definition home_log (home : list Z) : list Z :=
  home ++ bytes_of_string "/liba32android/address-space-probe.log".

Definition local_log : list Z := bytes_of_string "./liba32android-address-space-probe.log".

(** A log file that was asked for by name: no fallback. *)
Definition configure_explicit (h : Host) (explicit_path : list Z) : LoggingState :=
  if kPathCapacity <=? Z.of_nat (length explicit_path)
  then Build_LoggingState false false 0 ENAMETOOLONG []
  else
    match open_log_file h explicit_path with
    | None => Build_LoggingState true false 0 0 explicit_path
    | Some e => Build_LoggingState false false 0 e explicit_path
    end.

(** The HOME attempt: opened, or the [errno] the code stores ([None]: HOME is unset
    or empty); a path that does not fit leaves the [errno] of the last failure. *)
Definition try_home (h : Host) (last_errno : Z) : option (list Z + Z) :=
  match host_getenv h "HOME" with
  | None => None
  | Some home =>
      if is_empty home then None
      else if Z.of_nat (length (home_log home)) <? kPathCapacity then
        match open_log_file h (home_log home) with
        | None => Some (inl (home_log home))
        | Some e => Some (inr e)
        end
      else Some (inr last_errno)
  end.

(** [configure_logging(requested_path, disable_file_log)] *)
Definition configure_logging (h : Host) (requested_path : option (list Z)) (disable_file_log : bool)
    : LoggingState :=
  if disable_file_log then Build_LoggingState false false 0 0 []
  else
    let explicit_path :=
      match requested_path with
      | Some p => Some p
      | None => host_getenv h "LIBA32ANDROID_LOG_FILE"
      end in
    match explicit_path with
    | Some ((_ :: _) as p) => configure_explicit h p
    | _ =>
        match open_log_file h kSharedDownloadLog with
        | None => Build_LoggingState true true 0 0 kSharedDownloadLog
        | Some shared_error =>
            match try_home h shared_error with
            | Some (inl p) => Build_LoggingState true false shared_error 0 p
            | home =>
                let home_error := match home with Some (inr e) => e | _ => 0 end in
                match open_log_file h local_log with
                | None => Build_LoggingState true false shared_error home_error local_log
                | Some e => Build_LoggingState false false shared_error e []
                end
            end
        end
    end.

(** ** The low-mapping report *)
Definition kFourGiB : Z := 2 ^ 32.
Definition kMaxPrintedLowMappings : Z := 64.

(** A mapping line: start, end and permissions. *)
Definition maps_entry : Type := Z * Z * string.

(** One iteration over the lines of the maps file; a line is the [sscanf] result
    when all three fields matched. The state is [count] and the printed ranges. *)
Definition low_mapping_step (s : Z * list maps_entry) (line : option maps_entry)
    : Z * list maps_entry :=
  let '(count, printed) := s in
  match line with
  | None => s
  | Some (start, end_, permissions) =>
      if kFourGiB <=? start then s
      else
        (count + 1,
         if Z.of_nat (length printed) <? kMaxPrintedLowMappings
         then printed ++ [(start, if kFourGiB <? end_ then kFourGiB else end_, permissions)]
         else printed)
  end.

Definition low_mappings (lines : list (option maps_entry)) : Z * list maps_entry :=
  foldl low_mapping_step (0, []) lines.

(** ** Command lines *)
Record ProbeArguments := {
  execute_generated_code : bool;
  disable_file_log : bool;
  crash_test : bool;
  requested_log_file : option (list Z);
}.

(** The argument loop of the probe's [main]; [None]: usage, exit code 2. *)
Fixpoint parse_probe_loop (a : ProbeArguments) (argv : list (list Z)) : option ProbeArguments :=
  match argv with
  | [] => Some a
  | arg :: rest =>
      if bool_decide (arg = bytes_of_string "--execute-generated-code")
      then parse_probe_loop (Build_ProbeArguments true (disable_file_log a) (crash_test a)
                               (requested_log_file a)) rest
      else if bool_decide (arg = bytes_of_string "--no-log-file")
      then parse_probe_loop (Build_ProbeArguments (execute_generated_code a) true (crash_test a)
                               (requested_log_file a)) rest
      else if bool_decide (arg = bytes_of_string "--crash-test")
      then parse_probe_loop (Build_ProbeArguments (execute_generated_code a) (disable_file_log a) true
                               (requested_log_file a)) rest
      else if bool_decide (arg = bytes_of_string "--log-file")
      then
        match rest with
        | path :: rest' =>
            parse_probe_loop (Build_ProbeArguments (execute_generated_code a) (disable_file_log a)
                                (crash_test a) (Some path)) rest'
        | [] => None
        end
      else None
  end.

Definition parse_probe_arguments (argv : list (list Z)) : option ProbeArguments :=
  match parse_probe_loop (Build_ProbeArguments false false false None) argv with
  | None => None
  | Some a =>
      if execute_generated_code a && crash_test a then None
      else if disable_file_log a && bool_decide (is_Some (requested_log_file a)) then None
      else Some a
  end.

(** ** The crash marker is complete and readable *)
Lemma append_literal_take limit out text :
  (length out <= limit)%nat -> append_literal limit out text = out ++ take (limit - length out) text.
Proof.
  revert out; induction text as [|c text IH]; intros out Hl; cbn [append_literal].
  { by rewrite take_nil, app_nil_r. }
  destruct (Nat.ltb_spec (length out) limit) as [Hlt|Hge].
  - rewrite IH by (rewrite length_app; cbn; lia). rewrite length_app, <- app_assoc. cbn.
    replace (limit - length out)%nat with (S (limit - (length out + 1))) by lia. done.
  - replace (limit - length out)%nat with O by lia. by rewrite app_nil_r.
Qed.

Lemma append_literal_fits limit out text :
  (length out + length text <= limit)%nat -> append_literal limit out text = out ++ text.
Proof. intros Hl. rewrite append_literal_take, take_ge by lia. done. Qed.

(** Rewrites the innermost append, whose buffer is already a list. *)
Ltac append_innermost :=
  match goal with
  | |- context [append_literal ?limit ?out ?text] =>
      lazymatch out with
      | context [append_literal] => fail
      | _ => rewrite (append_literal_fits limit out text) by (rewrite ?length_app; cbn; lia)
      end
  end.

(** Reading the fields back. *)
Definition parse_decimal (s : list Z) : Z := foldl (fun acc c => 10 * acc + (c - 48)) 0 s.
Definition hex_value (c : Z) : Z := if c <? 58 then c - 48 else c - 87.
Definition parse_hex (s : list Z) : Z := foldl (fun acc c => 16 * acc + hex_value c) 0 s.

Lemma foldl_rev {A B} (f : B -> A -> B) b l : foldl f b (rev l) = foldr (fun x acc => f acc x) b l.
Proof. induction l as [|x l IH]; [done|]. cbn. rewrite foldl_app. cbn. by rewrite IH. Qed.

Lemma decimal_digits_value room v :
  0 <= v < 10 ^ Z.of_nat room -> parse_decimal (rev (decimal_digits room v)) = v.
Proof.
  unfold parse_decimal. rewrite foldl_rev. revert v; induction room as [|room IH]; intros v Hv; cbn.
  { cbn in Hv. lia. }
  rewrite Nat2Z.inj_succ, Z.pow_succ_r in Hv by lia. pose proof (Z.div_mod v 10 ltac:(lia)) as Hd.
  destruct (Z.eqb_spec (v / 10) 0) as [E|E]; cbn.
  - lia.
  - rewrite IH; [lia|]. split; [by apply Z.div_pos; lia|]. apply Z.div_lt_upper_bound; lia.
Qed.

Lemma decimal_digits_length room n v :
  0 <= v < 10 ^ Z.of_nat n -> (1 <= n)%nat -> (length (decimal_digits room v) <= n)%nat.
Proof.
  revert n v; induction room as [|room IH]; intros n v Hv Hn; cbn; [lia|].
  destruct (Z.eqb_spec (v / 10) 0) as [E|E]; cbn; [lia|].
  destruct n as [|[|n]]; [lia| |].
  - exfalso. apply E. cbn in Hv. by apply Z.div_small.
  - apply le_n_S, IH; [|lia]. rewrite Nat2Z.inj_succ, Z.pow_succ_r in Hv by lia.
    split; [by apply Z.div_pos; lia|]. apply Z.div_lt_upper_bound; lia.
Qed.

Lemma hex_digit_value d : 0 <= d < 16 -> hex_value (hex_digit d) = d.
Proof.
  intros Hd. assert (Hall : Forall (fun d => hex_value (hex_digit d) = d) (seqZ 0 16))
    by (vm_compute; repeat constructor).
  rewrite Forall_forall in Hall. apply Hall, elem_of_seqZ. lia.
Qed.

Lemma hex_digits_value room v :
  0 <= v < 16 ^ Z.of_nat room -> parse_hex (rev (hex_digits room v)) = v.
Proof.
  unfold parse_hex. rewrite foldl_rev. revert v; induction room as [|room IH]; intros v Hv; cbn [hex_digits].
  { cbn in *. lia. }
  rewrite Nat2Z.inj_succ, Z.pow_succ_r in Hv by lia. pose proof (Z.div_mod v 16 ltac:(lia)) as Hd.
  pose proof (Z.mod_pos_bound v 16 ltac:(lia)) as Hm.
  change 0x0f with (Z.ones 4). rewrite Z.land_ones, Z.shiftr_div_pow2 by lia. change (2 ^ 4) with 16.
  destruct (Z.eqb_spec (v / 16) 0) as [E|E]; cbn [foldr]; rewrite hex_digit_value by lia.
  - lia.
  - rewrite IH; [lia|]. split; [by apply Z.div_pos; lia|]. apply Z.div_lt_upper_bound; lia.
Qed.

Lemma hex_digits_length room v : (length (hex_digits room v) <= room)%nat.
Proof.
  revert v; induction room as [|room IH]; intros v; cbn [hex_digits length]; [lia|].
  destruct (Z.shiftr v 4 =? 0); cbn [length]; [lia|]. by apply le_n_S.
Qed.

(** The three numeric fields as printed. *)
Definition decimal_text (v : Z) : list Z := rev (decimal_digits 32 v).
Definition hex_text (v : Z) : list Z := rev (hex_digits 16 v).

Lemma decimal_text_length v : is_u64 v -> (length (decimal_text v) <= 20)%nat.
Proof.
  intros Hv. unfold decimal_text. rewrite length_rev. apply decimal_digits_length; [|lia].
  unfold is_u64 in Hv. change (Z.of_nat 20) with 20. lia.
Qed.

Lemma bytes_of_string_app s1 s2 : bytes_of_string (s1 ++ s2) = bytes_of_string s1 ++ bytes_of_string s2.
Proof.
  unfold bytes_of_string. induction s1 as [|c s1 IH]; [done|].
  change (String c s1 ++ s2)%string with (String c (s1 ++ s2)). cbn. f_equal. exact IH.
Qed.

(** The crash marker is never truncated and can be read back: for any signal
    number, process id and fault address (64-bit values) the handler writes the
    whole line, terminated by a newline, within its 256-byte stack buffer, and the
    decimal and hexadecimal fields denote exactly the numbers. *)
Theorem crash_message_exact component signal_number pid address :
  (length (bytes_of_string component) <= 100)%nat ->
  is_u64 signal_number -> is_u64 pid -> from_option is_u64 True address ->
  let message := crash_message component signal_number pid address in
  message =
    bytes_of_string "A32CRASH|component=" ++ bytes_of_string component ++ bytes_of_string "|signal="
    ++ decimal_text signal_number ++ bytes_of_string "|pid=" ++ decimal_text pid
    ++ match address with
       | Some a => bytes_of_string "|addr=0x" ++ hex_text a
       | None => []
       end ++ [10] /\
  (length message <= 255)%nat /\
  parse_decimal (decimal_text signal_number) = signal_number /\
  parse_decimal (decimal_text pid) = pid /\
  match address with Some a => parse_hex (hex_text a) = a | None => True end.
Proof.
  intros Hc Hs Hp Ha. cbv zeta.
  pose proof (decimal_text_length _ Hs) as Ls. pose proof (decimal_text_length _ Hp) as Lp.
  assert (Hdec : forall v, is_u64 v -> parse_decimal (decimal_text v) = v).
  { intros v Hv. apply decimal_digits_value. unfold is_u64 in Hv. change (Z.of_nat 32) with 32. lia. }
  assert (La : forall a, (length (hex_text a) <= 16)%nat)
    by (intros a; unfold hex_text; rewrite length_rev; apply hex_digits_length).
  assert (Hm : crash_message component signal_number pid address =
    bytes_of_string "A32CRASH|component=" ++ bytes_of_string component ++ bytes_of_string "|signal="
    ++ decimal_text signal_number ++ bytes_of_string "|pid=" ++ decimal_text pid
    ++ match address with
       | Some a => bytes_of_string "|addr=0x" ++ hex_text a
       | None => []
       end ++ [10]).
  { unfold crash_message, append_unsigned_decimal, append_hex, message_limit.
    fold (decimal_text signal_number) (decimal_text pid). rewrite !bytes_of_string_app.
    generalize dependent (bytes_of_string component). intros cb Hc.
    generalize dependent (decimal_text signal_number). generalize dependent (decimal_text pid). intros dp Lp ds Ls.
    destruct address as [a|];
      [fold (hex_text a); specialize (La a); generalize dependent (hex_text a); intros ha La|];
      repeat append_innermost; rewrite <- !app_assoc; done. }
  rewrite Hm. split; [done|]. split; [|split_and!; [by apply Hdec|by apply Hdec|]].
  - clear Hm. generalize dependent (bytes_of_string component). intros cb Hc.
    destruct address as [a|]; [specialize (La a)|]; rewrite !length_app; cbn -[decimal_text hex_text]; lia.
  - destruct address as [a|]; [|done]. apply hex_digits_value. cbn in Ha. unfold is_u64 in Ha.
    change (Z.of_nat 16) with 16. lia.
Qed.

Lemma crash_message_exact_witness :
  exists message,
    crash_message "android_runtime_smoke" 11 4242 (Some 0xdead0000) = message /\
    message = bytes_of_string "A32CRASH|component=android_runtime_smoke|signal=11|pid=4242|addr=0xdead0000"
              ++ [10] /\
    (length message <= 255)%nat.
Proof.
  eexists. split; [reflexivity|]. split; [vm_compute; reflexivity|].
  apply (crash_message_exact "android_runtime_smoke" 11 4242 (Some 0xdead0000)).
  - apply (bool_decide_unpack _). vm_compute. exact I.
  - split; vm_compute; congruence.
  - split; vm_compute; congruence.
  - split; vm_compute; congruence.
Defined.

(** ** Complete writes *)
Definition is_progress (a : write_outcome) : bool :=
  match a with Wrote n => 0 <? n | _ => false end.

(** What [safe_write_all] writes is a prefix of the data; when it ends without a
    refusal it is all of it; and it ends as soon as the host has made as many
    positive writes as there are bytes, however often it was interrupted. *)
Lemma safe_write_all_spec answers data :
  let '(written, ended) := safe_write_all answers data in
  written `prefix_of` data /\
  (ended = true -> Refused ∉ answers -> written = data) /\
  ((length data <= length (filter is_progress answers))%nat -> ended = true).
Proof.
  revert data; induction answers as [|a answers IH]; intros [|c data]; cbn [safe_write_all is_empty];
    try (split_and!; [apply prefix_nil|done|done]).
  { split_and!; [apply prefix_nil|done|]. cbn. lia. }
  destruct a as [n| |].
  - specialize (IH (drop (Z.to_nat n) (c :: data))). destruct (safe_write_all _ _) as [w ended].
    destruct IH as (Hp & Hall & Hend). split_and!.
    + rewrite <- (take_drop (Z.to_nat n) (c :: data)) at 2. by apply prefix_app.
    + intros He Hr. rewrite (Hall He) by set_solver. apply take_drop.
    + intros Hl. apply Hend. rewrite length_drop. rewrite filter_cons in Hl.
      destruct (decide (is_progress (Wrote n))) as [Hpos|Hpos]; cbn [length] in *.
      * apply Is_true_true in Hpos. cbn in Hpos. apply Z.ltb_lt in Hpos. lia.
      * lia.
  - specialize (IH (c :: data)). destruct (safe_write_all _ _) as [w ended].
    destruct IH as (Hp & Hall & Hend). split_and!; [done| |].
    + intros He Hr. apply Hall; [done|set_solver].
    + intros Hl. apply Hend. rewrite filter_cons in Hl. by rewrite decide_False in Hl by (intros []).
  - split_and!; [apply prefix_nil|set_solver|done].
Qed.

(** ** Parent directories *)

(** The directories of [path] from the top: every proper prefix before a slash
    after the first character, and the parent itself. *)
Fixpoint directories_from (left right : list Z) : list (list Z) :=
  match right with
  | [] => [left]
  | c :: rest =>
      if c =? slash then left :: directories_from (left ++ [c]) rest
      else directories_from (left ++ [c]) rest
  end.

Definition parent_directories (path : list Z) : list (list Z) :=
  match last_slash path with
  | None | Some O => []
  | Some i => directories_from (take 1 path) (drop 1 (take i path))
  end.

(** [tried] is [dirs] up to and including the first directory that fails. *)
Definition created_in_order (h : Host) (dirs tried : list (list Z)) (e : option Z) : Prop :=
  match e with
  | None => tried = dirs /\ Forall (fun d => mkdir_fails h d = None) dirs
  | Some err => exists pre d suf, dirs = pre ++ d :: suf /\ tried = pre ++ [d] /\
      Forall (fun d => mkdir_fails h d = None) pre /\ mkdir_fails h d = Some err
  end.

Lemma make_directories_spec h left right :
  let '(tried, e) := make_directories h left right in
  created_in_order h (directories_from left right) tried e.
Proof.
  revert left; induction right as [|c right IH]; intros left; cbn.
  - destruct (mkdir_fails h left) as [e|] eqn:E.
    + exists [], left, []. split_and!; [done|done|constructor|done].
    + split; [done|]. by repeat constructor.
  - destruct (c =? slash); [|apply IH]. destruct (mkdir_fails h left) as [e|] eqn:E.
    { exists [], left, (directories_from (left ++ [c]) right). split_and!; [done|done|constructor|done]. }
    specialize (IH (left ++ [c])). destruct (make_directories h (left ++ [c]) right) as [tried [e|]].
    + destruct IH as (pre & d & suf & -> & -> & Hok & Hd). exists (left :: pre), d, suf.
      split_and!; [done|done|by constructor|done].
    + destruct IH as [-> Hok]. split; [done|by constructor].
Qed.

(** Opening a log file creates its parent directories from the top: the
    directories are tried in order, each only after all shorter ones exist, and the
    first that cannot be created stops the loop with its [errno]; without a failure
    all of them exist. A missing, empty or overlong path creates nothing. *)
Theorem ensure_parent_directories_spec h path :
  let '(tried, e) := ensure_parent_directories h path in
  match path with
  | Some p =>
      if is_empty p then tried = [] /\ e = Some EINVAL
      else if kPathCapacity <=? Z.of_nat (length p) then tried = [] /\ e = Some ENAMETOOLONG
      else created_in_order h (parent_directories p) tried e
  | None => tried = [] /\ e = Some EINVAL
  end.
Proof.
  unfold ensure_parent_directories. destruct path as [p|]; [|done].
  destruct (is_empty p); [done|]. destruct (kPathCapacity <=? _); [done|].
  unfold parent_directories. destruct (last_slash p) as [[|i]|]; [by split; [|constructor]| |by split; [|constructor]].
  apply make_directories_spec.
Qed.

(** ** The chosen log file *)

(** The candidates in the order the program tries them. *)
Definition log_candidates (h : Host) (requested_path : option (list Z)) : list (list Z) :=
  match (match requested_path with Some p => Some p | None => host_getenv h "LIBA32ANDROID_LOG_FILE" end) with
  | Some ((_ :: _) as p) => if kPathCapacity <=? Z.of_nat (length p) then [] else [p]
  | _ =>
      kSharedDownloadLog
      :: match host_getenv h "HOME" with
         | Some ((_ :: _) as home) =>
             if Z.of_nat (length (home_log home)) <? kPathCapacity then [home_log home] else []
         | _ => []
         end ++ [local_log]
  end.

Definition opens (h : Host) (path : list Z) : bool :=
  match open_log_file h path with None => true | Some _ => false end.

(** The log file is the first candidate that opens: an explicitly requested
    path (argument, else environment) is the only candidate, otherwise the shared
    download directory, HOME and the working directory are tried in that order;
    logging to a file is enabled exactly when some candidate opens. *)
Theorem configure_logging_first h requested_path :
  let s := configure_logging h requested_path false in
  match List.find (opens h) (log_candidates h requested_path) with
  | Some p => file_enabled s = true /\ log_path s = p
  | None => file_enabled s = false
  end.
Proof.
  unfold configure_logging, log_candidates, configure_explicit, try_home, opens. cbv zeta.
  destruct (match requested_path with Some p => Some p | None => host_getenv h "LIBA32ANDROID_LOG_FILE" end)
    as [[|c p]|].
  2: { destruct (kPathCapacity <=? _); [done|]. cbn [List.find]. by destruct (open_log_file h (c :: p)). }
  all: cbn [List.find]; destruct (open_log_file h kSharedDownloadLog) as [e|]; [|done];
    destruct (host_getenv h "HOME") as [[|c' home]|]; cbn [is_empty];
    [|destruct (_ <? kPathCapacity)|]; cbn [app List.find];
    try (destruct (open_log_file h (home_log (c' :: home))) as [e'|]; [|done]); cbn [List.find];
    by destruct (open_log_file h local_log).
Qed.

(** ** The low-mapping report *)
Definition low_ranges (lines : list (option maps_entry)) : list maps_entry :=
  (fun r => (r.1.1, Z.min r.1.2 kFourGiB, r.2)) <$> filter (fun r => r.1.1 < kFourGiB) (omap id lines).

(** The report counts every mapping below 4 GiB, prints the first 64 of them
    clipped to 4 GiB, and so is truncated exactly when there are more. *)
Lemma low_mappings_spec lines :
  low_mappings lines = (Z.of_nat (length (low_ranges lines)), take 64 (low_ranges lines)).
Proof.
  unfold low_mappings. induction lines as [|line lines IH] using rev_ind; [done|].
  rewrite foldl_app, IH. cbn [foldl low_mapping_step]. unfold low_ranges.
  rewrite omap_app, filter_app, fmap_app.
  destruct line as [[[s e] perms]|]; cbn [omap list_omap id]; [|by rewrite app_nil_r].
  match goal with |- context [length ?k] => set (l := k) end. clearbody l. unfold maps_entry in *.
  destruct (Z.leb_spec kFourGiB s) as [Hge|Hlt].
  { rewrite filter_cons, decide_False by (cbn; lia). cbn. by rewrite app_nil_r. }
  rewrite filter_cons, decide_True by done. cbn [filter list_filter fmap list_fmap fst snd].
  rewrite length_app. cbn [length]. f_equal; [lia|].
  assert (Hmin : (if kFourGiB <? e then kFourGiB else e) = Z.min e kFourGiB)
    by (destruct (Z.ltb_spec kFourGiB e); lia).
  rewrite Hmin, length_take. unfold kMaxPrintedLowMappings.
  destruct (Z.ltb_spec (Z.of_nat (64 `min` length l)) 64) as [H|H].
  - rewrite !take_ge by (rewrite ?length_app; cbn; lia). done.
  - rewrite take_app_le by lia. done.
Qed.

(** ** The runtime smoke test's log file and command line *)

(** [ensure_parent_directories(path)] of the smoke test: one error for every path it
    cannot hold. *)
Definition smoke_ensure_parent_directories (h : Host) (path : option (list Z))
    : list (list Z) * option Z :=
  match path with
  | None => ([], Some EINVAL)
  | Some path =>
      if is_empty path || (kPathCapacity <=? Z.of_nat (length path)) then ([], Some EINVAL)
      else
        match last_slash path with
        | None | Some O => ([], None)
        | Some i => make_directories h (take 1 path) (drop 1 (take i path))
        end
  end.

(** [open_log(path)] *)
Definition open_log (h : Host) (path : list Z) : bool :=
  match snd (smoke_ensure_parent_directories h (Some path)) with
  | Some _ => false
  | None => match host_fopen h path with None => true | Some _ => false end
  end.

(** [try_log_path(selected, selected_size, path)]: the path when it was opened. *)
Definition try_log_path (h : Host) (path : option (list Z)) : option (list Z) :=
  match path with
  | Some p =>
      if is_empty p || (kPathCapacity <=? Z.of_nat (length p)) then None
      else if open_log h p then Some p else None
  | None => None
  end.

(** The two programs create the same directories and open the same files; only the
    [errno] of an overlong path differs. *)
Lemma open_log_agrees h path :
  open_log h path = opens h path /\
  fst (smoke_ensure_parent_directories h (Some path)) = fst (ensure_parent_directories h (Some path)).
Proof.
  unfold open_log, opens, open_log_file, smoke_ensure_parent_directories, ensure_parent_directories.
  destruct (is_empty path); cbn; [done|]. destruct (kPathCapacity <=? _); cbn; [done|].
  destruct (last_slash path) as [[|i]|]; [done| |done]. by destruct (make_directories _ _ _) as [tried [e|]].
Qed.

(** [crash_handler] of the smoke test: the files that get the marker, and the signal
    whose default disposition it restores. *)
Definition smoke_crash_handler (crash_log_fd signal_number pid : Z) (address : option Z)
    : list (Z * list Z) * Z :=
  let message := crash_message "android_runtime_smoke" signal_number pid address in
  ((STDERR_FILENO, message)
   :: (if (0 <=? crash_log_fd) && negb (crash_log_fd =? STDERR_FILENO)
       then [(crash_log_fd, message)] else []),
   signal_number).

(** A path below HOME that fits the candidate buffer. *)
Definition home_candidate (h : Host) (suffix : string) : option (list Z) :=
  match host_getenv h "HOME" with
  | Some home =>
      let path := home ++ bytes_of_string suffix in
      if is_empty home || negb (Z.of_nat (length path) <? kPathCapacity) then None else Some path
  | None => None
  end.

(** [configure_logging(requested_path, selected, selected_size)] *)
Definition smoke_configure_logging (h : Host) (requested_path : option (list Z)) : option (list Z) :=
  let explicit_path :=
    match requested_path with
    | Some p => Some p
    | None => host_getenv h "LIBA32ANDROID_LOG_FILE"
    end in
  match try_log_path h explicit_path with
  | Some p => Some p
  | None =>
      match try_log_path h (home_candidate h "/storage/downloads/liba32android-runtime-smoke.log") with
      | Some p => Some p
      | None =>
          match try_log_path h (Some (bytes_of_string "/sdcard/Download/liba32android/runtime-smoke.log")) with
          | Some p => Some p
          | None =>
              match try_log_path h (home_candidate h "/liba32android/runtime-smoke.log") with
              | Some p => Some p
              | None => try_log_path h (Some (bytes_of_string "./liba32android-runtime-smoke.log"))
              end
          end
      end
  end.

(** The smoke test falls back even when an explicit path was given: the selected
    file is the first of the candidates that is usable and opens. *)
Lemma smoke_configure_logging_first h requested_path :
  smoke_configure_logging h requested_path =
  head (omap (try_log_path h)
    [match requested_path with Some p => Some p | None => host_getenv h "LIBA32ANDROID_LOG_FILE" end;
     home_candidate h "/storage/downloads/liba32android-runtime-smoke.log";
     Some (bytes_of_string "/sdcard/Download/liba32android/runtime-smoke.log");
     home_candidate h "/liba32android/runtime-smoke.log";
     Some (bytes_of_string "./liba32android-runtime-smoke.log")]).
Proof.
  unfold smoke_configure_logging. cbn [omap list_omap]. cbv zeta.
  do 4 (destruct (try_log_path h _); [done|]). by destruct (try_log_path h _).
Qed.

Record SmokeArguments := {
  smoke_log_path : option (list Z);
  exercise_fault : bool;
  smoke_crash_test : bool;
}.

(** The argument loop of the smoke test's [main]; [None]: usage, exit code 2. *)
Fixpoint parse_smoke_loop (a : SmokeArguments) (argv : list (list Z)) : option SmokeArguments :=
  match argv with
  | [] => Some a
  | arg :: rest =>
      if bool_decide (arg = bytes_of_string "--log-file") && negb (is_empty rest)
      then
        match rest with
        | path :: rest' =>
            parse_smoke_loop (Build_SmokeArguments (Some path) (exercise_fault a) (smoke_crash_test a)) rest'
        | [] => None
        end
      else if bool_decide (arg = bytes_of_string "--exercise-fastmem-fault")
      then parse_smoke_loop (Build_SmokeArguments (smoke_log_path a) true (smoke_crash_test a)) rest
      else if bool_decide (arg = bytes_of_string "--crash-test")
      then parse_smoke_loop (Build_SmokeArguments (smoke_log_path a) (exercise_fault a) true) rest
      else None
  end.

Definition parse_smoke_arguments (argv : list (list Z)) : option SmokeArguments :=
  match parse_smoke_loop (Build_SmokeArguments None false false) argv with
  | None => None
  | Some a => if exercise_fault a && smoke_crash_test a then None else Some a
  end.

(** The crash test never runs together with the other mode of either program. *)
Lemma crash_test_exclusive argv :
  match parse_probe_arguments argv with
  | Some a => execute_generated_code a && crash_test a = false /\
              (disable_file_log a = true -> requested_log_file a = None)
  | None => True
  end /\
  match parse_smoke_arguments argv with
  | Some a => exercise_fault a && smoke_crash_test a = false
  | None => True
  end.
Proof.
  unfold parse_probe_arguments, parse_smoke_arguments. split.
  - destruct (parse_probe_loop _ _) as [a|]; [|done].
    destruct (execute_generated_code a && crash_test a) eqn:E1; [done|].
    destruct (disable_file_log a) eqn:E2; cbn; [|by rewrite E1, E2].
    case_bool_decide as Hs; [done|]. split; [done|]. intros _. by apply eq_None_not_Some.
  - destruct (parse_smoke_loop _ _) as [a|]; [|done].
    by destruct (exercise_fault a && smoke_crash_test a) eqn:E1.
Qed.
