(* ===== verification/HostProbe.v ===== *)
(** * The Android programs on their host
      ([src/tools/android/android_address_space_probe.cpp],
      [src/tools/android/android_runtime_smoke.cpp])

    The experiments of the address-space probe, the reports of both programs and
    their [main] functions, over the kernel interface of HostKernel. What the
    programs print is a list of lines, on the console and in the log file. *)

From stdpp Require Import pretty.
From S2P Require Import Prelude Bytes GuestMemory MappedMemory AddressView HostKernel Cpu Smoke Diagnostics.

#[local] Open Scope Z_scope.

(** ** The host *)
Record Utsname := {
  sysname : string;
  release : string;
  version : string;
  machine : string;
}.

(** What the programs read from the system. *)
Record HostInfo := {
  ndk_api : option Z;                               (* [__ANDROID_API__] *)
  arch : string;
  page_size_raw : Z;                                (* [sysconf(_SC_PAGESIZE)] *)
  system_property : string -> string;
  uname : result Z Utsname;
  mmap_min_addr : result Z (option Z);              (* the file, and what [fscanf] read *)
  self_maps : result Z (list (option maps_entry));
}.

(** [anonymous_flags()] *)
Definition anonymous_flags : Z := Z.lor (Z.lor MAP_PRIVATE MAP_ANONYMOUS) MAP_NORESERVE.

Inductive stream : Set := Stdout | Stderr.

Section programs.
Context {K : Type} `{HostKernel K}.

(** The kernel, what was printed, the log file's contents, and the globals
    [g_log_file] (whether it is open) and [g_crash_log_fd]. *)
Record ProbeState := {
  ps_kernel : K;
  ps_console : list (stream * log_line);
  ps_log_file : list log_line;
  ps_log_open : bool;
  ps_crash_log_fd : Z;
}.

Definition probe (A : Type) : Type := ProbeState -> A * ProbeState.

#[export] Instance probe_ret : MRet probe := fun A a s => (a, s).
#[export] Instance probe_bind : MBind probe := fun A B f p s => let '(a, s') := p s in f a s'.

(** A kernel call. *)
Definition kernel {A} (call : K -> A * K) : probe A :=
  fun s =>
    let '(a, k) := call (ps_kernel s) in
    (a, {| ps_kernel := k; ps_console := ps_console s; ps_log_file := ps_log_file s;
           ps_log_open := ps_log_open s; ps_crash_log_fd := ps_crash_log_fd s |}).

(** [tee_vprintf(console, ...)]: the console and, when it is open, the log file. *)
Definition tee_printf (console : stream) (line : log_line) : probe unit :=
  fun s =>
    (tt, {| ps_kernel := ps_kernel s;
            ps_console := ps_console s ++ [(console, line)];
            ps_log_file := if ps_log_open s then ps_log_file s ++ [line] else ps_log_file s;
            ps_log_open := ps_log_open s;
            ps_crash_log_fd := ps_crash_log_fd s |}).

Definition log_printf (key : string) (value : log_value) : probe unit := tee_printf Stdout (key, value).
Definition error_printf (key : string) (value : log_value) : probe unit := tee_printf Stderr (key, value).

Definition a32err (component code message : string) : log_value :=
  LText ("component=" ++ component ++ "|code=" ++ code ++ "|message=" ++ message).

Definition when (b : bool) (p : probe unit) : probe unit := if b then p else mret tt.

Fixpoint for_each {A} (body : A -> probe unit) (l : list A) : probe unit :=
  match l with
  | [] => mret tt
  | x :: rest => body x ;; for_each body rest
  end.

(** [open_log_file] succeeded: an empty file, also the crash handler's target. *)
Definition attach_log (fd : Z) : probe unit :=
  fun s => (tt, {| ps_kernel := ps_kernel s; ps_console := ps_console s; ps_log_file := [];
                   ps_log_open := true; ps_crash_log_fd := fd |}).

(** The end of [main]: detach the crash handler, close the log file. *)
Definition close_log : probe unit :=
  fun s => (tt, {| ps_kernel := ps_kernel s; ps_console := ps_console s;
                   ps_log_file := ps_log_file s; ps_log_open := false; ps_crash_log_fd := -1 |}).

(** ** Reports *)

(** [print_errno(key, error)] *)
Definition print_errno (key : string) (error : Z) : probe unit :=
  log_printf (key ++ ".errno") (LSigned error) ;;
  log_printf (key ++ ".error") (LStrerror error).

(** [print_property(property, key)]: an empty value is an unset property. *)
Definition print_property (info : HostInfo) (property key : string) : probe unit :=
  log_printf key (LText (if bool_decide (system_property info property = "") then "unavailable"
                         else system_property info property)).

(** [print_environment(page_size)] of the probe. *)
Definition print_environment (info : HostInfo) : probe unit :=
  log_printf "android.ndk_api" (match ndk_api info with Some n => LSigned n | None => LText "unknown" end) ;;
  print_property info "ro.build.version.sdk" "android.runtime_sdk" ;;
  print_property info "ro.build.version.release" "android.release" ;;
  log_printf "arch" (LText (arch info)) ;;
  log_printf "page_size" (LSigned (page_size_raw info)) ;;
  match uname info with
  | Ok u =>
      log_printf "kernel.sysname" (LText (sysname u)) ;;
      log_printf "kernel.release" (LText (release u)) ;;
      log_printf "kernel.version" (LText (version u)) ;;
      log_printf "kernel.machine" (LText (machine u))
  | Err e =>
      log_printf "kernel.status" (LText "unavailable") ;;
      print_errno "kernel" e
  end.

Definition print_mmap_min_addr (info : HostInfo) : probe unit :=
  match mmap_min_addr info with
  | Err e =>
      log_printf "mmap_min_addr.status" (LText "unavailable") ;;
      print_errno "mmap_min_addr" e
  | Ok (Some value) =>
      log_printf "mmap_min_addr.status" (LText "ok") ;;
      log_printf "mmap_min_addr.value" (LUnsigned value)
  | Ok None => log_printf "mmap_min_addr.status" (LText "parse_error")
  end.

Definition indexed (prefix : string) (i : nat) (suffix : string) : string :=
  prefix ++ "." ++ pretty (N.of_nat i) ++ suffix.

Definition print_low_mappings (info : HostInfo) : probe unit :=
  match self_maps info with
  | Err e =>
      log_printf "low_maps.status" (LText "unavailable") ;;
      print_errno "low_maps" e
  | Ok lines =>
      let '(count, printed) := low_mappings lines in
      for_each (fun '(i, (start, end_, permissions)) =>
                  log_printf (indexed "low_map" i "") (LMapping start end_ permissions))
        (imap pair printed) ;;
      log_printf "low_maps.status" (LText "ok") ;;
      log_printf "low_maps.count" (LUnsigned count) ;;
      log_printf "low_maps.printed" (LUnsigned (Z.of_nat (length printed))) ;;
      log_printf "low_maps.truncated" (LBool (Z.of_nat (length printed) <? count))
  end.

(** [print_logging_state(state, file_log_disabled)] *)
Definition print_logging_state (state : LoggingState) (file_log_disabled : bool) : probe unit :=
  if file_log_disabled then log_printf "diagnostics.file_log" (LText "disabled")
  else if file_enabled state then
    log_printf "diagnostics.file_log" (LText "enabled") ;;
    log_printf "diagnostics.log_file" (LPath (log_path state)) ;;
    log_printf "diagnostics.shared_download"
      (LText (if shared_download_selected state then "selected" else "unavailable")) ;;
    when (negb (shared_download_selected state) && negb (shared_download_error state =? 0))
      (print_errno "diagnostics.shared_download" (shared_download_error state))
  else
    log_printf "diagnostics.file_log" (LText "unavailable") ;;
    when (negb (shared_download_error state =? 0))
      (log_printf "diagnostics.shared_download" (LText "unavailable") ;;
       print_errno "diagnostics.shared_download" (shared_download_error state)) ;;
    when (negb (fallback_error state =? 0))
      (print_errno "diagnostics.file_log" (fallback_error state)).

(** ** Crash handlers *)
Definition SIGABRT : Z := 6.
Definition SIGBUS : Z := 7.
Definition SIGFPE : Z := 8.
Definition SIGILL : Z := 4.
Definition SIGSEGV : Z := 11.
Definition crash_signals : list Z := [SIGABRT; SIGBUS; SIGFPE; SIGILL; SIGSEGV].

(** The loop of the probe's [install_crash_handlers]: tries all signals. *)
Fixpoint install_handlers (signals : list Z) (installed : bool) : probe bool :=
  match signals with
  | [] => mret installed
  | signal_number :: rest =>
      r ← kernel (k_sigaction signal_number);
      match r with
      | Ok _ => install_handlers rest installed
      | Err e =>
          error_printf ("diagnostics.crash_handler." ++ pretty signal_number) (LText "failed") ;;
          error_printf ("diagnostics.crash_handler." ++ pretty signal_number ++ ".errno") (LSigned e) ;;
          install_handlers rest false
      end
  end.

Definition install_crash_handlers : probe bool := install_handlers crash_signals true.

(** [run_crash_test()] up to [std::abort()]. *)
Definition announce_crash_test : probe unit :=
  log_printf "crash_test.status" (LText "ARMED") ;;
  log_printf "crash_test.signal" (LText "SIGABRT").

(** ** Experiments *)

(** [probe_fastmem_reservation(page_size)]: reserve 4 GiB, commit one page of it,
    release it. *)
Definition probe_fastmem_reservation (page_size : Z) : probe unit :=
  let length := kFourGiB in
  mapping ← kernel (k_mmap None length PROT_NONE anonymous_flags);
  match mapping with
  | Err error =>
      log_printf "fastmem_4g.status" (LText "failed") ;;
      print_errno "fastmem_4g" error
  | Ok base =>
      log_printf "fastmem_4g.status" (LText "reserved") ;;
      log_printf "fastmem_4g.base" (LHex base) ;;
      log_printf "fastmem_4g.end" (LHex (u64 (base + kFourGiB))) ;;
      log_printf "fastmem_4g.base_below_4g" (LBool (base <? kFourGiB)) ;;
      let sample := base + 16 * page_size in
      committed ← kernel (k_mprotect sample page_size (Z.lor PROT_READ PROT_WRITE));
      match committed with
      | Ok _ =>
          kernel (fun k => (tt, k_store sample [0x5a] k)) ;;
          value ← kernel (fun k => (k_load sample k, k));
          log_printf "fastmem_4g.commit_page" (LText (if value =? 0x5a then "success" else "value_mismatch")) ;;
          reset ← kernel (k_mprotect sample page_size PROT_NONE);
          match reset with Ok _ => mret tt | Err error => print_errno "fastmem_4g.reset_page" error end
      | Err error =>
          log_printf "fastmem_4g.commit_page" (LText "failed") ;;
          print_errno "fastmem_4g.commit_page" error
      end ;;
      unmapped ← kernel (k_munmap base length);
      match unmapped with
      | Ok _ => log_printf "fastmem_4g.unmap" (LText "success")
      | Err error =>
          log_printf "fastmem_4g.unmap" (LText "failed") ;;
          print_errno "fastmem_4g.unmap" error
      end
  end.

Definition candidates : list Z :=
  [0x00010000; 0x00100000; 0x01000000; 0x10000000; 0x40000000; 0x80000000].

(** One candidate of [probe_fixed_noreplace]: ask for it, then ask again. *)
Definition probe_candidate (page_size : Z) (index : nat) (requested : Z) : probe unit :=
  let key := indexed "fixed_noreplace" index in
  let flags := Z.lor (Z.lor MAP_PRIVATE MAP_ANONYMOUS) MAP_FIXED_NOREPLACE in
  mapping ← kernel (k_mmap (Some requested) page_size PROT_NONE flags);
  match mapping with
  | Err error =>
      log_printf (key ".request") (LHex requested) ;;
      log_printf (key ".status") (LText "failed") ;;
      log_printf (key ".errno") (LSigned error) ;;
      log_printf (key ".error") (LStrerror error)
  | Ok actual =>
      log_printf (key ".request") (LHex requested) ;;
      log_printf (key ".actual") (LHex actual) ;;
      if negb (actual =? requested) then
        log_printf (key ".status") (LText "relocated_flag_not_enforced") ;;
        _ ← kernel (k_munmap actual page_size);
        mret tt
      else
        log_printf (key ".status") (LText "exact") ;;
        collision ← kernel (k_mmap (Some requested) page_size PROT_NONE flags);
        match collision with
        | Err collision_error =>
            log_printf (key ".collision_errno") (LSigned collision_error) ;;
            log_printf (key ".collision") (LText (if collision_error =? EEXIST then "EEXIST" else "failed_other"))
        | Ok collision_actual =>
            log_printf (key ".collision") (LText "unexpected_mapping") ;;
            log_printf (key ".collision_actual") (LHex collision_actual) ;;
            _ ← kernel (k_munmap collision_actual page_size);
            mret tt
        end ;;
        _ ← kernel (k_munmap actual page_size);
        mret tt
  end.

Definition probe_fixed_noreplace (page_size : Z) : probe unit :=
  for_each (fun '(index, requested) => probe_candidate page_size index requested) (imap pair candidates).

(** The two instructions of the generated function, which returns 42. *)
Definition generated_code (arch : string) : list Z :=
  if bool_decide (arch = "aarch64")
  then encode_u32_le 0x52800540 ++ encode_u32_le 0xd65f03c0
  else [0xb8; 0x2a; 0x00; 0x00; 0x00; 0xc3].

(** [probe_jit_wx(page_size, execute_generated_code)] *)
Definition probe_jit_wx (info : HostInfo) (page_size : Z) (execute_generated_code : bool) : probe bool :=
  mapping ← kernel (k_mmap None page_size (Z.lor PROT_READ PROT_WRITE) anonymous_flags);
  match mapping with
  | Err error =>
      log_printf "jit_wx.map" (LText "failed") ;;
      print_errno "jit_wx.map" error ;;
      log_printf "jit_wx.execute" (LText "NOT_RUN") ;;
      mret false
  | Ok mapping =>
      kernel (fun k => (tt, k_store mapping (generated_code (arch info)) k)) ;;
      protected ← kernel (k_mprotect mapping page_size (Z.lor PROT_READ PROT_EXEC));
      match protected with
      | Err error =>
          log_printf "jit_wx.mprotect_rw_to_rx" (LText "failed") ;;
          print_errno "jit_wx.mprotect_rw_to_rx" error ;;
          log_printf "jit_wx.execute" (LText "NOT_RUN") ;;
          _ ← kernel (k_munmap mapping page_size);
          mret false
      | Ok _ =>
          log_printf "jit_wx.mprotect_rw_to_rx" (LText "success") ;;
          execution_ok ←
            (if execute_generated_code then
               result ← kernel (k_call mapping);
               log_printf "jit_wx.execute" (LText "RUN") ;;
               log_printf "jit_wx.result" (LSigned result) ;;
               log_printf "jit_wx.result_check" (verdict (result =? 42)) ;;
               mret (result =? 42)
             else
               log_printf "jit_wx.execute" (LText "NOT_RUN") ;;
               mret true);
          unmapped ← kernel (k_munmap mapping page_size);
          match unmapped with Ok _ => mret tt | Err error => print_errno "jit_wx.unmap" error end ;;
          mret execution_ok
      end
  end.

(** ** [main] of the probe *)
Inductive outcome : Set := Exit (code : Z) | Aborted.

Definition print_usage : probe unit :=
  error_printf "usage" (LText ("android_address_space_probe [--execute-generated-code | --crash-test] "
                               ++ "[--log-file PATH] [--no-log-file]")).

(** From the page size on. *)
Definition run_probe (info : HostInfo) (a : ProbeArguments) : probe outcome :=
  if page_size_raw info <=? 0 then
    error_printf "A32ERR" (a32err "probe" "PAGE_SIZE_UNAVAILABLE" "sysconf(_SC_PAGESIZE) failed") ;;
    mret (Exit 2)
  else
    let page_size := page_size_raw info in
    log_printf "probe.version" (LUnsigned 2) ;;
    print_environment info ;;
    print_mmap_min_addr info ;;
    print_low_mappings info ;;
    probe_fastmem_reservation page_size ;;
    probe_fixed_noreplace page_size ;;
    execution_ok ← probe_jit_wx info page_size (execute_generated_code a);
    log_printf "probe.complete" (LBool true) ;;
    close_log ;;
    mret (Exit (if execute_generated_code a && negb execution_ok then 1 else 0)).

(** [main(argc, argv)]; [fd] is the descriptor [fileno] reports for the log file. *)
Definition probe_main (h : Host) (info : HostInfo) (fd : Z) (argv : list (list Z)) : probe outcome :=
  match parse_probe_arguments argv with
  | None => print_usage ;; mret (Exit 2)
  | Some a =>
      let explicit_log_requested :=
        bool_decide (is_Some (requested_log_file a))
        || bool_decide (is_Some (host_getenv h "LIBA32ANDROID_LOG_FILE")) in
      let logging := configure_logging h (requested_log_file a) (disable_file_log a) in
      when (file_enabled logging) (attach_log fd) ;;
      if explicit_log_requested && negb (disable_file_log a) && negb (file_enabled logging) then
        error_printf "A32ERR" (a32err "diagnostics" "LOG_FILE_OPEN_FAILED" "could not open requested log file") ;;
        when (negb (fallback_error logging =? 0))
          (error_printf "diagnostics.file_log.errno" (LSigned (fallback_error logging)) ;;
           error_printf "diagnostics.file_log.error" (LStrerror (fallback_error logging))) ;;
        mret (Exit 2)
      else
        print_logging_state logging (disable_file_log a) ;;
        crash_handlers_installed ← install_crash_handlers;
        log_printf "diagnostics.crash_markers" (LText (if crash_handlers_installed then "enabled" else "partial")) ;;
        if crash_test a && negb crash_handlers_installed then
          error_printf "A32ERR" (a32err "diagnostics" "CRASH_HANDLER_SETUP"
                                   "crash test requires all signal handlers") ;;
          mret (Exit 1)
        else if crash_test a then announce_crash_test ;; mret Aborted
        else run_probe info a
  end.

(** ** [main] of the runtime smoke test *)

(** [print_environment()] of the smoke test. *)
Definition smoke_print_environment (info : HostInfo) : probe unit :=
  log_printf "android.ndk_api" (match ndk_api info with Some n => LSigned n | None => LText "unknown" end) ;;
  print_property info "ro.build.version.sdk" "android.runtime_sdk" ;;
  print_property info "ro.build.version.release" "android.release" ;;
  log_printf "arch" (LText "aarch64") ;;
  log_printf "page_size" (LSigned (page_size_raw info)) ;;
  match uname info with
  | Ok u =>
      log_printf "kernel.release" (LText (release u)) ;;
      log_printf "kernel.version" (LText (version u))
  | Err _ => mret tt
  end.

(** [install_crash_handlers()] of the smoke test stops at the first failure. *)
Fixpoint smoke_install_handlers (signals : list Z) : probe bool :=
  match signals with
  | [] => mret true
  | signal_number :: rest =>
      r ← kernel (k_sigaction signal_number);
      match r with Ok _ => smoke_install_handlers rest | Err _ => mret false end
  end.

(** The lines of [run_smoke]; its errors go to stderr. *)
Definition print_smoke_line (line : log_line) : probe unit :=
  tee_printf (if bool_decide (line.1 = "A32ERR") then Stderr else Stdout) line.

Section smoke_main.
Context {I : Type} (jit_new : option Z -> I)
        (jit_step : @Jit I -> jit_prog MappedGuestMemory.t (@Jit I)).

(** The [try] block; [construct] is the outcome of [MappedGuestMemory memory;], an
    exception with its [what()] or the memory. *)
Definition run_smoke_guarded (construct : result string MappedGuestMemory.t) (exercise_fault : bool)
    : probe outcome :=
  match construct with
  | Err what =>
      error_printf "A32ERR" (a32err "android_runtime_smoke" "EXCEPTION" what) ;;
      log_printf "runtime_smoke.complete" (LBool false) ;;
      mret (Exit 1)
  | Ok memory =>
      let '(result, lines, _) := run_smoke jit_new jit_step memory exercise_fault in
      for_each print_smoke_line lines ;;
      log_printf "runtime_smoke.complete" (LBool (result =? 0)) ;;
      mret (Exit result)
  end.

(** From the crash handlers on. *)
Definition smoke_run (info : HostInfo) (construct : result string MappedGuestMemory.t) (a : SmokeArguments)
    : probe outcome :=
  crash_handlers_installed ← smoke_install_handlers crash_signals;
  log_printf "diagnostics.crash_markers" (LText (if crash_handlers_installed then "enabled" else "partial")) ;;
  log_printf "runtime_smoke.version" (LUnsigned 1) ;;
  smoke_print_environment info ;;
  if smoke_crash_test a && negb crash_handlers_installed then
    error_printf "A32ERR" (a32err "android_runtime_smoke" "CRASH_HANDLER_SETUP"
                             "crash test requires all signal handlers") ;;
    mret (Exit 1)
  else if smoke_crash_test a then announce_crash_test ;; mret Aborted
  else run_smoke_guarded construct (exercise_fault a).

Definition smoke_main (h : Host) (info : HostInfo) (fd : Z) (construct : result string MappedGuestMemory.t)
    (argv : list (list Z)) : probe outcome :=
  match parse_smoke_loop (Build_SmokeArguments None false false) argv with
  | None =>
      error_printf "usage" (LText ("android_runtime_smoke [--log-file PATH] "
                                   ++ "[--exercise-fastmem-fault | --crash-test]")) ;;
      mret (Exit 2)
  | Some a =>
      if exercise_fault a && smoke_crash_test a then
        error_printf "usage" (LText "--exercise-fastmem-fault and --crash-test are mutually exclusive") ;;
        mret (Exit 2)
      else
      match smoke_configure_logging h (smoke_log_path a) with
      | Some selected_log =>
          attach_log fd ;;
          log_printf "diagnostics.file_log" (LText "enabled") ;;
          log_printf "diagnostics.log_file" (LPath selected_log)
      | None => log_printf "diagnostics.file_log" (LText "unavailable")
      end ;;
      smoke_run info construct a
  end.
End smoke_main.

End programs.

Arguments ProbeState : clear implicits.
Arguments probe : clear implicits.

(** ** The probe leaves the address space as it found it *)
Section leaves_no_trace.
Context {K : Type} `{HostKernelSpec K}.

(** Programs and what they leave of the kernel. *)
Definition triple {A} (R : K -> Prop) (p : probe K A) (Q : A -> K -> Prop) : Prop :=
  forall s, R (ps_kernel s) -> Q (p s).1 (ps_kernel (p s).2).

Lemma triple_bind {A B} R (p : probe K A) (f : A -> probe K B) Q Q' :
  triple R p Q -> (forall a, triple (Q a) (f a) Q') -> triple R (p ≫= f) Q'.
Proof.
  intros Hp Hf s Hs. unfold mbind, probe_bind. specialize (Hp s Hs). destruct (p s) as [a s']. by apply Hf.
Qed.

Lemma triple_assoc {A B C} R (p : probe K A) (f : A -> probe K B) (g : B -> probe K C) Q :
  triple R ((p ≫= f) ≫= g) Q -> triple R (p ≫= fun a => f a ≫= g) Q.
Proof.
  intros Ht s Hs. specialize (Ht s Hs). unfold mbind, probe_bind in *. by destruct (p s) as [a s'].
Qed.

Lemma triple_ret {A} (R : K -> Prop) (a : A) (Q : A -> K -> Prop) :
  (forall k, R k -> Q a k) -> triple R (mret a : probe K A) Q.
Proof. intros HQ s Hs. by apply HQ. Qed.

Lemma triple_kernel {A} (R : K -> Prop) (call : K -> A * K) (Q : A -> K -> Prop) :
  (forall k a k', R k -> call k = (a, k') -> Q a k') -> triple R (kernel call) Q.
Proof.
  intros Hc s Hs. unfold kernel. destruct (call (ps_kernel s)) as [a k'] eqn:E. by apply (Hc _ _ _ Hs).
Qed.

(** Printing does not involve the kernel. *)
Definition silent {A} (p : probe K A) : Prop := forall s, ps_kernel (p s).2 = ps_kernel s.

Lemma silent_bind {A B} (p : probe K A) (f : A -> probe K B) :
  silent p -> (forall a, silent (f a)) -> silent (p ≫= f).
Proof.
  intros Hp Hf s. unfold mbind, probe_bind. specialize (Hp s). destruct (p s) as [a s']. cbn in *.
  by rewrite Hf.
Qed.

Lemma silent_ret {A} (a : A) : silent (mret a).
Proof. done. Qed.

Lemma silent_print st line : silent (tee_printf st line).
Proof. done. Qed.

Lemma silent_for_each {A} (body : A -> probe K unit) l : (forall x, silent (body x)) -> silent (for_each body l).
Proof. intros Hb. induction l; cbn; [done|]. by apply silent_bind. Qed.

Lemma triple_silent {A B} R (p : probe K A) (f : A -> probe K B) Q :
  silent p -> (forall a, triple R (f a) Q) -> triple R (p ≫= f) Q.
Proof.
  intros Hp Hf. apply (triple_bind R p f (fun _ => R)); [|done]. intros s Hs. by rewrite Hp.
Qed.

Lemma triple_print {A} R (p : probe K A) (Q : A -> K -> Prop) :
  silent p -> (forall a k, R k -> Q a k) -> triple R p Q.
Proof. intros Hp HQ s Hs. rewrite Hp. by apply HQ. Qed.
End leaves_no_trace.

Ltac quiet :=
  unfold print_errno, log_printf, error_printf, print_property, when;
  repeat first
    [ apply silent_print | apply silent_ret | (apply silent_bind; [|intros ?])
    | (apply silent_for_each; intros ?) | case_match ].

(** Symbolic execution: printing, then whatever comes next. *)
Ltac skip := repeat (apply triple_silent; [solve [quiet]|intros ?]).

Section experiments.
Context {K : Type} `{HostKernelSpec K}.

Lemma silent_environment info : silent (K := K) (print_environment info).
Proof. unfold print_environment. quiet. Qed.

Lemma silent_min_addr info : silent (K := K) (print_mmap_min_addr info).
Proof. unfold print_mmap_min_addr. quiet. Qed.

Lemma silent_low_mappings info : silent (K := K) (print_low_mappings info).
Proof. unfold print_low_mappings. quiet. Qed.

Lemma silent_logging_state state b : silent (K := K) (print_logging_state state b).
Proof. unfold print_logging_state. quiet. Qed.

(** From a kernel that [k0] became. *)
Definition since (k0 : K) : K -> Prop := untouched k0.

Definition owning (k0 : K) (a len : Z) (k : K) : Prop := exists k1, untouched k0 k1 /\ holding a len k1 k.

Lemma since_same k0 k k' :
  since k0 k -> (forall x, k_prot k' x = k_prot k x /\ k_byte k' x = k_byte k x) -> since k0 k'.
Proof. intros Hk Hs. unfold since. etransitivity; [exact Hk|]. by apply same_untouched. Qed.

Lemma triple_mmap k0 hint len prot flags :
  (k_page | len) -> Z.land flags MAP_ANONYMOUS <> 0 ->
  triple (since k0) (kernel (k_mmap hint len prot flags))
    (fun r k => match r with Ok a => owning k0 a len k | Err _ => since k0 k end).
Proof.
  intros Hl Hfl. apply triple_kernel. intros k r k' Hk E. destruct r as [a|e].
  - exists k. split; [done|]. eapply mmap_holding; [done|exact Hfl|done].
  - eapply since_same; [exact Hk|]. intros x. by eapply spec_mmap_err.
Qed.

Lemma triple_munmap k0 a len :
  (k_page | len) -> 0 < len -> triple (owning k0 a len) (kernel (k_munmap a len)) (fun _ => since k0).
Proof.
  intros Hl Hpos. apply triple_kernel. intros k r k' (k1 & Hk & Hh) E. unfold since. etransitivity; [exact Hk|].
  by eapply holding_munmap.
Qed.

Lemma triple_mprotect k0 a len b n prot :
  (k_page | n) -> 0 < n -> (forall x, in_range b n x -> in_range a len x) ->
  triple (owning k0 a len) (kernel (k_mprotect b n prot)) (fun _ => owning k0 a len).
Proof.
  intros Hn Hpos Hs. apply triple_kernel. intros k r k' (k1 & Hk & Hh) E. exists k1. split; [done|].
  by eapply (holding_mprotect a len k1 k b n).
Qed.

Lemma owning_untouched k0 a len k k' : owning k0 a len k -> untouched k k' -> owning k0 a len k'.
Proof. intros (k1 & H1 & H2) Hu. exists k1. split; [done|]. by eapply holding_untouched. Qed.

Lemma owning_store k0 a len b bs k :
  (forall x, in_range b (Z.of_nat (length bs)) x -> in_range a len x) ->
  owning k0 a len k -> owning k0 a len (k_store b bs k).
Proof. intros Hs (k1 & H1 & H2). exists k1. split; [done|]. by apply holding_store. Qed.

Lemma triple_store k0 a len b bs :
  (forall x, in_range b (Z.of_nat (length bs)) x -> in_range a len x) ->
  triple (owning k0 a len) (kernel (fun k => (tt, k_store b bs k))) (fun _ => owning k0 a len).
Proof. intros Hs. apply triple_kernel. intros k r k' Ho [= <- <-]. by apply owning_store. Qed.

(** A probe experiment leaves the kernel untouched. *)
Definition tidy {A} (p : probe K A) : Prop := forall k0, triple (since k0) p (fun _ => since k0).

Lemma fastmem_tidy : tidy (probe_fastmem_reservation k_page).
Proof.
  intros k0. unfold probe_fastmem_reservation. cbv zeta. destruct spec_page as (Hp1 & Hp2 & Hw).
  eapply triple_bind; [by apply (triple_mmap k0)|]. intros [base|e]; [|apply triple_print; [quiet|done]]. skip.
  eapply triple_bind; [apply (triple_mprotect k0 base kFourGiB); [apply page_refl|apply page_positive|unfold in_range, kFourGiB; lia]|].
  intros committed. apply (triple_bind _ _ _ (fun _ => owning k0 base kFourGiB)).
  - destruct committed as [u|e]; [|apply triple_print; [quiet|done]].
    eapply triple_bind; [apply triple_store; unfold in_range, kFourGiB; cbn; lia|intros ?].
    apply triple_silent; [done|intros value]. skip.
    eapply triple_bind; [apply (triple_mprotect k0 base kFourGiB); [apply page_refl|apply page_positive|unfold in_range, kFourGiB; lia]|].
    intros r. apply triple_print; [destruct r; quiet|done].
  - intros _. eapply triple_bind; [by apply triple_munmap|]. intros r. apply triple_print; [destruct r; quiet|done].
Qed.

Lemma tidy_owned {A} (p : probe K A) k0 a len :
  tidy p -> triple (owning k0 a len) p (fun _ => owning k0 a len).
Proof.
  intros Hp s Hs. eapply owning_untouched; [exact Hs|]. apply (Hp (ps_kernel s)). unfold since. reflexivity.
Qed.

Lemma tidy_bind {A B} (p : probe K A) (f : A -> probe K B) : tidy p -> (forall a, tidy (f a)) -> tidy (p ≫= f).
Proof. intros Hp Hf k0. eapply triple_bind; [apply Hp|]. intros a. apply Hf. Qed.

Lemma tidy_silent {A} (p : probe K A) : silent p -> tidy p.
Proof. intros Hp k0. by apply triple_print. Qed.

Lemma tidy_for_each {A} (body : A -> probe K unit) l : (forall x, tidy (body x)) -> tidy (for_each body l).
Proof. intros Hb. induction l; cbn; [by apply tidy_silent|]. by apply tidy_bind. Qed.

(** Map a page, look at the result, unmap it. *)
Lemma tidy_mapped {A} hint prot flags (f : result Z Z -> probe K A) :
  Z.land flags MAP_ANONYMOUS <> 0 -> (forall e, tidy (f (Err e))) ->
  (forall k0 a, triple (owning k0 a k_page) (f (Ok a)) (fun _ => since k0)) ->
  tidy (kernel (k_mmap hint k_page prot flags) ≫= f).
Proof.
  intros Hfl He Ho k0. eapply triple_bind; [apply triple_mmap; [apply page_refl|exact Hfl]|]. intros [a|e]; [apply Ho|apply He].
Qed.

Lemma unmap_then {A} k0 a (f : result Z unit -> probe K A) :
  (forall r, silent (f r)) -> triple (owning k0 a k_page) (kernel (k_munmap a k_page) ≫= f) (fun _ => since k0).
Proof. intros Hf. eapply triple_bind; [apply triple_munmap; [apply page_refl|apply page_positive]|]. intros r. by apply triple_print. Qed.

Lemma candidate_tidy i requested : tidy (probe_candidate k_page i requested).
Proof.
  unfold probe_candidate. cbv zeta. apply tidy_mapped; [done|intros e; apply tidy_silent; quiet|].
  intros k0 actual. skip. destruct (negb _); skip; [apply unmap_then; quiet|].
  apply triple_assoc. eapply triple_bind; [|intros r; apply unmap_then; quiet].
  apply tidy_owned. apply tidy_mapped; [done|intros e; apply tidy_silent; quiet|].
  intros k1 collision. skip. apply unmap_then. quiet.
Qed.

Lemma fixed_noreplace_tidy : tidy (probe_fixed_noreplace k_page).
Proof. apply tidy_for_each. intros [i requested]. apply candidate_tidy. Qed.
End experiments.

(** ** The generated code *)
Section generated_code.
Context {K : Type} `{HostKernelSpec K}.

(** The encoding is that of a function returning 42. *)
Lemma generated_code_constant a : generated_code a = constant_function a 42.
Proof. unfold generated_code, constant_function. by case_bool_decide. Qed.

Lemma generated_code_fits a : Z.of_nat (length (generated_code a)) <= k_page.
Proof.
  destruct spec_page as [Hp _]. unfold generated_code. destruct (bool_decide _); [|cbn; lia].
  change (8 <= k_page). lia.
Qed.

(** The host gives the program a page to write code to and lets it make the page
    executable. *)
Definition jit_granted : Prop :=
  (forall k, exists a k', k_mmap None k_page (Z.lor PROT_READ PROT_WRITE) anonymous_flags k = (Ok a, k')) /\
  (forall a k, (k_page | a) -> (forall x, in_range a k_page x -> is_Some (k_prot k x)) ->
     (k_mprotect a k_page (Z.lor PROT_READ PROT_EXEC) k).1 = Ok tt).

(** The host never lets a page become executable. *)
Definition jit_refused : Prop :=
  forall a k, exists e, (k_mprotect a k_page (Z.lor PROT_READ PROT_EXEC) k).1 = Err e.

(** The program's page, with its protection and the code in it. *)
Record code_page (k0 : K) (a : Z) (code : list Z) (prot : Z) (k : K) : Prop := {
  cp_owning : owning k0 a k_page k;
  cp_prot x : in_range a k_page x -> k_prot k x = Some prot;
  cp_code i b : code !! i = Some b -> k_byte k (a + Z.of_nat i) = b;
}.

Lemma owning_mapped k0 a k x : owning k0 a k_page k -> in_range a k_page x -> is_Some (k_prot k x).
Proof. intros (k1 & _ & Hh). apply (ho_mapped _ _ _ _ Hh). Qed.

Lemma owning_aligned k0 a k : owning k0 a k_page k -> (k_page | a).
Proof. intros (k1 & _ & Hh). apply Hh. Qed.

Lemma mmap_code_page k0 hint prot flags k a k' :
  Z.land flags MAP_ANONYMOUS <> 0 ->
  since k0 k -> k_mmap hint k_page prot flags k = (Ok a, k') -> code_page k0 a [] prot k'.
Proof.
  intros Hfl Hk E. split; [| |done].
  - exists k. split; [done|]. eapply mmap_holding; [apply page_refl|exact Hfl|done].
  - intros x Hx. destruct (spec_mmap_ok _ _ _ _ _ _ _ page_refl Hfl E) as (_ & _ & _ & Hp & _). by rewrite Hp, decide_True.
Qed.

Lemma store_code_page k0 a prot code k :
  Z.land prot PROT_WRITE <> 0 -> Z.of_nat (length code) <= k_page ->
  code_page k0 a [] prot k -> code_page k0 a code prot (k_store a code k).
Proof.
  intros Hw Hlen [Ho Hp _]. split.
  - apply owning_store; [unfold in_range; lia|done].
  - intros x Hx. destruct (spec_store_other a code k x) as [-> _]. by apply Hp.
  - apply spec_store. intros x Hx. exists prot. split; [|done]. apply Hp. unfold in_range in *. lia.
Qed.

Lemma protect_code_page k0 a code prot prot' k r k' :
  code_page k0 a code prot k -> k_mprotect a k_page prot' k = (r, k') ->
  owning k0 a k_page k' /\ (r = Ok tt -> code_page k0 a code prot' k').
Proof.
  intros [Ho Hp Hc] E.
  assert (owning k0 a k_page k') as Ho'.
  { destruct Ho as (k1 & H1 & H2). exists k1. split; [done|].
    eapply (holding_mprotect a k_page k1 k a k_page); [apply page_refl|apply page_positive|done|done|done]. }
  apply spec_mprotect in E as (n & Hn & _ & Hok & Hb & Hp'); [|apply page_refl|apply page_positive].
  split; [done|]. intros Hr. destruct (Hok Hr) as [-> Hm]. split; [done|..].
  - intros x Hx. rewrite Hp', decide_True; auto.
  - intros i b Hi. rewrite Hb. by apply Hc.
Qed.

Lemma call_code_page k0 a arch prot k :
  arch = k_arch -> Z.land prot PROT_EXEC <> 0 ->
  code_page k0 a (generated_code arch) prot k -> k_call a k = (42, k).
Proof.
  intros -> Hx [_ Hp Hc]. apply spec_call; [lia|]. intros i b Hb. rewrite <- generated_code_constant in Hb.
  split; [by apply Hc|]. exists prot. split; [|done]. apply Hp.
  pose proof (lookup_lt_Some _ _ _ Hb). pose proof (generated_code_fits k_arch). unfold in_range. lia.
Qed.

(** What the answer of the JIT check depends on. *)
Definition jit_answer (ok : bool) : Prop := (jit_granted -> ok = true) /\ (jit_refused -> ok = false).

Lemma not_granted : ~ jit_granted -> jit_answer false.
Proof. intros Hg. by split. Qed.

Lemma not_refused : ~ jit_refused -> jit_answer true.
Proof. intros Hg. by split. Qed.

(** Unmap the page, keeping what is known of the answer. *)
Lemma unmap_page k0 a (P : Prop) {A} (f : result Z unit -> probe K A) (Q : A -> Prop) :
  (forall r, silent (f r)) -> (forall r s, P -> Q (f r s).1) ->
  triple (fun k => owning k0 a k_page k /\ P) (kernel (k_munmap a k_page) ≫= f) (fun b k => since k0 k /\ Q b).
Proof.
  intros Hf HQ. apply (triple_bind _ _ _ (fun _ k => since k0 k /\ P)).
  - intros s [Hs HP]. split; [|done]. by apply (triple_munmap k0 a k_page page_refl page_positive).
  - intros r s [Hs HP]. rewrite Hf. auto.
Qed.

Lemma jit_run k0 info execute :
  arch info = k_arch ->
  triple (since k0) (probe_jit_wx info k_page execute) (fun ok k => since k0 k /\ jit_answer ok).
Proof.
  intros Ha. unfold probe_jit_wx.
  apply (triple_bind _ _ _ (fun r k => match r with
    | Ok a => code_page k0 a [] (Z.lor PROT_READ PROT_WRITE) k | Err _ => since k0 k /\ ~ jit_granted end)).
  { apply triple_kernel. intros k [a|e] k' Hk E; [by eapply mmap_code_page; [|exact Hk|exact E]|]. split.
    - eapply since_same; [exact Hk|]. intros x. by eapply spec_mmap_err.
    - intros [Hg _]. destruct (Hg k) as (? & ? & E'). by rewrite E in E'. }
  intros [a|e]; [|skip; apply triple_ret; intros k [Hk Hg]; split; [done|by apply not_granted]].
  apply (triple_bind _ _ _ (fun _ => code_page k0 a (generated_code (arch info)) (Z.lor PROT_READ PROT_WRITE))).
  { apply triple_kernel. intros k u k' Hk [= <- <-].
    apply store_code_page; [done|apply generated_code_fits|done]. }
  intros _. apply (triple_bind _ _ _ (fun r k => match r with
    | Ok _ => code_page k0 a (generated_code (arch info)) (Z.lor PROT_READ PROT_EXEC) k /\ ~ jit_refused
    | Err _ => owning k0 a k_page k /\ ~ jit_granted end)).
  { apply triple_kernel. intros k r k' Hk E. pose proof (protect_code_page _ _ _ _ _ _ _ _ Hk E) as [Ho Hok].
    destruct r as [[]|e].
    - split; [by apply Hok|]. intros Hr. destruct (Hr a k) as [e Er]. by rewrite E in Er.
    - split; [done|]. intros [_ Hg]. rewrite (surjective_pairing (k_mprotect _ _ _ _)) in E.
      injection E as E _. rewrite Hg in E; [done|apply (owning_aligned k0 a k), Hk|]. intros x. apply (owning_mapped k0), Hk. }
  intros [u|e].
  - skip. apply (triple_bind _ _ _ (fun ok k => owning k0 a k_page k /\ (ok = true /\ ~ jit_refused))).
    + destruct execute; [|skip; apply triple_ret; intros k [Hk Hr]; split; [apply Hk|done]].
      apply (triple_bind _ _ _ (fun r k => r = 42 /\ owning k0 a k_page k /\ ~ jit_refused)).
      { apply triple_kernel. intros k r k' [Hk Hr] E.
        pose proof Hk as E'%call_code_page; [|done|done]. rewrite E' in E. injection E as <- <-. split; [done|]. split; [apply Hk|done]. }
      intros r. skip. apply triple_ret. by intros k (-> & Hk & Hr).
    + intros ok. apply unmap_page; [intros r; quiet|]. intros r s [-> Hr]. destruct r; by apply not_refused.
  - skip. apply unmap_page; [intros r; quiet|]. intros r s Hg. by apply not_granted.
Qed.
End generated_code.

(** ** [main] of the probe *)
Section probe_main.
Context {K : Type} `{HostKernelSpec K}.

Lemma install_handlers_tidy signals installed : tidy (K := K) (install_handlers signals installed).
Proof.
  revert installed. induction signals as [|n rest IH]; intros installed; cbn; [by apply tidy_silent|].
  apply tidy_bind.
  - intros k0. apply triple_kernel. intros k r k' Hk E. eapply since_same; [exact Hk|].
    intros x. by eapply spec_sigaction.
  - intros [u|e]; [apply IH|]. do 2 (apply tidy_bind; [apply tidy_silent; quiet|intros ?]). apply IH.
Qed.

(** The exit status of a complete run. *)
Definition probe_status (a : ProbeArguments) (o : outcome) : Prop :=
  (jit_granted -> o = Exit 0) /\
  (jit_refused -> o = Exit (if execute_generated_code a then 1 else 0)).

(** What is known of the system the probe runs on. *)
Definition probe_host (info : HostInfo) : Prop := arch info = k_arch /\ page_size_raw info = k_page.

Lemma run_probe_run k0 info a :
  probe_host info ->
  triple (since k0) (run_probe info a) (fun o k => since k0 k /\ probe_status a o).
Proof.
  intros [Ha Hp]. unfold run_probe. destruct spec_page as [Hpos _]. rewrite Hp.
  rewrite (proj2 (Z.leb_gt k_page 0)) by lia. cbv zeta.
  do 4 (apply triple_silent;
    [first [apply silent_environment|apply silent_min_addr|apply silent_low_mappings|quiet]|intros ?]).
  eapply triple_bind; [apply fastmem_tidy|intros ?].
  eapply triple_bind; [apply fixed_noreplace_tidy|intros ?].
  eapply triple_bind; [by apply jit_run|intros ok]. skip. apply triple_silent; [done|intros ?].
  apply triple_ret. intros k [Hk [Hg Hr]]. split; [done|]. split; intros Hj.
  - rewrite (Hg Hj). by rewrite andb_false_r.
  - rewrite (Hr Hj). by rewrite andb_true_r.
Qed.

(** The log file the probe was asked for cannot be opened. *)
Definition log_refused (h : Host) (a : ProbeArguments) : bool :=
  (bool_decide (is_Some (requested_log_file a)) || bool_decide (is_Some (host_getenv h "LIBA32ANDROID_LOG_FILE")))
  && negb (disable_file_log a)
  && negb (file_enabled (configure_logging h (requested_log_file a) (disable_file_log a))).

(** Arguments with which the probe runs its experiments. *)
Definition runs_experiments (h : Host) (a : ProbeArguments) : Prop :=
  log_refused h a = false /\ crash_test a = false.

Lemma probe_main_run k0 h info fd argv :
  probe_host info ->
  triple (since k0) (probe_main h info fd argv)
    (fun o k => since k0 k /\
       forall a, parse_probe_arguments argv = Some a -> runs_experiments h a -> probe_status a o).
Proof.
  intros Hi. unfold probe_main. destruct (parse_probe_arguments argv) as [a|].
  2: { unfold print_usage. skip. apply triple_ret. by intros. }
  cbv zeta. fold (log_refused h a). apply triple_silent; [unfold when; by case_match|intros _].
  destruct (log_refused h a) eqn:Hl.
  { skip. apply triple_ret. intros k Hk. split; [done|]. intros ? [= <-] [Hr _]. congruence. }
  apply triple_silent; [apply silent_logging_state|intros _].
  eapply triple_bind; [apply install_handlers_tidy|intros installed]. skip.
  destruct (crash_test a) eqn:Hc; cbn [andb].
  - destruct installed; cbn [negb]; unfold announce_crash_test; skip; apply triple_ret; intros k Hk;
      (split; [done|]); intros ? [= <-] [_ Hr]; congruence.
  - intros s Hs. destruct (run_probe_run k0 info a Hi s Hs) as [Hk Hst]. split; [done|]. by intros ? [= <-] _.
Qed.

(** C40: the probe leaves the address space as it found it, and its exit status answers
    its question. Whatever the arguments, the log file, the answers of the kernel and
    the branch taken (the 4 GiB reservation, the six fixed mappings, the collision
    experiment, the generated code, every error path), every mapping that existed
    before is still there with its protection and contents, and when [munmap] of mapped pages
    succeeds, nothing the probe mapped is left behind. When the experiments run, the
    status is 0 on a host that grants a writable page and lets it become executable
    (the generated code is in place, is called and returns 42); on a host that never
    lets a page become executable it is 1 exactly when execution was requested. *)
Theorem probe_main_spec h info fd argv (s : ProbeState K) :
  probe_host info ->
  untouched (ps_kernel s) (ps_kernel (probe_main h info fd argv s).2) /\
  forall a, parse_probe_arguments argv = Some a -> runs_experiments h a ->
    probe_status a (probe_main h info fd argv s).1.
Proof. intros Hi. apply (probe_main_run (ps_kernel s) h info fd argv Hi s). unfold since. reflexivity. Qed.
End probe_main.

(** ** Runs on the small kernel *)
Module ToyHost.
Import Toy.

Lemma toy_grants : @jit_granted (kernel_state true) _ _.
Proof.
  split.
  - intros k. do 2 eexists. reflexivity.
  - intros a k Ha Hm. cbn. unfold mprotect. rewrite page_aligned; [|done|reflexivity|done]. cbn [negb andb].
    rewrite (proj2 (all_mapped_spec k a P Ha ltac:(reflexivity)) Hm). done.
Qed.

Lemma toy_refuses : @jit_refused (kernel_state false) _ _.
Proof.
  intros a k. cbn. unfold mprotect. destruct (aligned a P); cbn [negb]; by eexists.
Qed.

(** A host without the shared download directory; the log goes below HOME. *)
Definition host : Host := {|
  host_mkdir := fun d => if bool_decide (d = bytes_of_string "/sdcard") then Some 13 else None;
  host_fopen := fun _ => None;
  host_getenv := fun name => if bool_decide (name = "HOME") then Some (bytes_of_string "/home") else None;
|}.

Definition info : HostInfo := {|
  ndk_api := Some 29; arch := "x86_64"; page_size_raw := P;
  system_property := fun _ => "";
  uname := Err 1; mmap_min_addr := Ok (Some 32768);
  self_maps := Ok [Some (65536, 131072, "r-xp"); None];
|}.

Definition start (exec : bool) : ProbeState (kernel_state exec) :=
  {| ps_kernel := empty exec; ps_console := []; ps_log_file := []; ps_log_open := false; ps_crash_log_fd := -1 |}.

Definition arguments : list (list Z) := [bytes_of_string "--execute-generated-code"].
End ToyHost.

#[local] Existing Instance Toy.toy_kernel.
#[local] Existing Instance Toy.toy_spec.

(** The probe really runs there: it reserves, collides, calls the code, and the
    kernel ends with no mapping. *)
Lemma probe_main_spec_witness :
  untouched (Toy.empty true) (ps_kernel (probe_main ToyHost.host ToyHost.info 3 ToyHost.arguments (ToyHost.start true)).2) /\
  (probe_main ToyHost.host ToyHost.info 3 ToyHost.arguments (ToyHost.start true)).1 = Exit 0 /\
  (probe_main ToyHost.host ToyHost.info 3 ToyHost.arguments (ToyHost.start false)).1 = Exit 1 /\
  existsb (fun '(_, (key, v)) => bool_decide (key = "jit_wx.result") && match v with LSigned 42 => true | _ => false end)
    (ps_console (probe_main ToyHost.host ToyHost.info 3 ToyHost.arguments (ToyHost.start true)).2) = true.
Proof.
  destruct (probe_main_spec ToyHost.host ToyHost.info 3 ToyHost.arguments (ToyHost.start true)) as [H1 H2]; [done|].
  destruct (probe_main_spec ToyHost.host ToyHost.info 3 ToyHost.arguments (ToyHost.start false)) as [_ H3]; [done|].
  split; [exact H1|]. split; [|split; [|by vm_compute]].
  - eapply (proj1 (H2 _ eq_refl (conj eq_refl eq_refl))), ToyHost.toy_grants.
  - eapply (proj2 (H3 _ eq_refl (conj eq_refl eq_refl))), ToyHost.toy_refuses.
Defined.

(** ** The log file is a transcript *)
Section transcript.
Context {K : Type} `{HostKernel K}.

(** From [s] to [s'], what was printed also went to the log file when it was open. *)
Definition teed (s s' : ProbeState K) : Prop :=
  exists lines, ps_console s' = ps_console s ++ lines /\
    ps_log_file s' = ps_log_file s ++ (if ps_log_open s then lines.*2 else []).

(** A program that prints, and one that also leaves the log file attached. *)
Definition prints {A} (p : probe K A) : Prop := forall s, teed s (p s).2.
Definition faithful {A} (p : probe K A) : Prop :=
  forall s, teed s (p s).2 /\ ps_log_open (p s).2 = ps_log_open s /\ ps_crash_log_fd (p s).2 = ps_crash_log_fd s.

Lemma faithful_prints {A} (p : probe K A) : faithful p -> prints p.
Proof. intros Hp s. apply Hp. Qed.

Lemma teed_refl s : teed s s.
Proof. exists []. rewrite app_nil_r. split; [done|]. by destruct (ps_log_open s); rewrite app_nil_r. Qed.

Lemma teed_trans s1 s2 s3 : ps_log_open s2 = ps_log_open s1 -> teed s1 s2 -> teed s2 s3 -> teed s1 s3.
Proof.
  intros Ho (l1 & C1 & F1) (l2 & C2 & F2). exists (l1 ++ l2). rewrite C2, C1, F2, F1, Ho, app_assoc.
  split; [done|]. destruct (ps_log_open s1); [|by rewrite !app_nil_r]. by rewrite fmap_app, app_assoc.
Qed.

Lemma prints_bind {A B} (p : probe K A) (f : A -> probe K B) :
  faithful p -> (forall a, prints (f a)) -> prints (p ≫= f).
Proof.
  intros Hp Hf s. unfold mbind, probe_bind. destruct (Hp s) as (Ht & Ho & _). destruct (p s) as [a s'].
  eapply teed_trans; [exact Ho|exact Ht|apply Hf].
Qed.

Lemma faithful_bind {A B} (p : probe K A) (f : A -> probe K B) :
  faithful p -> (forall a, faithful (f a)) -> faithful (p ≫= f).
Proof.
  intros Hp Hf s. split; [by apply prints_bind; [|intros a; apply faithful_prints]|].
  unfold mbind, probe_bind. destruct (Hp s) as (_ & Ho & Hfd). destruct (p s) as [a s'].
  destruct (Hf a s') as (_ & Ho' & Hfd'). cbn in *. split; congruence.
Qed.

Lemma faithful_ret {A} (a : A) : faithful (mret a).
Proof. intros s. split; [apply teed_refl|done]. Qed.

Lemma faithful_print st line : faithful (tee_printf st line).
Proof.
  intros s. split; [|done]. exists [(st, line)]. cbn. split; [done|].
  destruct (ps_log_open s); [done|by rewrite app_nil_r].
Qed.

Lemma faithful_kernel {A} (call : K -> A * K) : faithful (kernel call).
Proof.
  intros s. unfold kernel. destruct (call (ps_kernel s)) as [a k]. split; [|done].
  destruct (teed_refl s) as (lines & HC & HF). by exists lines.
Qed.

Lemma faithful_for_each {A} (body : A -> probe K unit) l :
  (forall x, faithful (body x)) -> faithful (for_each body l).
Proof. intros Hb. induction l; cbn; [apply faithful_ret|]. by apply faithful_bind. Qed.

Lemma prints_close {A} (a : A) : prints (close_log ;; mret a).
Proof. intros s. destruct (teed_refl s) as (lines & HC & HF). by exists lines. Qed.
End transcript.

#[export] Hint Resolve faithful_ret faithful_print faithful_kernel : probe.

(** Programs made of prints and kernel calls. *)
Ltac recorded :=
  unfold print_usage, announce_crash_test, print_property, print_errno, when; unfold log_printf, error_printf;
  repeat first
    [ solve [eauto with probe] | (apply faithful_bind; [|intros ?])
    | (apply faithful_for_each; intros ?) | case_match ].

Section transcript_main.
Context {K : Type} `{HostKernel K}.

Lemma install_faithful signals b :
  faithful (K := K) (install_handlers signals b) /\ faithful (K := K) (smoke_install_handlers signals).
Proof.
  revert b. induction signals as [|n rest IH]; intros b; cbn; [split; recorded|].
  split; (apply faithful_bind; [apply faithful_kernel|]); intros [u|e]; try apply IH; [|exact b|apply faithful_ret].
  do 2 (apply faithful_bind; [recorded|intros ?]). apply IH.
Qed.

Lemma experiments_faithful info page_size execute :
  faithful (K := K) (print_environment info) /\ faithful (K := K) (print_mmap_min_addr info) /\
  faithful (K := K) (print_low_mappings info) /\ faithful (K := K) (probe_fastmem_reservation page_size) /\
  faithful (K := K) (probe_fixed_noreplace page_size) /\ faithful (K := K) (probe_jit_wx info page_size execute).
Proof.
  split_and!; unfold print_environment, print_mmap_min_addr, print_low_mappings, probe_fastmem_reservation,
    probe_fixed_noreplace, probe_candidate, probe_jit_wx; cbv zeta; recorded.
Qed.

Lemma logging_state_faithful state b : faithful (K := K) (print_logging_state state b).
Proof. unfold print_logging_state. recorded. Qed.

Lemma run_probe_prints info a : prints (K := K) (run_probe info a).
Proof.
  unfold run_probe. destruct (page_size_raw info <=? 0); [apply faithful_prints; recorded|].
  destruct (experiments_faithful info (page_size_raw info) (execute_generated_code a)) as (H1 & H2 & H3 & H4 & H5 & H6).
  cbv zeta.
  repeat first [apply prints_close | (apply prints_bind; [first [done|recorded]|intros ?])].
Qed.

(** A program's first state. *)
Definition at_start (k : K) : ProbeState K :=
  {| ps_kernel := k; ps_console := []; ps_log_file := []; ps_log_open := false; ps_crash_log_fd := -1 |}.

(** The log file is a transcript of the whole run. *)
Lemma transcript_attached {A} (p : probe K A) (enabled : bool) fd k :
  prints p ->
  let s' := ((when enabled (attach_log fd) ;; p) (at_start k)).2 in
  ps_log_file s' = if enabled then (ps_console s').*2 else [].
Proof.
  intros Hp. unfold mbind, probe_bind, when. destruct enabled; cbn.
  - destruct (Hp {| ps_kernel := k; ps_console := []; ps_log_file := []; ps_log_open := true; ps_crash_log_fd := fd |})
      as (lines & -> & ->). done.
  - destruct (Hp (at_start k)) as (lines & _ & ->). done.
Qed.

(** Whether a run of a program writes a log file. *)
Definition probe_logs (h : Host) (argv : list (list Z)) : bool :=
  match parse_probe_arguments argv with
  | Some a => file_enabled (configure_logging h (requested_log_file a) (disable_file_log a))
  | None => false
  end.

Definition smoke_logs (h : Host) (argv : list (list Z)) : bool :=
  match parse_smoke_arguments argv with
  | Some a => bool_decide (is_Some (smoke_configure_logging h (smoke_log_path a)))
  | None => false
  end.

Lemma probe_transcript h info fd argv k :
  let s' := (probe_main h info fd argv (at_start k)).2 in
  ps_log_file s' = if probe_logs h argv then (ps_console s').*2 else [].
Proof.
  unfold probe_main, probe_logs. destruct (parse_probe_arguments argv) as [a|]; [|done]. cbv zeta.
  apply transcript_attached. destruct (_ && _ && _); [apply faithful_prints; recorded|].
  apply prints_bind; [apply logging_state_faithful|intros ?].
  apply prints_bind; [apply install_faithful|intros installed].
  apply prints_bind; [recorded|intros ?].
  destruct (crash_test a && _); [apply faithful_prints; recorded|].
  destruct (crash_test a); [apply faithful_prints; recorded|apply run_probe_prints].
Qed.

Section smoke.
Context {I : Type} (jit_new : option Z -> I) (jit_step : @Jit I -> jit_prog MappedGuestMemory.t (@Jit I)).

Lemma smoke_run_faithful info construct a : faithful (K := K) (smoke_run jit_new jit_step info construct a).
Proof.
  apply faithful_bind; [apply (install_faithful _ true)|intros installed].
  unfold smoke_print_environment, run_smoke_guarded, print_smoke_line. recorded.
Qed.

Lemma smoke_from enabled fd k (report : probe K unit) info construct a :
  faithful report ->
  let s' := ((when enabled (attach_log fd) ;; report ;; smoke_run jit_new jit_step info construct a) (at_start k)).2 in
  ps_log_file s' = if enabled then (ps_console s').*2 else [].
Proof.
  intros Hr. apply transcript_attached, faithful_prints, faithful_bind; [done|intros _; apply smoke_run_faithful].
Qed.

Lemma smoke_transcript h info fd construct argv k :
  let s' := (smoke_main jit_new jit_step h info fd construct argv (at_start k)).2 in
  ps_log_file s' = if smoke_logs h argv then (ps_console s').*2 else [].
Proof.
  unfold smoke_main, smoke_logs, parse_smoke_arguments.
  destruct (parse_smoke_loop _ argv) as [a|]; [|done]. destruct (exercise_fault a && smoke_crash_test a); [done|].
  destruct (smoke_configure_logging h (smoke_log_path a)) as [selected|].
  - rewrite bool_decide_true by done.
    refine (smoke_from true fd k (log_printf "diagnostics.file_log" (LText "enabled") ;;
              log_printf "diagnostics.log_file" (LPath selected)) info construct a _). recorded.
  - rewrite bool_decide_false by (by intros []).
    refine (smoke_from false fd k (log_printf "diagnostics.file_log" (LText "unavailable")) info construct a _). recorded.
Qed.

(** In both programs the log file is a transcript of the console: whatever the
    arguments, the environment, the kernel's answers and the error paths, when the
    program has a log file it ends up holding exactly the lines printed to stdout and
    stderr, in order, and otherwise no file is written. *)
Theorem log_file_transcript h info fd construct argv k :
  (let s' := (probe_main h info fd argv (at_start k)).2 in
   ps_log_file s' = if probe_logs h argv then (ps_console s').*2 else []) /\
  (let s' := (smoke_main jit_new jit_step h info fd construct argv (at_start k)).2 in
   ps_log_file s' = if smoke_logs h argv then (ps_console s').*2 else []).
Proof. split; [apply probe_transcript|apply smoke_transcript]. Qed.
End smoke.
End transcript_main.

(** ** The smoke test's exit status *)
Section smoke_passes.
Context {K : Type} `{HostKernel K}.
Context {I : Type} (jit_new : option Z -> I) (jit_step : @Jit I -> jit_prog MappedGuestMemory.t (@Jit I)).
Context (fast : I -> Prop) (ps base : Z).

(** The memory the program constructed, whose host calls all succeed. *)
Definition fresh_memory (m : MappedGuestMemory.t) : Prop :=
  exists calls, MappedGuestMemory.make ps (Some base) calls = Some m /\ Forall (eq HostOk) calls.

Lemma guarded_passes m exercise (s : ProbeState K) :
  (run_smoke jit_new jit_step m exercise).1.1 = 0 ->
  (run_smoke_guarded jit_new jit_step (Ok m) exercise s).1 = Exit 0 /\
  last (ps_console (run_smoke_guarded jit_new jit_step (Ok m) exercise s).2)
  = Some (Stdout, ("runtime_smoke.complete", LBool true)).
Proof.
  unfold run_smoke_guarded. destruct (run_smoke jit_new jit_step m exercise) as [[r lines] m']. cbn [fst].
  intros ->. unfold mbind, probe_bind. destruct (for_each print_smoke_line lines s) as [u s']. cbn.
  by rewrite last_snoc.
Qed.

(** C25: on a freshly constructed guest memory whose host calls succeed and that has
    its fastmem window, with any page size of 8 bytes to 64 MiB, the runtime smoke
    test exits with 0 and ends its report with [runtime_smoke.complete=true], for any
    log file, signal setup and environment and for every JIT that keeps the fastmem
    contract [a32_jit]: it executes the test's instructions as the A32 architecture
    defines them, and each data access goes to the host page where the host protection
    permits it and otherwise to the environment's data callback (a JIT that prefers
    callbacks is outside the contract, and the test is meant to reject it). What the
    theorem derives from the code: all mappings, writes and permission changes succeed;
    the code pages are fetchable after [protect(rx)]; the host protection of the data
    page permits the store and the load, so that no callback runs and the result agrees
    with [read]; the unmapped page permits nothing, and the callback the access ends in
    records the fault. *)
Theorem smoke_main_passes h info fd m0 argv a (s : ProbeState K) :
  a32_jit jit_new jit_step fast -> 8 <= ps /\ ps * 49 <= 2 ^ 32 /\ ps mod 4 = 0 -> base <> 0 ->
  fresh_memory m0 -> parse_smoke_arguments argv = Some a -> smoke_crash_test a = false ->
  let '(o, s') := smoke_main jit_new jit_step h info fd (Ok m0) argv s in
  o = Exit 0 /\ last (ps_console s') = Some (Stdout, ("runtime_smoke.complete", LBool true)).
Proof.
  intros Hjit Hps Hbase (calls & Hm & Hc) Ha Hct.
  pose proof (run_smoke_passes jit_new jit_step fast ps base Hjit Hps Hbase calls m0 (exercise_fault a) Hm Hc) as Hrun.
  unfold smoke_main, parse_smoke_arguments in *. destruct (parse_smoke_loop _ argv) as [a'|]; [|done].
  destruct (exercise_fault a' && smoke_crash_test a'); [done|]. injection Ha as ->.
  match goal with |- context [(?p ;; smoke_run _ _ _ _ _) s] => set (report := p) end.
  unfold smoke_run, mbind, probe_bind. destruct (report s) as [u s1].
  destruct (smoke_install_handlers crash_signals s1) as [installed s2]. cbn -[run_smoke_guarded smoke_print_environment].
  destruct (smoke_print_environment info _) as [u' s3]. rewrite Hct. cbn [andb].
  rewrite (surjective_pairing (run_smoke_guarded _ _ _ _ _)). by apply guarded_passes.
Qed.
End smoke_passes.

Lemma smoke_main_passes_witness :
  exists m0, MappedGuestMemory.make 4096 (Some 65536) [] = Some m0 /\
    (smoke_main (fun _ => tt) demo_jit ToyHost.host ToyHost.info 3 (Ok m0)
       [bytes_of_string "--exercise-fastmem-fault"] (ToyHost.start true)).1 = Exit 0.
Proof.
  eexists. split; [reflexivity|].
  assert (Hw := smoke_main_passes (fun _ => tt) demo_jit (fun _ => True) 4096 65536 ToyHost.host ToyHost.info 3 _
    [bytes_of_string "--exercise-fastmem-fault"] (Build_SmokeArguments None true false) (ToyHost.start true)
    demo_jit_ok ltac:(split_and!; by vm_compute) ltac:(done)
    (ex_intro _ [] (conj eq_refl (Forall_nil_2 _))) eq_refl eq_refl).
  destruct (smoke_main _ _ _ _ _ _ _ _) as [o s']. apply Hw.
Defined.
